(* ===== verification/_CoqProject ===== *)
-Q . S2P
Prelude.v
ByteOrder.v
Posix.v
Numeric.v
Protocol.v
Commands.v
Store.v
DurableLog.v
Wal.v
Server.v
Startup.v
Concurrent.v
Client.v
UniqueFd.v
BlockingQueue.v
ThreadPool.v
PoolProgress.v
PoolFaults.v
PoolStart.v
WholeServer.v
AcceptLoop.v
Lifetime.v
ServerProgress.v
Programs.v
BenchMain.v
Packet.v
OrderBook.v
Engine.v
Ingress.v
WeakIngress.v
MockData.v
Pipeline.v
WeakPipeline.v
Edges.v
Parallel.v
Fixtures.v
Races.v
LineReversal.v
Diagnostic.v
Scaffolds.v
