(* ===== verification/Prelude.v ===== *)
(** * NetForge: a Rocq development of the C++ capstones

    The repository is a systems course.  Its program is two capstones with
    complete reference solutions: NetForge ([src/capstone/reference]), a
    multi-threaded key-value server over TCP with a write-ahead log, a client
    and a packet decoder; and a matching engine
    ([src/capstone/matching/solution-reference]), limit order books with a
    generator of mock orders.  The laboratories add a parallel sum, and exercises
    come with scaffolds and faulty programs.  This library translates their C++
    into Gallina and proves what makes it correct.

    ** The parts and how they interact

    A client ([client.cpp], [Client.v]) connects, sends one command as a frame
    and reads one frame back ([protocol.cpp], [Protocol.v] for framing and the
    exact I/O loops, [Commands.v] for the command parser).  The server's accept
    loop ([Server::run], [AcceptLoop.v]) hands each connection to the worker pool
    ([thread_pool.cpp], [ThreadPool.v]) through the bounded queue
    ([blocking_queue.hpp], [BlockingQueue.v]); the connection's descriptor is
    owned by a [UniqueFd] ([unique_fd.hpp], [UniqueFd.v]).  A worker runs the
    session ([Server::handle_client]), which executes each request
    ([Server::execute], both in [Server.v]): a mutation is appended to the log
    ([wal.cpp], [Wal.v]) before it is applied to the store ([store.cpp],
    [Store.v]).  [Concurrent.v] is [Server::execute] as the workers call it, many
    at once, around [mutation_mutex_], and [WholeServer.v] puts the pool and the
    sessions together.  [PoolProgress.v] has the measure that makes the pool
    terminate, [PoolFaults.v] its runs in which a push throws, [PoolStart.v] its
    constructor, which starts the workers one by one and may fail, [Lifetime.v] the server from its constructor over [run] to its
    destructor, with the accept loop as the caller of the pool, and
    [ServerProgress.v] its progress.  On construction ([Startup.v]) the server
    replays the log into the store and binds its listener.  [Programs.v] holds
    the programs [server_main.cpp] and [client_main.cpp] around them, and
    [BenchMain.v] the benchmark [bench_main.cpp].  The packet decoder and its
    program are in [Packet.v].

    The matching engine ([engine.cpp], [Engine.v]) keeps an order book
    ([order_book.cpp], [OrderBook.v]) per symbol; [ingress_queue.hpp]
    ([Ingress.v], and [WeakIngress.v] with its memory orders) is the lock-free
    queue that feeds it; [MockData.v] holds the
    generator, the CSV file and the programs that write and match a file
    ([mock_data.cpp], [mock_generate_main.cpp], [matching_main.cpp]).
    [Pipeline.v] puts them together as the matching benchmark
    ([apps/bench_main.cpp]) does: a producer, the queue, and the engine; and
    [WeakPipeline.v] does so with the queue's memory orders.
    [Edges.v] holds the publishers to Redis and Kafka ([redis_edge.cpp],
    [kafka_edge.cpp]).  [Parallel.v] is the parallelism laboratory
    ([labs/parallelism/reference.cpp] and [starter.cpp]).  [Fixtures.v] and
    [Races.v] are the exercises with an intended fault: the interview fixtures
    ([interview/fixtures]) and the debugging laboratory ([labs/debugging]);
    [LineReversal.v] is the program around the line-reversal exercise
    ([interview/quantiq-line-reversal/starter.cpp]).  [Diagnostic.v] is the
    practical diagnostic ([diagnostic]) with the contract of its function, and
    [Scaffolds.v] the learner's workspaces ([capstone/work],
    [capstone/matching/work]) as they stand before the exercises are solved.

    ** How code becomes definitions

    A C++ function is a Gallina function into [outcome]: [Done], an exception
    ([Threw]), undefined behaviour ([Undefined]: an out-of-bounds read, [front()]
    of an empty container, signed overflow), a system call that never returns
    ([Blocked]), or a used-up loop bound ([OutOfFuel]).  Members are records,
    enums and variants inductive types; unsigned arithmetic wraps explicitly
    ([u16], [u32], [u64]).  [std::unordered_map] is a finite map, [std::map] the
    list of its entries in key order, [std::deque] and [std::vector] lists.

    System calls are parameters: a script ([Posix.v]) lists what successive
    calls on a descriptor do (bytes, end of stream, [EINTR], errors), and theorems
    quantify over scripts.  The log's file is its contents with the part that was
    synced; a crash keeps the synced part and any prefix of the rest.  The byte
    order of the machine is a parameter (class [Host], [ByteOrder.v]), with
    instances for both orders.  [DurableLog] ([DurableLog.v]) is the interface
    between the server and its log: the server's theorems are proved for any
    instance and [Wal.v] provides one.

    Threads interleave: a step of the relation of [ThreadPool.v] is one critical
    section, one atomic operation or one notification; a step of [Ingress.v] is one
    access to shared memory, one of [Concurrent.v] one operation under a lock, and
    a schedule lists which thread moves when.  In [WeakIngress.v] and
    [WeakPipeline.v] a location keeps the writes to it in modification order and a
    thread a view of them: relaxed and acquire loads may read old writes, release
    stores carry the view of their thread, and an access to a cell's value by a
    thread that has not seen the accesses before it is a data race.  Loads there do
    not read writes that are later in program order.  Elsewhere memory is
    sequentially consistent: shared data are under mutexes, and the atomics beside
    them are counters and flags.

    Clocks, texts of floating-point numbers and librdkafka are parameters.

    ** What the theorems show

    - The server: a request is answered as an abstract key-value service with a
      log may answer it ([execute_refines_service]); a session sends the responses
      in order ([session_answers_in_order]); concurrent sessions are linearizable
      ([concurrent_requests_linearize]), and a request that runs alone is the
      sequential one ([request_alone_is_execute]); a server serves every client it
      takes, refuses none and answers each in full before its shutdown returns
      ([server_serves_every_client], and [shutdown_answers_every_client] for any
      callers of the pool), and it always gets there, in a bounded number of steps
      ([server_always_finishes]); a server restarted after a
      crash serves the acknowledged mutations ([concurrent_restart]); the store
      stays well typed ([store_stays_typed]).
    - The programs: a command given to the client is executed and its response
      printed ([command_line_request]); exit statuses and diagnostics tell what
      happened ([server_starts_or_diagnoses], [client_reports_outcome]); the
      benchmark reports every request and nearest-rank percentiles
      ([bench_reports_every_request]).
    - The log: acknowledged records survive ([acknowledged_records_survive]), a
      log cut anywhere replays its whole records ([recover_any_prefix]), a failed
      append is final ([failed_append_is_final]).
    - The protocol: the I/O loops and the framing equal reference functions on
      byte streams, whatever the fragmentation; frames round-trip; the parser
      decides a declarative grammar ([parse_command_decides]).
    - The pool: no deadlock and no lost wake-up ([pool_never_deadlocks]), a bound
      on the steps of every schedule ([pool_always_finishes]), a shutdown drains
      what was accepted, tasks start in order and run once.  Pushes may throw in
      the last two; with one caller, as in the server, exceptions leave the pool
      able to finish ([lone_caller_survives_exceptions]), with more of them an
      exception can use up the wake-up of another
      ([push_exception_loses_wakeup]).  A constructor that cannot start a worker
      joins the others before it throws ([failed_start_joins]), and one that can
      leaves a pool that the theorems are about ([constructed_pool_reachable]).
    - The packet decoder accepts exactly the wire forms of TCP segments and never
      reads out of bounds.
    - The books: [submit] and [cancel] refine lists of orders in priority order;
      fills follow the priority, quantity is conserved, books stay uncrossed.
      Over runs of the engine priority is price and then arrival, and symbols do
      not interfere.
    - The ingress queue: under every schedule and with the memory orders of the
      source it is a bounded first-in first-out queue without lost or duplicated
      items and without data races ([weak_ingress_is_fifo], which follows the
      sequentially consistent [ingress_is_fifo] step by step); a thread that runs
      alone returns in a bounded number of steps ([weak_operations_return_alone]);
      on sequentially consistent memory it refuses only for a reason
      ([refusals_are_justified]).
    - The pipeline: whatever the scheduler does, the matching benchmark submits
      the orders in order ([bench_matches_in_order], and
      [weak_bench_matches_in_order] with the memory orders), reports the result of the
      sequential run and can always finish ([bench_reports_sequential_result]).
    - Mock data: the CSV round-trips, and the files of the generator program match
      without rejects ([generate_then_match]).
    - The edges: the Redis command is valid RESP2 ([publish_command_decodes]),
      results are truthful and descriptors and handles are released
      ([redis_publish_reports], [kafka_releases_handles]).
    - The laboratory: the checks of its program never fail, however its threads
      interleave ([parallel_checks_pass]).
    - The exercises have their faults and no others: the decoder of mock A decides
      as the protocol does but returns a dead payload
      ([decoder_decides_like_protocol]), mock B hangs in every schedule
      ([shutdown_hangs]), the racing counters lose increments
      ([plain_counter_loses_increments]).  The line-reversal program sees through
      the spellings of a path ([normal_spellings]).  The diagnostic accepts every
      function that meets its contract ([diagnostic_accepts_contract]); the
      workspaces' programs say that they are not written ([work_programs_refuse])
      and their descriptors are never closed ([work_fds_leak]).

    ** Loop bounds

    Loops over data recurse on the data; loops around a system call recurse on the
    script.  Five functions carry fuel.  [round_power_of_two] has 64 units, enough
    for every request up to 2^63, above which the loop of the source never ends
    ([capacity_rounds_up]); for the others the theorems show that the fuel is
    never used up: matching (two more than the number of resting orders: every turn
    removes one or is the last), recovery (one more than the bytes to read: every
    turn but the last consumes a four-byte header), decimal printing (one more
    than the binary logarithm) and the laboratory's loop over thread counts (four:
    1, 2, 4 and 8).  A run under a schedule that ends too early is [OutOfFuel] in
    the programs [matching_bench] and [parallel_main]; the theorems show that every
    schedule can be continued until the program exits.  The pool and the whole
    server are step relations without fuel; their measures are [pool_cost] and
    [whole_cost].

    ** What is not modelled

    Time and floating point: the benchmarks' and the laboratory's measurements are
    texts the environment supplies.  Failures to start a thread or to allocate
    memory are modelled only where the code handles them or an exercise is about
    them, and the whole server runs on a pool whose pushes do not throw (in the
    accept loop an exception of [submit] ends the loop).  The racing counters have
    no meaning in C++; their accesses are taken one at a time.  Of the
    [work] directories the packet and benchmark programs are those of the
    reference, over functions that return a fixed value.  The reversal of the
    line-reversal exercise is not written in the source.  Tests are not modelled,
    but for the cases of the diagnostic, which are its program. *)

From stdpp Require Import base gmap list numbers strings.
From Stdlib Require Import Strings.Byte ZArith Lia.

#[global] Open Scope Z_scope.

(** ** Automation *)

Create HintDb netforge.

(** Splits a boolean test of the source into the proposition it decides. *)
Ltac reflect_bools :=
  repeat match goal with
  | H : andb _ _ = true |- _ => apply andb_true_iff in H as [? ?]
  | H : orb _ _ = false |- _ => apply orb_false_iff in H as [? ?]
  | H : negb _ = true |- _ => apply negb_true_iff in H
  | H : negb _ = false |- _ => apply negb_false_iff in H
  | H : (_ =? _) = true |- _ => apply Z.eqb_eq in H
  | H : (_ =? _) = false |- _ => apply Z.eqb_neq in H
  | H : (_ <? _) = true |- _ => apply Z.ltb_lt in H
  | H : (_ <? _) = false |- _ => apply Z.ltb_ge in H
  | H : (_ <=? _) = true |- _ => apply Z.leb_le in H
  | H : (_ <=? _) = false |- _ => apply Z.leb_gt in H
  | H : (_ >? _) = true |- _ => rewrite Z.gtb_ltb in H
  | H : (_ >? _) = false |- _ => rewrite Z.gtb_ltb in H
  | H : (_ >=? _) = true |- _ => rewrite Z.geb_leb in H
  | H : (_ >=? _) = false |- _ => rewrite Z.geb_leb in H
  end.

(** Case analysis on the test of an [if] of the goal. *)
Ltac case_if :=
  match goal with
  | |- context [if ?b then _ else _] =>
      lazymatch type of b with bool => destruct b eqn:? end
  end.

(** Linear arithmetic with division and modulus by constants. *)
Ltac div_lia := Z.div_mod_to_equations; lia.

(** ** What a C++ call can do *)

(** The result of running a C++ function: it returns, an exception leaves it,
    it performs an operation the standard leaves undefined, it waits for ever
    in a system call, or the model's loop bound is used up. *)
Inductive outcome (A : Type) : Type :=
| Done (a : A)
| Threw (what : string)
| Undefined
| Blocked
| OutOfFuel.

Arguments Done {A} a.
Arguments Threw {A} what.
Arguments Undefined {A}.
Arguments Blocked {A}.
Arguments OutOfFuel {A}.

Definition obind {A B : Type} (m : outcome A) (k : A -> outcome B) : outcome B :=
  match m with
  | Done a => k a
  | Threw what => Threw what
  | Undefined => Undefined
  | Blocked => Blocked
  | OutOfFuel => OutOfFuel
  end.

Declare Scope netforge_scope.
Delimit Scope netforge_scope with nf.
#[global] Open Scope netforge_scope.

Notation "'let*' x ':=' m 'in' k" := (obind m (fun x => k))
  (at level 10, x pattern, m at level 100, k at level 200)
  : netforge_scope.

Lemma obind_Done_inv {A B} (m : outcome A) (k : A -> outcome B) b :
  obind m k = Done b -> exists a, m = Done a /\ k a = Done b.
Proof. destruct m; simpl; intros; try discriminate; eauto. Qed.

(** ** Bytes *)

#[global] Instance byte_eq_decision : EqDecision byte := Byte.byte_eq_dec.
#[global] Program Instance byte_countable : Countable byte :=
  inj_countable Byte.to_N Byte.of_N _.
Next Obligation. apply Byte.of_to_N. Qed.

(** [std::string], [std::string_view] and spans of [std::byte] are lists of
    bytes; [str] turns a literal into one. *)
Abbreviation bytes := (list byte).
Definition str (s : string) : bytes := String.list_byte_of_string s.

(** [std::to_integer] / a cast to [unsigned char], and the cast back. *)
Definition b2z (b : byte) : Z := Z.of_N (Byte.to_N b).
Definition z2b (z : Z) : byte :=
  match Byte.of_N (Z.to_N (z mod 256)) with Some b => b | None => x00 end.

Lemma b2z_range b : 0 <= b2z b < 256.
Proof. unfold b2z. pose proof (Byte.to_N_bounded b). lia. Qed.

Lemma b2z_inj b1 b2 : b2z b1 = b2z b2 -> b1 = b2.
Proof.
  unfold b2z. intros H%N2Z.inj.
  pose proof (Byte.of_to_N b1). pose proof (Byte.of_to_N b2). congruence.
Qed.

Lemma b2z_z2b z : b2z (z2b z) = z mod 256.
Proof.
  unfold z2b, b2z. pose proof (Z.mod_pos_bound z 256).
  destruct (Byte.of_N (Z.to_N (z mod 256))) eqn:E.
  - apply Byte.to_of_N in E. rewrite E. lia.
  - apply Byte.of_N_None_iff in E. lia.
Qed.

Lemma z2b_b2z b : z2b (b2z b) = b.
Proof.
  apply b2z_inj. rewrite b2z_z2b. pose proof (b2z_range b). apply Z.mod_small. lia.
Qed.

Lemma z2b_eq z1 z2 : z1 mod 256 = z2 mod 256 -> z2b z1 = z2b z2.
Proof. intros H. apply b2z_inj. by rewrite !b2z_z2b. Qed.

#[export] Hint Resolve b2z_range : netforge.

(** The size of a container as a [std::size_t]. *)
Definition len {A} (l : list A) : Z := Z.of_nat (length l).

(** [empty()] of a container. *)
Definition is_empty {A} (l : list A) : bool := len l =? 0.

Lemma len_nonneg {A} (l : list A) : 0 <= len l.
Proof. unfold len. lia. Qed.
Lemma len_app {A} (l k : list A) : len (l ++ k) = len l + len k.
Proof. unfold len. rewrite length_app. lia. Qed.
Lemma len_nil {A} : len (@nil A) = 0.
Proof. done. Qed.
Lemma len_cons {A} (x : A) l : len (x :: l) = 1 + len l.
Proof. unfold len. simpl. lia. Qed.
Lemma len_zero {A} (l : list A) : len l = 0 -> l = [].
Proof. destruct l; [done|]. rewrite len_cons. pose proof (len_nonneg l). lia. Qed.

Lemma len_insert {A} i (x : A) l : len (<[i := x]> l) = len l.
Proof. unfold len. by rewrite length_insert. Qed.
Lemma len_map {A B} (f : A -> B) l : len (map f l) = len l.
Proof. unfold len. by rewrite length_map. Qed.
Lemma len_replicate {A} n (x : A) : len (replicate n x) = Z.of_nat n.
Proof. unfold len. by rewrite length_replicate. Qed.

Lemma is_empty_iff {A} (l : list A) : is_empty l = true <-> l = [].
Proof.
  unfold is_empty. rewrite Z.eqb_eq. split; [apply len_zero|by intros ->].
Qed.

Lemma is_empty_not {A} (l : list A) : l <> [] -> is_empty l = false.
Proof. intros Hl. apply not_true_iff_false. by rewrite is_empty_iff. Qed.

Create Rewrite HintDb netforge_len.
#[export] Hint Rewrite @len_app @len_nil @len_cons : netforge_len.
#[export] Hint Resolve len_nonneg : netforge.

(** Arithmetic on sizes: literals are measured, appends are added up. *)
Ltac len_lia :=
  unfold len in *;
  repeat first
    [ progress rewrite ?length_app, ?length_take, ?length_drop, ?length_rev in *
    | progress simpl length in * ];
  repeat match goal with
  | |- context [length (str ?s)] =>
      let n := eval vm_compute in (length (str s)) in change (length (str s)) with n
  | H : context [length (str ?s)] |- _ =>
      let n := eval vm_compute in (length (str s)) in change (length (str s)) with n in H
  end; lia.

(** What a program leaves behind: its exit status and its output. *)
Record exited := mkExited { ex_status : Z; ex_stdout : bytes; ex_stderr : bytes }.

Definition newline : bytes := [x0a].

(** ** Sums over lists *)

(** Adds a number up over a list: invariants count with it. *)
Definition sum_by {A} (f : A -> Z) (l : list A) : Z := foldr (fun x n => f x + n) 0 l.
#[global] Arguments sum_by : simpl never.

Section Sums.
Context {A : Type}.
Implicit Types (f g : A -> Z) (l : list A).

Lemma sum_by_cons f x l : sum_by f (x :: l) = f x + sum_by f l.
Proof. done. Qed.

Lemma sum_by_app f l k : sum_by f (l ++ k) = sum_by f l + sum_by f k.
Proof. induction l; simpl; [done|]. rewrite !sum_by_cons. lia. Qed.

Lemma sum_by_insert f i x y l :
  l !! i = Some x -> sum_by f (<[i := y]> l) = sum_by f l - f x + f y.
Proof.
  revert i. induction l as [|z l IH]; intros [|i]; simpl; try done; rewrite !sum_by_cons.
  - intros [= ->]. lia.
  - intros Hi. rewrite (IH i Hi). lia.
Qed.

Lemma sum_by_map {B} (h : B -> Z) f (w : A -> B) l :
  (forall x, h (w x) = f x) -> sum_by h (map w l) = sum_by f l.
Proof.
  intros H. induction l as [|x l IH]; [done|].
  change (h (w x) + sum_by h (map w l) = f x + sum_by f l). by rewrite H, IH.
Qed.

Lemma sum_by_plus f g l : sum_by (fun x => f x + g x) l = sum_by f l + sum_by g l.
Proof. induction l as [|x l IH]; [done|]. rewrite !sum_by_cons, IH. lia. Qed.

Lemma sum_by_nonneg f l : (forall x, 0 <= f x) -> 0 <= sum_by f l.
Proof. intros H. induction l as [|x l IH]; [done|]. rewrite sum_by_cons. specialize (H x). lia. Qed.

Lemma sum_by_zero f l :
  (forall x, 0 <= f x) -> sum_by f l = 0 <-> Forall (fun x => f x = 0) l.
Proof.
  intros H. induction l as [|x l IH]; [done|]. rewrite sum_by_cons, Forall_cons, <- IH.
  pose proof (H x). pose proof (sum_by_nonneg f l H). lia.
Qed.

Lemma sum_by_member f i x l : (forall x, 0 <= f x) -> l !! i = Some x -> f x <= sum_by f l.
Proof.
  intros H. revert i. induction l as [|y l IH]; intros [|i]; simpl; try done; rewrite sum_by_cons.
  - intros [= ->]. pose proof (sum_by_nonneg f l H). lia.
  - intros Hi. specialize (IH i Hi). specialize (H y). lia.
Qed.

Lemma sum_by_replicate f n x : sum_by f (replicate n x) = Z.of_nat n * f x.
Proof. induction n as [|n IH]; [done|]. simpl replicate. rewrite sum_by_cons, IH. lia. Qed.

Lemma sum_by_some f l : 0 < sum_by f l -> exists i x, l !! i = Some x /\ 0 < f x.
Proof.
  induction l as [|x l IH]; [done|]. rewrite sum_by_cons. intros Hs.
  destruct (Z.lt_ge_cases 0 (f x)) as [Hx|Hx]; [by exists 0%nat, x|].
  destruct IH as (i & y & Hi & Hy); [lia|]. by exists (S i), y.
Qed.

Lemma sum_by_zero_lookup f l i x :
  (forall x, 0 <= f x) -> sum_by f l = 0 -> l !! i = Some x -> f x = 0.
Proof. intros Hf Hs Hi. apply sum_by_zero in Hs; [|done]. by eapply Forall_lookup_1 in Hs. Qed.
End Sums.

(** ** Machine integers *)

Definition u8_max : Z := 2 ^ 8 - 1.
Definition u16_max : Z := 2 ^ 16 - 1.
Definition u32_max : Z := 2 ^ 32 - 1.
Definition u64_max : Z := 2 ^ 64 - 1.
Definition u16 (z : Z) : Z := z mod 2 ^ 16.
Definition u32 (z : Z) : Z := z mod 2 ^ 32.
Definition u64 (z : Z) : Z := z mod 2 ^ 64.
(** Conversion to [std::int64_t] (two's complement). *)
Definition i64 (z : Z) : Z := (z + 2 ^ 63) mod 2 ^ 64 - 2 ^ 63.

(** Signed 64-bit arithmetic: overflow is undefined. *)
Definition i64_checked (z : Z) : outcome Z :=
  if (- 2 ^ 63 <=? z) && (z <? 2 ^ 63) then Done z else Undefined.

Lemma u64_small z : 0 <= z < 2 ^ 64 -> u64 z = z.
Proof. apply Z.mod_small. Qed.
Lemma u32_small z : 0 <= z < 2 ^ 32 -> u32 z = z.
Proof. apply Z.mod_small. Qed.
Lemma u64_range z : 0 <= u64 z < 2 ^ 64.
Proof. apply Z.mod_pos_bound. lia. Qed.

Lemma i64_small z : - 2 ^ 63 <= z < 2 ^ 63 -> i64 z = z.
Proof. intros Hz. unfold i64. rewrite Z.mod_small by lia. lia. Qed.

Lemma i64_checked_ok z : - 2 ^ 63 <= z < 2 ^ 63 -> i64_checked z = Done z.
Proof.
  intros Hz. unfold i64_checked. by rewrite (proj2 (Z.leb_le _ _)), (proj2 (Z.ltb_lt _ _)) by lia.
Qed.

Lemma u64_add_l a b : u64 (u64 a + b) = u64 (a + b).
Proof. unfold u64. by rewrite Zplus_mod_idemp_l. Qed.
Lemma u64_add_r a b : u64 (a + u64 b) = u64 (a + b).
Proof. unfold u64. by rewrite Zplus_mod_idemp_r. Qed.
Lemma u64_sub_l a b : u64 (u64 a - b) = u64 (a - b).
Proof. unfold u64. by rewrite Zminus_mod_idemp_l. Qed.

(** Disjoint bits add up: [(high << n) | low]. *)
Lemma land_shiftl_low a b n :
  0 <= n -> 0 <= b < 2 ^ n -> Z.land (Z.shiftl a n) b = 0.
Proof.
  intros Hn Hb. apply Z.bits_inj'. intros i Hi.
  rewrite Z.land_spec, Z.bits_0, Z.shiftl_spec by done.
  destruct (Z.lt_ge_cases i n).
  - by rewrite Z.testbit_neg_r by lia.
  - destruct (decide (b = 0)) as [->|]; [by rewrite Z.bits_0, andb_false_r|].
    rewrite (Z.bits_above_log2 b i), andb_false_r; [done|lia|].
    assert (Z.log2 b < n) by (apply Z.log2_lt_pow2; lia). lia.
Qed.

Lemma lor_shiftl_add a b n :
  0 <= n -> 0 <= b < 2 ^ n -> Z.lor (Z.shiftl a n) b = a * 2 ^ n + b.
Proof.
  intros Hn Hb. pose proof (land_shiftl_low a b n Hn Hb) as Hl.
  rewrite <- Z.shiftl_mul_pow2 by done.
  by rewrite <- Z.lxor_lor, Z.add_nocarry_lxor.
Qed.
