(* ===== verification/ByteOrder.v ===== *)
(** * Byte order of the 32-bit wire length

    [protocol.cpp] and [wal.cpp] write the frame length with
    [htonl] followed by [std::memcpy] of the integer's object representation,
    and read it back with [std::memcpy] followed by [ntohl].  What these do
    depends on the byte order of the machine, so the machine is a parameter
    (the class [Host]); the lemmas show that both orders put the same four
    big-endian bytes on the wire. *)

From stdpp Require Import base list.
From Stdlib Require Import Strings.Byte ZArith Lia.
From S2P Require Import Prelude.

Inductive endian := little | big.

(** The machine the program runs on. *)
Class Host := host_order : endian.

(** Big-endian bytes and value: the wire format. *)
Definition be32 (v : Z) : bytes :=
  [z2b (Z.shiftr v 24); z2b (Z.shiftr v 16); z2b (Z.shiftr v 8); z2b v].

Fixpoint be_value (l : bytes) (acc : Z) : Z :=
  match l with
  | [] => acc
  | b :: l => be_value l (acc * 256 + b2z b)
  end.

Definition bswap32 (v : Z) : Z :=
  Z.lor (Z.shiftl (Z.land v 255) 24)
    (Z.lor (Z.shiftl (Z.land (Z.shiftr v 8) 255) 16)
       (Z.lor (Z.shiftl (Z.land (Z.shiftr v 16) 255) 8)
          (Z.land (Z.shiftr v 24) 255))).

Section Host.
Context `{Host}.

Definition htonl (v : Z) : Z :=
  match host_order with little => bswap32 v | big => v end.
Definition ntohl (v : Z) : Z := htonl v.

(** [std::memcpy] from and to a [std::uint32_t]. *)
Definition store_u32 (v : Z) : bytes :=
  match host_order with little => rev (be32 v) | big => be32 v end.
Definition load_u32 (l : bytes) : Z :=
  match host_order with little => be_value (rev l) 0 | big => be_value l 0 end.
End Host.

(** The byte swap in arithmetic form. *)
Lemma bswap32_arith v :
  bswap32 v = (v mod 256) * 2 ^ 24 + (v / 2 ^ 8 mod 256) * 2 ^ 16
              + (v / 2 ^ 16 mod 256) * 2 ^ 8 + v / 2 ^ 24 mod 256.
Proof.
  unfold bswap32. change 255 with (Z.ones 8).
  rewrite !Z.land_ones, !Z.shiftr_div_pow2 by lia. change (2 ^ 8) with 256.
  rewrite (lor_shiftl_add _ _ 8), (lor_shiftl_add _ _ 16), (lor_shiftl_add _ _ 24);
    div_lia.
Qed.

Lemma bswap32_range v : 0 <= bswap32 v < 2 ^ 32.
Proof. rewrite bswap32_arith. div_lia. Qed.

(** A 32-bit value from its four bytes, most significant first. *)
Definition of_bytes4 (a b c d : Z) : Z := a * 2 ^ 24 + b * 2 ^ 16 + c * 2 ^ 8 + d.

Definition is_byte (z : Z) : Prop := 0 <= z < 256.

Lemma to_bytes4 v :
  0 <= v < 2 ^ 32 ->
  exists a b c d, is_byte a /\ is_byte b /\ is_byte c /\ is_byte d
                  /\ v = of_bytes4 a b c d.
Proof.
  intros Hv. unfold of_bytes4, is_byte.
  exists (v / 2 ^ 24), (v / 2 ^ 16 mod 256), (v / 2 ^ 8 mod 256), (v mod 256).
  repeat split; div_lia.
Qed.

Lemma bytes4_parts a b c d :
  is_byte a -> is_byte b -> is_byte c -> is_byte d ->
  of_bytes4 a b c d mod 256 = d
  /\ of_bytes4 a b c d / 2 ^ 8 mod 256 = c
  /\ of_bytes4 a b c d / 2 ^ 16 mod 256 = b
  /\ of_bytes4 a b c d / 2 ^ 24 mod 256 = a.
Proof.
  unfold is_byte, of_bytes4. intros Ha Hb Hc Hd.
  split; [|split; [|split]].
  - symmetry. apply Z.mod_unique with (a * 2 ^ 16 + b * 2 ^ 8 + c); lia.
  - symmetry. apply Z.mod_unique with (a * 2 ^ 8 + b); [lia|].
    symmetry. apply Z.div_unique with d; lia.
  - symmetry. apply Z.mod_unique with a; [lia|].
    symmetry. apply Z.div_unique with (c * 2 ^ 8 + d); lia.
  - symmetry. apply Z.mod_unique with 0; [lia|].
    symmetry. apply Z.div_unique with (b * 2 ^ 16 + c * 2 ^ 8 + d); lia.
Qed.

Lemma bswap32_bytes4 a b c d :
  is_byte a -> is_byte b -> is_byte c -> is_byte d ->
  bswap32 (of_bytes4 a b c d) = of_bytes4 d c b a.
Proof.
  intros Ha Hb Hc Hd. rewrite bswap32_arith.
  by destruct (bytes4_parts a b c d Ha Hb Hc Hd) as (-> & -> & -> & ->).
Qed.

Lemma bswap32_involutive v : 0 <= v < 2 ^ 32 -> bswap32 (bswap32 v) = v.
Proof.
  intros (a & b & c & d & Ha & Hb & Hc & Hd & ->)%to_bytes4.
  by rewrite !bswap32_bytes4.
Qed.

Lemma be32_length v : length (be32 v) = 4%nat.
Proof. done. Qed.

Lemma be32_bytes4 a b c d :
  is_byte a -> is_byte b -> is_byte c -> is_byte d ->
  be32 (of_bytes4 a b c d) = [z2b a; z2b b; z2b c; z2b d].
Proof.
  intros Ha Hb Hc Hd. destruct (bytes4_parts a b c d Ha Hb Hc Hd) as (Ed & Ec & Eb & Ea).
  unfold be32. rewrite !Z.shiftr_div_pow2 by done.
  f_equal; [|f_equal; [|f_equal; [|f_equal]]];
    apply z2b_eq; rewrite ?Ea, ?Eb, ?Ec, ?Ed; symmetry; by apply Z.mod_small.
Qed.

Lemma be_value_be32 v : 0 <= v < 2 ^ 32 -> be_value (be32 v) 0 = v.
Proof.
  intros (a & b & c & d & Ha & Hb & Hc & Hd & ->)%to_bytes4.
  rewrite be32_bytes4 by done. cbn [be_value]. rewrite !b2z_z2b.
  rewrite !Z.mod_small by done. unfold of_bytes4. lia.
Qed.

Lemma be32_be_value l : length l = 4%nat -> be32 (be_value l 0) = l.
Proof.
  destruct l as [|a [|b [|c [|d [|]]]]]; try done. intros _. cbn [be_value].
  replace ((((0 * 256 + b2z a) * 256 + b2z b) * 256 + b2z c) * 256 + b2z d)
    with (of_bytes4 (b2z a) (b2z b) (b2z c) (b2z d)) by (unfold of_bytes4; lia).
  rewrite be32_bytes4 by apply b2z_range. by rewrite !z2b_b2z.
Qed.

Lemma be_value_range l : length l = 4%nat -> 0 <= be_value l 0 < 2 ^ 32.
Proof.
  destruct l as [|a [|b [|c [|d [|]]]]]; try done. intros _. cbn [be_value].
  pose proof (b2z_range a). pose proof (b2z_range b).
  pose proof (b2z_range c). pose proof (b2z_range d). lia.
Qed.

Lemma be32_rev_bswap v : 0 <= v < 2 ^ 32 -> rev (be32 (bswap32 v)) = be32 v.
Proof.
  intros (a & b & c & d & Ha & Hb & Hc & Hd & ->)%to_bytes4.
  by rewrite bswap32_bytes4, !be32_bytes4.
Qed.

(** Both byte orders store the wire bytes ... *)
Lemma store_htonl `{Host} v : 0 <= v < 2 ^ 32 -> store_u32 (htonl v) = be32 v.
Proof.
  intros Hv. unfold store_u32, htonl. destruct host_order; [|done].
  by apply be32_rev_bswap.
Qed.

(** ... and load the big-endian value of the four header bytes. *)
Lemma ntohl_load `{Host} l :
  length l = 4%nat -> ntohl (load_u32 l) = be_value l 0.
Proof.
  intros Hl. unfold ntohl, htonl, load_u32. destruct host_order; [|done].
  assert (Hr : length (rev l) = 4%nat) by by rewrite length_rev.
  pose proof (be_value_range _ Hl). pose proof (be_value_range _ Hr).
  rewrite <- (be32_be_value l Hl) at 1.
  rewrite <- be32_rev_bswap, rev_involutive by done.
  rewrite be_value_be32 by apply bswap32_range. by apply bswap32_involutive.
Qed.

#[export] Hint Rewrite @be32_length : netforge_len.
