(* ===== verification/Posix.v ===== *)
(** * The system calls the program makes, as environment scripts

    A descriptor's behaviour is a script: the list of what successive system
    calls on it will do.  Every theorem quantifies over scripts, so it covers
    every fragmentation of a byte stream, every interruption by a signal and
    every error.  A call on an exhausted script never returns ([Blocked]). *)

From stdpp Require Import base list.
From Stdlib Require Import Strings.Byte ZArith Lia.
From S2P Require Import Prelude.

(** ** errno (Linux values) *)

Definition ENOENT : Z := 2.
Definition EINTR : Z := 4.
Definition EIO : Z := 5.
Definition EAGAIN : Z := 11.
Definition EWOULDBLOCK : Z := 11.
Definition EMSGSIZE : Z := 90.
Definition ETIMEDOUT : Z := 110.
Definition ECONNREFUSED : Z := 111.
Definition EINPROGRESS : Z := 115.

(** ** Reading *)

(** What one [read] finds: some bytes (the call takes at most what it asks
    for and the rest stays for the next call), the end of the stream, or an
    error. *)
Inductive read_event :=
| RData (b : byte) (bs : bytes)
| REof
| RErr (e : Z).

(** What one [read] returns: bytes (none at the end of the stream) or -1 with
    [errno]. *)
Inductive read_return :=
| Got (bs : bytes)
| ReadFailed (e : Z).

Definition unread (bs : bytes) (script : list read_event) : list read_event :=
  match bs with [] => script | b :: bs => RData b bs :: script end.

Definition sys_read (count : Z) (script : list read_event)
  : outcome (read_return * list read_event) :=
  match script with
  | [] => Blocked
  | RData b bs :: rest =>
      Done (Got (take (Z.to_nat count) (b :: bs)),
            unread (drop (Z.to_nat count) (b :: bs)) rest)
  | REof :: rest => Done (Got [], REof :: rest)
  | RErr e :: rest => Done (ReadFailed e, rest)
  end.

(** The byte stream of a script: the bytes it delivers to a reader that
    retries after [EINTR], and how it ends. *)
Inductive stream_end := SEof | SErr (e : Z) | SBlock.

Fixpoint stream (script : list read_event) : bytes * stream_end :=
  match script with
  | [] => ([], SBlock)
  | RData b bs :: rest => ((b :: bs) ++ fst (stream rest), snd (stream rest))
  | REof :: _ => ([], SEof)
  | RErr e :: rest => if e =? EINTR then stream rest else ([], SErr e)
  end.

Lemma stream_unread bs script :
  stream (unread bs script) = (bs ++ fst (stream script), snd (stream script)).
Proof. destruct bs; simpl; [by destruct (stream script)|done]. Qed.

(** ** Writing *)

(** What one [send] or [write] does: the kernel takes at most [n] bytes, takes
    none, or fails. *)
Inductive write_event :=
| WTake (n : positive)
| WZero
| WErr (e : Z).

(** The bytes the kernel will take from a writer that retries after [EINTR],
    and how that ends. *)
Inductive sink_end := KZero | KErr (e : Z) | KBlock.

Fixpoint sink (script : list write_event) : Z * sink_end :=
  match script with
  | [] => (0, KBlock)
  | WTake n :: rest => (Z.pos n + fst (sink rest), snd (sink rest))
  | WZero :: _ => (0, KZero)
  | WErr e :: rest => if e =? EINTR then sink rest else (0, KErr e)
  end.

Lemma sink_nonneg script : 0 <= fst (sink script).
Proof. induction script as [|[]]; simpl; try lia. case_if; simpl; lia. Qed.

(** ** Calls that only succeed or fail ([fsync], [ftruncate]) *)

Inductive call_event := COk | CErr (e : Z).
