(* ===== verification/Numeric.v ===== *)
(** * Decimal text

    [std::to_string] and [operator<<] on unsigned and signed integers, and
    [std::stoull] and [std::stoll], which read them back. *)

From stdpp Require Import base list strings.
From Stdlib Require Import Strings.Byte ZArith Lia.
From S2P Require Import Prelude.

Definition digit (d : Z) : byte := z2b (48 + d).

(** Digits of [z], most significant first. *)
Fixpoint digits (fuel : nat) (z : Z) : bytes :=
  match fuel with
  | O => []
  | S fuel => (if z <? 10 then [] else digits fuel (z / 10)) ++ [digit (z mod 10)]
  end.

(** The number of bits bounds the number of digits. *)
Definition show_unsigned (z : Z) : bytes := digits (S (Z.to_nat (Z.log2 z))) z.
Definition show_signed (z : Z) : bytes :=
  if z <? 0 then str "-" ++ show_unsigned (- z) else show_unsigned z.

Definition is_digit (c : byte) : bool := (48 <=? b2z c) && (b2z c <=? 57).
Definition digit_value (c : byte) : Z := b2z c - 48.

(** [std::isspace] in the C locale. *)
Definition isspace (c : byte) : bool :=
  ((9 <=? b2z c) && (b2z c <=? 13)) || (b2z c =? 32).

Fixpoint dec_value (acc : Z) (l : bytes) : Z :=
  match l with
  | [] => acc
  | c :: l => dec_value (acc * 10 + digit_value c) l
  end.

Lemma b2z_digit d : 0 <= d < 10 -> b2z (digit d) = 48 + d.
Proof. intros. unfold digit. rewrite b2z_z2b. apply Z.mod_small. lia. Qed.

Lemma digit_is_digit d : 0 <= d < 10 -> is_digit (digit d) = true.
Proof.
  intros. unfold is_digit. rewrite b2z_digit by done.
  rewrite !(proj2 (Z.leb_le _ _)) by lia. done.
Qed.

Lemma dec_value_app acc l k : dec_value acc (l ++ k) = dec_value (dec_value acc l) k.
Proof. revert acc. induction l; intros; simpl; auto. Qed.

Lemma digits_value fuel z :
  0 <= z -> (Z.log2 z < Z.of_nat fuel) -> dec_value 0 (digits fuel z) = z.
Proof.
  revert z. induction fuel as [|fuel IH]; intros z Hz Hf.
  - pose proof (Z.log2_nonneg z). lia.
  - cbn [digits]. rewrite dec_value_app. cbn [dec_value]. unfold digit_value.
    rewrite b2z_digit by (apply Z.mod_pos_bound; lia).
    destruct (Z.ltb_spec z 10) as [Hlt|Hge].
    + simpl. rewrite Z.mod_small by lia. lia.
    + rewrite IH; [div_lia|div_lia|].
      assert (Z.log2 (z / 10) < Z.log2 z); [|lia].
      apply Z.log2_lt_pow2; [div_lia|]. 
      pose proof (Z.log2_spec z ltac:(lia)) as [_ Hup].
      assert (0 < Z.log2 z) by (apply Z.log2_pos; lia).
      replace (2 ^ Z.succ (Z.log2 z)) with (2 * 2 ^ Z.log2 z) in Hup
        by (rewrite Z.pow_succ_r by lia; lia). div_lia.
Qed.

Lemma digits_all fuel z : 0 <= z -> forallb is_digit (digits fuel z) = true.
Proof.
  revert z. induction fuel as [|fuel IH]; intros z Hz; [done|]. cbn [digits].
  rewrite forallb_app. cbn [forallb].
  rewrite digit_is_digit by (apply Z.mod_pos_bound; lia). case_if; simpl; [done|].
  rewrite IH by div_lia. done.
Qed.

Lemma show_unsigned_value z : 0 <= z -> dec_value 0 (show_unsigned z) = z.
Proof. intros. apply digits_value; [done|]. pose proof (Z.log2_nonneg z). lia. Qed.

Lemma show_unsigned_digits z : 0 <= z -> forallb is_digit (show_unsigned z) = true.
Proof. apply digits_all. Qed.

Lemma show_unsigned_nonempty z : show_unsigned z <> [].
Proof. unfold show_unsigned. cbn [digits]. intros H%app_eq_nil. by destruct H. Qed.

Lemma show_unsigned_inj a b :
  0 <= a -> 0 <= b -> show_unsigned a = show_unsigned b -> a = b.
Proof.
  intros Ha Hb E. rewrite <- (show_unsigned_value a), <- (show_unsigned_value b), E by done.
  done.
Qed.

Example show_12345 : show_unsigned 12345 = str "12345".
Proof. reflexivity. Qed.
Example show_zero : show_unsigned 0 = str "0".
Proof. reflexivity. Qed.

Lemma digits_length fuel z : (length (digits fuel z) <= fuel)%nat.
Proof.
  revert z. induction fuel as [|fuel IH]; intros z; [done|]. cbn [digits].
  rewrite length_app. case_if; simpl; [lia|]. specialize (IH (z / 10)). lia.
Qed.

(** A 64-bit number has at most 64 digits. *)
Lemma show_u64_length z : 0 <= z < 2 ^ 64 -> len (show_unsigned z) <= 64.
Proof.
  intros Hz. unfold show_unsigned, len. pose proof (digits_length (S (Z.to_nat (Z.log2 z))) z).
  pose proof (Z.log2_nonneg z). destruct (decide (z = 0)) as [->|]; [simpl in *; lia|].
  assert (Z.log2 z < 64) by (apply Z.log2_lt_pow2; lia). lia.
Qed.

#[global] Arguments show_unsigned : simpl never.
#[global] Arguments show_signed : simpl never.

(** ** Reading *)

Fixpoint skip_spaces (text : bytes) : bytes :=
  match text with
  | c :: rest => if isspace c then skip_spaces rest else text
  | [] => []
  end.

Fixpoint digit_span (text : bytes) : bytes :=
  match text with
  | c :: rest => if is_digit c then c :: digit_span rest else []
  | [] => []
  end.

(** White space, an optional sign and a run of digits: the sign and the value. *)
Definition scan_int (text : bytes) : option (bool * Z) :=
  let text := skip_spaces text in
  let '(negative, text) :=
    match text with
    | c :: rest => if b2z c =? 45 then (true, rest)
                   else if b2z c =? 43 then (false, rest) else (false, text)
    | [] => (false, [])
    end in
  match digit_span text with
  | [] => None
  | ds => Some (negative, dec_value 0 ds)
  end.

(** A negative number is taken modulo 2^64. *)
Definition stoull (text : bytes) : outcome Z :=
  match scan_int text with
  | None => Threw "stoull: invalid argument"
  | Some (negative, v) =>
      if v >? u64_max then Threw "stoull: out of range"
      else Done (if negative then u64 (- v) else v)
  end.

Definition stoll (text : bytes) : outcome Z :=
  match scan_int text with
  | None => Threw "stoll: invalid argument"
  | Some (negative, v) =>
      let v := if negative then - v else v in
      if (v <? - 2 ^ 63) || (v >? 2 ^ 63 - 1) then Threw "stoll: out of range" else Done v
  end.

Lemma digit_not_space c : is_digit c = true -> isspace c = false.
Proof.
  unfold is_digit, isspace. intros H. reflect_bools.
  rewrite (proj2 (Z.leb_gt (b2z c) 13)), (proj2 (Z.eqb_neq _ _)), andb_false_r by lia. done.
Qed.

Lemma digit_no_sign c : is_digit c = true -> (b2z c =? 45) = false /\ (b2z c =? 43) = false.
Proof. unfold is_digit. intros H. reflect_bools. split; apply Z.eqb_neq; lia. Qed.

Lemma digit_span_all l : forallb is_digit l = true -> digit_span l = l.
Proof.
  induction l as [|c l IH]; [done|]. simpl. intros H. reflect_bools.
  match goal with H : is_digit c = true |- _ => rewrite H end. by rewrite IH.
Qed.

Lemma scan_digits l :
  l <> [] -> forallb is_digit l = true -> scan_int l = Some (false, dec_value 0 l).
Proof.
  intros Hne Hl. destruct l as [|c l]; [done|]. pose proof Hl as Hc. simpl in Hc. reflect_bools.
  unfold scan_int. cbn [skip_spaces].
  destruct (digit_no_sign c) as [H1 H2]; [done|].
  rewrite digit_not_space, H1, H2, digit_span_all by done. done.
Qed.

Lemma scan_negative l :
  l <> [] -> forallb is_digit l = true -> scan_int (str "-" ++ l) = Some (true, dec_value 0 l).
Proof.
  intros Hne Hl. destruct l as [|c l]; [done|].
  change (scan_int (str "-" ++ c :: l))
    with (match digit_span (c :: l) with [] => None | ds => Some (true, dec_value 0 ds) end).
  by rewrite digit_span_all.
Qed.

Lemma stoull_show z : 0 <= z < 2 ^ 64 -> stoull (show_unsigned z) = Done z.
Proof.
  intros Hz. unfold stoull.
  rewrite scan_digits by (apply show_unsigned_nonempty || (apply show_unsigned_digits; lia)).
  rewrite show_unsigned_value by lia.
  rewrite Z.gtb_ltb, (proj2 (Z.ltb_ge _ _)) by (unfold u64_max; lia). done.
Qed.

Lemma stoll_show z : - 2 ^ 63 <= z < 2 ^ 63 -> stoll (show_signed z) = Done z.
Proof.
  intros Hz. unfold stoll, show_signed. destruct (Z.ltb_spec z 0).
  - rewrite scan_negative by (apply show_unsigned_nonempty || (apply show_unsigned_digits; lia)).
    rewrite show_unsigned_value by lia. rewrite Z.opp_involutive.
    rewrite (proj2 (Z.ltb_ge _ _)), Z.gtb_ltb, (proj2 (Z.ltb_ge _ _)) by lia. done.
  - rewrite scan_digits by (apply show_unsigned_nonempty || (apply show_unsigned_digits; lia)).
    rewrite show_unsigned_value by lia.
    rewrite (proj2 (Z.ltb_ge _ _)), Z.gtb_ltb, (proj2 (Z.ltb_ge _ _)) by lia. done.
Qed.

(** ** [std::from_chars] and [std::strtoull] *)

Inductive errc := errc_ok | invalid_argument | result_out_of_range.
#[global] Instance errc_eq_dec : EqDecision errc.
Proof. solve_decision. Defined.

(** [std::from_chars] in base 10 into an unsigned type with largest value [max]:
    what is left of the text after the digits, the error, and the variable
    afterwards.  Neither space nor a sign is skipped; the variable keeps its
    value on an error. *)
Definition from_chars (max : Z) (text : bytes) (value : Z) : bytes * errc * Z :=
  match digit_span text with
  | [] => (text, invalid_argument, value)
  | ds =>
      let rest := drop (length ds) text in
      if dec_value 0 ds >? max then (rest, result_out_of_range, value)
      else (rest, errc_ok, dec_value 0 ds)
  end.

(** [std::strtoull(text, nullptr, 10)]: zero without digits, the largest value on
    an overflow, a negative number modulo 2^64. *)
Definition strtoull (text : bytes) : Z :=
  match scan_int text with
  | None => 0
  | Some (negative, v) =>
      if v >? u64_max then u64_max else if negative then u64 (- v) else v
  end.

(** A decimal number as [from_chars] reads it to the end of the text. *)
Definition decimal (text : bytes) : Prop := text <> [] /\ forallb is_digit text = true.

#[global] Instance decimal_dec text : Decision (decimal text).
Proof. unfold decimal. apply _. Defined.

Lemma digit_span_split text : text = digit_span text ++ drop (length (digit_span text)) text.
Proof. induction text as [|c text IH]; simpl; [done|]. destruct (is_digit c); simpl; [by f_equal|done]. Qed.

Lemma digit_span_digits text : forallb is_digit (digit_span text) = true.
Proof. induction text as [|c text IH]; simpl; [done|]. destruct (is_digit c) eqn:Hc; simpl; [by rewrite Hc|done]. Qed.

(** [from_chars] reads the whole text exactly when it is a decimal number in
    range. *)
Lemma from_chars_whole max text value v :
  from_chars max text value = ([], errc_ok, v)
  <-> decimal text /\ dec_value 0 text = v /\ v <= max.
Proof.
  unfold from_chars, decimal. split.
  - pose proof (digit_span_split text) as Hs. pose proof (digit_span_digits text) as Hd.
    destruct (digit_span text) as [|c ds]; [done|].
    destruct (Z.gtb_spec (dec_value 0 (c :: ds)) max); [done|]. intros [= Hr <-].
    cbn [length] in Hs. rewrite Hr, app_nil_r in Hs. rewrite Hs. done.
  - intros ([Hne Hall] & <- & Hmax). rewrite digit_span_all by done. destruct text as [|c text]; [done|].
    rewrite Z.gtb_ltb, (proj2 (Z.ltb_ge _ _)) by done. by rewrite drop_all.
Qed.

Lemma from_chars_kept max text value rest e v :
  from_chars max text value = (rest, e, v) -> e <> errc_ok -> v = value.
Proof.
  unfold from_chars. destruct (digit_span text); [by intros [= _ _ <-]|].
  case_if; [by intros [= _ _ <-]|]. by intros [= _ <- _].
Qed.

Lemma dec_value_nonneg acc l :
  0 <= acc -> forallb is_digit l = true -> 0 <= dec_value acc l.
Proof.
  revert acc. induction l as [|c l IH]; intros acc Ha Hl; simpl; [done|].
  simpl in Hl. reflect_bools. apply IH; [|done].
  match goal with H : is_digit c = true |- _ => unfold is_digit in H end. reflect_bools.
  unfold digit_value. lia.
Qed.

Lemma show_unsigned_decimal z : 0 <= z -> decimal (show_unsigned z).
Proof. intros Hz. split; [apply show_unsigned_nonempty|by apply show_unsigned_digits]. Qed.

Lemma strtoull_show z : 0 <= z < 2 ^ 64 -> strtoull (show_unsigned z) = z.
Proof.
  intros Hz. unfold strtoull.
  rewrite scan_digits by (apply show_unsigned_nonempty || (apply show_unsigned_digits; lia)).
  rewrite show_unsigned_value by lia.
  by rewrite Z.gtb_ltb, (proj2 (Z.ltb_ge _ _)) by (unfold u64_max; lia).
Qed.

Lemma strtoull_range text : 0 <= strtoull text < 2 ^ 64.
Proof.
  unfold strtoull, scan_int.
  destruct (match skip_spaces text with [] => _ | c :: rest => _ end) as [negative t].
  pose proof (digit_span_digits t) as Hd. destruct (digit_span t) as [|c ds]; [lia|].
  pose proof (dec_value_nonneg 0 (c :: ds) ltac:(lia) Hd).
  destruct (Z.gtb_spec (dec_value 0 (c :: ds)) u64_max); [unfold u64_max; lia|].
  destruct negative; [apply u64_range|unfold u64_max in *; lia].
Qed.
