(* ===== verification/Protocol.v ===== *)
(** * The wire protocol ([capstone/reference/src/protocol.cpp])

    Framing ([encode_frame], [recv_frame], [send_frame]) and the exact I/O loops
    under it ([read_exact], [write_all]).  The loops are proved equal to a
    reference description of the byte stream; framing round-trips over every
    fragmentation.  The command parser of the same source file is in
    [Commands.v]. *)

From stdpp Require Import base list strings.
From Stdlib Require Import Strings.Byte ZArith Lia.
From S2P Require Import Prelude ByteOrder Posix.

(** ** Data *)

Definition kDefaultMaxPayload : Z := 64 * 1024.

Module IoStatus.
Inductive t := ok | eof | would_block | error | too_large | malformed.
#[global] Instance t_eq_decision : EqDecision t.
Proof. solve_decision. Defined.
End IoStatus.

Record IoResult := mkIoResult {
  io_status : IoStatus.t;
  io_bytes : Z;
  io_error_number : Z;
}.

Record FrameResult := mkFrameResult {
  fr_status : IoStatus.t;
  fr_payload : bytes;
  fr_error_number : Z;
}.

(** ** Exact I/O *)

(** The loop of [read_exact]; [output] holds the [offset] bytes stored so far.
    Recursion is on the script: an iteration either consumes an event or fills
    the buffer.  [read_exact_from_unfold] below states the loop with its system
    call. *)
Fixpoint read_exact_from (script : list read_event) (size : Z) (output : bytes)
  : outcome (IoResult * bytes * list read_event) :=
  let offset := len output in
  if offset <? size then
    match script with
    | [] => Blocked
    | RData b bs :: rest =>
        let count := Z.to_nat (size - offset) in
        match drop count (b :: bs) with
        | [] => read_exact_from rest size (output ++ b :: bs)
        | b' :: bs' =>
            Done (mkIoResult IoStatus.ok size 0, output ++ take count (b :: bs),
                  RData b' bs' :: rest)
        end
    | REof :: rest => Done (mkIoResult IoStatus.eof offset 0, output, REof :: rest)
    | RErr e :: rest =>
        if e =? EINTR then read_exact_from rest size output
        else if (e =? EAGAIN) || (e =? EWOULDBLOCK)
        then Done (mkIoResult IoStatus.would_block offset e, output, rest)
        else Done (mkIoResult IoStatus.error offset e, output, rest)
    end
  else Done (mkIoResult IoStatus.ok offset 0, output, script).

Definition read_exact (size : Z) (script : list read_event)
  : outcome (IoResult * bytes * list read_event) :=
  read_exact_from script size [].

(** [send] takes bytes off the front of what is left of [input]. *)
Fixpoint write_all_from (script : list write_event) (left sent : bytes)
  : outcome (IoResult * bytes * list write_event) :=
  let offset := len sent in
  match left with
  | [] => Done (mkIoResult IoStatus.ok offset 0, sent, script)
  | _ :: _ =>
      match script with
      | [] => Blocked
      | WTake n :: rest =>
          write_all_from rest (drop (Pos.to_nat n) left) (sent ++ take (Pos.to_nat n) left)
      | WZero :: rest => Done (mkIoResult IoStatus.error offset EIO, sent, rest)
      | WErr e :: rest =>
          if e =? EINTR then write_all_from rest left sent
          else if (e =? EAGAIN) || (e =? EWOULDBLOCK)
          then Done (mkIoResult IoStatus.would_block offset e, sent, rest)
          else Done (mkIoResult IoStatus.error offset e, sent, rest)
      end
  end.

Definition write_all (input : bytes) (script : list write_event)
  : outcome (IoResult * bytes * list write_event) :=
  write_all_from script input [].

(** ** Framing *)

Section Framing.
Context `{Host}.

Definition encode_frame (payload : bytes) : outcome bytes :=
  if len payload >? u32_max
  then Threw "frame payload exceeds the 32-bit wire length"
  else
    let network_length := htonl (u32 (len payload)) in
    Done (store_u32 network_length ++ payload).

Definition recv_frame (max_payload : Z) (script : list read_event)
  : outcome (FrameResult * list read_event) :=
  let* (header_result, header, script) := read_exact 4 script in
  if decide (io_status header_result <> IoStatus.ok)
  then Done (mkFrameResult (io_status header_result) [] (io_error_number header_result),
             script)
  else
    let network_length := load_u32 header in
    let length := ntohl network_length in
    if length >? max_payload
    then Done (mkFrameResult IoStatus.too_large [] EMSGSIZE, script)
    else
      let* (payload_result, payload, script) := read_exact length script in
      if decide (io_status payload_result <> IoStatus.ok)
      then Done (mkFrameResult (io_status payload_result) []
                   (io_error_number payload_result), script)
      else Done (mkFrameResult IoStatus.ok payload 0, script).

Definition send_frame (payload : bytes) (script : list write_event)
  : outcome (IoResult * bytes * list write_event) :=
  let* frame := encode_frame payload in
  write_all frame script.
End Framing.

(** ** Exact I/O against the byte stream *)

(** The loop as the source writes it: one [read] of what is missing, then the
    branch on its result. *)
Lemma read_exact_from_unfold script size output :
  read_exact_from script size output =
  if len output <? size then
    let* (r, rest) := sys_read (size - len output) script in
    match r with
    | Got [] => Done (mkIoResult IoStatus.eof (len output) 0, output, rest)
    | Got (b :: bs) => read_exact_from rest size (output ++ b :: bs)
    | ReadFailed e =>
        if e =? EINTR then read_exact_from rest size output
        else if (e =? EAGAIN) || (e =? EWOULDBLOCK)
        then Done (mkIoResult IoStatus.would_block (len output) e, output, rest)
        else Done (mkIoResult IoStatus.error (len output) e, output, rest)
    end
  else Done (mkIoResult IoStatus.ok (len output) 0, output, script).
Proof.
  destruct script as [|[b bs| |e] rest]; simpl; case_if; try done.
  reflect_bools. destruct (Z.to_nat (size - len output)) as [|n] eqn:En; [lia|].
  simpl. destruct (drop n bs) as [|b' bs'] eqn:Hd; simpl.
  - by rewrite take_ge by (apply (f_equal length) in Hd; rewrite length_drop in Hd; simpl in Hd; lia).
  - assert (Hlt : (n < length bs)%nat).
    { apply (f_equal length) in Hd. rewrite length_drop in Hd. simpl in Hd. lia. }
    assert (Hl : len (output ++ b :: take n bs) = size).
    { unfold len in *. rewrite length_app. simpl. rewrite length_take. lia. }
    rewrite Hl, Z.ltb_irrefl. done.
Qed.

(** What [read_exact] does, in terms of the stream's bytes and end only. *)
Definition read_exact_ref (size : Z) (s : bytes * stream_end)
  : outcome (IoResult * bytes) :=
  let (data, fin) := s in
  if size <=? len data then
    Done (mkIoResult IoStatus.ok size 0, take (Z.to_nat size) data)
  else match fin with
  | SBlock => Blocked
  | SEof => Done (mkIoResult IoStatus.eof (len data) 0, data)
  | SErr e =>
      Done (mkIoResult (if e =? EAGAIN then IoStatus.would_block else IoStatus.error)
              (len data) e, data)
  end.

(** The relation between a run of the loop and the reference. *)
Definition reads_as (size : Z) (run : outcome (IoResult * bytes * list read_event))
    (s : bytes * stream_end) : Prop :=
  match run with
  | Done (r, out, rest) =>
      read_exact_ref size s = Done (r, out)
      /\ (io_status r = IoStatus.ok ->
          stream rest = (drop (Z.to_nat size) (fst s), snd s))
  | Blocked => read_exact_ref size s = Blocked
  | _ => False
  end.

Lemma reads_as_full script output :
  reads_as (len output)
    (Done (mkIoResult IoStatus.ok (len output) 0, output, script))
    (output ++ fst (stream script), snd (stream script)).
Proof.
  simpl. rewrite (proj2 (Z.leb_le _ _)).
  2:{ rewrite len_app. pose proof (len_nonneg (fst (stream script))). lia. }
  unfold len. rewrite Nat2Z.id, take_app_length, drop_app_length.
  by destruct (stream script).
Qed.

Lemma read_exact_ref_short size data fin :
  len data < size ->
  read_exact_ref size (data, fin) =
  match fin with
  | SBlock => Blocked
  | SEof => Done (mkIoResult IoStatus.eof (len data) 0, data)
  | SErr e =>
      Done (mkIoResult (if e =? EAGAIN then IoStatus.would_block else IoStatus.error)
              (len data) e, data)
  end.
Proof. intros. simpl. by rewrite (proj2 (Z.leb_gt _ _)) by lia. Qed.

Lemma len_drop_nil {A} n (l : list A) : drop n l = [] -> len l <= Z.of_nat n.
Proof. intros Hd%(f_equal length). rewrite length_drop in Hd. unfold len. simpl in Hd. lia. Qed.

Lemma len_drop_cons {A} n (l : list A) x k : drop n l = x :: k -> Z.of_nat n < len l.
Proof. intros Hd%(f_equal length). rewrite length_drop in Hd. unfold len. simpl in Hd. lia. Qed.

(** A chunk that overfills the buffer: the loop ends and the rest of the chunk
    stays in the stream. *)
Lemma reads_as_overfull size output chunk b' bs' rest :
  len output <= size ->
  drop (Z.to_nat (size - len output)) chunk = b' :: bs' ->
  reads_as size
    (Done (mkIoResult IoStatus.ok size 0,
           output ++ take (Z.to_nat (size - len output)) chunk, RData b' bs' :: rest))
    (output ++ chunk ++ fst (stream rest), snd (stream rest)).
Proof.
  intros Hle Hd. pose proof (len_drop_cons _ _ _ _ Hd) as Hlt.
  unfold reads_as, read_exact_ref. rewrite (proj2 (Z.leb_le _ _)).
  2:{ rewrite !len_app. pose proof (len_nonneg (fst (stream rest))). lia. }
  assert (Hn : (Z.to_nat size = length output + Z.to_nat (size - len output))%nat)
    by (unfold len in *; lia).
  assert (Hs : (Z.to_nat (size - len output) <= length chunk)%nat)
    by (unfold len in *; lia).
  rewrite Hn. cbn [fst snd stream].
  by rewrite take_app_add, drop_app_add, take_app_le, drop_app_le, Hd.
Qed.

Lemma read_exact_from_spec script size output :
  len output <= size ->
  reads_as size (read_exact_from script size output)
    (output ++ fst (stream script), snd (stream script)).
Proof.
  revert output. induction script as [|ev rest IH]; intros output Hle;
    cbn [read_exact_from]; (destruct (Z.ltb_spec (len output) size) as [Hlt|];
    [|replace size with (len output) by lia; apply reads_as_full]).
  - unfold reads_as. cbn [stream fst snd]. rewrite app_nil_r. by rewrite read_exact_ref_short.
  - destruct ev as [b bs| |e]; cbn [stream fst snd].
    + destruct (drop _ (b :: bs)) as [|b' bs'] eqn:Hd.
      * specialize (IH (output ++ b :: bs)). rewrite <- app_assoc in IH. apply IH.
        rewrite len_app. apply len_drop_nil in Hd. lia.
      * by apply reads_as_overfull.
    + unfold reads_as. rewrite app_nil_r. by rewrite read_exact_ref_short.
    + destruct (Z.eqb_spec e EINTR) as [->|Hne]; [by apply IH|].
      cbn [fst snd]. rewrite app_nil_r.
      change EWOULDBLOCK with EAGAIN. rewrite orb_diag.
      destruct (e =? EAGAIN) eqn:He; unfold reads_as;
        rewrite read_exact_ref_short, He by done; done.
Qed.

Lemma read_exact_spec script size :
  0 <= size -> reads_as size (read_exact size script) (stream script).
Proof.
  intros Hs. pose proof (read_exact_from_spec script size [] Hs) as H.
  simpl in H. by destruct (stream script).
Qed.

(** What [write_all] does, in terms of how many bytes the kernel takes. *)
Definition write_all_ref (input : bytes) (k : Z * sink_end) : outcome (IoResult * bytes) :=
  let (cap, fin) := k in
  if len input <=? cap then Done (mkIoResult IoStatus.ok (len input) 0, input)
  else match fin with
  | KBlock => Blocked
  | KZero => Done (mkIoResult IoStatus.error cap EIO, take (Z.to_nat cap) input)
  | KErr e =>
      Done (mkIoResult (if e =? EAGAIN then IoStatus.would_block else IoStatus.error) cap e,
            take (Z.to_nat cap) input)
  end.

Definition drop_script {A B} (run : outcome (A * B)) : outcome A :=
  let* (a, _) := run in Done a.

Lemma write_all_ref_full input cap fin :
  len input <= cap ->
  write_all_ref input (cap, fin) = Done (mkIoResult IoStatus.ok (len input) 0, input).
Proof. intros. simpl. by rewrite (proj2 (Z.leb_le _ _)). Qed.

Lemma write_all_from_spec script left sent :
  drop_script (write_all_from script left sent)
  = write_all_ref (sent ++ left) (len sent + fst (sink script), snd (sink script)).
Proof.
  revert left sent. induction script as [|ev rest IH]; intros left sent;
    destruct left as [|b left]; cbn [write_all_from].
  1,3: rewrite app_nil_r; symmetry; apply write_all_ref_full;
       match goal with |- context [sink ?k] => pose proof (sink_nonneg k); lia end.
  - simpl. rewrite (proj2 (Z.leb_gt _ _)); [done|].
    rewrite len_app, len_cons. pose proof (len_nonneg left). lia.
  - pose proof (len_nonneg left). destruct ev as [n| |e]; cbn [sink fst snd].
    + rewrite IH, <- app_assoc, take_drop.
      rewrite len_app. destruct (Z.le_gt_cases (Z.pos n) (len (b :: left))) as [Hn|Hn].
      * replace (len (take (Pos.to_nat n) (b :: left))) with (Z.pos n); [f_equal; f_equal; lia|].
        unfold len in *. rewrite length_take. lia.
      * pose proof (sink_nonneg rest).
        rewrite !write_all_ref_full; rewrite ?len_app; unfold len in *;
          rewrite ?length_take; simpl in *; try lia. done.
    + simpl. rewrite (proj2 (Z.leb_gt _ _)) by (rewrite len_app, len_cons; lia).
      rewrite Z.add_0_r. unfold len. by rewrite Nat2Z.id, take_app_length.
    + destruct (Z.eqb_spec e EINTR) as [->|Hne]; [by apply IH|].
      change EWOULDBLOCK with EAGAIN. rewrite orb_diag. cbn [fst snd]. rewrite Z.add_0_r.
      simpl. rewrite (proj2 (Z.leb_gt _ _)) by (rewrite len_app, len_cons; lia).
      unfold len. rewrite Nat2Z.id, take_app_length. by destruct (e =? EAGAIN).
Qed.

Lemma write_all_spec input script :
  drop_script (write_all input script) = write_all_ref input (sink script).
Proof.
  unfold write_all. rewrite write_all_from_spec. simpl. by destruct (sink script).
Qed.

(** A script on which the kernel keeps taking bytes: signals may interrupt the
    calls, and at least [n] calls make progress. *)
Fixpoint willing (n : nat) (script : list write_event) : Prop :=
  match script with
  | [] => n = 0%nat
  | WTake _ :: rest => willing (pred n) rest
  | WErr e :: rest => e = EINTR /\ willing n rest
  | WZero :: _ => False
  end.

Lemma willing_le n m script : (m <= n)%nat -> willing n script -> willing m script.
Proof.
  revert n m. induction script as [|[k| |e] rest IH]; simpl; intros n m Hle Hw.
  - lia.
  - eapply IH; [|exact Hw]. lia.
  - done.
  - destruct Hw. split; [done|]. by eapply IH.
Qed.

(** Such a script takes a whole buffer of at most [n] bytes and stays willing
    for what is left of [n]. *)
Lemma write_all_from_willing script n left sent :
  willing n script -> (length left <= n)%nat ->
  exists rest,
    write_all_from script left sent
    = Done (mkIoResult IoStatus.ok (len (sent ++ left)) 0, sent ++ left, rest)
    /\ willing (n - length left) rest.
Proof.
  revert n left sent. induction script as [|ev rest IH]; intros n left sent Hw Hl;
    destruct left as [|b left]; cbn [write_all_from].
  1,3: eexists; rewrite app_nil_r; split; [reflexivity|]; by rewrite Nat.sub_0_r.
  - simpl in *. lia.
  - destruct ev as [k| |e]; [| done |].
    + edestruct (IH (pred n) (drop (Pos.to_nat k) (b :: left))
                    (sent ++ take (Pos.to_nat k) (b :: left))) as (r & Hr & Hwr).
      * apply Hw.
      * rewrite length_drop. simpl in *. lia.
      * rewrite <- app_assoc, take_drop in Hr. exists r. split; [exact Hr|].
        eapply willing_le; [|exact Hwr]. rewrite length_drop. simpl in *. lia.
    + destruct Hw as [-> Hw]. by apply IH.
Qed.

(** ** Framing *)

(** The bytes of a frame on the wire. *)
Definition frame_of (payload : bytes) : bytes := be32 (len payload) ++ payload.

Lemma len_frame_of p : len (frame_of p) = 4 + len p.
Proof. unfold frame_of. by rewrite len_app. Qed.

Lemma encode_frame_be `{Host} p :
  len p <= u32_max -> encode_frame p = Done (frame_of p).
Proof.
  intros Hp. unfold encode_frame, u32_max in *. pose proof (len_nonneg p).
  rewrite Z.gtb_ltb, (proj2 (Z.ltb_ge _ _)) by lia.
  by rewrite u32_small, store_htonl by lia.
Qed.

Lemma encode_frame_too_long `{Host} p :
  u32_max < len p ->
  encode_frame p = Threw "frame payload exceeds the 32-bit wire length".
Proof. intros Hp. unfold encode_frame. by rewrite Z.gtb_ltb, (proj2 (Z.ltb_lt _ _)). Qed.

(** What [recv_frame] does, in terms of the stream. *)
Definition frame_end (fin : stream_end) : outcome FrameResult :=
  match fin with
  | SBlock => Blocked
  | SEof => Done (mkFrameResult IoStatus.eof [] 0)
  | SErr e =>
      Done (mkFrameResult (if e =? EAGAIN then IoStatus.would_block else IoStatus.error) [] e)
  end.

Definition recv_frame_ref (max_payload : Z) (s : bytes * stream_end) : outcome FrameResult :=
  let (data, fin) := s in
  if len data <? 4 then frame_end fin
  else
    let length := be_value (take 4 data) 0 in
    if length >? max_payload then Done (mkFrameResult IoStatus.too_large [] EMSGSIZE)
    else if len (drop 4 data) <? length then frame_end fin
    else Done (mkFrameResult IoStatus.ok (take (Z.to_nat length) (drop 4 data)) 0).

(** The bytes of the stream a received (or refused) frame uses up. *)
Definition frame_used (r : FrameResult) : option nat :=
  match fr_status r with
  | IoStatus.ok => Some (4 + length (fr_payload r))%nat
  | IoStatus.too_large => Some 4%nat
  | _ => None
  end.

Definition receives_as (max_payload : Z) (run : outcome (FrameResult * list read_event))
    (s : bytes * stream_end) : Prop :=
  match run with
  | Done (r, rest) =>
      recv_frame_ref max_payload s = Done r
      /\ forall n, frame_used r = Some n -> stream rest = (drop n (fst s), snd s)
  | Blocked => recv_frame_ref max_payload s = Blocked
  | _ => False
  end.

(** The reads of [recv_frame], as the reference sees them. *)
Lemma read_exact_cases script size :
  0 <= size ->
  (exists rest, size <= len (fst (stream script))
     /\ read_exact size script
        = Done (mkIoResult IoStatus.ok size 0, take (Z.to_nat size) (fst (stream script)), rest)
     /\ stream rest = (drop (Z.to_nat size) (fst (stream script)), snd (stream script)))
  \/ (len (fst (stream script)) < size
      /\ match snd (stream script) with
         | SBlock => read_exact size script = Blocked
         | fin => exists r rest,
             read_exact size script = Done (r, fst (stream script), rest)
             /\ io_status r <> IoStatus.ok
             /\ frame_end fin = Done (mkFrameResult (io_status r) [] (io_error_number r))
             /\ io_bytes r = len (fst (stream script))
             /\ (io_status r = IoStatus.eof <-> fin = SEof)
         end).
Proof.
  intros Hs. pose proof (read_exact_spec script size Hs) as H.
  destruct (stream script) as [data fin] eqn:Est. cbn [fst snd].
  destruct (Z.le_gt_cases size (len data)) as [Hle|Hgt].
  - left. unfold reads_as, read_exact_ref in H. rewrite (proj2 (Z.leb_le _ _)) in H by done.
    destruct (read_exact size script) as [[[r out] rest]| | | |]; try done.
    destruct H as [[= <- <-] Hrest]. exists rest. by rewrite (Hrest eq_refl).
  - right. split; [done|]. unfold reads_as in H. rewrite read_exact_ref_short in H by lia.
    destruct fin as [|e|];
      destruct (read_exact size script) as [[[r out] rest]| | | |]; try done;
      try (by destruct H).
    + destruct H as [[= <- <-] _]. by exists (mkIoResult IoStatus.eof (len data) 0), rest.
    + destruct H as [[= <- <-] _]. eexists _, rest. split; [done|].
      cbn [io_status io_error_number io_bytes frame_end]. by destruct (e =? EAGAIN).
Qed.

Lemma recv_frame_spec `{Host} max_payload script :
  receives_as max_payload (recv_frame max_payload script) (stream script).
Proof.
  unfold recv_frame.
  destruct (read_exact_cases script 4) as
    [(rest & Hle & -> & Hrest)|(Hlt & Hfin)]; [lia| |].
  - destruct (stream script) as [data fin]. cbn [fst snd obind] in *.
    rewrite decide_False by (simpl; congruence).
    assert (Hl4 : length (take (Z.to_nat 4) data) = 4%nat).
    { rewrite length_take. unfold len in Hle. lia. }
    rewrite ntohl_load by done. change (Z.to_nat 4) with 4%nat in *.
    unfold receives_as, recv_frame_ref.
    rewrite (proj2 (Z.ltb_ge _ _)) by lia.
    destruct (be_value (take 4 data) 0 >? max_payload) eqn:Emax.
    { split; [done|]. intros n [= <-]. done. }
    pose proof (be_value_range _ Hl4) as Hrange.
    destruct (read_exact_cases rest (be_value (take 4 data) 0)) as
      [(rest' & Hle' & -> & Hrest')|(Hlt' & Hfin')]; [lia| |]; rewrite Hrest in *; cbn [fst snd] in *.
    + cbn [obind]. rewrite decide_False by (simpl; congruence).
      rewrite (proj2 (Z.ltb_ge _ _)) by lia. split; [done|].
      intros n [= <-]. cbn [fr_payload]. rewrite Hrest', drop_drop. do 2 f_equal.
      rewrite length_take. unfold len in *. lia.
    + rewrite (proj2 (Z.ltb_lt _ _)) by lia. destruct fin as [|e|].
      3: by rewrite Hfin'.
      all: destruct Hfin' as (r & rest' & -> & Hne & Hr & _ & _); cbn [obind];
        rewrite decide_True by done; split; [exact Hr|]; intros n;
        injection Hr as <- _; try discriminate; by destruct (e =? EAGAIN).
  - destruct (stream script) as [data fin]. cbn [fst snd] in *.
    unfold receives_as, recv_frame_ref. rewrite (proj2 (Z.ltb_lt _ _)) by lia.
    destruct fin as [|e|].
    3: by rewrite Hfin.
    all: destruct Hfin as (r & rest' & -> & Hne & Hr & _ & _); cbn [obind];
        rewrite decide_True by done; split; [exact Hr|]; intros n;
        injection Hr as <- _; try discriminate; by destruct (e =? EAGAIN).
Qed.

(** The two reads a frame makes, when the stream has the bytes ... *)
Lemma read_exact_prefix script a b fin :
  stream script = (a ++ b, fin) ->
  exists rest, read_exact (len a) script = Done (mkIoResult IoStatus.ok (len a) 0, a, rest)
               /\ stream rest = (b, fin).
Proof.
  intros Hs. destruct (read_exact_cases script (len a) (len_nonneg a))
    as [(rest & _ & Hr & Hrest)|[Hlt _]]; rewrite Hs in *; cbn [fst snd] in *.
  - exists rest. rewrite Hr, Hrest. unfold len. by rewrite Nat2Z.id, take_app_length, drop_app_length.
  - rewrite len_app in Hlt. pose proof (len_nonneg b). lia.
Qed.

(** ... and when it ends early. *)
Lemma read_exact_eof script a size :
  stream script = (a, SEof) -> len a < size ->
  exists rest, read_exact size script = Done (mkIoResult IoStatus.eof (len a) 0, a, rest).
Proof.
  intros Hs Hlt. pose proof (len_nonneg a).
  pose proof (read_exact_spec script size ltac:(lia)) as Hr. rewrite Hs in Hr.
  unfold reads_as in Hr. rewrite read_exact_ref_short in Hr by done.
  destruct (read_exact size script) as [[[r out] rest]| | | |]; try done.
  destruct Hr as [[= <- <-] _]. by exists rest.
Qed.

Lemma header_value (p : bytes) : 0 <= len p < 2 ^ 32 -> be_value (be32 (len p)) 0 = len p.
Proof. apply be_value_be32. Qed.

(** A whole frame at the front of the stream is received. *)
Lemma recv_frame_frame `{Host} max_payload script p tail fin :
  len p <= max_payload -> len p <= u32_max ->
  stream script = (frame_of p ++ tail, fin) ->
  exists rest, recv_frame max_payload script = Done (mkFrameResult IoStatus.ok p 0, rest)
               /\ stream rest = (tail, fin).
Proof.
  intros Hmax Hp Hs. unfold frame_of in Hs. rewrite <- app_assoc in Hs.
  destruct (read_exact_prefix _ _ _ _ Hs) as (r1 & Hr1 & Hs1).
  destruct (read_exact_prefix _ _ _ _ Hs1) as (r2 & Hr2 & Hs2).
  exists r2. split; [|done]. unfold recv_frame.
  change (len (be32 _)) with 4 in Hr1. rewrite Hr1. cbn [obind io_status].
  pose proof (len_nonneg p). unfold u32_max in Hp.
  rewrite decide_False by congruence. rewrite ntohl_load, header_value by (done || lia).
  rewrite Z.gtb_ltb, (proj2 (Z.ltb_ge _ _)) by done.
  rewrite Hr2. cbn [obind io_status]. by rewrite decide_False by congruence.
Qed.

(** A script that takes enough bytes sends the whole frame. *)
(** A frame that is received was in the stream. *)
Lemma recv_frame_ok_inv `{Host} max_payload script r rest :
  recv_frame max_payload script = Done (r, rest) -> fr_status r = IoStatus.ok ->
  exists tail, fst (stream script) = frame_of (fr_payload r) ++ tail /\ len (fr_payload r) <= max_payload.
Proof.
  intros Hr Hok. pose proof (recv_frame_spec max_payload script) as Hspec. rewrite Hr in Hspec.
  destruct Hspec as [Href _]. unfold recv_frame_ref, frame_end in Href.
  destruct (stream script) as [data fin]. cbn [fst].
  destruct (Z.ltb_spec (len data) 4) as [|H4]; [destruct fin as [|e|]; simplify_eq/=; try done; by destruct (e =? EAGAIN)|].
  destruct (Z.gtb_spec (be_value (take 4 data) 0) max_payload) as [|Hmax]; [by simplify_eq|].
  assert (length (take 4 data) = 4%nat) as Hl4 by (rewrite length_take; unfold len in H4; lia).
  pose proof (be_value_range _ Hl4) as Hrange.
  destruct (Z.ltb_spec (len (drop 4 data)) (be_value (take 4 data) 0)) as [|Hlen];
    [destruct fin as [|e|]; simplify_eq/=; try done; by destruct (e =? EAGAIN)|].
  injection Href as <-. cbn [fr_payload].
  assert (len (take (Z.to_nat (be_value (take 4 data) 0)) (drop 4 data)) = be_value (take 4 data) 0)
    as Hp by (unfold len in *; rewrite length_take; lia).
  exists (drop (Z.to_nat (be_value (take 4 data) 0)) (drop 4 data)). rewrite Hp. split; [|done].
  unfold frame_of. rewrite Hp, be32_be_value by done.
  by rewrite <- app_assoc, take_drop, take_drop.
Qed.

(** A frame that is sent was taken by the kernel. *)
Lemma send_frame_ok_inv `{Host} payload script r out rest :
  len payload <= u32_max -> send_frame payload script = Done (r, out, rest) ->
  io_status r = IoStatus.ok -> out = frame_of payload.
Proof.
  intros Hp Hsend Hok. unfold send_frame in Hsend.
  rewrite encode_frame_be in Hsend by done. cbn [obind] in Hsend.
  pose proof (write_all_spec (frame_of payload) script) as Hw. rewrite Hsend in Hw.
  unfold write_all_ref in Hw. destruct (sink script) as [cap kend].
  destruct (len (frame_of payload) <=? cap); [by injection Hw|].
  destruct kend as [|e|]; [..|done]; injection Hw as -> ->; [done|].
  by destruct (e =? EAGAIN).
Qed.

Lemma send_frame_willing `{Host} p script n :
  len p <= u32_max -> willing n script -> (length (frame_of p) <= n)%nat ->
  exists rest, send_frame p script
               = Done (mkIoResult IoStatus.ok (len (frame_of p)) 0, frame_of p, rest)
               /\ willing (n - length (frame_of p)) rest.
Proof.
  intros Hp Hw Hn. unfold send_frame. rewrite encode_frame_be by done. cbn [obind].
  by apply (write_all_from_willing script n (frame_of p) []).
Qed.

(** ** Properties *)

(** [read_exact] is the reference reader.  For every buffer size and every
    behaviour of [read] (any fragmentation, any number of [EINTR], end of file,
    any error), it returns exactly what the byte stream prescribes: all the
    bytes asked for, or the bytes before the end with the status, the count and
    the [errno] of that end; it waits only when the stream does; and after a
    full read the stream continues right behind the bytes taken. *)
Theorem read_exact_is_stream_read size script :
  0 <= size -> reads_as size (read_exact size script) (stream script).
Proof. apply read_exact_spec. Qed.

Lemma read_exact_is_stream_read_witness :
  reads_as 3 (read_exact 3 [RErr EINTR; RData "a" []; RData "b" (str "cd"); REof])
    (str "abcd", SEof).
Proof.
  apply (read_exact_is_stream_read 3 [RErr EINTR; RData "a" []; RData "b" (str "cd"); REof]).
  lia.
Defined.

(** [write_all] is the reference writer.  For every buffer and every
    behaviour of [send], the bytes handed to the kernel are all of the input
    when the kernel takes that many, and otherwise the prefix it took, with the
    count and the error of the call that stopped it (a zero-byte [send] is
    reported as [EIO]). *)
Theorem write_all_is_sink_write input script :
  drop_script (write_all input script) = write_all_ref input (sink script).
Proof. apply write_all_spec. Qed.

(** C23: receiving a frame.  For every stream, [recv_frame] decodes the
    big-endian length on either byte order, refuses a length above the limit
    before it reads any payload byte, reports an end or error inside the header
    or the body as that end or error with an empty payload, and otherwise
    returns exactly the declared bytes and leaves the stream right behind
    them. *)
Theorem recv_frame_is_stream_frame `{Host} max_payload script :
  receives_as max_payload (recv_frame max_payload script) (stream script).
Proof. apply recv_frame_spec. Qed.

(** C32: framing round trip.  Whatever [send] did on the way, if [send_frame]
    reports success then a receiver whose stream starts with the bytes sent, cut
    and interrupted in any way, and whose limit admits the payload, receives
    exactly the payload and is left at the byte after the frame. *)
Theorem send_recv_roundtrip `{Host} payload wscript r out wrest max_payload rscript tail fin :
  len payload <= max_payload -> len payload <= u32_max ->
  send_frame payload wscript = Done (r, out, wrest) -> io_status r = IoStatus.ok ->
  stream rscript = (out ++ tail, fin) ->
  exists rest,
    recv_frame max_payload rscript = Done (mkFrameResult IoStatus.ok payload 0, rest)
    /\ stream rest = (tail, fin).
Proof.
  intros Hmax Hp Hsend Hok Hs. rewrite (send_frame_ok_inv _ _ _ _ _ Hp Hsend Hok) in Hs.
  by apply (recv_frame_frame _ _ _ tail fin).
Qed.

Lemma send_recv_roundtrip_witness :
  exists rest,
    @recv_frame little 16 [RData x00 [x00]; RErr EINTR; RData x00 [x02; "o"%byte]; RData "k" (str "!")]
      = Done (mkFrameResult IoStatus.ok (str "ok") 0, rest)
    /\ stream rest = (str "!", SBlock).
Proof.
  eapply (@send_recv_roundtrip little (str "ok") [WTake 2; WErr EINTR; WTake 3; WTake 9]
            (mkIoResult IoStatus.ok 6 0) ([x00; x00; x00; x02] ++ str "ok") [] 16);
    try reflexivity; vm_compute; discriminate.
Defined.
