(* ===== verification/Commands.v ===== *)
(** * The command language ([capstone/reference/src/protocol.cpp], lines 19-36, 129-168)

    [trim], [split_once], [valid_key] and [parse_command], with what the parser
    guarantees about the commands it accepts and the round trip with the text
    of a command. *)

From stdpp Require Import base list strings.
From Stdlib Require Import Strings.Byte ZArith Lia.
From S2P Require Import Prelude Numeric.

(** ** Data *)

Inductive Command :=
| Ping
| Stats
| Get (key : bytes)
| Del (key : bytes)
| SetKey (key value : bytes).

(** [std::variant<Command, ParseError>]. *)
Inductive ParseResult :=
| Parsed (c : Command)
| ParseError (message : bytes).

(** ** Commands *)

Definition isdigit (c : byte) : bool := (48 <=? b2z c) && (b2z c <=? 57).
Definition isupper (c : byte) : bool := (65 <=? b2z c) && (b2z c <=? 90).
Definition islower (c : byte) : bool := (97 <=? b2z c) && (b2z c <=? 122).
Definition isalnum (c : byte) : bool := isdigit c || isupper c || islower c.

Definition beq (a b : byte) : bool := b2z a =? b2z b.
Definition bytes_eqb (a b : bytes) : bool := bool_decide (a = b).

Fixpoint trim_front (text : bytes) : bytes :=
  match text with
  | [] => []
  | c :: rest => if isspace c then trim_front rest else text
  end.
Definition trim_back (text : bytes) : bytes := rev (trim_front (rev text)).
Definition trim (text : bytes) : bytes := trim_back (trim_front text).

(** [text.find_first_of(" \t\r\n")]. *)
Definition is_separator (c : byte) : bool :=
  (b2z c =? 32) || (b2z c =? 9) || (b2z c =? 13) || (b2z c =? 10).
Fixpoint find_first_of (p : byte -> bool) (text : bytes) : option nat :=
  match text with
  | [] => None
  | c :: rest => if p c then Some 0%nat else S <$> find_first_of p rest
  end.

Definition split_once (text : bytes) : bytes * bytes :=
  let text := trim text in
  match find_first_of is_separator text with
  | None => (text, [])
  | Some position => (take position text, trim (drop (position + 1) text))
  end.

Definition key_char (c : byte) : bool :=
  isalnum c || beq c "_" || beq c "-" || beq c "." || beq c ":".

Definition valid_key (key : bytes) : bool :=
  if (len key =? 0) || (len key >? 128) then false else forallb key_char key.

Definition is_nul (c : byte) : bool := b2z c =? 0.
Definition parse_command (payload : bytes) : ParseResult :=
  if existsb is_nul payload
  then ParseError (str "NUL bytes are not valid command text")
  else
    let (verb, arguments) := split_once payload in
    if bytes_eqb verb (str "PING") && is_empty arguments then Parsed Ping
    else if bytes_eqb verb (str "STATS") && is_empty arguments then Parsed Stats
    else if bytes_eqb verb (str "GET") || bytes_eqb verb (str "DEL") then
      let (key, extra) := split_once arguments in
      if negb (valid_key key) || negb (is_empty extra)
      then ParseError (str "GET/DEL requires exactly one safe key")
      else if bytes_eqb verb (str "GET") then Parsed (Get key)
      else Parsed (Del key)
    else if bytes_eqb verb (str "SET") then
      let (key, value) := split_once arguments in
      if negb (valid_key key) || is_empty value
      then ParseError (str "SET requires a safe key and a non-empty value")
      else Parsed (SetKey key value)
    else ParseError (str "unknown or malformed command").

Example parse_set :
  parse_command (str "SET session:42 value with spaces")
  = Parsed (SetKey (str "session:42") (str "value with spaces")).
Proof. vm_compute. reflexivity. Qed.

Example parse_extra :
  parse_command (str "GET a b") = ParseError (str "GET/DEL requires exactly one safe key").
Proof. vm_compute. reflexivity. Qed.


(** ** Trimming *)

Definition all_space (l : bytes) : Prop := forallb isspace l = true.
Definition head_ok (l : bytes) : Prop :=
  match l with [] => True | c :: _ => isspace c = false end.
Definition trimmed (l : bytes) : Prop := head_ok l /\ head_ok (rev l).

Lemma all_space_app l k : all_space (l ++ k) <-> all_space l /\ all_space k.
Proof. unfold all_space. rewrite forallb_app. apply andb_true_iff. Qed.

Lemma all_space_rev l : all_space l -> all_space (rev l).
Proof.
  unfold all_space. rewrite !forallb_forall. intros H c Hc. apply H. by apply in_rev.
Qed.

Lemma trim_front_app w l : all_space w -> trim_front (w ++ l) = trim_front l.
Proof.
  induction w as [|c w IH]; [done|]. unfold all_space. simpl.
  intros [-> Hw]%andb_true_iff. by apply IH.
Qed.

Lemma trim_front_id l : head_ok l -> trim_front l = l.
Proof. destruct l; simpl; [done|]. by intros ->. Qed.

Lemma trim_front_elim l :
  exists w, all_space w /\ l = w ++ trim_front l /\ head_ok (trim_front l).
Proof.
  induction l as [|c l (w & Hw & Hl & Hh)]; [by exists []|]. simpl.
  destruct (isspace c) eqn:Hc; [|by exists []].
  exists (c :: w). split; [|split].
  - unfold all_space. simpl. by rewrite Hc.
  - simpl. by f_equal.
  - done.
Qed.

Lemma trim_back_app l w : all_space w -> trim_back (l ++ w) = trim_back l.
Proof.
  intros Hw. unfold trim_back. rewrite rev_app_distr, trim_front_app; [done|].
  by apply all_space_rev.
Qed.

Lemma trim_back_id l : head_ok (rev l) -> trim_back l = l.
Proof. intros. unfold trim_back. by rewrite trim_front_id, rev_involutive. Qed.

Lemma trim_back_elim l :
  exists w, all_space w /\ l = trim_back l ++ w /\ head_ok (rev (trim_back l)).
Proof.
  destruct (trim_front_elim (rev l)) as (w & Hw & Hl & Hh). exists (rev w).
  unfold trim_back. rewrite rev_involutive, <- rev_app_distr, <- Hl, rev_involutive.
  eauto using all_space_rev.
Qed.

Lemma head_ok_app l k : head_ok l -> l <> [] -> head_ok (l ++ k).
Proof. by destruct l. Qed.

Lemma head_ok_prefix l k : head_ok (l ++ k) -> head_ok l.
Proof. by destruct l. Qed.

Lemma trim_intro w1 m w2 :
  all_space w1 -> all_space w2 -> trimmed m -> trim (w1 ++ m ++ w2) = m.
Proof.
  intros H1 H2 [Hf Hb]. unfold trim. rewrite trim_front_app by done.
  destruct m as [|c m].
  - simpl. rewrite <- (app_nil_r w2), trim_front_app by done. done.
  - rewrite (trim_front_id ((c :: m) ++ w2)) by done.
    by rewrite trim_back_app, trim_back_id.
Qed.

Lemma trim_elim l :
  exists w1 w2, all_space w1 /\ all_space w2 /\ trimmed (trim l) /\ l = w1 ++ trim l ++ w2.
Proof.
  destruct (trim_front_elim l) as (w1 & H1 & Hl & Hf).
  destruct (trim_back_elim (trim_front l)) as (w2 & H2 & Hl' & Hb).
  exists w1, w2. unfold trim, trimmed. rewrite <- Hl'. split; [done|]. split; [done|].
  split; [|done]. split; [|done]. rewrite Hl' in Hf. by eapply head_ok_prefix.
Qed.

Lemma trim_id l : trimmed l -> trim l = l.
Proof.
  intros Hl. pose proof (trim_intro [] l [] eq_refl eq_refl Hl) as H.
  by rewrite app_nil_r in H.
Qed.

Lemma trim_trimmed l : trimmed (trim l).
Proof. destruct (trim_elim l) as (w1 & w2 & _ & _ & H & _). done. Qed.

Lemma trim_app_space w1 l w2 :
  all_space w1 -> all_space w2 -> trim (w1 ++ l ++ w2) = trim l.
Proof.
  intros H1 H2. destruct (trim_elim l) as (v1 & v2 & Hv1 & Hv2 & Ht & Hl).
  rewrite Hl at 1. rewrite !app_assoc, <- (app_assoc _ v2), <- app_assoc.
  apply trim_intro; [by apply all_space_app|by apply all_space_app|done].
Qed.

Lemma trim_space w : all_space w -> trim w = [].
Proof. intros Hw. pose proof (trim_intro w [] [] Hw eq_refl) as H.
  rewrite !app_nil_r in H. by apply H.
Qed.

Lemma trim_nil_space l : trim l = [] -> all_space l.
Proof.
  intros H. destruct (trim_elim l) as (w1 & w2 & H1 & H2 & _ & ->).
  rewrite H. by apply all_space_app.
Qed.

#[export] Hint Resolve trim_trimmed : netforge.

(** ** Splitting off the first word *)

Definition no_separator (l : bytes) : Prop := forallb (fun c => negb (is_separator c)) l = true.

Lemma separator_space c : is_separator c = true -> isspace c = true.
Proof.
  unfold is_separator, isspace. intros H.
  apply orb_true_iff in H as [[[H|H]%orb_true_iff|H]%orb_true_iff|H];
    apply Z.eqb_eq in H; rewrite H; done.
Qed.

Lemma find_first_of_app l c k :
  no_separator l -> is_separator c = true ->
  find_first_of is_separator (l ++ c :: k) = Some (length l).
Proof.
  unfold no_separator. induction l as [|x l IH]; simpl; [by intros _ ->|].
  intros [->%negb_true_iff Hl]%andb_true_iff Hc. by rewrite IH.
Qed.

Lemma find_first_of_none l : no_separator l -> find_first_of is_separator l = None.
Proof.
  unfold no_separator. induction l as [|x l IH]; simpl; [done|].
  intros [->%negb_true_iff Hl]%andb_true_iff. by rewrite IH.
Qed.

Lemma find_first_of_elim l :
  match find_first_of is_separator l with
  | None => no_separator l
  | Some n => exists c k, l = take n l ++ c :: k /\ drop (n + 1) l = k
                          /\ is_separator c = true /\ no_separator (take n l)
  end.
Proof.
  unfold no_separator. induction l as [|x l IH]; simpl; [done|].
  destruct (is_separator x) eqn:Hx; [by exists x, l|].
  destruct (find_first_of is_separator l) as [n|]; simpl; [|done].
  destruct IH as (c & k & Hl & Hd & Hc & Hn). exists c, k.
  rewrite Hx, Hn. split; [by f_equal|done].
Qed.

(** A word without separators, whose ends are not blank. *)
Definition word (a : bytes) : Prop := a <> [] /\ no_separator a /\ trimmed a.

Lemma split_once_alone w1 a w2 :
  all_space w1 -> all_space w2 -> word a -> split_once (w1 ++ a ++ w2) = (a, []).
Proof.
  intros H1 H2 (_ & Hn & Ht). unfold split_once. rewrite trim_intro by done.
  by rewrite find_first_of_none.
Qed.

Lemma split_once_word w1 a c rest :
  all_space w1 -> word a -> is_separator c = true ->
  split_once (w1 ++ a ++ c :: rest) = (a, trim rest).
Proof.
  intros H1 Ha Hc. destruct (trim_elim rest) as (v1 & v2 & Hv1 & Hv2 & Ht & Hr).
  destruct (trim rest) as [|x m] eqn:Em.
  { apply split_once_alone; [done| |done]. unfold all_space. simpl.
    rewrite separator_space by done. rewrite Hr. by apply all_space_app. }
  destruct Ha as (Hne & Hn & Hf & Hb). unfold split_once.
  assert (Htrim : trim (w1 ++ a ++ c :: rest) = a ++ c :: v1 ++ x :: m).
  { rewrite Hr. replace (w1 ++ a ++ c :: v1 ++ (x :: m) ++ v2)
      with (w1 ++ (a ++ c :: v1 ++ x :: m) ++ v2).
    - apply trim_intro; [done|done|]. split; [by apply head_ok_app|].
      rewrite rev_app_distr. simpl. rewrite rev_app_distr. simpl.
      destruct Ht as [_ Ht]. simpl in Ht. rewrite <- !app_assoc.
      rewrite app_assoc. apply head_ok_app; [done|]. by destruct (rev m).
    - by rewrite <- !app_assoc; simpl; rewrite <- app_assoc. }
  rewrite Htrim, find_first_of_app by done. f_equal.
  - by rewrite take_app_length.
  - replace (drop (length a + 1) (a ++ c :: v1 ++ x :: m)) with (v1 ++ (x :: m) ++ []).
    + by apply trim_intro.
    + by rewrite drop_app_add, app_nil_r.
Qed.

Lemma split_once_elim t a b :
  split_once t = (a, b) ->
  exists w1, all_space w1 /\ no_separator a /\
    ((b = [] /\ exists w2, all_space w2 /\ t = w1 ++ a ++ w2)
     \/ (exists c rest, is_separator c = true /\ b = trim rest /\ t = w1 ++ a ++ c :: rest)).
Proof.
  unfold split_once. destruct (trim_elim t) as (w1 & w2 & H1 & H2 & _ & Ht).
  pose proof (find_first_of_elim (trim t)) as Hf.
  destruct (find_first_of is_separator (trim t)) as [n|]; intros [= <- <-].
  - destruct Hf as (c & k & Hl & Hd & Hc & Hn). exists w1. split; [done|]. split; [done|].
    right. exists c, (k ++ w2). split; [done|]. split.
    + rewrite Hd. symmetry. by apply (trim_app_space [] k w2).
    + rewrite Ht at 1. rewrite Hl at 1. by rewrite <- !app_assoc.
  - exists w1. split; [done|]. split; [done|]. left. eauto.
Qed.

(** ** Keys *)

Lemma key_char_plain c :
  key_char c = true -> isspace c = false /\ is_separator c = false /\ is_nul c = false.
Proof.
  unfold key_char, beq, isalnum, isdigit, isupper, islower, isspace, is_separator, is_nul.
  change (b2z "_") with 95. change (b2z "-") with 45.
  change (b2z ".") with 46. change (b2z ":") with 58. intros H.
  repeat (apply orb_true_iff in H as [H|H]); reflect_bools;
    repeat split; repeat (apply orb_false_iff; split);
    try apply andb_false_iff; rewrite ?Z.leb_gt, ?Z.eqb_neq; lia.
Qed.

Lemma valid_key_iff key :
  valid_key key = true <-> 1 <= len key <= 128 /\ forallb key_char key = true.
Proof.
  unfold valid_key. pose proof (len_nonneg key). split.
  - case_if; [done|]. reflect_bools. intros ->. lia.
  - intros [Hl ->]. rewrite Z.gtb_ltb, (proj2 (Z.eqb_neq _ _)), (proj2 (Z.ltb_ge _ _)) by lia.
    done.
Qed.

Lemma valid_key_chars key c : valid_key key = true -> c ∈ key -> key_char c = true.
Proof.
  intros [_ H]%valid_key_iff Hc. rewrite forallb_forall in H. apply H.
  by apply list_elem_of_In.
Qed.

Lemma head_ok_chars l : (forall c, c ∈ l -> isspace c = false) -> head_ok l.
Proof. destruct l; simpl; [done|]. intros H. apply H. left. Qed.

Lemma valid_key_word key : valid_key key = true -> word key.
Proof.
  intros Hk. pose proof (valid_key_chars key) as Hc.
  assert (Hs : forall c, c ∈ key -> isspace c = false).
  { intros c Hin. by apply key_char_plain, Hc. }
  split; [|split; [|split]].
  - apply valid_key_iff in Hk as [Hl _]. intros ->. rewrite len_nil in Hl. lia.
  - unfold no_separator. apply forallb_forall. intros c Hin%list_elem_of_In.
    destruct (key_char_plain c) as (_ & -> & _); auto.
  - by apply head_ok_chars.
  - apply head_ok_chars. intros c Hin. apply Hs.
    apply list_elem_of_In. apply in_rev. by apply list_elem_of_In.
Qed.

Definition no_nul (l : bytes) : Prop := existsb is_nul l = false.

Lemma no_nul_app l k : no_nul (l ++ k) <-> no_nul l /\ no_nul k.
Proof. unfold no_nul. rewrite existsb_app. apply orb_false_iff. Qed.

Lemma no_nul_cons c l : no_nul (c :: l) <-> is_nul c = false /\ no_nul l.
Proof. apply orb_false_iff. Qed.

Lemma no_nul_forall l : (forall c, c ∈ l -> is_nul c = false) -> no_nul l.
Proof.
  unfold no_nul. induction l as [|x l IH]; [done|]. intros H. simpl.
  rewrite H by left. apply IH. intros c Hc. apply H. by right.
Qed.

Lemma space_no_nul c : isspace c = true -> is_nul c = false.
Proof.
  unfold isspace, is_nul. intros [H|H]%orb_true_iff; reflect_bools; apply Z.eqb_neq; lia.
Qed.

Lemma all_space_no_nul w : all_space w -> no_nul w.
Proof.
  unfold all_space. rewrite forallb_forall. intros H. apply no_nul_forall.
  intros c Hc%list_elem_of_In. by apply space_no_nul, H.
Qed.

Lemma valid_key_no_nul key : valid_key key = true -> no_nul key.
Proof.
  intros Hk. apply no_nul_forall. intros c Hc.
  by apply key_char_plain, (valid_key_chars key).
Qed.

#[export] Hint Resolve valid_key_word valid_key_no_nul all_space_no_nul : netforge.

(** ** The language of commands *)

(** Text that means a command: blanks around it, a separator after the verb and
    after the key of SET, and a value that neither starts nor ends with a
    blank. *)
Inductive denotes : bytes -> Command -> Prop :=
| D_Ping w1 w2 : all_space w1 -> all_space w2 -> denotes (w1 ++ str "PING" ++ w2) Ping
| D_Stats w1 w2 : all_space w1 -> all_space w2 -> denotes (w1 ++ str "STATS" ++ w2) Stats
| D_Get w1 c w2 key w3 :
    all_space w1 -> is_separator c = true -> all_space w2 -> valid_key key = true ->
    all_space w3 -> denotes (w1 ++ str "GET" ++ c :: w2 ++ key ++ w3) (Get key)
| D_Del w1 c w2 key w3 :
    all_space w1 -> is_separator c = true -> all_space w2 -> valid_key key = true ->
    all_space w3 -> denotes (w1 ++ str "DEL" ++ c :: w2 ++ key ++ w3) (Del key)
| D_Set w1 c w2 key c' w3 value w4 :
    all_space w1 -> is_separator c = true -> all_space w2 -> valid_key key = true ->
    is_separator c' = true -> all_space w3 -> value <> [] -> trimmed value ->
    no_nul value -> all_space w4 ->
    denotes (w1 ++ str "SET" ++ c :: w2 ++ key ++ c' :: w3 ++ value ++ w4)
      (SetKey key value).

Lemma word_str s :
  (bool_decide (str s <> []) && forallb (fun c => negb (is_separator c)) (str s)
   && match str s with [] => true | c :: _ => negb (isspace c) end
   && match rev (str s) with [] => true | c :: _ => negb (isspace c) end) = true ->
  word (str s).
Proof.
  intros [[[?%bool_decide_eq_true Hn]%andb_true_iff Hf]%andb_true_iff Hb]%andb_true_iff.
  split; [done|]. split; [done|]. split; unfold head_ok.
  - destruct (str s); [done|]. by apply negb_true_iff.
  - destruct (rev (str s)); [done|]. by apply negb_true_iff.
Qed.

(** The dispatch of [parse_command] on the verb and its arguments. *)
Definition dispatch (verb arguments : bytes) : ParseResult :=
  if bytes_eqb verb (str "PING") && is_empty arguments then Parsed Ping
  else if bytes_eqb verb (str "STATS") && is_empty arguments then Parsed Stats
  else if bytes_eqb verb (str "GET") || bytes_eqb verb (str "DEL") then
    let (key, extra) := split_once arguments in
    if negb (valid_key key) || negb (is_empty extra)
    then ParseError (str "GET/DEL requires exactly one safe key")
    else if bytes_eqb verb (str "GET") then Parsed (Get key)
    else Parsed (Del key)
  else if bytes_eqb verb (str "SET") then
    let (key, value) := split_once arguments in
    if negb (valid_key key) || is_empty value
    then ParseError (str "SET requires a safe key and a non-empty value")
    else Parsed (SetKey key value)
  else ParseError (str "unknown or malformed command").

Lemma parse_command_dispatch payload verb arguments :
  no_nul payload -> split_once payload = (verb, arguments) ->
  parse_command payload = dispatch verb arguments.
Proof. unfold no_nul, parse_command. by intros -> ->. Qed.

Lemma dispatch_key verb arguments :
  dispatch (str "GET") arguments =
    (let (key, extra) := split_once arguments in
     if negb (valid_key key) || negb (is_empty extra)
     then ParseError (str "GET/DEL requires exactly one safe key") else Parsed (Get key))
  /\ dispatch (str "DEL") arguments =
    (let (key, extra) := split_once arguments in
     if negb (valid_key key) || negb (is_empty extra)
     then ParseError (str "GET/DEL requires exactly one safe key") else Parsed (Del key))
  /\ dispatch (str "SET") arguments =
    (let (key, value) := split_once arguments in
     if negb (valid_key key) || is_empty value
     then ParseError (str "SET requires a safe key and a non-empty value")
     else Parsed (SetKey key value))
  /\ (dispatch verb arguments =
        if bytes_eqb verb (str "PING") && is_empty arguments then Parsed Ping
        else if bytes_eqb verb (str "STATS") && is_empty arguments then Parsed Stats
        else if bytes_eqb verb (str "GET") then dispatch (str "GET") arguments
        else if bytes_eqb verb (str "DEL") then dispatch (str "DEL") arguments
        else if bytes_eqb verb (str "SET") then dispatch (str "SET") arguments
        else ParseError (str "unknown or malformed command")).
Proof.
  split; [done|]. split; [done|]. split; [done|].
  unfold dispatch at 1. unfold bytes_eqb.
  destruct (bool_decide (verb = str "PING") && is_empty arguments); [done|].
  destruct (bool_decide (verb = str "STATS") && is_empty arguments); [done|].
  destruct (bool_decide_reflect (verb = str "GET")) as [->|]; [done|].
  by destruct (bool_decide_reflect (verb = str "DEL")) as [->|].
Qed.

Lemma denotes_no_nul t c : denotes t c -> no_nul t.
Proof.
  destruct 1; rewrite ?no_nul_app, ?no_nul_cons, ?no_nul_app, ?no_nul_cons, ?no_nul_app;
    repeat split; eauto using space_no_nul, separator_space with netforge.
Qed.

Lemma split_once_key w1 key w2 :
  all_space w1 -> all_space w2 -> valid_key key = true ->
  split_once (trim (w1 ++ key ++ w2)) = (key, []).
Proof.
  intros H1 H2 Hk. pose proof (valid_key_word _ Hk) as Hw.
  rewrite trim_intro by (try done; apply Hw).
  rewrite <- (app_nil_r key) at 1. by apply (split_once_alone [] key []).
Qed.

Lemma split_once_key_value w1 key c w2 value w3 :
  all_space w1 -> valid_key key = true -> is_separator c = true -> all_space w2 ->
  trimmed value -> value <> [] -> all_space w3 ->
  split_once (trim (w1 ++ key ++ c :: w2 ++ value ++ w3)) = (key, value).
Proof.
  intros H1 Hk Hc H2 Hv Hne H3. pose proof (valid_key_word _ Hk) as Hw.
  assert (Ht : trim (w1 ++ key ++ c :: w2 ++ value ++ w3) = key ++ c :: w2 ++ value).
  { replace (w1 ++ key ++ c :: w2 ++ value ++ w3)
      with (w1 ++ (key ++ c :: w2 ++ value) ++ w3)
      by (rewrite <- !app_assoc; simpl; by rewrite <- app_assoc).
    apply trim_intro; [done|done|]. split.
    - apply head_ok_app; apply Hw.
    - rewrite rev_app_distr. simpl. rewrite rev_app_distr, <- !app_assoc.
      apply head_ok_app; [apply Hv|]. intros Hr. apply Hne.
      by rewrite <- (rev_involutive value), Hr. }
  rewrite Ht. etransitivity; [by apply (split_once_word [] key c (w2 ++ value))|].
  f_equal. rewrite <- (app_nil_r value) at 1. by apply trim_intro.
Qed.

Lemma denotes_parse t c : denotes t c -> parse_command t = Parsed c.
Proof.
  intros Hd. pose proof (denotes_no_nul _ _ Hd) as Hn. destruct Hd as
    [w1 w2 H1 H2|w1 w2 H1 H2|w1 c w2 key w3 H1 Hc H2 Hk H3|w1 c w2 key w3 H1 Hc H2 Hk H3
    |w1 c w2 key c' w3 value w4 H1 Hc H2 Hk Hc' H3 Hne Ht Hnv H4].
  - erewrite parse_command_dispatch by (try done; by apply split_once_alone, word_str). done.
  - erewrite parse_command_dispatch by (try done; by apply split_once_alone, word_str). done.
  - erewrite parse_command_dispatch by (try done; by apply split_once_word; [|apply word_str|]).
    rewrite (proj1 (dispatch_key [] _)), split_once_key by done. by rewrite Hk.
  - erewrite parse_command_dispatch by (try done; by apply split_once_word; [|apply word_str|]).
    rewrite (proj1 (proj2 (dispatch_key [] _))), split_once_key by done. by rewrite Hk.
  - erewrite parse_command_dispatch by (try done; by apply split_once_word; [|apply word_str|]).
    rewrite (proj1 (proj2 (proj2 (dispatch_key [] _)))), split_once_key_value by done.
    by rewrite Hk, is_empty_not.
Qed.

Lemma trim_rest_elim rest m :
  trim rest = m -> exists w1 w2, all_space w1 /\ all_space w2 /\ rest = w1 ++ m ++ w2.
Proof.
  intros <-. destruct (trim_elim rest) as (w1 & w2 & H1 & H2 & _ & H). eauto.
Qed.

(** The text behind an accepted GET or DEL. *)
Lemma args_key_elim rest key :
  split_once (trim rest) = (key, []) -> 
  exists w1 w2, all_space w1 /\ all_space w2 /\ rest = w1 ++ key ++ w2.
Proof.
  intros (w & Hw & _ & H)%split_once_elim.
  destruct (trim_elim rest) as (v1 & v2 & Hv1 & Hv2 & _ & Hr).
  destruct H as [(_ & w2 & Hw2 & Ht)|(c & r & Hc & Hr' & Ht)]; rewrite Ht in Hr.
  - exists (v1 ++ w), (w2 ++ v2). rewrite Hr, <- !app_assoc.
    split; [by apply all_space_app|]. split; [by apply all_space_app|done].
  - exists (v1 ++ w), (c :: r ++ v2). rewrite Hr, <- !app_assoc. simpl.
    split; [by apply all_space_app|]. split; [|done].
    unfold all_space. simpl. rewrite separator_space by done. simpl.
    apply all_space_app. split; [|done]. by apply trim_nil_space.
Qed.

(** The text behind an accepted SET. *)
Lemma args_key_value_elim rest key value :
  split_once (trim rest) = (key, value) -> value <> [] ->
  exists w1 c w2 w3, all_space w1 /\ is_separator c = true /\ all_space w2 /\ all_space w3
    /\ trimmed value /\ rest = w1 ++ key ++ c :: w2 ++ value ++ w3.
Proof.
  intros (w & Hw & _ & H)%split_once_elim Hne.
  destruct (trim_elim rest) as (v1 & v2 & Hv1 & Hv2 & _ & Hr).
  destruct H as [(? & _)|(c & r & Hc & -> & Ht)]; [done|]. rewrite Ht in Hr.
  destruct (trim_elim r) as (x1 & x2 & Hx1 & Hx2 & Htr & Hr').
  exists (v1 ++ w), c, x1, (x2 ++ v2). split; [by apply all_space_app|]. split; [done|].
  split; [done|]. split; [by apply all_space_app|]. split; [done|].
  rewrite Hr, Hr' at 1. rewrite <- !app_assoc. simpl. by rewrite <- !app_assoc.
Qed.

Lemma split_once_nil_args verb t :
  split_once t = (verb, []) ->
  exists w1 w2, all_space w1 /\ all_space w2 /\ t = w1 ++ verb ++ w2.
Proof.
  intros (w & Hw & _ & [(_ & w2 & Hw2 & ->)|(c & r & Hc & Hr & ->)])%split_once_elim; [eauto|].
  exists w, (c :: r). split; [done|]. split; [|done]. unfold all_space. simpl.
  rewrite separator_space by done. by apply trim_nil_space.
Qed.

Lemma no_nul_value w1 key c w2 value w3 :
  no_nul (w1 ++ key ++ c :: w2 ++ value ++ w3) -> no_nul value.
Proof. rewrite !no_nul_app, no_nul_cons, !no_nul_app. tauto. Qed.

(** The arguments of GET, DEL and SET come after a separator. *)
Lemma split_once_some_args t verb arguments :
  split_once t = (verb, arguments) -> (fst (split_once arguments) <> []) ->
  exists w c rest, all_space w /\ is_separator c = true /\ arguments = trim rest
                   /\ t = w ++ verb ++ c :: rest.
Proof.
  intros (w & Hw & _ & [(-> & _)|(c & r & Hc & -> & ->)])%split_once_elim Hne.
  - by destruct Hne.
  - by exists w, c, r.
Qed.

Lemma parse_denotes t c : parse_command t = Parsed c -> denotes t c.
Proof.
  intros Hp. destruct (existsb is_nul t) eqn:Hn.
  { unfold parse_command in Hp. by rewrite Hn in Hp. }
  destruct (split_once t) as [verb arguments] eqn:Hs.
  rewrite (parse_command_dispatch t verb arguments Hn Hs) in Hp.
  destruct (dispatch_key verb arguments) as (Eg & Ed & Es & E). rewrite E, Eg, Ed, Es in Hp.
  unfold bytes_eqb in Hp. clear E Eg Ed Es.
  destruct (bool_decide_reflect (verb = str "PING")) as [->|_]; cbn [andb] in Hp.
  { destruct (is_empty arguments) eqn:Ha; [|done]. injection Hp as <-.
    apply is_empty_iff in Ha as ->.
    apply split_once_nil_args in Hs as (w1 & w2 & H1 & H2 & ->). by constructor. }
  destruct (bool_decide_reflect (verb = str "STATS")) as [->|_]; cbn [andb] in Hp.
  { destruct (is_empty arguments) eqn:Ha; [|done]. injection Hp as <-.
    apply is_empty_iff in Ha as ->.
    apply split_once_nil_args in Hs as (w1 & w2 & H1 & H2 & ->). by constructor. }
  destruct (split_once arguments) as [key extra] eqn:Ha.
  assert (Hkne : valid_key key = true -> fst (split_once arguments) <> []).
  { rewrite Ha. intros Hk. by apply valid_key_word. }
  destruct (valid_key key) eqn:Hk; [|repeat case_bool_decide; done].
  destruct (split_once_some_args _ _ _ Hs (Hkne eq_refl)) as (w & s & rest & Hw & Hc & -> & ->).
  destruct (bool_decide_reflect (verb = str "GET")) as [->|_];
    [|destruct (bool_decide_reflect (verb = str "DEL")) as [->|_]].
  1,2: destruct (is_empty extra) eqn:He; [|done]; injection Hp as <-;
    apply is_empty_iff in He as ->;
    apply args_key_elim in Ha as (w1 & w2 & H1 & H2 & ->); by constructor.
  destruct (bool_decide_reflect (verb = str "SET")) as [->|_]; [|done].
  destruct (is_empty extra) eqn:He; [done|]. injection Hp as <-.
  assert (Hne : extra <> []) by (intros ->; done).
  apply args_key_value_elim in Ha as (w1 & s' & w2 & w3 & H1 & Hs' & H2 & H3 & Ht & ->); [|done].
  constructor; try done. by eapply (no_nul_value (w ++ str "SET" ++ s :: w1) key s' w2 extra w3);
    rewrite <- !app_assoc.
Qed.

(** ** Well-formed commands *)

(** What the parser promises about the commands it returns. *)
Definition wf_command (c : Command) : Prop :=
  match c with
  | Ping | Stats => True
  | Get key | Del key => valid_key key = true
  | SetKey key value =>
      valid_key key = true /\ value <> [] /\ trimmed value /\ no_nul value
  end.

Lemma parse_wf t c : parse_command t = Parsed c -> wf_command c.
Proof. intros Hd%parse_denotes. by destruct Hd. Qed.

(** The canonical text of a mutation, as the log writes it. *)
Definition set_text (key value : bytes) : bytes := str "SET " ++ key ++ str " " ++ value.
Definition del_text (key : bytes) : bytes := str "DEL " ++ key.

Lemma parse_set_text key value :
  wf_command (SetKey key value) ->
  parse_command (set_text key value) = Parsed (SetKey key value).
Proof.
  intros (Hk & Hne & Ht & Hn). apply denotes_parse.
  pose proof (D_Set [] " " [] key " " [] value [] eq_refl eq_refl eq_refl Hk
                eq_refl eq_refl Hne Ht Hn eq_refl) as Hd.
  by rewrite app_nil_r in Hd.
Qed.

Lemma parse_del_text key :
  wf_command (Del key) -> parse_command (del_text key) = Parsed (Del key).
Proof.
  intros Hk. apply denotes_parse.
  pose proof (D_Del [] " " [] key [] eq_refl eq_refl eq_refl Hk eq_refl) as Hd.
  by rewrite app_nil_r in Hd.
Qed.

(** A request is never shorter than the canonical text of what it asks for. *)
Lemma set_text_shorter t key value :
  parse_command t = Parsed (SetKey key value) -> len (set_text key value) <= len t.
Proof.
  intros Hd%parse_denotes. inversion Hd; subst. unfold set_text. len_lia.
Qed.

Lemma del_text_shorter t key :
  parse_command t = Parsed (Del key) -> len (del_text key) <= len t.
Proof. intros Hd%parse_denotes. inversion Hd; subst. unfold del_text. len_lia. Qed.

(** The diagnostics of the parser. *)
Lemma parse_error_message t message :
  parse_command t = ParseError message ->
  message ∈ [str "NUL bytes are not valid command text";
             str "GET/DEL requires exactly one safe key";
             str "SET requires a safe key and a non-empty value";
             str "unknown or malformed command"].
Proof.
  unfold parse_command.
  repeat first
    [ case_match; try discriminate
    | intros [= <-]; rewrite ?elem_of_cons; tauto ].
Qed.

(** ** Properties *)

(** C18: the parser decides the command language.  A text is accepted as a
    command exactly when it is that command's verb between blanks, followed,
    where the command has arguments, by a separator, a safe key of 1 to 128
    characters and, for SET, another separator and a non-empty value without
    NUL bytes that neither starts nor ends with a blank. *)
Theorem parse_command_decides t c : parse_command t = Parsed c <-> denotes t c.
Proof. split; [apply parse_denotes|apply denotes_parse]. Qed.
