(* ===== verification/Store.v ===== *)
(** * The in-memory store ([capstone/reference/src/store.cpp])

    [KvStore] is a hash map behind a readers-writer lock.  Each operation takes
    the lock for its whole body, so it is one atomic step on the map. *)

From stdpp Require Import base gmap.
From Stdlib Require Import Strings.Byte ZArith.
From S2P Require Import Prelude.

Record KvStore := mkStore { values_ : gmap bytes bytes }.

Definition empty_store : KvStore := mkStore ∅.

(** [values_.insert_or_assign(key, value)]. *)
Definition set (store : KvStore) (key value : bytes) : KvStore :=
  mkStore (<[key := value]> (values_ store)).

Definition get (store : KvStore) (key : bytes) : option bytes :=
  match values_ store !! key with
  | None => None
  | Some second => Some second
  end.

(** [values_.erase(key) != 0]: whether the key was there, and the map without it. *)
Definition erase (store : KvStore) (key : bytes) : bool * KvStore :=
  match values_ store !! key with
  | None => (false, store)
  | Some _ => (true, mkStore (delete key (values_ store)))
  end.

Definition size (store : KvStore) : Z := Z.of_nat (base.size (values_ store)).

(** ** Mutations and their effect *)

Inductive mutation :=
| MSet (key value : bytes)
| MDel (key : bytes).

Definition apply_mutation (m : mutation) (store : KvStore) : KvStore :=
  match m with
  | MSet key value => set store key value
  | MDel key => snd (erase store key)
  end.

(** The store after a sequence of mutations. *)
Definition replay (ms : list mutation) (store : KvStore) : KvStore :=
  fold_left (fun s m => apply_mutation m s) ms store.

Lemma replay_app ms ns store : replay (ms ++ ns) store = replay ns (replay ms store).
Proof. apply fold_left_app. Qed.

Lemma replay_cons m ms store : replay (m :: ms) store = replay ms (apply_mutation m store).
Proof. done. Qed.

Lemma get_lookup store key : get store key = values_ store !! key.
Proof. unfold get. by destruct (values_ store !! key). Qed.

Lemma erase_values store key : values_ (snd (erase store key)) = delete key (values_ store).
Proof.
  unfold erase. destruct (values_ store !! key) eqn:E; [done|].
  simpl. by rewrite delete_id.
Qed.

Lemma get_apply m store key :
  get (apply_mutation m store) key =
  match m with
  | MSet k v => if decide (k = key) then Some v else get store key
  | MDel k => if decide (k = key) then None else get store key
  end.
Proof.
  destruct m as [k v|k]; rewrite !get_lookup; cbn [apply_mutation].
  - simpl. by rewrite lookup_insert.
  - rewrite erase_values. by rewrite lookup_delete.
Qed.

(** The last mutation of a key decides what a reader sees. *)
Definition mutation_key (m : mutation) : bytes :=
  match m with MSet key _ | MDel key => key end.
Definition mutation_value (m : mutation) : option bytes :=
  match m with MSet _ value => Some value | MDel _ => None end.

Fixpoint last_write (key : bytes) (ms : list mutation) : option (option bytes) :=
  match ms with
  | [] => None
  | m :: ms =>
      match last_write key ms with
      | Some v => Some v
      | None => if decide (mutation_key m = key) then Some (mutation_value m) else None
      end
  end.

Lemma get_replay ms store key :
  get (replay ms store) key =
  match last_write key ms with Some v => v | None => get store key end.
Proof.
  revert store. induction ms as [|m ms IH]; intros store; [done|].
  rewrite replay_cons, IH. simpl. destruct (last_write key ms); [done|].
  rewrite get_apply. destruct m; simpl; by case_decide.
Qed.
