(* ===== verification/DurableLog.v ===== *)
(** * What a durable log promises its client

    [Server::execute] appends a mutation to the log before it applies it to the
    store.  [DurableLog] states what it relies on, so the server's theorems are
    proved against this interface; [Wal.v] provides the instance. *)

From stdpp Require Import base list strings.
From Stdlib Require Import Strings.Byte ZArith Lia.
From S2P Require Import Prelude Protocol Commands Store.

(** ** Records *)

Definition record_text (m : mutation) : bytes :=
  match m with
  | MSet key value => set_text key value
  | MDel key => del_text key
  end.

Definition command_of (m : mutation) : Command :=
  match m with
  | MSet key value => SetKey key value
  | MDel key => Del key
  end.

(** A mutation whose record fits the frames that recovery accepts. *)
Definition wf_mutation (m : mutation) : Prop :=
  wf_command (command_of m) /\ len (record_text m) <= kDefaultMaxPayload.

(** The mutation a command asks for. *)
Definition mutation_of (c : Command) : option mutation :=
  match c with
  | SetKey key value => Some (MSet key value)
  | Del key => Some (MDel key)
  | Ping | Stats | Get _ => None
  end.

Lemma command_of_mutation c m : mutation_of c = Some m -> command_of m = c.
Proof. by destruct c; intros [= <-]. Qed.

(** A request that fits a frame asks for a record that fits a frame: the
    canonical text is never longer than the request. *)
Lemma request_mutation_wf t c m :
  parse_command t = Parsed c -> len t <= kDefaultMaxPayload -> mutation_of c = Some m ->
  wf_mutation m.
Proof.
  intros Hp Hl Hm. split.
  - rewrite (command_of_mutation _ _ Hm). by eapply parse_wf.
  - destruct c as [| | |key|key value]; try discriminate; injection Hm as <-.
    + apply del_text_shorter in Hp. simpl. lia.
    + apply set_text_shorter in Hp. simpl. lia.
Qed.

(** ** The interface *)

(** [L] is the state of the log and [E] what its system calls will do. *)
Class DurableLog (L E : Type) := {
  log_append_set : bytes -> bytes -> L -> E -> outcome (bool * L * E);
  log_append_del : bytes -> L -> E -> outcome (bool * L * E);

  (** The log holds the acknowledged records; after a failed append it is closed
      and may hold a part of the failed record. *)
  log_holds : L -> list mutation -> option mutation -> Prop;

  log_append (m : mutation) (l : L) (e : E) : outcome (bool * L * E) :=
    match m with
    | MSet key value => log_append_set key value l e
    | MDel key => log_append_del key l e
    end;

  log_append_ok : forall m l e l' e' acked,
    log_holds l acked None -> wf_mutation m ->
    log_append m l e = Done (true, l', e') -> log_holds l' (acked ++ [m]) None;

  log_append_failed : forall m l e l' e' acked,
    log_holds l acked None -> wf_mutation m ->
    log_append m l e = Done (false, l', e') -> log_holds l' acked (Some m);

  log_append_latched : forall m0 m l e acked,
    log_holds l acked (Some m0) -> log_append m l e = Done (false, l, e);

  log_append_returns : forall m l e,
    wf_mutation m ->
    match log_append m l e with Done _ | Blocked => True | _ => False end;
}.

#[global] Hint Mode DurableLog ! - : typeclass_instances.

(** ** Properties *)

(** The log's records read back as what was logged.  The text that
    [append_set] and [append_del] write for the mutation of any request the
    parser accepted is parsed back to the same command, and it is no longer
    than the request, so a request that fits a frame is logged in a frame that
    recovery accepts. *)
Theorem logged_text_roundtrip t c m :
  parse_command t = Parsed c -> mutation_of c = Some m ->
  parse_command (record_text m) = Parsed c /\ len (record_text m) <= len t.
Proof.
  intros Hp Hm. pose proof (parse_wf _ _ Hp) as Hwf.
  destruct c as [| | |key|key value]; try discriminate; injection Hm as <-; simpl.
  - split; [by apply parse_del_text|by apply del_text_shorter].
  - split; [by apply parse_set_text|by apply set_text_shorter].
Qed.

Lemma logged_text_roundtrip_witness :
  parse_command (record_text (MSet (str "k") (str "v w"))) = Parsed (SetKey (str "k") (str "v w"))
  /\ len (record_text (MSet (str "k") (str "v w"))) <= len (str "  SET   k   v w ").
Proof.
  apply (logged_text_roundtrip (str "  SET   k   v w ") (SetKey (str "k") (str "v w"))).
  - vm_compute. reflexivity.
  - reflexivity.
Defined.
