(* ===== verification/Wal.v ===== *)
(** * The write-ahead log ([capstone/reference/src/wal.cpp])

    [Wal] appends framed records to a file, syncs each one before it reports
    success, closes its descriptor for good after a failed append, and replays
    the file into a store on recovery, cutting off a torn tail.  The file is the
    bytes the kernel holds together with how many of them have been synced; the
    system calls are scripts ([Posix.v]). *)

From stdpp Require Import base gmap list strings.
From Stdlib Require Import Strings.Byte ZArith Lia.
From S2P Require Import Prelude ByteOrder Posix Protocol Commands Store DurableLog.

(** ** State *)

(** The log file: its contents, and the length of the prefix that is known to
    be on stable storage. *)
Record file := mkFile { f_data : bytes; f_synced : nat }.

Record Wal := mkWal {
  path_ : bytes;
  fd_ : Z;
  wal_file : file;
}.

(** What the system calls of an append and of a recovery will do. *)
Record append_env := mkAppendEnv {
  ae_writes : list write_event;
  ae_syncs : list call_event;
}.

Record recover_env := mkRecoverEnv {
  re_fd : Z;
  re_open_errno : Z;
  re_reads : list read_event;
  re_lseek : Z -> Z;
  re_truncates : list call_event;
  re_syncs : list call_event;
}.

(** ** Helpers of the source's anonymous namespace *)

Fixpoint write_file_all (script : list write_event) (left written : bytes)
  : outcome (bool * bytes * list write_event) :=
  match left with
  | [] => Done (true, written, script)
  | _ :: _ =>
      match script with
      | [] => Blocked
      | WTake n :: rest =>
          write_file_all rest (drop (Pos.to_nat n) left)
            (written ++ take (Pos.to_nat n) left)
      | WErr e :: rest =>
          if e =? EINTR then write_file_all rest left written
          else Done (false, written, rest)
      | WZero :: rest => Done (false, written, rest)
      end
  end.

Fixpoint sync_file (script : list call_event) : outcome (bool * list call_event) :=
  match script with
  | [] => Blocked
  | COk :: rest => Done (true, rest)
  | CErr e :: rest =>
      if negb (e =? EINTR) then Done (false, rest) else sync_file rest
  end.

(** [ftruncate] cuts the file, or extends it with NUL bytes. *)
Definition truncate_bytes (size : Z) (data : bytes) : bytes :=
  take (Z.to_nat size) data ++ replicate (Z.to_nat size - length data) x00.

Fixpoint repair_torn_tail (script : list call_event) (syncs : list call_event)
    (complete_size : Z) (f : file) : outcome (bool * file) :=
  match script with
  | [] => Blocked
  | CErr e :: rest =>
      if negb (e =? EINTR) then Done (false, f)
      else repair_torn_tail rest syncs complete_size f
  | COk :: _ =>
      let data := truncate_bytes complete_size (f_data f) in
      let* (synced, _) := sync_file syncs in
      Done (synced, mkFile data (if synced then length data
                                 else f_synced f `min` length data))
  end.

(** ** Operations *)

(** The constructor; [has_parent], [mkdir_error] and [opened] are what
    [parent_path], [create_directories] and [open] report. *)
Definition new_wal (path : bytes) (has_parent mkdir_error : bool) (opened : Z) (f : file)
  : Wal :=
  if is_empty path then mkWal path (-1) f
  else if has_parent && mkdir_error then mkWal path (-1) f
  else mkWal path opened f.

Definition enabled (wal : Wal) : bool := fd_ wal >=? 0.

Section Wal.
Context `{Host}.

Definition append_record (record : bytes) (wal : Wal) (env : append_env)
  : outcome (bool * Wal * append_env) :=
  if is_empty (path_ wal) then Done (true, wal, env)
  else if negb (enabled wal) then Done (false, wal, env)
  else
    let* frame := encode_frame record in
    let* (wrote, written, writes) := write_file_all (ae_writes env) frame [] in
    let data := f_data (wal_file wal) ++ written in
    if negb wrote then
      Done (false, mkWal (path_ wal) (-1) (mkFile data (f_synced (wal_file wal))),
            mkAppendEnv writes (ae_syncs env))
    else
      let* (synced, syncs) := sync_file (ae_syncs env) in
      if negb synced then
        Done (false, mkWal (path_ wal) (-1) (mkFile data (f_synced (wal_file wal))),
              mkAppendEnv writes syncs)
      else
        Done (true, mkWal (path_ wal) (fd_ wal) (mkFile data (length data)),
              mkAppendEnv writes syncs).

Definition append_set (key value : bytes) (wal : Wal) (env : append_env) :=
  append_record (str "SET " ++ key ++ str " " ++ value) wal env.

Definition append_del (key : bytes) (wal : Wal) (env : append_env) :=
  append_record (str "DEL " ++ key) wal env.

(** The [while (true)] of [recover]; [position] is the descriptor's offset,
    which [lseek(fd, 0, SEEK_CUR)] reports. *)
Fixpoint recover_loop (fuel : nat) (env : recover_env) (reads : list read_event)
    (position complete_size : Z) (store : KvStore) (f : file)
  : outcome (bool * KvStore * file) :=
  match fuel with
  | O => OutOfFuel
  | S fuel =>
      let* (header_result, header, reads) := read_exact 4 reads in
      if decide (io_status header_result = IoStatus.eof) then
        if io_bytes header_result =? 0 then Done (true, store, f)
        else
          let* (repaired, f) :=
            repair_torn_tail (re_truncates env) (re_syncs env) complete_size f in
          Done (repaired, store, f)
      else if decide (io_status header_result <> IoStatus.ok) then Done (false, store, f)
      else
        let network_length := load_u32 header in
        let length := ntohl network_length in
        if length >? kDefaultMaxPayload then Done (false, store, f)
        else
          let* (body_result, payload, reads) := read_exact length reads in
          if decide (io_status body_result = IoStatus.eof) then
            let* (repaired, f) :=
              repair_torn_tail (re_truncates env) (re_syncs env) complete_size f in
            Done (repaired, store, f)
          else if decide (io_status body_result <> IoStatus.ok) then Done (false, store, f)
          else
            let position := position + 4 + length in
            let continue store :=
              let current_size := re_lseek env position in
              if current_size <? 0 then Done (false, store, f)
              else recover_loop fuel env reads position current_size store f in
            match parse_command payload with
            | Parsed (SetKey key value) => continue (set store key value)
            | Parsed (Del key) => continue (snd (erase store key))
            | Parsed _ => Done (false, store, f)
            | ParseError _ => Done (false, store, f)
            end
  end.

(** Every turn of the loop that does not end it takes at least the four header
    bytes off the stream. *)
Definition recover (wal : Wal) (store : KvStore) (env : recover_env)
  : outcome (bool * KvStore * Wal) :=
  if is_empty (path_ wal) then Done (true, store, wal)
  else if re_fd env <? 0 then Done (re_open_errno env =? ENOENT, store, wal)
  else
    let fuel := S (length (fst (stream (re_reads env)))) in
    let* (recovered, store, f) :=
      recover_loop fuel env (re_reads env) 0 0 store (wal_file wal) in
    Done (recovered, store, mkWal (path_ wal) (fd_ wal) f).
End Wal.

(** ** Records and logs *)

Definition record_frame (m : mutation) : bytes := frame_of (record_text m).
Definition log_bytes (ms : list mutation) : bytes := concat (map record_frame ms).

Lemma log_bytes_app ms ns : log_bytes (ms ++ ns) = log_bytes ms ++ log_bytes ns.
Proof. unfold log_bytes. by rewrite map_app, concat_app. Qed.

Lemma log_bytes_cons m ms : log_bytes (m :: ms) = record_frame m ++ log_bytes ms.
Proof. done. Qed.

Lemma log_bytes_one m : log_bytes [m] = record_frame m.
Proof. unfold log_bytes. simpl. by rewrite app_nil_r. Qed.

Lemma parse_record m :
  wf_mutation m -> parse_command (record_text m) = Parsed (command_of m).
Proof.
  destruct m; intros [Hw _]; [by apply parse_set_text|by apply parse_del_text].
Qed.

Lemma wf_record_short m : wf_mutation m -> 0 <= len (record_text m) < 2 ^ 32.
Proof.
  intros [_ Hl]. unfold kDefaultMaxPayload in Hl. pose proof (len_nonneg (record_text m)). lia.
Qed.

(** ** System-call loops *)

Definition eventually_ok (script : list call_event) : Prop :=
  exists rest, sync_file script = Done (true, rest).

Lemma write_file_all_prefix script left written r :
  write_file_all script left written = Done r ->
  exists taken, snd (fst r) = written ++ taken /\ taken `prefix_of` left
                /\ (fst (fst r) = true -> taken = left).
Proof.
  revert left written. induction script as [|ev rest IH]; intros left written;
    destruct left as [|b left]; cbn [write_file_all].
  1,3: intros [= <-]; exists []; rewrite app_nil_r; eauto using prefix_nil.
  - discriminate.
  - destruct ev as [n| |e].
    + intros (taken & Hr & Hp & Hall)%IH.
      exists (take (Pos.to_nat n) (b :: left) ++ taken). rewrite Hr, <- app_assoc.
      split; [done|]. split.
      * rewrite <- (take_drop (Pos.to_nat n) (b :: left)) at 2. by apply prefix_app.
      * intros ->%Hall. by rewrite take_drop.
    + intros [= <-]. exists []. rewrite app_nil_r. simpl.
      split_and!; [done|apply prefix_nil|done].
    + case_if; [by apply IH|]. intros [= <-]. exists []. rewrite app_nil_r. simpl.
      split_and!; [done|apply prefix_nil|done].
Qed.

Lemma repair_ok truncates syncs complete_size f :
  eventually_ok truncates -> eventually_ok syncs ->
  exists data, data = truncate_bytes complete_size (f_data f)
  /\ repair_torn_tail truncates syncs complete_size f
     = Done (true, mkFile data (length data)).
Proof.
  intros [rest Ht] [rest' Hs]. eexists. split; [done|].
  induction truncates as [|[|e] ts IH]; simpl in *; [done| |].
  - by rewrite Hs.
  - destruct (negb (e =? EINTR)); [done|]. by apply IH.
Qed.

Lemma truncate_prefix (p tail : bytes) : truncate_bytes (len p) (p ++ tail) = p.
Proof.
  unfold truncate_bytes, len. rewrite Nat2Z.id, take_app_length, length_app.
  replace (length p - (length p + length tail))%nat with 0%nat by lia.
  apply app_nil_r.
Qed.

(** ** Recovery *)

(** [lseek] with [SEEK_CUR] and offset 0 reports the descriptor's offset. *)
Definition lseek_reports (env : recover_env) : Prop :=
  forall position, 0 <= position -> re_lseek env position = position.

(** One turn of the loop replays one whole record. *)
Lemma recover_one `{Host} env m reads tail fin position :
  wf_mutation m -> lseek_reports env -> 0 <= position ->
  stream reads = (record_frame m ++ tail, fin) ->
  exists reads', stream reads' = (tail, fin) /\
    forall fuel complete_size store f,
      recover_loop (S fuel) env reads position complete_size store f
      = recover_loop fuel env reads' (position + len (record_frame m))
          (position + len (record_frame m)) (apply_mutation m store) f.
Proof.
  intros Hm Hseek Hpos Hs. pose proof (wf_record_short m Hm) as Hlen.
  unfold record_frame, frame_of in Hs. rewrite <- app_assoc in Hs.
  destruct (read_exact_prefix _ _ _ _ Hs) as (r1 & Hr1 & Hs1).
  destruct (read_exact_prefix _ _ _ _ Hs1) as (r2 & Hr2 & Hs2).
  exists r2. split; [done|]. intros fuel complete_size store f. cbn [recover_loop].
  change (len (be32 _)) with 4 in Hr1. rewrite Hr1. cbn [obind io_status].
  rewrite decide_False, decide_False by congruence.
  rewrite ntohl_load, header_value by done.
  rewrite Z.gtb_ltb, (proj2 (Z.ltb_ge _ _)) by apply Hm.
  rewrite Hr2. cbn [obind io_status]. rewrite decide_False, decide_False by congruence.
  rewrite parse_record by done. unfold record_frame. rewrite len_frame_of, Z.add_assoc.
  rewrite Hseek, (proj2 (Z.ltb_ge _ _)) by lia.
  by destruct m.
Qed.

(** All whole records at the front of the file are replayed in order. *)
Lemma recover_many `{Host} env ms tail fin reads position :
  Forall wf_mutation ms -> lseek_reports env -> 0 <= position ->
  stream reads = (log_bytes ms ++ tail, fin) ->
  exists reads', stream reads' = (tail, fin) /\
    forall fuel store f,
      recover_loop (length ms + fuel) env reads position position store f
      = recover_loop fuel env reads' (position + len (log_bytes ms))
          (position + len (log_bytes ms)) (replay ms store) f.
Proof.
  intros Hms Hseek. revert reads position. induction Hms as [|m ms Hm Hms IH];
    intros reads position Hpos Hs.
  - exists reads. split; [done|]. intros. by rewrite Z.add_0_r.
  - rewrite log_bytes_cons, <- app_assoc in Hs.
    destruct (recover_one _ _ _ _ _ position Hm Hseek Hpos Hs) as (r1 & Hs1 & H1).
    pose proof (len_nonneg (record_frame m)).
    destruct (IH r1 (position + len (record_frame m))) as (r2 & Hs2 & H2); [lia|done|].
    exists r2. split; [done|]. intros fuel store f.
    rewrite log_bytes_cons, len_app, Z.add_assoc. simpl length. simpl Nat.add.
    by rewrite H1, H2.
Qed.

(** The end of the file: nothing left, or a torn record. *)
Lemma recover_end `{Host} env reads position store f fuel :
  stream reads = ([], SEof) ->
  recover_loop (S fuel) env reads position position store f = Done (true, store, f).
Proof.
  intros Hs. cbn [recover_loop].
  destruct (read_exact_eof _ _ 4 Hs) as (rest & ->); [done|]. done.
Qed.

(** A proper, non-empty prefix of a record's frame. *)
Definition torn (tail : bytes) (m : mutation) : Prop :=
  tail <> [] /\ exists missing, missing <> [] /\ record_frame m = tail ++ missing.

Lemma recover_torn `{Host} env m tail reads position store f fuel :
  wf_mutation m -> torn tail m -> stream reads = (tail, SEof) ->
  eventually_ok (re_truncates env) -> eventually_ok (re_syncs env) ->
  exists data, data = truncate_bytes position (f_data f)
  /\ recover_loop (S fuel) env reads position position store f
     = Done (true, store, mkFile data (length data)).
Proof.
  intros Hm (Hne & missing & Hmiss & Hf) Hs Ht Hy.
  destruct (repair_ok _ _ position f Ht Hy) as (data & Hdata & Hrepair).
  exists data. split; [done|]. cbn [recover_loop].
  pose proof (wf_record_short m Hm) as Hlen.
  assert (Htl : 0 < len tail).
  { pose proof (len_nonneg tail). destruct (decide (len tail = 0)) as [E|]; [|lia].
    by apply len_zero in E. }
  assert (Hml : 0 < len missing).
  { pose proof (len_nonneg missing). destruct (decide (len missing = 0)) as [E|]; [|lia].
    by apply len_zero in E. }
  assert (Hsum : len tail + len missing = 4 + len (record_text m)).
  { rewrite <- len_app, <- Hf. unfold record_frame. apply len_frame_of. }
  destruct (Z.lt_ge_cases (len tail) 4) as [Hshort|Hlong].
  - destruct (read_exact_eof _ _ 4 Hs Hshort) as (rest & ->). cbn [obind io_status io_bytes].
    rewrite decide_True by done. rewrite (proj2 (Z.eqb_neq _ _)) by lia. by rewrite Hrepair.
  - unfold record_frame, frame_of in Hf.
    assert (Htail : tail = be32 (len (record_text m)) ++ drop 4 tail).
    { rewrite <- (take_drop 4 tail) at 1. f_equal.
      apply (f_equal (take 4)) in Hf. rewrite (take_app_le tail) in Hf by (unfold len in *; lia).
      done. }
    rewrite Htail in Hs. destruct (read_exact_prefix _ _ _ _ Hs) as (r1 & Hr1 & Hs1).
    change (len (be32 _)) with 4 in Hr1. rewrite Hr1. cbn [obind io_status].
    rewrite decide_False, decide_False by congruence.
    rewrite ntohl_load, header_value by done.
    rewrite Z.gtb_ltb, (proj2 (Z.ltb_ge _ _)) by apply Hm.
    destruct (read_exact_eof _ _ (len (record_text m)) Hs1) as (r2 & ->); [len_lia|].
    cbn [obind io_status]. rewrite decide_True by done. by rewrite Hrepair.
Qed.

(** A recovery whose system calls work: the file opens, its bytes are read in
    any pieces and with any interruptions up to the end of the file, and the
    repair calls succeed once they are not interrupted. *)
Record healthy (env : recover_env) (f : file) : Prop := {
  healthy_open : 0 <= re_fd env;
  healthy_reads : stream (re_reads env) = (f_data f, SEof);
  healthy_lseek : lseek_reports env;
  healthy_truncate : eventually_ok (re_truncates env);
  healthy_sync : eventually_ok (re_syncs env);
}.

(** What may follow the whole records of a log file. *)
Definition log_tail (tail : bytes) : Prop :=
  tail = [] \/ exists m, wf_mutation m /\ torn tail m.

Lemma log_bytes_length ms : (length ms <= length (log_bytes ms))%nat.
Proof.
  induction ms as [|m ms IH]; [done|]. rewrite log_bytes_cons, length_app.
  unfold record_frame, frame_of. rewrite length_app, be32_length. simpl. lia.
Qed.

Lemma recover_log `{Host} wal store env ms tail :
  path_ wal <> [] -> Forall wf_mutation ms -> log_tail tail ->
  f_data (wal_file wal) = log_bytes ms ++ tail -> healthy env (wal_file wal) ->
  exists f, recover wal store env
            = Done (true, replay ms store, mkWal (path_ wal) (fd_ wal) f)
            /\ f_data f = log_bytes ms
            /\ (f = wal_file wal \/ f_synced f = length (f_data f)).
Proof.
  intros Hp Hms Htail Hdata [Hopen Hreads Hseek Htr Hsy]. unfold recover.
  rewrite is_empty_not, (proj2 (Z.ltb_ge _ _)) by done.
  rewrite Hreads. cbn [fst]. rewrite Hdata in Hreads.
  destruct (recover_many env ms tail SEof _ 0 Hms Hseek ltac:(lia) Hreads) as (r & Hr & Hloop).
  assert (Hfuel : exists k, S (length (f_data (wal_file wal))) = (length ms + S k)%nat).
  { exists (length (f_data (wal_file wal)) - length ms)%nat.
    pose proof (log_bytes_length ms). rewrite Hdata, length_app. lia. }
  destruct Hfuel as [k ->]. rewrite Hloop, Z.add_0_l.
  destruct Htail as [->|(m & Hm & Htorn)].
  - rewrite recover_end by done. exists (wal_file wal). rewrite Hdata, app_nil_r. eauto.
  - destruct (recover_torn env m tail r (len (log_bytes ms)) (replay ms store) (wal_file wal)
      k Hm Htorn Hr Htr Hsy) as (data & -> & ->).
    rewrite Hdata, truncate_prefix. eexists. split; [reflexivity|]. simpl. eauto.
Qed.

(** ** Crashes *)

(** Any prefix of a log is whole records and at most one torn one. *)
Lemma log_prefix_split ms p :
  p `prefix_of` log_bytes ms ->
  exists n tail, (n <= length ms)%nat /\ p = log_bytes (take n ms) ++ tail
    /\ (tail = [] \/ exists m, ms !! n = Some m /\ torn tail m).
Proof.
  revert p. induction ms as [|m ms IH]; intros p Hp.
  - apply prefix_nil_inv in Hp as ->. exists 0%nat, []. split; [done|]. by eauto.
  - rewrite log_bytes_cons in Hp.
    destruct (Nat.le_gt_cases (length (record_frame m)) (length p)) as [Hle|Hgt].
    + destruct Hp as [k Hk].
      assert (Hpm : p = record_frame m ++ drop (length (record_frame m)) p).
      { rewrite <- (take_drop (length (record_frame m)) p) at 1. f_equal.
        apply (f_equal (take (length (record_frame m)))) in Hk.
        rewrite take_app_length, (take_app_le p) in Hk by done. done. }
      destruct (IH (drop (length (record_frame m)) p)) as (n & tail & Hn & Hd & Ht).
      { exists k. rewrite Hpm, <- app_assoc in Hk. by apply app_inv_head in Hk. }
      exists (S n), tail. split; [simpl; lia|]. split; [|done].
      cbn [take]. rewrite log_bytes_cons, <- app_assoc, <- Hd. exact Hpm.
    + exists 0%nat, p. split; [lia|]. split; [done|].
      destruct p as [|b p]; [by left|]. right. exists m. split; [done|]. split; [done|].
      exists (drop (length (b :: p)) (record_frame m)).
      destruct Hp as [k Hk].
      assert (Hpre : b :: p = take (length (b :: p)) (record_frame m)).
      { apply (f_equal (take (length (b :: p)))) in Hk.
        rewrite take_app_length, (take_app_le (record_frame m)) in Hk by lia. done. }
      split.
      * intros Hd. apply len_drop_nil in Hd. unfold len in Hd. lia.
      * rewrite Hpre at 1. by rewrite take_drop.
Qed.

(** ** Appending *)

Definition append_mutation `{Host} (m : mutation) (wal : Wal) (env : append_env)
  : outcome (bool * Wal * append_env) :=
  match m with
  | MSet key value => append_set key value wal env
  | MDel key => append_del key wal env
  end.

Lemma append_mutation_record `{Host} m wal env :
  append_mutation m wal env = append_record (record_text m) wal env.
Proof. by destruct m. Qed.

(** What the log guarantees: [acked] are the records it reported as appended, in
    order; [failed] is the record whose append failed, after which the log is
    closed. *)
Definition log_inv (wal : Wal) (acked : list mutation) (failed : option mutation) : Prop :=
  if is_empty (path_ wal) then failed = None
  else
    Forall wf_mutation acked /\ f_synced (wal_file wal) = length (log_bytes acked)
    /\ match failed with
       | None => enabled wal = true /\ f_data (wal_file wal) = log_bytes acked
       | Some m =>
           enabled wal = false /\ wf_mutation m
           /\ exists taken, taken `prefix_of` record_frame m
                            /\ f_data (wal_file wal) = log_bytes acked ++ taken
       end.

(** An append that returns on an open log either made the record durable or
    left part of it behind and closed the log. *)
Lemma append_open `{Host} m wal env b wal' env' :
  is_empty (path_ wal) = false -> enabled wal = true -> wf_mutation m ->
  append_mutation m wal env = Done (b, wal', env') ->
  path_ wal' = path_ wal /\
  if b then
    fd_ wal' = fd_ wal
    /\ f_data (wal_file wal') = f_data (wal_file wal) ++ record_frame m
    /\ f_synced (wal_file wal') = length (f_data (wal_file wal'))
  else
    fd_ wal' = -1 /\ f_synced (wal_file wal') = f_synced (wal_file wal)
    /\ exists taken, taken `prefix_of` record_frame m
                     /\ f_data (wal_file wal') = f_data (wal_file wal) ++ taken.
Proof.
  intros Hp He Hm. rewrite append_mutation_record. unfold append_record.
  rewrite Hp, He. cbn [negb].
  rewrite encode_frame_be by (destruct (wf_record_short m Hm); unfold u32_max; lia).
  cbn [obind]. fold (record_frame m).
  destruct (write_file_all (ae_writes env) (record_frame m) []) as
    [[[wrote written] writes]| | | |] eqn:Hw; try done.
  apply write_file_all_prefix in Hw as (taken & Ht & Hpre & Hall). simpl in Ht, Hall. subst.
  cbn [obind]. destruct wrote; cbn [negb].
  - rewrite (Hall eq_refl). clear Hall Hpre.
    destruct (sync_file (ae_syncs env)) as [[[|] syncs]| | | |]; try done;
      cbn [obind negb]; intros [= <- <- <-]; simpl; eauto 10.
  - intros [= <- <- <-]. simpl. eauto 10.
Qed.

Lemma append_ok `{Host} m wal env wal' env' acked :
  log_inv wal acked None -> wf_mutation m ->
  append_mutation m wal env = Done (true, wal', env') -> log_inv wal' (acked ++ [m]) None.
Proof.
  unfold log_inv. intros Hinv Hm Ha. destruct (is_empty (path_ wal)) eqn:Hp.
  - rewrite append_mutation_record in Ha. unfold append_record in Ha.
    rewrite Hp in Ha. injection Ha as <- <-. by rewrite Hp.
  - destruct Hinv as (Hacked & Hsync & He & Hdata).
    apply append_open in Ha as (Hpath & Hfd & Hd & Hs); [|done..].
    rewrite Hpath, Hp, log_bytes_app, log_bytes_one.
    rewrite Hd, Hdata in Hs. unfold enabled. rewrite Hfd, Hd, Hdata.
    split; [by apply Forall_app; auto|]. by rewrite Hs.
Qed.

Lemma append_failed `{Host} m wal env wal' env' acked :
  log_inv wal acked None -> wf_mutation m ->
  append_mutation m wal env = Done (false, wal', env') -> log_inv wal' acked (Some m).
Proof.
  unfold log_inv. intros Hinv Hm Ha. destruct (is_empty (path_ wal)) eqn:Hp.
  - rewrite append_mutation_record in Ha. unfold append_record in Ha. by rewrite Hp in Ha.
  - destruct Hinv as (Hacked & Hsync & He & Hdata).
    apply append_open in Ha as (Hpath & Hfd & Hs & taken & Ht & Hd); [|done..].
    rewrite Hpath, Hp. unfold enabled. rewrite Hfd, Hd, Hdata, Hs. eauto 10.
Qed.

(** After a failed append nothing is ever written again. *)
Lemma append_latched `{Host} m0 m wal env acked :
  log_inv wal acked (Some m0) -> append_mutation m wal env = Done (false, wal, env).
Proof.
  unfold log_inv. rewrite append_mutation_record. unfold append_record.
  destruct (is_empty (path_ wal)); [done|]. by intros (_ & _ & -> & _).
Qed.

Lemma write_file_all_returns script left written :
  match write_file_all script left written with Done _ | Blocked => True | _ => False end.
Proof.
  revert left written. induction script as [|[n| |e] rest IH]; intros [|b left] written;
    cbn [write_file_all]; try done; [by apply IH|]. case_if; [by apply IH|done].
Qed.

Lemma sync_file_returns script :
  match sync_file script with Done _ | Blocked => True | _ => False end.
Proof. induction script as [|[|e] rest IH]; simpl; try done. by case_if. Qed.

(** An append raises no exception and has no undefined behaviour: it returns, or
    waits in a system call. *)
Lemma append_returns `{Host} m wal env :
  wf_mutation m ->
  match append_mutation m wal env with Done _ | Blocked => True | _ => False end.
Proof.
  intros Hm. rewrite append_mutation_record. unfold append_record.
  destruct (is_empty (path_ wal)); [done|]. destruct (negb (enabled wal)); [done|].
  rewrite encode_frame_be by (destruct (wf_record_short m Hm); unfold u32_max; lia).
  cbn [obind]. pose proof (write_file_all_returns (ae_writes env) (frame_of (record_text m)) []).
  destruct (write_file_all _ _ _) as [[[wrote written] writes]| | | |]; try done.
  cbn [obind]. destruct (negb wrote); [done|]. pose proof (sync_file_returns (ae_syncs env)).
  destruct (sync_file (ae_syncs env)) as [[[|] syncs]| | | |]; done.
Qed.

(** ** Crash and restart *)

(** A crash keeps the synced prefix and any part of what follows it; what it
    keeps is on stable storage. *)
Definition crash (f f' : file) : Prop :=
  exists k, (f_synced f <= k)%nat
            /\ f' = mkFile (take k (f_data f)) (length (take k (f_data f))).

Lemma crash_contents wal acked failed f :
  is_empty (path_ wal) = false -> log_inv wal acked failed -> crash (wal_file wal) f ->
  exists extra tail, (extra = [] \/ exists m, failed = Some m /\ extra = [m])
    /\ Forall wf_mutation (acked ++ extra) /\ log_tail tail
    /\ f_data f = log_bytes (acked ++ extra) ++ tail.
Proof.
  unfold log_inv. intros -> (Hacked & Hsync & Hinv) (k & Hk & ->). cbn [f_data].
  destruct failed as [m|].
  - destruct Hinv as (_ & Hm & taken & Htaken & ->).
    rewrite take_app_ge by lia. rewrite Hsync in Hk.
    assert (Hp : take (k - length (log_bytes acked)) taken `prefix_of` log_bytes [m]).
    { rewrite log_bytes_one. etransitivity; [apply prefix_take|done]. }
    apply log_prefix_split in Hp as (n & tail & Hn & -> & Htail).
    exists (take n [m]), tail. rewrite log_bytes_app, app_assoc.
    split; [destruct n; simpl; [by left|right]; rewrite take_nil; eauto|].
    split; [apply Forall_app; split; [done|]; by apply Forall_take, Forall_singleton|].
    split; [|done]. destruct Htail as [->|(m' & Hm' & Htorn)]; [by left|right].
    apply list_elem_of_lookup_2, list_elem_of_singleton in Hm' as ->. eauto.
  - destruct Hinv as (_ & ->). exists [], []. rewrite !app_nil_r.
    rewrite take_ge by lia. split; [by left|]. split; [done|]. split; [by left|done].
Qed.

(** A sequence of appends, and the records it reported as appended. *)
Fixpoint append_all `{Host} (ms : list mutation) (wal : Wal) (env : append_env)
  : outcome (list mutation * Wal * append_env) :=
  match ms with
  | [] => Done ([], wal, env)
  | m :: ms =>
      let* (ok, wal, env) := append_mutation m wal env in
      let* (acked, wal, env) := append_all ms wal env in
      Done (if ok then m :: acked else acked, wal, env)
  end.

Lemma append_all_latched `{Host} m0 ms wal env acked :
  log_inv wal acked (Some m0) -> append_all ms wal env = Done ([], wal, env).
Proof.
  intros Hinv. induction ms as [|m ms IH]; [done|]. simpl.
  rewrite (append_latched _ _ _ _ _ Hinv). cbn [obind]. by rewrite IH.
Qed.

Lemma append_all_inv `{Host} ms wal env acked0 acked wal' env' :
  log_inv wal acked0 None -> Forall wf_mutation ms ->
  append_all ms wal env = Done (acked, wal', env') ->
  acked = take (length acked) ms /\ log_inv wal' (acked0 ++ acked) (ms !! length acked).
Proof.
  intros Hinv Hms. revert wal env acked0 acked Hinv.
  induction Hms as [|m ms Hm Hms IH]; intros wal env acked0 acked Hinv; simpl.
  - intros [= <- <- <-]. by rewrite app_nil_r.
  - intros Ha. apply obind_Done_inv in Ha as ([[[|] wal1] env1] & Hm1 & Ha).
    + apply obind_Done_inv in Ha as ([[acked1 wal2] env2] & Hms1 & [= <- <- <-]).
      apply (append_ok _ _ _ _ _ acked0) in Hm1; [|done..].
      destruct (IH _ _ _ _ Hm1 Hms1) as [Htake Hinv2]. simpl.
      rewrite <- app_assoc in Hinv2. split; [by f_equal|done].
    + apply obind_Done_inv in Ha as ([[acked1 wal2] env2] & Hms1 & [= <- <- <-]).
      apply (append_failed _ _ _ _ _ acked0) in Hm1; [|done..].
      rewrite (append_all_latched m ms _ _ acked0) in Hms1 by done.
      injection Hms1 as <- <- <-. by rewrite app_nil_r.
Qed.

Lemma append_path `{Host} m wal env r :
  append_mutation m wal env = Done r -> path_ (snd (fst r)) = path_ wal.
Proof.
  rewrite append_mutation_record. unfold append_record.
  destruct (is_empty (path_ wal)); [by intros [= <-]|].
  destruct (negb (enabled wal)); [by intros [= <-]|].
  intros (frame & _ & Ha)%obind_Done_inv.
  apply obind_Done_inv in Ha as ([[[|] written] writes] & _ & Ha); simpl in Ha;
    [|by injection Ha as <-].
  by apply obind_Done_inv in Ha as ([[|] syncs] & _ & [= <-]).
Qed.

Lemma append_all_path `{Host} ms wal env r :
  append_all ms wal env = Done r -> path_ (snd (fst r)) = path_ wal.
Proof.
  revert wal env r. induction ms as [|m ms IH]; intros wal env r; simpl; [by intros [= <-]|].
  intros ([[b wal1] env1] & Hm & Ha)%obind_Done_inv.
  apply obind_Done_inv in Ha as ([[acked wal2] env2] & Hms & [= <-]).
  apply append_path in Hm. apply IH in Hms. simpl in *. congruence.
Qed.

Lemma path_not_empty wal : path_ wal <> [] -> is_empty (path_ wal) = false.
Proof. apply is_empty_not. Qed.

(** The log keeps the promises of [DurableLog]. *)
#[global] Program Instance wal_durable_log `{Host} : DurableLog Wal append_env := {
  log_append_set := append_set;
  log_append_del := append_del;
  log_holds := log_inv;
}.
Next Obligation. intros ? m l e l' e' acked Hl Hm Ha. by eapply append_ok. Qed.
Next Obligation. intros ? m l e l' e' acked Hl Hm Ha. by eapply append_failed. Qed.
Next Obligation. intros ? m0 m l e acked Hl. by eapply append_latched. Qed.
Next Obligation. intros ? m l e Hm. by apply append_returns. Qed.

(** ** Properties *)

(** C17: recovery from a log cut at any byte.  If the file holds any prefix of
    the bytes of a sequence of well-formed records (the state a crash in the
    middle of writing leaves behind), recovery succeeds, replays exactly the
    records that are completely there, in order, and leaves exactly those
    records in the file. *)
Theorem recover_any_prefix `{Host} wal store env ms :
  path_ wal <> [] -> Forall wf_mutation ms ->
  f_data (wal_file wal) `prefix_of` log_bytes ms -> healthy env (wal_file wal) ->
  exists n f,
    recover wal store env
      = Done (true, replay (take n ms) store, mkWal (path_ wal) (fd_ wal) f)
    /\ f_data f = log_bytes (take n ms)
    /\ f_data f `prefix_of` f_data (wal_file wal)
    /\ forall m, ms !! n = Some m ->
         (length (f_data (wal_file wal)) < length (f_data f) + length (record_frame m))%nat.
Proof.
  intros Hp Hms Hpre Hh. apply log_prefix_split in Hpre as (n & tail & Hn & Hd & Htail).
  destruct (recover_log wal store env (take n ms) tail) as (f & Hr & Hf & _);
    [done|by apply Forall_take| |done|done|].
  { destruct Htail as [->|(m & Hm & Ht)]; [by left|right]. exists m. split; [|done].
    by eapply Forall_lookup_1. }
  exists n, f. split; [done|]. split; [done|]. rewrite Hd, Hf. split; [by eexists|].
  intros m Hm. rewrite length_app. destruct Htail as [->|(m' & Hm' & _ & miss & Hmiss & E)].
  - unfold record_frame, frame_of. rewrite length_app, be32_length. simpl. lia.
  - assert (m' = m) as -> by congruence. rewrite E, length_app.
    destruct miss; [done|]. simpl. lia.
Qed.


(** A failed append is final.  When an append on an open log reports
    failure, every later append of any sequence of records reports failure
    without touching the file, so nothing is ever written behind a torn record. *)
Theorem failed_append_is_final `{Host} m wal env wal' env' acked ms :
  path_ wal <> [] -> log_inv wal acked None -> wf_mutation m ->
  append_mutation m wal env = Done (false, wal', env') ->
  enabled wal' = false /\ append_all ms wal' env' = Done ([], wal', env').
Proof.
  intros Hp Hinv Hm Ha. pose proof (append_path _ _ _ _ Ha) as Hpath. simpl in Hpath.
  apply (append_failed _ _ _ _ _ acked) in Ha; [|done..].
  split; [|by eapply append_all_latched].
  unfold log_inv in Ha. rewrite Hpath, path_not_empty in Ha by done. by destruct Ha as (_ & _ & ? & _).
Qed.

(** ** Witnesses *)

Ltac wf_concrete :=
  split; [repeat split; try reflexivity; discriminate|vm_compute; discriminate].

Definition ex_ms : list mutation := [MSet (str "a") (str "1 2"); MDel (str "b"); MSet (str "c") (str "x")].

Lemma ex_ms_wf : Forall wf_mutation ex_ms.
Proof. repeat (apply Forall_cons_2; [wf_concrete|]). by apply Forall_nil_2. Qed.

(** The log cut in the middle of its second record. *)
Definition ex_cut : file := mkFile (take 20 (log_bytes ex_ms)) 0.
Definition ex_recover_env (f : file) : recover_env :=
  mkRecoverEnv 5 0
    (RErr EINTR :: unread (take 3 (f_data f)) (unread (drop 3 (f_data f)) [REof]))
    (fun position => position) [CErr EINTR; COk] [COk].

Lemma recover_any_prefix_witness :
  exists n f,
    @recover little (mkWal (str "log") 3 ex_cut) empty_store (ex_recover_env ex_cut)
      = Done (true, replay (take n ex_ms) empty_store, mkWal (str "log") 3 f)
    /\ f_data f = log_bytes (take n ex_ms)
    /\ f_data f `prefix_of` f_data ex_cut
    /\ forall m, ex_ms !! n = Some m ->
         (length (f_data ex_cut) < length (f_data f) + length (record_frame m))%nat.
Proof.
  apply (@recover_any_prefix little (mkWal (str "log") 3 ex_cut) empty_store
           (ex_recover_env ex_cut) ex_ms).
  - discriminate.
  - apply ex_ms_wf.
  - apply prefix_take.
  - split; try (by eexists); try done.
Defined.

(** The second append is cut after 7 bytes by a full disk. *)
Definition ex_wal : Wal := mkWal (str "log") 3 (mkFile [] 0).
Definition ex_append_env : append_env :=
  mkAppendEnv [WTake 5; WErr EINTR; WTake 100; WTake 7; WErr 28] [CErr EINTR; COk].
Definition ex_after : Wal :=
  mkWal (str "log") (-1)
    (mkFile (log_bytes (take 1 ex_ms) ++ take 7 (record_frame (MDel (str "b")))) 13).
Definition ex_crashed : file :=
  mkFile (take 16 (f_data (wal_file ex_after))) (length (take 16 (f_data (wal_file ex_after)))).


Lemma failed_append_is_final_witness :
  enabled (mkWal (str "log") (-1) (mkFile (take 2 (record_frame (MDel (str "b")))) 0)) = false
  /\ @append_all little ex_ms (mkWal (str "log") (-1) (mkFile (take 2 (record_frame (MDel (str "b")))) 0))
       (mkAppendEnv [WTake 9] [])
     = Done ([], mkWal (str "log") (-1) (mkFile (take 2 (record_frame (MDel (str "b")))) 0),
             mkAppendEnv [WTake 9] []).
Proof.
  apply (@failed_append_is_final little (MDel (str "b")) ex_wal
           (mkAppendEnv [WTake 2; WZero; WTake 9] []) _ _ []).
  - discriminate.
  - repeat split; constructor.
  - wf_concrete.
  - vm_compute. reflexivity.
Defined.
