(* ===== verification/Server.v ===== *)
(** * The server ([capstone/reference/src/server.cpp])

    Request execution ([execute]) and the per-connection session
    ([handle_client]).  The log behind the server is any [DurableLog];
    construction is in [Startup.v], the accept loop in [AcceptLoop.v]. *)

From stdpp Require Import base gmap list strings.
From Stdlib Require Import Strings.Byte ZArith Lia.
From S2P Require Import Prelude ByteOrder Posix Numeric Protocol Commands Store DurableLog.

(** ** State *)

Record ServerOptions := mkOptions {
  bind_address : bytes;
  opt_port : Z;
  workers : Z;
  queue_capacity : Z;
  max_payload : Z;
  wal_path : bytes;
}.

Definition default_options : ServerOptions :=
  mkOptions (str "127.0.0.1") 0 4 64 (64 * 1024) [].

(** The members of [Server]; the counters are those of [pool_]. *)
Record Server (L : Type) := mkServer {
  options_ : ServerOptions;
  listener_ : Z;
  bound_port_ : Z;
  error_ : bytes;
  store_ : KvStore;
  wal_ : L;
  submitted_ : Z;
  completed_ : Z;
}.

Arguments mkServer {L}.
Arguments options_ {L}.
Arguments listener_ {L}.
Arguments bound_port_ {L}.
Arguments error_ {L}.
Arguments store_ {L}.
Arguments wal_ {L}.
Arguments submitted_ {L}.
Arguments completed_ {L}.

Definition ready {L} (s : Server L) : bool := listener_ s >=? 0.

Definition with_store_wal {L} (s : Server L) (store : KvStore) (wal : L) : Server L :=
  mkServer (options_ s) (listener_ s) (bound_port_ s) (error_ s) store wal
    (submitted_ s) (completed_ s).

Definition with_error {L} (s : Server L) (error : bytes) : Server L :=
  mkServer (options_ s) (listener_ s) (bound_port_ s) error (store_ s) (wal_ s)
    (submitted_ s) (completed_ s).

Definition with_listener {L} (s : Server L) (fd port : Z) : Server L :=
  mkServer (options_ s) fd port (error_ s) (store_ s) (wal_ s)
    (submitted_ s) (completed_ s).

(** A client connection: what its reads and writes will do, and the bytes sent
    to it. *)
Record conn := mkConn {
  rx : list read_event;
  tx : list write_event;
  sent : bytes;
}.

Section Server.
Context `{Host} {L E : Type} `{DurableLog L E}.

(** ** Requests *)

(** The visitor of [execute].  [Del] and [Set] hold [mutation_mutex_] around
    the append and the store update. *)
Definition visit (command : Command) (s : Server L) (e : E)
  : outcome (bytes * Server L * E) :=
  match command with
  | Ping => Done (str "PONG", s, e)
  | Stats =>
      Done (str "keys=" ++ show_unsigned (size (store_ s))
            ++ str " submitted=" ++ show_unsigned (submitted_ s)
            ++ str " completed=" ++ show_unsigned (completed_ s), s, e)
  | Get key =>
      let value := get (store_ s) key in
      Done (match value with Some v => str "VALUE " ++ v | None => str "NOT_FOUND" end, s, e)
  | Del key =>
      let* (appended, wal, e) := log_append_del key (wal_ s) e in
      if negb appended
      then Done (str "ERR WAL failure", with_store_wal s (store_ s) wal, e)
      else
        let (erased, store) := erase (store_ s) key in
        Done (if erased then str "DELETED" else str "NOT_FOUND",
              with_store_wal s store wal, e)
  | SetKey key value =>
      let* (appended, wal, e) := log_append_set key value (wal_ s) e in
      if negb appended
      then Done (str "ERR WAL failure", with_store_wal s (store_ s) wal, e)
      else
        let store := set (store_ s) key value in
        Done (str "OK", with_store_wal s store wal, e)
  end.

Definition execute (request_text : bytes) (s : Server L) (e : E)
  : outcome (bytes * Server L * E) :=
  match parse_command request_text with
  | ParseError message => Done (str "ERR " ++ message, s, e)
  | Parsed command => visit command s e
  end.

(** ** Sessions *)

(** [handle_client]; [loads] is how many times the loop's test reads
    [stop_requested_] as false before it reads true. *)
Fixpoint handle_client (loads : nat) (s : Server L) (e : E) (client : conn)
  : outcome (Server L * E * conn) :=
  match loads with
  | O => Done (s, e, client)
  | S loads =>
      let* (frame, rx) := recv_frame (max_payload (options_ s)) (rx client) in
      if decide (fr_status frame <> IoStatus.ok) then
        if decide (fr_status frame = IoStatus.too_large) then
          let* (_, out, tx) := send_frame (str "ERR frame too large") (tx client) in
          Done (s, e, mkConn rx tx (sent client ++ out))
        else Done (s, e, mkConn rx (tx client) (sent client))
      else
        let* (response, s, e) := execute (fr_payload frame) s e in
        let* (result, out, tx) := send_frame response (tx client) in
        let client := mkConn rx tx (sent client ++ out) in
        if decide (io_status result <> IoStatus.ok) then Done (s, e, client)
        else handle_client loads s e client
  end.
End Server.

(** ** The abstract service *)

(** A key-value map, the acknowledged mutations that produced it, and the
    mutation whose append closed the log, if any. *)
Record service := mkService {
  sv_map : gmap bytes bytes;
  sv_log : list mutation;
  sv_failed : option mutation;
}.

(** [serves sv t response sv']: the answers the service may give to request
    text [t], and the state each leaves. *)
Inductive serves (sv : service) (t : bytes) : bytes -> service -> Prop :=
| Sv_malformed message :
    (forall c, ~ denotes t c) -> serves sv t (str "ERR " ++ message) sv
| Sv_ping : denotes t Ping -> serves sv t (str "PONG") sv
| Sv_stats counters :
    denotes t Stats ->
    serves sv t (str "keys=" ++ show_unsigned (Z.of_nat (base.size (sv_map sv)))
                 ++ str " submitted=" ++ counters) sv
| Sv_found key value :
    denotes t (Get key) -> sv_map sv !! key = Some value ->
    serves sv t (str "VALUE " ++ value) sv
| Sv_not_found key :
    denotes t (Get key) -> sv_map sv !! key = None -> serves sv t (str "NOT_FOUND") sv
| Sv_set key value :
    denotes t (SetKey key value) -> sv_failed sv = None ->
    serves sv t (str "OK")
      (mkService (<[key := value]> (sv_map sv)) (sv_log sv ++ [MSet key value]) None)
| Sv_deleted key value :
    denotes t (Del key) -> sv_failed sv = None -> sv_map sv !! key = Some value ->
    serves sv t (str "DELETED")
      (mkService (delete key (sv_map sv)) (sv_log sv ++ [MDel key]) None)
| Sv_delete_nothing key :
    denotes t (Del key) -> sv_failed sv = None -> sv_map sv !! key = None ->
    serves sv t (str "NOT_FOUND") (mkService (sv_map sv) (sv_log sv ++ [MDel key]) None)
| Sv_log_failure c m :
    denotes t c -> mutation_of c = Some m -> sv_failed sv = None ->
    serves sv t (str "ERR WAL failure") (mkService (sv_map sv) (sv_log sv) (Some m))
| Sv_log_closed c m m0 :
    denotes t c -> mutation_of c = Some m -> sv_failed sv = Some m0 ->
    serves sv t (str "ERR WAL failure") sv.

Section Refinement.
Context `{Host} {L E : Type} `{DurableLog L E}.

(** The server implements the service: the log holds the acknowledged
    mutations and the store is what they produce. *)
Definition represents (s : Server L) (sv : service) : Prop :=
  log_holds (wal_ s) (sv_log sv) (sv_failed sv)
  /\ store_ s = replay (sv_log sv) empty_store
  /\ values_ (store_ s) = sv_map sv.

Lemma erase_fst store key :
  fst (erase store key) = bool_decide (is_Some (values_ store !! key)).
Proof.
  unfold erase. by destruct (values_ store !! key).
Qed.

(** A mutation through the log, as [visit] performs it. *)
Definition mutate (m : mutation) (ok_response : bytes) (s : Server L) (e : E)
  : outcome (bytes * Server L * E) :=
  let* (appended, wal, e) := log_append m (wal_ s) e in
  if negb appended
  then Done (str "ERR WAL failure", with_store_wal s (store_ s) wal, e)
  else Done (ok_response, with_store_wal s (apply_mutation m (store_ s)) wal, e).

Lemma visit_set key value s e :
  visit (SetKey key value) s e = mutate (MSet key value) (str "OK") s e.
Proof. done. Qed.

Lemma visit_del key s e :
  visit (Del key) s e
  = mutate (MDel key) (if fst (erase (store_ s) key) then str "DELETED"
                       else str "NOT_FOUND") s e.
Proof.
  unfold visit, mutate. cbn [log_append apply_mutation].
  destruct (log_append_del key (wal_ s) e) as [[[[|] wal] e']| | | |]; try done.
  simpl. by destruct (erase (store_ s) key).
Qed.

Lemma mutate_spec m ok_response s e response s' e' sv :
  represents s sv -> wf_mutation m ->
  mutate m ok_response s e = Done (response, s', e') ->
  (response = ok_response /\ sv_failed sv = None
   /\ represents s' (mkService (values_ (apply_mutation m (store_ s))) (sv_log sv ++ [m]) None))
  \/ (response = str "ERR WAL failure" /\ sv_failed sv = None
      /\ represents s' (mkService (sv_map sv) (sv_log sv) (Some m)))
  \/ (response = str "ERR WAL failure" /\ is_Some (sv_failed sv) /\ represents s' sv).
Proof.
  intros (Hlog & Hstore & Hmap) Hm.
  unfold mutate. intros ([[appended wal] e1] & Ha & Hr)%obind_Done_inv.
  destruct (sv_failed sv) as [m0|] eqn:Hf.
  - rewrite (log_append_latched m0 m _ _ _ Hlog) in Ha. injection Ha as <- <- <-.
    injection Hr as <- <- <-. right. right. split; [done|]. split; [done|].
    unfold represents. by rewrite Hf.
  - destruct appended; injection Hr as <- <- <-.
    + left. split; [done|]. split; [done|]. split; [|split]; simpl.
      * by eapply log_append_ok.
      * by rewrite replay_app, Hstore.
      * done.
    + right. left. split; [done|]. split; [done|]. split; [|split]; simpl; try done.
      by eapply log_append_failed.
Qed.

Lemma visit_refines t c s e response s' e' sv :
  represents s sv -> denotes t c -> len t <= kDefaultMaxPayload ->
  visit c s e = Done (response, s', e') ->
  exists sv', serves sv t response sv' /\ represents s' sv'.
Proof.
  intros Hrep Hden Hlen. pose proof (denotes_parse _ _ Hden) as Hparse.
  assert (Hwf : forall m, mutation_of c = Some m -> wf_mutation m)
    by (intros; by eapply request_mutation_wf).
  destruct c as [| |key|key|key value].
  - intros [= <- <- <-]. exists sv. split; [by apply Sv_ping|done].
  - intros [= <- <- <-]. exists sv. split; [|done].
    unfold size. rewrite (proj2 (proj2 Hrep)). by apply Sv_stats.
  - intros [= <- <- <-]. exists sv. split; [|done].
    rewrite get_lookup, (proj2 (proj2 Hrep)). destruct (sv_map sv !! key) eqn:Hk.
    + by eapply Sv_found.
    + by eapply Sv_not_found.
  - rewrite visit_del, erase_fst. intros Hv.
    destruct (mutate_spec _ _ _ _ _ _ _ _ Hrep (Hwf _ eq_refl) Hv)
      as [(-> & Hf & Hr)|[(-> & Hf & Hr)|(-> & [m0 Hf] & Hr)]].
    + cbn [apply_mutation] in Hr. rewrite erase_values in Hr.
      rewrite (proj2 (proj2 Hrep)) in *. destruct (sv_map sv !! key) eqn:Hk.
      * eexists. split; [by eapply Sv_deleted|exact Hr].
      * rewrite delete_id in Hr by done. eexists. split; [by eapply Sv_delete_nothing|exact Hr].
    + eexists. split; [by eapply Sv_log_failure|exact Hr].
    + exists sv. split; [by eapply Sv_log_closed|exact Hr].
  - rewrite visit_set. intros Hv.
    destruct (mutate_spec _ _ _ _ _ _ _ _ Hrep (Hwf _ eq_refl) Hv)
      as [(-> & Hf & Hr)|[(-> & Hf & Hr)|(-> & [m0 Hf] & Hr)]].
    + cbn in Hr. rewrite (proj2 (proj2 Hrep)) in Hr.
      eexists. split; [by eapply Sv_set|exact Hr].
    + eexists. split; [by eapply Sv_log_failure|exact Hr].
    + exists sv. split; [by eapply Sv_log_closed|exact Hr].
Qed.

Lemma execute_serves t s e response s' e' sv :
  represents s sv -> len t <= kDefaultMaxPayload ->
  execute t s e = Done (response, s', e') ->
  exists sv', serves sv t response sv' /\ represents s' sv'.
Proof.
  intros Hrep Hlen. unfold execute. destruct (parse_command t) as [c|message] eqn:Hp.
  - apply visit_refines; [done| |done]. by apply parse_denotes.
  - intros [= <- <- <-]. exists sv. split; [|done]. apply Sv_malformed.
    intros c Hc%denotes_parse. congruence.
Qed.

(** A request never raises an exception and never has undefined behaviour. *)
Lemma execute_total t (s : Server L) (e : E) :
  len t <= kDefaultMaxPayload ->
  match execute t s e with Done _ | Blocked => True | _ => False end.
Proof.
  intros Hlen. unfold execute. destruct (parse_command t) as [c|message] eqn:Hp; [|done].
  assert (Hm : forall m ok_response, mutation_of c = Some m ->
    match mutate m ok_response s e with Done _ | Blocked => True | _ => False end).
  { intros m ok_response Hm. unfold mutate.
    pose proof (log_append_returns m (wal_ s) e (request_mutation_wf _ _ _ Hp Hlen Hm)).
    destruct (log_append m (wal_ s) e) as [[[[|] wal] e']| | | |]; done. }
  destruct c as [| |key|key|key value]; try done.
  - rewrite visit_del. by apply Hm.
  - rewrite visit_set. by apply Hm.
Qed.

(** ** Sequences of requests *)

Fixpoint execute_all (ts : list bytes) (s : Server L) (e : E)
  : outcome (list bytes * Server L * E) :=
  match ts with
  | [] => Done ([], s, e)
  | t :: ts =>
      let* (response, s, e) := execute t s e in
      let* (responses, s, e) := execute_all ts s e in
      Done (response :: responses, s, e)
  end.

Inductive serves_all : service -> list bytes -> list bytes -> service -> Prop :=
| Serves_nil sv : serves_all sv [] [] sv
| Serves_cons sv t r sv1 ts rs sv2 :
    serves sv t r sv1 -> serves_all sv1 ts rs sv2 ->
    serves_all sv (t :: ts) (r :: rs) sv2.

Lemma execute_all_serves ts s e responses s' e' sv :
  represents s sv -> Forall (fun t => len t <= kDefaultMaxPayload) ts ->
  execute_all ts s e = Done (responses, s', e') ->
  exists sv', serves_all sv ts responses sv' /\ represents s' sv'.
Proof.
  intros Hrep Hts. revert s e responses sv Hrep.
  induction Hts as [|t ts Ht Hts IH]; intros s e responses sv Hrep; simpl.
  - intros [= <- <- <-]. exists sv. split; [constructor|done].
  - intros ([[r s1] e1] & Hx & Ha)%obind_Done_inv.
    apply obind_Done_inv in Ha as ([[rs s2] e2] & Hxs & [= <- <- <-]).
    destruct (execute_serves _ _ _ _ _ _ _ Hrep Ht Hx) as (sv1 & Hs1 & Hrep1).
    destruct (IH _ _ _ _ Hrep1 Hxs) as (sv2 & Hs2 & Hrep2).
    exists sv2. split; [by econstructor|done].
Qed.
End Refinement.

(** ** Sessions *)

Section Sessions.
Context `{Host} {L E : Type} `{DurableLog L E}.

Lemma visit_options c (s : Server L) (e : E) r :
  visit c s e = Done r -> options_ (snd (fst r)) = options_ s.
Proof.
  assert (Hm : forall m ok_response, mutate m ok_response s e = Done r ->
               options_ (snd (fst r)) = options_ s).
  { intros m ok_response ([[[|] wal] e1] & _ & [= <-])%obind_Done_inv; done. }
  destruct c as [| |key|key|key value]; try (by intros [= <-]).
  - rewrite visit_del. apply Hm.
  - rewrite visit_set. apply Hm.
Qed.

Lemma execute_options t (s : Server L) (e : E) r :
  execute t s e = Done r -> options_ (snd (fst r)) = options_ s.
Proof.
  unfold execute. destruct (parse_command t); [apply visit_options|by intros [= <-]].
Qed.

Definition wire (ps : list bytes) : bytes := concat (map frame_of ps).

Lemma wire_cons p ps : wire (p :: ps) = frame_of p ++ wire ps.
Proof. done. Qed.

Lemma handle_client_session ts (s : Server L) (e : E) rs s' e' client loads :
  execute_all ts s e = Done (rs, s', e') ->
  Forall (fun t => len t <= max_payload (options_ s)) ts ->
  Forall (fun t => len t <= u32_max) ts ->
  Forall (fun r => len r <= u32_max) rs ->
  stream (rx client) = (wire ts, SEof) ->
  willing (length (wire rs)) (tx client) ->
  (length ts < loads)%nat ->
  exists client', handle_client loads s e client = Done (s', e', client')
                  /\ sent client' = sent client ++ wire rs.
Proof.
  revert s e rs client loads. induction ts as [|t ts IH];
    intros s e rs client loads Hx Hmax Hts Hrs Hrx Htx Hl.
  - injection Hx as <- <- <-. destruct loads as [|loads]; [simpl in Hl; lia|].
    cbn [handle_client]. destruct (read_exact_eof _ _ 4 Hrx) as (rest & Hr); [done|].
    unfold recv_frame. rewrite Hr. cbn [obind io_status].
    rewrite decide_True by done. cbn [obind fr_status]. rewrite decide_True by done.
    rewrite decide_False by done.
    eexists. split; [reflexivity|]. simpl. by rewrite app_nil_r.
  - cbn [execute_all] in Hx. apply obind_Done_inv in Hx as ([[r s1] e1] & Hx & Hxs).
    apply obind_Done_inv in Hxs as ([[rs1 s2] e2] & Hxs & [= <- <- <-]).
    apply Forall_cons in Hmax as [Hmax Hmaxs]. apply Forall_cons in Hts as [Ht Hts].
    apply Forall_cons in Hrs as [Hr Hrs]. rewrite wire_cons in Hrx, Htx.
    destruct loads as [|loads]; [simpl in Hl; lia|]. cbn [handle_client].
    destruct (recv_frame_frame _ _ _ _ _ Hmax Ht Hrx) as (rx1 & -> & Hrx1).
    cbn [obind fr_status fr_payload]. rewrite decide_False by congruence.
    rewrite Hx. cbn [obind]. rewrite length_app in Htx.
    destruct (send_frame_willing r (tx client) _ Hr Htx) as (tx1 & -> & Htx1); [lia|].
    cbn [obind io_status]. rewrite decide_False by congruence.
    apply execute_options in Hx. simpl in Hx.
    destruct (IH s1 e1 rs1 (mkConn rx1 tx1 (sent client ++ frame_of r)) loads)
      as (client' & Hh & Hsent); try done.
    + by rewrite Hx.
    + simpl. eapply willing_le; [|exact Htx1]. lia.
    + simpl in Hl. lia.
    + exists client'. split; [done|]. rewrite Hsent, wire_cons. cbn [sent].
      by rewrite app_assoc.
Qed.
End Sessions.

(** ** The size of responses *)

Section Responses.
Context `{Host} {L E : Type} `{DurableLog L E}.

(** Every stored value leaves room for the ["VALUE "] prefix in a frame. *)
Definition values_fit (store : KvStore) : Prop :=
  forall key value, values_ store !! key = Some value -> 6 + len value <= kDefaultMaxPayload.

(** The counters and the number of keys are 64-bit integers. *)
Definition machine_sized (s : Server L) : Prop :=
  0 <= submitted_ s < 2 ^ 64 /\ 0 <= completed_ s < 2 ^ 64 /\ size (store_ s) < 2 ^ 64.

Lemma wf_set_fits key value :
  wf_mutation (MSet key value) -> 6 + len value <= kDefaultMaxPayload.
Proof.
  intros [(Hk & _) Hl]. simpl in Hl. unfold set_text in Hl.
  apply valid_key_iff in Hk as [Hk _]. len_lia.
Qed.

Lemma apply_fits m store :
  wf_mutation m -> values_fit store -> values_fit (apply_mutation m store).
Proof.
  intros Hm Hs k v. destruct m as [key value|key]; cbn [apply_mutation].
  - simpl. rewrite lookup_insert_Some. intros [[-> <-]|[_ Hkv]]; [by apply (wf_set_fits k)|].
    by eapply Hs.
  - rewrite erase_values, lookup_delete_Some. intros [_ Hkv]. by eapply Hs.
Qed.

Lemma replay_fits ms store :
  Forall wf_mutation ms -> values_fit store -> values_fit (replay ms store).
Proof.
  intros Hms. revert store. induction Hms as [|m ms Hm Hms IH]; intros store Hs; [done|].
  rewrite replay_cons. by apply IH, apply_fits.
Qed.

Lemma mutate_fits m ok_response (s : Server L) (e : E) response s' e' :
  wf_mutation m -> len ok_response <= kDefaultMaxPayload -> values_fit (store_ s) ->
  mutate m ok_response s e = Done (response, s', e') ->
  len response <= kDefaultMaxPayload /\ values_fit (store_ s').
Proof.
  intros Hm Hok Hs ([[[|] wal] e1] & _ & [= <- <- <-])%obind_Done_inv; simpl.
  - split; [done|]. by apply apply_fits.
  - split; [done|done].
Qed.

Lemma execute_fits t (s : Server L) (e : E) response s' e' :
  len t <= kDefaultMaxPayload -> machine_sized s -> values_fit (store_ s) ->
  execute t s e = Done (response, s', e') ->
  len response <= kDefaultMaxPayload /\ values_fit (store_ s').
Proof.
  intros Ht (Hsub & Hcom & Hsize) Hs. unfold execute.
  destruct (parse_command t) as [c|message] eqn:Hp.
  - pose proof (fun m => request_mutation_wf t c m Hp Ht) as Hwf.
    destruct c as [| |key|key|key value].
    + by intros [= <- <- <-].
    + intros [= <- <- <-]. split; [|done]. unfold kDefaultMaxPayload.
      assert (Hz : 0 <= size (store_ s)) by (unfold size; lia).
      pose proof (show_u64_length _ Hsub). pose proof (show_u64_length _ Hcom).
      pose proof (show_u64_length _ (conj Hz Hsize)). len_lia.
    + intros [= <- <- <-]. split; [|done]. rewrite get_lookup.
      destruct (values_ (store_ s) !! key) as [v|] eqn:Hv; [|done].
      apply Hs in Hv. len_lia.
    + rewrite visit_del. apply mutate_fits; [by apply Hwf| |done].
      by destruct (fst (erase (store_ s) key)).
    + rewrite visit_set. apply mutate_fits; [by apply Hwf|done|done].
  - intros [= <- <- <-]. split; [|done].
    apply parse_error_message in Hp. rewrite !elem_of_cons, elem_of_nil in Hp.
    by destruct Hp as [->|[->|[->|[->|[]]]]].
Qed.

(** What the store may hold: keys and values that the command grammar admits,
    small enough for a response. *)
Definition typed_store (store : KvStore) : Prop :=
  forall key value, values_ store !! key = Some value ->
    valid_key key = true /\ value <> [] /\ trimmed value /\ no_nul value
    /\ 6 + len value <= kDefaultMaxPayload.

Lemma apply_typed m store :
  wf_mutation m -> typed_store store -> typed_store (apply_mutation m store).
Proof.
  intros Hm Hs k v. destruct m as [key value|key]; cbn [apply_mutation].
  - simpl. rewrite lookup_insert_Some. intros [[<- <-]|[_ Hkv]]; [|by eapply Hs].
    pose proof (wf_set_fits _ _ Hm). destruct Hm as [(? & ? & ? & ?) _]. done.
  - rewrite erase_values, lookup_delete_Some. intros [_ Hkv]. by eapply Hs.
Qed.

(** A request applies at most one mutation. *)
Lemma execute_store t (s : Server L) (e : E) response s' e' :
  len t <= kDefaultMaxPayload -> execute t s e = Done (response, s', e') ->
  store_ s' = store_ s \/ exists m, wf_mutation m /\ store_ s' = apply_mutation m (store_ s).
Proof.
  intros Ht. unfold execute.
  assert (forall m ok, wf_mutation m -> mutate m ok s e = Done (response, s', e') ->
    store_ s' = store_ s \/ exists m, wf_mutation m /\ store_ s' = apply_mutation m (store_ s)) as Hmut.
  { intros m ok Hm ([[[|] wal] e1] & _ & [= <- <- <-])%obind_Done_inv; [right; by exists m|by left]. }
  destruct (parse_command t) as [c|message] eqn:Hp; [|intros [= <- <- <-]; by left].
  pose proof (fun m => request_mutation_wf t c m Hp Ht) as Hwf.
  destruct c as [| |key|key|key value]; try (intros [= <- <- <-]; by left).
  - rewrite visit_del. apply Hmut. by apply Hwf.
  - rewrite visit_set. apply Hmut. by apply Hwf.
Qed.

Lemma execute_all_typed ts (s : Server L) (e : E) responses s' e' :
  Forall (fun t => len t <= kDefaultMaxPayload) ts -> typed_store (store_ s) ->
  execute_all ts s e = Done (responses, s', e') -> typed_store (store_ s').
Proof.
  intros Hts. revert s e responses. induction Hts as [|t ts Ht _ IH]; intros s e responses Hs; simpl.
  - by intros [= _ <- _].
  - intros ([[r s1] e1] & Hx & Ha)%obind_Done_inv.
    apply obind_Done_inv in Ha as ([[rs s2] e2] & Ha & [= _ <- <-]). eapply IH; [|exact Ha].
    destruct (execute_store _ _ _ _ _ _ Ht Hx) as [->|(m & Hm & ->)]; [done|by apply apply_typed].
Qed.
End Responses.

(** ** Properties *)

Section Properties.
Context `{Host} {L E : Type} `{DurableLog L E}.

(** C11: requests refine the abstract service.  When the server represents a
    service state (its log holds the acknowledged mutations and its store is
    what they produce), every request that returns gives an answer the
    service may give, and the server again represents the service state that
    answer leaves: malformed text changes nothing, a read returns the last
    acknowledged write, and a mutation is applied exactly when it was
    appended to the log. *)
Theorem execute_refines_service t (s : Server L) (e : E) response s' e' sv :
  represents s sv -> len t <= kDefaultMaxPayload ->
  execute t s e = Done (response, s', e') ->
  exists sv', serves sv t response sv' /\ represents s' sv'.
Proof. apply execute_serves. Qed.

(** No request brings the server down.  For every request text that fits a
    frame, every server state and every behaviour of the log's system calls,
    [execute] returns a response or waits in a system call: no exception
    leaves it and it performs no undefined operation. *)
Theorem execute_never_throws t (s : Server L) (e : E) :
  len t <= kDefaultMaxPayload ->
  match execute t s e with Done _ | Blocked => True | _ => False end.
Proof. apply execute_total. Qed.

(** C22: sessions answer in order.  When the client's stream is the frames of a
    sequence of requests and then ends, in any fragmentation, and the kernel
    takes the responses in any pieces, [handle_client] sends exactly the frames
    of the responses of executing the requests one after the other, in
    order, and leaves the state of that execution. *)
Theorem session_answers_in_order ts (s : Server L) (e : E) rs s' e' client loads :
  execute_all ts s e = Done (rs, s', e') ->
  max_payload (options_ s) <= kDefaultMaxPayload ->
  Forall (fun t => len t <= max_payload (options_ s)) ts ->
  Forall (fun r => len r <= kDefaultMaxPayload) rs ->
  stream (rx client) = (wire ts, SEof) ->
  willing (length (wire rs)) (tx client) ->
  (length ts < loads)%nat ->
  exists client', handle_client loads s e client = Done (s', e', client')
                  /\ sent client' = sent client ++ wire rs.
Proof.
  intros Hx Hmax Hts Hrs. eapply handle_client_session; [done|done| |].
  - eapply Forall_impl; [exact Hts|]. unfold kDefaultMaxPayload, u32_max in *. simpl. lia.
  - eapply Forall_impl; [exact Hrs|]. unfold kDefaultMaxPayload, u32_max in *. simpl. lia.
Qed.

(** C39: every response fits a frame.  Values that came in through requests (or
    the log) leave room for the prefix of a GET response, so the response to
    any request that fits a frame is at most the protocol limit, and the store
    keeps that property. *)
Theorem responses_fit_frames t (s : Server L) (e : E) response s' e' :
  len t <= kDefaultMaxPayload -> machine_sized s -> values_fit (store_ s) ->
  execute t s e = Done (response, s', e') ->
  len response <= kDefaultMaxPayload /\ values_fit (store_ s').
Proof. apply execute_fits. Qed.

(** C37: the store stays well typed.  Whatever requests that fit a frame a server
    with a well-typed store (such as a new one) executes, and however its log
    behaves, every key in its store is one the key grammar admits, every value is
    a trimmed, non-empty text without NUL bytes, and every value leaves room for
    its response in a frame. *)
Theorem store_stays_typed ts (s : Server L) (e : E) responses s' e' :
  Forall (fun t => len t <= kDefaultMaxPayload) ts -> typed_store (store_ s) ->
  execute_all ts s e = Done (responses, s', e') ->
  forall key value, values_ (store_ s') !! key = Some value ->
    valid_key key = true /\ value <> [] /\ trimmed value /\ no_nul value
    /\ 6 + len value <= kDefaultMaxPayload.
Proof. apply execute_all_typed. Qed.
End Properties.
