(* ===== verification/Startup.v ===== *)
(** * Server construction and restart ([capstone/reference/src/server.cpp], lines 34-116)

    The constructor ([new_server]) opens and replays the log and binds the
    listener ([open_listener]).  The restart theorem composes everything: the
    requests a server acknowledged before a crash are what the restarted server
    serves from. *)

From stdpp Require Import base gmap list strings.
From Stdlib Require Import Strings.Byte ZArith Lia.
From S2P Require Import Prelude ByteOrder Posix Numeric Protocol Commands Store DurableLog Wal Server.

(** ** Binding the listener *)

(** What the calls on one resolved address return, and the [errno] a failing
    one leaves. *)
Record candidate := mkCandidate {
  ca_socket : Z;
  ca_getfd : Z;
  ca_setfd : Z;
  ca_bind : Z;
  ca_listen : Z;
  ca_errno : Z;
}.

Inductive family := AF_INET | AF_INET6 | AF_OTHER.

Record listener_env := mkListenerEnv {
  le_lookup : Z;
  le_gai_strerror : Z -> bytes;
  le_strerror : Z -> bytes;
  le_errno : Z;
  le_results : list candidate;
  le_getsockname : Z;
  le_getsockname_errno : Z;
  le_family : family;
  le_port : bytes;
}.

(** The loop over the resolved addresses: the first one on which every checked
    call succeeds, and [errno] after the loop. *)
Fixpoint first_bound (results : list candidate) (errno : Z) : Z * Z :=
  match results with
  | [] => (-1, errno)
  | address :: rest =>
      if ca_socket address <? 0 then first_bound rest (ca_errno address)
      else if (ca_getfd address <? 0) || negb (ca_setfd address =? 0)
      then first_bound rest (ca_errno address)
      else if negb (ca_bind address =? 0) then first_bound rest (ca_errno address)
      else if negb (ca_listen address =? 0) then first_bound rest (ca_errno address)
      else (ca_socket address, errno)
  end.

(** [ntohs] of the two port bytes of the socket address. *)
Definition be16 (l : bytes) : Z := be_value (take 2 l) 0.

Definition open_listener {L} (env : listener_env) (s : Server L) : Server L :=
  if negb (le_lookup env =? 0)
  then with_error s (le_gai_strerror env (le_lookup env))
  else
    let (fd, errno) := first_bound (le_results env) (le_errno env) in
    let s := with_listener s fd (bound_port_ s) in
    if negb (ready s) then with_error s (le_strerror env errno)
    else if negb (le_getsockname env =? 0)
    then with_listener (with_error s (le_strerror env (le_getsockname_errno env)))
           (-1) (bound_port_ s)
    else match le_family env with
         | AF_INET | AF_INET6 => with_listener s fd (be16 (le_port env))
         | AF_OTHER => s
         end.

(** ** The constructor *)

Record startup_env := mkStartupEnv {
  se_has_parent : bool;
  se_mkdir_error : bool;
  se_opened : Z;
  se_file : file;
  se_recover : recover_env;
  se_listener : listener_env;
}.

Definition new_server `{Host} (options : ServerOptions) (env : startup_env)
  : outcome (Server Wal) :=
  let wal := new_wal (wal_path options) (se_has_parent env) (se_mkdir_error env)
               (se_opened env) (se_file env) in
  let s := mkServer options (-1) 0 [] empty_store wal 0 0 in
  if max_payload options >? kDefaultMaxPayload
  then Done (with_error s (str "max_payload exceeds the supported protocol limit"))
  else if negb (is_empty (wal_path options)) && negb (enabled wal)
  then Done (with_error s (str "could not open the configured write-ahead log"))
  else
    let* (recovered, store, wal) := recover (wal_ s) (store_ s) (se_recover env) in
    let s := with_store_wal s store wal in
    if negb recovered
    then Done (with_error s (str "could not recover the write-ahead log"))
    else Done (open_listener (se_listener env) s).

(** ** Lemmas *)

Lemma open_listener_store {L} env (s : Server L) :
  store_ (open_listener env s) = store_ s /\ wal_ (open_listener env s) = wal_ s
  /\ options_ (open_listener env s) = options_ s.
Proof.
  unfold open_listener. destruct (negb (le_lookup env =? 0)); [done|].
  destruct (first_bound (le_results env) (le_errno env)) as [fd errno].
  repeat case_if; try done. by destruct (le_family env).
Qed.

Lemma new_wal_open path has_parent mkdir_error opened f :
  path <> [] -> enabled (new_wal path has_parent mkdir_error opened f) = true ->
  new_wal path has_parent mkdir_error opened f = mkWal path opened f /\ 0 <= opened.
Proof.
  intros Hp. unfold new_wal, enabled. rewrite is_empty_not by done.
  case_if; [done|]. simpl. intros H. rewrite Z.geb_leb in H. reflect_bools. done.
Qed.

(** The log a restarted server recovers is open and holds what it replayed. *)
Lemma recovered_log_inv path opened f ms :
  path <> [] -> 0 <= opened -> Forall wf_mutation ms -> f_data f = log_bytes ms ->
  f_synced f = length (f_data f) -> log_inv (mkWal path opened f) ms None.
Proof.
  intros Hp Ho Hms Hd Hs. unfold log_inv. cbn [path_ wal_file]. rewrite is_empty_not by done.
  split; [done|]. split; [by rewrite Hs, Hd|]. split; [|done].
  unfold enabled. simpl. rewrite Z.geb_leb. by apply Z.leb_le.
Qed.

Lemma new_server_recovers `{Host} options env acked extra tail s :
  wal_path options <> [] -> Forall wf_mutation (acked ++ extra) -> log_tail tail ->
  f_data (se_file env) = log_bytes (acked ++ extra) ++ tail ->
  f_synced (se_file env) = length (f_data (se_file env)) ->
  healthy (se_recover env) (se_file env) ->
  new_server options env = Done s -> ready s = true ->
  represents s (mkService (values_ (replay (acked ++ extra) empty_store)) (acked ++ extra) None)
  /\ options_ s = options /\ max_payload options <= kDefaultMaxPayload.
Proof.
  intros Hp Hwf Htail Hd Hsync Hh. unfold new_server.
  destruct (Z.gtb_spec (max_payload options) kDefaultMaxPayload) as [|Hmax];
    [by intros [= <-]|].
  rewrite (is_empty_not (wal_path options)) by done. cbn [negb andb].
  destruct (enabled _) eqn:He; cbn [negb]; [|by intros [= <-]].
  apply new_wal_open in He as [-> Ho]; [|done]. cbn [wal_ store_].
  destruct (recover_log (mkWal (wal_path options) (se_opened env) (se_file env)) empty_store
    (se_recover env) (acked ++ extra) tail) as (f & -> & Hf & Hfs); [done..|].
  cbn [obind negb]. intros [= <-] Hready.
  destruct (open_listener_store (se_listener env)
    (with_store_wal (mkServer options (-1) 0 [] empty_store
       (mkWal (wal_path options) (se_opened env) (se_file env)) 0 0)
       (replay (acked ++ extra) empty_store)
       (mkWal (wal_path options) (se_opened env) f))) as (Hst & Hw & Ho').
  unfold represents. cbn [sv_log sv_failed sv_map].
  unfold with_store_wal in *. cbn in Hst, Hw, Ho' |- *. rewrite Hst, Hw, Ho'.
  split; [|done]. split; [|done]. apply recovered_log_inv; try done.
  destruct Hfs as [->|]; done.
Qed.

(** ** Ready or not *)

Lemma first_bound_ready results errno :
  0 <= fst (first_bound results errno) \/ fst (first_bound results errno) = -1.
Proof.
  revert errno. induction results as [|a results IH]; intros errno; simpl; [by right|].
  destruct (Z.ltb_spec (ca_socket a) 0); [by apply IH|].
  repeat case_if; try apply IH. by left.
Qed.

Lemma ready_with_listener {L} (s : Server L) fd port :
  ready (with_listener s fd port) = (fd >=? 0).
Proof. done. Qed.

(** The log's path never changes. *)
Lemma execute_path `{Host} t (s : Server Wal) e r :
  execute t s e = Done r -> path_ (wal_ (snd (fst r))) = path_ (wal_ s).
Proof.
  assert (Hm : forall m ok_response, mutate m ok_response s e = Done r ->
               path_ (wal_ (snd (fst r))) = path_ (wal_ s)).
  { intros m ok_response ([[b wal] e1] & Ha & Hr)%obind_Done_inv.
    change (log_append m (wal_ s) e) with (append_mutation m (wal_ s) e) in Ha.
    apply append_path in Ha. by destruct b; injection Hr as <-. }
  unfold execute. destruct (parse_command t) as [c|]; [|by intros [= <-]].
  destruct c as [| |key|key|key value]; try (by intros [= <-]).
  - rewrite visit_del. apply Hm.
  - rewrite visit_set. apply Hm.
Qed.

Lemma execute_all_path `{Host} ts (s : Server Wal) e r :
  execute_all ts s e = Done r -> path_ (wal_ (snd (fst r))) = path_ (wal_ s).
Proof.
  revert s e r. induction ts as [|t ts IH]; intros s e r; simpl; [by intros [= <-]|].
  intros ([[response s1] e1] & Hx & Ha)%obind_Done_inv.
  apply obind_Done_inv in Ha as ([[rs s2] e2] & Hxs & [= <-]).
  apply execute_path in Hx. apply IH in Hxs. simpl in *. congruence.
Qed.

(** ** Properties *)

Section Properties.
Context `{Host}.

(** A restart serves what was acknowledged.  Let a server with a log
    represent a service state, execute any requests, crash at any moment of
    the file's life (keeping the synced prefix and any part of the rest), and
    start again on what is left with working system calls: the new server, if
    it comes up, represents the service state of the acknowledged mutations,
    possibly followed by the single mutation whose append failed and that was
    answered with an error. *)
Theorem restart_serves_acknowledged ts (s0 : Server Wal) e0 sv0 rs s1 e1 options env s2 :
  path_ (wal_ s0) <> [] -> represents s0 sv0 ->
  Forall (fun t => len t <= kDefaultMaxPayload) ts ->
  execute_all ts s0 e0 = Done (rs, s1, e1) -> crash (wal_file (wal_ s1)) (se_file env) ->
  wal_path options <> [] -> healthy (se_recover env) (se_file env) ->
  new_server options env = Done s2 -> ready s2 = true ->
  exists sv1 extra,
    serves_all sv0 ts rs sv1
    /\ (extra = [] \/ exists m, sv_failed sv1 = Some m /\ extra = [m])
    /\ represents s2
         (mkService (values_ (replay (sv_log sv1 ++ extra) empty_store))
            (sv_log sv1 ++ extra) None).
Proof.
  intros Hp0 Hrep Hts Hx Hcrash Hopt Hh Hnew Hready.
  pose proof (execute_all_path _ _ _ _ Hx) as Hp1. simpl in Hp1.
  destruct (execute_all_serves _ _ _ _ _ _ _ Hrep Hts Hx) as (sv1 & Hserves & Hrep1).
  destruct (crash_contents (wal_ s1) (sv_log sv1) (sv_failed sv1) (se_file env))
    as (extra & tail & Hex & Hwf & Htail & Hd);
    [by rewrite Hp1, is_empty_not|apply Hrep1|done|].
  exists sv1, extra. split; [done|]. split; [done|].
  eapply new_server_recovers; try done. destruct Hcrash as (k & _ & ->). done.
Qed.

(** The constructor reports what happened.  Whatever the system calls do,
    a server that is not ready has a diagnostic (given that [strerror] and
    [gai_strerror] return text), a ready one has none, and a ready server's
    payload limit is one that recovery accepts. *)
Theorem ready_or_diagnosed options env s :
  (forall n, le_strerror (se_listener env) n <> []) ->
  (forall n, le_gai_strerror (se_listener env) n <> []) ->
  new_server options env = Done s ->
  (ready s = true <-> error_ s = [])
  /\ (ready s = true -> max_payload options <= kDefaultMaxPayload).
Proof.
  intros Hstr Hgai. unfold new_server.
  destruct (Z.gtb_spec (max_payload options) kDefaultMaxPayload) as [|Hmax];
    [intros [= <-]; done|].
  destruct (negb (is_empty (wal_path options)) && _); [intros [= <-]; done|].
  intros ([[recovered store] wal] & _ & Hs)%obind_Done_inv.
  destruct recovered; cbn [negb] in Hs; [|by injection Hs as <-].
  injection Hs as <-. split; [|done]. unfold open_listener.
  destruct (negb (le_lookup _ =? 0)); [simpl; split; [done|by intros ?%Hgai]|].
  destruct (first_bound_ready (le_results (se_listener env)) (le_errno (se_listener env)))
    as [Hfd|Hfd];
    destruct (first_bound _ _) as [fd errno]; cbn [fst] in Hfd.
  - assert (Hr : (fd >=? 0) = true) by (rewrite Z.geb_leb; by apply Z.leb_le).
    rewrite ready_with_listener, Hr. cbn [negb]. destruct (negb (le_getsockname _ =? 0)).
    + simpl. split; [done|by intros ?%Hstr].
    + destruct (le_family _); unfold ready; simpl; by rewrite Hr.
  - subst fd. simpl. split; [done|by intros ?%Hstr].
Qed.
End Properties.

(** ** Witnesses *)

Definition ex_options : ServerOptions :=
  mkOptions (str "127.0.0.1") 0 4 64 (64 * 1024) (str "log").
Definition ex_server : Server Wal := mkServer ex_options 7 9000 [] empty_store ex_wal 1 0.
Definition ex_service : service := mkService ∅ [] None.
Definition ex_env : append_env := mkAppendEnv [WTake 3; WErr EINTR; WTake 100] [COk].
Definition ex_set : mutation := MSet (str "k") (str "v").
Definition ex_server1 : Server Wal :=
  with_store_wal ex_server (apply_mutation ex_set empty_store)
    (mkWal (str "log") 3 (mkFile (log_bytes [ex_set]) (length (log_bytes [ex_set])))).

Lemma ex_represents : @represents Wal append_env (@wal_durable_log little) ex_server ex_service.
Proof. split; [|done]. repeat split; constructor. Qed.

Lemma ex_execute :
  @execute Wal append_env (@wal_durable_log little) (str "SET k v") ex_server ex_env
  = Done (str "OK", ex_server1, mkAppendEnv [] []).
Proof. vm_compute. reflexivity. Qed.

Lemma execute_refines_service_witness :
  exists sv', serves ex_service (str "SET k v") (str "OK") sv'
              /\ @represents Wal append_env (@wal_durable_log little) ex_server1 sv'.
Proof.
  apply (@execute_refines_service Wal append_env (@wal_durable_log little) (str "SET k v") ex_server ex_env (str "OK") ex_server1
           (mkAppendEnv [] []) ex_service).
  - apply ex_represents.
  - vm_compute. discriminate.
  - apply ex_execute.
Defined.

Lemma execute_never_throws_witness :
  match @execute Wal append_env (@wal_durable_log little) (str "DEL k") ex_server ex_env
  with Done _ | Blocked => True | _ => False end.
Proof. apply (@execute_never_throws Wal append_env (@wal_durable_log little)). vm_compute. discriminate. Defined.

(** Two requests, delivered in three pieces. *)
Definition ex_requests : list bytes := [str "SET k v"; str "GET k"].
Definition ex_client : conn :=
  mkConn (unread (take 6 (wire ex_requests)) (RErr EINTR :: unread (drop 6 (wire ex_requests)) [REof]))
    (replicate 40 (WTake 1)) [].

Lemma session_answers_in_order_witness :
  exists client',
    @handle_client little Wal append_env (@wal_durable_log little) 3 ex_server ex_env ex_client
      = Done (ex_server1, mkAppendEnv [] [], client')
    /\ sent client' = sent ex_client ++ wire [str "OK"; str "VALUE v"].
Proof.
  apply (@session_answers_in_order little Wal append_env (@wal_durable_log little) ex_requests ex_server ex_env
           [str "OK"; str "VALUE v"]).
  - vm_compute. reflexivity.
  - vm_compute. discriminate.
  - repeat (apply Forall_cons_2; [vm_compute; discriminate|]). by apply Forall_nil_2.
  - repeat (apply Forall_cons_2; [vm_compute; discriminate|]). by apply Forall_nil_2.
  - vm_compute. reflexivity.
  - vm_compute. reflexivity.
  - simpl. lia.
Defined.

Lemma store_stays_typed_witness :
  valid_key (str "k") = true /\ str "v" <> [] /\ trimmed (str "v") /\ no_nul (str "v")
  /\ 6 + len (str "v") <= kDefaultMaxPayload.
Proof.
  apply (@store_stays_typed Wal append_env (@wal_durable_log little) ex_requests ex_server ex_env
           [str "OK"; str "VALUE v"] ex_server1 (mkAppendEnv [] [])).
  - repeat (apply Forall_cons_2; [vm_compute; discriminate|]). by apply Forall_nil_2.
  - intros key value. simpl. by rewrite lookup_empty.
  - vm_compute. reflexivity.
  - vm_compute. reflexivity.
Defined.

Lemma responses_fit_frames_witness :
  len (str "OK") <= kDefaultMaxPayload /\ values_fit (store_ ex_server1).
Proof.
  apply (@responses_fit_frames Wal append_env (@wal_durable_log little) (str "SET k v") ex_server ex_env (str "OK") ex_server1
           (mkAppendEnv [] [])).
  - vm_compute. discriminate.
  - repeat split; vm_compute; congruence.
  - intros key value. simpl. by rewrite lookup_empty.
  - apply ex_execute.
Defined.

(** The restart reads back the synced record. *)
Definition ex_listener : listener_env :=
  mkListenerEnv 0 (fun _ => str "lookup failed") (fun _ => str "error") 0
    [mkCandidate 4 0 0 (-1) 0 98; mkCandidate 6 0 0 0 0 0] 0 0 AF_INET [x23; x28].
Definition ex_startup : startup_env :=
  mkStartupEnv true false 3
    (mkFile (log_bytes [ex_set]) (length (log_bytes [ex_set])))
    (ex_recover_env (mkFile (log_bytes [ex_set]) (length (log_bytes [ex_set]))))
    ex_listener.
Definition ex_server2 : Server Wal :=
  mkServer ex_options 6 9000 [] (apply_mutation ex_set empty_store)
    (mkWal (str "log") 3 (mkFile (log_bytes [ex_set]) (length (log_bytes [ex_set])))) 0 0.

Lemma ex_restart : @new_server little ex_options ex_startup = Done ex_server2.
Proof. vm_compute. reflexivity. Qed.

Lemma restart_serves_acknowledged_witness :
  exists sv1 extra,
    serves_all ex_service [str "SET k v"] [str "OK"] sv1
    /\ (extra = [] \/ exists m, sv_failed sv1 = Some m /\ extra = [m])
    /\ @represents Wal append_env (@wal_durable_log little) ex_server2
         (mkService (values_ (replay (sv_log sv1 ++ extra) empty_store))
            (sv_log sv1 ++ extra) None).
Proof.
  apply (@restart_serves_acknowledged little [str "SET k v"] ex_server ex_env ex_service
           [str "OK"] ex_server1 (mkAppendEnv [] []) ex_options ex_startup ex_server2).
  - discriminate.
  - apply ex_represents.
  - repeat (apply Forall_cons_2; [vm_compute; discriminate|]). by apply Forall_nil_2.
  - vm_compute. reflexivity.
  - exists 15%nat. split; [vm_compute; lia|vm_compute; reflexivity].
  - discriminate.
  - split; try (by eexists); try done.
  - apply ex_restart.
  - reflexivity.
Defined.

Lemma ready_or_diagnosed_witness :
  (ready ex_server2 = true <-> error_ ex_server2 = [])
  /\ (ready ex_server2 = true -> max_payload ex_options <= kDefaultMaxPayload).
Proof.
  apply (@ready_or_diagnosed little ex_options ex_startup ex_server2).
  - discriminate.
  - discriminate.
  - apply ex_restart.
Defined.
