(* ===== verification/Concurrent.v ===== *)
(** * Concurrent requests ([Server::execute], [capstone/reference/src/server.cpp])

    The sessions of different connections run [execute] in different threads.
    A step is one critical section of the store, one load of a counter, one
    append to the log, or taking or releasing [mutation_mutex_]; a schedule
    lists which thread moves next, and when the pool's counters change under
    the requests.  The history records the requests in the order in which they
    take effect. *)

From stdpp Require Import base gmap list strings.
From Stdlib Require Import Strings.Byte ZArith Lia.
From S2P Require Import Prelude ByteOrder Posix Numeric Protocol Commands Store DurableLog Wal Server Startup.

(** ** State *)

(** Where a thread is inside [execute]. *)
Inductive point :=
| Waiting                                      (* between two requests *)
| Reading (key : bytes)                        (* before [store_.get] *)
| CountingKeys                                 (* before [store_.size] *)
| LoadingSubmitted (keys : Z)                  (* before [pool_.submitted] *)
| LoadingCompleted (keys submitted : Z)        (* before [pool_.completed] *)
| Locking (m : mutation)                       (* before the lock *)
| Appending (m : mutation)                     (* locked, before the append *)
| Applying (m : mutation)                      (* appended, before the store's update *)
| Unlocking (response : bytes)                 (* before the lock's destructor *)
| Returning (response : bytes).

Record session := mkSession {
  ss_todo : list bytes;                        (* requests still to come *)
  ss_request : bytes;                          (* the request in progress *)
  ss_point : point;
  ss_answers : list (bytes * bytes);           (* requests answered, with the responses *)
  ss_entry : nat;                              (* the entry of the request in the history *)
}.

(** An entry of the history: a response, or the part of it that is fixed. *)
Inductive reply := Whole (response : bytes) | Partial (front : bytes).

Definition reply_text (r : reply) : bytes :=
  match r with Whole response => response | Partial front => front end.

Section Concurrent.
Context `{Host} {L E : Type} `{DurableLog L E}.

Record system := mkSystem {
  server : Server L;
  calls : E;
  mutation_mutex_ : option nat;
  sessions : list session;
  history : list (nat * bytes * reply);
}.

(** ** Steps *)

Definition at_point (th : session) (p : point) : session :=
  mkSession (ss_todo th) (ss_request th) p (ss_answers th) (ss_entry th).

Definition set_session (s : system) (i : nat) (th : session) : system :=
  mkSystem (server s) (calls s) (mutation_mutex_ s) (<[i := th]> (sessions s)) (history s).

(** The request of thread [i] takes effect with this reply. *)
Definition effect (s : system) (i : nat) (t : bytes) (r : reply) : system :=
  mkSystem (server s) (calls s) (mutation_mutex_ s) (sessions s) (history s ++ [(i, t, r)]).

Definition set_server (s : system) (srv : Server L) (e : E) : system :=
  mkSystem srv e (mutation_mutex_ s) (sessions s) (history s).

Definition set_mutex (s : system) (holder : option nat) : system :=
  mkSystem (server s) (calls s) holder (sessions s) (history s).

(** Parsing a request is local to its thread. *)
Definition begin (s : system) (i : nat) (th : session) (t : bytes) (rest : list bytes) : system :=
  let go p := set_session s i (mkSession rest t p (ss_answers th) (ss_entry th)) in
  match parse_command t with
  | ParseError message =>
      effect (go (Returning (str "ERR " ++ message))) i t (Whole (str "ERR " ++ message))
  | Parsed Ping => effect (go (Returning (str "PONG"))) i t (Whole (str "PONG"))
  | Parsed Stats => go CountingKeys
  | Parsed (Get key) => go (Reading key)
  | Parsed (Del key) => go (Locking (MDel key))
  | Parsed (SetKey key value) => go (Locking (MSet key value))
  end.

Definition stats_front (keys : Z) : bytes :=
  str "keys=" ++ show_unsigned keys ++ str " submitted=".

(** The step of thread [i] after the request was parsed.  A thread that waits
    for the mutex or in a system call stays where it is. *)
Definition visit_step (s : system) (i : nat) (th : session) : outcome system :=
  let go s p := set_session s i (at_point th p) in
  let srv := server s in
  match ss_point th with
  | Waiting => Done s
  | Reading key =>
      let response := match get (store_ srv) key with
                      | Some v => str "VALUE " ++ v
                      | None => str "NOT_FOUND"
                      end in
      Done (effect (go s (Returning response)) i (ss_request th) (Whole response))
  | CountingKeys =>
      let keys := size (store_ srv) in
      Done (effect (set_session s i (mkSession (ss_todo th) (ss_request th) (LoadingSubmitted keys)
                                       (ss_answers th) (length (history s))))
              i (ss_request th) (Partial (stats_front keys)))
  | LoadingSubmitted keys => Done (go s (LoadingCompleted keys (submitted_ srv)))
  | LoadingCompleted keys submitted =>
      let response := stats_front keys ++ show_unsigned submitted
                      ++ str " completed=" ++ show_unsigned (completed_ srv) in
      Done (mkSystem srv (calls s) (mutation_mutex_ s)
              (<[i := at_point th (Returning response)]> (sessions s))
              (<[ss_entry th := (i, ss_request th, Whole response)]> (history s)))
  | Locking m =>
      match mutation_mutex_ s with
      | None => Done (set_mutex (go s (Appending m)) (Some i))
      | Some _ => Done s
      end
  | Appending m =>
      match log_append m (wal_ srv) (calls s) with
      | Done (true, wal, e) =>
          Done (set_server (go s (Applying m)) (with_store_wal srv (store_ srv) wal) e)
      | Done (false, wal, e) =>
          Done (effect (set_server (go s (Unlocking (str "ERR WAL failure")))
                          (with_store_wal srv (store_ srv) wal) e)
                  i (ss_request th) (Whole (str "ERR WAL failure")))
      | Blocked => Done s
      | Threw what => Threw what
      | Undefined => Undefined
      | OutOfFuel => OutOfFuel
      end
  | Applying m =>
      let (response, store) :=
        match m with
        | MSet key value => (str "OK", set (store_ srv) key value)
        | MDel key => let (erased, store) := erase (store_ srv) key in
                      (if erased then str "DELETED" else str "NOT_FOUND", store)
        end in
      Done (effect (set_server (go s (Unlocking response))
                      (with_store_wal srv store (wal_ srv)) (calls s))
              i (ss_request th) (Whole response))
  | Unlocking response => Done (set_mutex (go s (Returning response)) None)
  | Returning response =>
      Done (set_session s i (mkSession (ss_todo th) (ss_request th) Waiting
                               (ss_answers th ++ [(ss_request th, response)]) (ss_entry th)))
  end.

Definition step (i : nat) (s : system) : outcome system :=
  match sessions s !! i with
  | None => Done s
  | Some th =>
      match ss_point th, ss_todo th with
      | Waiting, t :: rest => Done (begin s i th t rest)
      | _, _ => visit_step s i th
      end
  end.

(** What happens next: a thread moves, or the pool counts a task. *)
Inductive move := Thread (i : nat) | Counters (submitted completed : Z).

Definition make_move (m : move) (s : system) : outcome system :=
  match m with
  | Thread i => step i s
  | Counters submitted completed =>
      let srv := server s in
      Done (set_server s (mkServer (options_ srv) (listener_ srv) (bound_port_ srv) (error_ srv)
                            (store_ srv) (wal_ srv) submitted completed) (calls s))
  end.

Fixpoint run (schedule : list move) (s : system) : outcome system :=
  match schedule with
  | [] => Done s
  | m :: schedule => let* s := make_move m s in run schedule s
  end.

(** A server with one session per list of requests. *)
Definition open_sessions (srv : Server L) (e : E) (requests : list (list bytes)) : system :=
  mkSystem srv e None (map (fun ts => mkSession ts [] Waiting [] 0) requests) [].


(** ** The history *)

(** What thread [i] got, in the order of the history. *)
Definition own (i : nat) (h : list (nat * bytes * reply)) : list (bytes * bytes) :=
  omap (fun '(j, t, r) => if decide (i = j) then Some (t, reply_text r) else None) h.

(** A step of thread [i] appends its request, or completes a partial reply. *)
Definition grows (i : nat) (h h' : list (nat * bytes * reply)) : Prop :=
  h' = h
  \/ (exists t r, h' = h ++ [(i, t, r)])
  \/ (exists n t front rest, h !! n = Some (i, t, Partial front)
        /\ h' = <[n := (i, t, Whole (front ++ rest))]> h).

Lemma own_app i h k : own i (h ++ k) = own i h ++ own i k.
Proof. apply omap_app. Qed.

Lemma own_cons_self i t r h : own i ((i, t, r) :: h) = (t, reply_text r) :: own i h.
Proof. unfold own. simpl. by rewrite decide_True. Qed.

Lemma own_cons_other i j t r h : i <> j -> own j ((i, t, r) :: h) = own j h.
Proof. intros Hij. unfold own. simpl. by rewrite decide_False. Qed.

Lemma own_insert_other i j n t r r' h :
  i <> j -> h !! n = Some (i, t, r) -> own j (<[n := (i, t, r')]> h) = own j h.
Proof.
  intros Hij Hn. rewrite insert_take_drop by (by eapply lookup_lt_Some).
  rewrite <- (take_drop_middle h n _ Hn) at 3. by rewrite !own_app, !own_cons_other.
Qed.

Section Grows.
Context (i j : nat) (h h' : list (nat * bytes * reply)).
Context (Hij : i <> j) (Hg : grows i h h').

Lemma grows_own : own j h' = own j h.
Proof.
  destruct Hg as [->|[(t & r & ->)|(n & t & front & rest & Hn & ->)]]; [done| |].
  - by rewrite own_app, own_cons_other, app_nil_r.
  - by eapply own_insert_other.
Qed.

Lemma grows_lookup n t r : h !! n = Some (j, t, r) -> h' !! n = Some (j, t, r).
Proof.
  intros Hn. destruct Hg as [->|[(t' & r' & ->)|(k & t' & front & rest & Hk & ->)]]; [done| |].
  - by apply lookup_app_l_Some.
  - rewrite list_lookup_insert_ne; [done|]. congruence.
Qed.

Lemma grows_take n : (n <= length h)%nat -> own j (take n h') = own j (take n h).
Proof.
  intros Hn. destruct Hg as [->|[(t & r & ->)|(k & t & front & rest & Hk & ->)]]; [done| |].
  - by rewrite take_app_le.
  - rewrite take_insert. destruct (decide (k < n)%nat) as [Hkn|]; [|done].
    eapply own_insert_other; [done|]. by rewrite lookup_take_lt.
Qed.

Lemma grows_drop n : (n <= length h)%nat -> own j (drop n h') = own j (drop n h).
Proof.
  intros Hn. destruct Hg as [->|[(t & r & ->)|(k & t & front & rest & Hk & ->)]]; [done| |].
  - by rewrite drop_app_le, own_app, own_cons_other, app_nil_r.
  - rewrite drop_insert. destruct (decide (n <= k)%nat) as [Hkn|]; [|done].
    eapply own_insert_other; [done|]. rewrite lookup_drop.
    by replace (n + (k - n))%nat with k by lia.
Qed.
End Grows.

(** The requests of the history, in order, as the service would answer them. *)
Definition replies (sv : service) (t : bytes) (r : reply) (sv' : service) : Prop :=
  match r with
  | Whole response => serves sv t response sv'
  | Partial front => forall rest, serves sv t (front ++ rest) sv'
  end.

Inductive linear (sv0 : service) : list (nat * bytes * reply) -> service -> Prop :=
| Linear_nil : linear sv0 [] sv0
| Linear_snoc h sv i t r sv' :
    linear sv0 h sv -> replies sv t r sv' -> linear sv0 (h ++ [(i, t, r)]) sv'.

Lemma linear_complete sv0 h sv n i t front rest :
  linear sv0 h sv -> h !! n = Some (i, t, Partial front) ->
  linear sv0 (<[n := (i, t, Whole (front ++ rest))]> h) sv.
Proof.
  induction 1 as [|h sv j t' r sv' Hl IH Hr]; [done|]. intros Hn. rewrite insert_app.
  apply lookup_app_Some in Hn as [Hn|[Hn Hx]].
  - rewrite decide_True by (by eapply lookup_lt_Some). econstructor; eauto.
  - rewrite decide_False by lia. apply list_lookup_singleton_Some in Hx as [-> [= -> -> ->]].
    econstructor; [done|]. apply Hr.
Qed.

Lemma serves_all_snoc sv0 ts rs sv t r sv' :
  serves_all sv0 ts rs sv -> serves sv t r sv' -> serves_all sv0 (ts ++ [t]) (rs ++ [r]) sv'.
Proof.
  induction 1; intros Hs; simpl.
  - econstructor; [done|constructor].
  - econstructor; eauto.
Qed.

Definition requests_of (h : list (nat * bytes * reply)) : list bytes := map (fun e => snd (fst e)) h.
Definition responses_of (h : list (nat * bytes * reply)) : list bytes :=
  map (fun e => reply_text (snd e)) h.

Lemma linear_serves_all sv0 h sv :
  linear sv0 h sv -> serves_all sv0 (requests_of h) (responses_of h) sv.
Proof.
  unfold requests_of, responses_of. induction 1 as [|h sv i t r sv' Hl IH Hr]; [constructor|].
  rewrite !map_app. simpl. eapply serves_all_snoc; [done|].
  destruct r as [response|front]; simpl; [done|]. specialize (Hr []). by rewrite app_nil_r in Hr.
Qed.

(** ** The invariant *)

Definition holding (p : point) : bool :=
  match p with Appending _ | Applying _ | Unlocking _ => true | _ => false end.

(** What the history holds of a session, by its point. *)
Definition point_ok (h : list (nat * bytes * reply)) (i : nat) (th : session) : Prop :=
  match ss_point th with
  | Waiting => own i h = ss_answers th
  | Reading key => denotes (ss_request th) (Get key) /\ own i h = ss_answers th
  | CountingKeys => denotes (ss_request th) Stats /\ own i h = ss_answers th
  | LoadingSubmitted keys | LoadingCompleted keys _ =>
      h !! ss_entry th = Some (i, ss_request th, Partial (stats_front keys))
      /\ own i (take (ss_entry th) h) = ss_answers th /\ own i (drop (S (ss_entry th)) h) = []
  | Locking m | Appending m | Applying m =>
      (exists c, denotes (ss_request th) c /\ mutation_of c = Some m) /\ own i h = ss_answers th
  | Unlocking response | Returning response =>
      own i h = ss_answers th ++ [(ss_request th, response)]
  end.

Record session_ok (s : system) (i : nat) (th : session) : Prop := mkSessionOk {
  so_fits : Forall (fun t => len t <= kDefaultMaxPayload) (ss_todo th);
  so_request : len (ss_request th) <= kDefaultMaxPayload;
  so_mutex : holding (ss_point th) = true -> mutation_mutex_ s = Some i;
  so_point : point_ok (history s) i th;
}.

(** The log is one mutation ahead of the store while its thread holds the mutex
    between the two. *)
Definition log_ok (s : system) (sv : service) : Prop :=
  match mutation_mutex_ s with
  | None => log_holds (wal_ (server s)) (sv_log sv) (sv_failed sv)
  | Some i =>
      exists th, sessions s !! i = Some th
        /\ match ss_point th with
           | Applying m => sv_failed sv = None
                           /\ log_holds (wal_ (server s)) (sv_log sv ++ [m]) None
           | Appending _ | Unlocking _ => log_holds (wal_ (server s)) (sv_log sv) (sv_failed sv)
           | _ => False
           end
  end.

Record inv (sv0 : service) (s : system) (sv : service) : Prop := mkInv {
  inv_linear : linear sv0 (history s) sv;
  inv_store : store_ (server s) = replay (sv_log sv) empty_store;
  inv_map : values_ (store_ (server s)) = sv_map sv;
  inv_log : log_ok s sv;
  inv_sessions : forall i th, sessions s !! i = Some th -> session_ok s i th;
}.


(** ** The invariant is kept *)

Lemma session_ok_other s s' i j th :
  i <> j -> session_ok s j th -> grows i (history s) (history s') ->
  (mutation_mutex_ s = Some j -> mutation_mutex_ s' = Some j) -> session_ok s' j th.
Proof.
  intros Hij [Hfit Hreq Hmx Hpt] Hg Hm. split; [done|done|auto|].
  unfold point_ok in *. destruct (ss_point th); rewrite ?(grows_own i j _ _ Hij Hg); try done;
    destruct Hpt as (Hn & Ht & Hd); pose proof (lookup_lt_Some _ _ _ Hn);
    (split; [by eapply grows_lookup|]);
    rewrite (grows_take i j _ _ Hij Hg), (grows_drop i j _ _ Hij Hg) by lia; done.
Qed.

(** The mutex stays with its holder unless that is the thread that moves. *)
Definition others_keep (s s' : system) (i : nat) : Prop :=
  forall j, i <> j -> mutation_mutex_ s = Some j -> mutation_mutex_ s' = Some j.

Lemma inv_session_stepped sv0 s sv i th th' s' sv' :
  inv sv0 s sv -> sessions s !! i = Some th -> sessions s' = <[i := th']> (sessions s) ->
  grows i (history s) (history s') -> others_keep s s' i ->
  linear sv0 (history s') sv' -> store_ (server s') = replay (sv_log sv') empty_store ->
  values_ (store_ (server s')) = sv_map sv' -> log_ok s' sv' -> session_ok s' i th' ->
  inv sv0 s' sv'.
Proof.
  intros Hinv Hth Hs Hg Hk Hl Hst Hm Hlog Hok. split; try done.
  intros j thj. rewrite Hs.
  intros [[<- [<- _]]|[Hij Hj]]%list_lookup_insert_Some; [done|].
  eapply session_ok_other; eauto. by apply (inv_sessions _ _ _ Hinv).
Qed.

(** A thread that does not hold the mutex leaves the log to its holder. *)
Lemma log_ok_other s sv i th th' s' :
  log_ok s sv -> sessions s !! i = Some th -> holding (ss_point th) = false ->
  sessions s' = <[i := th']> (sessions s) -> mutation_mutex_ s' = mutation_mutex_ s ->
  wal_ (server s') = wal_ (server s) -> log_ok s' sv.
Proof.
  unfold log_ok. intros Hlog Hth Hh Hs Hm Hw. rewrite Hm, Hw.
  destruct (mutation_mutex_ s) as [j|]; [|done]. destruct Hlog as (thj & Hj & Hlog).
  exists thj. split; [|done]. rewrite Hs, list_lookup_insert_ne; [done|].
  intros ->. simplify_eq. by destruct (ss_point thj).
Qed.

(** The step of a reader: only its point and the history change. *)
Lemma inv_reader sv0 s sv i th th' h :
  inv sv0 s sv -> sessions s !! i = Some th -> holding (ss_point th) = false ->
  holding (ss_point th') = false -> grows i (history s) h -> linear sv0 h sv ->
  Forall (fun t => len t <= kDefaultMaxPayload) (ss_todo th') ->
  len (ss_request th') <= kDefaultMaxPayload -> point_ok h i th' ->
  inv sv0 (mkSystem (server s) (calls s) (mutation_mutex_ s) (<[i := th']> (sessions s)) h) sv.
Proof.
  intros Hinv Hth Hh Hh' Hg Hl Hf Hr Hp.
  eapply (inv_session_stepped _ s sv i th th'); try done; simpl; try apply Hinv.
  - intros j _. done.
  - eapply (log_ok_other s sv i th th'); try done. apply Hinv.
  - split; simpl; try done. rewrite Hh'. done.
Qed.

Lemma own_snoc i t r h : own i (h ++ [(i, t, r)]) = own i h ++ [(t, reply_text r)].
Proof. by rewrite own_app, own_cons_self. Qed.

(** The history when a request takes effect. *)
Lemma effect_linear sv0 h sv i t r sv' :
  linear sv0 h sv -> replies sv t r sv' ->
  grows i h (h ++ [(i, t, r)]) /\ linear sv0 (h ++ [(i, t, r)]) sv'.
Proof. intros Hl Hr. split; [right; left; eauto|by econstructor]. Qed.

Lemma begin_inv sv0 s sv i th t rest :
  inv sv0 s sv -> sessions s !! i = Some th -> ss_point th = Waiting -> ss_todo th = t :: rest ->
  inv sv0 (begin s i th t rest) sv.
Proof.
  intros Hinv Hth Hp Ht. destruct (inv_sessions _ _ _ Hinv i th Hth) as [Hf Hr Hm Hpt].
  unfold point_ok in Hpt. rewrite Hp in Hpt. rewrite Ht in Hf. apply Forall_cons in Hf as [Hft Hf].
  assert (forall r sv', replies sv t r sv' -> linear sv0 (history s ++ [(i, t, r)]) sv'
          /\ grows i (history s) (history s ++ [(i, t, r)])) as Heff.
  { intros r sv' Hrep. destruct (effect_linear sv0 (history s) sv i t r sv'); [apply Hinv|done..]. }
  unfold begin. destruct (parse_command t) as [c|message] eqn:Hparse.
  - apply parse_denotes in Hparse. destruct c as [| |key|key|key value].
    + destruct (Heff (Whole (str "PONG")) sv) as [Hl Hg]; [by apply Sv_ping|].
      apply (inv_reader sv0 s sv i th); try done; [by rewrite Hp|]. simpl.
      unfold point_ok. simpl. by rewrite own_snoc, Hpt.
    + apply (inv_reader sv0 s sv i th); try done; [by rewrite Hp|by left|apply Hinv].
    + apply (inv_reader sv0 s sv i th); try done; [by rewrite Hp|by left|apply Hinv].
    + apply (inv_reader sv0 s sv i th); try done; [by rewrite Hp|by left|apply Hinv|].
      split; [|done]. by exists (Del key).
    + apply (inv_reader sv0 s sv i th); try done; [by rewrite Hp|by left|apply Hinv|].
      split; [|done]. by exists (SetKey key value).
  - destruct (Heff (Whole (str "ERR " ++ message)) sv) as [Hl Hg].
    { apply Sv_malformed. intros c Hc%denotes_parse. congruence. }
    apply (inv_reader sv0 s sv i th); try done; [by rewrite Hp|].
    unfold point_ok. simpl. by rewrite own_snoc, Hpt.
Qed.


Section Steps.
Context (sv0 : service) (s : system) (sv : service) (i : nat) (th : session).
Context (Hinv : inv sv0 s sv) (Hth : sessions s !! i = Some th).

Lemma reading_inv key s' :
  ss_point th = Reading key -> visit_step s i th = Done s' -> inv sv0 s' sv.
Proof.
  intros Hp. destruct (inv_sessions _ _ _ Hinv i th Hth) as [Hf Hr Hm Hpt].
  unfold point_ok in Hpt. rewrite Hp in Hpt. destruct Hpt as [Hden Hown].
  unfold visit_step. rewrite Hp. intros [= <-].
  assert (serves sv (ss_request th)
    (match get (store_ (server s)) key with Some v => str "VALUE " ++ v | None => str "NOT_FOUND" end)
    sv) as Hs.
  { rewrite get_lookup, (inv_map _ _ _ Hinv). destruct (sv_map sv !! key) eqn:Hk;
      [by eapply Sv_found|by eapply Sv_not_found]. }
  set (response := match get _ _ with Some _ => _ | None => _ end) in *.
  destruct (effect_linear sv0 (history s) sv i (ss_request th) (Whole response) sv) as [Hg Hl];
    [apply Hinv|done|].
  apply (inv_reader sv0 s sv i th); try done; [by rewrite Hp|].
  unfold point_ok. simpl. by rewrite own_snoc, Hown.
Qed.

Lemma counting_inv s' :
  ss_point th = CountingKeys -> visit_step s i th = Done s' -> inv sv0 s' sv.
Proof.
  intros Hp. destruct (inv_sessions _ _ _ Hinv i th Hth) as [Hf Hr Hm Hpt].
  unfold point_ok in Hpt. rewrite Hp in Hpt. destruct Hpt as [Hden Hown].
  unfold visit_step. rewrite Hp. intros [= <-].
  set (keys := size (store_ (server s))).
  destruct (effect_linear sv0 (history s) sv i (ss_request th) (Partial (stats_front keys)) sv)
    as [Hg Hl]; [apply Hinv| |].
  { intros rest. unfold stats_front, keys, size. rewrite (inv_map _ _ _ Hinv), <- !app_assoc.
    by apply Sv_stats. }
  apply (inv_reader sv0 s sv i th); try done; [by rewrite Hp|].
  unfold point_ok. simpl. split; [by apply list_lookup_middle|].
  rewrite take_app_le, firstn_all by lia. split; [done|].
  rewrite drop_ge; [done|]. rewrite length_app. simpl. lia.
Qed.

Lemma submitted_inv keys s' :
  ss_point th = LoadingSubmitted keys -> visit_step s i th = Done s' -> inv sv0 s' sv.
Proof.
  intros Hp. destruct (inv_sessions _ _ _ Hinv i th Hth) as [Hf Hr Hm Hpt].
  unfold point_ok in Hpt. rewrite Hp in Hpt. unfold visit_step. rewrite Hp. intros [= <-].
  apply (inv_reader sv0 s sv i th); try done; [by rewrite Hp|by left|apply Hinv].
Qed.

Lemma completed_inv keys submitted s' :
  ss_point th = LoadingCompleted keys submitted -> visit_step s i th = Done s' -> inv sv0 s' sv.
Proof.
  intros Hp. destruct (inv_sessions _ _ _ Hinv i th Hth) as [Hf Hr Hm Hpt].
  unfold point_ok in Hpt. rewrite Hp in Hpt. destruct Hpt as (Hn & Ht & Hd).
  unfold visit_step. rewrite Hp. intros [= <-].
  set (rest := show_unsigned submitted ++ _).
  apply (inv_reader sv0 s sv i th); try done.
  - by rewrite Hp.
  - right. right. do 4 eexists. split; [exact Hn|done].
  - apply (linear_complete _ _ _ _ _ _ (stats_front keys) rest); [apply Hinv|done].
  - unfold point_ok. simpl. rewrite insert_take_drop by (by eapply lookup_lt_Some).
    by rewrite own_app, own_cons_self, Ht, Hd.
Qed.

Lemma returning_inv response s' :
  ss_point th = Returning response -> visit_step s i th = Done s' -> inv sv0 s' sv.
Proof.
  intros Hp. destruct (inv_sessions _ _ _ Hinv i th Hth) as [Hf Hr Hm Hpt].
  unfold point_ok in Hpt. rewrite Hp in Hpt. unfold visit_step. rewrite Hp. intros [= <-].
  apply (inv_reader sv0 s sv i th); try done; [by rewrite Hp|by left|apply Hinv].
Qed.

Lemma locking_inv m s' :
  ss_point th = Locking m -> visit_step s i th = Done s' -> inv sv0 s' sv.
Proof.
  intros Hp. destruct (inv_sessions _ _ _ Hinv i th Hth) as [Hf Hr Hm Hpt].
  unfold point_ok in Hpt. rewrite Hp in Hpt. pose proof (inv_log _ _ _ Hinv) as Hlog.
  unfold log_ok in Hlog. unfold visit_step. rewrite Hp.
  destruct (mutation_mutex_ s) as [j|] eqn:Hmx; intros [= <-]; [done|].
  eapply (inv_session_stepped sv0 s sv i th (at_point th (Appending m))); try done; simpl; try apply Hinv.
  - by left.
  - intros j _. by rewrite Hmx.
  - exists (at_point th (Appending m)). simpl. split; [|done].
    apply list_lookup_insert_eq. by eapply lookup_lt_Some.
Qed.

(** The step of the thread that holds the mutex. *)
Lemma inv_holder srv e th' h sv' :
  holding (ss_point th) = true -> holding (ss_point th') = true ->
  grows i (history s) h -> linear sv0 h sv' ->
  store_ srv = replay (sv_log sv') empty_store -> values_ (store_ srv) = sv_map sv' ->
  match ss_point th' with
  | Applying m => sv_failed sv' = None /\ log_holds (wal_ srv) (sv_log sv' ++ [m]) None
  | _ => log_holds (wal_ srv) (sv_log sv') (sv_failed sv')
  end ->
  ss_todo th' = ss_todo th -> ss_request th' = ss_request th -> point_ok h i th' ->
  inv sv0 (mkSystem srv e (mutation_mutex_ s) (<[i := th']> (sessions s)) h) sv'.
Proof.
  intros Hh Hh' Hg Hl Hst Hmp Hlog Htodo Hreq Hpt.
  destruct (inv_sessions _ _ _ Hinv i th Hth) as [Hf Hr Hm _]. specialize (Hm Hh).
  eapply (inv_session_stepped sv0 s sv i th th'); try done; simpl.
  - intros j _. done.
  - unfold log_ok. simpl. rewrite Hm. exists th'. simpl.
    split; [apply list_lookup_insert_eq; by eapply lookup_lt_Some|].
    by destruct (ss_point th').
  - split; simpl; [by rewrite Htodo|by rewrite Hreq|done|done].
Qed.

Lemma appending_inv m s' :
  ss_point th = Appending m -> visit_step s i th = Done s' -> exists sv', inv sv0 s' sv'.
Proof.
  intros Hp. destruct (inv_sessions _ _ _ Hinv i th Hth) as [Hf Hr Hm Hpt].
  unfold point_ok in Hpt. rewrite Hp in Hpt, Hm. destruct Hpt as [(c & Hden & Hc) Hown].
  assert (wf_mutation m) as Hwf
    by (eapply request_mutation_wf; [by apply denotes_parse|done|done]).
  pose proof (inv_log _ _ _ Hinv) as Hlog. unfold log_ok in Hlog. rewrite Hm in Hlog by done.
  destruct Hlog as (th0 & Hth0 & Hlog). simplify_eq. rewrite Hp in Hlog.
  unfold visit_step. rewrite Hp.
  destruct (log_append m (wal_ (server s)) (calls s)) as [[[appended wal] e]| | | |] eqn:Ha;
    [|done..|by intros [= <-]; exists sv|done].
  destruct (sv_failed sv) as [m0|] eqn:Hfail.
  - rewrite (log_append_latched m0 m _ _ _ Hlog) in Ha. simplify_eq. intros [= <-]. exists sv.
    destruct (effect_linear sv0 (history s) sv i (ss_request th) (Whole (str "ERR WAL failure")) sv)
      as [Hg Hl]; [apply Hinv|by eapply Sv_log_closed|].
    apply inv_holder; simpl; try done; [by rewrite Hp|apply Hinv..| |].
    + by rewrite Hfail.
    + unfold point_ok. simpl. by rewrite own_snoc, Hown.
  - destruct appended; intros [= <-].
    + exists sv. apply inv_holder; simpl; try done; [by rewrite Hp|by left|apply Hinv..| |].
      * split; [done|]. by eapply log_append_ok.
      * split; [by exists c|done].
    + exists (mkService (sv_map sv) (sv_log sv) (Some m)).
      destruct (effect_linear sv0 (history s) sv i (ss_request th) (Whole (str "ERR WAL failure"))
        (mkService (sv_map sv) (sv_log sv) (Some m))) as [Hg Hl];
        [apply Hinv|by eapply Sv_log_failure|].
      apply inv_holder; simpl; try done; [by rewrite Hp|apply Hinv..| |].
      * by eapply log_append_failed.
      * unfold point_ok. simpl. by rewrite own_snoc, Hown.
Qed.
(** The store's part of a mutation, with its response. *)
Definition apply_response (m : mutation) (store : KvStore) : bytes :=
  match m with
  | MSet _ _ => str "OK"
  | MDel key => if fst (erase store key) then str "DELETED" else str "NOT_FOUND"
  end.

Lemma applying_step m :
  ss_point th = Applying m ->
  visit_step s i th =
  Done (effect (set_server (set_session s i (at_point th (Unlocking (apply_response m
                                                            (store_ (server s))))))
                  (with_store_wal (server s) (apply_mutation m (store_ (server s)))
                     (wal_ (server s))) (calls s))
          i (ss_request th) (Whole (apply_response m (store_ (server s))))).
Proof.
  intros Hp. unfold visit_step. rewrite Hp. destruct m as [key value|key]; [done|]. simpl.
  by destruct (erase (store_ (server s)) key).
Qed.

Lemma applying_inv m s' :
  ss_point th = Applying m -> visit_step s i th = Done s' -> exists sv', inv sv0 s' sv'.
Proof.
  intros Hp. destruct (inv_sessions _ _ _ Hinv i th Hth) as [Hf Hr Hm Hpt].
  unfold point_ok in Hpt. rewrite Hp in Hpt, Hm. destruct Hpt as [(c & Hden & Hc) Hown].
  pose proof (inv_log _ _ _ Hinv) as Hlog. unfold log_ok in Hlog. rewrite Hm in Hlog by done.
  destruct Hlog as (th0 & Hth0 & Hlog). simplify_eq. rewrite Hp in Hlog.
  destruct Hlog as [Hfail Hlog]. rewrite (applying_step m Hp). intros [= <-].
  pose proof (inv_map _ _ _ Hinv) as Hmap.
  set (store := apply_mutation m (store_ (server s))).
  set (response := apply_response m (store_ (server s))).
  exists (mkService (values_ store) (sv_log sv ++ [m]) None).
  assert (serves sv (ss_request th) response (mkService (values_ store) (sv_log sv ++ [m]) None))
    as Hs.
  { unfold response, store. destruct c as [| | |key|key value]; try discriminate; simplify_eq/=.
    - rewrite erase_fst, erase_values, Hmap. destruct (sv_map sv !! key) eqn:Hk; simpl.
      + by eapply Sv_deleted.
      + rewrite delete_id by done. by apply Sv_delete_nothing.
    - rewrite Hmap. by apply Sv_set. }
  destruct (effect_linear sv0 (history s) sv i (ss_request th) (Whole response)
    (mkService (values_ store) (sv_log sv ++ [m]) None)) as [Hg Hl]; [apply Hinv|done|].
  apply inv_holder; simpl; try done; [by rewrite Hp| |].
  - by rewrite replay_app, <- (inv_store _ _ _ Hinv).
  - unfold point_ok. simpl. by rewrite own_snoc, Hown.
Qed.

Lemma unlocking_inv response s' :
  ss_point th = Unlocking response -> visit_step s i th = Done s' -> inv sv0 s' sv.
Proof.
  intros Hp. destruct (inv_sessions _ _ _ Hinv i th Hth) as [Hf Hr Hm Hpt].
  unfold point_ok in Hpt. rewrite Hp in Hpt, Hm. pose proof (inv_log _ _ _ Hinv) as Hlog.
  unfold log_ok in Hlog. rewrite Hm in Hlog by done. destruct Hlog as (th0 & Hth0 & Hlog).
  simplify_eq. rewrite Hp in Hlog. unfold visit_step. rewrite Hp. intros [= <-].
  eapply (inv_session_stepped sv0 s sv i th (at_point th (Returning response))); try done; simpl;
    try apply Hinv.
  - by left.
  - intros j Hij. rewrite Hm by done. intros [= ->]. done.
Qed.

(** A step never throws and has no undefined behaviour. *)
Lemma visit_step_total : exists s', visit_step s i th = Done s'.
Proof.
  destruct (inv_sessions _ _ _ Hinv i th Hth) as [Hf Hr Hm Hpt]. unfold point_ok in Hpt.
  unfold visit_step. destruct (ss_point th) as [| | | | |m|m|m| |]; eauto.
  - destruct (mutation_mutex_ s); eauto.
  - destruct Hpt as [(c & Hden & Hc) _].
    pose proof (log_append_returns m (wal_ (server s)) (calls s)
      (request_mutation_wf _ _ _ (denotes_parse _ _ Hden) Hr Hc)).
    destruct (log_append m (wal_ (server s)) (calls s)) as [[[[|] wal] e]| | | |]; try done; eauto.
  - destruct m as [|key]; [eauto|]. destruct (erase (store_ (server s)) key). eauto.
Qed.

Lemma visit_step_inv : exists s' sv', visit_step s i th = Done s' /\ inv sv0 s' sv'.
Proof.
  destruct visit_step_total as (s' & Hs'). exists s'.
  destruct (ss_point th) eqn:Hp.
  - exists sv. split; [done|]. unfold visit_step in Hs'. rewrite Hp in Hs'. by injection Hs' as <-.
  - eauto using reading_inv.
  - eauto using counting_inv.
  - eauto using submitted_inv.
  - eauto using completed_inv.
  - eauto using locking_inv.
  - destruct (appending_inv m s' Hp Hs') as (sv' & ?). eauto.
  - destruct (applying_inv m s' Hp Hs') as (sv' & ?). eauto.
  - eauto using unlocking_inv.
  - eauto using returning_inv.
Qed.
End Steps.

Lemma request_step_inv sv0 s sv i :
  inv sv0 s sv -> exists s' sv', step i s = Done s' /\ inv sv0 s' sv'.
Proof.
  intros Hinv. unfold step. destruct (sessions s !! i) as [th|] eqn:Hth; [|eauto].
  destruct (ss_point th) eqn:Hp; try (by eapply visit_step_inv).
  destruct (ss_todo th) as [|t rest] eqn:Ht; [by eapply visit_step_inv|].
  eexists _, sv. split; [done|]. by eapply begin_inv.
Qed.

Lemma counters_inv sv0 s sv submitted completed :
  inv sv0 s sv -> exists s', make_move (Counters submitted completed) s = Done s' /\ inv sv0 s' sv.
Proof.
  intros [Hl Hst Hm Hlog Hs]. eexists. split; [done|]. split; simpl; try done.
  intros i th Hth. destruct (Hs i th Hth). by split.
Qed.

Lemma requests_run_inv sv0 schedule s sv :
  inv sv0 s sv -> exists s' sv', run schedule s = Done s' /\ inv sv0 s' sv'.
Proof.
  revert s sv. induction schedule as [|[i|sub comp] schedule IH]; intros s sv Hinv; simpl; [eauto| |].
  - destruct (request_step_inv sv0 s sv i Hinv) as (s1 & sv1 & -> & H1). by eapply IH.
  - destruct (counters_inv sv0 s sv sub comp Hinv) as (s1 & [= <-] & H1). by eapply IH.
Qed.

Lemma open_sessions_inv srv e requests sv :
  represents srv sv ->
  Forall (Forall (fun t => len t <= kDefaultMaxPayload)) requests ->
  inv sv (open_sessions srv e requests) sv.
Proof.
  intros (Hlog & Hst & Hmap) Hreq. split; simpl; try done; [constructor|].
  intros i th Hth. rewrite list_lookup_fmap in Hth.
  destruct (requests !! i) as [ts|] eqn:Hts; [|done]. injection Hth as <-.
  split; simpl; try done. by apply (Forall_lookup_1 _ _ _ _ Hreq Hts).
Qed.


(** *** Order *)

Lemma grows_prefix i h h' : grows i h h' -> map fst h `prefix_of` map fst h'.
Proof.
  intros [->|[(t & r & ->)|(n & t & front & rest & Hn & ->)]]; [done| |].
  - rewrite map_app. by apply prefix_app_r.
  - change (map fst) with (@fmap list list_fmap _ _ (@fst (nat * bytes) reply)).
    rewrite list_fmap_insert, list_insert_id; [done|]. by rewrite list_lookup_fmap, Hn.
Qed.

Lemma step_grows sv0 s sv i s' :
  inv sv0 s sv -> step i s = Done s' -> map fst (history s) `prefix_of` map fst (history s').
Proof.
  intros Hinv. unfold step. destruct (sessions s !! i) as [th|] eqn:Hth; [|by intros [= ->]].
  pose proof (so_point _ _ _ (inv_sessions _ _ _ Hinv i th Hth)) as Hpt. unfold point_ok in Hpt.
  assert (forall t r, map fst (history s) `prefix_of` map fst (history s ++ [(i, t, r)])) as Happ
    by (intros; rewrite map_app; by apply prefix_app_r).
  destruct (ss_point th) as [| | |keys|keys sub|m|m|m| |] eqn:Hp; unfold visit_step; rewrite ?Hp.
  - destruct (ss_todo th); [by intros [= ->]|]. intros [= <-]. unfold begin.
    destruct (parse_command _) as [[]|]; simpl; auto.
  - intros [= <-]. apply Happ.
  - intros [= <-]. apply Happ.
  - by intros [= <-].
  - intros [= <-]. eapply (grows_prefix i). right. right. do 4 eexists. split; [apply Hpt|done].
  - destruct (mutation_mutex_ s); by intros [= <-].
  - destruct (log_append m _ _) as [[[[|] wal] e]| | | |]; try done; intros [= <-]; [done|apply Happ|done].
  - destruct m as [|key]; [|destruct (erase _ key)]; intros [= <-]; apply Happ.
  - by intros [= <-].
  - by intros [= <-].
Qed.

Lemma run_grows sv0 schedule s sv s' :
  inv sv0 s sv -> run schedule s = Done s' -> map fst (history s) `prefix_of` map fst (history s').
Proof.
  revert s sv. induction schedule as [|[i|sub comp] schedule IH]; intros s sv Hinv; simpl;
    [by intros [= ->]| |].
  - destruct (request_step_inv sv0 s sv i Hinv) as (s1 & sv1 & Hs & H1). rewrite Hs. simpl.
    intros Hr. etransitivity; [by eapply step_grows|by eapply IH].
  - destruct (counters_inv sv0 s sv sub comp Hinv) as (s1 & [= <-] & H1). intros Hr.
    by apply (IH _ sv H1).
Qed.

(** What a session was asked: the requests answered, in progress and to come. *)
Definition asked (th : session) : list bytes :=
  map fst (ss_answers th)
  ++ match ss_point th with Waiting => [] | _ => [ss_request th] end ++ ss_todo th.

Lemma asked_insert (ss : list session) i th th' :
  ss !! i = Some th -> asked th' = asked th -> map asked (<[i := th']> ss) = map asked ss.
Proof.
  intros Hth Ha. change (map asked) with (@fmap list list_fmap _ _ asked).
  rewrite list_fmap_insert, Ha. apply list_insert_id. by rewrite list_lookup_fmap, Hth.
Qed.

Lemma step_asked i s s' : step i s = Done s' -> map asked (sessions s') = map asked (sessions s).
Proof.
  unfold step. destruct (sessions s !! i) as [th|] eqn:Hth; [|by intros [= ->]].
  assert (forall p, ss_point th <> Waiting -> p <> Waiting ->
    map asked (<[i := at_point th p]> (sessions s)) = map asked (sessions s)) as Hgo.
  { intros p Hw Hp. apply (asked_insert _ _ th); [done|]. unfold asked. simpl.
    destruct (ss_point th), p; done. }
  destruct (ss_point th) as [| | |keys|keys sub|m|m|m| |] eqn:Hp; unfold visit_step; rewrite ?Hp.
  - destruct (ss_todo th) as [|t rest] eqn:Ht; [by intros [= ->]|]. intros [= <-]. unfold begin.
    destruct (parse_command t) as [[]|]; simpl; apply (asked_insert _ _ th); try done;
      unfold asked; simpl; by rewrite Hp, Ht.
  - intros [= <-]. by apply Hgo.
  - intros [= <-]. simpl. apply (asked_insert _ _ th); [done|]. unfold asked. simpl. by rewrite Hp.
  - intros [= <-]. by apply Hgo.
  - intros [= <-]. by apply Hgo.
  - destruct (mutation_mutex_ s); intros [= <-]; [done|by apply Hgo].
  - destruct (log_append m _ _) as [[[[|] wal] e]| | | |]; try done; intros [= <-]; try done; by apply Hgo.
  - destruct m as [|key]; [|destruct (erase _ key)]; intros [= <-]; by apply Hgo.
  - intros [= <-]. by apply Hgo.
  - intros [= <-]. simpl. apply (asked_insert _ _ th); [done|]. unfold asked. simpl.
    by rewrite Hp, map_app, <- app_assoc.
Qed.

Lemma run_asked schedule s s' :
  run schedule s = Done s' -> map asked (sessions s') = map asked (sessions s).
Proof.
  revert s. induction schedule as [|[i|sub comp] schedule IH]; intros s; simpl; [by intros [= ->]| |].
  - intros (s1 & Hs & Hr)%obind_Done_inv. rewrite (IH _ Hr). by eapply step_asked.
  - intros Hr. by rewrite (IH _ Hr).
Qed.

(** The part of the history that a session has not reported yet. *)
Lemma own_pending s i th :
  session_ok s i th ->
  exists pending, own i (history s) = ss_answers th ++ pending /\ (length pending <= 1)%nat
                  /\ (ss_point th = Waiting -> pending = []).
Proof.
  intros [_ _ _ Hpt]. unfold point_ok in Hpt.
  destruct (ss_point th) as [| | |keys|keys sub|m|m|m| |] eqn:Hp;
    try (exists []; rewrite app_nil_r; split; [apply Hpt|split; [simpl; lia|done]]);
    try (eexists; split; [exact Hpt|split; [simpl; lia|done]]);
    destruct Hpt as (Hn & Ht & Hd); eexists [_];
    rewrite <- (take_drop_middle _ _ _ Hn), own_app, own_cons_self, Ht, Hd;
    (split; [done|split; [simpl; lia|done]]).
Qed.


(** *** A request that runs alone *)

Section Alone.
Context (i : nat).

(** Thread [i] alone reaches the end of the request with this response. *)
Definition ends (s : system) (th : session) (k : nat) (r : bytes) (srv : Server L) (e : E) : Prop :=
  exists s' entry, run (replicate k (Thread i)) s = Done s'
    /\ server s' = srv /\ calls s' = e /\ mutation_mutex_ s' = None
    /\ sessions s' = <[i := mkSession (ss_todo th) (ss_request th) Waiting
                            (ss_answers th ++ [(ss_request th, r)]) entry]> (sessions s).

(** One step of the way: the session has moved on to [th']. *)
Lemma ends_step s th th' s1 k r srv e :
  sessions s !! i = Some th -> ss_point th <> Waiting -> visit_step s i th = Done s1 ->
  sessions s1 = <[i := th']> (sessions s) ->
  ss_todo th' = ss_todo th -> ss_request th' = ss_request th -> ss_answers th' = ss_answers th ->
  (sessions s1 !! i = Some th' -> ends s1 th' k r srv e) -> ends s th (S k) r srv e.
Proof.
  intros Hth Hw Hs Hss Ht Hr Ha Hends.
  destruct Hends as (s' & entry & Hrun & Hsrv & He & Hm & Hs').
  { rewrite Hss. apply list_lookup_insert_eq. by eapply lookup_lt_Some. }
  exists s', entry. split.
  - simpl. unfold step. rewrite Hth. destruct (ss_point th); try done; by rewrite Hs.
  - rewrite Hs', Hss, list_insert_insert_eq, Ht, Hr, Ha. done.
Qed.

Lemma ends_returning s th r srv e :
  sessions s !! i = Some th -> ss_point th = Returning r -> server s = srv -> calls s = e ->
  mutation_mutex_ s = None -> ends s th 1 r srv e.
Proof.
  intros Hth Hp <- <- Hm. unfold ends. simpl. unfold step, visit_step. rewrite Hth, Hp. simpl.
  do 2 eexists. split; [done|]. done.
Qed.

Lemma ends_mutation s th m r srv e :
  sessions s !! i = Some th -> ss_point th = Locking m -> mutation_mutex_ s = None ->
  mutate m (apply_response m (store_ (server s))) (server s) (calls s) = Done (r, srv, e) ->
  exists k, (k <= 5)%nat /\ ends s th k r srv e.
Proof.
  intros Hth Hp Hmx. unfold mutate. intros ([[appended wal] e1] & Ha & Hr)%obind_Done_inv.
  assert (forall s1 th1 r1 srv1 e2, sessions s1 !! i = Some th1 -> ss_point th1 = Unlocking r1 ->
    server s1 = srv1 -> calls s1 = e2 -> ends s1 th1 2 r1 srv1 e2) as Hunlock.
  { intros s1 th1 r1 srv1 e2 Hth1 Hp1 Hsrv He.
    eapply (ends_step _ _ (at_point th1 (Returning r1))); eauto; 
      [by rewrite Hp1|unfold visit_step; by rewrite Hp1|done|].
    intros Hth2. by apply ends_returning. }
  assert (exists k, (k <= 3)%nat /\ forall s1 th1, sessions s1 !! i = Some th1 ->
    ss_point th1 = Appending m -> server s1 = server s -> calls s1 = calls s ->
    ends s1 th1 (S k) r srv e) as (k & Hk & Happ).
  { destruct appended; injection Hr as <- <- <-.
    - exists 3%nat. split; [done|]. intros s1 th1 Hth1 Hp1 Hsrv He.
      eapply (ends_step _ _ (at_point th1 (Applying m))); eauto;
        [by rewrite Hp1|unfold visit_step; by rewrite Hp1, Hsrv, He, Ha|done|].
      intros Hth2. eapply (ends_step _ _ (at_point (at_point th1 (Applying m))
        (Unlocking (apply_response m (store_ (server s)))))); eauto;
        [by rewrite (applying_step _ i _ m)|done|].
      intros Hth3. by apply Hunlock.
    - exists 2%nat. split; [lia|]. intros s1 th1 Hth1 Hp1 Hsrv He.
      eapply (ends_step _ _ (at_point th1 (Unlocking (str "ERR WAL failure")))); eauto;
        [by rewrite Hp1|unfold visit_step; by rewrite Hp1, Hsrv, He, Ha|done|].
      intros Hth2. by apply Hunlock. }
  exists (S (S k)). split; [lia|].
  eapply (ends_step _ _ (at_point th (Appending m)));
    [done|by rewrite Hp|unfold visit_step; by rewrite Hp, Hmx|done..|].
  intros Hth1. by apply Happ.
Qed.

Lemma ends_parsed s th c r srv e :
  sessions s !! i = Some th -> mutation_mutex_ s = None ->
  ss_point th = match c with
                | Ping => Returning (str "PONG")
                | Stats => CountingKeys
                | Get key => Reading key
                | Del key => Locking (MDel key)
                | SetKey key value => Locking (MSet key value)
                end ->
  visit c (server s) (calls s) = Done (r, srv, e) ->
  exists k, (k <= 5)%nat /\ ends s th k r srv e.
Proof.
  intros Hth Hmx Hp. destruct c as [| |key|key|key value].
  - intros [= <- <- <-]. exists 1%nat. split; [lia|]. by apply ends_returning.
  - intros [= <- <- <-]. exists 4%nat. split; [lia|].
    eapply (ends_step _ _ (mkSession (ss_todo th) (ss_request th)
      (LoadingSubmitted (size (store_ (server s)))) (ss_answers th) (length (history s))));
      [done|by rewrite Hp|unfold visit_step; by rewrite Hp|done..|]. intros Hth1.
    eapply (ends_step _ _ (mkSession (ss_todo th) (ss_request th)
      (LoadingCompleted (size (store_ (server s))) (submitted_ (server s))) (ss_answers th)
      (length (history s)))); [done|done|reflexivity|done..|]. intros Hth2.
    eapply (ends_step _ _ (mkSession (ss_todo th) (ss_request th) (Returning _) (ss_answers th)
      (length (history s)))); [done|done|reflexivity|done..|]. intros Hth3.
    apply ends_returning; try done. unfold stats_front. by rewrite <- !app_assoc.
  - intros [= <- <- <-]. exists 2%nat. split; [lia|].
    eapply (ends_step _ _ (at_point th (Returning _)));
      [done|by rewrite Hp|unfold visit_step; by rewrite Hp|done..|].
    intros Hth1. by apply ends_returning.
  - rewrite visit_del. intros Hv. by eapply (ends_mutation s th (MDel key)).
  - rewrite visit_set. intros Hv. by eapply (ends_mutation s th (MSet key value)).
Qed.
End Alone.


(** The log against the service: the same mutations, or one more that its thread
    is about to apply. *)
Definition log_matches (s : system) (sv : service) : Prop :=
  log_holds (wal_ (server s)) (sv_log sv) (sv_failed sv)
  \/ exists i th m, sessions s !! i = Some th /\ ss_point th = Applying m
       /\ sv_failed sv = None /\ log_holds (wal_ (server s)) (sv_log sv ++ [m]) None.

Lemma log_ok_matches s sv : log_ok s sv -> log_matches s sv.
Proof.
  unfold log_ok. destruct (mutation_mutex_ s) as [i|]; [|by left].
  intros (th & Hth & Hlog). destruct (ss_point th) as [| | | | | | |m| |] eqn:Hp; try done;
    [by left| |by left].
  right. exists i, th, m. by destruct Hlog.
Qed.

(** ** Properties *)

(** C7: concurrent requests take effect one at a time.  Whatever requests the
    sessions of a server make, and however their threads are interleaved, no
    step throws or is undefined, and the requests are answered as the service
    answers them in the order of the history: each session gets its answers in
    the order of its requests, the store is the map of the service, and the log
    holds the mutations of the service in the same order, ahead of the store by
    the one its thread is about to apply at most.  A request enters the history
    while it is being executed: what had taken effect at an earlier time stays
    in front. *)
Theorem concurrent_requests_linearize srv e requests sv0 schedule1 schedule2 :
  represents srv sv0 -> Forall (Forall (fun t => len t <= kDefaultMaxPayload)) requests ->
  exists s1 s sv,
    run schedule1 (open_sessions srv e requests) = Done s1 /\ run schedule2 s1 = Done s
    /\ serves_all sv0 (requests_of (history s)) (responses_of (history s)) sv
    /\ values_ (store_ (server s)) = sv_map sv /\ log_matches s sv
    /\ map asked (sessions s) = requests
    /\ (forall i th, sessions s !! i = Some th ->
          exists pending, own i (history s) = ss_answers th ++ pending
            /\ (length pending <= 1)%nat /\ (ss_point th = Waiting -> pending = []))
    /\ map fst (history s1) `prefix_of` map fst (history s).
Proof.
  intros Hrep Hreq. pose proof (open_sessions_inv srv e requests sv0 Hrep Hreq) as Hinv.
  destruct (requests_run_inv sv0 schedule1 _ _ Hinv) as (s1 & sv1 & Hr1 & H1).
  destruct (requests_run_inv sv0 schedule2 _ _ H1) as (s & sv & Hr2 & H2).
  exists s1, s, sv. do 2 (split; [done|]). split; [by apply linear_serves_all, H2|].
  split; [apply H2|]. split; [apply log_ok_matches, H2|]. split.
  - rewrite (run_asked _ _ _ Hr2), (run_asked _ _ _ Hr1). simpl. rewrite map_map.
    apply map_id.
  - split; [|by eapply run_grows]. intros i th Hth. by apply own_pending, H2.
Qed.

(** The steps of a request are the request.  A request whose thread runs
    alone, with the mutex free, ends after at most six steps with exactly the
    response and the server state of [execute]. *)
Theorem request_alone_is_execute s i th t rest r srv e :
  sessions s !! i = Some th -> ss_point th = Waiting -> ss_todo th = t :: rest ->
  mutation_mutex_ s = None -> execute t (server s) (calls s) = Done (r, srv, e) ->
  exists k s' entry, (k <= 6)%nat /\ run (replicate k (Thread i)) s = Done s'
    /\ server s' = srv /\ calls s' = e /\ mutation_mutex_ s' = None
    /\ sessions s' = <[i := mkSession rest t Waiting (ss_answers th ++ [(t, r)]) entry]> (sessions s).
Proof.
  intros Hth Hp Ht Hmx Hx.
  assert (exists p, sessions (begin s i th t rest)
      = <[i := mkSession rest t p (ss_answers th) (ss_entry th)]> (sessions s)
    /\ exists k, (k <= 5)%nat /\ ends i (begin s i th t rest)
         (mkSession rest t p (ss_answers th) (ss_entry th)) k r srv e) as Hbegin.
  { pose proof (lookup_lt_Some _ _ _ Hth) as Hlt. unfold execute in Hx. unfold begin.
    assert (forall p, <[i := mkSession rest t p (ss_answers th) (ss_entry th)]> (sessions s) !! i
      = Some (mkSession rest t p (ss_answers th) (ss_entry th))) as Hins
      by (intros; by apply list_lookup_insert_eq).
    destruct (parse_command t) as [c|message].
    - destruct c; eexists; simpl; (split; [done|]); (eapply ends_parsed; [apply Hins|done| |exact Hx]); done.
    - injection Hx as <- <- <-. eexists. simpl. split; [done|]. exists 1%nat. split; [lia|].
      by apply ends_returning; [apply Hins|..]. }
  destruct Hbegin as (p & Hss & k & Hk & s' & entry & Hrun & Hsrv & He & Hm & Hs').
  exists (S k), s', entry. split; [lia|]. split.
  - simpl. unfold step. by rewrite Hth, Hp, Ht.
  - rewrite Hs', Hss, list_insert_insert_eq. done.
Qed.

End Concurrent.

(** ** Restart after a crash *)

Lemma step_path `{Host} i (s s' : @system Wal append_env) :
  step i s = Done s' -> path_ (wal_ (server s')) = path_ (wal_ (server s)).
Proof.
  unfold step. destruct (sessions s !! i) as [th|]; [|by intros [= ->]].
  destruct (ss_point th) as [| | | | |m|m|m| |] eqn:Hp; unfold visit_step; rewrite ?Hp;
    try (by intros [= <-]).
  - destruct (ss_todo th); [by intros [= ->]|]. intros [= <-]. unfold begin.
    by destruct (parse_command _) as [[]|].
  - destruct (mutation_mutex_ s); by intros [= <-].
  - change (log_append m (wal_ (server s)) (calls s))
      with (append_mutation m (wal_ (server s)) (calls s)).
    destruct (append_mutation m (wal_ (server s)) (calls s)) as [[[b wal] e]| | | |] eqn:Ha;
      try done; [|by intros [= ->]].
    apply append_path in Ha. by destruct b; intros [= <-].
  - destruct m as [|key]; [|destruct (erase _ key)]; by intros [= <-].
Qed.

Lemma run_path `{Host} schedule (s s' : @system Wal append_env) :
  run schedule s = Done s' -> path_ (wal_ (server s')) = path_ (wal_ (server s)).
Proof.
  revert s. induction schedule as [|[i|sub comp] schedule IH]; intros s; simpl; [by intros [= ->]| |].
  - intros (s1 & Hs & Hr)%obind_Done_inv. rewrite (IH _ Hr). by eapply step_path.
  - intros Hr. by rewrite (IH _ Hr).
Qed.


(** ** Witnesses *)

(** Two sessions: one sets a key, the other reads it and asks for the counters
    while the first holds the mutex. *)
Definition ex_sessions : list (list bytes) := [[str "SET k v"]; [str "GET k"; str "STATS"]].
Definition ex_schedule : list move :=
  [Thread 0; Thread 0; Thread 0; Thread 1; Thread 1; Thread 0; Thread 1; Thread 1; Thread 1;
   Counters 3 1; Thread 1; Thread 1; Thread 1].
Definition ex_open : @system Wal append_env := open_sessions ex_server ex_env ex_sessions.
Definition ex_reached : @system Wal append_env :=
  match @run Wal append_env (@wal_durable_log little) ex_schedule ex_open with
  | Done s => s
  | _ => ex_open
  end.

Lemma ex_sessions_fit : Forall (Forall (fun t => len t <= kDefaultMaxPayload)) ex_sessions.
Proof. repeat constructor; vm_compute; discriminate. Qed.

Lemma concurrent_requests_linearize_witness :
  exists s1 s sv,
    @run Wal append_env (@wal_durable_log little) (take 5 ex_schedule) ex_open = Done s1
    /\ @run Wal append_env (@wal_durable_log little) (drop 5 ex_schedule) s1 = Done s
    /\ serves_all ex_service (requests_of (history s)) (responses_of (history s)) sv
    /\ values_ (store_ (server s)) = sv_map sv
    /\ @log_matches Wal append_env (@wal_durable_log little) s sv
    /\ map asked (sessions s) = ex_sessions
    /\ (forall i th, sessions s !! i = Some th ->
          exists pending, own i (history s) = ss_answers th ++ pending
            /\ (length pending <= 1)%nat /\ (ss_point th = Waiting -> pending = []))
    /\ map fst (history s1) `prefix_of` map fst (history s).
Proof.
  apply (@concurrent_requests_linearize Wal append_env (@wal_durable_log little) ex_server ex_env
    ex_sessions ex_service (take 5 ex_schedule) (drop 5 ex_schedule)).
  - apply ex_represents.
  - apply ex_sessions_fit.
Defined.

Lemma request_alone_is_execute_witness :
  exists k s' entry, (k <= 6)%nat
    /\ @run Wal append_env (@wal_durable_log little) (replicate k (Thread 0)) ex_open = Done s'
    /\ server s' = ex_server1 /\ calls s' = mkAppendEnv [] [] /\ mutation_mutex_ s' = None
    /\ sessions s' = <[0%nat := mkSession [] (str "SET k v") Waiting [(str "SET k v", str "OK")]
                                entry]> (sessions ex_open).
Proof.
  apply (@request_alone_is_execute Wal append_env (@wal_durable_log little) ex_open 0
    (mkSession [str "SET k v"] [] Waiting [] 0) (str "SET k v") []); reflexivity.
Defined.

(** The crash comes when the record is synced and the store not yet updated. *)
Definition ex_applying : @system Wal append_env :=
  match @run Wal append_env (@wal_durable_log little) (take 3 ex_schedule) ex_open with
  | Done s => s
  | _ => ex_open
  end.

