(* ===== verification/Client.v ===== *)
(** * The client ([capstone/reference/src/client.cpp])

    [request] resolves the host, connects to the first address that answers
    within two seconds, sends one command and reads one response.  What the
    system calls return is the environment.  The last theorem runs the client
    against the server's session ([Server.v]). *)

From stdpp Require Import base gmap list strings.
From Stdlib Require Import Strings.Byte ZArith Lia.
From S2P Require Import Prelude ByteOrder Posix Protocol Commands Store DurableLog Wal Server Startup.

Record ClientResult := mkClientResult {
  cr_ok : bool;
  cr_response : bytes;
  cr_error : bytes;
}.

(** ** Connecting *)

Definition O_NONBLOCK : Z := 2048.

(** One turn of the wait: the time left to the deadline when the clock is read,
    in nanoseconds, and what [poll] then returns. *)
Inductive poll_return := PollFailed (e : Z) | PollTimeout | PollReady.
Record poll_turn := mkPollTurn { pt_left : Z; pt_poll : poll_return }.

Record connect_env := mkConnectEnv {
  cn_getfl : Z;
  cn_getfl_errno : Z;
  cn_setfl : Z;
  cn_setfl_errno : Z;
  cn_connect : Z;
  cn_connect_errno : Z;
  cn_polls : list poll_turn;
  cn_getsockopt : Z;
  cn_getsockopt_errno : Z;
  cn_socket_error : Z;
  cn_restore : Z;
  cn_restore_errno : Z;
}.

(** The result and [errno] of [restore_blocking_mode]. *)
Definition restore_blocking_mode (env : connect_env) (result_error : Z) : bool * Z :=
  let result_error :=
    if negb (cn_restore env =? 0) && (result_error =? 0) then cn_restore_errno env
    else result_error in
  (result_error =? 0, result_error).

(** The [while (true)] of [connect_with_timeout]: the error it ends with. *)
Fixpoint await_connection (polls : list poll_turn) (env : connect_env) : outcome Z :=
  match polls with
  | [] => Blocked
  | turn :: rest =>
      let remaining := Z.quot (pt_left turn) 1000000 in
      if remaining <=? 0 then Done ETIMEDOUT
      else match pt_poll turn with
           | PollFailed e => if e =? EINTR then await_connection rest env else Done e
           | PollTimeout => Done ETIMEDOUT
           | PollReady =>
               if negb (cn_getsockopt env =? 0) then Done (cn_getsockopt_errno env)
               else Done (cn_socket_error env)
           end
  end.

(** The result, [errno], and the descriptor's flags afterwards. *)
Definition connect_with_timeout (env : connect_env) : outcome (bool * Z * Z) :=
  let original_flags := cn_getfl env in
  if original_flags <? 0 then Done (false, cn_getfl_errno env, original_flags)
  else if negb (cn_setfl env =? 0) then Done (false, cn_setfl_errno env, original_flags)
  else
    let restored (r : bool * Z) : outcome (bool * Z * Z) :=
      Done (r, if cn_restore env =? 0 then original_flags
               else Z.lor original_flags O_NONBLOCK) in
    if cn_connect env =? 0 then restored (restore_blocking_mode env 0)
    else
      let result_error := cn_connect_errno env in
      if negb (result_error =? EINPROGRESS) && negb (result_error =? EWOULDBLOCK)
      then restored (false, snd (restore_blocking_mode env result_error))
      else
        let* result_error := await_connection (cn_polls env) env in
        restored (restore_blocking_mode env result_error).

(** What the calls on one address do. *)
Record address_env := mkAddressEnv {
  ad_socket : Z;
  ad_socket_errno : Z;
  ad_getfd : Z;
  ad_setfd : Z;
  ad_rcvtimeo : Z;
  ad_sndtimeo : Z;
  ad_configure_errno : Z;
  ad_connect : connect_env;
}.

Definition configure_socket (env : address_env) : bool :=
  if (ad_getfd env <? 0) || negb (ad_setfd env =? 0) then false
  else if negb (ad_rcvtimeo env =? 0) || negb (ad_sndtimeo env =? 0) then false
  else true.

(** The loop over the addresses: the connected descriptor and [last_error]. *)
Fixpoint first_connected (addresses : list address_env) (last_error : Z) : outcome (Z * Z) :=
  match addresses with
  | [] => Done (-1, last_error)
  | address :: rest =>
      if ad_socket address <? 0 then first_connected rest (ad_socket_errno address)
      else if negb (configure_socket address)
      then first_connected rest (ad_configure_errno address)
      else
        let* (connected, errno, _) := connect_with_timeout (ad_connect address) in
        if connected then Done (ad_socket address, last_error)
        else first_connected rest errno
  end.

(** ** Requests *)

Record request_env := mkRequestEnv {
  rq_lookup : Z;
  rq_gai_strerror : Z -> bytes;
  rq_message : Z -> bytes;
  rq_addresses : list address_env;
  rq_tx : list write_event;
  rq_rx : list read_event;
}.

(** The result, and the bytes the kernel took for the server. *)
Definition request `{Host} (command : bytes) (env : request_env)
  : outcome (ClientResult * bytes) :=
  if negb (rq_lookup env =? 0)
  then Done (mkClientResult false [] (rq_gai_strerror env (rq_lookup env)), [])
  else
    let* (socket, last_error) := first_connected (rq_addresses env) ECONNREFUSED in
    if socket <? 0 then Done (mkClientResult false [] (rq_message env last_error), [])
    else
      let* (sent, out, _) := send_frame command (rq_tx env) in
      if decide (io_status sent <> IoStatus.ok)
      then Done (mkClientResult false [] (rq_message env (io_error_number sent)), out)
      else
        let* (received, _) := recv_frame kDefaultMaxPayload (rq_rx env) in
        if decide (fr_status received <> IoStatus.ok)
        then Done (mkClientResult false []
                     (if fr_error_number received =? 0 then str "connection closed"
                      else rq_message env (fr_error_number received)), out)
        else Done (mkClientResult true (fr_payload received) [], out).

(** ** Connecting ends *)

(** POSIX: a call that fails leaves a nonzero [errno]. *)
Record errno_set (env : connect_env) : Prop := mkErrnoSet {
  es_restore : cn_restore env <> 0 -> cn_restore_errno env <> 0;
  es_getsockopt : cn_getsockopt env <> 0 -> cn_getsockopt_errno env <> 0;
  es_poll : Forall (fun turn => pt_poll turn <> PollFailed 0) (cn_polls env);
}.

(** The connection was made at once, or [SO_ERROR] reported no error. *)
Definition established (env : connect_env) : Prop :=
  cn_connect env = 0 \/ (cn_getsockopt env = 0 /\ cn_socket_error env = 0).

Lemma await_connection_returns polls env :
  Exists (fun turn => pt_left turn < 1000000) polls ->
  exists e, await_connection polls env = Done e.
Proof.
  induction 1 as [turn rest Hleft|turn rest _ [e IH]]; cbn [await_connection].
  - rewrite (proj2 (Z.leb_le _ _)); [by eexists|].
    destruct (Z.le_gt_cases 0 (pt_left turn)).
    + rewrite Z.quot_small by lia. done.
    + pose proof (Z.quot_le_mono (pt_left turn) 0 1000000 ltac:(lia) ltac:(lia)).
      by rewrite Z.quot_0_l in *.
  - case_if; [by eexists|]. destruct (pt_poll turn) as [x| |]; [|by eexists|].
    + case_if; [by exists e|by eexists].
    + case_if; by eexists.
Qed.

Lemma await_connection_zero polls env :
  (cn_getsockopt env <> 0 -> cn_getsockopt_errno env <> 0) ->
  Forall (fun turn => pt_poll turn <> PollFailed 0) polls ->
  await_connection polls env = Done 0 -> cn_getsockopt env = 0 /\ cn_socket_error env = 0.
Proof.
  intros Hg. induction 1 as [|turn rest Hpoll _ IH]; [done|]. cbn [await_connection].
  case_if; [done|]. destruct (pt_poll turn) as [x| |]; [|done|].
  - case_if; [by apply IH|]. intros [= ->]. done.
  - destruct (Z.eqb_spec (cn_getsockopt env) 0); cbn [negb]; intros [= H]; [done|].
    by apply Hg in H.
Qed.

(** ** A request and the server's session *)

Lemma request_session `{Host} {L E} `{DurableLog L E}
    command (s : Server L) (e : E) response s' e' env fd last_error srv :
  execute command s e = Done (response, s', e') ->
  len command <= max_payload (options_ s) -> max_payload (options_ s) <= kDefaultMaxPayload ->
  len response <= kDefaultMaxPayload ->
  rq_lookup env = 0 ->
  first_connected (rq_addresses env) ECONNREFUSED = Done (fd, last_error) -> 0 <= fd ->
  willing (length (frame_of command)) (rq_tx env) ->
  stream (rx srv) = (frame_of command, SEof) ->
  willing (length (frame_of response)) (tx srv) -> sent srv = [] ->
  exists srv',
    handle_client 2 s e srv = Done (s', e', srv')
    /\ forall tail fin, stream (rq_rx env) = (sent srv' ++ tail, fin) ->
         request command env = Done (mkClientResult true response [], frame_of command).
Proof.
  intros Hx Hcmd Hmax Hresp Hlook Hfc Hfd Htx Hrx Hstx Hsent.
  destruct (handle_client_session [command] s e [response] s' e' srv 2) as (srv' & Hh & Hout).
  - simpl. by rewrite Hx.
  - by apply Forall_singleton.
  - apply Forall_singleton. unfold kDefaultMaxPayload, u32_max in *. lia.
  - apply Forall_singleton. unfold kDefaultMaxPayload, u32_max in *. lia.
  - unfold wire. simpl. by rewrite app_nil_r.
  - unfold wire. simpl. by rewrite app_nil_r.
  - simpl. lia.
  - exists srv'. split; [done|]. intros tail fin Hstream.
    assert (Hs : sent srv' = frame_of response).
    { rewrite Hout, Hsent. unfold wire. simpl. by rewrite app_nil_r. }
    rewrite Hs in Hstream. unfold request. rewrite Hlook, Hfc. cbn [Z.eqb negb obind].
    rewrite (proj2 (Z.ltb_ge _ _)) by done.
    destruct (send_frame_willing command (rq_tx env) (length (frame_of command))) as (tx' & -> & _);
      [unfold kDefaultMaxPayload, u32_max in *; lia|done|done|].
    cbn [obind io_status]. rewrite decide_False by congruence.
    destruct (recv_frame_frame kDefaultMaxPayload (rq_rx env) response tail fin)
      as (rx' & -> & _); [done|unfold kDefaultMaxPayload, u32_max in *; lia|done|].
    cbn [obind fr_status fr_payload]. by rewrite decide_False by congruence.
Qed.

(** What a request reports: a complete response to a command the kernel took, or
    a reason. *)
Lemma request_report `{Host} command env r out :
  len command <= u32_max ->
  (forall n, rq_message env n <> []) -> (forall n, rq_gai_strerror env n <> []) ->
  request command env = Done (r, out) ->
  if cr_ok r
  then out = frame_of command
       /\ exists tail, fst (stream (rq_rx env)) = frame_of (cr_response r) ++ tail
  else cr_error r <> [].
Proof.
  intros Hlen Hm Hg. unfold request.
  destruct (negb (rq_lookup env =? 0)); [intros [= <- <-]; apply Hg|].
  intros ([socket last_error] & _ & Hreq)%obind_Done_inv.
  destruct (socket <? 0); [injection Hreq as <- <-; apply Hm|].
  apply obind_Done_inv in Hreq as ([[sent out'] wrest] & Hsend & Hreq).
  destruct (decide (io_status sent <> IoStatus.ok)) as [|Hsok]; [injection Hreq as <- <-; apply Hm|].
  apply obind_Done_inv in Hreq as ([received rrest] & Hrecv & Hreq).
  destruct (decide (fr_status received <> IoStatus.ok)) as [|Hrok]; injection Hreq as <- <-; simpl.
  - destruct (fr_error_number received =? 0); [done|apply Hm].
  - apply dec_stable in Hsok, Hrok. split; [by eapply send_frame_ok_inv|].
    destruct (recv_frame_ok_inv _ _ _ _ Hrecv Hrok) as (tail & Ht & _). by exists tail.
Qed.

(** ** Properties *)


(** A request reaches the server and its answer comes back.  Let the client
    connect and let the kernels on both sides take what is written, in any
    pieces.  The server's session on the client's bytes executes exactly the
    command, and whatever way the session's output is delivered back, [request]
    returns exactly the response of that execution. *)
Theorem request_gets_response `{Host} {L E} `{DurableLog L E}
    command (s : Server L) (e : E) response s' e' env fd last_error srv :
  execute command s e = Done (response, s', e') ->
  len command <= max_payload (options_ s) -> max_payload (options_ s) <= kDefaultMaxPayload ->
  len response <= kDefaultMaxPayload ->
  rq_lookup env = 0 ->
  first_connected (rq_addresses env) ECONNREFUSED = Done (fd, last_error) -> 0 <= fd ->
  willing (length (frame_of command)) (rq_tx env) ->
  stream (rx srv) = (frame_of command, SEof) ->
  willing (length (frame_of response)) (tx srv) -> sent srv = [] ->
  exists srv',
    handle_client 2 s e srv = Done (s', e', srv')
    /\ forall tail fin, stream (rq_rx env) = (sent srv' ++ tail, fin) ->
         request command env = Done (mkClientResult true response [], frame_of command).
Proof. apply request_session. Qed.

(** ** Witnesses *)

(** A connection that is in progress, is interrupted once, and then succeeds. *)
Definition ex_connect : connect_env :=
  mkConnectEnv 2 0 0 0 (-1) EINPROGRESS
    [mkPollTurn 1999000000 (PollFailed EINTR); mkPollTurn 1500000000 PollReady;
     mkPollTurn 0 PollTimeout] 0 0 0 0 0.


(** The first address refuses, the second one connects. *)
Definition ex_request (delivered : bytes) : request_env :=
  mkRequestEnv 0 (fun _ => str "lookup failed") (fun _ => str "error")
    [mkAddressEnv 4 0 0 0 0 0 0 (mkConnectEnv 2 0 0 0 (-1) ECONNREFUSED [] 0 0 0 0 0);
     mkAddressEnv 5 0 0 0 0 0 0 ex_connect]
    (WTake 3 :: WErr EINTR :: replicate 10 (WTake 2)) (unread delivered []).
Definition ex_session : conn :=
  mkConn (unread (frame_of (str "SET k v")) [REof]) (replicate 6 (WTake 1)) [].

Lemma request_gets_response_witness :
  exists srv',
    @handle_client little Wal append_env (@wal_durable_log little) 2 ex_server ex_env ex_session
      = Done (ex_server1, mkAppendEnv [] [], srv')
    /\ forall tail fin, stream (rq_rx (ex_request (frame_of (str "OK")))) = (sent srv' ++ tail, fin) ->
         @request little (str "SET k v") (ex_request (frame_of (str "OK")))
         = Done (mkClientResult true (str "OK") [], frame_of (str "SET k v")).
Proof.
  apply (@request_gets_response little Wal append_env (@wal_durable_log little) (str "SET k v")
           ex_server ex_env (str "OK") ex_server1 (mkAppendEnv [] [])
           (ex_request (frame_of (str "OK"))) 5 ECONNREFUSED ex_session).
  - apply ex_execute.
  - vm_compute. discriminate.
  - vm_compute. discriminate.
  - vm_compute. discriminate.
  - reflexivity.
  - vm_compute. reflexivity.
  - lia.
  - vm_compute. tauto.
  - vm_compute. reflexivity.
  - vm_compute. tauto.
  - reflexivity.
Defined.
