(* ===== verification/UniqueFd.v ===== *)
(** * Descriptor ownership ([capstone/reference/include/netforge/unique_fd.hpp])

    A program's [UniqueFd] objects are a list of their [fd_] members ([None]
    once an object is destroyed); the calls of [close] are recorded.  The
    theorem is the ownership discipline: whatever the program does with its
    objects, every descriptor it puts into one is closed once or handed out. *)

From stdpp Require Import base list.
From Stdlib Require Import ZArith Lia.
From S2P Require Import Prelude.

(** ** Member functions, on the member [fd_] *)

(** [std::exchange(fd_, -1)]: the result and the member. *)
Definition release (fd_ : Z) : Z * Z := (fd_, -1).

(** The member and the calls of [close] after [reset(replacement)]. *)
Definition reset (replacement fd_ : Z) (closes : list Z) : Z * list Z :=
  let old := fd_ in
  (replacement, if old >=? 0 then closes ++ [old] else closes).

(** ** A program's objects *)

Record fds := mkFds {
  objects : list (option Z);
  closes : list Z;
  handed_in : list Z;     (* descriptors given to a constructor or [reset] *)
  handed_out : list Z;    (* results of [release] *)
}.

Inductive fd_op :=
| Construct (fd : Z)           (* [UniqueFd x(fd);], [UniqueFd x;] is [Construct (-1)] *)
| MoveConstruct (w : nat)      (* [UniqueFd x(std::move(w));] *)
| MoveAssign (v w : nat)       (* [v = std::move(w);] *)
| Release (v : nat)
| Reset (v : nat) (replacement : Z)
| Destroy (v : nat).

Definition set_object (v : nat) (o : option Z) (st : fds) : fds :=
  mkFds (<[v := o]> (objects st)) (closes st) (handed_in st) (handed_out st).
Definition set_closes (l : list Z) (st : fds) : fds :=
  mkFds (objects st) l (handed_in st) (handed_out st).

(** [None] when an operand is not a live object. *)
Definition fd_step (op : fd_op) (st : fds) : option fds :=
  match op with
  | Construct fd =>
      Some (mkFds (objects st ++ [Some fd]) (closes st) (handed_in st ++ [fd]) (handed_out st))
  | MoveConstruct w =>
      match objects st !! w with
      | Some (Some other) =>
          let (fd, other) := release other in
          Some (mkFds (<[w := Some other]> (objects st) ++ [Some fd]) (closes st)
                  (handed_in st) (handed_out st))
      | _ => None
      end
  | MoveAssign v w =>
      match objects st !! v, objects st !! w with
      | Some (Some self), Some (Some other) =>
          if decide (v = w) then Some st
          else
            let (fd, other) := release other in
            let (self, cl) := reset fd self (closes st) in
            Some (set_object v (Some self) (set_object w (Some other) (set_closes cl st)))
      | _, _ => None
      end
  | Release v =>
      match objects st !! v with
      | Some (Some self) =>
          let (fd, self) := release self in
          Some (mkFds (<[v := Some self]> (objects st)) (closes st) (handed_in st)
                  (handed_out st ++ [fd]))
      | _ => None
      end
  | Reset v replacement =>
      match objects st !! v with
      | Some (Some self) =>
          let (self, cl) := reset replacement self (closes st) in
          Some (mkFds (<[v := Some self]> (objects st)) cl (handed_in st ++ [replacement])
                  (handed_out st))
      | _ => None
      end
  | Destroy v =>
      match objects st !! v with
      | Some (Some self) =>
          let (_, cl) := reset (-1) self (closes st) in
          Some (set_object v None (set_closes cl st))
      | _ => None
      end
  end.

Fixpoint fd_run (ops : list fd_op) (st : fds) : option fds :=
  match ops with
  | [] => Some st
  | op :: ops => match fd_step op st with Some st => fd_run ops st | None => None end
  end.

Definition no_fds : fds := mkFds [] [] [] [].

(** ** The invariant: descriptors are conserved *)

Definition is_fd (x y : Z) : Z := if x =? y then 1 else 0.
Definition owns (x : Z) (o : option Z) : Z := match o with Some y => is_fd x y | None => 0 end.

Definition conserved (st : fds) : Prop :=
  forall x, 0 <= x ->
    sum_by (is_fd x) (handed_in st)
    = sum_by (owns x) (objects st) + sum_by (is_fd x) (closes st)
      + sum_by (is_fd x) (handed_out st).

Lemma sum_close x self cl :
  0 <= x ->
  sum_by (is_fd x) (if self >=? 0 then cl ++ [self] else cl) = sum_by (is_fd x) cl + is_fd x self.
Proof.
  intros Hx. unfold is_fd at 3. destruct (Z.geb_spec self 0).
  - rewrite sum_by_app. unfold sum_by at 2. simpl. unfold is_fd at 2. lia.
  - rewrite (proj2 (Z.eqb_neq _ _)) by lia. lia.
Qed.

Lemma sum_one {A} (f : A -> Z) x : sum_by f [x] = f x.
Proof. unfold sum_by. simpl. lia. Qed.

Lemma owns_moved x : 0 <= x -> owns x (Some (-1)) = 0.
Proof. intros Hx. unfold owns, is_fd. by rewrite (proj2 (Z.eqb_neq _ _)) by lia. Qed.

Lemma fd_step_conserved op st st' :
  conserved st -> fd_step op st = Some st' -> conserved st'.
Proof.
  intros Hc Hs x Hx. specialize (Hc x Hx).
  destruct op as [fd|w|v w|v|v replacement|v]; simpl in Hs.
  - injection Hs as <-. simpl. rewrite !sum_by_app, !sum_one. simpl. lia.
  - destruct (objects st !! w) as [[other|]|] eqn:Hw; try done. injection Hs as <-. simpl.
    rewrite sum_by_app, (sum_by_insert _ _ _ _ _ Hw), sum_one, owns_moved by done. simpl. lia.
  - destruct (objects st !! v) as [[self|]|] eqn:Hv; try done.
    destruct (objects st !! w) as [[other|]|] eqn:Hw; try done.
    case_decide as Hvw; injection Hs as <-; [done|]. simpl.
    assert (Hv' : <[w := Some (-1)]> (objects st) !! v = Some (Some self))
      by (by rewrite list_lookup_insert_ne).
    rewrite (sum_by_insert _ _ _ _ _ Hv'), (sum_by_insert _ _ _ _ _ Hw), owns_moved by done.
    rewrite sum_close by done. simpl. lia.
  - destruct (objects st !! v) as [[self|]|] eqn:Hv; try done. injection Hs as <-. simpl.
    rewrite sum_by_app, (sum_by_insert _ _ _ _ _ Hv), sum_one, owns_moved by done. simpl. lia.
  - destruct (objects st !! v) as [[self|]|] eqn:Hv; try done. injection Hs as <-. simpl.
    rewrite sum_by_app, (sum_by_insert _ _ _ _ _ Hv), sum_one, sum_close by done. simpl. lia.
  - destruct (objects st !! v) as [[self|]|] eqn:Hv; try done. injection Hs as <-. simpl.
    rewrite (sum_by_insert _ _ _ _ _ Hv), sum_close by done. simpl. lia.
Qed.

Lemma fd_run_conserved ops st st' :
  conserved st -> fd_run ops st = Some st' -> conserved st'.
Proof.
  revert st. induction ops as [|op ops IH]; intros st Hc; simpl; [by intros [= <-]|].
  destruct (fd_step op st) eqn:Hs; [|done]. apply IH. by eapply fd_step_conserved.
Qed.

(** ** Properties *)

(** Every descriptor is closed exactly once.  In any program over
    [UniqueFd] objects (moves, self-moves, resets, releases and destructions in
    any order), a descriptor is at every moment owned by an object, closed, or
    handed out by [release], as often as it was put in: none is closed twice,
    and once all objects are destroyed none is left open. *)
Theorem descriptors_closed_once ops st x :
  fd_run ops no_fds = Some st -> 0 <= x ->
  sum_by (is_fd x) (handed_in st)
  = sum_by (owns x) (objects st) + sum_by (is_fd x) (closes st) + sum_by (is_fd x) (handed_out st)
  /\ (Forall (fun o => o = None) (objects st) ->
      sum_by (is_fd x) (closes st) = sum_by (is_fd x) (handed_in st) - sum_by (is_fd x) (handed_out st)).
Proof.
  intros Hrun Hx. assert (Hc : conserved st) by (by eapply fd_run_conserved; [|exact Hrun]).
  split; [by apply Hc|]. intros Hdead.
  assert (Ho : sum_by (owns x) (objects st) = 0).
  { clear -Hdead. induction Hdead as [|o l -> _ IH]; [done|]. by rewrite sum_by_cons, IH. }
  specialize (Hc x Hx). lia.
Qed.

(** ** Witnesses *)

Definition ex_fd_ops : list fd_op :=
  [Construct 5; Construct (-1); MoveAssign 1 0; MoveAssign 1 1; Reset 1 7; MoveConstruct 1;
   Destroy 2; Destroy 0; Destroy 1].
Definition ex_fds : fds := mkFds [None; None; None] [5; 7] [5; -1; 7] [].

Lemma descriptors_closed_once_witness :
  sum_by (is_fd 5) (handed_in ex_fds)
  = sum_by (owns 5) (objects ex_fds) + sum_by (is_fd 5) (closes ex_fds)
    + sum_by (is_fd 5) (handed_out ex_fds)
  /\ (Forall (fun o => o = None) (objects ex_fds) ->
      sum_by (is_fd 5) (closes ex_fds)
      = sum_by (is_fd 5) (handed_in ex_fds) - sum_by (is_fd 5) (handed_out ex_fds)).
Proof.
  apply (descriptors_closed_once ex_fd_ops ex_fds 5).
  - vm_compute. reflexivity.
  - lia.
Defined.
