(* ===== verification/BlockingQueue.v ===== *)
(** * The bounded queue ([capstone/reference/include/netforge/blocking_queue.hpp])

    [push] and [pop] hold the queue's mutex from the test of the wait's
    predicate to the change of the queue, so a critical section is one step:
    [push_locked] and [pop_locked] say what a thread that holds the mutex does,
    waiting on the condition variable included.  What the other threads do in
    between, and the notifications sent after the mutex is released, is the
    business of the step relation of [ThreadPool.v]. *)

From stdpp Require Import base list strings.
From Stdlib Require Import ZArith Lia.
From S2P Require Import Prelude.

Record BlockingQueue (A : Type) := mkQueue {
  capacity_ : Z;
  queue_ : list A;
  closed_ : bool;
}.
Arguments mkQueue {A}.
Arguments capacity_ {A}.
Arguments queue_ {A}.
Arguments closed_ {A}.

Definition new_queue {A} (capacity : Z) : outcome (BlockingQueue A) :=
  if capacity =? 0 then Threw "BlockingQueue capacity must be positive"
  else Done (mkQueue capacity [] false).

(** What a thread holding the mutex in [push] does. *)
Inductive push_turn (A : Type) :=
| PushWait
| PushRefused
| PushDone (q : BlockingQueue A).
Arguments PushWait {A}.
Arguments PushRefused {A}.
Arguments PushDone {A}.

Definition push_locked {A} (value : A) (q : BlockingQueue A) : push_turn A :=
  if negb (closed_ q || (len (queue_ q) <? capacity_ q)) then PushWait
  else if closed_ q then PushRefused
  else PushDone (mkQueue (capacity_ q) (queue_ q ++ [value]) (closed_ q)).

Inductive pop_turn (A : Type) :=
| PopWait
| PopNone
| PopDone (value : A) (q : BlockingQueue A).
Arguments PopWait {A}.
Arguments PopNone {A}.
Arguments PopDone {A}.

Definition pop_locked {A} (q : BlockingQueue A) : pop_turn A :=
  if negb (closed_ q || negb (is_empty (queue_ q))) then PopWait
  else match queue_ q with
       | [] => PopNone
       | value :: rest => PopDone value (mkQueue (capacity_ q) rest (closed_ q))
       end.

Definition close {A} (q : BlockingQueue A) : BlockingQueue A :=
  mkQueue (capacity_ q) (queue_ q) true.

Definition queue_size {A} (q : BlockingQueue A) : Z := len (queue_ q).
Definition closed {A} (q : BlockingQueue A) : bool := closed_ q.

(** ** What the critical sections do *)

Lemma push_locked_wait {A} (v : A) q :
  push_locked v q = PushWait <-> closed_ q = false /\ capacity_ q <= len (queue_ q).
Proof.
  unfold push_locked. destruct (closed_ q), (Z.ltb_spec (len (queue_ q)) (capacity_ q)); simpl;
    split; try done; intros [? ?]; try done; lia.
Qed.

Lemma push_locked_refused {A} (v : A) q : push_locked v q = PushRefused <-> closed_ q = true.
Proof.
  unfold push_locked. destruct (closed_ q), (Z.ltb_spec (len (queue_ q)) (capacity_ q)); done.
Qed.

Lemma push_locked_done {A} (v : A) q q' :
  push_locked v q = PushDone q' <->
  closed_ q = false /\ len (queue_ q) < capacity_ q
  /\ q' = mkQueue (capacity_ q) (queue_ q ++ [v]) false.
Proof.
  unfold push_locked. destruct (closed_ q), (Z.ltb_spec (len (queue_ q)) (capacity_ q)); simpl;
    split; try done; try (intros (? & ? & ?); done || lia).
  - by intros [= <-].
  - by intros (_ & _ & ->).
Qed.

Lemma pop_locked_wait {A} (q : BlockingQueue A) :
  pop_locked q = PopWait <-> closed_ q = false /\ queue_ q = [].
Proof. unfold pop_locked. destruct (closed_ q), (queue_ q); simpl; split; try done; by intros []. Qed.

Lemma pop_locked_none {A} (q : BlockingQueue A) :
  pop_locked q = PopNone <-> closed_ q = true /\ queue_ q = [].
Proof. unfold pop_locked. destruct (closed_ q), (queue_ q); simpl; split; try done; by intros []. Qed.

Lemma pop_locked_done {A} (q q' : BlockingQueue A) v :
  pop_locked q = PopDone v q' <->
  exists rest, queue_ q = v :: rest /\ q' = mkQueue (capacity_ q) rest (closed_ q).
Proof.
  unfold pop_locked. destruct (closed_ q) eqn:Hc, (queue_ q) as [|x l] eqn:Hq; simpl;
    (split; [try done|try (by intros (? & ? & ?))]);
    first [intros [= <- <-]; by eauto|by intros (rest & [= <- <-] & ->)].
Qed.
