(* ===== verification/ThreadPool.v ===== *)
(** * The worker pool ([capstone/reference/src/thread_pool.cpp])

    The pool's threads and the threads that call it, as a step relation.  A step
    is one critical section of the queue ([BlockingQueue.v]), one operation on an
    atomic, or one notification, so any interleaving of the source's threads is
    a sequence of steps.  A thread waiting on a condition variable is in a
    waiting state that only a notification leaves; spurious wake-ups are steps
    too, and so are exceptions of [push] ([throws]).  Tasks are any type; [body] is
    what a task calls on the pool. *)

From stdpp Require Import base list strings.
From Stdlib Require Import ZArith Lia ZifyBool.
From S2P Require Import Prelude BlockingQueue.

Section ThreadPool.
Context {task : Type} `{!EqDecision task}.

(** ** State *)

(** A call on the pool; an empty [std::function] is [None]. *)
Inductive call :=
| CSubmit (t : option task)
| CShutdown.

(** Where a thread is inside [submit] or [shutdown]. *)
Inductive activity :=
| AReady                    (* between two calls *)
| ALoaded (t : task)        (* the pool was not shutting down *)
| APushing (t : task)       (* counted, in [tasks_.push] *)
| AWaitRoom (t : task)      (* waiting on [not_full_] *)
| APushed                   (* pushed, before [not_empty_.notify_one] *)
| ARefused                  (* the queue was closed, before [fetch_sub] *)
| AClosing                  (* won the exchange, before [tasks_.close] *)
| AClosedItems              (* closed, before [not_empty_.notify_all] *)
| AClosedRoom               (* before [not_full_.notify_all] *)
| AJoin.                    (* before the join of the workers *)

Inductive worker_state :=
| WPop                      (* in [tasks_.pop] *)
| WWaitItem                 (* waiting on [not_empty_] *)
| WPopped (t : task)        (* popped, before [not_full_.notify_one] *)
| WRunning (t : task) (todo : list call) (a : activity)
| WExited.

Inductive thread :=
| Client (todo : list call) (a : activity)
| Worker (w : worker_state).

(** The members of [ThreadPool] with its threads and their callers; [accepted],
    [started], [finished] and [thrown] record what happened to the tasks. *)
Record pool := mkPool {
  tasks_ : BlockingQueue task;
  shutting_down_ : bool;
  submitted_ : Z;
  completed_ : Z;
  threads : list thread;
  accepted : list task;
  started : list task;
  finished : list task;
  thrown : list task;
}.

(** A thread that runs user code: a caller, or a worker running a task. *)
Inductive context := InClient | InWorker (t : task).

Definition plug (c : context) (todo : list call) (a : activity) : thread :=
  match c with
  | InClient => Client todo a
  | InWorker t => Worker (WRunning t todo a)
  end.

(** [active_pool == this]. *)
Definition on_worker (c : context) : bool :=
  match c with InClient => false | InWorker _ => true end.

Definition is_exited (th : thread) : bool :=
  match th with Worker WExited => true | _ => false end.
Definition is_client (th : thread) : bool :=
  match th with Client _ _ => true | _ => false end.

(** The workers have all left [worker_loop], so joining them returns. *)
Definition all_exited (ths : list thread) : Prop :=
  Forall (fun th => is_client th = true \/ is_exited th = true) ths.

(** The effect of a notification on a thread that waits for it. *)
Definition wake_item (th : thread) : thread :=
  match th with Worker WWaitItem => Worker WPop | _ => th end.
Definition wake_room (th : thread) : thread :=
  match th with
  | Client todo (AWaitRoom t) => Client todo (APushing t)
  | Worker (WRunning t todo (AWaitRoom u)) => Worker (WRunning t todo (APushing u))
  | _ => th
  end.

Definition waits_item (th : thread) : bool :=
  match th with Worker WWaitItem => true | _ => false end.
Definition waits_room (th : thread) : bool :=
  match th with
  | Client _ (AWaitRoom _) | Worker (WRunning _ _ (AWaitRoom _)) => true
  | _ => false
  end.

(** [notify_one] wakes one waiting thread if there is one. *)
Inductive notify_one (waits : thread -> bool) (wake : thread -> thread)
  : list thread -> list thread -> Prop :=
| Notify_none ths : Forall (fun th => waits th = false) ths -> notify_one waits wake ths ths
| Notify_some ths j th :
    ths !! j = Some th -> waits th = true -> notify_one waits wake ths (<[j := wake th]> ths).

(** ** The constructor *)

(** [spawned] is false when starting a thread fails, [calls] what the pool's
    callers will do. *)
Definition new_pool (workers queue_capacity : Z) (spawned : bool) (calls : list (list call))
  : outcome pool :=
  let* tasks := new_queue queue_capacity in
  if workers =? 0 then Threw "ThreadPool requires at least one worker"
  else if negb spawned then Threw "system_error"
  else Done (mkPool tasks false 0 0
               (replicate (Z.to_nat workers) (Worker WPop)
                ++ map (fun todo => Client todo AReady) calls) [] [] [] []).

(** ** Steps *)

Context (body : task -> list call).

Definition set_threads (p : pool) (ths : list thread) : pool :=
  mkPool (tasks_ p) (shutting_down_ p) (submitted_ p) (completed_ p) ths
    (accepted p) (started p) (finished p) (thrown p).
Definition set_queue (p : pool) (q : BlockingQueue task) : pool :=
  mkPool q (shutting_down_ p) (submitted_ p) (completed_ p) (threads p)
    (accepted p) (started p) (finished p) (thrown p).
Definition set_submitted (p : pool) (n : Z) : pool :=
  mkPool (tasks_ p) (shutting_down_ p) n (completed_ p) (threads p)
    (accepted p) (started p) (finished p) (thrown p).
Definition set_shutting_down (p : pool) : pool :=
  mkPool (tasks_ p) true (submitted_ p) (completed_ p) (threads p)
    (accepted p) (started p) (finished p) (thrown p).
Definition add_accepted (p : pool) (t : task) : pool :=
  mkPool (tasks_ p) (shutting_down_ p) (submitted_ p) (completed_ p) (threads p)
    (accepted p ++ [t]) (started p) (finished p) (thrown p).
Definition add_started (p : pool) (t : task) : pool :=
  mkPool (tasks_ p) (shutting_down_ p) (submitted_ p) (completed_ p) (threads p)
    (accepted p) (started p ++ [t]) (finished p) (thrown p).
Definition complete (p : pool) (t : task) : pool :=
  mkPool (tasks_ p) (shutting_down_ p) (submitted_ p) (u64 (completed_ p + 1)) (threads p)
    (accepted p) (started p) (finished p ++ [t]) (thrown p).
Definition add_thrown (p : pool) (t : task) : pool :=
  mkPool (tasks_ p) (shutting_down_ p) (submitted_ p) (completed_ p) (threads p)
    (accepted p) (started p) (finished p) (thrown p ++ [t]).

(** Thread [i] moves on to [th]. *)
Definition move (p : pool) (i : nat) (th : thread) : pool :=
  set_threads p (<[i := th]> (threads p)).

(** One step of thread [i] inside a call ([submit], lines 35-52, [shutdown],
    lines 54-68). *)
Inductive call_step (p : pool) (i : nat) (c : context) (todo : list call) : activity -> pool -> Prop :=
| Submit_null rest :
    todo = CSubmit None :: rest -> call_step p i c todo AReady (move p i (plug c rest AReady))
| Submit_rejected t rest :
    todo = CSubmit (Some t) :: rest -> shutting_down_ p = true ->
    call_step p i c todo AReady (move p i (plug c rest AReady))
| Submit_loaded t rest :
    todo = CSubmit (Some t) :: rest -> shutting_down_ p = false ->
    call_step p i c todo AReady (move p i (plug c rest (ALoaded t)))
| Submit_counted t :
    call_step p i c todo (ALoaded t)
      (move (set_submitted p (u64 (submitted_ p + 1))) i (plug c todo (APushing t)))
| Push_waits t :
    push_locked t (tasks_ p) = PushWait ->
    call_step p i c todo (APushing t) (move p i (plug c todo (AWaitRoom t)))
| Push_refused t :
    push_locked t (tasks_ p) = PushRefused ->
    call_step p i c todo (APushing t) (move p i (plug c todo ARefused))
| Push_done t q :
    push_locked t (tasks_ p) = PushDone q ->
    call_step p i c todo (APushing t)
      (move (add_accepted (set_queue p q) t) i (plug c todo APushed))
| Push_notifies ths :
    notify_one waits_item wake_item (threads p) ths ->
    call_step p i c todo APushed (move (set_threads p ths) i (plug c todo AReady))
| Submit_uncounted :
    call_step p i c todo ARefused
      (move (set_submitted p (u64 (submitted_ p - 1))) i (plug c todo AReady))
| Shutdown_first rest :
    todo = CShutdown :: rest -> shutting_down_ p = false ->
    call_step p i c todo AReady (move (set_shutting_down p) i (plug c rest AClosing))
| Shutdown_again rest :
    todo = CShutdown :: rest -> shutting_down_ p = true ->
    call_step p i c todo AReady (move p i (plug c rest AJoin))
| Close :
    call_step p i c todo AClosing
      (move (set_queue p (close (tasks_ p))) i (plug c todo AClosedItems))
| Close_items :
    call_step p i c todo AClosedItems
      (move (set_threads p (map wake_item (threads p))) i (plug c todo AClosedRoom))
| Close_room :
    call_step p i c todo AClosedRoom
      (move (set_threads p (map wake_room (threads p))) i (plug c todo AJoin))
| Join_worker :
    on_worker c = true -> call_step p i c todo AJoin (move p i (plug c todo AReady))
| Join_all :
    on_worker c = false -> all_exited (threads p) ->
    call_step p i c todo AJoin (move p i (plug c todo AReady)).

(** One step of thread [i] in [worker_loop], lines 78-89. *)
Inductive worker_step (p : pool) (i : nat) : worker_state -> pool -> Prop :=
| Pop_waits :
    pop_locked (tasks_ p) = PopWait -> worker_step p i WPop (move p i (Worker WWaitItem))
| Pop_none :
    pop_locked (tasks_ p) = PopNone -> worker_step p i WPop (move p i (Worker WExited))
| Pop_done t q :
    pop_locked (tasks_ p) = PopDone t q ->
    worker_step p i WPop (move (add_started (set_queue p q) t) i (Worker (WPopped t)))
| Pop_notifies t ths :
    notify_one waits_room wake_room (threads p) ths ->
    worker_step p i (WPopped t)
      (move (set_threads p ths) i (Worker (WRunning t (body t) AReady)))
| Task_finished t :
    worker_step p i (WRunning t [] AReady) (move (complete p t) i (Worker WPop)).

Inductive step (p p' : pool) : Prop :=
| Step_call i c todo a :
    threads p !! i = Some (plug c todo a) -> call_step p i c todo a p' -> step p p'
| Step_worker i w :
    threads p !! i = Some (Worker w) -> worker_step p i w p' -> step p p'.

(** A condition variable may also wake a thread for no reason. *)
Inductive spurious (p : pool) : pool -> Prop :=
| Spurious_item i th :
    threads p !! i = Some th -> waits_item th = true -> spurious p (move p i (wake_item th))
| Spurious_room i th :
    threads p !! i = Some th -> waits_room th = true -> spurious p (move p i (wake_room th)).

(** [queue_.push] of [tasks_.push] may throw when memory is exhausted.  [submit]
    takes the count back and lets the exception out: it ends a task, and of a
    caller's code only the shutdowns are left, which its clean-up makes. *)
Definition shuts (call : call) : bool :=
  match call with CShutdown => true | CSubmit _ => false end.
Definition unwound (c : context) (todo : list call) : list call :=
  match c with InClient => List.filter shuts todo | InWorker _ => [] end.

Inductive throws (p : pool) : pool -> Prop :=
| Push_throws i c todo t q :
    threads p !! i = Some (plug c todo (APushing t)) -> push_locked t (tasks_ p) = PushDone q ->
    throws p (move (add_thrown p t) i (plug c (unwound c todo) ARefused)).

Inductive reachable (p0 : pool) : pool -> Prop :=
| Reach_refl : reachable p0 p0
| Reach_step p p' : reachable p0 p -> step p p' -> reachable p0 p'
| Reach_spurious p p' : reachable p0 p -> spurious p p' -> reachable p0 p'.

(** The states that runs with exceptions reach. *)
Inductive reachable_throwing (p0 : pool) : pool -> Prop :=
| Throwing_refl : reachable_throwing p0 p0
| Throwing_step p p' : reachable_throwing p0 p -> step p p' -> reachable_throwing p0 p'
| Throwing_spurious p p' : reachable_throwing p0 p -> spurious p p' -> reachable_throwing p0 p'
| Throwing_throws p p' : reachable_throwing p0 p -> throws p p' -> reachable_throwing p0 p'.

Lemma reachable_no_throw p0 p : reachable p0 p -> reachable_throwing p0 p.
Proof.
  induction 1; [apply Throwing_refl|by eapply Throwing_step|by eapply Throwing_spurious].
Qed.

(** ** Counting threads *)

(** Where a thread is, as a number: 1 in the state, 0 elsewhere. *)
Definition act (th : thread) : option activity :=
  match th with
  | Client _ a | Worker (WRunning _ _ a) => Some a
  | Worker _ => None
  end.

Definition b2n (b : bool) : Z := if b then 1 else 0.
Definition popping (th : thread) : Z := match th with Worker WPop => 1 | _ => 0 end.
Definition waiting_item (th : thread) : Z := b2n (waits_item th).
Definition waiting_room (th : thread) : Z := b2n (waits_room th).
Definition popped (th : thread) : Z := match th with Worker (WPopped _) => 1 | _ => 0 end.
Definition exited (th : thread) : Z := b2n (is_exited th).
Definition pushing (th : thread) : Z := match act th with Some (APushing _) => 1 | _ => 0 end.
Definition pushed (th : thread) : Z := match act th with Some APushed => 1 | _ => 0 end.
Definition refused (th : thread) : Z := match act th with Some ARefused => 1 | _ => 0 end.
Definition closing (th : thread) : Z := match act th with Some AClosing => 1 | _ => 0 end.
Definition closed_items (th : thread) : Z := match act th with Some AClosedItems => 1 | _ => 0 end.
Definition closed_room (th : thread) : Z := match act th with Some AClosedRoom => 1 | _ => 0 end.
Definition joining (th : thread) : Z := match act th with Some AJoin => 1 | _ => 0 end.
Definition workers (th : thread) : Z := b2n (negb (is_client th)).
Definition holding (th : thread) : Z :=
  match th with Worker (WPopped _) | Worker (WRunning _ _ _) => 1 | _ => 0 end.
Definition holds (t : task) (th : thread) : Z :=
  match th with
  | Worker (WPopped u) | Worker (WRunning u _ _) => b2n (bool_decide (u = t))
  | _ => 0
  end.

Definition occurs (t : task) (l : list task) : Z :=
  foldr (fun u n => b2n (bool_decide (u = t)) + n) 0 l.

Lemma occurs_app t l k : occurs t (l ++ k) = occurs t l + occurs t k.
Proof. unfold occurs. induction l; simpl; lia. Qed.

(** ** The invariant *)

(** What holds in every run, with exceptions or without. *)
Record pool_safe (p : pool) : Prop := mkPoolSafe {
  pi_capacity : 0 < capacity_ (tasks_ p);
  pi_bounded : len (queue_ (tasks_ p)) <= capacity_ (tasks_ p);
  pi_fifo : accepted p = started p ++ queue_ (tasks_ p);
  pi_once : forall t, occurs t (started p) = occurs t (finished p) + sum_by (holds t) (threads p);
  pi_held : len (started p) = len (finished p) + sum_by holding (threads p);
  pi_workers : 0 < sum_by workers (threads p);
  pi_submitted : submitted_ p
    = u64 (len (accepted p) + sum_by pushing (threads p) + sum_by waiting_room (threads p)
           + sum_by refused (threads p));
  pi_completed : completed_ p = u64 (len (finished p));
  (* no wake-up is lost *)
  pi_items : 0 < sum_by waiting_item (threads p) ->
    len (queue_ (tasks_ p)) <= sum_by popping (threads p) + sum_by pushed (threads p);
  pi_closed_items : closed_ (tasks_ p) = true ->
    sum_by waiting_item (threads p) = 0 \/ 0 < sum_by closed_items (threads p);
  pi_closed_room : closed_ (tasks_ p) = true ->
    sum_by waiting_room (threads p) = 0
    \/ 0 < sum_by closed_items (threads p) + sum_by closed_room (threads p);
  (* shutting down *)
  pi_refused : thrown p = [] -> 0 < sum_by refused (threads p) -> closed_ (tasks_ p) = true;
  pi_closing : closed_ (tasks_ p) = false -> shutting_down_ p = true ->
    0 < sum_by closing (threads p);
  pi_open : shutting_down_ p = false ->
    closed_ (tasks_ p) = false /\ sum_by closing (threads p) = 0 /\ sum_by joining (threads p) = 0
    /\ sum_by closed_items (threads p) + sum_by closed_room (threads p) = 0;
  pi_exited : 0 < sum_by exited (threads p) ->
    closed_ (tasks_ p) = true /\ len (queue_ (tasks_ p)) = 0;
}.

(** No wake-up of a caller that waits for room is lost: the room there is has been
    told to a caller that is about to push, or is about to be. *)
Definition room_told (p : pool) : Prop :=
  0 < sum_by waiting_room (threads p) -> closed_ (tasks_ p) = false ->
  capacity_ (tasks_ p) - len (queue_ (tasks_ p))
  <= sum_by pushing (threads p) + sum_by popped (threads p).

Record pool_inv (p : pool) : Prop := mkPoolInv {
  pi_safe :> pool_safe p;
  pi_room : room_told p;
}.

(** A step keeps the safe part, and the told room. *)
Definition keeps (p p' : pool) : Prop := pool_safe p' /\ (room_told p -> room_told p').

Lemma indicators_nonneg :
  (forall th, 0 <= popping th) /\ (forall th, 0 <= waiting_item th)
  /\ (forall th, 0 <= waiting_room th) /\ (forall th, 0 <= popped th)
  /\ (forall th, 0 <= exited th) /\ (forall th, 0 <= pushing th)
  /\ (forall th, 0 <= pushed th) /\ (forall th, 0 <= refused th)
  /\ (forall th, 0 <= closing th) /\ (forall th, 0 <= closed_items th)
  /\ (forall th, 0 <= closed_room th) /\ (forall th, 0 <= joining th).
Proof.
  repeat split; intros th;
    unfold popping, waiting_item, waiting_room, popped, exited, pushing, pushed, refused, closing,
      closed_items, closed_room, joining, b2n;
    repeat case_match; lia.
Qed.

(** What a thread at index [i] contributes to the counts. *)
Lemma counts_at ths i th :
  ths !! i = Some th ->
  (popping th <= sum_by popping ths /\ waiting_item th <= sum_by waiting_item ths
   /\ waiting_room th <= sum_by waiting_room ths /\ popped th <= sum_by popped ths
   /\ exited th <= sum_by exited ths /\ pushing th <= sum_by pushing ths
   /\ pushed th <= sum_by pushed ths /\ refused th <= sum_by refused ths
   /\ closing th <= sum_by closing ths /\ closed_items th <= sum_by closed_items ths
   /\ closed_room th <= sum_by closed_room ths /\ joining th <= sum_by joining ths)
  /\ (0 <= sum_by popping ths /\ 0 <= sum_by waiting_item ths /\ 0 <= sum_by waiting_room ths
      /\ 0 <= sum_by popped ths /\ 0 <= sum_by exited ths /\ 0 <= sum_by pushing ths
      /\ 0 <= sum_by pushed ths /\ 0 <= sum_by refused ths /\ 0 <= sum_by closing ths
      /\ 0 <= sum_by closed_items ths /\ 0 <= sum_by closed_room ths /\ 0 <= sum_by joining ths).
Proof.
  intros Hi. destruct indicators_nonneg as (? & ? & ? & ? & ? & ? & ? & ? & ? & ? & ? & ?).
  split; repeat split; first [by eapply sum_by_member|by apply sum_by_nonneg].
Qed.

(** Waking threads moves them from one count to another. *)
Lemma counts_wake_item ths :
  sum_by popping (map wake_item ths) = sum_by popping ths + sum_by waiting_item ths
  /\ sum_by waiting_item (map wake_item ths) = 0
  /\ (sum_by waiting_room (map wake_item ths) = sum_by waiting_room ths
      /\ sum_by popped (map wake_item ths) = sum_by popped ths
      /\ sum_by exited (map wake_item ths) = sum_by exited ths
      /\ sum_by pushing (map wake_item ths) = sum_by pushing ths
      /\ sum_by pushed (map wake_item ths) = sum_by pushed ths
      /\ sum_by refused (map wake_item ths) = sum_by refused ths
      /\ sum_by closing (map wake_item ths) = sum_by closing ths
      /\ sum_by closed_items (map wake_item ths) = sum_by closed_items ths
      /\ sum_by closed_room (map wake_item ths) = sum_by closed_room ths
      /\ sum_by joining (map wake_item ths) = sum_by joining ths
      /\ sum_by holding (map wake_item ths) = sum_by holding ths
      /\ sum_by workers (map wake_item ths) = sum_by workers ths
      /\ forall t, sum_by (holds t) (map wake_item ths) = sum_by (holds t) ths).
Proof.
  rewrite <- sum_by_plus. split; [|split].
  - apply sum_by_map. by intros [| []].
  - rewrite (sum_by_map _ (fun _ => 0)); [|by intros [| []]]. by apply sum_by_zero; [|apply Forall_true].
  - repeat split; intros; apply sum_by_map; by intros [| []].
Qed.

Lemma counts_wake_room ths :
  sum_by pushing (map wake_room ths) = sum_by pushing ths + sum_by waiting_room ths
  /\ sum_by waiting_room (map wake_room ths) = 0
  /\ (sum_by waiting_item (map wake_room ths) = sum_by waiting_item ths
      /\ sum_by popped (map wake_room ths) = sum_by popped ths
      /\ sum_by exited (map wake_room ths) = sum_by exited ths
      /\ sum_by popping (map wake_room ths) = sum_by popping ths
      /\ sum_by pushed (map wake_room ths) = sum_by pushed ths
      /\ sum_by refused (map wake_room ths) = sum_by refused ths
      /\ sum_by closing (map wake_room ths) = sum_by closing ths
      /\ sum_by closed_items (map wake_room ths) = sum_by closed_items ths
      /\ sum_by closed_room (map wake_room ths) = sum_by closed_room ths
      /\ sum_by joining (map wake_room ths) = sum_by joining ths
      /\ sum_by holding (map wake_room ths) = sum_by holding ths
      /\ sum_by workers (map wake_room ths) = sum_by workers ths
      /\ forall t, sum_by (holds t) (map wake_room ths) = sum_by (holds t) ths).
Proof.
  rewrite <- sum_by_plus. split; [|split].
  - apply sum_by_map. by intros [? []|[| | |? ? []|]].
  - rewrite (sum_by_map _ (fun _ => 0)); [|by intros [? []|[| | |? ? []|]]].
    by apply sum_by_zero; [|apply Forall_true].
  - repeat split; intros; apply sum_by_map; by intros [? []|[| | |? ? []|]].
Qed.

(** The pool after a step, in counts, for the thread at [Hi]. *)
Ltac count_threads Hi :=
  cbn [move set_threads set_queue set_submitted set_shutting_down add_accepted add_started
       complete add_thrown thrown threads tasks_ shutting_down_ submitted_ completed_ accepted started finished
       capacity_ queue_ closed_ close];
  rewrite ?(sum_by_insert _ _ _ _ _ Hi);
  cbn [plug act popping waiting_item waiting_room popped exited pushing pushed refused closing
       closed_items closed_room joining holding workers is_client negb holds b2n waits_item
       waits_room is_exited].

(** Closes the arithmetic of an invariant after [count_threads]. *)
Ltac settle :=
  rewrite ?u64_add_l, ?u64_sub_l, ?len_app, ?len_cons, ?len_nil;
  try match goal with H : thrown _ = [] -> _, E : thrown _ = [] |- _ => specialize (H E) end;
  first
    [ lia
    | match goal with
      | H : ?x = u64 _ |- ?x = u64 _ => rewrite H; f_equal; lia
      | H : ?x = u64 _ |- u64 (?x + _) = u64 _ => rewrite H, u64_add_l; f_equal; lia
      | H : ?x = u64 _ |- u64 (?x - _) = u64 _ => rewrite H, u64_sub_l; f_equal; lia
      | H : ?a = ?b ++ ?q |- ?a ++ _ = ?b ++ ?q ++ _ => by rewrite H, app_assoc
      | H : ?a = ?b ++ _ :: ?q |- ?a = (?b ++ _) ++ ?q => by rewrite H, <- app_assoc
      | H : forall t, occurs t _ = _ |- _ => rewrite ?occurs_app, ?H; simpl; lia
      end
    | done ].

Ltac own_counts Hi :=
  let Hown := fresh in let Hall := fresh in
  pose proof (counts_at _ _ _ Hi) as [Hown Hall];
  cbn [plug act popping waiting_item waiting_room popped exited pushing pushed refused closing
       closed_items closed_room joining b2n waits_item waits_room is_exited] in Hown.

(** The invariant after the step of thread [Hi], in a list of threads that
    [others] rewrites the counts of. *)
Ltac inv_step Hi others :=
  split; [split|unfold room_told];
  try (lazymatch goal with |- forall _ : task, _ => intro end);
  count_threads Hi; others; intros; settle.

Lemma notify_item_cases ths ths' i th :
  notify_one waits_item wake_item ths ths' -> ths !! i = Some th -> waits_item th = false ->
  (ths' = ths /\ sum_by waiting_item ths = 0)
  \/ exists j, ths' = <[j := Worker WPop]> ths /\ ths !! j = Some (Worker WWaitItem)
                /\ ths' !! i = Some th.
Proof.
  intros [ths0 Hz|ths0 j th0 Hj Hw] Hi Hni.
  - left. split; [done|]. apply sum_by_zero; [apply indicators_nonneg|].
    eapply Forall_impl; [exact Hz|]. intros x Hx. unfold waiting_item. by rewrite Hx.
  - right. exists j. destruct th0 as [|[]]; try done. split; [done|]. split; [done|].
    rewrite list_lookup_insert_ne; [done|]. congruence.
Qed.

Lemma notify_room_cases ths ths' i th :
  notify_one waits_room wake_room ths ths' -> ths !! i = Some th -> waits_room th = false ->
  (ths' = ths /\ sum_by waiting_room ths = 0)
  \/ exists j c todo t, ths' = <[j := plug c todo (APushing t)]> ths
       /\ ths !! j = Some (plug c todo (AWaitRoom t)) /\ ths' !! i = Some th.
Proof.
  intros [ths0 Hz|ths0 j th0 Hj Hw] Hi Hni.
  - left. split; [done|]. apply sum_by_zero; [apply indicators_nonneg|].
    eapply Forall_impl; [exact Hz|]. intros x Hx. unfold waiting_room. by rewrite Hx.
  - right. assert (i <> j) by congruence.
    destruct th0 as [todo []|[| | |u todo []|]]; try done;
      [exists j, InClient, todo, t|exists j, (InWorker u), todo, t];
      (split; [done|]; split; [done|]); by rewrite list_lookup_insert_ne.
Qed.

Lemma push_notifies_inv p i c todo ths :
  pool_safe p -> threads p !! i = Some (plug c todo APushed) ->
  notify_one waits_item wake_item (threads p) ths ->
  keeps p (move (set_threads p ths) i (plug c todo AReady)).
Proof.
  intros [] Hi Hn. destruct (notify_item_cases _ _ i _ Hn Hi) as [[-> Hz]|(j & -> & Hj & Hi')];
    [by destruct c| |].
  - destruct c; own_counts Hi; inv_step Hi idtac.
  - destruct c; own_counts Hi; own_counts Hj; inv_step Hi' ltac:(rewrite ?(sum_by_insert _ _ _ _ _ Hj); cbn [popping waiting_item
      waiting_room popped exited pushing pushed refused closing closed_items closed_room joining
      holding workers is_client negb holds b2n waits_item waits_room is_exited act]).
Qed.

Lemma call_step_inv p i c todo a p' :
  pool_safe p -> threads p !! i = Some (plug c todo a) -> call_step p i c todo a p' -> keeps p p'.
Proof.
  intros Hinv Hi Hstep. pose proof Hinv as []. destruct Hstep.
  all: try (destruct c; own_counts Hi; by inv_step Hi idtac).
  - apply push_locked_wait in H as [? ?]. destruct c; own_counts Hi; by inv_step Hi idtac.
  - apply push_locked_refused in H. destruct c; own_counts Hi; by inv_step Hi idtac.
  - apply push_locked_done in H as (? & ? & ->). destruct c; own_counts Hi; by inv_step Hi idtac.
  - by apply push_notifies_inv.
  - assert (Hi' : map wake_item (threads p) !! i = Some (plug c todo AClosedItems))
      by (apply list_lookup_fmap_Some; exists (plug c todo AClosedItems); by destruct c).
    destruct (counts_wake_item (threads p))
      as (? & ? & ? & ? & ? & ? & ? & ? & ? & ? & ? & ? & ? & ? & Hh).
    destruct c; own_counts Hi; by inv_step Hi' ltac:(rewrite ?Hh).
  - assert (Hi' : map wake_room (threads p) !! i = Some (plug c todo AClosedRoom))
      by (apply list_lookup_fmap_Some; exists (plug c todo AClosedRoom); by destruct c).
    destruct (counts_wake_room (threads p))
      as (? & ? & ? & ? & ? & ? & ? & ? & ? & ? & ? & ? & ? & ? & Hh).
    destruct c; own_counts Hi; by inv_step Hi' ltac:(rewrite ?Hh).
Qed.

Lemma pop_notifies_inv p i t ths :
  pool_safe p -> threads p !! i = Some (Worker (WPopped t)) ->
  notify_one waits_room wake_room (threads p) ths ->
  keeps p (move (set_threads p ths) i (Worker (WRunning t (body t) AReady))).
Proof.
  intros [] Hi Hn. own_counts Hi.
  destruct (notify_room_cases _ _ i _ Hn Hi) as [[-> Hz]|(j & c & todo & u & -> & Hj & Hi')]; [done| |].
  - inv_step Hi idtac.
  - destruct c; own_counts Hj; inv_step Hi' ltac:(rewrite ?(sum_by_insert _ _ _ _ _ Hj);
      cbn [plug popping waiting_item waiting_room popped exited pushing pushed refused closing
      closed_items closed_room joining holding workers is_client negb holds b2n waits_item
      waits_room is_exited act]).
Qed.

Lemma worker_step_inv p i w p' :
  pool_safe p -> threads p !! i = Some (Worker w) -> worker_step p i w p' -> keeps p p'.
Proof.
  intros Hinv Hi Hstep. pose proof Hinv as []. destruct Hstep.
  - apply pop_locked_wait in H as [? Hq]. own_counts Hi.
    assert (len (queue_ (tasks_ p)) = 0) by (by rewrite Hq). inv_step Hi idtac.
  - apply pop_locked_none in H as [? Hq]. own_counts Hi.
    assert (len (queue_ (tasks_ p)) = 0) by (by rewrite Hq). inv_step Hi idtac.
  - apply pop_locked_done in H as (rest & Hq & ->). own_counts Hi.
    pose proof (len_nonneg rest). unfold keeps, room_told. rewrite Hq, ?len_cons in *. inv_step Hi idtac.
  - by apply pop_notifies_inv.
  - own_counts Hi. inv_step Hi idtac.
Qed.

Lemma spurious_keeps p p' : pool_safe p -> spurious p p' -> keeps p p'.
Proof.
  intros [] Hs. destruct Hs as [i th Hi Hw|i th Hi Hw].
  - destruct th as [|[]]; try done. own_counts Hi. cbn [wake_item]. inv_step Hi idtac.
  - destruct th as [todo a|[| | |u todo a|]]; try done; destruct a; try done; own_counts Hi;
      cbn [wake_room]; inv_step Hi idtac.
Qed.

Lemma step_keeps p p' : pool_safe p -> step p p' -> keeps p p'.
Proof. intros Hp [i c todo a Hi Hs|i w Hi Hs]; [by eapply call_step_inv|by eapply worker_step_inv]. Qed.

Lemma keeps_inv p p' : pool_inv p -> keeps p p' -> pool_inv p'.
Proof. intros [Hs Hr] [Hs' Hr']. split; [done|by apply Hr']. Qed.

Lemma step_inv p p' : pool_inv p -> step p p' -> pool_inv p'.
Proof. intros Hp Hs. eapply keeps_inv; [done|]. by apply step_keeps; [apply Hp|]. Qed.

Lemma spurious_inv p p' : pool_inv p -> spurious p p' -> pool_inv p'.
Proof. intros Hp Hs. eapply keeps_inv; [done|]. by apply spurious_keeps; [apply Hp|]. Qed.

Lemma reachable_inv p0 p : pool_inv p0 -> reachable p0 p -> pool_inv p.
Proof. intros H0. induction 1; [done|by eapply step_inv|by eapply spurious_inv]. Qed.

(** An exception keeps the safe part; the room that its thread was told of stays
    told when nobody else waits for it. *)
Lemma throws_safe p p' : pool_safe p -> throws p p' -> pool_safe p'.
Proof.
  intros Hp Hs. pose proof Hp as []. destruct Hs as [i c todo t q Hi Hq].
  apply push_locked_done in Hq as (? & ? & _).
  assert (thrown p ++ [t] <> []) by (by destruct (thrown p)).
  destruct c; own_counts Hi; (split;
    try (lazymatch goal with |- forall _ : task, _ => intro end); count_threads Hi; intros; settle).
Qed.

Lemma throws_room p p' :
  throws p p' -> sum_by waiting_room (threads p) = 0 -> room_told p'.
Proof.
  intros [i c todo t q Hi Hq] Hz. unfold room_told. destruct c; count_threads Hi; lia.
Qed.

Lemma throwing_safe p0 p : pool_safe p0 -> reachable_throwing p0 p -> pool_safe p.
Proof.
  intros H0. induction 1 as [|p p' _ IH Hs|p p' _ IH Hs|p p' _ IH Hs]; [done| | |by eapply throws_safe].
  - by apply (step_keeps p).
  - by apply (spurious_keeps p).
Qed.

Lemma new_pool_inv n queue_capacity spawned calls p :
  0 <= n -> 0 <= queue_capacity -> new_pool n queue_capacity spawned calls = Done p -> pool_inv p.
Proof.
  unfold new_pool, new_queue. intros Hn Hc.
  destruct (Z.eqb_spec queue_capacity 0); [done|]. cbn [obind].
  destruct (Z.eqb_spec n 0); [done|]. destruct spawned; [|done]. intros [= <-].
  assert (Hz : forall f : thread -> Z, f (Worker WPop) = 0 -> (forall todo, f (Client todo AReady) = 0) ->
    sum_by f (replicate (Z.to_nat n) (Worker WPop) ++ map (fun todo => Client todo AReady) calls) = 0).
  { intros f H1 H2. rewrite sum_by_app. unfold sum_by.
    induction (Z.to_nat n); simpl; [|lia]. induction calls; simpl; [done|].
    rewrite H2. lia. }
  split; [split|unfold room_told]; simpl; intros; rewrite ?len_nil, ?Hz in * by done; try done; try lia.
  rewrite sum_by_app. assert (0 <= sum_by workers (map (fun todo => Client todo AReady) calls))
    by (apply sum_by_nonneg; by intros []).
  destruct (Z.to_nat n) as [|k] eqn:E; [lia|].
  assert (0 <= sum_by workers (replicate k (Worker WPop))) by (apply sum_by_nonneg; by intros []).
  clear Hz. change (0 < 1 + sum_by workers (replicate k (Worker WPop))
                    + sum_by workers (map (fun todo => Client todo AReady) calls)). lia.
Qed.

(** ** Consequences *)

(** Without exceptions [thrown] stays as it is. *)
Lemma step_thrown p p' : step p p' -> thrown p' = thrown p.
Proof. by intros [? ? ? ? _ []|? ? _ []]. Qed.

Lemma reachable_thrown p0 p : reachable p0 p -> thrown p = thrown p0.
Proof.
  induction 1 as [|p p' _ IH Hs|p p' _ IH Hs]; [done| |]; rewrite <- IH.
  - by apply step_thrown.
  - by destruct Hs.
Qed.

Lemma new_pool_thrown n queue_capacity spawned calls p :
  new_pool n queue_capacity spawned calls = Done p -> thrown p = [].
Proof.
  unfold new_pool, new_queue. destruct (_ =? _); [done|]. cbn [obind].
  destruct (_ =? _); [done|]. destruct spawned; [|done]. by intros [= <-].
Qed.

Lemma occurs_count t l : occurs t l = Z.of_nat (count_occ (@decide_rel _ _ (=) _) l t).
Proof.
  unfold occurs. induction l as [|u l IH]; [done|]. simpl. rewrite IH. unfold b2n.
  case_bool_decide; destruct (decide_rel _ u t); try done; lia.
Qed.

Lemma occurs_permutation l k : (forall t, occurs t l = occurs t k) -> Permutation l k.
Proof.
  intros H. apply (Permutation_count_occ (@decide_rel _ _ (=) _)). intros t.
  specialize (H t). rewrite !occurs_count in H. lia.
Qed.

Lemma holds_none p :
  sum_by holding (threads p) = 0 -> forall t, sum_by (holds t) (threads p) = 0.
Proof.
  intros H t. apply sum_by_zero in H; [|by intros [|[]]].
  apply sum_by_zero; [intros [|[]]; simpl; try done; unfold b2n; by case_bool_decide|].
  eapply Forall_impl; [exact H|]. by intros [|[]].
Qed.

Lemma all_finished p :
  pool_safe p -> len (queue_ (tasks_ p)) = 0 -> sum_by holding (threads p) = 0 ->
  Permutation (finished p) (accepted p).
Proof.
  intros Hp Hq Hh. apply occurs_permutation. intros t.
  rewrite (pi_fifo p Hp), (len_zero _ Hq), app_nil_r, (pi_once p Hp), holds_none by done. lia.
Qed.

Lemma exited_counts p :
  all_exited (threads p) ->
  sum_by holding (threads p) = 0 /\ sum_by exited (threads p) = sum_by workers (threads p).
Proof.
  intros H. split.
  - apply sum_by_zero; [by intros [|[]]|]. eapply Forall_impl; [exact H|].
    intros [|[]] [|]; done.
  - unfold sum_by. induction H as [|th ths Hth _ IH]; [done|]. simpl. rewrite IH.
    destruct th as [|[]], Hth; done.
Qed.

Lemma in_flight_le ths :
  sum_by pushing ths + sum_by waiting_room ths + sum_by refused ths <= len ths.
Proof.
  induction ths as [|th ths IH]; [done|]. rewrite len_cons. unfold sum_by in *. simpl.
  assert (pushing th + waiting_room th + refused th <= 1); [|lia].
  by destruct th as [? []|[| | |? ? []|]].
Qed.

(** ** Progress *)

(** A task that does not submit to its own pool. *)
Definition leaf_task (t : task) : Prop := Forall (fun c => c = CShutdown) (body t).

(** A worker never waits for room: its task does not submit. *)
Definition calm (th : thread) : Prop :=
  match th with
  | Worker (WRunning _ todo a) =>
      Forall (fun c => c = CShutdown) todo
      /\ match a with AReady | AClosing | AClosedItems | AClosedRoom | AJoin => True | _ => False end
  | _ => True
  end.

Lemma calm_wake ths w :
  w = wake_item \/ w = wake_room -> Forall calm ths -> Forall calm (map w ths).
Proof.
  intros Hw H. apply Forall_map. eapply Forall_impl; [exact H|].
  intros th Hth. destruct Hw as [->| ->]; destruct th as [? []|[| | |? ? []|]]; simpl in *; tauto.
Qed.

Lemma calm_notify waits wake ths ths' :
  wake = wake_item \/ wake = wake_room -> notify_one waits wake ths ths' ->
  Forall calm ths -> Forall calm ths'.
Proof.
  intros Hw [ths0 _|ths0 j th Hj _] H; [done|]. apply Forall_insert; [done|].
  eapply Forall_lookup_1 in H; [|exact Hj].
  destruct Hw as [->| ->]; destruct th as [? []|[| | |? ? []|]]; simpl in *; tauto.
Qed.

Lemma calm_step p p' :
  (forall t, leaf_task t) -> Forall calm (threads p) -> step p p' -> Forall calm (threads p').
Proof.
  intros Hleaf Hc [i c todo a Hi Hs|i w Hi Hs]; pose proof (Forall_lookup_1 _ _ _ _ Hc Hi) as Hth.
  - destruct Hs; simpl; apply Forall_insert;
      try (by eapply calm_notify; [|done|]; auto); try (by apply calm_wake; auto); try done;
      destruct c; simpl in *; try done; destruct Hth as [Htodo ?]; try done; subst;
      try (apply Forall_cons in Htodo as [? ?]); done.
  - destruct Hs; simpl; apply Forall_insert; try (by eapply calm_notify; [|done|]; auto); try done.
    simpl. split; [apply Hleaf|done].
Qed.

Lemma calm_reachable p0 p :
  (forall t, leaf_task t) -> Forall calm (threads p0) -> reachable p0 p -> Forall calm (threads p).
Proof.
  intros Hleaf H0. induction 1 as [|p p' _ IH Hs|p p' _ IH Hs]; [done|by eapply calm_step|].
  destruct Hs as [i th Hi Hw|i th Hi Hw]; simpl; apply Forall_insert; try done;
    pose proof (Forall_lookup_1 _ _ _ _ IH Hi) as Hth;
    destruct th as [? []|[| | |? ? []|]]; try done; simpl in *; tauto.
Qed.

Lemma new_pool_calm n queue_capacity spawned calls p :
  new_pool n queue_capacity spawned calls = Done p -> Forall calm (threads p).
Proof.
  unfold new_pool, new_queue. destruct (queue_capacity =? 0); [done|]. cbn [obind].
  destruct (n =? 0); [done|]. destruct spawned; [|done]. intros [= <-]. simpl.
  apply Forall_app. split; [by apply Forall_replicate|]. apply Forall_map. by apply Forall_true.
Qed.

Lemma notify_exists waits wake ths : exists ths', notify_one waits wake ths ths'.
Proof.
  destruct (decide (Forall (fun th => waits th = false) ths)) as [H|H].
  - exists ths. by constructor.
  - apply not_Forall_Exists in H; [|intros th; apply _].
    apply Exists_exists in H as (th & (j & Hj)%list_elem_of_lookup & Hw).
    exists (<[j := wake th]> ths). econstructor; [done|]. simpl in Hw.
    by destruct (waits th).
Qed.

(** Where a thread can be when no step is possible. *)
Inductive resting : thread -> Prop :=
| Rest_done : resting (Client [] AReady)
| Rest_room todo t : resting (Client todo (AWaitRoom t))
| Rest_join todo : resting (Client todo AJoin)
| Rest_item : resting (Worker WWaitItem)
| Rest_exited : resting (Worker WExited).

Lemma call_progress p i c todo a :
  threads p !! i = Some (plug c todo a) ->
  (exists p', step p p')
  \/ (a = AReady /\ todo = []) \/ (exists t, a = AWaitRoom t) \/ (a = AJoin /\ on_worker c = false).
Proof.
  intros Hi.
  assert (Hgo : forall p', call_step p i c todo a p' -> exists p', step p p')
    by (intros p' Hs; exists p'; by econstructor).
  destruct a as [|t|t|t| | | | | |].
  - destruct todo as [|[[t|]|] todo]; [by auto| | |]; left.
    + destruct (shutting_down_ p) eqn:Hs; eapply Hgo; [by eapply Submit_rejected|by eapply Submit_loaded].
    + eapply Hgo. by eapply Submit_null.
    + destruct (shutting_down_ p) eqn:Hs; eapply Hgo; [by eapply Shutdown_again|by eapply Shutdown_first].
  - left. eapply Hgo. apply Submit_counted.
  - left. destruct (push_locked t (tasks_ p)) eqn:Hp; eapply Hgo;
      [by apply Push_waits|by apply Push_refused|by eapply Push_done].
  - eauto.
  - left. destruct (notify_exists waits_item wake_item (threads p)) as [ths Hn].
    eapply Hgo. by apply Push_notifies.
  - left. eapply Hgo. apply Submit_uncounted.
  - left. eapply Hgo. apply Close.
  - left. eapply Hgo. apply Close_items.
  - left. eapply Hgo. apply Close_room.
  - destruct (on_worker c) eqn:Hc; [left; eapply Hgo; by apply Join_worker|by auto].
Qed.

Lemma thread_progress p i th :
  calm th -> threads p !! i = Some th -> (exists p', step p p') \/ resting th.
Proof.
  intros Hth Hi. destruct th as [todo a|[| |t|t todo a|]].
  - destruct (call_progress p i InClient todo a Hi)
      as [?|[[-> ->]|[[t ->]|[-> _]]]]; [by left|right; constructor..].
  - left. destruct (pop_locked (tasks_ p)) eqn:Hp; eexists; (eapply Step_worker; [done|]);
      [by apply Pop_waits|by apply Pop_none|by eapply Pop_done].
  - right. constructor.
  - destruct (notify_exists waits_room wake_room (threads p)) as [ths Hn]. left. eexists.
    eapply Step_worker; [done|]. by apply Pop_notifies.
  - destruct (call_progress p i (InWorker t) todo a Hi) as [?|[[-> ->]|[[u ->]|[-> ?]]]];
      [by left| |by destruct Hth as [_ []]|done].
    left. eexists. eapply Step_worker; [done|]. apply Task_finished.
  - right. constructor.
Qed.

(** The counts of the states that no resting thread is in. *)
Lemma resting_counts ths :
  Forall resting ths ->
  sum_by popping ths = 0 /\ sum_by popped ths = 0 /\ sum_by pushing ths = 0 /\ sum_by pushed ths = 0
  /\ sum_by closing ths = 0 /\ sum_by closed_items ths = 0 /\ sum_by closed_room ths = 0
  /\ sum_by holding ths = 0 /\ sum_by workers ths = sum_by waiting_item ths + sum_by exited ths.
Proof.
  unfold sum_by. induction 1 as [|th ths Hth _ IH]; [done|]. simpl.
  destruct IH as (? & ? & ? & ? & ? & ? & ? & ? & ?). destruct Hth; simpl; repeat split;
    cbn [popping popped pushing pushed closing closed_items closed_room holding workers
         waiting_item exited b2n act waits_item is_exited is_client negb]; lia.
Qed.

Lemma stuck_open p :
  pool_inv p -> Forall resting (threads p) -> closed_ (tasks_ p) = false ->
  len (queue_ (tasks_ p)) = 0 /\ sum_by waiting_room (threads p) = 0 /\ sum_by joining (threads p) = 0.
Proof.
  intros [[] Hroom] Hr Hc. unfold room_told in Hroom. pose proof (len_nonneg (queue_ (tasks_ p))).
  destruct (resting_counts _ Hr) as (? & ? & ? & ? & ? & ? & ? & ? & ?).
  destruct indicators_nonneg as (_ & Hwi & Hwr & _ & He & _).
  pose proof (sum_by_nonneg _ (threads p) Hwi). pose proof (sum_by_nonneg _ (threads p) Hwr).
  pose proof (sum_by_nonneg _ (threads p) He). lia.
Qed.

Lemma stuck_closed p :
  pool_safe p -> Forall resting (threads p) -> closed_ (tasks_ p) = true ->
  len (queue_ (tasks_ p)) = 0 /\ sum_by waiting_room (threads p) = 0 /\ all_exited (threads p).
Proof.
  intros [] Hr Hc.
  destruct (resting_counts _ Hr) as (? & ? & ? & ? & ? & ? & ? & ? & ?).
  destruct indicators_nonneg as (_ & Hwi & Hwr & _ & He & _).
  assert (Hw0 : sum_by waiting_item (threads p) = 0) by lia.
  split; [lia|]. split; [lia|]. apply Forall_lookup. intros i th Hi.
  pose proof (sum_by_zero_lookup _ _ _ _ Hwi Hw0 Hi) as Hth.
  eapply Forall_lookup_1 in Hr; [|exact Hi]. destruct Hr; auto. done.
Qed.

(** A joining caller that cannot move on is waiting for a worker. *)
Definition joins_blocked (p : pool) (th : thread) : Prop :=
  forall todo, th = Client todo AJoin -> ~ all_exited (threads p).

#[global] Instance all_exited_dec ths : Decision (all_exited ths).
Proof. unfold all_exited. apply _. Defined.

(** Everything has been done: the callers have returned from all their calls, the
    workers wait for work or have exited, and what was accepted has finished. *)
Definition all_done (p : pool) : Prop :=
  Forall (fun th => th = Client [] AReady \/ th = Worker WWaitItem \/ th = Worker WExited)
    (threads p)
  /\ queue_ (tasks_ p) = [] /\ Permutation (finished p) (accepted p).

Lemma rest_all_done p :
  pool_inv p -> Forall resting (threads p) -> Forall (joins_blocked p) (threads p) -> all_done p.
Proof.
  intros Hp Hrest Hblocked.
  destruct indicators_nonneg as (_ & _ & Hwr & _ & _ & _ & _ & _ & _ & _ & _ & Hj).
  assert (H : len (queue_ (tasks_ p)) = 0 /\ sum_by waiting_room (threads p) = 0
              /\ (sum_by joining (threads p) = 0 \/ all_exited (threads p))).
  { destruct (closed_ (tasks_ p)) eqn:Hcl.
    - destruct (stuck_closed p (pi_safe p Hp) Hrest Hcl) as (? & ? & ?). auto.
    - destruct (stuck_open p Hp Hrest Hcl) as (? & ? & ?). auto. }
  destruct H as (Hq & Hw & Hjoin). split; [|split].
  - apply Forall_lookup. intros i th Hi. pose proof (Forall_lookup_1 _ _ _ _ Hrest Hi) as Hth.
    destruct Hth as [|todo t|todo| |]; auto.
    + by apply (sum_by_zero_lookup _ _ _ _ Hwr Hw) in Hi.
    + destruct Hjoin as [Hj0|Hex]; [by apply (sum_by_zero_lookup _ _ _ _ Hj Hj0) in Hi|].
      by destruct (Forall_lookup_1 _ _ _ _ Hblocked Hi todo).
  - by apply len_zero.
  - apply all_finished; [apply Hp|done|]. by apply resting_counts.
Qed.

(** Some thread can move, or everything has been done. *)
Lemma step_or_done p :
  pool_inv p -> Forall calm (threads p) -> (exists p', step p p') \/ all_done p.
Proof.
  intros Hp Hc.
  assert (Hall : forall ths, (forall th, th ∈ ths -> th ∈ threads p) ->
    (exists p', step p p') \/ Forall (fun th => resting th /\ joins_blocked p th) ths).
  { induction ths as [|th ths IH]; intros Hin; [by right|].
    destruct IH as [?|IH]; [intros x Hx; apply Hin; by right|by left|].
    assert (th ∈ threads p) as [i Hi]%list_elem_of_lookup by (apply Hin; by left).
    destruct (thread_progress p i th (Forall_lookup_1 _ _ _ _ Hc Hi) Hi) as [?|Hr]; [by left|].
    destruct (decide (all_exited (threads p))) as [Hex|Hex].
    - destruct Hr; try (right; constructor; [split; [constructor|by intros ?]|done]).
      left. eexists. eapply (Step_call p _ i InClient); [done|]. by apply Join_all.
    - right. constructor; [split; [done|by intros todo _]|done]. }
  destruct (Hall (threads p)) as [?|[Hr Hb]%Forall_and]; [done|by left|]. right. by apply rest_all_done.
Qed.

(** ** Properties *)

(** C24: the pool's queue discipline.  In every state any interleaving of the
    workers and any number of callers can reach, the queue is within its
    capacity, tasks are started in the order they were accepted, and every
    accepted task is exactly once in the queue, running, or finished. *)
Theorem pool_bounded_fifo_once n queue_capacity spawned calls p0 p :
  0 <= n -> 0 <= queue_capacity -> new_pool n queue_capacity spawned calls = Done p0 ->
  reachable_throwing p0 p ->
  len (queue_ (tasks_ p)) <= capacity_ (tasks_ p)
  /\ accepted p = started p ++ queue_ (tasks_ p)
  /\ forall t, occurs t (accepted p)
       = occurs t (queue_ (tasks_ p)) + sum_by (holds t) (threads p) + occurs t (finished p).
Proof.
  intros Hn Hc Hnew Hr. apply new_pool_inv in Hnew; [|done..]. apply pi_safe in Hnew.
  destruct (throwing_safe _ _ Hnew Hr). split; [done|]. split; [done|].
  intros t. rewrite pi_fifo0, occurs_app, pi_once0. lia.
Qed.

(** C15: shutdown drains.  [shutdown] returns to an external caller only when all
    workers have left their loop; in every reachable state where they have, the
    queue is empty and exactly the accepted tasks have been run to completion,
    so [completed] counts them all. *)
Theorem shutdown_drains_accepted n queue_capacity spawned calls p0 p :
  0 <= n -> 0 <= queue_capacity -> new_pool n queue_capacity spawned calls = Done p0 ->
  reachable_throwing p0 p -> all_exited (threads p) ->
  queue_ (tasks_ p) = [] /\ Permutation (finished p) (accepted p)
  /\ completed_ p = u64 (len (accepted p)).
Proof.
  intros Hn Hc Hnew Hr Hex. apply new_pool_inv in Hnew; [|done..]. apply pi_safe in Hnew.
  pose proof (throwing_safe _ _ Hnew Hr) as Hp. destruct (exited_counts p Hex) as [Hh He].
  pose proof (pi_workers p Hp). destruct (pi_exited p Hp) as [_ Hq]; [lia|].
  pose proof (all_finished p Hp Hq Hh) as Hperm.
  split; [by apply len_zero|]. split; [done|]. rewrite (pi_completed p Hp).
  unfold len. by rewrite Hperm.
Qed.

(** The counters agree.  In every reachable state (with fewer than 2^64 tasks)
    [completed] is at most [submitted]: the count is published before the queue
    can wake a worker, and taken back when the queue refuses. *)
Theorem completed_at_most_submitted n queue_capacity spawned calls p0 p :
  0 <= n -> 0 <= queue_capacity -> new_pool n queue_capacity spawned calls = Done p0 ->
  reachable_throwing p0 p -> len (accepted p) + len (threads p) < 2 ^ 64 ->
  completed_ p <= submitted_ p.
Proof.
  intros Hn Hc Hnew Hr Hlt. apply new_pool_inv in Hnew; [|done..]. apply pi_safe in Hnew.
  destruct (throwing_safe _ _ Hnew Hr). pose proof (in_flight_le (threads p)).
  assert (Ha : len (accepted p) = len (started p) + len (queue_ (tasks_ p)))
    by (by rewrite pi_fifo0, len_app).
  destruct indicators_nonneg as (_ & _ & Hwr & _ & _ & Hpu & _ & Hre & _).
  pose proof (sum_by_nonneg _ (threads p) Hwr). pose proof (sum_by_nonneg _ (threads p) Hpu).
  pose proof (sum_by_nonneg _ (threads p) Hre).
  assert (0 <= sum_by holding (threads p)) by (apply sum_by_nonneg; by intros [|[]]).
  pose proof (len_nonneg (queue_ (tasks_ p))). pose proof (len_nonneg (finished p)).
  rewrite pi_completed0, pi_submitted0, !u64_small by lia. lia.
Qed.

(** A full queue makes the caller wait.  As long as no shutdown has begun, no
    submission of a task is refused, in the queue or on the way out of [submit]:
    when the queue is full the caller waits, whatever the load. *)
Theorem full_queue_waits n queue_capacity spawned calls p0 p :
  0 <= n -> 0 <= queue_capacity -> new_pool n queue_capacity spawned calls = Done p0 ->
  reachable p0 p -> shutting_down_ p = false ->
  (forall i c todo, threads p !! i <> Some (plug c todo ARefused))
  /\ (forall t, push_locked t (tasks_ p) <> PushRefused)
  /\ (capacity_ (tasks_ p) <= len (queue_ (tasks_ p)) ->
      forall t, push_locked t (tasks_ p) = PushWait).
Proof.
  intros Hn Hc Hnew Hr Hs. pose proof (new_pool_thrown _ _ _ _ _ Hnew) as Hth.
  apply new_pool_inv in Hnew; [|done..].
  destruct (reachable_inv _ _ Hnew Hr) as [[] _]. destruct (pi_open0 Hs) as (Hcl & _).
  rewrite (reachable_thrown _ _ Hr), Hth in pi_refused0. split; [|split].
  - intros i c todo Hi. specialize (pi_refused0 eq_refl). destruct c; own_counts Hi; lia.
  - intros t Ht%push_locked_refused. congruence.
  - intros Hfull t. by apply push_locked_wait.
Qed.

End ThreadPool.

(** ** Witnesses *)

Lemma reach_front {task} body (p0 p1 p : @pool task) :
  step body p0 p1 -> reachable body p1 p -> reachable body p0 p.
Proof.
  intros Hs. induction 1 as [|q q' _ IH|q q' _ IH].
  - eapply Reach_step; [apply Reach_refl|done].
  - by eapply Reach_step.
  - by eapply Reach_spurious.
Qed.

(** One worker and one caller that submits task 7 and shuts the pool down. *)
Definition ex_body (t : nat) : list (@call nat) := [].
Definition ex_start : @pool nat :=
  mkPool (mkQueue 1 [] false) false 0 0
    [Worker WPop; Client [CSubmit (Some 7%nat); CShutdown] AReady] [] [] [] [].
Definition ex_end : @pool nat :=
  mkPool (mkQueue 1 [] true) true 1 1 [Worker WExited; Client [] AReady]
    [7%nat] [7%nat] [7%nat] [].

Lemma ex_new :
  new_pool 1 1 true [[CSubmit (Some 7%nat); CShutdown]] = Done ex_start.
Proof. reflexivity. Qed.

Ltac call_turn c := eapply reach_front; [eapply (Step_call _ _ _ 1%nat InClient); [reflexivity|c]|].
Ltac worker_turn c := eapply reach_front; [eapply (Step_worker _ _ _ 0%nat); [reflexivity|c]|].

Lemma ex_run : reachable ex_body ex_start ex_end.
Proof.
  call_turn ltac:(eapply Submit_loaded; reflexivity).
  call_turn ltac:(apply Submit_counted).
  call_turn ltac:(eapply Push_done; reflexivity).
  call_turn ltac:(apply Push_notifies, Notify_none; by repeat constructor).
  worker_turn ltac:(eapply Pop_done; reflexivity).
  worker_turn ltac:(apply Pop_notifies, Notify_none; by repeat constructor).
  worker_turn ltac:(apply Task_finished).
  call_turn ltac:(eapply Shutdown_first; reflexivity).
  call_turn ltac:(apply Close).
  worker_turn ltac:(apply Pop_none; reflexivity).
  call_turn ltac:(apply Close_items).
  call_turn ltac:(apply Close_room).
  call_turn ltac:(apply Join_all; [reflexivity|repeat constructor; by auto]).
  match goal with |- reachable _ ?p _ => assert (p = ex_end) as -> by (vm_compute; reflexivity) end.
  apply Reach_refl.
Qed.

Lemma ex_end_stuck p' : ~ step ex_body ex_end p'.
Proof.
  intros [i c todo a Hi Hs|i w Hi Hs].
  - destruct i as [|[|i]], c; try discriminate Hi. injection Hi as Ht Ha. subst.
    inversion Hs; discriminate.
  - destruct i as [|[|i]]; [injection Hi as <-; inversion Hs|done|done].
Qed.

Lemma ex_end_exited : all_exited (threads ex_end).
Proof. repeat constructor; by auto. Qed.

Lemma pool_bounded_fifo_once_witness :
  len (queue_ (tasks_ ex_end)) <= capacity_ (tasks_ ex_end)
  /\ accepted ex_end = started ex_end ++ queue_ (tasks_ ex_end)
  /\ forall t, occurs t (accepted ex_end)
       = occurs t (queue_ (tasks_ ex_end)) + sum_by (holds t) (threads ex_end)
         + occurs t (finished ex_end).
Proof.
  apply (pool_bounded_fifo_once ex_body 1 1 true [[CSubmit (Some 7%nat); CShutdown]] ex_start).
  - lia.
  - lia.
  - apply ex_new.
  - apply reachable_no_throw, ex_run.
Defined.

Lemma shutdown_drains_accepted_witness :
  queue_ (tasks_ ex_end) = [] /\ Permutation (finished ex_end) (accepted ex_end)
  /\ completed_ ex_end = u64 (len (accepted ex_end)).
Proof.
  apply (shutdown_drains_accepted ex_body 1 1 true [[CSubmit (Some 7%nat); CShutdown]] ex_start).
  - lia.
  - lia.
  - apply ex_new.
  - apply reachable_no_throw, ex_run.
  - apply ex_end_exited.
Defined.

Lemma completed_at_most_submitted_witness : completed_ ex_end <= submitted_ ex_end.
Proof.
  apply (completed_at_most_submitted ex_body 1 1 true [[CSubmit (Some 7%nat); CShutdown]] ex_start).
  - lia.
  - lia.
  - apply ex_new.
  - apply reachable_no_throw, ex_run.
  - vm_compute. reflexivity.
Defined.

Lemma full_queue_waits_witness :
  (forall i c todo, threads ex_start !! i <> Some (plug c todo ARefused))
  /\ (forall t, push_locked t (tasks_ ex_start) <> PushRefused)
  /\ (capacity_ (tasks_ ex_start) <= len (queue_ (tasks_ ex_start)) ->
      forall t, push_locked t (tasks_ ex_start) = PushWait).
Proof.
  apply (full_queue_waits ex_body 1 1 true [[CSubmit (Some 7%nat); CShutdown]] ex_start).
  - lia.
  - lia.
  - apply ex_new.
  - apply Reach_refl.
  - reflexivity.
Defined.

