(* ===== verification/PoolProgress.v ===== *)
(** * The worker pool terminates ([capstone/reference/src/thread_pool.cpp])

    A measure on the states of [ThreadPool.v].  Every step of a thread lowers it,
    also the notifications, which wake threads that then do work again: a
    notification of one thread is paid for by the step that sends it, and the two
    notifications of all threads by the shutdown that sends them.  Only a spurious
    wake-up raises the measure, by one.  With [step_or_done] this makes every call
    on the pool return. *)

From stdpp Require Import base list strings.
From Stdlib Require Import ZArith Lia.
From S2P Require Import Prelude BlockingQueue ThreadPool.

Section PoolProgress.
Context {task : Type} `{!EqDecision task} (body : task -> list (call (task := task))).

(** ** The measure *)

(** [n] is the number of threads. *)
Definition shutdown_cost (n : Z) : Z := 2 * n + 5.
Definition task_cost (n : Z) (t : task) : Z := 4 + shutdown_cost n * len (body t).
Definition call_cost (n : Z) (c : call (task := task)) : Z :=
  match c with
  | CSubmit None => 1
  | CSubmit (Some t) => 6 + task_cost n t
  | CShutdown => shutdown_cost n
  end.

Definition activity_cost (n : Z) (a : activity (task := task)) : Z :=
  match a with
  | AReady => 0
  | ALoaded t => 5 + task_cost n t
  | APushing t => 4 + task_cost n t
  | AWaitRoom t => 3 + task_cost n t
  | APushed => 2
  | ARefused => 1
  | AClosing => 2 * n + 4
  | AClosedItems => 2 * n + 3
  | AClosedRoom => n + 2
  | AJoin => 1
  end.

Definition thread_cost (n : Z) (th : thread (task := task)) : Z :=
  match th with
  | Client todo a => sum_by (call_cost n) todo + activity_cost n a
  | Worker WExited => 0
  | Worker WWaitItem => 1
  | Worker WPop => 2
  | Worker (WPopped t) => 5 + shutdown_cost n * len (body t)
  | Worker (WRunning _ todo a) => 3 + sum_by (call_cost n) todo + activity_cost n a
  end.

Definition pool_cost (p : pool (task := task)) : Z :=
  let n := len (threads p) in
  sum_by (thread_cost n) (threads p) + sum_by (task_cost n) (queue_ (tasks_ p)).

Lemma task_cost_pos n t : 0 <= n -> 4 <= task_cost n t.
Proof. intros Hn. unfold task_cost, shutdown_cost. pose proof (len_nonneg (body t)). nia. Qed.

Lemma calls_cost_nonneg n todo : 0 <= n -> 0 <= sum_by (call_cost n) todo.
Proof.
  intros Hn. apply sum_by_nonneg. intros [[t|]|]; simpl; unfold shutdown_cost; [|lia..].
  pose proof (task_cost_pos n t Hn). lia.
Qed.

Lemma thread_cost_nonneg n th : 0 <= n -> 0 <= thread_cost n th.
Proof.
  intros Hn.
  assert (Ha : forall a, 0 <= activity_cost n a).
  { intros [|t|t|t| | | | | |]; simpl; try (pose proof (task_cost_pos n t Hn)); lia. }
  destruct th as [todo a|[| |t|t todo a|]]; simpl; try lia;
    try (pose proof (calls_cost_nonneg n todo Hn); pose proof (Ha a); lia).
  unfold shutdown_cost. pose proof (len_nonneg (body t)). nia.
Qed.

Lemma pool_cost_nonneg p : 0 <= pool_cost p.
Proof.
  unfold pool_cost. pose proof (len_nonneg (threads p)) as Hn.
  assert (0 <= sum_by (thread_cost (len (threads p))) (threads p))
    by (apply sum_by_nonneg; intros th; by apply thread_cost_nonneg).
  assert (0 <= sum_by (task_cost (len (threads p))) (queue_ (tasks_ p)));
    [|lia]. apply sum_by_nonneg. intros t. pose proof (task_cost_pos _ t Hn). lia.
Qed.

(** The calls of a task that does not submit are shutdowns. *)
Lemma leaf_calls_cost n t :
  leaf_task body t -> sum_by (call_cost n) (body t) = shutdown_cost n * len (body t).
Proof.
  unfold leaf_task. induction 1 as [|c l Hc _ IH]; [unfold sum_by, len; simpl; lia|].
  rewrite sum_by_cons, IH, len_cons, Hc. simpl. lia.
Qed.

(** ** Notifications *)

(** Waking a thread costs one. *)
Lemma wake_cost n wake th :
  wake = wake_item \/ wake = wake_room -> thread_cost n (wake th) <= thread_cost n th + 1.
Proof.
  intros [->| ->]; destruct th as [todo []|[| |t|t todo []|]]; simpl; lia.
Qed.

Lemma notify_one_cost n waits wake ths ths' i th :
  wake = wake_item \/ wake = wake_room -> notify_one waits wake ths ths' ->
  ths !! i = Some th -> waits th = false ->
  sum_by (thread_cost n) ths' <= sum_by (thread_cost n) ths + 1
  /\ ths' !! i = Some th /\ len ths' = len ths.
Proof.
  intros Hw [ths0 _|ths0 j x Hj Hx] Hi Hth; [split; [lia|done]|].
  rewrite (sum_by_insert _ _ _ _ _ Hj), len_insert. pose proof (wake_cost n wake x Hw).
  split; [lia|]. split; [|done]. rewrite list_lookup_insert_ne; [done|congruence].
Qed.

Lemma notify_all_cost n wake ths :
  wake = wake_item \/ wake = wake_room ->
  sum_by (thread_cost n) (map wake ths) <= sum_by (thread_cost n) ths + len ths.
Proof.
  intros Hw. induction ths as [|th ths IH]; [done|]. simpl map. rewrite !sum_by_cons, len_cons.
  pose proof (wake_cost n wake th Hw). lia.
Qed.

(** ** Steps lower the measure *)

Lemma plug_cost n c todo a :
  thread_cost n (plug c todo a)
  = (if on_worker c then 3 else 0) + sum_by (call_cost n) todo + activity_cost n a.
Proof. by destruct c. Qed.

(** The cost after thread [i] has moved on, in the threads that were woken. *)
Lemma move_cost p i ths th th' :
  ths !! i = Some th -> len ths = len (threads p) ->
  pool_cost (move (set_threads p ths) i th')
  = sum_by (thread_cost (len (threads p))) ths - thread_cost (len (threads p)) th
    + thread_cost (len (threads p)) th' + sum_by (task_cost (len (threads p))) (queue_ (tasks_ p)).
Proof.
  intros Hi Hl. unfold pool_cost. simpl. by rewrite len_insert, Hl, (sum_by_insert _ _ _ _ _ Hi).
Qed.

Ltac weigh Hi :=
  unfold pool_cost; simpl; rewrite ?len_insert, ?(sum_by_insert _ _ _ _ _ Hi), ?plug_cost,
    ?sum_by_cons, ?sum_by_app; simpl.

Lemma call_step_cost p i c todo a p' :
  threads p !! i = Some (plug c todo a) -> call_step p i c todo a p' ->
  pool_cost p' + 1 <= pool_cost p.
Proof.
  intros Hi Hs. pose proof (len_nonneg (threads p)) as Hn. pose proof (task_cost_pos (len (threads p))).
  destruct Hs; subst; try (weigh Hi; unfold shutdown_cost; lia).
  - weigh Hi. specialize (H t Hn). lia.
  - weigh Hi. specialize (H t Hn). lia.
  - apply push_locked_done in H0 as (_ & _ & ->). weigh Hi.
    change (sum_by (task_cost (len (threads p))) [t]) with (task_cost (len (threads p)) t + 0). lia.
  - destruct (notify_one_cost (len (threads p)) _ _ _ _ i _ (or_introl eq_refl) H0 Hi)
      as (? & Hi' & Hl); [by destruct c|].
    rewrite (move_cost _ _ _ _ _ Hi' Hl), !plug_cost. unfold pool_cost. simpl. lia.
  - rewrite (move_cost _ _ _ (plug c todo AClosedItems)), !plug_cost, ?len_map;
      [|apply list_lookup_fmap_Some; exists (plug c todo AClosedItems); by destruct c|apply len_map].
    pose proof (notify_all_cost (len (threads p)) wake_item (threads p) (or_introl eq_refl)).
    unfold pool_cost. simpl. lia.
  - rewrite (move_cost _ _ _ (plug c todo AClosedRoom)), !plug_cost, ?len_map;
      [|apply list_lookup_fmap_Some; exists (plug c todo AClosedRoom); by destruct c|apply len_map].
    pose proof (notify_all_cost (len (threads p)) wake_room (threads p) (or_intror eq_refl)).
    unfold pool_cost. simpl. lia.
Qed.

Lemma worker_step_cost p i w p' :
  (forall t, leaf_task body t) -> threads p !! i = Some (Worker w) -> worker_step body p i w p' ->
  pool_cost p' + 1 <= pool_cost p.
Proof.
  intros Hleaf Hi Hs. pose proof (len_nonneg (threads p)) as Hn. destruct Hs; try (weigh Hi; lia).
  - apply pop_locked_done in H as (rest & Hq & ->). weigh Hi. rewrite Hq, sum_by_cons.
    unfold task_cost. lia.
  - destruct (notify_one_cost (len (threads p)) _ _ _ _ i _ (or_intror eq_refl) H Hi)
      as (? & Hi' & Hl); [done|].
    rewrite (move_cost _ _ _ _ _ Hi' Hl). unfold pool_cost. simpl.
    rewrite leaf_calls_cost by done. lia.
  - weigh Hi. change (sum_by (call_cost (len (threads p))) []) with 0. lia.
Qed.

Lemma step_cost p p' :
  (forall t, leaf_task body t) -> step body p p' -> pool_cost p' + 1 <= pool_cost p.
Proof.
  intros Hleaf [i c todo a Hi Hs|i w Hi Hs]; [by eapply call_step_cost|by eapply worker_step_cost].
Qed.

Lemma spurious_cost p p' : spurious p p' -> pool_cost p' <= pool_cost p + 1.
Proof.
  intros [i th Hi _|i th Hi _]; weigh Hi;
    [pose proof (wake_cost (len (threads p)) wake_item th (or_introl eq_refl))
    |pose proof (wake_cost (len (threads p)) wake_room th (or_intror eq_refl))]; lia.
Qed.

(** ** Runs *)

(** A run of [steps] steps in which [wakes] threads were woken spuriously. *)
Inductive runs (p0 : pool (task := task)) : Z -> Z -> pool (task := task) -> Prop :=
| Runs_start : runs p0 0 0 p0
| Runs_step steps wakes p p' :
    runs p0 steps wakes p -> step body p p' -> runs p0 (steps + 1) wakes p'
| Runs_spurious steps wakes p p' :
    runs p0 steps wakes p -> spurious p p' -> runs p0 steps (wakes + 1) p'.

Lemma runs_reachable p0 steps wakes p : runs p0 steps wakes p -> reachable body p0 p.
Proof. induction 1; [apply Reach_refl|by eapply Reach_step|by eapply Reach_spurious]. Qed.

Lemma runs_cost p0 steps wakes p :
  (forall t, leaf_task body t) -> runs p0 steps wakes p ->
  steps + pool_cost p <= pool_cost p0 + wakes.
Proof.
  intros Hleaf. induction 1 as [|steps wakes p p' _ IH Hs|steps wakes p p' _ IH Hs]; [lia| |].
  - pose proof (step_cost _ _ Hleaf Hs). lia.
  - pose proof (spurious_cost _ _ Hs). lia.
Qed.

Lemma runs_trans p0 steps wakes p more wakes' p' :
  runs p0 steps wakes p -> runs p more wakes' p' -> runs p0 (steps + more) (wakes + wakes') p'.
Proof.
  intros H. induction 1 as [|m k p1 p2 _ IH Hs|m k p1 p2 _ IH Hs].
  - by rewrite !Z.add_0_r.
  - rewrite Z.add_assoc. by eapply Runs_step.
  - rewrite Z.add_assoc. by eapply Runs_spurious.
Qed.

(** A pool that keeps its invariant runs, without spurious wake-ups, until
    everything has been done. *)
Lemma runs_to_the_end p :
  (forall t, leaf_task body t) -> pool_inv p -> Forall (calm (task := task)) (threads p) ->
  exists more p', runs p more 0 p' /\ all_done p'.
Proof.
  intros Hleaf. remember (Z.to_nat (pool_cost p)) as fuel eqn:Hfuel.
  assert (pool_cost p < Z.of_nat (S fuel)) as Hlt by (pose proof (pool_cost_nonneg p); lia).
  clear Hfuel. revert p Hlt. induction (S fuel) as [|k IH]; intros p Hlt Hp Hc.
  { pose proof (pool_cost_nonneg p). lia. }
  destruct (step_or_done body p Hp Hc) as [[p1 Hs]|Hdone]; [|exists 0, p; split; [constructor|done]].
  pose proof (step_cost _ _ Hleaf Hs).
  destruct (IH p1 ltac:(lia) (step_inv _ _ _ Hp Hs) (calm_step _ _ _ Hleaf Hc Hs)) as (more & p' & Hr & Hd).
  exists (0 + 1 + more), p'. split; [|done]. apply (runs_trans p (0 + 1) 0 p1 more 0); [|done].
  eapply Runs_step; [apply Runs_start|done].
Qed.

(** The measure of a new pool: what the calls on it will cost. *)
Lemma new_pool_cost n queue_capacity spawned calls p0 :
  0 <= n -> new_pool n queue_capacity spawned calls = Done p0 ->
  pool_cost p0 = 2 * n + sum_by (sum_by (call_cost (n + len calls))) calls.
Proof.
  unfold new_pool, new_queue. intros Hn.
  destruct (queue_capacity =? 0); [done|]. cbn [obind]. destruct (n =? 0); [done|].
  destruct spawned; [|done]. intros [= <-]. unfold pool_cost. simpl.
  rewrite len_app, len_replicate, len_map, Z2Nat.id, sum_by_app, sum_by_replicate, Z2Nat.id by done.
  rewrite (sum_by_map _ (sum_by (call_cost (n + len calls)))); [|intros todo; simpl; lia].
  change (sum_by (task_cost (n + len calls)) []) with 0. simpl. lia.
Qed.

(** ** A shutdown that was called has closed the queue in the end *)

Definition is_shutdown (c : call (task := task)) : Z := match c with CShutdown => 1 | _ => 0 end.

(** The shutdowns a thread has yet to call. *)
Definition shutdowns (th : thread (task := task)) : Z :=
  match th with
  | Client todo _ | Worker (WRunning _ todo _) => sum_by is_shutdown todo
  | Worker _ => 0
  end.

Definition will_shut (p : pool (task := task)) : Prop :=
  shutting_down_ p = true \/ 0 < sum_by shutdowns (threads p).

Lemma shutdowns_nonneg th : 0 <= shutdowns th.
Proof.
  assert (forall todo, 0 <= sum_by is_shutdown todo) by (intros; apply sum_by_nonneg; by intros []).
  by destruct th as [? ?|[]]; simpl.
Qed.

Lemma shutdowns_wake wake th :
  wake = wake_item \/ wake = wake_room -> shutdowns (wake th) = shutdowns th.
Proof. intros [->| ->]; by destruct th as [? []|[| | |? ? []|]]. Qed.

Lemma shutdowns_plug c todo a : shutdowns (plug c todo a) = sum_by is_shutdown todo.
Proof. by destruct c. Qed.

Lemma shutdowns_notify waits wake ths ths' :
  wake = wake_item \/ wake = wake_room -> notify_one waits wake ths ths' ->
  forall i th th', ths !! i = Some th -> waits th = false -> shutdowns th <= shutdowns th' ->
  sum_by shutdowns ths <= sum_by shutdowns (<[i := th']> ths').
Proof.
  intros Hw [ths0 _|ths0 j x Hj Hx] i th th' Hi Hth Hle.
  - rewrite (sum_by_insert _ _ _ _ _ Hi). lia.
  - rewrite (sum_by_insert _ i th); [|rewrite list_lookup_insert_ne; [done|congruence]].
    rewrite (sum_by_insert _ _ _ _ _ Hj), shutdowns_wake by done. lia.
Qed.

Lemma shutdowns_wake_all p i wake c todo a a' :
  wake = wake_item \/ wake = wake_room -> threads p !! i = Some (plug c todo a) ->
  (forall t, a <> AWaitRoom t) ->
  sum_by shutdowns (<[i := plug c todo a']> (map wake (threads p))) = sum_by shutdowns (threads p).
Proof.
  intros Hw Hi Ha. rewrite (sum_by_insert _ i (plug c todo a)), !shutdowns_plug.
  - rewrite (sum_by_map _ shutdowns); [lia|]. intros. by apply shutdowns_wake.
  - apply list_lookup_fmap_Some. exists (plug c todo a). split; [|done].
    destruct Hw as [->| ->], c, a; try done; by edestruct Ha.
Qed.

Lemma step_will_shut p p' : will_shut p -> step body p p' -> will_shut p'.
Proof.
  intros [Hs|Hs] [i c todo a Hi H|i w Hi H].
  - left. by destruct H.
  - left. by destruct H.
  - destruct H; subst; try (by left); right; simpl;
      try (rewrite (sum_by_insert _ _ _ _ _ Hi), !shutdowns_plug, ?sum_by_cons; simpl; lia).
    + eapply Z.lt_le_trans; [exact Hs|]. eapply (shutdowns_notify _ _ _ _ (or_introl eq_refl));
        [done|exact Hi|by destruct c|by rewrite !shutdowns_plug].
    + erewrite shutdowns_wake_all; [done|by left|done|done].
    + erewrite shutdowns_wake_all; [done|by right|done|done].
  - right. destruct H; simpl; try (rewrite (sum_by_insert _ _ _ _ _ Hi); simpl; lia).
    + eapply Z.lt_le_trans; [exact Hs|]. eapply (shutdowns_notify _ _ _ _ (or_intror eq_refl));
        [done|exact Hi|done|apply shutdowns_nonneg].
    + rewrite (sum_by_insert _ _ _ _ _ Hi). simpl. change (sum_by is_shutdown []) with 0. lia.
Qed.

Lemma reachable_will_shut p p' : will_shut p -> reachable body p p' -> will_shut p'.
Proof.
  intros Hp. induction 1 as [|p1 p2 _ IH Hs|p1 p2 _ IH Hs]; [done|by eapply step_will_shut|].
  destruct IH as [?|IH]; [left; by destruct Hs|]. right.
  destruct Hs as [i th Hi _|i th Hi _]; simpl;
    rewrite (sum_by_insert _ _ _ _ _ Hi), shutdowns_wake by auto; lia.
Qed.

Lemma new_pool_will_shut n queue_capacity spawned calls p0 :
  new_pool n queue_capacity spawned calls = Done p0 ->
  Exists (fun todo => CShutdown ∈ todo) calls -> will_shut p0.
Proof.
  unfold new_pool, new_queue. destruct (queue_capacity =? 0); [done|]. cbn [obind].
  destruct (n =? 0); [done|]. destruct spawned; [|done]. intros [= <-] Hex. right. simpl.
  apply Exists_exists in Hex as (todo & [i Hi]%list_elem_of_lookup & [j Hj]%list_elem_of_lookup).
  rewrite sum_by_app. assert (0 <= sum_by shutdowns (replicate (Z.to_nat n) (Worker WPop)))
    by apply sum_by_nonneg, shutdowns_nonneg.
  assert (shutdowns (Client todo AReady) <= sum_by shutdowns (map (fun todo => Client todo AReady) calls)).
  { apply (sum_by_member _ i); [apply shutdowns_nonneg|]. apply list_lookup_fmap_Some. eauto. }
  assert (is_shutdown CShutdown <= sum_by is_shutdown todo)
    by (by apply (sum_by_member _ j); [intros []|]).
  simpl in *. lia.
Qed.

Lemma done_exited p : pool_inv p -> all_done p -> will_shut p -> all_exited (threads p).
Proof.
  intros Hp (Hths & _ & _) Hs.
  assert (Forall resting (threads p)) as Hr.
  { eapply Forall_impl; [exact Hths|]. intros th [->|[->| ->]]; constructor. }
  assert (sum_by shutdowns (threads p) = 0) as H0.
  { apply sum_by_zero; [apply shutdowns_nonneg|]. eapply Forall_impl; [exact Hths|].
    by intros th [->|[->| ->]]. }
  destruct Hs as [Hs|Hs]; [|lia]. apply stuck_closed; [apply Hp|done|].
  destruct (closed_ (tasks_ p)) eqn:Hc; [done|]. pose proof (pi_closing p Hp Hc Hs).
  destruct (resting_counts _ Hr) as (? & ? & ? & ? & ? & _). lia.
Qed.

(** ** Property *)

End PoolProgress.

(** ** Witness *)

Lemma ex_runs : runs ex_body ex_start 1 0
  (move ex_start 1 (plug InClient [CShutdown] (ALoaded 7%nat))).
Proof.
  change 1 with (0 + 1). eapply Runs_step; [apply Runs_start|].
  eapply (Step_call _ _ _ 1%nat InClient); [reflexivity|by eapply Submit_loaded].
Qed.

