(* ===== verification/PoolFaults.v ===== *)
(** * Exceptions in the worker pool ([capstone/reference/src/thread_pool.cpp])

    [queue_.push] may throw in [submit], which takes the count of submissions back
    and throws on.  Runs of the pool ([ThreadPool.v]) in which pushes throw
    ([throws]) stay as short as before; with one caller they also still finish, with
    several a caller may be left waiting. *)

From stdpp Require Import base list strings.
From Stdlib Require Import ZArith Lia.
From S2P Require Import Prelude BlockingQueue ThreadPool PoolProgress.

Section PoolFaults.
Context {task : Type} `{!EqDecision task} (body : task -> list (call (task := task))).

(** ** Runs with exceptions *)

(** A run of [steps] steps with [wakes] spurious wake-ups and [faults] exceptions. *)
Inductive faulty_runs (p0 : pool (task := task)) : Z -> Z -> Z -> pool (task := task) -> Prop :=
| Faulty_start : faulty_runs p0 0 0 0 p0
| Faulty_step steps wakes faults p p' :
    faulty_runs p0 steps wakes faults p -> step body p p' -> faulty_runs p0 (steps + 1) wakes faults p'
| Faulty_spurious steps wakes faults p p' :
    faulty_runs p0 steps wakes faults p -> spurious p p' -> faulty_runs p0 steps (wakes + 1) faults p'
| Faulty_throws steps wakes faults p p' :
    faulty_runs p0 steps wakes faults p -> throws p p' -> faulty_runs p0 steps wakes (faults + 1) p'.

Lemma faulty_reachable p0 steps wakes faults p :
  faulty_runs p0 steps wakes faults p -> reachable_throwing body p0 p.
Proof.
  induction 1; [apply Throwing_refl|by eapply Throwing_step|by eapply Throwing_spurious
               |by eapply Throwing_throws].
Qed.

(** The shutdowns that are left of a caller's code cost no more than all of it. *)
Lemma unwound_cost n c todo :
  0 <= n -> sum_by (call_cost body n) (unwound c todo) <= sum_by (call_cost body n) todo.
Proof.
  intros Hn. destruct c as [|t]; simpl; [|by apply calls_cost_nonneg].
  induction todo as [|x todo IH]; [done|]. destruct x as [u|]; simpl; rewrite !sum_by_cons; [|lia].
  assert (0 <= call_cost body n (CSubmit u)); [|lia].
  destruct u as [u|]; simpl; [pose proof (task_cost_pos body n u Hn)|]; lia.
Qed.

Lemma throws_cost p p' : throws p p' -> pool_cost body p' + 1 <= pool_cost body p.
Proof.
  intros [i c todo t q Hi _]. pose proof (len_nonneg (threads p)) as Hn.
  pose proof (unwound_cost _ c todo Hn). pose proof (task_cost_pos body _ t Hn).
  unfold pool_cost. simpl. rewrite len_insert, (sum_by_insert _ _ _ _ _ Hi), !plug_cost. simpl. lia.
Qed.

(** Exceptions only make a run shorter. *)
Lemma faulty_runs_cost p0 steps wakes faults p :
  (forall t, leaf_task body t) -> faulty_runs p0 steps wakes faults p ->
  steps + faults + pool_cost body p <= pool_cost body p0 + wakes.
Proof.
  intros Hleaf. induction 1 as [|m k f p p' _ IH Hs|m k f p p' _ IH Hs|m k f p p' _ IH Hs]; [lia| | |].
  - pose proof (step_cost _ _ _ Hleaf Hs). lia.
  - pose proof (spurious_cost body _ _ Hs). lia.
  - pose proof (throws_cost _ _ Hs). lia.
Qed.

(** ** One caller *)

(** Thread [k] is the only one that is not a worker. *)
Definition lone (k : nat) (p : pool (task := task)) : Prop :=
  forall j, map is_client (threads p) !! j = Some true -> j = k.

Lemma map_is_client_move ths0 ths i (th th' : thread (task := task)) :
  ths0 !! i = Some th -> map is_client ths = map is_client ths0 -> is_client th' = is_client th ->
  map is_client (<[i := th']> ths) = map is_client ths0.
Proof.
  intros Hi Hths Heq. change (is_client <$> <[i := th']> ths = map is_client ths0).
  rewrite list_fmap_insert, Heq. change (is_client <$> ths) with (map is_client ths). rewrite Hths.
  apply list_insert_id. change (map is_client ths0) with (is_client <$> ths0).
  by rewrite list_lookup_fmap, Hi.
Qed.

Lemma is_client_wake wake (th : thread (task := task)) :
  wake = wake_item \/ wake = wake_room -> is_client (wake th) = is_client th.
Proof. intros [->| ->]; by destruct th as [? []|[| | |? ? []|]]. Qed.

Lemma map_is_client_notify waits wake (ths ths' : list (thread (task := task))) :
  wake = wake_item \/ wake = wake_room -> notify_one waits wake ths ths' ->
  map is_client ths' = map is_client ths.
Proof.
  intros Hw [ths0 _|ths0 j th Hj _]; [done|]. eapply map_is_client_move; [done|done|]. by apply is_client_wake.
Qed.

Lemma map_is_client_wake wake (ths : list (thread (task := task))) :
  wake = wake_item \/ wake = wake_room -> map is_client (map wake ths) = map is_client ths.
Proof. intros Hw. rewrite map_map. apply map_ext. intros th. by apply is_client_wake. Qed.

Lemma step_is_client p p' : step body p p' -> map is_client (threads p') = map is_client (threads p).
Proof.
  intros [i c todo a Hi Hs|i w Hi Hs]; destruct Hs; simpl;
    (eapply map_is_client_move; [exact Hi| |by try destruct c]); try done;
    try (by eapply map_is_client_notify; [|done]; auto); by apply map_is_client_wake; auto.
Qed.

Lemma spurious_is_client (p p' : pool (task := task)) :
  spurious p p' -> map is_client (threads p') = map is_client (threads p).
Proof.
  intros [i th Hi _|i th Hi _]; simpl; (eapply map_is_client_move; [exact Hi|done|]);
    apply is_client_wake; auto.
Qed.

Lemma throws_is_client (p p' : pool (task := task)) :
  throws p p' -> map is_client (threads p') = map is_client (threads p).
Proof. intros [i c todo t q Hi _]. simpl. eapply map_is_client_move; [exact Hi|done|by destruct c]. Qed.

(** What a run of a pool with one caller keeps, exceptions included. *)
Record lone_inv (k : nat) (p : pool (task := task)) : Prop := mkLoneInv {
  lo_inv : pool_inv p;
  lo_calm : Forall (calm (task := task)) (threads p);
  lo_lone : lone k p;
}.

Lemma calm_pushing p i c todo t :
  Forall (calm (task := task)) (threads p) -> threads p !! i = Some (plug c todo (APushing t)) ->
  c = InClient.
Proof. intros Hc Hi. pose proof (Forall_lookup_1 _ _ _ _ Hc Hi) as Hth. destruct c; [done|]. by destruct Hth. Qed.

Lemma throws_lone k p p' : lone_inv k p -> throws p p' -> lone_inv k p'.
Proof.
  intros [Hp Hc Hl] Ht. split.
  - split; [eapply throws_safe; [apply Hp|done]|]. eapply throws_room; [done|].
    destruct Ht as [i c todo t q Hi _]. pose proof (calm_pushing _ _ _ _ _ Hc Hi) as ->.
    assert (i = k) as -> by (apply Hl; by rewrite list_lookup_fmap, Hi).
    apply sum_by_zero; [apply indicators_nonneg|]. apply Forall_lookup. intros j th Hj.
    destruct th as [todo' a|w].
    + assert (j = k) as -> by (apply Hl; by rewrite list_lookup_fmap, Hj).
      rewrite Hi in Hj. by injection Hj as <- <-.
    + pose proof (Forall_lookup_1 _ _ _ _ Hc Hj) as Hth.
      destruct w as [| | |u todo' []|]; try done; by destruct Hth.
  - destruct Ht as [i c todo t q Hi _]. pose proof (calm_pushing _ _ _ _ _ Hc Hi) as ->. simpl.
    by apply Forall_insert.
  - unfold lone. by rewrite (throws_is_client _ _ Ht).
Qed.

Lemma faulty_lone p0 steps wakes faults p k :
  (forall t, leaf_task body t) -> lone_inv k p0 -> faulty_runs p0 steps wakes faults p -> lone_inv k p.
Proof.
  intros Hleaf H0. induction 1 as [|m w f p p' _ [Hp Hc Hl] Hs|m w f p p' _ [Hp Hc Hl] Hs|]; [done| | |].
  - split; [by eapply step_inv|by eapply (calm_step body)|]. unfold lone. by rewrite (step_is_client _ _ Hs).
  - split; [by eapply spurious_inv| |unfold lone; by rewrite (spurious_is_client _ _ Hs)].
    eapply (calm_reachable body p); [done|done|]. eapply Reach_spurious; [apply Reach_refl|done].
  - by eapply throws_lone.
Qed.

Lemma new_pool_lone n queue_capacity spawned todo p0 :
  0 <= n -> 0 <= queue_capacity -> new_pool n queue_capacity spawned [todo] = Done p0 ->
  lone_inv (Z.to_nat n) p0.
Proof.
  intros Hn Hc Hnew. split; [by eapply (new_pool_inv n queue_capacity)|by eapply new_pool_calm|].
  unfold new_pool, new_queue in Hnew. destruct (queue_capacity =? 0); [done|]. cbn [obind] in Hnew.
  destruct (n =? 0); [done|]. destruct spawned; [|done]. injection Hnew as <-. intros j Hj. simpl in Hj.
  rewrite map_app in Hj. apply lookup_app_Some in Hj as [Hj|[Hge Hj]].
  - apply list_lookup_fmap_Some in Hj as (th & Hth & Hj). by apply lookup_replicate in Hj as [-> _].
  - rewrite length_map, length_replicate in *. apply list_lookup_singleton_Some in Hj as [? _]. lia.
Qed.

(** A caller that was going to shut the pool down still does. *)
Lemma unwound_shutdowns todo :
  sum_by (is_shutdown (task := task)) (unwound InClient todo) = sum_by is_shutdown todo.
Proof. simpl. induction todo as [|[u|] todo IH]; [done| |]; simpl; rewrite ?sum_by_cons; simpl; lia. Qed.

Lemma faulty_will_shut p0 steps wakes faults p k :
  (forall t, leaf_task body t) -> lone_inv k p0 -> will_shut p0 ->
  faulty_runs p0 steps wakes faults p -> will_shut p.
Proof.
  intros Hleaf H0 Hw. induction 1 as [|m w f p p' _ IH Hs|m w f p p' _ IH Hs|m w f p p' Hr IH Hs]; [done| | |].
  - by eapply step_will_shut.
  - eapply (reachable_will_shut body p); [done|]. eapply Reach_spurious; [apply Reach_refl|done].
  - pose proof (faulty_lone _ _ _ _ _ _ Hleaf H0 Hr) as [_ Hc _].
    destruct Hs as [i c todo t q Hi _]. pose proof (calm_pushing _ _ _ _ _ Hc Hi) as ->.
    destruct IH as [?|IH]; [by left|right]. cbn [move set_threads add_thrown threads].
    rewrite (sum_by_insert _ _ _ _ _ Hi). cbn [plug shutdowns]. rewrite unwound_shutdowns. lia.
Qed.

(** ** Property *)

(** C12: exceptions of [push] leave a pool with one caller in order.  If tasks do not
    submit to their own pool and one thread calls it, as in the server, then
    however the threads are scheduled and whichever pushes throw, a run takes at
    most as many steps and exceptions as the calls cost, and one more for each
    spurious wake-up; and it can be continued to a state in which every call has
    returned or thrown, the queue is empty, the accepted tasks have finished, no
    thrown task is counted as submitted, and all workers have exited if the caller
    meant to shut the pool down. *)
Theorem lone_caller_survives_exceptions n queue_capacity spawned todo p0 steps wakes faults p :
  (forall t, leaf_task body t) -> 0 <= n -> 0 <= queue_capacity ->
  new_pool n queue_capacity spawned [todo] = Done p0 -> faulty_runs p0 steps wakes faults p ->
  steps + faults <= 2 * n + sum_by (call_cost body (n + 1)) todo + wakes
  /\ exists more p', runs body p more 0 p' /\ all_done p' /\ submitted_ p' = u64 (len (accepted p'))
       /\ (CShutdown ∈ todo -> all_exited (threads p')).
Proof.
  intros Hleaf Hn Hc Hnew Hr. pose proof (new_pool_lone _ _ _ _ _ Hn Hc Hnew) as H0. split.
  { pose proof (new_pool_cost body _ _ _ _ _ Hn Hnew) as Hcost. rewrite sum_by_cons in Hcost.
    change (sum_by _ []) with 0 in Hcost. change (len [todo]) with 1 in Hcost.
    pose proof (faulty_runs_cost _ _ _ _ _ Hleaf Hr). pose proof (pool_cost_nonneg body p). lia. }
  pose proof (faulty_lone _ _ _ _ _ _ Hleaf H0 Hr) as [Hp Hcalm _].
  destruct (runs_to_the_end body p Hleaf Hp Hcalm) as (more & p' & Hm & Hd).
  pose proof (runs_reachable _ _ _ _ _ Hm) as Hreach. pose proof (reachable_inv _ _ _ Hp Hreach) as Hp'.
  exists more, p'. split; [done|]. split; [done|]. split.
  - rewrite (pi_submitted p' Hp'). f_equal. destruct Hd as (Hths & _).
    assert (H : sum_by pushing (threads p') = 0 /\ sum_by waiting_room (threads p') = 0
                /\ sum_by refused (threads p') = 0); [|lia].
    repeat split; (apply sum_by_zero; [apply indicators_nonneg|]);
      (eapply Forall_impl; [exact Hths|]); by intros th [->|[->| ->]].
  - intros Hshut. apply (done_exited p'); [done|done|]. eapply reachable_will_shut; [|done].
    eapply faulty_will_shut; [done|done| |done]. eapply new_pool_will_shut; [done|]. by left.
Qed.
End PoolFaults.

(** ** A wake-up that an exception uses up *)

(** One worker, room for one task, and three callers with a task each. *)
Definition lost_calls : list (list (call (task := nat))) :=
  [[CSubmit (Some 0%nat)]; [CSubmit (Some 1%nat)]; [CSubmit (Some 2%nat)]].
Definition lost_start : pool (task := nat) :=
  mkPool (mkQueue 1 [] false) false 0 0
    (Worker WPop :: map (fun todo => Client todo AReady) lost_calls) [] [] [] [].

(** Task 0 fills the queue, the callers of 1 and 2 wait; the worker takes task 0,
    wakes the first of them, runs its task and waits for the next. *)
Definition lost_woken : pool (task := nat) :=
  mkPool (mkQueue 1 [] false) false 3 1
    [Worker WWaitItem; Client [] AReady; Client [] (APushing 1%nat); Client [] (AWaitRoom 2%nat)]
    [0%nat] [0%nat] [0%nat] [].
Definition lost_end : pool (task := nat) :=
  mkPool (mkQueue 1 [] false) false 2 1
    [Worker WWaitItem; Client [] AReady; Client [] AReady; Client [] (AWaitRoom 2%nat)]
    [0%nat] [0%nat] [0%nat] [1%nat].

Ltac caller_turn i c := eapply reach_front; [eapply (Step_call _ _ _ i InClient); [reflexivity|c]|].

Lemma lost_run : reachable ex_body lost_start lost_woken.
Proof.
  caller_turn 1%nat ltac:(eapply Submit_loaded; reflexivity).
  caller_turn 1%nat ltac:(apply Submit_counted).
  caller_turn 1%nat ltac:(eapply Push_done; reflexivity).
  caller_turn 1%nat ltac:(apply Push_notifies, Notify_none; by repeat constructor).
  caller_turn 2%nat ltac:(eapply Submit_loaded; reflexivity).
  caller_turn 2%nat ltac:(apply Submit_counted).
  caller_turn 2%nat ltac:(apply Push_waits; reflexivity).
  caller_turn 3%nat ltac:(eapply Submit_loaded; reflexivity).
  caller_turn 3%nat ltac:(apply Submit_counted).
  caller_turn 3%nat ltac:(apply Push_waits; reflexivity).
  worker_turn ltac:(eapply Pop_done; reflexivity).
  worker_turn ltac:(apply Pop_notifies; eapply (Notify_some _ _ _ 2%nat); reflexivity).
  worker_turn ltac:(apply Task_finished).
  worker_turn ltac:(apply Pop_waits; reflexivity).
  match goal with |- reachable _ ?p _ => assert (p = lost_woken) as -> by (vm_compute; reflexivity) end.
  apply Reach_refl.
Qed.

Lemma lost_end_stuck p' : ~ step ex_body lost_end p'.
Proof.
  intros [i c todo a Hi Hs|i w Hi Hs].
  - destruct i as [|[|[|[|i]]]], c; try discriminate Hi; injection Hi as Ht Ha; subst;
      inversion Hs; discriminate.
  - destruct i as [|[|[|[|i]]]]; try discriminate Hi. injection Hi as <-. inversion Hs.
Qed.


(** ** Witness *)

(** The only push throws; the pool is then shut down as planned. *)
Lemma ex_faulty_runs : faulty_runs ex_body ex_start 2 0 1
  (mkPool (mkQueue 1 [] false) false 1 0 [Worker WPop; Client [CShutdown] ARefused] [] [] [] [7%nat]).
Proof.
  change 2 with (0 + 1 + 1). change (faulty_runs ex_body ex_start (0 + 1 + 1) 0 1)
    with (faulty_runs ex_body ex_start (0 + 1 + 1) 0 (0 + 1)).
  eapply Faulty_throws; [eapply Faulty_step; [eapply Faulty_step; [apply Faulty_start|]|]|].
  - eapply (Step_call _ _ _ 1%nat InClient); [reflexivity|]. by eapply Submit_loaded.
  - eapply (Step_call _ _ _ 1%nat InClient); [reflexivity|]. apply Submit_counted.
  - exact (Push_throws (mkPool (mkQueue 1 [] false) false 1 0 [Worker WPop; Client [CShutdown] (APushing 7%nat)]
                        [] [] [] []) 1%nat InClient [CShutdown] 7%nat (mkQueue 1 [7%nat] false) eq_refl eq_refl).
Qed.

Lemma lone_caller_survives_exceptions_witness :
  2 + 1 <= 2 * 1 + sum_by (call_cost ex_body (1 + 1)) [CSubmit (Some 7%nat); CShutdown] + 0
  /\ exists more p', runs ex_body
         (mkPool (mkQueue 1 [] false) false 1 0 [Worker WPop; Client [CShutdown] ARefused] [] [] [] [7%nat])
         more 0 p'
       /\ all_done p' /\ submitted_ p' = u64 (len (accepted p'))
       /\ (CShutdown ∈ [CSubmit (Some 7%nat); CShutdown] -> all_exited (threads p')).
Proof.
  apply (lone_caller_survives_exceptions ex_body 1 1 true [CSubmit (Some 7%nat); CShutdown] ex_start 2 0 1).
  - intros t. constructor.
  - lia.
  - lia.
  - apply ex_new.
  - apply ex_faulty_runs.
Defined.
