(* ===== verification/PoolStart.v ===== *)
(** * Starting the worker pool ([capstone/reference/src/thread_pool.cpp])

    The constructor starts its workers one by one, and those already started run
    while it goes on.  When a thread cannot be started, the [catch] closes the
    queue and joins the workers there are, since an object whose constructor throws
    has no destructor.  The workers are those of [ThreadPool.v]; the constructor is
    a thread that starts them or, in its [catch], closes and joins. *)

From stdpp Require Import base list strings.
From Stdlib Require Import ZArith Lia.
From S2P Require Import Prelude BlockingQueue ThreadPool PoolProgress.

Section PoolStart.
Context {task : Type} (body : task -> list (call (task := task))).
Implicit Types (p : pool (task := task)) (ths : list (thread (task := task))).

(** ** The constructor *)

(** The members as they are initialised, with the threads started so far. *)
Definition fresh_pool (q : BlockingQueue task) ths : pool := mkPool q false 0 0 ths [] [] [] [].

(** The loop over the [n] workers: [emplace_back] starts one, or a worker that has
    been started moves. *)
Inductive constructing (q : BlockingQueue task) (n : Z) : pool -> Prop :=
| Constructing_begins : constructing q n (fresh_pool q [])
| Constructing_spawns p :
    constructing q n p -> len (threads p) < n ->
    constructing q n (set_threads p (threads p ++ [Worker WPop]))
| Constructing_step p p' : constructing q n p -> step body p p' -> constructing q n p'
| Constructing_spurious p p' : constructing q n p -> spurious p p' -> constructing q n p'.

(** [reserve] or [emplace_back] has thrown: the [catch] is about to close the queue,
    and throws on when its thread is done. *)
Definition spawn_failed p : pool := set_threads p (threads p ++ [Client [] AClosing]).

(** The constructor has returned, and the callers may call. *)
Definition constructed p (calls : list (list (call (task := task)))) : pool :=
  set_threads p (threads p ++ map (fun todo => Client todo AReady) calls).

(** ** While it starts workers *)

Definition idle (th : thread (task := task)) : Prop := th = Worker WPop \/ th = Worker WWaitItem.

Lemma new_queue_open cap (q : BlockingQueue task) :
  new_queue cap = Done q -> q = mkQueue cap [] false.
Proof. unfold new_queue. destruct (cap =? 0); [done|]. by intros [= <-]. Qed.

Lemma idle_step cap ths p' :
  Forall idle ths -> step body (fresh_pool (mkQueue cap [] false) ths) p' ->
  exists ths', p' = fresh_pool (mkQueue cap [] false) ths' /\ Forall idle ths' /\ len ths' = len ths.
Proof.
  intros Hi [i c todo a Hth Hs|i w Hth Hs]; simpl in Hth;
    pose proof (Forall_lookup_1 _ _ _ _ Hi Hth) as [Hw|Hw]; try (by destruct c).
  - injection Hw as ->. inversion Hs as [Hp|Hp|t q Hp| |]; try discriminate Hp. eexists.
    split; [reflexivity|]. split; [by apply Forall_insert; [|right]|apply len_insert].
  - injection Hw as ->. inversion Hs.
Qed.

Lemma idle_spurious cap ths p' :
  Forall idle ths -> spurious (fresh_pool (mkQueue cap [] false) ths) p' ->
  exists ths', p' = fresh_pool (mkQueue cap [] false) ths' /\ Forall idle ths' /\ len ths' = len ths.
Proof.
  intros Hi Hs. destruct Hs as [i th Hth Hw|i th Hth Hw]; simpl in Hth;
    pose proof (Forall_lookup_1 _ _ _ _ Hi Hth) as [->| ->]; try done. eexists.
  split; [reflexivity|]. split; [by apply Forall_insert; [|left]|apply len_insert].
Qed.

(** No task is there to be run: the workers look for one or wait. *)
Lemma constructing_shape cap n p :
  0 <= n -> constructing (mkQueue cap [] false) n p ->
  exists ths, p = fresh_pool (mkQueue cap [] false) ths /\ Forall idle ths /\ len ths <= n.
Proof.
  intros Hn. induction 1 as [|p _ (ths & -> & Hi & Hl) Hlt|p p' _ (ths & -> & Hi & Hl) Hs
                            |p p' _ (ths & -> & Hi & Hl) Hs].
  - exists []. done.
  - exists (ths ++ [Worker WPop]). simpl in *. split; [done|].
    split; [apply Forall_app; split; [done|]; by repeat constructor|]. rewrite len_app. change (len [_]) with 1. lia.
  - destruct (idle_step _ _ _ Hi Hs) as (ths' & -> & ? & Hl'). exists ths'. rewrite Hl'. done.
  - destruct (idle_spurious _ _ _ Hi Hs) as (ths' & -> & ? & Hl'). exists ths'. rewrite Hl'. done.
Qed.

(** ** A constructor that returns *)

(** The workers that wait already got there by steps of the finished pool. *)
Lemma waiting_reached cap done_ ths clients :
  Forall idle ths ->
  reachable body
    (fresh_pool (mkQueue cap [] false) (done_ ++ replicate (length ths) (Worker WPop) ++ clients))
    (fresh_pool (mkQueue cap [] false) (done_ ++ ths ++ clients)).
Proof.
  intros Hi. revert done_. induction Hi as [|th ths [->| ->] _ IH]; intros done_; simpl; [apply Reach_refl| |].
  - rewrite !(cons_middle _ done_), !(app_assoc done_). apply IH.
  - eapply reach_front.
    + eapply (Step_worker _ _ _ (length done_)); [by apply list_lookup_middle|]. by apply Pop_waits.
    + unfold move, set_threads. simpl. rewrite insert_app_r_alt by done. rewrite Nat.sub_diag. simpl.
      rewrite !(cons_middle _ done_), !(app_assoc done_). apply IH.
Qed.

(** The constructor's interleavings are the pool's.  However the workers run
    while the constructor is still starting others, the pool it leaves is one that
    the pool with all its workers at the head of their loop reaches. *)
Theorem constructed_pool_reachable n queue_capacity q p calls :
  0 < n -> new_queue queue_capacity = Done q -> constructing q n p -> len (threads p) = n ->
  exists p0, new_pool n queue_capacity true calls = Done p0 /\ reachable body p0 (constructed p calls).
Proof.
  intros Hn Hq Hc Hl. unfold new_pool. rewrite Hq. simpl. destruct (Z.eqb_spec n 0); [lia|].
  apply new_queue_open in Hq as ->. eexists. split; [reflexivity|].
  destruct (constructing_shape _ n p ltac:(lia) Hc) as (ths & -> & Hi & _). simpl in Hl.
  replace (Z.to_nat n) with (length ths) by (unfold len in Hl; lia).
  apply (waiting_reached _ [] ths _ Hi).
Qed.

(** ** A constructor that throws *)

(** Where a worker can be while the [catch] is at [a]. *)
Definition may_be (a : activity (task := task)) (th : thread (task := task)) : Prop :=
  match a, th with
  | AClosing, Worker (WPop | WWaitItem) => True
  | AClosedItems, Worker (WPop | WWaitItem | WExited) => True
  | (AClosedRoom | AJoin), Worker (WPop | WExited) => True
  | AReady, Worker WExited => True
  | _, _ => False
  end.

Definition queue_closed (a : activity (task := task)) : bool :=
  match a with AClosing => false | _ => true end.

(** The state of the [catch] at [a], with the workers [ths]. *)
Definition failing (cap : Z) ths (a : activity (task := task)) : pool :=
  fresh_pool (mkQueue cap [] (queue_closed a)) (ths ++ [Client [] a]).

Lemma may_be_worker a th : may_be a th -> exists w, th = Worker w.
Proof. destruct a, th as [|[]]; try done; eauto. Qed.

(** The thread that moves is a worker or the [catch]. *)
Lemma failing_lookup ths a i th :
  Forall (may_be a) ths -> (ths ++ [Client [] a]) !! i = Some th ->
  (ths !! i = Some th /\ (exists w, th = Worker w) /\ may_be a th) \/ (i = length ths /\ th = Client [] a).
Proof.
  intros Hf [Hi|[Hge Hi]]%lookup_app_Some.
  - left. pose proof (Forall_lookup_1 _ _ _ _ Hf Hi) as Hth. by pose proof (may_be_worker _ _ Hth).
  - right. apply list_lookup_singleton_Some in Hi as [? <-]. split; [lia|done].
Qed.

(** The [catch] moves on to [a'], with the workers as it leaves them. *)
Lemma catch_moves cap ths ths' a a' :
  length ths' = length ths ->
  move (set_threads (set_queue (failing cap ths a) (mkQueue cap [] (queue_closed a'))) (ths' ++ [Client [] a]))
    (length ths) (Client [] a') = failing cap ths' a'.
Proof.
  intros Hl. unfold failing, fresh_pool, move, set_threads, set_queue. simpl.
  rewrite insert_app_r_alt by lia. replace (length ths - length ths')%nat with 0%nat by lia. done.
Qed.

Lemma worker_moves cap ths a i th :
  (i < length ths)%nat -> move (failing cap ths a) i th = failing cap (<[i := th]> ths) a.
Proof. intros Hi. unfold failing, fresh_pool, move, set_threads. simpl. by rewrite insert_app_l. Qed.

(** The points of the [catch]; at the last it has thrown. *)
Definition catching (a : activity (task := task)) : bool :=
  match a with AClosing | AClosedItems | AClosedRoom | AJoin | AReady => true | _ => false end.

Inductive fails (cap : Z) (k : nat) : pool -> Prop :=
| Fails ths a :
    length ths = k -> catching a = true -> Forall (may_be a) ths -> fails cap k (failing cap ths a).

Lemma fails_worker_step cap ths a i w p' :
  catching a = true -> Forall (may_be a) ths -> ths !! i = Some (Worker w) ->
  worker_step body (failing cap ths a) i w p' -> fails cap (length ths) p'.
Proof.
  intros Hc Hf Hi Hs. pose proof (Forall_lookup_1 _ _ _ _ Hf Hi) as Hw. apply lookup_lt_Some in Hi as Hlt.
  destruct Hs as [Hp|Hp|t q Hp|t ths' _|t]; try (by destruct a);
    rewrite worker_moves by done; (split; [by rewrite length_insert|done|]); apply Forall_insert; try done;
    unfold pop_locked in Hp; by destruct a.
Qed.

Lemma fails_call_step cap ths a p' :
  catching a = true -> Forall (may_be a) ths ->
  call_step (failing cap ths a) (length ths) InClient [] a p' -> fails cap (length ths) p'.
Proof.
  intros Hc Hf Hs.
  assert (Hgo : forall ths' a', length ths' = length ths -> catching a' = true -> Forall (may_be a') ths' ->
    p' = move (set_threads (set_queue (failing cap ths a) (mkQueue cap [] (queue_closed a'))) (ths' ++ [Client [] a]))
           (length ths) (Client [] a') -> fails cap (length ths) p').
  { intros ths' a' Hl Ha Hf' ->. rewrite catch_moves by done. by split. }
  destruct a; try discriminate; inversion Hs as [| | | | | | | | | | | | | |Hw|Hw Hex]; subst; try discriminate.
  - eapply (Hgo ths AClosedItems); [done|done| |done]. eapply Forall_impl; [exact Hf|]. by intros [|[]].
  - eapply (Hgo (map wake_item ths) AClosedRoom); [by rewrite length_map|done| |].
    + apply Forall_map. eapply Forall_impl; [exact Hf|]. by intros [|[]].
    + simpl. by rewrite map_app.
  - eapply (Hgo (map wake_room ths) AJoin); [by rewrite length_map|done| |].
    + apply Forall_map. eapply Forall_impl; [exact Hf|]. by intros [|[]].
    + simpl. by rewrite map_app.
  - eapply (Hgo ths AReady); [done|done| |done].
    apply Forall_app in Hex as [Hex _].
    eapply Forall_impl; [exact (proj2 (Forall_and _ _) (conj Hf Hex))|]. by intros [|[]] [? [?|?]].
Qed.

Lemma fails_step cap k p p' : fails cap k p -> step body p p' -> fails cap k p'.
Proof.
  intros [ths a <- Hc Hf] [i c todo b Hi Hs|i w Hi Hs]; simpl in Hi;
    apply (failing_lookup _ _ _ _ Hf) in Hi as [(Hi & (w' & Hw) & Hm)|[-> Hi]]; try done.
  - destruct c; [done|]. by destruct a.
  - destruct c; [|done]. injection Hi as -> ->. by apply (fails_call_step cap ths a).
  - by apply (fails_worker_step cap ths a i w).
Qed.

Lemma fails_spurious cap k p p' : fails cap k p -> spurious p p' -> fails cap k p'.
Proof.
  intros [ths a <- Hc Hf] Hs. destruct Hs as [i th Hi Hw|i th Hi Hw]; simpl in Hi;
    apply (failing_lookup _ _ _ _ Hf) in Hi as [(Hi & _ & Hm)|[-> ->]]; try done.
  - apply lookup_lt_Some in Hi as Hlt. rewrite worker_moves by done.
    split; [by rewrite length_insert|done|]. apply Forall_insert; [done|].
    destruct th as [|[]]; try done; by destruct a.
  - destruct th as [|[| | |? ? []|]]; try done; by destruct a.
  - by destruct a.
Qed.

Lemma fails_runs cap k p steps wakes p' : fails cap k p -> runs body p steps wakes p' -> fails cap k p'.
Proof. intros Hp. induction 1; [done|by eapply fails_step|by eapply fails_spurious]. Qed.

(** The [catch] or a worker moves, until the workers have exited and it throws on. *)
Lemma fails_progress cap k p :
  fails cap k p ->
  (exists p', step body p p') \/ threads p = replicate k (Worker WExited) ++ [Client [] AReady].
Proof.
  intros [ths a <- Hc Hf].
  assert (Hgo : forall p', call_step (failing cap ths a) (length ths) InClient [] a p' ->
            exists p', step body (failing cap ths a) p').
  { intros p' Hs. exists p'. eapply Step_call; [|exact Hs]. by apply list_lookup_middle. }
  destruct a; try discriminate.
  - right. simpl. f_equal. symmetry. apply replicate_as_elem_of. split; [done|].
    intros th Hin. apply (proj1 (Forall_forall _ _) Hf) in Hin. by destruct th as [|[]].
  - left. eapply Hgo. apply Close.
  - left. eapply Hgo. apply Close_items.
  - left. eapply Hgo. apply Close_room.
  - left. destruct (decide (Forall (fun th => is_exited th = true) ths)) as [Hex|Hex].
    + eapply Hgo. apply Join_all; [done|]. simpl. apply Forall_app. split; [|by repeat constructor].
      eapply Forall_impl; [exact Hex|]. auto.
    + apply not_Forall_Exists in Hex; [|intros th; apply _].
      apply Exists_exists in Hex as (th & [i Hi]%list_elem_of_lookup & Hne).
      pose proof (Forall_lookup_1 _ _ _ _ Hf Hi) as Hm. destruct th as [|[]]; try done.
      eexists. eapply (Step_worker _ _ _ i); [simpl; by apply lookup_app_l_Some|]. by apply Pop_none.
Qed.

(** ** How long it takes *)

(** What is left to be done, two steps for a worker and those of the [catch]. *)
Definition fail_cost p : Z := pool_cost (fun _ : task => []) p.

(** No task is run, so it does not matter what tasks do. *)
Lemma fails_bodyless cap k p p' : fails cap k p -> step body p p' -> step (fun _ : task => []) p p'.
Proof.
  intros [ths a _ _ Hf] [i c todo b Hi Hs|i w Hi Hs]; [by eapply Step_call|].
  eapply Step_worker; [exact Hi|]. destruct Hs; try (by constructor).
  apply (failing_lookup _ _ _ _ Hf) in Hi as [(_ & _ & Hm)|[_ Hi]]; [by destruct a|done].
Qed.

Lemma fails_runs_cost cap k p steps wakes p' :
  fails cap k p -> runs body p steps wakes p' -> steps + fail_cost p' <= fail_cost p + wakes.
Proof.
  intros Hp Hr. induction Hr as [|m w p1 p2 Hr IH Hs|m w p1 p2 Hr IH Hs]; [lia| |].
  - pose proof (fails_bodyless _ _ _ _ (fails_runs _ _ _ _ _ _ Hp Hr) Hs) as Hs'.
    apply step_cost in Hs'; [|by constructor]. unfold fail_cost in *. lia.
  - pose proof (spurious_cost (fun _ => []) _ _ Hs). unfold fail_cost in *. lia.
Qed.

Lemma fails_to_the_end cap k p :
  fails cap k p ->
  exists more p', runs body p more 0 p' /\ threads p' = replicate k (Worker WExited) ++ [Client [] AReady].
Proof.
  remember (Z.to_nat (fail_cost p)) as fuel eqn:Hfuel. pose proof (pool_cost_nonneg (fun _ : task => [])) as Hpos.
  assert (fail_cost p < Z.of_nat (S fuel)) as Hlt by (specialize (Hpos p); unfold fail_cost in *; lia).
  clear Hfuel. revert p Hlt. induction (S fuel) as [|m IH]; intros p Hlt Hp.
  { specialize (Hpos p). unfold fail_cost in Hlt. lia. }
  destruct (fails_progress cap k p Hp) as [[p1 Hs]|Hdone]; [|exists 0, p; split; [constructor|done]].
  pose proof (Runs_step _ _ _ _ _ _ (Runs_start body p) Hs) as Hr1.
  pose proof (fails_runs_cost _ _ _ _ _ _ Hp Hr1).
  destruct (IH p1 ltac:(lia) (fails_step _ _ _ _ Hp Hs)) as (more & p' & Hr & Hd).
  exists (0 + 1 + more), p'. split; [|done]. by apply (runs_trans body p (0 + 1) 0 p1 more 0).
Qed.

Lemma fail_cost_start cap ths :
  Forall idle ths -> fail_cost (failing cap ths AClosing) <= 4 * len ths + 6.
Proof.
  intros Hi. unfold fail_cost, pool_cost, failing. cbn [fresh_pool threads tasks_ queue_].
  rewrite len_app, sum_by_app. change (len [_]) with 1. set (k := len ths + 1).
  assert (H : forall l, Forall idle l -> sum_by (thread_cost (fun _ : task => []) k) l <= 2 * len l).
  { induction 1 as [|th l [->| ->] _ IH]; [done| |]; rewrite sum_by_cons, len_cons; simpl; lia. }
  specialize (H ths Hi). change (sum_by (task_cost (fun _ : task => []) k) []) with 0.
  rewrite sum_by_cons. change (sum_by (thread_cost (fun _ : task => []) k) []) with 0. simpl.
  change (sum_by (call_cost (fun _ : task => []) k) []) with 0. lia.
Qed.

(** ** Property *)

(** C13: a constructor that fails leaves nothing behind.  Let starting one of the
    workers fail, at any point of the constructor's loop and with the workers
    started before at any point of theirs.  Then in every interleaving no task is
    run, the exception leaves the constructor only when all of those workers have
    exited, so that no thread outlives the members it uses; the clean-up takes at
    most 4 steps for each worker and 6 more, and one for each spurious wake-up; and
    it can always be continued to the point where the exception is thrown on. *)
Theorem failed_start_joins n queue_capacity q p steps wakes p' :
  0 <= n -> new_queue queue_capacity = Done q -> constructing q n p -> len (threads p) < n ->
  runs body (spawn_failed p) steps wakes p' ->
  steps <= 4 * len (threads p) + 6 + wakes
  /\ started p' = [] /\ len (threads p') = len (threads p) + 1
  /\ (threads p' !! length (threads p) = Some (Client [] AReady) -> all_exited (threads p'))
  /\ exists more p'', runs body p' more 0 p''
       /\ threads p'' = replicate (length (threads p)) (Worker WExited) ++ [Client [] AReady].
Proof.
  intros Hn Hq Hc _ Hr. apply new_queue_open in Hq as ->.
  destruct (constructing_shape _ n p Hn Hc) as (ths & -> & Hi & _). simpl.
  assert (H0 : fails queue_capacity (length ths) (failing queue_capacity ths AClosing)).
  { split; [done|done|]. eapply Forall_impl; [exact Hi|]. by intros th [->| ->]. }
  change (spawn_failed _) with (failing queue_capacity ths AClosing) in Hr.
  pose proof (fails_runs _ _ _ _ _ _ H0 Hr) as Hp. split.
  { pose proof (fails_runs_cost _ _ _ _ _ _ H0 Hr). pose proof (fail_cost_start queue_capacity ths Hi).
    pose proof (pool_cost_nonneg (fun _ : task => []) p'). unfold fail_cost in *. lia. }
  destruct (fails_to_the_end _ _ _ Hp) as (more & p'' & Hm & Hd).
  destruct Hp as [ths' a Hl Hca Hf]. simpl. split; [done|].
  split; [rewrite len_app; unfold len; simpl; lia|]. split; [|by exists more, p''].
  rewrite <- Hl, list_lookup_middle by done. intros [= ->]. apply Forall_app. split; [|by repeat constructor; left].
  eapply Forall_impl; [exact Hf|]. intros [|[]]; try done. by right.
Qed.
End PoolStart.

(** ** Witnesses *)

(** The first of two workers waits for a task when the second is started. *)
Lemma ex_constructing : constructing ex_body (mkQueue 1 [] false) 2
  (fresh_pool (mkQueue 1 [] false) [Worker WWaitItem]).
Proof.
  eapply Constructing_step; [eapply Constructing_spawns; [apply Constructing_begins|done]|].
  eapply (Step_worker _ _ _ 0%nat); [reflexivity|].
  exact (Pop_waits _ (fresh_pool (mkQueue 1 [] false) [Worker WPop]) 0%nat eq_refl).
Qed.

Lemma failed_start_joins_witness :
  0 <= 4 * 1 + 6 + 0
  /\ started (spawn_failed (fresh_pool (mkQueue 1 [] false) [Worker WWaitItem])) = ([] : list nat)
  /\ len (threads (spawn_failed (fresh_pool (mkQueue (A := nat) 1 [] false) [Worker WWaitItem]))) = 1 + 1
  /\ (threads (spawn_failed (fresh_pool (mkQueue (A := nat) 1 [] false) [Worker WWaitItem])) !! 1%nat
        = Some (Client [] AReady) ->
      all_exited (threads (spawn_failed (fresh_pool (mkQueue (A := nat) 1 [] false) [Worker WWaitItem]))))
  /\ exists more p'', runs ex_body (spawn_failed (fresh_pool (mkQueue 1 [] false) [Worker WWaitItem])) more 0 p''
       /\ threads p'' = replicate 1 (Worker WExited) ++ [Client [] AReady].
Proof.
  apply (failed_start_joins ex_body 2 1 (mkQueue 1 [] false)
           (fresh_pool (mkQueue 1 [] false) [Worker WWaitItem])).
  - lia.
  - reflexivity.
  - apply ex_constructing.
  - reflexivity.
  - apply Runs_start.
Defined.

Lemma constructed_pool_reachable_witness :
  exists p0, new_pool 2 1 true [[CSubmit (Some 7%nat)]] = Done p0
    /\ reachable ex_body p0
         (constructed (fresh_pool (mkQueue 1 [] false) [Worker WWaitItem; Worker WPop]) [[CSubmit (Some 7%nat)]]).
Proof.
  apply (constructed_pool_reachable ex_body 2 1 (mkQueue 1 [] false)).
  - lia.
  - reflexivity.
  - apply (Constructing_spawns _ _ _ _ ex_constructing). reflexivity.
  - reflexivity.
Defined.
