(* ===== verification/WholeServer.v ===== *)
(** * The server as a whole: the pool and the sessions
      ([capstone/reference/src/server.cpp], [thread_pool.cpp])

    The accept loop submits one task per client, and the task is the client's
    session.  A state is a state of the pool ([ThreadPool.v]) and a state of the
    sessions ([Concurrent.v]).  A session moves while a worker runs its task, the
    task ends when the session is over, and the counters that STATS reports are
    the pool's.  A session's requests are those it reads until its connection or
    its loop ends. *)

From stdpp Require Import base gmap list strings.
From Stdlib Require Import Strings.Byte ZArith Lia.
From S2P Require Import Prelude ByteOrder Posix Numeric Protocol Commands Store DurableLog Wal Server BlockingQueue ThreadPool Startup Concurrent.

Section Whole.
Context `{Host} {L E : Type} `{DurableLog L E}.

(** A task is the number of a session; sessions do not call the pool. *)
Definition session_task (t : nat) : list (ThreadPool.call (task := nat)) := [].

Record whole := mkWhole {
  wh_pool : ThreadPool.pool (task := nat);
  wh_system : Concurrent.system (L := L) (E := E);
}.

(** A worker is inside the task: [handle_client] is running. *)
Definition running (i : nat) (p : ThreadPool.pool (task := nat)) : Prop :=
  exists j, ThreadPool.threads p !! j = Some (Worker (WRunning i [] AReady)).

(** [handle_client] has returned. *)
Definition session_over (s : Concurrent.system (L := L) (E := E)) (i : nat) : Prop :=
  exists th, sessions s !! i = Some th /\ ss_point th = Waiting /\ ss_todo th = [].

Inductive whole_step (w w' : whole) : Prop :=
| Whole_pool p s :
    ThreadPool.step session_task (wh_pool w) p \/ spurious (wh_pool w) p ->
    (forall t, finished p = finished (wh_pool w) ++ [t] -> session_over (wh_system w) t) ->
    make_move (Counters (ThreadPool.submitted_ p) (ThreadPool.completed_ p)) (wh_system w) = Done s ->
    w' = mkWhole p s -> whole_step w w'
| Whole_session i s :
    running i (wh_pool w) -> make_move (Thread i) (wh_system w) = Done s ->
    w' = mkWhole (wh_pool w) s -> whole_step w w'.

Inductive whole_reachable (w0 : whole) : whole -> Prop :=
| Whole_start : whole_reachable w0 w0
| Whole_next w w' : whole_reachable w0 w -> whole_step w w' -> whole_reachable w0 w'.

(** ** What a step of the pool adds *)

Definition extends (l l' : list nat) : Prop := l' = l \/ exists t, l' = l ++ [t].

Lemma call_step_logs p i c todo a p' :
  call_step p i c todo a p' -> finished p' = finished p /\ started (task := nat) p' = started p.
Proof. by destruct 1. Qed.

Lemma worker_step_logs p i w p' :
  worker_step session_task p i w p' ->
  extends (finished p) (finished p') /\ extends (started p) (started p').
Proof. unfold extends. destruct 1; simpl; eauto. Qed.

Lemma pool_step_logs p p' :
  ThreadPool.step session_task p p' \/ spurious p p' ->
  extends (finished p) (finished p') /\ extends (started p) (started p').
Proof.
  intros [[i c todo a _ Hc|i w _ Hw]|Hs].
  - destruct (call_step_logs _ _ _ _ _ _ Hc) as [-> ->]. unfold extends. eauto.
  - by eapply worker_step_logs.
  - unfold extends. destruct Hs; simpl; eauto.
Qed.

Lemma occurs_in (t : nat) l : 0 < occurs t l -> t ∈ l.
Proof.
  induction l as [|u l IH]; simpl; [lia|]. destruct (bool_decide (u = t)) eqn:Hu.
  - apply bool_decide_eq_true in Hu. subst. intros _. by left.
  - simpl. intros Hl. right. apply IH. lia.
Qed.

Lemma occurs_nonneg (t : nat) l : 0 <= occurs t l.
Proof. induction l as [|u l IH]; simpl; [lia|]. destruct (bool_decide (u = t)); simpl; lia. Qed.

Lemma running_started i p : pool_inv p -> running i p -> i ∈ started p.
Proof.
  intros Hp [j Hj]. apply occurs_in. rewrite (pi_once p Hp).
  pose proof (occurs_nonneg i (finished p)).
  assert (forall th : ThreadPool.thread (task := nat), 0 <= holds i th) as Hpos
    by (intros [|[]]; simpl; try lia; by case_bool_decide).
  rewrite <- (take_drop_middle _ _ _ Hj), sum_by_app, sum_by_cons.
  pose proof (sum_by_nonneg _ (take j (ThreadPool.threads p)) Hpos).
  pose proof (sum_by_nonneg _ (drop (S j) (ThreadPool.threads p)) Hpos).
  simpl. rewrite bool_decide_true by done. simpl. lia.
Qed.

(** ** What a step of a session leaves alone *)

Lemma session_step_other i j (s s' : Concurrent.system (L := L) (E := E)) :
  Concurrent.step i s = Done s' -> i <> j -> sessions s' !! j = sessions s !! j.
Proof.
  intros Hs Hij. unfold Concurrent.step in Hs.
  destruct (sessions s !! i) as [th|]; [|by injection Hs as <-].
  assert (forall s1, Done (A := system) s1 = Done s' ->
    (exists th', sessions s1 = <[i := th']> (sessions s)) \/ sessions s1 = sessions s ->
    sessions s' !! j = sessions s !! j) as Hgo.
  { intros s1 [= <-] [(th' & ->)| ->]; [by rewrite list_lookup_insert_ne|done]. }
  assert (visit_step s i th = Done s' -> sessions s' !! j = sessions s !! j) as Hvisit.
  { clear Hs. unfold visit_step. intros Hs. destruct (ss_point th) as [| | | | |m|m|m| |];
      try (eapply Hgo; [exact Hs|]; simpl; eauto; fail).
    - destruct (mutation_mutex_ s); eapply Hgo; try exact Hs; simpl; eauto.
    - destruct (log_append m (wal_ (server s)) (calls s)) as [[[[] wal] e]| | | |]; try done;
        eapply Hgo; try exact Hs; simpl; eauto.
    - destruct (match m with MSet _ _ => _ | MDel _ => _ end) as [response store].
      eapply Hgo; [exact Hs|]. simpl. eauto. }
  destruct (ss_point th) eqn:Hp; try (by apply Hvisit). destruct (ss_todo th) as [|t rest]; [by apply Hvisit|].
  unfold begin in Hs. destruct (parse_command t) as [c|message]; [destruct c|];
    (eapply Hgo; [exact Hs|]; simpl; eauto).
Qed.

Lemma session_over_kept i j (s s' : Concurrent.system (L := L) (E := E)) :
  session_over s j -> Concurrent.step i s = Done s' -> session_over s' j.
Proof.
  intros (th & Hth & Hp & Ht) Hs. destruct (decide (i = j)) as [->|Hij].
  - unfold Concurrent.step in Hs. rewrite Hth, Hp, Ht in Hs. unfold visit_step in Hs.
    rewrite Hp in Hs. injection Hs as <-. by exists th.
  - exists th. by rewrite (session_step_other i j s s').
Qed.

(** ** The invariant *)

Section Reached.
Context (n queue_capacity : Z) (spawned : bool) (calls : list (list (ThreadPool.call (task := nat)))).
Context (p0 : ThreadPool.pool (task := nat)).
Context (srv : Server L) (e : E) (requests : list (list bytes)) (sv0 : service).
Context (Hn : 0 <= n) (Hcap : 0 <= queue_capacity).
Context (Hnew : new_pool n queue_capacity spawned calls = Done p0).
Context (Hrep : represents srv sv0).
Context (Hreq : Forall (Forall (fun t => len t <= kDefaultMaxPayload)) requests).

Record whole_inv (w : whole) : Prop := mkWholeInv {
  wi_pool : ThreadPool.reachable session_task p0 (wh_pool w);
  wi_system : exists schedule, run schedule (open_sessions srv e requests) = Done (wh_system w);
  wi_over : forall t, t ∈ finished (wh_pool w) -> session_over (wh_system w) t;
  wi_fresh : forall i, i ∉ started (wh_pool w) ->
               sessions (wh_system w) !! i = sessions (open_sessions srv e requests) !! i;
}.

Lemma started_pool_inv w : whole_inv w -> pool_inv (wh_pool w).
Proof.
  intros Hw. eapply reachable_inv; [|apply Hw]. by eapply (new_pool_inv n queue_capacity).
Qed.

Lemma run_snoc schedule m (s s' s'' : Concurrent.system (L := L) (E := E)) :
  run schedule s = Done s' -> make_move m s' = Done s'' -> run (schedule ++ [m]) s = Done s''.
Proof.
  revert s. induction schedule as [|k schedule IH]; intros s; simpl.
  - intros [= ->]. by intros ->.
  - intros (s1 & -> & Hr)%obind_Done_inv Hm. simpl. by apply IH.
Qed.

Lemma whole_start_inv : whole_inv (mkWhole p0 (open_sessions srv e requests)).
Proof.
  split; simpl; [apply Reach_refl|by exists []| |done].
  unfold new_pool in Hnew. apply obind_Done_inv in Hnew as (q & _ & Hp).
  destruct (n =? 0); [done|]. destruct spawned; [|done]. injection Hp as <-. by intros t ?%elem_of_nil.
Qed.

Lemma whole_pool_inv w p s :
  whole_inv w -> ThreadPool.step session_task (wh_pool w) p \/ spurious (wh_pool w) p ->
  (forall t, finished p = finished (wh_pool w) ++ [t] -> session_over (wh_system w) t) ->
  make_move (Counters (ThreadPool.submitted_ p) (ThreadPool.completed_ p)) (wh_system w) = Done s ->
  whole_inv (mkWhole p s).
Proof.
  intros [Hp (schedule & Hr) Hover Hfresh] Hstep Hfin Hmove.
  destruct (pool_step_logs _ _ Hstep) as [Hf Hs].
  assert (sessions s = sessions (wh_system w)) as Hsess by (by injection Hmove as <-).
  split; cbn [wh_pool wh_system].
  - destruct Hstep; [by eapply Reach_step|by eapply Reach_spurious].
  - eexists. by eapply run_snoc.
  - intros t Ht. assert (session_over (wh_system w) t) as (th & Hth & ?).
    { destruct Hf as [Hf|(t' & Hf)]; rewrite Hf in Ht; [by apply Hover|].
      apply elem_of_app in Ht as [Ht|Ht]; [by apply Hover|].
      apply list_elem_of_singleton in Ht. subst t'. by apply Hfin. }
    exists th. by rewrite Hsess.
  - intros i Hi. rewrite Hsess. apply Hfresh. intros Hin. apply Hi.
    destruct Hs as [->|(t & ->)]; [done|]. apply elem_of_app. by left.
Qed.

Lemma whole_session_inv w i s :
  whole_inv w -> running i (wh_pool w) -> make_move (Thread i) (wh_system w) = Done s ->
  whole_inv (mkWhole (wh_pool w) s).
Proof.
  intros Hw Hrun Hmove. pose proof (running_started i _ (started_pool_inv w Hw) Hrun) as Hin.
  destruct Hw as [Hp (schedule & Hr) Hover Hfresh]. split; cbn [wh_pool wh_system].
  - done.
  - eexists. by eapply run_snoc.
  - intros t Ht. eapply session_over_kept; [by apply Hover|exact Hmove].
  - intros j Hj. rewrite (session_step_other i j _ _ Hmove) by (by intros ->). by apply Hfresh.
Qed.

Lemma whole_reachable_inv w :
  whole_reachable (mkWhole p0 (open_sessions srv e requests)) w -> whole_inv w.
Proof.
  induction 1 as [|w w' _ IH [p s Hstep Hfin Hmove ->|i s Hrun Hmove ->]].
  - apply whole_start_inv.
  - by apply (whole_pool_inv w).
  - by apply (whole_session_inv w i).
Qed.

(** A session at its end, or not begun, in terms of the history. *)
Lemma session_history w sv i ts :
  whole_inv w -> inv sv0 (wh_system w) sv -> requests !! i = Some ts ->
  (session_over (wh_system w) i -> map fst (own i (history (wh_system w))) = ts)
  /\ (i ∉ started (wh_pool w) -> own i (history (wh_system w)) = []).
Proof.
  intros Hw Hinv Hi. destruct (wi_system w Hw) as (schedule & Hr).
  assert (forall th, sessions (wh_system w) !! i = Some th ->
    asked th = ts /\ exists pending, own i (history (wh_system w)) = ss_answers th ++ pending
      /\ (ss_point th = Waiting -> pending = [])) as Hth.
  { intros th Hth. split.
    - pose proof (run_asked _ _ _ Hr) as Ha. simpl in Ha. rewrite map_map, map_id in Ha.
      apply (f_equal (fun l => l !! i)) in Ha. rewrite Hi in Ha.
      change (map asked) with (@fmap list list_fmap _ _ asked) in Ha.
      rewrite list_lookup_fmap, Hth in Ha. by injection Ha.
    - destruct (own_pending _ _ _ (inv_sessions _ _ _ Hinv i th Hth)) as (pending & Ho & _ & Hw0). eauto. }
  split.
  - intros (th & Hs & Hp & Ht). destruct (Hth th Hs) as (Ha & pending & Ho & Hpend).
    unfold asked in Ha. rewrite Hp, Ht, app_nil_r in Ha. by rewrite Ho, (Hpend Hp), app_nil_r.
  - intros Hf. pose proof (wi_fresh w Hw i Hf) as Hs. simpl in Hs.
    rewrite list_lookup_fmap, Hi in Hs. simpl in Hs.
    destruct (Hth _ Hs) as (_ & pending & Ho & Hpend). by rewrite Ho, (Hpend eq_refl).
Qed.

Lemma drained_pool w :
  whole_inv w -> all_exited (ThreadPool.threads (wh_pool w)) ->
  Permutation (finished (wh_pool w)) (accepted (wh_pool w))
  /\ started (wh_pool w) = accepted (wh_pool w).
Proof.
  intros Hw Hex. pose proof (started_pool_inv w Hw) as Hp.
  destruct (exited_counts _ Hex) as [Hh He]. pose proof (pi_workers _ Hp).
  destruct (pi_exited _ Hp) as [_ Hq]; [lia|]. split; [by apply all_finished; [apply Hp|..]|].
  rewrite (pi_fifo _ Hp), (len_zero _ Hq). by rewrite app_nil_r.
Qed.
End Reached.

(** What the workers leave behind when they have all exited. *)
Lemma drained_history n queue_capacity spawned calls p0 srv e requests sv0 w :
  0 <= n -> 0 <= queue_capacity -> new_pool n queue_capacity spawned calls = Done p0 ->
  represents srv sv0 -> Forall (Forall (fun t => len t <= kDefaultMaxPayload)) requests ->
  whole_reachable (mkWhole p0 (open_sessions srv e requests)) w ->
  all_exited (ThreadPool.threads (wh_pool w)) ->
  let h := history (wh_system w) in
  (exists sv, serves_all sv0 (requests_of h) (responses_of h) sv
     /\ values_ (store_ (server (wh_system w))) = sv_map sv)
  /\ forall i ts, requests !! i = Some ts ->
       if decide (i ∈ accepted (wh_pool w)) then map fst (own i h) = ts else own i h = [].
Proof.
  intros Hn Hcap Hnew Hrep Hreq Hw Hex h.
  pose proof (whole_reachable_inv _ _ _ _ _ _ _ _ Hn Hcap Hnew w Hw) as Hinv.
  destruct (wi_system _ _ _ _ _ Hinv) as (schedule & Hr).
  destruct (requests_run_inv sv0 schedule _ _ (open_sessions_inv srv e requests sv0 Hrep Hreq))
    as (s & sv & Hr' & Hs). rewrite Hr in Hr'. injection Hr' as <-.
  split; [exists sv; split; [by apply linear_serves_all, Hs|apply Hs]|].
  intros i ts Hi. destruct (session_history _ _ _ _ _ w sv i ts Hinv Hs Hi) as [Hover Hfresh].
  destruct (drained_pool _ _ _ _ _ _ _ _ Hn Hcap Hnew w Hinv Hex) as [Hperm Hst].
  case_decide as Ha; [apply Hover, (wi_over _ _ _ _ _ Hinv); by rewrite Hperm|].
  apply Hfresh. by rewrite Hst.
Qed.
(** ** Properties *)

(** A shutdown answers every accepted client.  Run the pool and the sessions of
    a server in any interleaving, and let [shutdown] have returned, so that the
    workers have exited.  Then every client whose task the pool accepted has got
    an answer to each of its requests, in their order; a client that was refused
    has had none of its requests executed; and all the answers together are those
    of the key-value service executing the requests one after the other, whose
    state is the store's. *)
Theorem shutdown_answers_every_client n queue_capacity spawned calls p0 srv e requests sv0 w :
  0 <= n -> 0 <= queue_capacity -> new_pool n queue_capacity spawned calls = Done p0 ->
  represents srv sv0 -> Forall (Forall (fun t => len t <= kDefaultMaxPayload)) requests ->
  whole_reachable (mkWhole p0 (open_sessions srv e requests)) w ->
  all_exited (ThreadPool.threads (wh_pool w)) ->
  let h := history (wh_system w) in
  (exists sv, serves_all sv0 (requests_of h) (responses_of h) sv
     /\ values_ (store_ (server (wh_system w))) = sv_map sv)
  /\ forall i ts, requests !! i = Some ts ->
       if decide (i ∈ accepted (wh_pool w)) then map fst (own i h) = ts else own i h = [].
Proof. apply drained_history. Qed.
End Whole.

(** ** Witnesses *)

Lemma whole_front {L E} `{DurableLog L E} (w w' w'' : whole (L := L) (E := E)) :
  whole_step w w' -> whole_reachable w' w'' -> whole_reachable w w''.
Proof.
  intros Hs. induction 1 as [|w1 w2 _ IH Hstep].
  - eapply Whole_next; [apply Whole_start|done].
  - by eapply Whole_next.
Qed.

(** One worker; one client whose session asks for a PONG; then the shutdown. *)
Definition ex_calls : list (list (ThreadPool.call (task := nat))) := [[CSubmit (Some 0%nat); CShutdown]].
Definition ex_pool : ThreadPool.pool (task := nat) :=
  mkPool (mkQueue 1 [] false) false 0 0 [Worker WPop; Client [CSubmit (Some 0%nat); CShutdown] AReady]
    [] [] [] [].
Definition ex_counted (submitted completed : Z) : Server Wal :=
  mkServer (options_ ex_server) (listener_ ex_server) (bound_port_ ex_server) (error_ ex_server)
    (store_ ex_server) (wal_ ex_server) submitted completed.
Definition ex_whole_end : whole (L := Wal) (E := append_env) :=
  mkWhole (mkPool (mkQueue 1 [] true) true 1 1 [Worker WExited; Client [] AReady]
             [0%nat] [0%nat] [0%nat] [])
    (mkSystem (ex_counted 1 1) ex_env None
       [mkSession [] (str "PING") Waiting [(str "PING", str "PONG")] 0]
       [(0%nat, str "PING", Whole (str "PONG"))]).

Ltac compute_state :=
  match goal with |- whole_reachable ?w _ => let w' := eval vm_compute in w in change w with w' end.
Ltac pool_turn c :=
  eapply whole_front;
    [eapply Whole_pool; [left; c|intros t Hf; try discriminate Hf|reflexivity|reflexivity]
    |try compute_state].
Ltac client_turn c := pool_turn ltac:(eapply (Step_call _ _ _ 1%nat InClient); [reflexivity|c]).
Ltac server_turn c := pool_turn ltac:(eapply (Step_worker _ _ _ 0%nat); [reflexivity|c]).
Ltac session_turn :=
  eapply whole_front; [eapply (Whole_session _ _ 0%nat); [by exists 0%nat|reflexivity|reflexivity]|compute_state].

Lemma ex_whole_run :
  @whole_reachable Wal append_env (@wal_durable_log little)
    (mkWhole ex_pool (open_sessions ex_server ex_env [[str "PING"]])) ex_whole_end.
Proof.
  compute_state.
  client_turn ltac:(eapply Submit_loaded; reflexivity).
  client_turn ltac:(apply Submit_counted).
  client_turn ltac:(eapply Push_done; reflexivity).
  client_turn ltac:(apply Push_notifies, Notify_none; by repeat constructor).
  server_turn ltac:(eapply Pop_done; reflexivity).
  server_turn ltac:(apply Pop_notifies, Notify_none; by repeat constructor).
  session_turn.
  session_turn.
  server_turn ltac:(apply Task_finished).
  { injection Hf as <-. by eexists. }
  client_turn ltac:(eapply Shutdown_first; reflexivity).
  client_turn ltac:(apply Close).
  server_turn ltac:(apply Pop_none; reflexivity).
  client_turn ltac:(apply Close_items).
  client_turn ltac:(apply Close_room).
  client_turn ltac:(apply Join_all; [reflexivity|repeat constructor; by auto]).
  apply Whole_start.
Qed.

Lemma shutdown_answers_every_client_witness :
  let h := history (wh_system ex_whole_end) in
  (exists sv, serves_all ex_service (requests_of h) (responses_of h) sv
     /\ values_ (store_ (server (wh_system ex_whole_end))) = sv_map sv)
  /\ forall i ts, [[str "PING"]] !! i = Some ts ->
       if decide (i ∈ accepted (wh_pool ex_whole_end)) then map fst (own i h) = ts else own i h = [].
Proof.
  apply (@shutdown_answers_every_client Wal append_env (@wal_durable_log little) 1 1 true ex_calls ex_pool
           ex_server ex_env [[str "PING"]] ex_service ex_whole_end).
  - lia.
  - lia.
  - reflexivity.
  - apply ex_represents.
  - repeat constructor; vm_compute; discriminate.
  - apply ex_whole_run.
  - repeat constructor; by auto.
Defined.
