(* ===== verification/AcceptLoop.v ===== *)
(** * The accept loop ([Server::run], [capstone/reference/src/server.cpp], lines 118-171)

    One turn of the loop polls the listener, accepts a connection, sets it up
    and hands it to the pool.  What the calls of a turn return is the turn;
    the loop ends when [stop_requested_] reads true (the end of the list), or
    breaks.  A descriptor that is not handed to the pool is closed when its
    [UniqueFd] goes out of scope ([UniqueFd.v]). *)

From stdpp Require Import base list strings.
From Stdlib Require Import Strings.Byte ZArith Lia.
From S2P Require Import Prelude Posix.

Definition POLLIN : Z := 1.
Definition POLLERR : Z := 8.
Definition POLLHUP : Z := 16.
Definition POLLNVAL : Z := 32.

(** What [pool_.submit] does. *)
Inductive submitted := Accepted | Refused | SubmitThrew.

Record turn := mkTurn {
  tn_poll : Z;
  tn_poll_errno : Z;
  tn_revents : Z;
  tn_accept : Z;
  tn_accept_errno : Z;
  tn_getfd : Z;
  tn_setfd : Z;
  tn_rcvtimeo : Z;
  tn_sndtimeo : Z;
  tn_submit : submitted;
}.

(** The clients handed to the pool, the ones told ["ERR overloaded"], and the
    ones dropped, each in order; [error_]; and whether the loop goes on. *)
Record loop := mkLoop {
  lp_served : list Z;
  lp_overloaded : list Z;
  lp_dropped : list Z;
  lp_error : bytes;
  lp_running : bool;
}.

Section Run.
Context (strerror : Z -> bytes).

(** The body of the [while] loop. *)
Definition run_turn (t : turn) (s : loop) : loop :=
  let error message := mkLoop (lp_served s) (lp_overloaded s) (lp_dropped s) message in
  if tn_poll t <? 0 then
    if tn_poll_errno t =? EINTR then s else error (strerror (tn_poll_errno t)) false
  else if tn_poll t =? 0 then s
  else if Z.land (tn_revents t) POLLIN =? 0 then
    if negb (Z.land (tn_revents t) (Z.lor POLLERR (Z.lor POLLHUP POLLNVAL)) =? 0)
    then error (lp_error s) false else s
  else if tn_accept t <? 0 then
    if (tn_accept_errno t =? EINTR) || (tn_accept_errno t =? EAGAIN)
       || (tn_accept_errno t =? EWOULDBLOCK)
    then s else error (strerror (tn_accept_errno t)) (lp_running s)
  else
    let accepted := tn_accept t in
    let drop := mkLoop (lp_served s) (lp_overloaded s) (lp_dropped s ++ [accepted]) in
    if (tn_getfd t <? 0) || negb (tn_setfd t =? 0) then drop (lp_error s) (lp_running s)
    else if negb (tn_rcvtimeo t =? 0) || negb (tn_sndtimeo t =? 0)
    then drop (lp_error s) (lp_running s)
    else match tn_submit t with
         | Accepted => mkLoop (lp_served s ++ [accepted]) (lp_overloaded s) (lp_dropped s)
                         (lp_error s) (lp_running s)
         | Refused => mkLoop (lp_served s) (lp_overloaded s ++ [accepted]) (lp_dropped s)
                        (lp_error s) (lp_running s)
         | SubmitThrew => drop (str "could not queue accepted client work") false
         end.

(** The turns until the stop request or the [break]; [pool_.shutdown()] follows
    in both cases. *)
Fixpoint run_turns (turns : list turn) (s : loop) : loop :=
  match turns with
  | [] => s
  | t :: turns => let s := run_turn t s in if lp_running s then run_turns turns s else s
  end.

(** [run], and whether the pool was shut down at its end. *)
Definition run (listener : Z) (error : bytes) (turns : list turn) : loop * bool :=
  let s := mkLoop [] [] [] error true in
  if negb (listener >=? 0) then (s, false) else (run_turns turns s, true).

(** ** Accounting *)

(** The connection a turn takes from the kernel. *)
Definition accepts_fd (t : turn) : option Z :=
  if (tn_poll t >? 0) && negb (Z.land (tn_revents t) POLLIN =? 0) && (tn_accept t >=? 0)
  then Some (tn_accept t) else None.

(** The turns that run: up to the first that breaks. *)
Fixpoint executed (turns : list turn) (s : loop) : list turn :=
  match turns with
  | [] => []
  | t :: turns =>
      t :: (if lp_running (run_turn t s) then executed turns (run_turn t s) else [])
  end.

Definition clients (s : loop) : list Z := lp_served s ++ lp_overloaded s ++ lp_dropped s.

Definition one (o : option Z) : list Z := match o with Some fd => [fd] | None => [] end.

Lemma run_turn_clients t s : Permutation (clients (run_turn t s)) (clients s ++ one (accepts_fd t)).
Proof.
  unfold run_turn, accepts_fd, clients. rewrite (Z.gtb_ltb (tn_poll t)).
  destruct (Z.ltb_spec (tn_poll t) 0) as [Hneg|Hpos].
  { rewrite (proj2 (Z.ltb_ge 0 (tn_poll t))) by lia. cbn [andb one]. rewrite app_nil_r. by case_if. }
  destruct (Z.eqb_spec (tn_poll t) 0) as [E|Hne].
  { rewrite (proj2 (Z.ltb_ge 0 (tn_poll t))) by lia. cbn [andb one]. by rewrite app_nil_r. }
  rewrite (proj2 (Z.ltb_lt 0 (tn_poll t))) by lia. cbn [andb].
  destruct (Z.land (tn_revents t) POLLIN =? 0); cbn [andb negb one];
    [rewrite app_nil_r; by case_if|].
  rewrite Z.geb_leb. destruct (Z.ltb_spec (tn_accept t) 0) as [Ha|Ha].
  { rewrite (proj2 (Z.leb_gt 0 (tn_accept t))) by lia. cbn [one]. rewrite app_nil_r. by case_if. }
  rewrite (proj2 (Z.leb_le 0 (tn_accept t))) by lia. cbn [one].
  repeat case_if; try destruct (tn_submit t); simpl; solve_Permutation.
Qed.

Lemma run_turns_clients turns s :
  Permutation (clients (run_turns turns s)) (clients s ++ omap accepts_fd (executed turns s)).
Proof.
  revert s. induction turns as [|t turns IH]; intros s; cbn [run_turns executed].
  - simpl. by rewrite app_nil_r.
  - assert (Hone : forall rest, omap accepts_fd (t :: rest) = one (accepts_fd t) ++ omap accepts_fd rest).
    { intros rest. simpl. by destruct (accepts_fd t). }
    rewrite Hone, app_assoc, <- run_turn_clients.
    destruct (lp_running (run_turn t s)); [by rewrite IH|]. simpl. by rewrite app_nil_r.
Qed.

Lemma run_turns_all turns s :
  lp_running (run_turns turns s) = true -> executed turns s = turns.
Proof.
  revert s. induction turns as [|t turns IH]; intros s; cbn [run_turns executed]; [done|].
  destruct (lp_running (run_turn t s)) eqn:Hr; [|congruence]. intros H. by rewrite IH.
Qed.

(** ** Properties *)

(** Every accepted client is accounted for.  However the system calls and the
    pool behave, a run on an open listener ends by shutting the pool down, every
    connection accepted in the turns that ran was handed to the pool, answered
    with the overload error or dropped, exactly one of them and exactly once;
    and unless a turn broke the loop, every turn before the stop request ran:
    interrupted and failed calls lose no turn. *)
Theorem run_accounts_for_clients listener error turns :
  0 <= listener ->
  let (s, shut) := run listener error turns in
  let ran := executed turns (mkLoop [] [] [] error true) in
  shut = true
  /\ Permutation (lp_served s ++ lp_overloaded s ++ lp_dropped s) (omap accepts_fd ran)
  /\ (lp_running s = true -> ran = turns).
Proof.
  intros Hl. unfold run. rewrite Z.geb_leb, (proj2 (Z.leb_le _ _)) by done. cbn [negb].
  split; [done|]. split; [apply (run_turns_clients turns)|apply run_turns_all].
Qed.
End Run.

(** ** Witnesses *)

(** An interrupted poll, a served client, and a client whose set-up fails. *)
Definition ex_turns : list turn :=
  [mkTurn (-1) EINTR 0 0 0 0 0 0 0 Accepted; mkTurn 1 0 POLLIN 7 0 0 0 0 0 Accepted;
   mkTurn 1 0 POLLIN 8 0 0 0 (-1) 0 Accepted; mkTurn 0 0 0 0 0 0 0 0 0 Accepted].

Lemma run_accounts_for_clients_witness :
  let (s, shut) := run (fun _ => str "error") 3 [] ex_turns in
  let ran := executed (fun _ => str "error") ex_turns (mkLoop [] [] [] [] true) in
  shut = true
  /\ Permutation (lp_served s ++ lp_overloaded s ++ lp_dropped s) (omap accepts_fd ran)
  /\ (lp_running s = true -> ran = ex_turns).
Proof. apply (run_accounts_for_clients (fun _ => str "error") 3 [] ex_turns). lia. Defined.
