(* ===== verification/Lifetime.v ===== *)
(** * The life of a server ([capstone/reference/src/server.cpp])

    The constructor builds the pool, [run] submits one task for each connection
    it sets up and then shuts the pool down, and the destructor asks for a stop
    and shuts it down again.  All these calls on the pool come from the one thread
    that runs the server.  Here the accept loop ([AcceptLoop.v]) is the caller of
    the pool ([ThreadPool.v]) whose tasks are the sessions ([WholeServer.v]). *)

From stdpp Require Import base gmap list strings.
From Stdlib Require Import Strings.Byte ZArith Lia.
From S2P Require Import Prelude ByteOrder Posix Numeric Protocol Commands Store DurableLog Wal Server BlockingQueue ThreadPool PoolProgress Startup Concurrent WholeServer AcceptLoop.

(** ** The calls on the pool *)

(** The task of the [i]-th client that the accept loop submitted. *)
Definition submission (i : nat) : ThreadPool.call (task := nat) := CSubmit (Some i).

(** [~Server]: the stop request and then [pool_.shutdown()]. *)
Definition destroy_calls : list (ThreadPool.call (task := nat)) := [CShutdown].

(** What the thread that runs the server calls: one [submit] for each client that
    [run] hands over, [shutdown] at its end, and the destructor. *)
Definition run_calls (ended : loop * bool) : list (ThreadPool.call (task := nat)) :=
  map submission (seq 0 (length (lp_served (fst ended))))
  ++ (if snd ended then [CShutdown] else []) ++ destroy_calls.

(** The [pool_] member: never without a worker, never without room. *)
Definition server_pool (options : ServerOptions) (spawned : bool)
  (calls : list (list (ThreadPool.call (task := nat)))) : outcome (ThreadPool.pool (task := nat)) :=
  new_pool (Z.max 1 (Server.workers options)) (Z.max 1 (queue_capacity options)) spawned calls.

(** ** One caller *)

(** A worker whose task calls nothing. *)
Definition quiet (th : ThreadPool.thread (task := nat)) : Prop :=
  match th with
  | Worker (WRunning _ todo a) => todo = [] /\ a = AReady
  | Worker _ => True
  | Client _ _ => False
  end.

(** The task that the caller holds, not yet in the queue. *)
Definition in_hand (a : activity (task := nat)) : list nat :=
  match a with ALoaded t | APushing t | AWaitRoom t => [t] | _ => [] end.

Definition submitting (a : activity (task := nat)) : bool :=
  match a with AReady | ALoaded _ | APushing _ | AWaitRoom _ | APushed => true | _ => false end.
Definition ending (a : activity (task := nat)) : bool :=
  match a with AReady | AClosing | AClosedItems | AClosedRoom | AJoin => true | _ => false end.

(** The only caller submits the tasks [ids] in order and then shuts down; thread
    [k] is that caller. *)
Record solo (ids : list nat) (k : nat) (p : ThreadPool.pool (task := nat)) : Prop := mkSolo {
  so_caller : exists rest m a,
    ThreadPool.threads p !! k = Some (Client (map submission rest ++ replicate m CShutdown) a)
    /\ accepted p ++ in_hand a ++ rest = ids
    /\ if ThreadPool.shutting_down_ p then rest = [] /\ ending a = true else submitting a = true;
  so_others : forall j th, j <> k -> ThreadPool.threads p !! j = Some th -> quiet th;
}.

(** A notification leaves each thread as it is or wakes it. *)
Definition woken (th th' : ThreadPool.thread (task := nat)) : Prop :=
  th' = th \/ th' = wake_item th \/ th' = wake_room th.

Lemma woken_refl ths : Forall2 woken ths ths.
Proof. apply Forall2_same_length_lookup_2; [done|]. intros j x y Hx Hy. left. congruence. Qed.

Lemma woken_notify waits wake ths ths' :
  wake = wake_item \/ wake = wake_room -> notify_one waits wake ths ths' -> Forall2 woken ths ths'.
Proof.
  intros Hw [ths0 _|ths0 j th Hj _]; [apply woken_refl|].
  rewrite <- (list_insert_id _ _ _ Hj) at 1. apply Forall2_insert; [apply woken_refl|].
  right. by destruct Hw as [->| ->]; [left|right].
Qed.

Lemma woken_map wake ths :
  wake = wake_item \/ wake = wake_room -> Forall2 woken ths (map wake ths).
Proof.
  intros Hw. apply Forall2_same_length_lookup_2; [by rewrite length_map|].
  intros j x y Hx Hy. rewrite list_lookup_fmap, Hx in Hy. injection Hy as <-.
  right. by destruct Hw as [->| ->]; [left|right].
Qed.

Lemma woken_quiet th th' : woken th th' -> quiet th -> quiet th'.
Proof. intros [->|[->| ->]]; destruct th as [|[| | |? ? []|]]; simpl; first [tauto|by intros [_ [=]]]. Qed.

(** A woken caller has the same calls to make, and the same task in hand. *)
Lemma woken_caller todo a th' :
  woken (Client todo a) th' ->
  exists a', th' = Client todo a' /\ in_hand a' = in_hand a
    /\ (submitting a = true -> submitting a' = true) /\ (ending a = true -> ending a' = true).
Proof. intros [->|[->| ->]]; [by exists a..|]. by destruct a; eexists. Qed.

(** The others stay quiet, and the caller where it was, when another thread moves. *)
Lemma solo_other ids k p p' i th' ths :
  solo ids k p -> i <> k -> Forall2 woken (ThreadPool.threads p) ths -> quiet th' ->
  ThreadPool.threads p' = <[i := th']> ths -> accepted p' = accepted p ->
  ThreadPool.shutting_down_ p' = ThreadPool.shutting_down_ p -> solo ids k p'.
Proof.
  intros [(rest & m & a & Hk & Hids & Ha) Hq] Hik Hw Hth' Hths Hacc Hshut. split.
  - destruct (Forall2_lookup_l _ _ _ _ _ Hw Hk) as (x & Hx & Hwx).
    destruct (woken_caller _ _ _ Hwx) as (a' & -> & Hh & Hs & He).
    exists rest, m, a'. rewrite Hths, list_lookup_insert_ne, Hacc, Hshut, Hh by done.
    split; [done|]. split; [done|]. destruct (ThreadPool.shutting_down_ p); [|by apply Hs].
    destruct Ha as [? ?]. split; [done|]. by apply He.
  - intros j th Hj. rewrite Hths. intros Hl. destruct (decide (i = j)) as [->|Hij].
    + apply lookup_lt_Some in Hl as Hlt. rewrite length_insert in Hlt.
      rewrite list_lookup_insert_eq in Hl by done. by injection Hl as <-.
    + rewrite list_lookup_insert_ne in Hl by done.
      destruct (Forall2_lookup_r _ _ _ _ _ Hw Hl) as (x & Hx & Hwx).
      by apply (woken_quiet x); [|apply (Hq j)].
Qed.

(** The caller moves; the others are at most woken. *)
Lemma solo_caller ids k p p' ths rest m a :
  solo ids k p -> Forall2 woken (ThreadPool.threads p) ths ->
  ThreadPool.threads p' = <[k := Client (map submission rest ++ replicate m CShutdown) a]> ths ->
  accepted p' ++ in_hand a ++ rest = ids ->
  (if ThreadPool.shutting_down_ p' then rest = [] /\ ending a = true else submitting a = true) ->
  solo ids k p'.
Proof.
  intros [(rest0 & m0 & a0 & Hk & _) Hq] Hw Hths Hids Ha. split.
  - exists rest, m, a. split; [|done]. rewrite Hths. apply list_lookup_insert_eq.
    rewrite <- (Forall2_length _ _ _ Hw). by eapply lookup_lt_Some.
  - intros j th Hj. rewrite Hths, list_lookup_insert_ne by done. intros Hl.
    destruct (Forall2_lookup_r _ _ _ _ _ Hw Hl) as (x & Hx & Hwx).
    by apply (woken_quiet x); [|apply (Hq j)].
Qed.

(** What the caller calls next. *)
Lemma calls_head rest m c todo :
  map submission rest ++ replicate m CShutdown = c :: todo ->
  (exists t rest', rest = t :: rest' /\ c = submission t /\ todo = map submission rest' ++ replicate m CShutdown)
  \/ (exists m', rest = [] /\ m = S m' /\ c = CShutdown /\ todo = map submission [] ++ replicate m' CShutdown).
Proof.
  destruct rest as [|t rest]; simpl; [destruct m as [|m]; [done|]|]; intros [= <- <-]; [right|left]; eauto.
Qed.

Lemma solo_call_step ids k p todo a p' :
  pool_inv p -> solo ids k p -> ThreadPool.threads p !! k = Some (Client todo a) ->
  call_step p k InClient todo a p' -> solo ids k p'.
Proof.
  intros Hp Hsolo Hk Hs. pose proof Hsolo as [(rest & m & a0 & Hk0 & Hids & Ha) _].
  rewrite Hk in Hk0. injection Hk0 as -> <-. pose proof (woken_refl (ThreadPool.threads p)) as Hrefl.
  destruct Hs as [todo Ht|t todo Ht Hd|t todo Ht Hd|t|t Hpush|t Hpush|t q Hpush|ths Hn| |todo Ht Hd|todo Ht Hd| | | |Hc|Hc Hex].
  - by apply calls_head in Ht as [(? & ? & -> & [=] & _)|(? & -> & -> & [=] & _)].
  - apply calls_head in Ht as [(u & r & -> & _ & _)|(? & -> & -> & [=] & _)].
    rewrite Hd in Ha. by destruct Ha.
  - apply calls_head in Ht as [(u & r & -> & [= <-] & ->)|(? & -> & -> & [=] & _)].
    eapply (solo_caller _ _ _ _ _ r m (ALoaded t)); [done|done|done|done|]. simpl. by rewrite Hd.
  - eapply (solo_caller _ _ _ _ _ rest m (APushing t)); [done|done|done|done|]. simpl.
    destruct (ThreadPool.shutting_down_ p); [by destruct Ha|done].
  - eapply (solo_caller _ _ _ _ _ rest m (AWaitRoom t)); [done|done|done|done|]. simpl.
    destruct (ThreadPool.shutting_down_ p); [by destruct Ha|done].
  - destruct (ThreadPool.shutting_down_ p) eqn:Hd; [by destruct Ha|].
    apply push_locked_refused in Hpush. destruct (pi_open p Hp Hd) as [Hopen _]. congruence.
  - eapply (solo_caller _ _ _ _ _ rest m APushed); [done|done|done|simpl|simpl].
    + by rewrite <- Hids, <- app_assoc.
    + destruct (ThreadPool.shutting_down_ p); [by destruct Ha|done].
  - eapply (solo_caller _ _ _ _ ths rest m AReady); [done| |done|done|simpl].
    + eapply woken_notify; [|exact Hn]. by left.
    + destruct (ThreadPool.shutting_down_ p); [by destruct Ha|done].
  - destruct (ThreadPool.shutting_down_ p); [by destruct Ha|done].
  - apply calls_head in Ht as [(? & ? & -> & [=] & _)|(m' & -> & -> & _ & ->)].
    eapply (solo_caller _ _ _ _ _ [] m' AClosing); done.
  - apply calls_head in Ht as [(? & ? & -> & [=] & _)|(m' & -> & -> & _ & ->)].
    eapply (solo_caller _ _ _ _ _ [] m' AJoin); [done|done|done|done|]. simpl. by rewrite Hd.
  - eapply (solo_caller _ _ _ _ _ rest m AClosedItems); done.
  - eapply (solo_caller _ _ _ _ _ rest m AClosedRoom); [done| |done|done|done].
    apply woken_map. by left.
  - eapply (solo_caller _ _ _ _ _ rest m AJoin); [done| |done|done|done].
    apply woken_map. by right.
  - done.
  - eapply (solo_caller _ _ _ _ _ rest m AReady); [done|done|done|done|]. simpl.
    by destruct (ThreadPool.shutting_down_ p).
Qed.

Lemma solo_step ids k p p' :
  pool_inv p -> solo ids k p -> ThreadPool.step session_task p p' -> solo ids k p'.
Proof.
  intros Hp Hsolo [i c todo a Hi Hs|i w Hi Hs]; destruct (decide (i = k)) as [->|Hik].
  - destruct c; [by eapply solo_call_step|].
    destruct Hsolo as [(rest & m & a0 & Hk0 & ?) ?]. rewrite Hk0 in Hi. done.
  - pose proof (so_others _ _ _ Hsolo i _ Hik Hi) as Hq. destruct c as [|t]; [done|].
    destruct Hq as [-> ->]. by inversion Hs.
  - destruct Hsolo as [(rest & m & a0 & Hk0 & ?) ?]. congruence.
  - pose proof (so_others _ _ _ Hsolo i _ Hik Hi) as Hq.
    destruct Hs as [_|_|t q _|t ths Hn|t];
      (eapply (solo_other ids k p _ i); [done|done| | |done|done|done]); try done;
      try apply woken_refl.
    eapply woken_notify; [|exact Hn]. by right.
Qed.

Lemma solo_spurious ids k p p' : solo ids k p -> spurious p p' -> solo ids k p'.
Proof.
  intros Hsolo Hs.
  assert (Hmove : forall i th th', ThreadPool.threads p !! i = Some th -> woken th th' ->
            solo ids k (ThreadPool.move p i th')).
  { intros i th th' Hi Hw. destruct (decide (i = k)) as [->|Hik].
    - pose proof Hsolo as [(rest & m & a & Hk & Hids & Ha) _]. rewrite Hi in Hk. injection Hk as ->.
      destruct (woken_caller _ _ _ Hw) as (a' & -> & Hh & Hs1 & Hs2).
      eapply (solo_caller _ _ _ _ _ rest m a'); [done|apply woken_refl|done|by rewrite Hh|]. simpl.
      destruct (ThreadPool.shutting_down_ p); [|by apply Hs1]. destruct Ha as [? ?]. auto.
    - eapply (solo_other ids k p _ i th'); [done|done|apply woken_refl| |done|done|done].
      eapply woken_quiet; [done|]. by apply (so_others _ _ _ Hsolo i). }
  destruct Hs as [i th Hi _|i th Hi _]; apply (Hmove i th); try done; [right; by left|right; by right].
Qed.

Lemma solo_reachable ids k p p' :
  pool_inv p -> solo ids k p -> reachable session_task p p' -> solo ids k p'.
Proof.
  intros Hp Hsolo. induction 1 as [|p1 p2 Hr IH Hs|p1 p2 _ IH Hs]; [done| |by eapply solo_spurious].
  eapply solo_step; [by eapply reachable_inv|done|done].
Qed.

Lemma solo_start n queue_capacity spawned ids m p0 :
  new_pool n queue_capacity spawned [map submission ids ++ replicate m CShutdown] = Done p0 ->
  solo ids (Z.to_nat n) p0.
Proof.
  unfold new_pool, new_queue. destruct (queue_capacity =? 0); [done|]. cbn [obind].
  destruct (n =? 0); [done|]. destruct spawned; [|done]. intros [= <-]. split; simpl.
  - exists ids, m, AReady. split; [|done]. rewrite lookup_app_r; rewrite length_replicate; [|done].
    by rewrite Nat.sub_diag.
  - intros j th Hj Hl. apply lookup_app_Some in Hl as [Hl|[Hge Hl]].
    + apply lookup_replicate in Hl as [-> _]. done.
    + rewrite length_replicate in *. apply list_lookup_singleton_Some in Hl as [? _]. lia.
Qed.

(** With one caller nothing is refused, and what was accepted is a first part of
    what it submits: all of it once the workers have exited. *)
Lemma solo_accepts ids k p :
  pool_inv p -> solo ids k p ->
  (forall j todo, ThreadPool.threads p !! j <> Some (Client todo ARefused))
  /\ (exists later, ids = accepted p ++ later)
  /\ (all_exited (ThreadPool.threads p) -> accepted p = ids).
Proof.
  intros Hp [(rest & m & a & Hk & Hids & Ha) Hq]. split; [|split].
  - intros j todo Hj. destruct (decide (j = k)) as [->|Hjk]; [|by destruct (Hq j _ Hjk Hj)].
    rewrite Hj in Hk. injection Hk as _ <-. by destruct (ThreadPool.shutting_down_ p); [destruct Ha|].
  - exists (in_hand a ++ rest). by rewrite <- Hids.
  - intros Hex. destruct (exited_counts _ Hex) as [_ He]. pose proof (pi_workers _ Hp).
    destruct (pi_exited _ Hp) as [Hc _]; [lia|]. destruct (ThreadPool.shutting_down_ p) eqn:Hd.
    + destruct Ha as [-> Ha]. rewrite <- Hids. destruct a; try done; by rewrite !app_nil_r.
    + destruct (pi_open _ Hp Hd) as [Hopen _]. congruence.
Qed.

(** ** The accept loop as the caller *)

Lemma run_calls_shape ended :
  exists m, run_calls ended
    = map submission (seq 0 (length (lp_served (fst ended)))) ++ replicate m CShutdown.
Proof. unfold run_calls, destroy_calls. destruct (snd ended); [by exists 2%nat|by exists 1%nat]. Qed.

(** [submit] may throw, and then the loop ends; the pool never refuses a task. *)
Definition not_refused (t : turn) : Prop := tn_submit t <> Refused.

Lemma run_turn_overloaded strerror t s :
  not_refused t -> lp_overloaded (run_turn strerror t s) = lp_overloaded s.
Proof. unfold not_refused, run_turn. intros Ht. repeat case_match; done. Qed.

Lemma run_overloaded strerror listener error turns :
  Forall not_refused turns -> lp_overloaded (fst (AcceptLoop.run strerror listener error turns)) = [].
Proof.
  intros Ht. unfold AcceptLoop.run. destruct (negb _); [done|]. simpl.
  assert (H : forall s, lp_overloaded s = [] -> lp_overloaded (run_turns strerror turns s) = []);
    [|by apply H].
  induction Ht as [|t turns Ht _ IH]; intros s Hs; [done|]. simpl.
  assert (lp_overloaded (run_turn strerror t s) = []) by (by rewrite run_turn_overloaded).
  case_match; auto.
Qed.

Section Life.
Context {L E : Type} `{DurableLog L E}.

(** ** Property *)

End Life.

(** ** Witness *)

(** One worker; the loop accepts one client, which asks for a PONG, and stops. *)
Definition ex_life_options : ServerOptions :=
  mkOptions (bind_address default_options) 0 1 1 (max_payload default_options) [].
Definition ex_life_turns : list turn :=
  [mkTurn (-1) EINTR 0 0 0 0 0 0 0 Accepted; mkTurn 1 0 POLLIN 7 0 0 0 0 0 Accepted].
Definition ex_life_calls : list (ThreadPool.call (task := nat)) :=
  [CSubmit (Some 0%nat); CShutdown; CShutdown].
Definition ex_life_pool : ThreadPool.pool (task := nat) :=
  mkPool (mkQueue 1 [] false) false 0 0 [Worker WPop; Client ex_life_calls AReady] [] [] [] [].

Lemma ex_life_run :
  @whole_reachable Wal append_env (@wal_durable_log little)
    (mkWhole ex_life_pool (open_sessions ex_server ex_env [[str "PING"]])) ex_whole_end.
Proof.
  compute_state.
  client_turn ltac:(eapply Submit_loaded; reflexivity).
  client_turn ltac:(apply Submit_counted).
  client_turn ltac:(eapply Push_done; reflexivity).
  client_turn ltac:(apply Push_notifies, Notify_none; by repeat constructor).
  server_turn ltac:(eapply Pop_done; reflexivity).
  server_turn ltac:(apply Pop_notifies, Notify_none; by repeat constructor).
  session_turn.
  session_turn.
  server_turn ltac:(apply Task_finished).
  { injection Hf as <-. by eexists. }
  client_turn ltac:(eapply Shutdown_first; reflexivity).
  client_turn ltac:(apply Close).
  server_turn ltac:(apply Pop_none; reflexivity).
  client_turn ltac:(apply Close_items).
  client_turn ltac:(apply Close_room).
  client_turn ltac:(apply Join_all; [reflexivity|repeat constructor; by auto]).
  client_turn ltac:(eapply Shutdown_again; reflexivity).
  client_turn ltac:(apply Join_all; [reflexivity|repeat constructor; by auto]).
  apply Whole_start.
Qed.

