(* ===== verification/ServerProgress.v ===== *)
(** * A server can always finish ([capstone/reference/src/server.cpp])

    The accept loop, the pool and the sessions of [Lifetime.v] cannot get stuck: from
    every state they reach, in any interleaving, some thread can go on until the
    pool is empty and its workers have exited.  The pool's steps lower the measure
    of [PoolProgress.v]; a session's steps lower the number of steps it still needs;
    and a session that waits for [mutation_mutex_] waits for one that a worker is
    running.  The log has to answer the appends it gets: [answers]. *)

From stdpp Require Import base gmap list strings.
From Stdlib Require Import Strings.Byte ZArith Lia.
From S2P Require Import Prelude ByteOrder Posix Numeric Protocol Commands Store DurableLog Wal Server BlockingQueue ThreadPool PoolProgress Startup Concurrent WholeServer AcceptLoop Lifetime.

Section Progress.
Context {L E : Type} `{DurableLog L E}.

(** The log answers the next [k] appends, with an acknowledgement or a failure. *)
Fixpoint answers (k : nat) (l : L) (e : E) : Prop :=
  match k with
  | O => True
  | S k => forall m, wf_mutation m ->
      exists ok l' e', log_append m l e = Done (ok, l', e') /\ answers k l' e'
  end.

Lemma answers_less k j l e : (j <= k)%nat -> answers k l e -> answers j l e.
Proof.
  revert j l e. induction k as [|k IH]; intros [|j] l e Hle Ha; try done; try lia.
  intros m Hm. destruct (Ha m Hm) as (ok & l' & e' & Happ & Hrest). exists ok, l', e'.
  split; [done|]. apply IH; [lia|done].
Qed.

(** ** What a session still has to do *)

Definition point_cost (p : point) : nat :=
  match p with
  | Waiting => 0
  | Returning _ => 1
  | Unlocking _ | Reading _ | LoadingCompleted _ _ => 2
  | Applying _ | LoadingSubmitted _ => 3
  | Appending _ | CountingKeys => 4
  | Locking _ => 5
  end.
Definition session_cost (th : session) : Z := Z.of_nat (6 * length (ss_todo th) + point_cost (ss_point th)).

(** The appends a session may still ask for. *)
Definition appends (th : session) : Z :=
  len (ss_todo th) + match ss_point th with Locking _ | Appending _ => 1 | _ => 0 end.

Definition appends_left (s : Concurrent.system (L := L) (E := E)) : nat :=
  Z.to_nat (sum_by appends (sessions s)).

Definition log_answers (s : Concurrent.system (L := L) (E := E)) : Prop :=
  answers (appends_left s) (wal_ (server s)) (calls s).

Definition is_over (th : session) : Prop := ss_point th = Waiting /\ ss_todo th = [].

#[global] Instance is_over_dec th : Decision (is_over th).
Proof.
  unfold is_over. destruct (ss_point th) eqn:Hp, (ss_todo th) eqn:Ht; try (by right; intros [? ?]). by left.
Defined.

Lemma appends_nonneg th : 0 <= appends th.
Proof. unfold appends. pose proof (len_nonneg (ss_todo th)). case_match; lia. Qed.

(** A step after which the other sessions are as before, and that used at most the
    appends that its own session no longer asks for. *)
Lemma log_answers_moved s s' i th th' :
  sessions s !! i = Some th -> sessions s' = <[i := th']> (sessions s) -> log_answers s ->
  appends th' <= appends th -> wal_ (server s') = wal_ (server s) -> calls s' = calls s -> log_answers s'.
Proof.
  intros Hi Hs Ha Hle Hw He. unfold log_answers, appends_left in *. rewrite Hs, Hw, He.
  rewrite (sum_by_insert _ _ _ _ _ Hi). eapply answers_less; [|exact Ha]. lia.
Qed.

(** [th] moves on to [th'] in [s'] at the cost of a step. *)
Definition moves (s s' : Concurrent.system (L := L) (E := E)) (i : nat) (th : session) : Prop :=
  Concurrent.step i s = Done s' /\ log_answers s'
  /\ exists th', sessions s' = <[i := th']> (sessions s) /\ session_cost th' < session_cost th.

Section Session.
Context (sv0 : service) (s : Concurrent.system (L := L) (E := E)) (sv : service) (i : nat) (th : session).
Context (Hinv : inv sv0 s sv) (Hth : sessions s !! i = Some th) (Hans : log_answers s).

Lemma moved s' th' :
  Concurrent.step i s = Done s' -> sessions s' = <[i := th']> (sessions s) ->
  session_cost th' < session_cost th -> appends th' <= appends th ->
  wal_ (server s') = wal_ (server s) -> calls s' = calls s -> exists s', moves s s' i th.
Proof.
  intros Hs Hss Hc Ha Hw He. exists s'. split; [done|]. split; [|by exists th'].
  by eapply log_answers_moved.
Qed.

Lemma begin_moves t rest : ss_point th = Waiting -> ss_todo th = t :: rest -> exists s', moves s s' i th.
Proof.
  intros Hp Ht.
  assert (Hs : Concurrent.step i s = Done (begin s i th t rest))
    by (unfold Concurrent.step; by rewrite Hth, Hp, Ht).
  unfold begin in Hs. destruct (parse_command t) as [[]|];
    (eapply moved; [exact Hs|reflexivity|..]; try reflexivity;
     unfold session_cost, appends, at_point; rewrite Hp, Ht; simpl; rewrite ?len_cons; lia).
Qed.

Lemma append_moves m : ss_point th = Appending m -> exists s', moves s s' i th.
Proof.
  intros Hp. destruct (inv_sessions _ _ _ Hinv i th Hth) as [Hf Hr Hm Hpt].
  unfold point_ok in Hpt. rewrite Hp in Hpt. destruct Hpt as [(c & Hden & Hc) _].
  pose proof (request_mutation_wf _ _ _ (denotes_parse _ _ Hden) Hr Hc) as Hwf.
  assert (Hpos : 0 < appends th) by (unfold appends; rewrite Hp; pose proof (len_nonneg (ss_todo th)); lia).
  pose proof (sum_by_member appends i th (sessions s) appends_nonneg Hth) as Hsum.
  unfold log_answers, appends_left in Hans. destruct (Z.to_nat (sum_by appends (sessions s))) as [|k] eqn:Hk; [lia|].
  destruct (Hans m Hwf) as (ok & l' & e' & Happ & Hrest).
  assert (Hless : forall th' s', sessions s' = <[i := th']> (sessions s) -> appends th' < appends th ->
    wal_ (server s') = l' -> calls s' = e' -> log_answers s').
  { intros th' s' Hss Hlt Hw He. unfold log_answers, appends_left. rewrite Hss, Hw, He.
    rewrite (sum_by_insert _ _ _ _ _ Hth). eapply answers_less; [|exact Hrest]. lia. }
  assert (Hstep : Concurrent.step i s = visit_step s i th)
    by (unfold Concurrent.step; by rewrite Hth, Hp).
  unfold visit_step in Hstep. rewrite Hp, Happ in Hstep. destruct ok; eexists; (split; [exact Hstep|]);
    (split; [eapply Hless; [reflexivity| |reflexivity|reflexivity]|eexists; split; [reflexivity|]]);
    unfold appends, session_cost, at_point; rewrite Hp; simpl; lia.
Qed.

(** The step [Hstep] of a session at the point [Hp], paid for. *)
Ltac spend Hstep Hp :=
  eapply moved; [by apply Hstep|reflexivity|..]; try reflexivity;
  unfold appends, session_cost, at_point; rewrite Hp; simpl; lia.

(** A session that is not over can move, unless it waits for the mutex. *)
Lemma session_moves :
  ~ is_over th -> (forall m j, ss_point th = Locking m -> mutation_mutex_ s <> Some j) ->
  exists s', moves s s' i th.
Proof.
  intros Hover Hlock.
  assert (Hstep : ss_point th <> Waiting -> Concurrent.step i s = visit_step s i th)
    by (unfold Concurrent.step; rewrite Hth; by destruct (ss_point th)).
  unfold visit_step in Hstep. destruct (ss_point th) as [| | | | |m|m|m| |] eqn:Hp.
  - destruct (ss_todo th) as [|t rest] eqn:Ht; [by destruct Hover|by eapply begin_moves].
  - spend Hstep Hp.
  - spend Hstep Hp.
  - spend Hstep Hp.
  - spend Hstep Hp.
  - destruct (mutation_mutex_ s) as [j|] eqn:Hm; [by destruct (Hlock m j eq_refl)|].
    spend Hstep Hp.
  - by eapply append_moves.
  - destruct (match m with MSet _ _ => _ | MDel _ => _ end) as [response store].
    spend Hstep Hp.
  - spend Hstep Hp.
  - spend Hstep Hp.
Qed.
End Session.

(** A step of a session changes nothing, or is paid for. *)
Lemma step_idles_or_moves sv0 s sv i s' :
  inv sv0 s sv -> log_answers s -> Concurrent.step i s = Done s' ->
  s' = s \/ exists th, sessions s !! i = Some th /\ moves s s' i th.
Proof.
  intros Hinv Hans Hs. destruct (sessions s !! i) as [th|] eqn:Hth;
    [|unfold Concurrent.step in Hs; rewrite Hth in Hs; injection Hs as <-; by left].
  destruct (decide (is_over th)) as [[Hp Ht]|Hover].
  { unfold Concurrent.step in Hs. rewrite Hth, Hp, Ht in Hs. unfold visit_step in Hs.
    rewrite Hp in Hs. injection Hs as <-. by left. }
  assert (Hmoves : (forall m j, ss_point th = Locking m -> mutation_mutex_ s <> Some j) ->
    s' = s \/ exists th0, Some th = Some th0 /\ moves s s' i th0).
  { intros Hlock. destruct (session_moves sv0 s sv i th Hinv Hth Hans Hover Hlock) as (s1 & Hm).
    right. exists th. split; [done|]. pose proof Hm as [Hs1 _]. rewrite Hs in Hs1. by injection Hs1 as ->. }
  destruct (ss_point th) as [| | | | |m| | | |] eqn:Hp; try (by apply Hmoves; congruence).
  destruct (mutation_mutex_ s) as [j|] eqn:Hm; [left|by apply Hmoves; congruence].
  unfold Concurrent.step in Hs. rewrite Hth, Hp in Hs. unfold visit_step in Hs.
  rewrite Hp, Hm in Hs. by injection Hs as <-.
Qed.

(** Every step leaves the log able to answer. *)
Lemma step_log_answers sv0 s sv i s' :
  inv sv0 s sv -> log_answers s -> Concurrent.step i s = Done s' -> log_answers s'.
Proof.
  intros Hinv Hans Hs. destruct (step_idles_or_moves _ _ _ _ _ Hinv Hans Hs) as [->|(th & _ & _ & Ha & _)]; done.
Qed.

(** ** The whole *)

Definition whole_cost (w : whole (L := L) (E := E)) : Z :=
  pool_cost session_task (wh_pool w) + sum_by session_cost (sessions (wh_system w)).

Lemma session_cost_nonneg th : 0 <= session_cost th.
Proof. unfold session_cost. lia. Qed.

Lemma whole_cost_nonneg w : 0 <= whole_cost w.
Proof.
  unfold whole_cost. pose proof (pool_cost_nonneg session_task (wh_pool w)).
  pose proof (sum_by_nonneg session_cost (sessions (wh_system w)) session_cost_nonneg). lia.
Qed.

Lemma session_leaf t : leaf_task session_task t.
Proof. constructor. Qed.

Lemma in_occurs (t : nat) l : t ∈ l -> 0 < occurs t l.
Proof.
  induction l as [|u l IH]; [by intros ?%elem_of_nil|]. intros Hin. simpl.
  pose proof (occurs_nonneg t l). destruct (bool_decide_reflect (u = t)) as [->|Hne]; simpl; [lia|].
  apply IH. apply elem_of_cons in Hin as [->|]; done.
Qed.

(** A task that was started and has not finished is with a worker. *)
Lemma started_held (p : ThreadPool.pool (task := nat)) t :
  pool_inv p -> t ∈ started p -> t ∉ finished p ->
  exists q, ThreadPool.threads p !! q = Some (Worker (WPopped t))
    \/ exists todo a, ThreadPool.threads p !! q = Some (Worker (WRunning t todo a)).
Proof.
  intros Hp Hst Hfin. pose proof (pi_once p Hp t) as Ho.
  pose proof (in_occurs t _ Hst).
  assert (occurs t (finished p) = 0).
  { destruct (Z.lt_ge_cases 0 (occurs t (finished p))) as [Hl|Hl]; [by apply occurs_in in Hl|].
    pose proof (occurs_nonneg t (finished p)). lia. }
  destruct (sum_by_some (holds t) (ThreadPool.threads p)) as (q & th & Hq & Hh); [lia|].
  exists q. destruct th as [|[| |u|u todo a|]]; simpl in Hh; try lia;
    destruct (bool_decide_reflect (u = t)) as [->|]; simpl in Hh; try lia; eauto.
Qed.

(** Only a task that runs can finish. *)
Lemma finished_running p p' t :
  ThreadPool.step session_task p p' -> finished p' = finished p ++ [t] -> running t p.
Proof.
  assert (Hne : forall l : list nat, l <> l ++ [t])
    by (intros l El; apply (f_equal length) in El; rewrite length_app in El; simpl in El; lia).
  intros [i c todo a Hi Hs|i w Hi Hs] Hf.
  - destruct (call_step_logs _ _ _ _ _ _ Hs) as [Hfin _]. rewrite Hfin in Hf. by apply Hne in Hf.
  - destruct Hs as [| | | |u]; simpl in Hf; try (by apply Hne in Hf).
    apply app_inj_tail in Hf as [_ ->]. by exists i.
Qed.

(** A run in which [moved] steps changed the state, and [woken] more woke a thread
    spuriously; a thread that has to wait may be scheduled and stay where it is. *)
Inductive whole_runs (w0 : whole (L := L) (E := E)) : Z -> Z -> whole (L := L) (E := E) -> Prop :=
| Whole_begins : whole_runs w0 0 0 w0
| Whole_moves moved woken w w' :
    whole_runs w0 moved woken w -> whole_step w w' -> w' <> w ->
    ThreadPool.step session_task (wh_pool w) (wh_pool w') \/ wh_pool w' = wh_pool w ->
    whole_runs w0 (moved + 1) woken w'
| Whole_wakes moved woken w w' :
    whole_runs w0 moved woken w -> whole_step w w' -> spurious (wh_pool w) (wh_pool w') ->
    whole_runs w0 moved (woken + 1) w'
| Whole_idles moved woken w w' :
    whole_runs w0 moved woken w -> whole_step w w' -> w' = w -> whole_runs w0 moved woken w'.

Lemma whole_runs_reachable w0 moved woken w : whole_runs w0 moved woken w -> whole_reachable w0 w.
Proof. induction 1; [apply Whole_start|by eapply Whole_next..]. Qed.

Section Life.
Context (options : ServerOptions) (spawned : bool) (ended : loop * bool).
Context (p0 : ThreadPool.pool (task := nat)) (srv : Server L) (e : E).
Context (requests : list (list bytes)) (sv0 : service).
Context (Hnew : server_pool options spawned [run_calls ended] = Done p0).
Context (Hlen : length requests = length (lp_served (fst ended))).
Context (Hrep : represents srv sv0).
Context (Hreq : Forall (Forall (fun t => len t <= kDefaultMaxPayload)) requests).

Let n := Z.max 1 (Server.workers options).
Let ids := seq 0 (length requests).

Record life_inv (w : whole (L := L) (E := E)) : Prop := mkLifeInv {
  li_whole : whole_inv p0 srv e requests w;
  li_solo : solo ids (Z.to_nat n) (wh_pool w);
  li_answers : log_answers (wh_system w);
}.

Lemma n_nonneg : 0 <= n.
Proof. exact (Z.le_trans _ _ _ Z.le_0_1 (Z.le_max_l 1 _)). Qed.
Lemma capacity_nonneg : 0 <= Z.max 1 (queue_capacity options).
Proof. exact (Z.le_trans _ _ _ Z.le_0_1 (Z.le_max_l 1 _)). Qed.

Lemma life_pool_inv w : life_inv w -> pool_inv (wh_pool w).
Proof. intros Hw. eapply started_pool_inv; [exact n_nonneg|exact capacity_nonneg|exact Hnew|apply Hw]. Qed.

Lemma life_system_inv w : life_inv w -> exists sv, inv sv0 (wh_system w) sv.
Proof.
  intros Hw. destruct (wi_system _ _ _ _ _ (li_whole w Hw)) as (schedule & Hr).
  destruct (requests_run_inv sv0 schedule _ _ (open_sessions_inv srv e requests sv0 Hrep Hreq))
    as (s & sv & Hr' & Hs). rewrite Hr in Hr'. injection Hr' as <-. by exists sv.
Qed.

(** Every task the pool was given has a session. *)
Lemma life_session w t : life_inv w -> t ∈ started (wh_pool w) -> exists th, sessions (wh_system w) !! t = Some th.
Proof.
  intros Hw Ht. destruct (wi_system _ _ _ _ _ (li_whole w Hw)) as (schedule & Hr).
  pose proof (f_equal length (run_asked _ _ _ Hr)) as Hl. simpl in Hl. rewrite !length_map in Hl.
  apply lookup_lt_is_Some_2. rewrite Hl.
  destruct (solo_accepts _ _ _ (life_pool_inv w Hw) (li_solo w Hw)) as (_ & (later & Hids) & _).
  assert (t ∈ ids) as Hin.
  { rewrite Hids, (pi_fifo _ (life_pool_inv w Hw)). apply elem_of_app. left. apply elem_of_app. by left. }
  unfold ids in Hin. apply elem_of_seq in Hin. lia.
Qed.

(** A step of the whole keeps the invariant. *)
Lemma life_pool_step w p s :
  life_inv w -> ThreadPool.step session_task (wh_pool w) p \/ spurious (wh_pool w) p ->
  (forall t, finished p = finished (wh_pool w) ++ [t] -> session_over (wh_system w) t) ->
  make_move (Counters (ThreadPool.submitted_ p) (ThreadPool.completed_ p)) (wh_system w) = Done s ->
  life_inv (mkWhole p s).
Proof.
  intros Hw Hstep Hfin Hmove. split.
  - by apply (whole_pool_inv _ _ _ _ w); [apply Hw|..].
  - cbn [wh_pool]. destruct Hstep; [eapply solo_step|eapply solo_spurious]; try done; try apply Hw.
    by apply life_pool_inv.
  - injection Hmove as <-. apply (li_answers w Hw).
Qed.

Lemma life_session_step w i s :
  life_inv w -> running i (wh_pool w) -> make_move (Thread i) (wh_system w) = Done s ->
  life_inv (mkWhole (wh_pool w) s).
Proof.
  intros Hw Hrun Hmove. destruct (life_system_inv w Hw) as (sv & Hinv). split.
  - eapply whole_session_inv; [exact n_nonneg|exact capacity_nonneg|exact Hnew|apply Hw|done|done].
  - apply Hw.
  - by eapply step_log_answers; [|apply Hw|].
Qed.

Lemma life_step w w' : life_inv w -> whole_step w w' -> life_inv w'.
Proof.
  intros Hw [p s Hstep Hfin Hmove ->|i s Hrun Hmove ->]; [by eapply life_pool_step|by eapply life_session_step].
Qed.

(** ** Progress *)

Definition goes_on (w : whole (L := L) (E := E)) : Prop :=
  exists w', whole_step w w' /\ whole_cost w' < whole_cost w.

Lemma pool_goes_on w p :
  ThreadPool.step session_task (wh_pool w) p ->
  (forall t, finished p = finished (wh_pool w) ++ [t] -> session_over (wh_system w) t) -> goes_on w.
Proof.
  intros Hs Hfin. eexists. split; [eapply Whole_pool; [by left|done|reflexivity|reflexivity]|].
  unfold whole_cost. simpl. pose proof (step_cost _ _ _ session_leaf Hs). lia.
Qed.

Lemma session_goes_on w sv i th :
  life_inv w -> inv sv0 (wh_system w) sv -> running i (wh_pool w) -> sessions (wh_system w) !! i = Some th ->
  ~ is_over th -> (forall m j, ss_point th = Locking m -> mutation_mutex_ (wh_system w) <> Some j) ->
  goes_on w.
Proof.
  intros Hw Hinv Hrun Hth Hover Hlock.
  destruct (session_moves sv0 _ sv i th Hinv Hth (li_answers w Hw) Hover Hlock)
    as (s' & Hs & _ & th' & Hss & Hc).
  eexists. split; [by eapply Whole_session|]. unfold whole_cost. cbn [wh_pool wh_system].
  rewrite Hss, (sum_by_insert _ _ _ _ _ Hth). lia.
Qed.

Lemma popped_goes_on w q t :
  ThreadPool.threads (wh_pool w) !! q = Some (Worker (WPopped t)) -> goes_on w.
Proof.
  intros Hq. destruct (notify_exists waits_room wake_room (ThreadPool.threads (wh_pool w))) as [ths Hn].
  eapply pool_goes_on; [eapply Step_worker; [exact Hq|by apply Pop_notifies]|].
  simpl. intros u Hu. apply (f_equal length) in Hu. rewrite length_app in Hu. simpl in Hu. lia.
Qed.

(** The thread that holds the mutex can go on. *)
Lemma holder_goes_on w sv j :
  life_inv w -> inv sv0 (wh_system w) sv -> mutation_mutex_ (wh_system w) = Some j -> goes_on w.
Proof.
  intros Hw Hinv Hm. pose proof (inv_log _ _ _ Hinv) as Hlog. unfold log_ok in Hlog. rewrite Hm in Hlog.
  destruct Hlog as (th & Hth & Hpt).
  assert (Hp : ss_point th <> Waiting /\ forall m, ss_point th <> Locking m) by (by destruct (ss_point th)).
  destruct Hp as [Hwait Hlock].
  assert (Hst : j ∈ started (wh_pool w)).
  { destruct (decide (j ∈ started (wh_pool w))) as [|Hno]; [done|].
    pose proof (wi_fresh _ _ _ _ _ (li_whole w Hw) j Hno) as Hf. rewrite Hth in Hf. simpl in Hf.
    symmetry in Hf. apply list_lookup_fmap_Some in Hf as (ts & -> & _). done. }
  assert (Hfin : j ∉ finished (wh_pool w)).
  { intros Hin. destruct (wi_over _ _ _ _ _ (li_whole w Hw) j Hin) as (th0 & Hth0 & Hp0 & _). congruence. }
  destruct (started_held _ j (life_pool_inv w Hw) Hst Hfin) as (q & [Hq|(todo & a & Hq)]);
    [by eapply popped_goes_on|].
  assert (Hrun : running j (wh_pool w)).
  { exists q. pose proof (li_solo w Hw) as [(rest & m & a0 & Hk & _) Hquiet].
    destruct (decide (q = Z.to_nat n)) as [->|Hne]; [congruence|].
    by destruct (Hquiet q _ Hne Hq) as [-> ->]. }
  eapply session_goes_on; [done|done|exact Hrun|exact Hth|by intros [? _]|]. intros m j' Hl. by destruct (Hlock m).
Qed.

Lemma life_progress w : life_inv w -> all_done (wh_pool w) \/ goes_on w.
Proof.
  intros Hw. pose proof (life_pool_inv w Hw) as Hp. destruct (life_system_inv w Hw) as (sv & Hinv).
  assert (Hcalm : Forall (calm (task := nat)) (ThreadPool.threads (wh_pool w))).
  { eapply calm_reachable; [exact session_leaf|by eapply new_pool_calm|apply (li_whole w Hw)]. }
  destruct (step_or_done session_task _ Hp Hcalm) as [[p1 Hs]|]; [right|by left].
  destruct (pool_step_logs _ _ (or_introl Hs)) as [[Hsame|(t & Hfin)] _].
  { eapply pool_goes_on; [exact Hs|]. rewrite Hsame. intros u Hu. apply (f_equal length) in Hu.
    rewrite length_app in Hu. simpl in Hu. lia. }
  pose proof (finished_running _ _ _ Hs Hfin) as Hrun.
  destruct (life_session w t Hw (running_started t _ Hp Hrun)) as (th & Hth).
  destruct (decide (is_over th)) as [[Hpt Htodo]|Hover].
  { eapply pool_goes_on; [exact Hs|]. rewrite Hfin. intros u Hu. apply app_inj_tail in Hu as [_ <-].
    by exists th. }
  destruct (mutation_mutex_ (wh_system w)) as [j|] eqn:Hm; [by eapply holder_goes_on|].
  eapply session_goes_on; [done|done|exact Hrun|exact Hth|done|]. by rewrite Hm.
Qed.

(** A spurious wake-up is not a step that does nothing. *)
Lemma spurious_changes (p p' : ThreadPool.pool (task := nat)) : spurious p p' -> p' <> p.
Proof.
  assert (Hmove : forall i th th', ThreadPool.threads p !! i = Some th -> th' <> th -> ThreadPool.move p i th' <> p).
  { intros i th th' Hi Hne Heq. apply (f_equal ThreadPool.threads) in Heq. simpl in Heq.
    apply (f_equal (fun l => l !! i)) in Heq.
    rewrite list_lookup_insert_eq in Heq by (by eapply lookup_lt_Some). congruence. }
  intros [i th Hi Hw|i th Hi Hw]; apply (Hmove i th); try done;
    destruct th as [? []|[| | |? ? []|]]; simpl in *; congruence.
Qed.

(** A step that changes the state and is not a spurious wake-up is paid for. *)
Lemma whole_move_cost w w' :
  life_inv w -> whole_step w w' -> w' <> w ->
  ThreadPool.step session_task (wh_pool w) (wh_pool w') \/ wh_pool w' = wh_pool w ->
  whole_cost w' + 1 <= whole_cost w.
Proof.
  intros Hw Hs Hne Hpool. destruct Hs as [p s Hstep Hfin Hmove ->|i s Hrun Hmove ->].
  - injection Hmove as <-. unfold whole_cost. simpl in *.
    assert (ThreadPool.step session_task (wh_pool w) p) as Hp.
    { destruct Hpool as [?|Heq]; [done|]. destruct Hstep as [?|Hsp]; [done|].
      by destruct (spurious_changes _ _ Hsp). }
    pose proof (step_cost _ _ _ session_leaf Hp). lia.
  - destruct (life_system_inv w Hw) as (sv & Hinv).
    destruct (step_idles_or_moves _ _ _ _ _ Hinv (li_answers w Hw) Hmove)
      as [->|(th & Hth & _ & _ & th' & Hss & Hc)]; [by destruct Hne; destruct w|].
    unfold whole_cost. cbn [wh_pool wh_system]. rewrite Hss, (sum_by_insert _ _ _ _ _ Hth). lia.
Qed.

Lemma whole_wake_cost w w' :
  whole_step w w' -> spurious (wh_pool w) (wh_pool w') -> whole_cost w' <= whole_cost w + 1.
Proof.
  intros Hs Hsp. pose proof (spurious_cost session_task _ _ Hsp) as Hc.
  destruct Hs as [p s _ _ Hmove ->|i s _ _ ->]; [|by destruct (spurious_changes _ _ Hsp)].
  injection Hmove as <-. unfold whole_cost. simpl in *. lia.
Qed.

Lemma whole_trans (w w' w'' : whole (L := L) (E := E)) :
  whole_reachable w w' -> whole_reachable w' w'' -> whole_reachable w w''.
Proof. intros H1. induction 1; [done|]. by eapply Whole_next. Qed.

Lemma life_finishes w : life_inv w -> exists w', whole_reachable w w' /\ life_inv w' /\ all_done (wh_pool w').
Proof.
  remember (Z.to_nat (whole_cost w)) as fuel eqn:Hf.
  pose proof whole_cost_nonneg as Hpos.
  assert (Hlt : whole_cost w < Z.of_nat (S fuel)) by (pose proof (Hpos w); lia).
  clear Hf. revert w Hlt. induction (S fuel) as [|k IH]; intros w Hlt Hw; [pose proof (Hpos w); lia|].
  destruct (life_progress w Hw) as [Hd|(w1 & Hs & Hc)]; [exists w; split; [constructor|done]|].
  destruct (IH w1 ltac:(lia) (life_step _ _ Hw Hs)) as (w' & Hr & Hw' & Hd). exists w'.
  split; [|done]. eapply whole_trans; [|exact Hr]. eapply Whole_next; [constructor|done].
Qed.

Lemma life_start :
  answers (Z.to_nat (sum_by len requests)) (wal_ srv) e ->
  life_inv (mkWhole p0 (open_sessions srv e requests)).
Proof.
  intros Ha. destruct (run_calls_shape ended) as [m Hm]. split.
  - eapply whole_start_inv; exact Hnew.
  - cbn [wh_pool]. unfold ids. rewrite Hlen. eapply solo_start. rewrite <- Hm. exact Hnew.
  - unfold log_answers, appends_left. cbn [wh_system open_sessions sessions server calls].
    rewrite (sum_by_map appends len); [done|]. intros ts. unfold appends. simpl. lia.
Qed.

(** What a run has cost, counted in [whole_runs]. *)
Lemma whole_runs_cost moved woken w :
  answers (Z.to_nat (sum_by len requests)) (wal_ srv) e ->
  whole_runs (mkWhole p0 (open_sessions srv e requests)) moved woken w ->
  life_inv w /\ moved + whole_cost w <= whole_cost (mkWhole p0 (open_sessions srv e requests)) + woken.
Proof.
  intros Ha. induction 1 as [|m k w w' _ [IHl IHc] Hs Hne Hp|m k w w' _ [IHl IHc] Hs Hsp|m k w w' _ IH Hs ->].
  - split; [by apply life_start|lia].
  - split; [by eapply life_step|]. pose proof (whole_move_cost _ _ IHl Hs Hne Hp). lia.
  - split; [by eapply life_step|]. pose proof (whole_wake_cost _ _ Hs Hsp). lia.
  - done.
Qed.

End Life.

(** ** Property *)

End Progress.

(** ** Witness *)

(** A disk that takes the next record. *)
Definition ex_disk : append_env := mkAppendEnv [WTake 70000] [COk].

Lemma ex_disk_answers : @answers Wal append_env (@wal_durable_log little) 1 ex_wal ex_disk.
Proof.
  intros m [_ Hm].
  assert (Hrec : forall record, len record <= kDefaultMaxPayload ->
    exists ok l' e', @append_record little record ex_wal ex_disk = Done (ok, l', e')).
  { intros record Hr. unfold append_record. cbn [is_empty path_ ex_wal enabled negb].
    rewrite encode_frame_be by (unfold kDefaultMaxPayload, u32_max in *; lia). cbn [obind].
    assert (Hle : (length (frame_of record) <= Pos.to_nat 70000)%nat).
    { pose proof (len_frame_of record) as Hf. unfold len, kDefaultMaxPayload in *. lia. }
    cbn [ae_writes ex_disk]. destruct (frame_of record) as [|b rest] eqn:Hframe.
    { pose proof (len_frame_of record) as Hf. rewrite Hframe in Hf. pose proof (len_nonneg record).
      change (len []) with 0 in Hf. lia. }
    cbn [write_file_all]. rewrite drop_ge by done. cbn [obind]. eauto. }
  assert (Hdone : exists ok l' e', @log_append Wal append_env (@wal_durable_log little) m ex_wal ex_disk = Done (ok, l', e'))
    by (destruct m as [key value|key];
        [apply (Hrec (str "SET " ++ key ++ str " " ++ value))|apply (Hrec (str "DEL " ++ key))]; exact Hm).
  destruct Hdone as (ok & l' & e' & Happ). by exists ok, l', e'.
Qed.

