(* ===== verification/Programs.v ===== *)
(** * The command-line programs of the key-value server
      ([capstone/reference/apps/server_main.cpp], [client_main.cpp])

    [server_main] and [client_main] read their arguments, drive the server
    ([Startup.v], [AcceptLoop.v]) and the client ([Client.v]), and turn what
    happened into an exit status and a line of output. *)

From stdpp Require Import base gmap list strings.
From Stdlib Require Import Strings.Byte ZArith Lia.
From S2P Require Import Prelude ByteOrder Posix Numeric Protocol Commands Store DurableLog Wal Server Startup AcceptLoop Client.

(** [std::numeric_limits<std::uint32_t>::max()] and of [std::uint16_t]. *)
Definition max_u32 : Z := 2 ^ 32 - 1.
Definition max_u16 : Z := 2 ^ 16 - 1.

(** ** The server program *)

Module ServerMain.

(** The result and [port] afterwards. *)
Definition parse_port (text : bytes) (port : Z) : bool * Z :=
  let '(rest, error, value) := from_chars max_u32 text 0 in
  if bool_decide (error <> errc_ok) || negb (is_empty rest) || (value >? max_u16)
  then (false, port)
  else (true, u16 value).

Definition with_port (options : ServerOptions) (port : Z) : ServerOptions :=
  mkOptions (bind_address options) port (workers options) (queue_capacity options)
    (max_payload options) (wal_path options).
Definition with_wal_path (options : ServerOptions) (path : bytes) : ServerOptions :=
  mkOptions (bind_address options) (opt_port options) (workers options) (queue_capacity options)
    (max_payload options) path.

(** [main] for a server that [make] constructs from the options, [ready] and
    [error] ask, and [serve] runs. *)
Definition main_with {S} (make : ServerOptions -> outcome S) (ready : S -> bool) (error : S -> bytes)
    (serve : ServerOptions -> S -> outcome exited) (argv : list bytes) : outcome exited :=
  let options := default_options in
  let parsed :=
    match argv with
    | _ :: text :: _ =>
        let (ok, port) := parse_port text (opt_port options) in
        if ok then Some (with_port options port) else None
    | _ => Some options
    end in
  match parsed with
  | None =>
      let text := match argv with _ :: text :: _ => text | _ => [] end in
      Done (mkExited 2 [] (str "invalid port: " ++ text ++ newline))
  | Some options =>
      let options :=
        match argv with _ :: _ :: path :: _ => with_wal_path options path | _ => options end in
      let* server := make options in
      if negb (ready server)
      then Done (mkExited 1 [] (str "server setup failed: " ++ error server ++ newline))
      else serve options server
  end.

(** The world is what the calls of the constructor do for given options; [turns]
    are the turns of the accept loop until the stop request, and [signalled] says
    whether SIGINT or SIGTERM arrives.  Without a signal, and unless the loop
    breaks, the program goes on serving. *)
Definition main `{Host} (argv : list bytes) (world : ServerOptions -> startup_env)
    (strerror : Z -> bytes) (turns : list turn) (signalled : bool) : outcome exited :=
  main_with (fun options => new_server options (world options)) ready error_
    (fun options server =>
       let out := str "NetForge listening on " ++ bind_address options ++ str ":"
                  ++ show_unsigned (bound_port_ server) ++ newline in
       let (l, _) := run strerror (listener_ server) (error_ server) turns in
       if lp_running l && negb signalled then Blocked
       else Done (mkExited 0 out
                    (if is_empty (lp_error l) then []
                     else str "server stopped: " ++ lp_error l ++ newline))) argv.

(** The options the arguments ask for. *)
Definition requested (argv : list bytes) (options : ServerOptions) : Prop :=
  match argv with
  | _ :: text :: rest =>
      decimal text /\ dec_value 0 text = opt_port options /\ opt_port options <= max_u16
      /\ wal_path options = match rest with path :: _ => path | [] => [] end
  | _ => opt_port options = 0 /\ wal_path options = []
  end
  /\ bind_address options = bind_address default_options
  /\ workers options = workers default_options
  /\ queue_capacity options = queue_capacity default_options
  /\ max_payload options = max_payload default_options.

End ServerMain.

(** ** The client program *)

Module ClientMain.

Definition parse_port (text : bytes) (port : Z) : bool * Z :=
  let '(rest, error, value) := from_chars max_u32 text 0 in
  if bool_decide (error <> errc_ok) || negb (is_empty rest) || (value =? 0) || (value >? max_u16)
  then (false, port)
  else (true, u16 value).

Definition usage : bytes :=
  str "usage: netforge-client HOST PORT COMMAND [ARG ...]" ++ newline.

(** The loop that builds the command from [argv[index]] on. *)
Fixpoint command_from (index : Z) (args : list bytes) : bytes :=
  match args with
  | [] => []
  | arg :: args =>
      (if negb (index =? 3) then str " " else []) ++ arg ++ command_from (index + 1) args
  end.

(** [main] for a client whose [request] is given: the exit, and the bytes the
    kernel took for the server. *)
Definition main_with (request : bytes -> Z -> bytes -> outcome (ClientResult * bytes)) (argv : list bytes)
  : outcome (exited * bytes) :=
  match argv with
  | _ :: host :: port_text :: ((_ :: _) as args) =>
      let (ok, port) := parse_port port_text 0 in
      if negb ok then Done (mkExited 2 [] (str "invalid port: " ++ port_text ++ newline), [])
      else
        let* (result, sent) := request host port (command_from 3 args) in
        if negb (cr_ok result)
        then Done (mkExited 1 [] (str "request failed: " ++ cr_error result ++ newline), sent)
        else Done (mkExited 0 (cr_response result ++ newline) [], sent)
  | _ => Done (mkExited 2 [] usage, [])
  end.

(** The world is what the calls of [request] do for a host and a port. *)
Definition main `{Host} (argv : list bytes) (world : bytes -> Z -> request_env)
  : outcome (exited * bytes) :=
  main_with (fun host port command => request command (world host port)) argv.

End ClientMain.

(** ** Ports *)

Lemma from_chars_other max text value rest e v :
  from_chars max text value = (rest, e, v) -> (e <> errc_ok \/ rest <> []) ->
  ~ (decimal text /\ dec_value 0 text <= max).
Proof.
  intros Hf Hbad [Hd Hm].
  assert (from_chars max text value = ([], errc_ok, dec_value 0 text)) as Hok
    by (by apply from_chars_whole).
  rewrite Hf in Hok. injection Hok as -> -> _. by destruct Hbad.
Qed.

(** What both parsers accept; [least] is the smallest port. *)
Definition port_text (least : Z) (text : bytes) (port : Z) : Prop :=
  decimal text /\ dec_value 0 text = port /\ least <= port <= max_u16.

Lemma parse_port_whole text rest e v (rejects : Z -> bool) port :
  from_chars max_u32 text 0 = (rest, e, v) -> (forall z, max_u16 < z -> rejects z = true) ->
  (if bool_decide (e <> errc_ok) || negb (is_empty rest) || rejects v
   then (false, port) else (true, u16 v))
  = (if decide (decimal text) then
       if rejects (dec_value 0 text) then (false, port) else (true, dec_value 0 text)
     else (false, port)).
Proof.
  intros Hf Hrej.
  destruct (decide (e = errc_ok)) as [->|He]; [destruct (decide (rest = [])) as [->|Hr]|].
  - apply from_chars_whole in Hf as (Hd & <- & _).
    rewrite bool_decide_false by congruence. rewrite decide_True by done. simpl.
    destruct (rejects (dec_value 0 text)) eqn:Hv; [done|]. f_equal. apply Z.mod_small.
    pose proof (dec_value_nonneg 0 text ltac:(lia) (proj2 Hd)).
    destruct (Z.le_gt_cases (dec_value 0 text) max_u16) as [?|Hgt]; [unfold max_u16 in *; lia|].
    by rewrite Hrej in Hv.
  - rewrite bool_decide_false by congruence. rewrite is_empty_not by done. simpl.
    pose proof (from_chars_other _ _ _ _ _ _ Hf (or_intror Hr)) as Hno.
    destruct (decide (decimal text)) as [Hd|]; [|done]. rewrite Hrej; [done|].
    unfold max_u16, max_u32 in *. destruct (Z.le_gt_cases (dec_value 0 text) (2 ^ 32 - 1)); [tauto|lia].
  - rewrite bool_decide_true by done. simpl.
    pose proof (from_chars_other _ _ _ _ _ _ Hf (or_introl He)) as Hno.
    destruct (decide (decimal text)) as [Hd|]; [|done]. rewrite Hrej; [done|].
    unfold max_u16, max_u32 in *. destruct (Z.le_gt_cases (dec_value 0 text) (2 ^ 32 - 1)); [tauto|lia].
Qed.

Lemma server_port text port :
  ServerMain.parse_port text port
  = (if decide (port_text 0 text (dec_value 0 text)) then (true, dec_value 0 text) else (false, port)).
Proof.
  unfold ServerMain.parse_port. destruct (from_chars max_u32 text 0) as [[rest e] v] eqn:Hf.
  rewrite (parse_port_whole _ _ _ _ (fun v => v >? max_u16) _ Hf)
    by (intros z Hz; rewrite Z.gtb_ltb; by apply Z.ltb_lt).
  unfold port_text.
  destruct (decide (decimal text)) as [Hd|Hd].
  - pose proof (dec_value_nonneg 0 text ltac:(lia) (proj2 Hd)).
    destruct (Z.gtb_spec (dec_value 0 text) max_u16).
    + rewrite decide_False; [done|]. lia.
    + rewrite decide_True; [done|]. split_and!; (done || lia).
  - rewrite decide_False; [done|]. tauto.
Qed.

Lemma client_port text port :
  ClientMain.parse_port text port
  = (if decide (port_text 1 text (dec_value 0 text)) then (true, dec_value 0 text) else (false, port)).
Proof.
  unfold ClientMain.parse_port. destruct (from_chars max_u32 text 0) as [[rest e] v] eqn:Hf.
  rewrite <- (orb_assoc _ (v =? 0)).
  rewrite (parse_port_whole _ _ _ _ (fun v => (v =? 0) || (v >? max_u16)) _ Hf)
    by (intros z Hz; rewrite Z.gtb_ltb, (proj2 (Z.ltb_lt _ _)) by done; apply orb_true_r).
  unfold port_text.
  destruct (decide (decimal text)) as [Hd|Hd].
  - pose proof (dec_value_nonneg 0 text ltac:(lia) (proj2 Hd)).
    destruct (Z.eqb_spec (dec_value 0 text) 0); [rewrite decide_False; [done|lia]|].
    destruct (Z.gtb_spec (dec_value 0 text) max_u16).
    + rewrite decide_False; [done|]. lia.
    + rewrite decide_True; [done|]. split_and!; (done || lia).
  - rewrite decide_False; [done|]. tauto.
Qed.

(** ** The command of the client *)

(** The arguments with one space between two of them. *)
Definition spaced (args : list bytes) : bytes :=
  match args with
  | [] => []
  | arg :: args => arg ++ concat (map (fun arg => str " " ++ arg) args)
  end.

Lemma command_spaced args : ClientMain.command_from 3 args = spaced args.
Proof.
  assert (forall args index, 3 < index ->
    ClientMain.command_from index args = concat (map (fun arg => str " " ++ arg) args)) as Hrest.
  { clear args. induction args as [|arg args IH]; intros index Hi; [done|].
    cbn [ClientMain.command_from map concat]. rewrite (proj2 (Z.eqb_neq index 3)) by lia. cbn [negb].
    rewrite IH by lia. by rewrite <- app_assoc. }
  destruct args as [|arg args]; [done|]. cbn [ClientMain.command_from spaced]. by rewrite Hrest by lia.
Qed.

(** ** Properties *)

(** Port arguments.  Both programs accept exactly the texts that consist of
    decimal digits only and stand for a 16-bit port, for the client one that is
    not zero; the port is the value of the digits, never a truncation of it, and
    a refused text leaves the port as it was. *)
Theorem parse_port_decides text port :
  (forall p, ServerMain.parse_port text port = (true, p) <-> port_text 0 text p)
  /\ (forall p, ClientMain.parse_port text port = (true, p) <-> port_text 1 text p)
  /\ (fst (ServerMain.parse_port text port) = false -> snd (ServerMain.parse_port text port) = port)
  /\ (fst (ClientMain.parse_port text port) = false -> snd (ClientMain.parse_port text port) = port).
Proof.
  rewrite server_port, client_port. split_and!.
  - intros p. case_decide as Hd; split; [by intros [= <-]| |done|].
    + by intros (_ & <- & _).
    + intros (H1 & <- & H2). by destruct Hd.
  - intros p. case_decide as Hd; split; [by intros [= <-]| |done|].
    + by intros (_ & <- & _).
    + intros (H1 & <- & H2). by destruct Hd.
  - by case_decide.
  - by case_decide.
Qed.

(** C34: the client program reports what happened.  It exits with 0 only when the
    kernel took the whole frame of its arguments, separated by single spaces, and
    a complete response frame arrived from the host and port it was given, and
    then it prints exactly that response; otherwise it prints nothing on standard
    output, gives a reason on standard error and exits with 1, or with 2, having
    sent nothing, when the arguments are too few or the port is not one. *)
Theorem client_reports_outcome `{Host} prog host text args world r sent :
  len (spaced args) <= u32_max ->
  (forall host port n, rq_message (world host port) n <> []) ->
  (forall host port n, rq_gai_strerror (world host port) n <> []) ->
  ClientMain.main (prog :: host :: text :: args) world = Done (r, sent) ->
  match ex_status r with
  | 0 => args <> [] /\ exists port response tail,
           port_text 1 text port /\ sent = frame_of (spaced args)
           /\ fst (stream (rq_rx (world host port))) = frame_of response ++ tail
           /\ r = mkExited 0 (response ++ newline) []
  | 1 => args <> [] /\ ex_stdout r = []
         /\ exists port reason, port_text 1 text port /\ reason <> []
              /\ ex_stderr r = str "request failed: " ++ reason ++ newline
  | 2 => ex_stdout r = [] /\ sent = []
         /\ if decide (args = []) then ex_stderr r = ClientMain.usage
            else ~ port_text 1 text (dec_value 0 text)
                 /\ ex_stderr r = str "invalid port: " ++ text ++ newline
  | _ => False
  end.
Proof.
  intros Hlen Hm Hg. unfold ClientMain.main, ClientMain.main_with. destruct args as [|arg args]; [by intros [= <- <-]|].
  rewrite client_port. case_decide as Hp; cbn [negb]; [|by intros [= <- <-]].
  rewrite command_spaced.
  intros ([result out] & Hreq & Hr)%obind_Done_inv.
  pose proof (request_report _ _ _ _ Hlen (Hm host _) (Hg host _) Hreq) as Hrep.
  destruct (cr_ok result); injection Hr as <- <-; cbn [ex_status ex_stdout ex_stderr].
  - destruct Hrep as (-> & tail & Ht). split; [done|]. by exists (dec_value 0 text), (cr_response result), tail.
  - split; [done|]. split; [done|]. by exists (dec_value 0 text), (cr_error result).
Qed.


(** C14: a command typed at the client is executed by the server and its response
    printed.  Let the client connect to the port it was given as a number and let
    the kernels take what is written, in any pieces: the server's session on the
    client's bytes executes exactly the arguments, separated by single spaces,
    and when its output comes back, cut in any way, the program prints exactly
    the response of that execution and exits with 0. *)
Theorem command_line_request `{Host} {L E} `{DurableLog L E}
    prog host port args (s : Server L) (e : E) response s' e' world fd last_error srv :
  let env := world host port in
  args <> [] -> 0 < port <= max_u16 ->
  execute (spaced args) s e = Done (response, s', e') ->
  len (spaced args) <= max_payload (options_ s) -> max_payload (options_ s) <= kDefaultMaxPayload ->
  len response <= kDefaultMaxPayload ->
  rq_lookup env = 0 ->
  first_connected (rq_addresses env) ECONNREFUSED = Done (fd, last_error) -> 0 <= fd ->
  willing (length (frame_of (spaced args))) (rq_tx env) ->
  stream (rx srv) = (frame_of (spaced args), SEof) ->
  willing (length (frame_of response)) (tx srv) -> sent srv = [] ->
  exists srv',
    handle_client 2 s e srv = Done (s', e', srv')
    /\ forall tail fin, stream (rq_rx env) = (sent srv' ++ tail, fin) ->
         ClientMain.main (prog :: host :: show_unsigned port :: args) world
         = Done (mkExited 0 (response ++ newline) [], frame_of (spaced args)).
Proof.
  intros env Hargs Hport Hx Hcmd Hmax Hresp Hlook Hfc Hfd Htx Hrx Hstx Hsent.
  destruct (request_session (spaced args) s e response s' e' env fd last_error srv)
    as (srv' & Hh & Hreq); try done.
  exists srv'. split; [done|]. intros tail fin Hs.
  assert (ClientMain.parse_port (show_unsigned port) 0 = (true, port)) as Hparse.
  { rewrite client_port, decide_True; [by rewrite show_unsigned_value by lia|].
    rewrite show_unsigned_value by lia. split; [apply show_unsigned_decimal; lia|].
    split; [by apply show_unsigned_value; lia|lia]. }
  unfold ClientMain.main, ClientMain.main_with. destruct args as [|arg args]; [done|].
  rewrite Hparse, command_spaced. fold env. cbn [negb].
  by rewrite (Hreq tail fin Hs).
Qed.

(** ** Witnesses *)

Definition ex_args : list bytes := [str "SET"; str "k"; str "v"].
Definition ex_world (host : bytes) (port : Z) : request_env := ex_request (frame_of (str "OK")).

Lemma client_reports_outcome_witness :
  let r := mkExited 0 (str "OK" ++ newline) [] in
  match ex_status r with
  | 0 => ex_args <> [] /\ exists port response tail,
           port_text 1 (str "9000") port /\ frame_of (str "SET k v") = frame_of (spaced ex_args)
           /\ fst (stream (rq_rx (ex_world (str "localhost") port))) = frame_of response ++ tail
           /\ r = mkExited 0 (response ++ newline) []
  | 1 => ex_args <> [] /\ ex_stdout r = []
         /\ exists port reason, port_text 1 (str "9000") port /\ reason <> []
              /\ ex_stderr r = str "request failed: " ++ reason ++ newline
  | 2 => ex_stdout r = [] /\ frame_of (str "SET k v") = []
         /\ if decide (ex_args = []) then ex_stderr r = ClientMain.usage
            else ~ port_text 1 (str "9000") (dec_value 0 (str "9000"))
                 /\ ex_stderr r = str "invalid port: " ++ str "9000" ++ newline
  | _ => False
  end.
Proof.
  apply (@client_reports_outcome little (str "netforge-client") (str "localhost") (str "9000") ex_args
           ex_world (mkExited 0 (str "OK" ++ newline) []) (frame_of (str "SET k v"))).
  - vm_compute. discriminate.
  - intros host port n. discriminate.
  - intros host port n. discriminate.
  - vm_compute. reflexivity.
Defined.

(** The log is there, the second address binds, one client is served. *)
Definition ex_start (options : ServerOptions) : startup_env := ex_startup.


Lemma command_line_request_witness :
  exists srv',
    @handle_client little Wal append_env (@wal_durable_log little) 2 ex_server ex_env ex_session
      = Done (ex_server1, mkAppendEnv [] [], srv')
    /\ forall tail fin,
         stream (rq_rx (ex_world (str "localhost") 9000)) = (sent srv' ++ tail, fin) ->
         @ClientMain.main little (str "netforge-client" :: str "localhost" :: show_unsigned 9000 :: ex_args)
           ex_world
         = Done (mkExited 0 (str "OK" ++ newline) [], frame_of (spaced ex_args)).
Proof.
  apply (@command_line_request little Wal append_env (@wal_durable_log little) (str "netforge-client")
           (str "localhost") 9000 ex_args ex_server ex_env (str "OK") ex_server1 (mkAppendEnv [] [])
           ex_world 5 ECONNREFUSED ex_session).
  - discriminate.
  - vm_compute. split; [reflexivity|discriminate].
  - apply ex_execute.
  - vm_compute. discriminate.
  - vm_compute. discriminate.
  - vm_compute. discriminate.
  - reflexivity.
  - vm_compute. reflexivity.
  - lia.
  - vm_compute. tauto.
  - vm_compute. reflexivity.
  - vm_compute. tauto.
  - reflexivity.
Defined.

(** The server program on these inputs. *)
Example server_main_runs :
  @ServerMain.main little [str "netforge-server"; str "9000"; str "log"] ex_start
    (fun _ => str "error") ex_turns true
  = Done (mkExited 0 (str "NetForge listening on 127.0.0.1:9000" ++ newline) []).
Proof. vm_compute. reflexivity. Qed.
