(* ===== verification/BenchMain.v ===== *)
(** * The benchmark of the key-value server
      ([capstone/reference/apps/bench_main.cpp])

    Workers connect, warm their connections up and time PING requests; the main
    thread joins them and reports nearest-rank percentiles.  A worker writes only
    its own vector of samples and adds to one atomic counter, so the workers are
    run one after the other.  The clock, and the texts of floating-point numbers,
    are the environment's. *)

From stdpp Require Import base gmap list sorting strings.
From Stdlib Require Import Strings.Byte ZArith Lia.
From S2P Require Import Prelude ByteOrder Posix Numeric Protocol Commands Store DurableLog Wal Server Startup.

(** ** Arguments *)

Definition parse_size (text : bytes) (value : Z) (allow_zero : bool) : bool * Z :=
  let '(rest, error, parsed) := from_chars u64_max text 0 in
  if bool_decide (error <> errc_ok) || negb (is_empty rest)
     || (negb allow_zero && (parsed =? 0)) || (parsed >? u64_max)
  then (false, value)
  else (true, parsed).

(** ** Connecting *)

(** What the calls on one resolved address return.  SO_NOSIGPIPE does not exist on
    Linux, so its block is not compiled. *)
Record bench_address := mkBenchAddress {
  ba_socket : Z;
  ba_getfd : Z;
  ba_setfd : Z;
  ba_rcvtimeo : Z;
  ba_sndtimeo : Z;
  ba_connect : Z;
}.

Fixpoint connect_addresses (addresses : list bench_address) : Z :=
  match addresses with
  | [] => -1
  | address :: rest =>
      if ba_socket address <? 0 then connect_addresses rest
      else if (ba_getfd address <? 0) || negb (ba_setfd address =? 0) then connect_addresses rest
      else if negb (ba_rcvtimeo address =? 0) || negb (ba_sndtimeo address =? 0)
      then connect_addresses rest
      else if ba_connect address =? 0 then ba_socket address
      else connect_addresses rest
  end.

(** The descriptor, or -1; [lookup] is what [getaddrinfo] returns. *)
Definition connect_to (lookup : Z) (addresses : list bench_address) : Z :=
  if negb (lookup =? 0) then -1 else connect_addresses addresses.

(** ** Requests *)

Section Ping.
Context `{Host}.

Definition ping (tx : list write_event) (rx : list read_event)
  : outcome (bool * list write_event * list read_event) :=
  let* (sent, _, tx) := send_frame (str "PING") tx in
  if decide (io_status sent <> IoStatus.ok) then Done (false, tx, rx)
  else
    let* (response, rx) := recv_frame kDefaultMaxPayload rx in
    Done (bool_decide (fr_status response = IoStatus.ok)
          && bool_decide (fr_payload response = str "PONG"), tx, rx).

Fixpoint warm_up (steps : nat) (tx : list write_event) (rx : list read_event)
  : outcome (bool * list write_event * list read_event) :=
  match steps with
  | O => Done (true, tx, rx)
  | S steps =>
      let* (ok, tx, rx) := ping tx rx in
      if negb ok then Done (false, tx, rx) else warm_up steps tx rx
  end.

(** The timed loop from [request] on: whether it went through, and the samples.
    [clock request] are the readings before and after a request. *)
Fixpoint time_requests (steps : nat) (request : Z) (clock : Z -> Z * Z)
    (tx : list write_event) (rx : list read_event) (samples : list Z) : outcome (bool * list Z) :=
  match steps with
  | O => Done (true, samples)
  | S steps =>
      let (start, stop) := clock request in
      let* (ok, tx, rx) := ping tx rx in
      if negb ok then Done (false, samples)
      else time_requests steps (request + 1) clock tx rx (samples ++ [stop - start])
  end.
End Ping.

(** ** Workers *)

Record worker_env := mkWorkerEnv {
  we_lookup : Z;
  we_addresses : list bench_address;
  we_tx : list write_event;
  we_rx : list read_event;
  we_clock : Z -> Z * Z;
}.

Definition worker_request_count (request_count concurrency worker : Z) : Z :=
  u64 (request_count / concurrency + (if worker <? request_count mod concurrency then 1 else 0)).

(** The body of a worker: whether it adds to [failures], and its samples. *)
Definition worker_body `{Host} (request_count concurrency warmup_per_connection worker : Z)
    (env : worker_env) : outcome (bool * list Z) :=
  let connection := connect_to (we_lookup env) (we_addresses env) in
  if negb (connection >=? 0) then Done (true, [])
  else
    let* (ok, tx, rx) := warm_up (Z.to_nat warmup_per_connection) (we_tx env) (we_rx env) in
    if negb ok then Done (true, [])
    else
      let* (ok, samples) :=
        time_requests (Z.to_nat (worker_request_count request_count concurrency worker)) 0
          (we_clock env) tx rx [] in
      Done (negb ok, samples).

(** The workers from [worker] on: [failures], and the vectors of samples. *)
Fixpoint run_workers `{Host} (steps : nat) (worker request_count concurrency warmup : Z)
    (world : Z -> worker_env) : outcome (Z * list (list Z)) :=
  match steps with
  | O => Done (0, [])
  | S steps =>
      let* (failed, samples) := worker_body request_count concurrency warmup worker (world worker) in
      let* (failures, all) := run_workers steps (worker + 1) request_count concurrency warmup world in
      Done ((if failed then 1 else 0) + failures, samples :: all)
  end.

(** ** The report *)

(** [std::sort]. *)
Definition sort_samples (samples : list Z) : list Z := merge_sort Z.le samples.

Definition percentile (sorted_nanoseconds : list Z) (percent : Z) : outcome Z :=
  let numerator := u64 (percent * len sorted_nanoseconds) in
  let rank := u64 (numerator + 99) / 100 in
  match sorted_nanoseconds !! Z.to_nat (u64 (Z.max 1 rank - 1)) with
  | Some nanoseconds => Done nanoseconds
  | None => Undefined
  end.

Definition back (l : list Z) : outcome Z :=
  match last l with Some x => Done x | None => Undefined end.

Definition usage : bytes :=
  str "usage: netforge-bench HOST PORT [REQUESTS] [CONCURRENCY] [WARMUP_PER_CONNECTION]" ++ newline.

Definition scope_note : bytes :=
  str "Scope: loopback, blocking persistent sessions, one request outstanding per session; percentiles exclude connect and warmup time."
  ++ newline.

(** The arguments: requests, concurrency and warm-up of each connection. *)
Definition arguments (argv : list bytes) : option (Z * Z * Z) :=
  let parse index value allow_zero :=
    match argv !! index with Some text => parse_size text value allow_zero | None => (true, value) end in
  let (port_ok, port) := parse 2%nat 0 false in
  let (requests_ok, request_count) := parse 3%nat 1000 false in
  let (concurrency_ok, concurrency) := parse 4%nat 4 false in
  let (warmup_ok, warmup_per_connection) := parse 5%nat 10 true in
  if negb port_ok || (port >? 2 ^ 16 - 1) || negb requests_ok || negb concurrency_ok
     || (concurrency >? 256) || (request_count >? 10000000) || negb warmup_ok
     || (warmup_per_connection >? 1000000)
  then None
  else Some (request_count, concurrency, warmup_per_connection).

Definition failure_line (completed requested failures : Z) : bytes :=
  str "benchmark failed: completed=" ++ show_unsigned completed ++ str " requested="
  ++ show_unsigned requested ++ str " connection_or_io_failures=" ++ show_unsigned failures ++ newline.

Definition report_line (warmup requests concurrency : Z) (wall rate : bytes) (us : Z -> bytes)
    (p50 p95 p99 top : Z) : bytes :=
  str "warmup=" ++ show_unsigned warmup ++ str " requests=" ++ show_unsigned requests
  ++ str " concurrency=" ++ show_unsigned concurrency ++ str " wall=" ++ wall ++ str "s"
  ++ str " wall_rate=" ++ rate ++ str "req/s" ++ str " p50_us=" ++ us p50
  ++ str " p95_us=" ++ us p95 ++ str " p99_us=" ++ us p99 ++ str " max_us=" ++ us top ++ newline.

(** [main]; [wall], [rate] and [us] are the texts of the wall-clock time, of the
    rate and of nanoseconds as microseconds. *)
Definition bench_main `{Host} (argv : list bytes) (world : Z -> worker_env)
    (wall rate : bytes) (us : Z -> bytes) : outcome exited :=
  if (len argv <? 3) || (len argv >? 6) then Done (mkExited 2 [] usage)
  else match arguments argv with
  | None => Done (mkExited 2 [] (str "invalid numeric argument" ++ newline))
  | Some (request_count, concurrency, warmup_per_connection) =>
      let* (failures, worker_samples) :=
        run_workers (Z.to_nat concurrency) 0 request_count concurrency warmup_per_connection world in
      let samples := concat worker_samples in
      if negb (failures =? 0) || negb (len samples =? request_count)
      then Done (mkExited 1 [] (failure_line (len samples) request_count failures))
      else
        let samples := sort_samples samples in
        let* p50 := percentile samples 50 in
        let* p95 := percentile samples 95 in
        let* p99 := percentile samples 99 in
        let* top := back samples in
        Done (mkExited 0 (report_line (u64 (warmup_per_connection * concurrency)) (len samples)
                            concurrency wall rate us p50 p95 p99 top ++ scope_note) [])
  end.

(** ** Percentiles *)

Definition at_most (v : Z) (l : list Z) : Z := len (filter (fun x => x <= v) l).
Definition below (v : Z) (l : list Z) : Z := len (filter (fun x => x < v) l).

(** The nearest-rank percentile: the least sample that at least [percent] percent
    of the samples do not exceed. *)
Record nearest_rank (samples : list Z) (percent v : Z) : Prop := mkNearestRank {
  nr_sample : v ∈ samples;
  nr_enough : percent * len samples <= 100 * at_most v samples;
  nr_least : 100 * below v samples < percent * len samples;
}.

#[global] Instance nearest_rank_proper :
  Proper ((≡ₚ) ==> eq ==> eq ==> iff) nearest_rank.
Proof.
  assert (forall l k p v, l ≡ₚ k -> nearest_rank l p v -> nearest_rank k p v) as Himpl.
  { intros l k p v Hlk [H1 H2 H3]. unfold at_most, below, len in *. split; unfold at_most, below, len.
    - by rewrite <- Hlk.
    - by rewrite <- Hlk.
    - by rewrite <- Hlk. }
  intros l k Hlk p ? <- v ? <-. split; by apply Himpl.
Qed.

Lemma nearest_rank_mono samples p q v w :
  p <= q -> nearest_rank samples p v -> nearest_rank samples q w -> v <= w.
Proof.
  intros Hpq [_ _ Hv] [_ Hw _]. destruct (Z.le_gt_cases v w) as [|Hlt]; [done|exfalso].
  assert (at_most w samples <= below v samples).
  { unfold at_most, below, len. apply Nat2Z.inj_le. apply submseteq_length.
    clear -Hlt. induction samples as [|x l IH]; [done|]. rewrite !filter_cons.
    repeat case_decide; try lia; [by apply submseteq_skip|by apply submseteq_cons|done]. }
  pose proof (len_nonneg samples). nia.
Qed.

Lemma nearest_rank_unique samples p v w :
  nearest_rank samples p v -> nearest_rank samples p w -> v = w.
Proof.
  intros Hv Hw. pose proof (nearest_rank_mono _ _ _ _ _ (Z.le_refl p) Hv Hw).
  pose proof (nearest_rank_mono _ _ _ _ _ (Z.le_refl p) Hw Hv). lia.
Qed.

Lemma filter_all (P : Z -> Prop) `{!forall x, Decision (P x)} l : Forall P l -> filter P l = l.
Proof. induction 1; [done|]. rewrite filter_cons_True by done. by f_equal. Qed.
Lemma filter_none (P : Z -> Prop) `{!forall x, Decision (P x)} l :
  Forall (fun x => ~ P x) l -> filter P l = [].
Proof. induction 1; [done|]. by rewrite filter_cons_False. Qed.

(** In a sorted list, what is before and after an element. *)
Lemma sorted_split (l : list Z) i v :
  Sorted Z.le l -> l !! i = Some v ->
  Forall (fun x => x <= v) (take (S i) l) /\ Forall (fun x => v <= x) (drop i l).
Proof.
  intros Hs%Sorted_StronglySorted Hi; [|intros ???; lia].
  pose proof (take_drop_middle _ _ _ Hi) as Hm. rewrite <- Hm in Hs.
  split.
  - rewrite (take_S_r _ _ _ Hi). apply Forall_app. split; [|by apply Forall_singleton].
    apply Forall_forall. intros x Hx.
    eapply StronglySorted_app_1_elem_of; [exact Hs|exact Hx|by left].
  - rewrite (drop_S _ _ _ Hi). constructor; [lia|].
    apply StronglySorted_app_1_r in Hs. by inversion Hs.
Qed.

Lemma percentile_spec sorted percent :
  Sorted Z.le sorted -> sorted <> [] -> 0 < percent <= 100 -> len sorted <= 10000000 ->
  exists v, percentile sorted percent = Done v /\ nearest_rank sorted percent v.
Proof.
  intros Hs Hne Hp Hn. assert (0 < len sorted) as Hpos by (destruct sorted; [done|unfold len; simpl; lia]).
  set (n := len sorted) in *. set (r := (percent * n + 99) / 100).
  assert (100 * r < percent * n + 100 /\ percent * n <= 100 * r) as [Hr1 Hr2].
  { pose proof (Z.div_mod (percent * n + 99) 100 ltac:(lia)).
    pose proof (Z.mod_pos_bound (percent * n + 99) 100 ltac:(lia)). unfold r. lia. }
  assert (1 <= r <= n) as Hr by nia.
  assert (exists v, sorted !! Z.to_nat (r - 1) = Some v) as [v Hv]
    by (apply lookup_lt_is_Some; unfold n, len in *; lia).
  exists v. split.
  - unfold percentile. fold n. assert (0 <= percent * n <= 1000000000) by nia.
    rewrite (u64_small (percent * n)), (u64_small (percent * n + 99)) by lia. fold r.
    rewrite Z.max_r, u64_small by lia. by rewrite Hv.
  - destruct (sorted_split _ _ _ Hs Hv) as [Hle Hge].
    replace (S (Z.to_nat (r - 1))) with (Z.to_nat r) in Hle by lia. split.
    + by eapply list_elem_of_lookup_2.
    + assert (r <= at_most v sorted); [|fold n; lia].
      rewrite <- (take_drop (Z.to_nat r) sorted). unfold at_most.
      rewrite filter_app, (filter_all _ _ Hle), len_app. pose proof (len_nonneg (filter (fun x => x <= v) (drop (Z.to_nat r) sorted))).
      unfold len at 1. rewrite length_take. unfold n, len in *. lia.
    + assert (below v sorted <= r - 1); [|fold n; lia].
      rewrite <- (take_drop (Z.to_nat (r - 1)) sorted). unfold below.
      rewrite filter_app, (filter_none (fun x => x < v) (drop _ _)), app_nil_r
        by (eapply Forall_impl; [exact Hge|]; simpl; lia).
      unfold len. pose proof (length_filter (fun x => x < v) (take (Z.to_nat (r - 1)) sorted)).
      rewrite length_take in *. lia.
Qed.

Lemma back_spec sorted :
  Sorted Z.le sorted -> sorted <> [] ->
  exists v, back sorted = Done v /\ nearest_rank sorted 100 v.
Proof.
  intros Hs Hne. unfold back. destruct (last sorted) as [v|] eqn:Hl; [|by apply last_None in Hl].
  exists v. split; [done|]. rewrite last_lookup in Hl.
  assert (0 < length sorted)%nat by (destruct sorted; [done|simpl; lia]).
  destruct (sorted_split _ _ _ Hs Hl) as [Hle Hge]. rewrite firstn_all2 in Hle by lia. split.
  - by eapply list_elem_of_lookup_2.
  - unfold at_most. rewrite (filter_all _ _ Hle). lia.
  - assert (below v sorted <= len sorted - 1); [|lia].
    rewrite <- (take_drop (pred (length sorted)) sorted) at 1. unfold below.
    rewrite filter_app, (filter_none (fun x => x < v) (drop _ _)), app_nil_r
      by (eapply Forall_impl; [exact Hge|]; simpl; lia).
    pose proof (length_filter (fun x => x < v) (take (pred (length sorted)) sorted)).
    rewrite length_take in *. unfold len. lia.
Qed.

Lemma sort_samples_spec samples : Sorted Z.le (sort_samples samples) /\ sort_samples samples ≡ₚ samples.
Proof. split; [apply Sorted_merge_sort; intros ??; lia|apply merge_sort_Permutation]. Qed.

(** ** The arguments *)

Lemma parse_size_range text value allow_zero v :
  parse_size text value allow_zero = (true, v) -> 0 <= v /\ (allow_zero = false -> 1 <= v).
Proof.
  unfold parse_size. destruct (from_chars u64_max text 0) as [[rest e] parsed] eqn:Hf.
  destruct (bool_decide (e <> errc_ok)) eqn:He; [done|]. apply bool_decide_eq_false in He.
  apply dec_stable in He. subst e.
  destruct rest as [|c rest]; [|done]. apply from_chars_whole in Hf as ([_ Hd] & <- & _).
  pose proof (dec_value_nonneg 0 text ltac:(lia) Hd). cbn [is_empty negb orb].
  destruct (negb allow_zero && (dec_value 0 text =? 0)) eqn:Hz; [done|]. case_if; [done|].
  intros [= <-]. split; [done|]. intros ->. cbn [negb andb] in Hz. apply Z.eqb_neq in Hz. lia.
Qed.

Lemma arguments_range argv requests concurrency warmup :
  arguments argv = Some (requests, concurrency, warmup) ->
  1 <= requests <= 10000000 /\ 1 <= concurrency <= 256 /\ 0 <= warmup <= 1000000.
Proof.
  unfold arguments.
  assert (forall index value allow_zero v, 1 <= value ->
    match argv !! index with Some text => parse_size text value allow_zero | None => (true, value) end
    = (true, v) -> 0 <= v /\ (allow_zero = false -> 1 <= v)) as Hparse.
  { intros index value allow_zero v Hv. destruct (argv !! index); [apply parse_size_range|].
    intros [= <-]. lia. }
  destruct (match argv !! 2%nat with Some _ => _ | None => _ end) as [b2 port].
  destruct (match argv !! 3%nat with Some _ => _ | None => _ end) as [b3 n] eqn:H3.
  destruct (match argv !! 4%nat with Some _ => _ | None => _ end) as [b4 c] eqn:H4.
  destruct (match argv !! 5%nat with Some _ => _ | None => _ end) as [b5 w] eqn:H5.
  match goal with |- (if ?c then _ else _) = _ -> _ => destruct c eqn:Hbad end; [done|].
  intros [= <- <- <-].
  repeat match goal with
  | H : _ || _ = false |- _ => apply orb_false_iff in H as [? ?]
  | H : negb _ = false |- _ => apply negb_false_iff in H; subst
  end.
  apply Hparse in H3, H4, H5; [|lia..]. rewrite Z.gtb_ltb in *. reflect_bools.
  destruct H3 as [_ H3], H4 as [_ H4]. specialize (H3 eq_refl). specialize (H4 eq_refl). lia.
Qed.

(** ** The work is split without a rest *)

Definition share (requests concurrency : Z) (worker : nat) : Z :=
  worker_request_count requests concurrency (Z.of_nat worker).

Lemma share_value requests concurrency worker :
  0 <= requests <= 10000000 -> 1 <= concurrency ->
  share requests concurrency worker
  = requests / concurrency + (if Z.of_nat worker <? requests mod concurrency then 1 else 0).
Proof.
  intros Hr Hc. unfold share, worker_request_count. apply u64_small.
  pose proof (Z.div_pos requests concurrency ltac:(lia) ltac:(lia)).
  pose proof (Z.div_le_upper_bound requests concurrency requests ltac:(lia) ltac:(nia)).
  case_if; lia.
Qed.

Lemma shares_sum requests concurrency steps worker :
  0 <= requests <= 10000000 -> 1 <= concurrency ->
  sum_by (share requests concurrency) (seq worker steps)
  = Z.of_nat steps * (requests / concurrency)
    + (Z.min (Z.of_nat (worker + steps)) (requests mod concurrency)
       - Z.min (Z.of_nat worker) (requests mod concurrency)).
Proof.
  intros Hr Hc. revert worker. induction steps as [|steps IH]; intros worker.
  - simpl. rewrite Nat.add_0_r. change (sum_by _ []) with 0. lia.
  - cbn [seq]. rewrite sum_by_cons, IH, share_value by done.
    destruct (Z.ltb_spec (Z.of_nat worker) (requests mod concurrency)); lia.
Qed.

Lemma shares_total requests concurrency :
  0 <= requests <= 10000000 -> 1 <= concurrency ->
  sum_by (share requests concurrency) (seq 0 (Z.to_nat concurrency)) = requests.
Proof.
  intros Hr Hc. rewrite shares_sum by done.
  pose proof (Z.div_mod requests concurrency ltac:(lia)).
  pose proof (Z.mod_pos_bound requests concurrency ltac:(lia)). simpl. lia.
Qed.

(** ** The workers *)

Section Workers.
Context `{Host}.

Lemma time_requests_length steps request clock tx rx samples ok all :
  time_requests steps request clock tx rx samples = Done (ok, all) ->
  exists more, all = samples ++ more /\ (ok = true -> length more = steps).
Proof.
  revert request tx rx samples. induction steps as [|steps IH]; intros request tx rx samples; simpl.
  - intros [= <- <-]. exists []. by rewrite app_nil_r.
  - destruct (clock request) as [start stop].
    intros ([[okp tx'] rx'] & _ & Hr)%obind_Done_inv. destruct okp; cbn [negb] in Hr.
    + destruct (IH _ _ _ _ Hr) as (more & -> & Hm). exists ((stop - start) :: more).
      rewrite <- app_assoc. split; [done|]. intros Hok. simpl. by rewrite Hm.
    + injection Hr as <- <-. exists []. by rewrite app_nil_r.
Qed.

Lemma worker_samples requests concurrency warmup worker env samples :
  0 <= requests <= 10000000 -> 1 <= concurrency ->
  worker_body requests concurrency warmup (Z.of_nat worker) env = Done (false, samples) ->
  len samples = share requests concurrency worker.
Proof.
  intros Hr Hc. unfold worker_body. case_if; [done|].
  intros ([[okw tx] rx] & _ & Hw)%obind_Done_inv. destruct okw; [|done]. cbn [negb] in Hw.
  apply obind_Done_inv in Hw as ([ok all] & Ht & Hw). injection Hw as Hok <-. destruct ok; [|done].
  apply time_requests_length in Ht as (more & -> & Hm). cbn [app]. unfold len. rewrite (Hm eq_refl).
  unfold share. rewrite Z2Nat.id; [done|]. apply u64_range.
Qed.

(** How many of the workers failed. *)
Definition failures_of (results : list (bool * list Z)) : Z :=
  sum_by (fun r : bool * list Z => if fst r then 1 else 0) results.

Lemma failures_cons r results : failures_of (r :: results) = (if fst r then 1 else 0) + failures_of results.
Proof. done. Qed.

Lemma failures_nonneg results : 0 <= failures_of results.
Proof. induction results as [|[[] l] results IH]; [done| |]; rewrite failures_cons; simpl; lia. Qed.

(** The workers' own results determine the joined one. *)
Lemma run_workers_results results worker requests concurrency warmup world :
  (forall i r, results !! i = Some r ->
     worker_body requests concurrency warmup (Z.of_nat (worker + i)) (world (Z.of_nat (worker + i)))
     = Done r) ->
  run_workers (length results) (Z.of_nat worker) requests concurrency warmup world
  = Done (failures_of results, map snd results).
Proof.
  revert worker. induction results as [|[failed samples] results IH]; intros worker Hres; [done|].
  cbn [length run_workers]. pose proof (Hres 0%nat _ eq_refl) as H0. rewrite Nat.add_0_r in H0.
  rewrite H0. cbn [obind]. replace (Z.of_nat worker + 1) with (Z.of_nat (S worker)) by lia.
  rewrite IH; [done|]. intros i r Hi. replace (S worker + i)%nat with (worker + S i)%nat by lia.
  by apply Hres.
Qed.

Lemma no_failures_all (results : list (bool * list Z)) worker requests concurrency warmup world :
  0 <= requests <= 10000000 -> 1 <= concurrency ->
  (forall i r, results !! i = Some r ->
     worker_body requests concurrency warmup (Z.of_nat (worker + i)) (world (Z.of_nat (worker + i)))
     = Done r) ->
  failures_of results = 0 ->
  len (concat (map snd results)) = sum_by (share requests concurrency) (seq worker (length results)).
Proof.
  intros Hr Hc. revert worker. induction results as [|[failed samples] results IH];
    intros worker Hres Hnone; [done|]. rewrite failures_cons in Hnone.
  pose proof (failures_nonneg results) as Hpos.
  destruct failed; simpl in Hnone; [lia|]. cbn [map concat snd length seq].
  rewrite len_app, sum_by_cons. f_equal.
  - pose proof (Hres 0%nat _ eq_refl) as H0. rewrite Nat.add_0_r in H0. by eapply worker_samples.
  - apply IH; [|lia]. intros i r Hi. replace (S worker + i)%nat with (worker + S i)%nat by lia.
    by apply Hres.
Qed.
End Workers.

(** ** A worker and the server *)

Section Against.
Context `{Host}.

Definition pong_frames (n : nat) : bytes := wire (replicate n (str "PONG")).

Lemma ping_pongs n m tx rx tail fin :
  willing m tx -> (8 * S n <= m)%nat -> stream rx = (pong_frames (S n) ++ tail, fin) ->
  exists tx' rx', ping tx rx = Done (true, tx', rx') /\ willing (m - 8) tx'
    /\ stream rx' = (pong_frames n ++ tail, fin).
Proof.
  intros Htx Hm Hrx. unfold ping.
  destruct (send_frame_willing (str "PING") tx m) as (tx' & -> & Htx');
    [done|done|change (length (frame_of (str "PING"))) with 8%nat; lia|].
  cbn [obind io_status]. rewrite decide_False by congruence.
  unfold pong_frames, wire in Hrx. cbn [replicate map concat] in Hrx. rewrite <- app_assoc in Hrx.
  destruct (recv_frame_frame kDefaultMaxPayload rx (str "PONG") (pong_frames n ++ tail) fin)
    as (rx' & -> & Hrx'); [done|done|exact Hrx|].
  exists tx', rx'. done.
Qed.

Lemma warm_up_pongs steps n m tx rx fin :
  willing m tx -> (8 * (steps + n) <= m)%nat -> stream rx = (pong_frames (steps + n), fin) ->
  exists tx' rx', warm_up steps tx rx = Done (true, tx', rx') /\ willing (m - 8 * steps) tx'
    /\ stream rx' = (pong_frames n, fin).
Proof.
  revert m tx rx. induction steps as [|steps IH]; intros m tx rx Htx Hm Hrx.
  - exists tx, rx. split; [done|]. by rewrite Nat.mul_0_r, Nat.sub_0_r.
  - cbn [warm_up]. destruct (ping_pongs (steps + n) m tx rx [] fin) as (tx1 & rx1 & -> & Htx1 & Hrx1);
      [done|lia|by rewrite app_nil_r|].
    rewrite app_nil_r in Hrx1. cbn [obind negb].
    destruct (IH _ _ _ Htx1 ltac:(lia) Hrx1) as (tx2 & rx2 & -> & Htx2 & Hrx2).
    exists tx2, rx2. split; [done|]. by replace (m - 8 * S steps)%nat with (m - 8 - 8 * steps)%nat by lia.
Qed.

Lemma time_requests_pongs steps m request clock tx rx samples fin :
  willing m tx -> (8 * steps <= m)%nat -> stream rx = (pong_frames steps, fin) ->
  exists more, time_requests steps request clock tx rx samples = Done (true, samples ++ more)
    /\ length more = steps.
Proof.
  revert m request tx rx samples. induction steps as [|steps IH]; intros m request tx rx samples Htx Hm Hrx.
  - exists []. by rewrite app_nil_r.
  - cbn [time_requests]. destruct (clock request) as [start stop].
    destruct (ping_pongs steps m tx rx [] fin) as (tx1 & rx1 & -> & Htx1 & Hrx1);
      [done|lia|by rewrite app_nil_r|].
    rewrite app_nil_r in Hrx1. cbn [obind negb].
    destruct (IH _ (request + 1) _ _ (samples ++ [stop - start]) Htx1 ltac:(lia) Hrx1) as (more & -> & Hm').
    exists ((stop - start) :: more). rewrite <- app_assoc. split; [done|]. simpl. by rewrite Hm'.
Qed.
End Against.

Lemma pings_executed {L E} `{DurableLog L E} n (s : Server L) (e : E) :
  execute_all (replicate n (str "PING")) s e = Done (replicate n (str "PONG"), s, e).
Proof.
  induction n as [|n IH]; [done|]. cbn [replicate execute_all].
  assert (execute (str "PING") s e = Done (str "PONG", s, e)) as -> by (vm_compute; reflexivity).
  cbn [obind]. by rewrite IH.
Qed.

Lemma wire_length n t : length (wire (replicate n t)) = (n * length (frame_of t))%nat.
Proof. induction n as [|n IH]; [done|]. unfold wire in *. cbn [replicate map concat]. rewrite length_app, IH. lia. Qed.

(** ** Properties *)

(** Percentiles are nearest-rank.  On the sorted samples of a benchmark (at
    most ten million, at least one), [percentile] returns a sample that at least
    the given percentage of the samples do not exceed, and the least such sample;
    the index is in range and no multiplication wraps. *)
Theorem percentile_is_nearest_rank samples percent :
  samples <> [] -> len samples <= 10000000 -> 0 < percent <= 100 ->
  exists v, percentile (sort_samples samples) percent = Done v /\ nearest_rank samples percent v.
Proof.
  intros Hne Hlen Hp. destruct (sort_samples_spec samples) as [Hs Hperm].
  destruct (percentile_spec (sort_samples samples) percent) as (v & Hv & Hn); [done| |done| |].
  - intros E. rewrite E in Hperm. by apply Permutation_nil in Hperm.
  - unfold len in *. by rewrite Hperm.
  - exists v. split; [done|]. by rewrite Hperm in Hn.
Qed.

(** C36: the benchmark reports every request.  For valid arguments and whatever
    the workers met, the program exits with 0 exactly when no worker failed, and
    then the samples it reports are those of all the workers, exactly as many as
    requests were asked for, with the nearest-rank percentiles in order; and
    otherwise it exits with 1 and says how many samples and failures there were. *)
Theorem bench_reports_every_request `{Host} argv world wall rate us requests concurrency warmup results :
  3 <= len argv <= 6 -> arguments argv = Some (requests, concurrency, warmup) ->
  len results = concurrency ->
  (forall i r, results !! i = Some r ->
     worker_body requests concurrency warmup (Z.of_nat i) (world (Z.of_nat i)) = Done r) ->
  let samples := concat (map snd results) in
  if decide (failures_of results = 0)
  then len samples = requests
       /\ exists p50 p95 p99 top,
            nearest_rank samples 50 p50 /\ nearest_rank samples 95 p95
            /\ nearest_rank samples 99 p99 /\ nearest_rank samples 100 top
            /\ p50 <= p95 <= p99 /\ p99 <= top
            /\ bench_main argv world wall rate us
               = Done (mkExited 0 (report_line (warmup * concurrency) requests concurrency wall rate us
                                     p50 p95 p99 top ++ scope_note) [])
  else bench_main argv world wall rate us
       = Done (mkExited 1 [] (failure_line (len samples) requests (failures_of results))).
Proof.
  intros Hargc Hargs Hconc Hres samples.
  destruct (arguments_range _ _ _ _ Hargs) as (Hreq & Hc & Hw).
  assert (run_workers (Z.to_nat concurrency) 0 requests concurrency warmup world
          = Done (failures_of results, map snd results)) as Hrun.
  { replace (Z.to_nat concurrency) with (length results) by (unfold len in *; lia).
    by apply (run_workers_results results 0). }
  unfold bench_main. rewrite (proj2 (Z.ltb_ge _ _)), Z.gtb_ltb, (proj2 (Z.ltb_ge _ _)) by lia.
  cbn [orb]. rewrite Hargs, Hrun. cbn [obind]. fold samples.
  destruct (decide (failures_of results = 0)) as [Hnone|Hsome].
  - assert (len samples = requests) as Hlen.
    { unfold samples. rewrite (no_failures_all results 0 requests concurrency warmup world) by (done || lia).
      replace (length results) with (Z.to_nat concurrency) by (unfold len in *; lia).
      apply shares_total; lia. }
    split; [done|]. rewrite Hnone, Hlen, Z.eqb_refl. cbn [Z.eqb negb orb].
    destruct (sort_samples_spec samples) as [Hs Hperm].
    assert (samples <> []) as Hne by (intros E; rewrite E in Hlen; change (len []) with 0 in Hlen; lia).
    assert (sort_samples samples <> []) as Hne'
      by (intros E; rewrite E in Hperm; by apply Permutation_nil in Hperm).
    assert (len (sort_samples samples) = requests) as Hlen' by (unfold len in *; by rewrite Hperm).
    destruct (percentile_spec (sort_samples samples) 50) as (p50 & -> & H50); [done|done|lia|lia|].
    destruct (percentile_spec (sort_samples samples) 95) as (p95 & -> & H95); [done|done|lia|lia|].
    destruct (percentile_spec (sort_samples samples) 99) as (p99 & -> & H99); [done|done|lia|lia|].
    destruct (back_spec (sort_samples samples)) as (top & -> & Htop); [done|done|].
    rewrite Hperm in H50, H95, H99, Htop. exists p50, p95, p99, top. do 4 (split; [done|]).
    pose proof (nearest_rank_mono _ 50 95 _ _ ltac:(lia) H50 H95).
    pose proof (nearest_rank_mono _ 95 99 _ _ ltac:(lia) H95 H99).
    pose proof (nearest_rank_mono _ 99 100 _ _ ltac:(lia) H99 Htop).
    split; [lia|]. split; [lia|].
    cbn [obind]. by rewrite Z.eqb_refl, Hlen', u64_small by nia.
  - by rewrite (proj2 (Z.eqb_neq _ _)).
Qed.

(** A worker completes against the server.  When a worker is connected and the
    kernels take what is written, in any pieces, the server's session on the
    worker's requests answers every one of them without changing the server, and
    with those answers coming back, cut in any way, the worker does not fail and
    takes exactly its share of the samples. *)
Theorem worker_completes_against_server `{Host} {L E} `{DurableLog L E}
    requests concurrency warmup worker env fd (s : Server L) (e : E) srv :
  let n := (Z.to_nat warmup + Z.to_nat (worker_request_count requests concurrency worker))%nat in
  connect_to (we_lookup env) (we_addresses env) = fd -> 0 <= fd ->
  4 <= max_payload (options_ s) ->
  willing (8 * n) (we_tx env) ->
  stream (rx srv) = (wire (replicate n (str "PING")), SEof) ->
  willing (8 * n) (tx srv) -> sent srv = [] ->
  exists srv',
    handle_client (S n) s e srv = Done (s, e, srv')
    /\ forall fin, stream (we_rx env) = (sent srv', fin) ->
         exists samples,
           worker_body requests concurrency warmup worker env = Done (false, samples)
           /\ len samples = worker_request_count requests concurrency worker.
Proof.
  intros n Hconn Hfd Hmax Htx Hrx Hstx Hsent.
  destruct (handle_client_session (replicate n (str "PING")) s e (replicate n (str "PONG")) s e srv (S n))
    as (srv' & Hh & Hout).
  - apply pings_executed.
  - by apply Forall_replicate.
  - by apply Forall_replicate.
  - by apply Forall_replicate.
  - done.
  - rewrite wire_length. change (length (frame_of (str "PONG"))) with 8%nat. by rewrite Nat.mul_comm.
  - rewrite length_replicate. lia.
  - exists srv'. split; [done|]. intros fin Hback. rewrite Hout, Hsent in Hback. cbn [app] in Hback.
    unfold worker_body. rewrite Hconn. rewrite Z.geb_leb, (proj2 (Z.leb_le _ _)) by done. cbn [negb].
    destruct (warm_up_pongs _ _ _ _ _ _ Htx (le_n _) Hback) as (tx1 & rx1 & -> & Htx1 & Hrx1).
    cbn [obind negb]. edestruct time_requests_pongs as (more & -> & Hm); [exact Htx1| |exact Hrx1|].
    { unfold n. lia. }
    exists more. split; [done|]. unfold len. rewrite Hm. rewrite Z2Nat.id; [done|]. apply u64_range.
Qed.

(** ** Witnesses *)

Lemma percentile_is_nearest_rank_witness :
  exists v, percentile (sort_samples [30; 10; 20; 40]) 50 = Done v /\ nearest_rank [30; 10; 20; 40] 50 v.
Proof.
  apply (percentile_is_nearest_rank [30; 10; 20; 40] 50).
  - discriminate.
  - vm_compute. discriminate.
  - lia.
Defined.

Example percentile_value : percentile (sort_samples [30; 10; 20; 40]) 50 = Done 20.
Proof. reflexivity. Qed.

(** Two workers share three requests after one warm-up each. *)
Definition ex_bench_argv : list bytes :=
  [str "netforge-bench"; str "localhost"; str "9000"; str "3"; str "2"; str "1"].
Definition ex_bench_world (worker : Z) : worker_env :=
  mkWorkerEnv 0 [mkBenchAddress 4 0 0 0 0 (-1); mkBenchAddress 5 0 0 0 0 0]
    (replicate 24 (WTake 1)) (unread (wire (replicate 3 (str "PONG"))) [])
    (fun request => (100 * request, 100 * request + 7 + worker)).
Definition ex_bench_results : list (bool * list Z) := [(false, [7; 7]); (false, [8])].

Lemma bench_reports_every_request_witness :
  let samples := concat (map snd ex_bench_results) in
  if decide (failures_of ex_bench_results = 0)
  then len samples = 3
       /\ exists p50 p95 p99 top,
            nearest_rank samples 50 p50 /\ nearest_rank samples 95 p95
            /\ nearest_rank samples 99 p99 /\ nearest_rank samples 100 top
            /\ p50 <= p95 <= p99 /\ p99 <= top
            /\ @bench_main little ex_bench_argv ex_bench_world (str "0.1") (str "30") show_signed
               = Done (mkExited 0 (report_line (1 * 2) 3 2 (str "0.1") (str "30") show_signed
                                     p50 p95 p99 top ++ scope_note) [])
  else @bench_main little ex_bench_argv ex_bench_world (str "0.1") (str "30") show_signed
       = Done (mkExited 1 [] (failure_line (len samples) 3 (failures_of ex_bench_results))).
Proof.
  apply (@bench_reports_every_request little ex_bench_argv ex_bench_world (str "0.1") (str "30")
           show_signed 3 2 1 ex_bench_results).
  - vm_compute. split; discriminate.
  - vm_compute. reflexivity.
  - reflexivity.
  - intros [|[|i]] r Hr; simpl in Hr; [| |done]; injection Hr as <-; vm_compute; reflexivity.
Defined.

Definition ex_bench_session : conn :=
  mkConn (unread (wire (replicate 3 (str "PING"))) [REof]) (replicate 24 (WTake 1)) [].

Lemma worker_completes_against_server_witness :
  exists srv',
    @handle_client little Wal append_env (@wal_durable_log little) 4 ex_server ex_env ex_bench_session
      = Done (ex_server, ex_env, srv')
    /\ forall fin, stream (we_rx (ex_bench_world 0)) = (sent srv', fin) ->
         exists samples,
           @worker_body little 3 2 1 0 (ex_bench_world 0) = Done (false, samples)
           /\ len samples = worker_request_count 3 2 0.
Proof.
  apply (@worker_completes_against_server little Wal append_env (@wal_durable_log little)
           3 2 1 0 (ex_bench_world 0) 5 ex_server ex_env ex_bench_session).
  - reflexivity.
  - lia.
  - vm_compute. discriminate.
  - vm_compute. reflexivity.
  - vm_compute. reflexivity.
  - vm_compute. reflexivity.
  - reflexivity.
Defined.
