(* ===== verification/Packet.v ===== *)
(** * Packet decoding ([capstone/reference/src/packet.cpp])

    [decode_ethernet_ipv4_tcp] walks the headers of a captured frame and
    [parse_hex_bytes] reads the text form of one.  A read of [packet[i]] past
    the end of the span is undefined behaviour, so the reads are partial here.
    The specification of the decoder is an encoder: [wire_packet] lays the
    fields of a TCP segment out in a frame, and the decoder accepts exactly the
    frames it produces. *)

From stdpp Require Import base list strings.
From Stdlib Require Import Strings.Byte ZArith Lia.
From S2P Require Import Prelude Numeric.

(** ** The decoder *)

Record PacketSummary := mkSummary {
  ps_valid : bool;
  ps_vlan_tagged : bool;
  ps_source_ip : bytes;
  ps_destination_ip : bytes;
  ps_source_port : Z;
  ps_destination_port : Z;
  ps_tcp_flags : Z;
  ps_error : bytes;
}.

(** The summary the decoder returns with an [error]. *)
Definition rejected (vlan_tagged : bool) (error : bytes) : PacketSummary :=
  mkSummary false vlan_tagged [] [] 0 0 0 error.

(** [std::to_integer<unsigned char>(bytes[offset])]. *)
Definition byte_at (packet : bytes) (offset : nat) : outcome Z :=
  match packet !! offset with Some b => Done (b2z b) | None => Undefined end.

Definition read_u16 (packet : bytes) (offset : nat) : outcome Z :=
  let* high := byte_at packet offset in
  let* low := byte_at packet (offset + 1) in
  Done (u16 (Z.lor (Z.shiftl high 8) low)).

(** The loop of [format_ipv4] from [index] on. *)
Fixpoint format_ipv4_from (steps index : nat) (packet : bytes) (offset : nat) (output : bytes)
  : outcome bytes :=
  match steps with
  | O => Done output
  | S steps =>
      let output := if (index =? 0)%nat then output else output ++ str "." in
      let* octet := byte_at packet (offset + index) in
      format_ipv4_from steps (S index) packet offset (output ++ show_unsigned octet)
  end.

Definition format_ipv4 (packet : bytes) (offset : nat) : outcome bytes :=
  format_ipv4_from 4 0 packet offset [].

(** The part of the decoder behind the Ethernet header. *)
Definition decode_ipv4_tcp (packet : bytes) (vlan_tagged : bool) (ip_offset : nat)
  : outcome PacketSummary :=
  let fail error := Done (rejected vlan_tagged (str error)) in
  if (length packet <? ip_offset + 20)%nat then fail "truncated IPv4 header" else
  let* version_ihl := byte_at packet ip_offset in
  if negb (Z.shiftr version_ihl 4 =? 4) then fail "IP version is not 4" else
  let ip_header_length := (Z.to_nat (Z.land version_ihl 15) * 4)%nat in
  if ((ip_header_length <? 20) || (length packet <? ip_offset + ip_header_length))%nat
  then fail "invalid IPv4 header length" else
  let* total := read_u16 packet (ip_offset + 2) in
  let total_length := Z.to_nat total in
  if ((total_length <? ip_header_length + 20) || (length packet <? ip_offset + total_length))%nat
  then fail "invalid or truncated IPv4 total length" else
  let* protocol := byte_at packet (ip_offset + 9) in
  if negb (protocol =? 6) then fail "IPv4 payload is not TCP" else
  let* flags_and_fragment_offset := read_u16 packet (ip_offset + 6) in
  if negb (Z.land flags_and_fragment_offset 16383 =? 0)
  then fail "fragmented IPv4 packets do not contain a complete TCP header" else
  let tcp_offset := (ip_offset + ip_header_length)%nat in
  let* data_offset := byte_at packet (tcp_offset + 12) in
  let tcp_header_length := (Z.to_nat (Z.shiftr data_offset 4) * 4)%nat in
  if ((tcp_header_length <? 20)
      || (ip_offset + total_length <? tcp_offset + tcp_header_length))%nat
  then fail "invalid TCP header length" else
  let* source_ip := format_ipv4 packet (ip_offset + 12) in
  let* destination_ip := format_ipv4 packet (ip_offset + 16) in
  let* source_port := read_u16 packet tcp_offset in
  let* destination_port := read_u16 packet (tcp_offset + 2) in
  let* tcp_flags := byte_at packet (tcp_offset + 13) in
  Done (mkSummary true vlan_tagged source_ip destination_ip source_port destination_port
          tcp_flags []).

Definition decode_ethernet_ipv4_tcp (packet : bytes) : outcome PacketSummary :=
  if (length packet <? 14)%nat
  then Done (rejected false (str "truncated Ethernet header")) else
  let* ether_type := read_u16 packet 12 in
  let tagged := (ether_type =? 0x8100) || (ether_type =? 0x88A8) in
  if tagged && (length packet <? 18)%nat
  then Done (rejected false (str "truncated VLAN header")) else
  let* ether_type := if tagged then read_u16 packet 16 else Done ether_type in
  let ip_offset := if tagged then 18%nat else 14%nat in
  if negb (ether_type =? 0x0800) then Done (rejected tagged (str "EtherType is not IPv4")) else
  decode_ipv4_tcp packet tagged ip_offset.

(** ** Hexadecimal text *)

Definition is_hex_separator (c : byte) : bool :=
  isspace c || (b2z c =? 58) || (b2z c =? 45).

(** [value] of a character: the three tests run one after the other. *)
Definition hex_value (c : byte) : Z :=
  let value := -1 in
  let value := if (48 <=? b2z c) && (b2z c <=? 57) then b2z c - 48 else value in
  let value := if (97 <=? b2z c) && (b2z c <=? 102) then b2z c - 97 + 10 else value in
  if (65 <=? b2z c) && (b2z c <=? 70) then b2z c - 65 + 10 else value.

Fixpoint parse_hex_from (text : bytes) (high_nibble : Z) (out : bytes) : bytes :=
  match text with
  | [] => if high_nibble >=? 0 then [] else out
  | character :: text =>
      if is_hex_separator character then parse_hex_from text high_nibble out
      else
        let value := hex_value character in
        if value <? 0 then []
        else if high_nibble <? 0 then parse_hex_from text value out
        else parse_hex_from text (-1) (out ++ [z2b (Z.lor (Z.shiftl high_nibble 4) value)])
  end.

Definition parse_hex_bytes (text : bytes) : bytes := parse_hex_from text (-1) [].

(** ** The program ([apps/packet_main.cpp]) *)

Definition hex_digit (d : Z) : byte := if d <? 10 then z2b (48 + d) else z2b (87 + d).

(** [std::hex] on an integer below 256. *)
Definition show_hex_byte (v : Z) : bytes :=
  if v <? 16 then [hex_digit v] else [hex_digit (v / 16); hex_digit (v mod 16)].

Definition packet_main (argv : list bytes) : outcome exited :=
  match argv with
  | [_; text] =>
      let input := parse_hex_bytes text in
      if is_empty input
      then Done (mkExited 2 [] (str "invalid or empty hex input" ++ newline)) else
      let* summary := decode_ethernet_ipv4_tcp input in
      if negb (ps_valid summary)
      then Done (mkExited 1 [] (str "decode failed: " ++ ps_error summary ++ newline))
      else Done (mkExited 0
        (ps_source_ip summary ++ str ":" ++ show_unsigned (ps_source_port summary)
         ++ str " -> " ++ ps_destination_ip summary ++ str ":"
         ++ show_unsigned (ps_destination_port summary) ++ str " flags=0x"
         ++ show_hex_byte (ps_tcp_flags summary)
         ++ (if ps_vlan_tagged summary then str " vlan" else []) ++ newline) [])
  | _ => Done (mkExited 2 [] (str "usage: netforge-packet HEX-BYTES" ++ newline))
  end.

(** ** The packets the decoder is for *)

(** The fields of a TCP segment in an Ethernet frame; the fixed-size fields the
    decoder does not look at are kept as bytes. *)
Record segment := mkSegment {
  sg_macs : bytes;                      (* destination and source address *)
  sg_vlan : option (bool * bytes);      (* 802.1ad or 802.1Q, tag control *)
  sg_tos : byte;
  sg_ident : bytes;
  sg_ip_flags : Z;                      (* reserved and don't-fragment bits *)
  sg_ttl : byte;
  sg_ip_checksum : bytes;
  sg_source : bytes;
  sg_destination : bytes;
  sg_ip_options : bytes;
  sg_source_port : Z;
  sg_destination_port : Z;
  sg_seq_ack : bytes;
  sg_reserved : Z;
  sg_flags : byte;
  sg_window_checksum_urgent : bytes;
  sg_tcp_options : bytes;
  sg_payload : bytes;
  sg_padding : bytes;                   (* behind the IPv4 total length *)
}.

(** A 16-bit field, most significant byte first. *)
Definition wire16 (v : Z) : bytes := [z2b (v / 256); z2b v].

Definition ip_total_length (p : segment) : Z :=
  40 + len (sg_ip_options p) + len (sg_tcp_options p) + len (sg_payload p).

Definition ethernet_header (p : segment) : bytes :=
  sg_macs p
  ++ match sg_vlan p with
     | None => []
     | Some (provider, tci) => wire16 (if provider then 0x88A8 else 0x8100) ++ tci
     end
  ++ wire16 0x0800.

Definition ipv4_header (p : segment) : bytes :=
  [z2b (4 * 16 + (5 + len (sg_ip_options p) / 4)); sg_tos p]
  ++ wire16 (ip_total_length p) ++ sg_ident p
  ++ [z2b (sg_ip_flags p * 64); x00; sg_ttl p; x06] ++ sg_ip_checksum p
  ++ sg_source p ++ sg_destination p.

Definition tcp_header (p : segment) : bytes :=
  wire16 (sg_source_port p) ++ wire16 (sg_destination_port p) ++ sg_seq_ack p
  ++ [z2b ((5 + len (sg_tcp_options p) / 4) * 16 + sg_reserved p); sg_flags p]
  ++ sg_window_checksum_urgent p.

Definition wire_packet (p : segment) : bytes :=
  ethernet_header p ++ ipv4_header p ++ sg_ip_options p ++ tcp_header p
  ++ sg_tcp_options p ++ sg_payload p ++ sg_padding p.

Definition header_options (l : bytes) : Prop := (4 | len l) /\ len l <= 40.

(** Every field has the size its header gives it, and the total length is a
    16-bit number. *)
Record wf_segment (p : segment) : Prop := mkWfSegment {
  wf_macs : length (sg_macs p) = 12%nat;
  wf_vlan : forall provider tci, sg_vlan p = Some (provider, tci) -> length tci = 2%nat;
  wf_ident : length (sg_ident p) = 2%nat;
  wf_ip_flags : 0 <= sg_ip_flags p < 4;
  wf_ip_checksum : length (sg_ip_checksum p) = 2%nat;
  wf_source : length (sg_source p) = 4%nat;
  wf_destination : length (sg_destination p) = 4%nat;
  wf_ip_options : header_options (sg_ip_options p);
  wf_source_port : 0 <= sg_source_port p < 2 ^ 16;
  wf_destination_port : 0 <= sg_destination_port p < 2 ^ 16;
  wf_seq_ack : length (sg_seq_ack p) = 8%nat;
  wf_reserved : 0 <= sg_reserved p < 16;
  wf_window : length (sg_window_checksum_urgent p) = 6%nat;
  wf_tcp_options : header_options (sg_tcp_options p);
  wf_total : ip_total_length p < 2 ^ 16;
}.

Definition dotted (l : bytes) : bytes :=
  match map (fun b => show_unsigned (b2z b)) l with
  | [a; b; c; d] => a ++ str "." ++ b ++ str "." ++ c ++ str "." ++ d
  | _ => []
  end.

Definition summary_of (p : segment) : PacketSummary :=
  mkSummary true (match sg_vlan p with Some _ => true | None => false end)
    (dotted (sg_source p)) (dotted (sg_destination p))
    (sg_source_port p) (sg_destination_port p) (b2z (sg_flags p)) [].

Definition ex_segment : segment :=
  mkSegment (replicate 12 x02) (Some (false, [x00; x07])) x00 [x12; x34] 1 x40 [x00; x00]
    [x0a; x00; x00; x01] [xc0; xa8; x01; xfe] [x01; x01; x01; x00] 50000 443
    (replicate 8 x11) 0 x12 (replicate 6 x00) [x02; x04; x05; xb4] (str "hi") [x00].

Example decode_ex_segment :
  decode_ethernet_ipv4_tcp (wire_packet ex_segment) = Done (summary_of ex_segment).
Proof. vm_compute. reflexivity. Qed.

(** ** Reads *)

Lemma byte_at_app pre l k : byte_at (pre ++ l) (length pre + k) = byte_at l k.
Proof. unfold byte_at. by rewrite lookup_app_r, Nat.add_sub_swap, Nat.sub_diag by lia. Qed.

Lemma byte_at_lt l k : (k < length l)%nat -> exists b, byte_at l k = Done (b2z b) /\ l !! k = Some b.
Proof.
  intros [b Hb]%lookup_lt_is_Some. exists b. unfold byte_at. by rewrite Hb.
Qed.

Lemma word_arith high low :
  u16 (Z.lor (Z.shiftl (b2z high) 8) (b2z low)) = b2z high * 256 + b2z low.
Proof.
  pose proof (b2z_range high). pose proof (b2z_range low).
  rewrite lor_shiftl_add by lia. apply Z.mod_small. lia.
Qed.

Lemma read_u16_app pre l k : read_u16 (pre ++ l) (length pre + k) = read_u16 l k.
Proof. unfold read_u16. by rewrite <- Nat.add_assoc, !byte_at_app. Qed.

Lemma read_u16_cells l k high low :
  l !! k = Some high -> l !! S k = Some low -> read_u16 l k = Done (b2z high * 256 + b2z low).
Proof.
  intros H1 H2. unfold read_u16, byte_at. rewrite Nat.add_1_r, H1, H2. simpl.
  by rewrite word_arith.
Qed.

Lemma read_u16_lt l k :
  (S k < length l)%nat -> exists v, read_u16 l k = Done v /\ 0 <= v < 2 ^ 16.
Proof.
  intros Hk. destruct (byte_at_lt l k) as (a & _ & Ha); [lia|].
  destruct (byte_at_lt l (S k)) as (b & _ & Hb); [lia|].
  rewrite (read_u16_cells _ _ _ _ Ha Hb). eexists. split; [done|].
  pose proof (b2z_range a). pose proof (b2z_range b). lia.
Qed.

Lemma format_ipv4_app pre l k : format_ipv4 (pre ++ l) (length pre + k) = format_ipv4 l k.
Proof.
  unfold format_ipv4. cbn [format_ipv4_from Nat.eqb].
  by rewrite <- !Nat.add_assoc, !byte_at_app.
Qed.

Lemma format_ipv4_cells l k a b c d :
  l !! k = Some a -> l !! S k = Some b -> l !! S (S k) = Some c -> l !! S (S (S k)) = Some d ->
  format_ipv4 l k = Done (dotted [a; b; c; d]).
Proof.
  intros Ha Hb Hc Hd. unfold format_ipv4, byte_at. cbn [format_ipv4_from Nat.eqb].
  unfold byte_at. rewrite Nat.add_0_r, (Nat.add_comm k 1), (Nat.add_comm k 2), (Nat.add_comm k 3).
  simpl Nat.add. rewrite Ha, Hb, Hc, Hd. cbn [obind]. f_equal. simpl. by rewrite <- !app_assoc.
Qed.

Lemma format_ipv4_lt l k : (k + 3 < length l)%nat -> exists s, format_ipv4 l k = Done s.
Proof.
  intros Hk.
  destruct (byte_at_lt l k) as (a & _ & Ha); [lia|].
  destruct (byte_at_lt l (S k)) as (b & _ & Hb); [lia|].
  destruct (byte_at_lt l (S (S k))) as (c & _ & Hc); [lia|].
  destruct (byte_at_lt l (S (S (S k)))) as (d & _ & Hd); [lia|].
  rewrite (format_ipv4_cells _ _ _ _ _ _ Ha Hb Hc Hd). eauto.
Qed.

(** The IPv4 decoder looks only at what follows the Ethernet header. *)
Lemma decode_ipv4_shift pre l tagged :
  decode_ipv4_tcp (pre ++ l) tagged (length pre) = decode_ipv4_tcp l tagged 0.
Proof.
  assert (Hlt : forall n, (length (pre ++ l) <? length pre + n)%nat = (length l <? n)%nat).
  { intros n. rewrite length_app.
    destruct (Nat.ltb_spec (length pre + length l) (length pre + n)),
      (Nat.ltb_spec (length l) n); try done; lia. }
  assert (Hgt : forall a b, (length pre + a <? length pre + b)%nat = (a <? b)%nat).
  { intros a b.
    destruct (Nat.ltb_spec (length pre + a) (length pre + b)), (Nat.ltb_spec a b); try done; lia. }
  unfold decode_ipv4_tcp. cbn [Nat.add].
  replace (byte_at (pre ++ l) (length pre)) with (byte_at l 0)
    by (by rewrite <- (byte_at_app pre l 0), Nat.add_0_r).
  rewrite Hlt. case_if; [done|]. destruct (byte_at l 0) as [v| | | |]; try done. cbn [obind].
  case_if; [done|]. rewrite Hlt. case_if; [done|]. rewrite read_u16_app.
  destruct (read_u16 l 2) as [t| | | |]; try done. cbn [obind].
  rewrite Hlt. case_if; [done|]. rewrite byte_at_app.
  destruct (byte_at l 9) as [q| | | |]; try done. cbn [obind]. case_if; [done|].
  rewrite read_u16_app. destruct (read_u16 l 6) as [f| | | |]; try done. cbn [obind].
  case_if; [done|]. rewrite <- !Nat.add_assoc, !byte_at_app.
  destruct (byte_at l (Z.to_nat (Z.land v 15) * 4 + 12)) as [o| | | |]; try done. cbn [obind].
  rewrite <- !Nat.add_assoc, Hgt. case_if; [done|]. by rewrite !format_ipv4_app, !read_u16_app.
Qed.

(** ** Memory safety *)

(** Runs the decoder's next read, which is inside the packet. *)
Ltac in_bounds :=
  match goal with
  | |- context [obind (byte_at ?l ?k) _] =>
      let b := fresh "b" in
      destruct (byte_at_lt l k) as (b & -> & _); [lia|cbn [obind]]
  | |- context [obind (read_u16 ?l ?k) _] =>
      let v := fresh "v" in
      destruct (read_u16_lt l k) as (v & -> & ?); [lia|cbn [obind]]
  | |- context [obind (format_ipv4 ?l ?k) _] =>
      let s := fresh "s" in
      destruct (format_ipv4_lt l k) as (s & ->); [lia|cbn [obind]]
  end.

(** Facts about [nat] tests. *)
Ltac reflect_nats :=
  repeat match goal with
  | H : orb _ _ = false |- _ => apply orb_false_iff in H as [? ?]
  | H : (_ <? _)%nat = false |- _ => apply Nat.ltb_ge in H
  | H : (_ <? _)%nat = true |- _ => apply Nat.ltb_lt in H
  end.

Lemma decode_ipv4_returns l tagged : exists s, decode_ipv4_tcp l tagged 0 = Done s.
Proof.
  unfold decode_ipv4_tcp. cbn [Nat.add].
  repeat (case_if; [by eexists|reflect_nats; repeat in_bounds]). by eexists.
Qed.

Lemma split_at (l : bytes) n :
  (n <= length l)%nat -> exists pre post, l = pre ++ post /\ length pre = n.
Proof.
  intros Hn. exists (take n l), (drop n l). rewrite take_drop. split; [done|].
  by apply length_take_le.
Qed.

Lemma decode_ipv4_at packet tagged n :
  (n <= length packet)%nat ->
  exists l pre, packet = pre ++ l /\ length pre = n
    /\ decode_ipv4_tcp packet tagged n = decode_ipv4_tcp l tagged 0.
Proof.
  intros (pre & l & -> & <-)%split_at. exists l, pre. split; [done|]. split; [done|].
  apply decode_ipv4_shift.
Qed.

Lemma decode_returns packet : exists s, decode_ethernet_ipv4_tcp packet = Done s.
Proof.
  unfold decode_ethernet_ipv4_tcp. case_if; [by eexists|]. reflect_nats. in_bounds.
  destruct ((v =? 0x8100) || (v =? 0x88A8)); cbn [andb].
  - case_if; [by eexists|]. reflect_nats. in_bounds. case_if; [by eexists|].
    destruct (decode_ipv4_at packet true 18) as (l & pre & _ & _ & ->); [done|].
    apply decode_ipv4_returns.
  - cbn [obind]. case_if; [by eexists|].
    destruct (decode_ipv4_at packet false 14) as (l & pre & _ & _ & ->); [done|].
    apply decode_ipv4_returns.
Qed.

(** ** The decoder accepts exactly the encoded segments *)

Definition ipv4_bytes (p : segment) : bytes :=
  ipv4_header p ++ sg_ip_options p ++ tcp_header p
  ++ sg_tcp_options p ++ sg_payload p ++ sg_padding p.

Lemma wire_packet_split p : wire_packet p = ethernet_header p ++ ipv4_bytes p.
Proof. done. Qed.

(** A list of known length is its elements. *)
Ltac cells l :=
  match goal with
  | H : length l = _ |- _ =>
      repeat (let c := fresh "c" in let t := fresh "t" in
              destruct l as [|c l]; [try discriminate H|simpl in H; try discriminate H]);
      clear H
  end.

Lemma header_words l :
  header_options l ->
  exists k, len l = 4 * k /\ len l / 4 = k /\ 0 <= k <= 10 /\ length l = (Z.to_nat k * 4)%nat.
Proof.
  intros [[k Hk] Hl]. exists k. pose proof (len_nonneg l).
  assert (len l / 4 = k) by (rewrite Hk; apply Z.div_mul; lia).
  unfold len in *. repeat split; lia.
Qed.

Lemma nibbles h l : 0 <= h < 16 -> 0 <= l < 16 ->
  Z.shiftr (b2z (z2b (h * 16 + l))) 4 = h /\ Z.land (b2z (z2b (h * 16 + l))) 15 = l.
Proof.
  intros Hh Hl. rewrite b2z_z2b, Z.mod_small by lia.
  change 15 with (Z.ones 4). rewrite Z.land_ones, Z.shiftr_div_pow2 by lia.
  change (2 ^ 4) with 16. split; div_lia.
Qed.

Lemma wire16_value v : 0 <= v < 2 ^ 16 -> b2z (z2b (v / 256)) * 256 + b2z (z2b v) = v.
Proof. intros. rewrite !b2z_z2b. div_lia. Qed.

Lemma fragment_bits f : 0 <= f < 4 ->
  Z.land (b2z (z2b (f * 64)) * 256 + b2z x00) 16383 = 0.
Proof.
  intros Hf. rewrite b2z_z2b, Z.mod_small by lia. change 16383 with (Z.ones 14).
  rewrite Z.land_ones by lia. change (b2z x00) with 0. change (2 ^ 14) with (64 * 256).
  rewrite Z.add_0_r, <- Z.mul_assoc. by apply Z.mod_mul.
Qed.

(** What the decoder has read when it accepts: the header bytes [v] (version
    and length), [o] (data offset) and [fl] (flags), and the numbers and texts
    of the other fields. *)
Record accepts (l : bytes) (v o fl : byte) (n f sp dp : Z) (src dst : bytes) : Prop := mkAccepts {
  ac_version : l !! 0%nat = Some v;
  ac_four : Z.shiftr (b2z v) 4 = 4;
  ac_ihl : (20 <= Z.to_nat (Z.land (b2z v) 15) * 4)%nat;
  ac_total : read_u16 l 2 = Done n;
  ac_length : (Z.to_nat n <= length l)%nat;
  ac_protocol : l !! 9%nat = Some x06;
  ac_fragment : read_u16 l 6 = Done f;
  ac_whole : Z.land f 16383 = 0;
  ac_offset : l !! (Z.to_nat (Z.land (b2z v) 15) * 4 + 12)%nat = Some o;
  ac_words : (20 <= Z.to_nat (Z.shiftr (b2z o) 4) * 4)%nat;
  ac_fits : (Z.to_nat (Z.land (b2z v) 15) * 4 + Z.to_nat (Z.shiftr (b2z o) 4) * 4
             <= Z.to_nat n)%nat;
  ac_source : format_ipv4 l 12 = Done src;
  ac_destination : format_ipv4 l 16 = Done dst;
  ac_source_port : read_u16 l (Z.to_nat (Z.land (b2z v) 15) * 4) = Done sp;
  ac_destination_port : read_u16 l (Z.to_nat (Z.land (b2z v) 15) * 4 + 2) = Done dp;
  ac_flags : l !! (Z.to_nat (Z.land (b2z v) 15) * 4 + 13)%nat = Some fl;
}.

Lemma decode_ipv4_accepts l tagged v o fl n f sp dp src dst :
  accepts l v o fl n f sp dp src dst ->
  decode_ipv4_tcp l tagged 0 = Done (mkSummary true tagged src dst sp dp (b2z fl) []).
Proof.
  intros [Hv H4 Hihl Hn Hlen Hp Hf Hw Ho Hwo Hfit Hs Hd Hsp Hdp Hfl].
  unfold decode_ipv4_tcp. cbn [Nat.add].
  rewrite (proj2 (Nat.ltb_ge _ _)) by lia. unfold byte_at. rewrite Hv. cbn [obind].
  rewrite H4. cbn [Z.eqb Pos.eqb negb].
  rewrite !(proj2 (Nat.ltb_ge _ _)) by lia. cbn [orb]. rewrite Hn. cbn [obind].
  rewrite !(proj2 (Nat.ltb_ge _ _)) by lia. cbn [orb]. rewrite Hp. cbn [obind].
  change (negb (b2z x06 =? 6)) with false. cbv iota. rewrite Hf. cbn [obind].
  rewrite Hw. cbn [Z.eqb negb]. rewrite Ho. cbn [obind].
  rewrite !(proj2 (Nat.ltb_ge _ _)) by lia. cbn [orb].
  rewrite Hs, Hd, Hsp, Hdp, Hfl. done.
Qed.

(** The next read of the decoder in a hypothesis, by name. *)
Ltac read_step H :=
  match type of H with
  | obind (byte_at ?l ?k) _ = _ =>
      let b := fresh "b" in let E := fresh "E" in
      destruct (byte_at_lt l k) as (b & E & ?); [lia|rewrite E in H; clear E; cbn [obind] in H]
  | obind (read_u16 ?l ?k) _ = _ =>
      let E := fresh "E" in destruct (read_u16 l k) eqn:E; try discriminate H; cbn [obind] in H
  | obind (format_ipv4 ?l ?k) _ = _ =>
      let E := fresh "E" in destruct (format_ipv4 l k) eqn:E; try discriminate H; cbn [obind] in H
  end.

Lemma decode_ipv4_accepted l tagged s :
  decode_ipv4_tcp l tagged 0 = Done s -> ps_valid s = true ->
  exists v o fl n f sp dp src dst,
    accepts l v o fl n f sp dp src dst
    /\ s = mkSummary true tagged src dst sp dp (b2z fl) [].
Proof.
  unfold decode_ipv4_tcp. cbn [Nat.add]. intros H Hs.
  repeat (match type of H with (if ?b then _ else _) = _ =>
            destruct b eqn:?; [injection H as <-; discriminate Hs|] end;
          reflect_nats; reflect_bools; repeat read_step H).
  injection H as <-.
  repeat eexists; eauto; try lia.
  match goal with H : b2z ?b = 6 |- _ => by replace b with x06 in * by (by apply b2z_inj) end.
Qed.

Lemma ipv4_header_length p : wf_segment p -> length (ipv4_header p) = 20%nat.
Proof.
  intros Hp. unfold ipv4_header, wire16. rewrite !length_app. simpl length.
  by rewrite (wf_ident p), (wf_ip_checksum p), (wf_source p), (wf_destination p).
Qed.

Lemma tcp_header_length p : wf_segment p -> length (tcp_header p) = 20%nat.
Proof.
  intros Hp. unfold tcp_header, wire16. rewrite !length_app. simpl length.
  by rewrite (wf_seq_ack p), (wf_window p).
Qed.

Lemma lookup_header p k b :
  ipv4_header p !! k = Some b -> ipv4_bytes p !! k = Some b.
Proof. intros H. unfold ipv4_bytes. rewrite lookup_app_l; [done|by eapply lookup_lt_Some]. Qed.

Lemma lookup_tcp p n k b :
  wf_segment p -> n = (20 + length (sg_ip_options p) + k)%nat ->
  tcp_header p !! k = Some b -> ipv4_bytes p !! n = Some b.
Proof.
  intros Hp -> H. unfold ipv4_bytes.
  rewrite lookup_app_r by (rewrite ipv4_header_length by done; lia).
  rewrite lookup_app_r by (rewrite ipv4_header_length by done; lia).
  rewrite ipv4_header_length by done.
  replace (20 + length (sg_ip_options p) + k - 20 - length (sg_ip_options p))%nat with k by lia.
  rewrite lookup_app_l; [done|by eapply lookup_lt_Some].
Qed.

Lemma read_u16_wire l k v :
  0 <= v < 2 ^ 16 -> l !! k = Some (z2b (v / 256)) -> l !! S k = Some (z2b v) ->
  read_u16 l k = Done v.
Proof. intros Hv H1 H2. by rewrite (read_u16_cells _ _ _ _ H1 H2), wire16_value. Qed.

Lemma ip_total_length_nat p :
  Z.to_nat (ip_total_length p)
  = (40 + length (sg_ip_options p) + length (sg_tcp_options p) + length (sg_payload p))%nat.
Proof. unfold ip_total_length, len. lia. Qed.

Lemma ipv4_bytes_length p :
  wf_segment p ->
  length (ipv4_bytes p)
  = (40 + length (sg_ip_options p) + length (sg_tcp_options p) + length (sg_payload p)
     + length (sg_padding p))%nat.
Proof.
  intros Hp. unfold ipv4_bytes. rewrite !length_app, ipv4_header_length, tcp_header_length by done.
  lia.
Qed.

Lemma cells2 (l : bytes) : length l = 2%nat -> exists a b, l = [a; b].
Proof. intros H. cells l. eauto. Qed.
Lemma cells4 (l : bytes) : length l = 4%nat -> exists a b c d, l = [a; b; c; d].
Proof. intros H. cells l. eauto. Qed.
Lemma cells8 (l : bytes) :
  length l = 8%nat -> exists a b c d e f g h, l = [a; b; c; d; e; f; g; h].
Proof. intros H. cells l. by repeat eexists. Qed.

Lemma ipv4_bytes_accepts p :
  wf_segment p ->
  accepts (ipv4_bytes p)
    (z2b (4 * 16 + (5 + len (sg_ip_options p) / 4)))
    (z2b ((5 + len (sg_tcp_options p) / 4) * 16 + sg_reserved p)) (sg_flags p)
    (ip_total_length p) (b2z (z2b (sg_ip_flags p * 64)) * 256 + b2z x00)
    (sg_source_port p) (sg_destination_port p)
    (dotted (sg_source p)) (dotted (sg_destination p)).
Proof.
  intros Hp.
  destruct (header_words _ (wf_ip_options p Hp)) as (i & _ & Hi4 & Hi & Hilen).
  destruct (header_words _ (wf_tcp_options p Hp)) as (t & _ & Ht4 & Ht & Htlen).
  destruct (nibbles 4 (5 + i)) as [Hv4 Hvl]; [lia..|].
  destruct (nibbles (5 + t) (sg_reserved p)) as [Ho4 _]; [lia|by apply wf_reserved|].
  assert (Hihl : (Z.to_nat (5 + i) * 4 = 20 + length (sg_ip_options p))%nat) by lia.
  destruct (cells8 _ (wf_seq_ack p Hp)) as (? & ? & ? & ? & ? & ? & ? & ? & Hsa).
  destruct (cells2 _ (wf_ident p Hp)) as (? & ? & Hid).
  destruct (cells2 _ (wf_ip_checksum p Hp)) as (? & ? & Hck).
  destruct (cells4 _ (wf_source p Hp)) as (? & ? & ? & ? & Hsrc).
  destruct (cells4 _ (wf_destination p Hp)) as (? & ? & ? & ? & Hdst).
  pose proof (lookup_tcp p) as Htcp.
  assert (Hh : forall k b, ipv4_header p !! k = Some b -> ipv4_bytes p !! k = Some b)
    by (intros; by apply lookup_header).
  unfold ipv4_header in Hh. rewrite Hid, Hck, Hsrc, Hdst, Hi4 in Hh.
  rewrite Hsrc, Hdst, Hi4, Ht4.
  split; rewrite ?Hvl, ?Hv4, ?Ho4, ?Hihl; try lia.
  - by apply Hh.
  - apply read_u16_wire; [|by apply Hh..].
    pose proof (wf_total p Hp). unfold ip_total_length, len in *. lia.
  - rewrite ip_total_length_nat, ipv4_bytes_length by done. lia.
  - by apply Hh.
  - apply read_u16_cells; by apply Hh.
  - apply fragment_bits, (wf_ip_flags p Hp).
  - eapply Htcp; [done|done|]. unfold tcp_header. by rewrite Hsa, Ht4.
  - rewrite ip_total_length_nat. lia.
  - apply format_ipv4_cells; by apply Hh.
  - apply format_ipv4_cells; by apply Hh.
  - eapply read_u16_wire; [apply (wf_source_port p Hp)| |]; (eapply Htcp; [done| |]).
    + by rewrite Nat.add_0_r.
    + done.
    + by rewrite <- Nat.add_1_r.
    + done.
  - eapply read_u16_wire; [apply (wf_destination_port p Hp)| |]; (eapply Htcp; [done| |]).
    + done.
    + done.
    + by rewrite <- Nat.add_succ_r.
    + done.
  - eapply Htcp; [done|done|]. unfold tcp_header. by rewrite Hsa.
Qed.

Lemma wire16_cells a b : wire16 (b2z a * 256 + b2z b) = [a; b].
Proof.
  pose proof (b2z_range a). pose proof (b2z_range b). unfold wire16.
  f_equal; [|f_equal]; rewrite <- (z2b_b2z a) at 2 || rewrite <- (z2b_b2z b) at 2; apply z2b_eq; div_lia.
Qed.

Lemma u16_pair_range a b : 0 <= b2z a * 256 + b2z b < 2 ^ 16.
Proof. pose proof (b2z_range a). pose proof (b2z_range b). lia. Qed.

Lemma byte_nibbles b :
  b2z b = Z.shiftr (b2z b) 4 * 16 + Z.land (b2z b) 15
  /\ 0 <= Z.shiftr (b2z b) 4 < 16 /\ 0 <= Z.land (b2z b) 15 < 16.
Proof.
  pose proof (b2z_range b). change 15 with (Z.ones 4).
  rewrite Z.land_ones, Z.shiftr_div_pow2 by lia. change (2 ^ 4) with 16. div_lia.
Qed.

Lemma whole_fragment f1 f2 :
  Z.land (b2z f1 * 256 + b2z f2) 16383 = 0 ->
  f2 = x00 /\ z2b (b2z f1 / 64 * 64) = f1 /\ 0 <= b2z f1 / 64 < 4.
Proof.
  pose proof (b2z_range f1). pose proof (b2z_range f2).
  change 16383 with (Z.ones 14). rewrite Z.land_ones by lia. intros Hm.
  assert (b2z f2 = 0) by div_lia. split; [by apply b2z_inj|]. split; [|div_lia].
  rewrite <- (z2b_b2z f1) at 2. f_equal. div_lia.
Qed.

Lemma options_of (l : bytes) (w : Z) :
  0 <= w < 16 -> (20 + length l = Z.to_nat w * 4)%nat ->
  header_options l /\ 5 + len l / 4 = w.
Proof.
  intros Hw Hl. assert (len l = (w - 5) * 4) as E by (unfold len; lia).
  unfold header_options. rewrite E, Z.div_mul by lia. split; [split; [by eexists|lia]|lia].
Qed.

(** An accepted packet in pieces. *)
Lemma accepts_split l v o fl n f sp dp src dst :
  accepts l v o fl n f sp dp src dst ->
  exists h options t toptions payload padding,
    l = h ++ options ++ t ++ toptions ++ payload ++ padding
    /\ length h = 20%nat /\ length t = 20%nat
    /\ (20 + length options = Z.to_nat (Z.land (b2z v) 15) * 4)%nat
    /\ (20 + length toptions = Z.to_nat (Z.shiftr (b2z o) 4) * 4)%nat
    /\ Z.to_nat n = (40 + length options + length toptions + length payload)%nat.
Proof.
  intros [_ _ Hihl _ Hlen _ _ _ _ Hw Hfit _ _ _ _ _].
  set (hl := (Z.to_nat (Z.land (b2z v) 15) * 4)%nat) in *.
  set (tl := (Z.to_nat (Z.shiftr (b2z o) 4) * 4)%nat) in *.
  destruct (split_at l 20) as (h & r & -> & Hh); [lia|]. rewrite length_app in Hlen.
  destruct (split_at r (hl - 20)) as (options & r1 & -> & Ho); [lia|]. rewrite length_app in Hlen.
  destruct (split_at r1 20) as (t & r2 & -> & Ht); [lia|]. rewrite length_app in Hlen.
  destruct (split_at r2 (tl - 20)) as (toptions & r3 & -> & Hto); [lia|]. rewrite length_app in Hlen.
  destruct (split_at r3 (Z.to_nat n - hl - tl)) as (payload & padding & -> & Hp); [lia|].
  exists h, options, t, toptions, payload, padding. split; [done|]. repeat split; lia.
Qed.

Lemma read_u16_Done l k v :
  read_u16 l k = Done v ->
  exists a b, l !! k = Some a /\ l !! S k = Some b /\ v = b2z a * 256 + b2z b.
Proof.
  unfold read_u16, byte_at. rewrite Nat.add_1_r.
  destruct (l !! k) as [a|]; [|done]. destruct (l !! S k) as [b|]; [|done]. simpl.
  rewrite word_arith. intros [= <-]. eauto.
Qed.

Lemma lookup_behind (pre mid post : bytes) n k :
  length pre = 20%nat -> n = (20 + length mid + k)%nat -> (pre ++ mid ++ post) !! n = post !! k.
Proof.
  intros Hp ->. rewrite lookup_app_r by lia. rewrite lookup_app_r by lia. f_equal. lia.
Qed.

Lemma accepted_segment l v o fl n f sp dp src dst macs vlan :
  accepts l v o fl n f sp dp src dst -> length macs = 12%nat ->
  (forall provider tci, vlan = Some (provider, tci) -> length tci = 2%nat) ->
  exists p, wf_segment p /\ l = ipv4_bytes p /\ sg_macs p = macs /\ sg_vlan p = vlan
    /\ dotted (sg_source p) = src /\ dotted (sg_destination p) = dst
    /\ sg_source_port p = sp /\ sg_destination_port p = dp /\ sg_flags p = fl.
Proof.
  intros Ha Hm Hvl.
  destruct (accepts_split _ _ _ _ _ _ _ _ _ _ Ha)
    as (h & options & t & toptions & payload & padding & -> & Hh & Ht & Hho & Hto & Hn).
  destruct Ha as [Hv H4 _ Htot Hlen Hproto Hf Hwhole Ho _ Hfit Hsrc Hdst Hsp Hdp Hfl].
  rewrite <- Hho in *.
  rewrite (lookup_behind _ _ _ _ 12) in Ho by lia.
  rewrite (lookup_behind _ _ _ _ 13) in Hfl by lia.
  destruct (byte_nibbles v) as (Ev & _ & Hvr). destruct (byte_nibbles o) as (Eo & Hor & Hor').
  destruct (options_of options _ Hvr) as [Hopts Hw]; [lia|].
  destruct (options_of toptions _ Hor) as [Htopts Htw]; [lia|].
  apply read_u16_Done in Htot as (n1 & n2 & Hn1 & Hn2 & ->).
  apply read_u16_Done in Hf as (f1 & f2 & Hf1 & Hf2 & ->).
  apply read_u16_Done in Hsp as (p1 & p2 & Hp1 & Hp2 & ->).
  apply read_u16_Done in Hdp as (q1 & q2 & Hq1 & Hq2 & ->).
  rewrite (lookup_behind _ _ _ _ 0) in Hp1 by lia. rewrite (lookup_behind _ _ _ _ 1) in Hp2 by lia.
  rewrite (lookup_behind _ _ _ _ 2) in Hq1 by lia. rewrite (lookup_behind _ _ _ _ 3) in Hq2 by lia.
  apply whole_fragment in Hwhole as (-> & Hff & Hfr).
  cells h. cells t.
  injection Hv as ->. injection Hn1 as ->. injection Hn2 as ->. injection Hf1 as ->.
  injection Hf2 as ->. injection Hproto as ->. injection Ho as ->. injection Hfl as ->.
  injection Hp1 as ->. injection Hp2 as ->. injection Hq1 as ->. injection Hq2 as ->.
  assert (Htl : ip_total_length (mkSegment macs vlan c0 [c3; c4] (b2z f1 / 64) c7 [c9; c10]
    [c11; c12; c13; c14] [c15; c16; c17; c18] options (b2z p1 * 256 + b2z p2)
    (b2z q1 * 256 + b2z q2) [c23; c24; c25; c26; c27; c28; c29; c30] (Z.land (b2z o) 15) fl
    [c33; c34; c35; c36; c37; c38] toptions payload padding) = b2z n1 * 256 + b2z n2).
  { pose proof (b2z_range n1). pose proof (b2z_range n2).
    unfold ip_total_length, len. simpl sg_ip_options. simpl sg_tcp_options. simpl sg_payload. lia. }
  rewrite (format_ipv4_cells _ _ c11 c12 c13 c14) in Hsrc by done. injection Hsrc as <-.
  rewrite (format_ipv4_cells _ _ c15 c16 c17 c18) in Hdst by done. injection Hdst as <-.
  match type of Htl with ip_total_length ?p = _ => exists p end.
  split; [|split; [|by repeat split]].
  - split; try exact Hopts; try exact Htopts; try exact Hm; try exact Hvl; try reflexivity;
      try exact Hfr; try exact Hor'; try apply u16_pair_range.
    rewrite Htl. apply u16_pair_range.
  - unfold ipv4_bytes, ipv4_header, tcp_header. rewrite Htl.
    cbn [sg_tos sg_ident sg_ip_flags sg_ttl sg_ip_checksum sg_source sg_destination
         sg_ip_options sg_source_port sg_destination_port sg_seq_ack sg_reserved sg_flags
         sg_window_checksum_urgent sg_tcp_options sg_payload sg_padding].
    rewrite !wire16_cells, Hw, Htw, Hff. rewrite H4 in Ev. by rewrite <- Ev, <- Eo, !z2b_b2z.
Qed.

(** ** Frames *)

Lemma ethernet_header_reads p rest :
  wf_segment p ->
  length (ethernet_header p) = (match sg_vlan p with Some _ => 18 | None => 14 end)%nat
  /\ read_u16 (ethernet_header p ++ rest) 12
     = Done (match sg_vlan p with
             | Some (provider, _) => if provider then 0x88A8 else 0x8100
             | None => 0x0800
             end)
  /\ (sg_vlan p <> None -> read_u16 (ethernet_header p ++ rest) 16 = Done 0x0800).
Proof.
  intros Hp. pose proof (wf_macs p Hp) as Hm. pose proof (wf_vlan p Hp) as Hv.
  unfold ethernet_header. destruct (sg_macs p) as [|m0 m]; [done|].
  destruct (sg_vlan p) as [[provider tci]|].
  - specialize (Hv _ _ eq_refl). destruct (cells2 _ Hv) as (t0 & t1 & ->).
    simpl in Hm. injection Hm as Hm. cells m. by destruct provider.
  - injection Hm as Hm. cells m. done.
Qed.

Lemma decode_wire_packet p :
  wf_segment p -> decode_ethernet_ipv4_tcp (wire_packet p) = Done (summary_of p).
Proof.
  intros Hp. rewrite wire_packet_split.
  destruct (ethernet_header_reads p (ipv4_bytes p) Hp) as (Hlen & Hr & Hr16).
  pose proof (decode_ipv4_accepts _ (match sg_vlan p with Some _ => true | None => false end)
    _ _ _ _ _ _ _ _ _ (ipv4_bytes_accepts p Hp)) as Hd.
  rewrite <- (decode_ipv4_shift (ethernet_header p)), Hlen in Hd.
  unfold decode_ethernet_ipv4_tcp. rewrite Hr, length_app, Hlen. cbn [obind].
  unfold summary_of. destruct (sg_vlan p) as [[provider tci]|].
  - specialize (Hr16 ltac:(done)). rewrite !(proj2 (Nat.ltb_ge _ _)) by lia.
    destruct provider; cbn [Z.eqb Pos.eqb orb andb]; rewrite Hr16; cbn [obind Z.eqb Pos.eqb negb];
      apply Hd.
  - rewrite (proj2 (Nat.ltb_ge _ _)) by lia. apply Hd.
Qed.

Lemma read_wire16 l k v :
  read_u16 l k = Done v -> exists a b, l !! k = Some a /\ l !! S k = Some b /\ [a; b] = wire16 v.
Proof. intros (a & b & Ha & Hb & ->)%read_u16_Done. rewrite wire16_cells. eauto. Qed.

Lemma accepted_frame macs vlan l s :
  length macs = 12%nat ->
  (forall provider tci, vlan = Some (provider, tci) -> length tci = 2%nat) ->
  decode_ipv4_tcp l (match vlan with Some _ => true | None => false end) 0 = Done s ->
  ps_valid s = true ->
  exists p, wf_segment p /\ s = summary_of p
    /\ macs ++ match vlan with
               | None => []
               | Some (provider, tci) => wire16 (if provider : bool then 0x88A8 else 0x8100) ++ tci
               end ++ wire16 0x0800 ++ l = wire_packet p.
Proof.
  intros Hmacs Hvlan Hd Hs.
  apply decode_ipv4_accepted in Hd as (v & o & fl & n & f & sp & dp & src & dst & Ha & ->); [|done].
  apply (accepted_segment _ _ _ _ _ _ _ _ _ _ macs vlan) in Ha
    as (p & Hp & -> & Hmac & Hv & <- & <- & <- & <- & <-); [|done..].
  exists p. split; [done|]. split; [unfold summary_of; by rewrite Hv|].
  rewrite wire_packet_split. unfold ethernet_header. rewrite Hmac, Hv, <- !app_assoc.
  by destruct vlan as [[provider tci]|]; rewrite <- ?app_assoc.
Qed.

(** A list with known elements behind its first [n]. *)
Lemma split_pair (l : bytes) n a b :
  l !! n = Some a -> l !! S n = Some b -> l = take n l ++ [a; b] ++ drop (S (S n)) l.
Proof.
  intros Ha Hb. rewrite <- (take_drop n l) at 1. f_equal.
  by rewrite (drop_S l a n), (drop_S l b (S n)).
Qed.

Lemma decode_valid_segment packet s :
  decode_ethernet_ipv4_tcp packet = Done s -> ps_valid s = true ->
  exists p, wf_segment p /\ packet = wire_packet p /\ s = summary_of p.
Proof.
  unfold decode_ethernet_ipv4_tcp. intros H Hs.
  destruct (length packet <? 14)%nat eqn:Hlen; [by injection H as <-|]. reflect_nats.
  destruct (read_u16 packet 12) as [ty| | | |] eqn:Hty; try done. cbn [obind] in H.
  apply read_wire16 in Hty as (a & b & Ha & Hb & Hab).
  pose proof (split_pair _ _ _ _ Ha Hb) as Hsplit. rewrite Hab in Hsplit.
  assert (Hmacs : length (take 12 packet) = 12%nat) by (rewrite length_take_le; lia).
  destruct ((ty =? 0x8100) || (ty =? 0x88A8)) eqn:Htag; cbn [andb] in H.
  - destruct (length packet <? 18)%nat eqn:Hlen2; [by injection H as <-|]. reflect_nats.
    destruct (read_u16 packet 16) as [ty2| | | |] eqn:Hty2; try done. cbn [obind] in H.
    destruct (Z.eqb_spec ty2 0x0800) as [->|]; [|by injection H as <-]. cbn [negb] in H.
    apply read_wire16 in Hty2 as (c & d & Hc & Hd & Hcd).
    destruct (decode_ipv4_at packet true 18) as (l & pre & Hpk & Hpre & E); [lia|].
    rewrite E in H.
    destruct (accepted_frame (take 12 packet) (Some (ty =? 0x88A8, take 2 (drop 14 packet))) l s)
      as (p & Hp & -> & Hw); [done| |done|done|].
    { intros ? ? [= <- <-]. rewrite length_take_le; [done|]. rewrite length_drop. lia. }
    exists p. split; [done|]. split; [|done]. rewrite <- Hw.
    assert ((if ty =? 0x88A8 then 0x88A8 else 0x8100) = ty) as ->
      by (destruct (Z.eqb_spec ty 0x88A8), (Z.eqb_spec ty 0x8100); simpl in Htag; congruence).
    rewrite Hsplit at 1. f_equal. rewrite <- app_assoc. f_equal.
    rewrite (split_pair (drop 14 packet) 2 c d) at 1 by (by rewrite lookup_drop).
    f_equal. rewrite Hcd, drop_drop, Hpk. by rewrite drop_app_length'.
  - cbn [obind] in H. destruct (Z.eqb_spec ty 0x0800) as [->|]; [|by injection H as <-].
    cbn [negb] in H.
    destruct (decode_ipv4_at packet false 14) as (l & pre & Hpk & Hpre & E); [lia|].
    rewrite E in H.
    destruct (accepted_frame (take 12 packet) None l s) as (p & Hp & -> & Hw); try done.
    exists p. split; [done|]. split; [|done]. rewrite <- Hw.
    rewrite Hsplit at 1. f_equal. cbn [app]. f_equal. f_equal.
    rewrite Hpk, drop_app_length' by done. done.
Qed.

(** ** Hexadecimal text *)

Definition hex_nibble (c : byte) : option Z :=
  if hex_value c <? 0 then None else Some (hex_value c).

Fixpoint pair_nibbles (l : list Z) : option bytes :=
  match l with
  | [] => Some []
  | high :: low :: l => cons (z2b (high * 16 + low)) <$> pair_nibbles l
  | [_] => None
  end.

(** The reference reader: drop the separators, read every character as a
    digit, pair the digits up; anything else is the empty result. *)
Definition hex_reference (text : bytes) : bytes :=
  default [] (mapM hex_nibble (filter (fun c => is_hex_separator c = false) text)
              ≫= pair_nibbles).

Lemma hex_value_range c : -1 <= hex_value c < 16.
Proof.
  pose proof (b2z_range c). unfold hex_value.
  repeat case_if; reflect_bools; lia.
Qed.

Lemma parse_hex_from_reference text :
  (forall out, parse_hex_from text (-1) out
     = default [] (app out <$> (mapM hex_nibble (filter (fun c => is_hex_separator c = false) text)
                   ≫= pair_nibbles)))
  /\ (forall high out, 0 <= high < 16 -> parse_hex_from text high out
     = default [] (app out <$> (mapM hex_nibble (filter (fun c => is_hex_separator c = false) text)
                   ≫= fun l => pair_nibbles (high :: l)))).
Proof.
  induction text as [|c text [IH1 IH2]].
  - split; [intros out; simpl; by rewrite app_nil_r|]. intros high out Hh. simpl.
    by rewrite (proj2 (Z.geb_le _ _)) by lia.
  - cbn [parse_hex_from]. rewrite filter_cons. destruct (is_hex_separator c) eqn:Hsep.
    + rewrite decide_False by done. by split.
    + rewrite decide_True by done. cbn [mapM].
      assert (hex_nibble c = if hex_value c <? 0 then None else Some (hex_value c)) as -> by done.
      pose proof (hex_value_range c). destruct (Z.ltb_spec (hex_value c) 0) as [|Hv]; [by split|].
      split.
      * intros out. cbn [Z.ltb Z.compare]. rewrite IH2 by lia.
        by destruct (mapM hex_nibble _).
      * intros high out Hh. rewrite (proj2 (Z.ltb_ge _ _)), IH1 by lia.
        destruct (mapM hex_nibble _) as [l|]; [|done]. simpl.
        rewrite lor_shiftl_add by lia. change (2 ^ 4) with 16.
        destruct (pair_nibbles l); [|done]. simpl. by rewrite <- app_assoc.
Qed.

Definition to_hex (l : bytes) : bytes :=
  concat (map (fun b => [hex_digit (b2z b / 16); hex_digit (b2z b mod 16)]) l).

Lemma parse_hex_is_reference text : parse_hex_bytes text = hex_reference text.
Proof.
  unfold parse_hex_bytes, hex_reference. rewrite (proj1 (parse_hex_from_reference text)).
  by destruct (_ ≫= pair_nibbles).
Qed.

Lemma hex_digit_reads d :
  0 <= d < 16 -> hex_nibble (hex_digit d) = Some d /\ is_hex_separator (hex_digit d) = false.
Proof.
  intros Hd. rewrite <- (Z2Nat.id d) by lia.
  assert (Z.to_nat d < 16)%nat as Hn by lia. revert Hn. generalize (Z.to_nat d) as n.
  intros n Hn. do 16 (destruct n as [|n]; [by split; vm_compute|]). lia.
Qed.

Lemma hex_roundtrip l : hex_reference (to_hex l) = l.
Proof.
  unfold hex_reference, to_hex.
  assert (H : mapM hex_nibble (filter (fun c => is_hex_separator c = false)
      (concat (map (fun b => [hex_digit (b2z b / 16); hex_digit (b2z b mod 16)]) l)))
      ≫= pair_nibbles = Some l); [|by rewrite H].
  induction l as [|b l IH]; [done|]. simpl concat. pose proof (b2z_range b).
  destruct (hex_digit_reads (b2z b / 16)) as [Hh Sh]; [div_lia|].
  destruct (hex_digit_reads (b2z b mod 16)) as [Hl Sl]; [div_lia|].
  rewrite !filter_cons, !decide_True by done. cbn [mapM]. rewrite Hh, Hl.
  destruct (mapM hex_nibble _) as [ns|]; [|done]. simpl in IH |- *. rewrite IH. simpl.
  do 2 f_equal. rewrite <- (z2b_b2z b) at 3. f_equal. div_lia.
Qed.

Lemma ipv4_error_iff l tagged s :
  decode_ipv4_tcp l tagged 0 = Done s -> ps_valid s = true <-> ps_error s = [].
Proof.
  unfold decode_ipv4_tcp. cbn [Nat.add].
  repeat (case_if; [by intros [= <-]|reflect_nats; repeat in_bounds]). by intros [= <-].
Qed.

Lemma decode_error_iff packet s :
  decode_ethernet_ipv4_tcp packet = Done s -> ps_valid s = true <-> ps_error s = [].
Proof.
  unfold decode_ethernet_ipv4_tcp. case_if; [by intros [= <-]|]. reflect_nats. in_bounds.
  destruct ((v =? 0x8100) || (v =? 0x88A8)); cbn [andb].
  - case_if; [by intros [= <-]|]. reflect_nats. in_bounds. case_if; [by intros [= <-]|].
    destruct (decode_ipv4_at packet true 18) as (l & pre & _ & _ & ->); [done|].
    apply ipv4_error_iff.
  - cbn [obind]. case_if; [by intros [= <-]|].
    destruct (decode_ipv4_at packet false 14) as (l & pre & _ & _ & ->); [done|].
    apply ipv4_error_iff.
Qed.

(** ** Properties *)

(** C16: the decoder accepts exactly the TCP segments.  A frame decodes as valid
    if and only if it is the wire form of a well-formed segment (with or without
    a VLAN tag, IPv4 and TCP options, payload and Ethernet padding), and the
    summary then holds that segment's addresses, ports and flags. *)
Theorem decode_accepts_exactly_segments packet s :
  (decode_ethernet_ipv4_tcp packet = Done s /\ ps_valid s = true)
  <-> exists p, wf_segment p /\ packet = wire_packet p /\ s = summary_of p.
Proof.
  split.
  - intros [H Hs]. by apply decode_valid_segment.
  - intros (p & Hp & -> & ->). by rewrite decode_wire_packet.
Qed.

(** The decoder stays inside the packet.  On every input, of any length,
    the decoder returns without reading past the end of the span, and the
    summary carries an error text exactly when it is not valid. *)
Theorem decode_stays_in_bounds packet :
  exists s, decode_ethernet_ipv4_tcp packet = Done s
            /\ (ps_valid s = true <-> ps_error s = []).
Proof.
  destruct (decode_returns packet) as [s Hs]. exists s. split; [done|].
  by eapply decode_error_iff.
Qed.

(** Hexadecimal input.  [parse_hex_bytes] equals the reference reader on
    every text: separators are ignored, and a character that is no digit or an
    odd number of digits gives the empty result; and the bytes of any packet
    are read back from their hexadecimal text. *)
Theorem parse_hex_bytes_reference text l :
  parse_hex_bytes text = hex_reference text /\ parse_hex_bytes (to_hex l) = l.
Proof. by rewrite !parse_hex_is_reference, hex_roundtrip. Qed.

(** The packet program.  Whatever the arguments are, the program terminates
    without undefined behaviour, with an empty standard error exactly when it
    exits with status 0, and it exits with status 0 exactly when its single
    argument is hexadecimal text of a well-formed segment. *)
Theorem packet_main_exit argv :
  exists r, packet_main argv = Done r
    /\ (ex_status r = 0 <-> ex_stderr r = [])
    /\ (ex_status r = 0 <->
        exists name text p, argv = [name; text] /\ wf_segment p
                            /\ hex_reference text = wire_packet p).
Proof.
  destruct argv as [|name [|text [|]]]; simpl;
    try (eexists; split; [done|]; split; [done|]; split; [done|];
         by intros (? & ? & ? & [=] & _)).
  rewrite parse_hex_is_reference. destruct (hex_reference text) as [|b l] eqn:Hhex.
  - eexists; split; [done|]; split; [done|]; split; [done|].
    intros (? & ? & p & [= <- <-] & Hp & E). rewrite Hhex in E.
    apply (f_equal length) in E. rewrite wire_packet_split, length_app in E.
    rewrite ipv4_bytes_length in E by done. simpl in E. lia.
  - cbn [is_empty]. destruct (decode_returns (b :: l)) as [s Hs]. rewrite Hs. cbn [obind].
    destruct (ps_valid s) eqn:Hv; cbn [negb].
    + eexists; split; [done|]; split; [done|]; split; [|done]. intros _.
      destruct (decode_valid_segment _ _ Hs Hv) as (p & Hp & E & _). exists name, text, p. 
      by rewrite Hhex.
    + eexists; split; [done|]; split; [split; [done|]|split; [done|]].
      * by destruct (ps_error s).
      * intros (? & ? & p & [= <- <-] & Hp & E). rewrite Hhex in E. rewrite E in Hs.
        rewrite decode_wire_packet in Hs by done. by injection Hs as <-.
Qed.
