(* ===== verification/OrderBook.v ===== *)
(** * The order book ([capstone/matching/solution-reference/src/order_book.cpp])

    A book for one symbol keeps the resting orders of each side in price levels,
    best price first, and the ids of the live orders.  [std::map] is the list of
    its entries in key order, [std::deque] a list, [std::unordered_map] a finite
    map.  [front()] of an empty deque is undefined behaviour.

    The specification ([abook]) forgets the levels: a side is one list of orders
    in priority order, matching consumes it from the front, a resting order is
    inserted behind every order of the same or a better price. *)

From stdpp Require Import base gmap list sorting strings.
From Stdlib Require Import Strings.Byte ZArith Lia.
From S2P Require Import Prelude.

(** ** Data ([order.hpp]) *)

Inductive Side := buy | sell.
Inductive TimeInForce := good_till_cancel | immediate_or_cancel.

#[global] Instance side_eq_decision : EqDecision Side.
Proof. solve_decision. Defined.
#[global] Instance tif_eq_decision : EqDecision TimeInForce.
Proof. solve_decision. Defined.

Record Order := mkOrder {
  o_id : Z;
  o_symbol : bytes;
  o_side : Side;
  o_price_ticks : Z;
  o_quantity : Z;
  o_sequence : Z;
  o_tif : TimeInForce;
}.

Record Fill := mkFill {
  f_taker_id : Z;
  f_maker_id : Z;
  f_taker_side : Side;
  f_price_ticks : Z;
  f_quantity : Z;
  f_sequence : Z;
}.

Record Ack := mkAck {
  a_order_id : Z;
  a_accepted : bool;
  a_remaining : Z;
  a_reason : bytes;
}.

Definition with_quantity (o : Order) (quantity : Z) : Order :=
  mkOrder (o_id o) (o_symbol o) (o_side o) (o_price_ticks o) quantity (o_sequence o) (o_tif o).

(** ** Price levels *)

(** The entries of a [std::map<std::int64_t, Level, Compare>], in order. *)
Definition levels : Type := list (Z * list Order).

(** [map[price].orders.push_back(order)]; [before] is the map's comparison. *)
Fixpoint push_level (before : Z -> Z -> bool) (price : Z) (order : Order) (m : levels) : levels :=
  match m with
  | [] => [(price, [order])]
  | (p, orders) :: rest =>
      if before price p then (price, [order]) :: m
      else if before p price then (p, orders) :: push_level before price order rest
      else (p, orders ++ [order]) :: rest
  end.

(** [std::find_if] for the id and [erase] of what it finds, in one deque. *)
Fixpoint erase_id (order_id : Z) (orders : list Order) : option (list Order) :=
  match orders with
  | [] => None
  | o :: rest =>
      if o_id o =? order_id then Some rest
      else match erase_id order_id rest with
           | Some rest => Some (o :: rest)
           | None => None
           end
  end.

(** The loop of [cancel] over the levels of one side. *)
Fixpoint cancel_levels (order_id : Z) (m : levels) : option levels :=
  match m with
  | [] => None
  | (p, orders) :: rest =>
      match erase_id order_id orders with
      | Some [] => Some rest
      | Some orders => Some ((p, orders) :: rest)
      | None =>
          match cancel_levels order_id rest with
          | Some rest => Some ((p, orders) :: rest)
          | None => None
          end
      end
  end.

(** ** The book *)

Record OrderBook := mkBook {
  symbol_ : bytes;
  bids_ : levels;
  asks_ : levels;
  live_orders_ : gmap Z Side;
}.

Definition new_book (symbol : bytes) : OrderBook := mkBook symbol [] [] ∅.

(** [std::greater<>] and [std::less<>]. *)
Definition bids_before (a b : Z) : bool := a >? b.
Definition asks_before (a b : Z) : bool := a <? b.

Definition crosses (order : Order) (maker_price : Z) : bool :=
  match o_side order with
  | buy => maker_price <=? o_price_ticks order
  | sell => maker_price >=? o_price_ticks order
  end.

(** One turn of the matching loop against a side of the book: [None] when the
    loop breaks. *)
Definition match_front (order : Order) (remaining : Z) (m : levels) (live : gmap Z Side)
    (fills : list Fill) : outcome (option (Z * levels * gmap Z Side * list Fill)) :=
  match m with
  | [] => Done None
  | (price, orders) :: rest =>
      if negb (crosses order price) then Done None
      else match orders with
      | [] => Undefined
      | maker :: queue =>
          let traded := Z.min remaining (o_quantity maker) in
          let fills := fills ++ [mkFill (o_id order) (o_id maker) (o_side order)
                                   (o_price_ticks maker) traded (o_sequence order)] in
          let remaining := u64 (remaining - traded) in
          let maker := with_quantity maker (u64 (o_quantity maker - traded)) in
          if o_quantity maker =? 0 then
            let live := delete (o_id maker) live in
            match queue with
            | [] => Done (Some (remaining, rest, live, fills))
            | _ :: _ => Done (Some (remaining, (price, queue) :: rest, live, fills))
            end
          else Done (Some (remaining, (price, maker :: queue) :: rest, live, fills))
      end
  end.

(** The [while (remaining > 0U)] loop. *)
Fixpoint match_loop (fuel : nat) (order : Order) (remaining : Z) (b : OrderBook)
    (fills : list Fill) : outcome (Z * OrderBook * list Fill) :=
  match fuel with
  | O => OutOfFuel
  | S fuel =>
      if remaining >? 0 then
        match o_side order with
        | buy =>
            let* turn := match_front order remaining (asks_ b) (live_orders_ b) fills in
            match turn with
            | None => Done (remaining, b, fills)
            | Some (remaining, asks, live, fills) =>
                match_loop fuel order remaining (mkBook (symbol_ b) (bids_ b) asks live) fills
            end
        | sell =>
            let* turn := match_front order remaining (bids_ b) (live_orders_ b) fills in
            match turn with
            | None => Done (remaining, b, fills)
            | Some (remaining, bids, live, fills) =>
                match_loop fuel order remaining (mkBook (symbol_ b) bids (asks_ b) live) fills
            end
        end
      else Done (remaining, b, fills)
  end.

(** The resting orders of a side, best first. *)
Definition flat (m : levels) : list Order := concat (map snd m).

(** Every turn of the loop removes a maker or finishes the order. *)
Definition match_fuel (b : OrderBook) : nat :=
  S (S (length (flat (bids_ b)) + length (flat (asks_ b)))).

(** [emplace] keeps an existing entry. *)
Definition emplace (id : Z) (side : Side) (live : gmap Z Side) : gmap Z Side :=
  match live !! id with Some _ => live | None => <[id := side]> live end.

Definition rest_order (order : Order) (b : OrderBook) : OrderBook :=
  match o_side order with
  | buy => mkBook (symbol_ b) (push_level bids_before (o_price_ticks order) order (bids_ b))
             (asks_ b) (emplace (o_id order) (o_side order) (live_orders_ b))
  | sell => mkBook (symbol_ b) (bids_ b)
              (push_level asks_before (o_price_ticks order) order (asks_ b))
              (emplace (o_id order) (o_side order) (live_orders_ b))
  end.

Definition submit (order : Order) (b : OrderBook) (fills : list Fill)
  : outcome (Ack * OrderBook * list Fill) :=
  let reject reason := Done (mkAck (o_id order) false 0 (str reason), b, fills) in
  if negb (bool_decide (o_symbol order = symbol_ b)) then reject "symbol mismatch"
  else if (o_id order =? 0) || (o_quantity order =? 0) || (o_price_ticks order <=? 0)
  then reject "invalid order"
  else if bool_decide (is_Some (live_orders_ b !! o_id order))
  then reject "duplicate live order id"
  else
    let* (remaining, b, fills) := match_loop (match_fuel b) order (o_quantity order) b fills in
    let b := if (remaining >? 0) && bool_decide (o_tif order = good_till_cancel)
             then rest_order (with_quantity order remaining) b else b in
    Done (mkAck (o_id order) true remaining (str "accepted"), b, fills).

Definition cancel (order_id : Z) (b : OrderBook) : bool * OrderBook :=
  match live_orders_ b !! order_id with
  | None => (false, b)
  | Some buy =>
      match cancel_levels order_id (bids_ b) with
      | Some bids => (true, mkBook (symbol_ b) bids (asks_ b) (delete order_id (live_orders_ b)))
      | None => (false, b)
      end
  | Some sell =>
      match cancel_levels order_id (asks_ b) with
      | Some asks => (true, mkBook (symbol_ b) (bids_ b) asks (delete order_id (live_orders_ b)))
      | None => (false, b)
      end
  end.

Definition best_bid (b : OrderBook) : option Z := fst <$> head (bids_ b).
Definition best_ask (b : OrderBook) : option Z := fst <$> head (asks_ b).
Definition resting_orders (b : OrderBook) : Z := Z.of_nat (base.size (live_orders_ b)).

(** ** The specification: sides as priority lists *)

Record abook := mkAbook { ab_bids : list Order; ab_asks : list Order }.

Definition ids (l : list Order) : list Z := map o_id l.

Definition trade (order maker : Order) (traded : Z) : Fill :=
  mkFill (o_id order) (o_id maker) (o_side order) (o_price_ticks maker) traded (o_sequence order).

(** Matching consumes the priority list from the front while the order has a
    remainder and the front crosses its limit. *)
Fixpoint match_list (order : Order) (remaining : Z) (makers : list Order)
  : Z * list Order * list Fill :=
  match makers with
  | [] => (remaining, [], [])
  | maker :: rest =>
      if (0 <? remaining) && crosses order (o_price_ticks maker) then
        if o_quantity maker <=? remaining then
          let '(r, makers, fills) := match_list order (remaining - o_quantity maker) rest in
          (r, makers, trade order maker (o_quantity maker) :: fills)
        else (0, with_quantity maker (o_quantity maker - remaining) :: rest,
              [trade order maker remaining])
      else (remaining, makers, [])
  end.

(** Behind every order of the same or a better price. *)
Fixpoint insert_priority (before : Z -> Z -> bool) (order : Order) (l : list Order) : list Order :=
  match l with
  | [] => [order]
  | o :: rest =>
      if before (o_price_ticks order) (o_price_ticks o) then order :: l
      else o :: insert_priority before order rest
  end.

Definition spec_rest (order : Order) (a : abook) : abook :=
  match o_side order with
  | buy => mkAbook (insert_priority bids_before order (ab_bids a)) (ab_asks a)
  | sell => mkAbook (ab_bids a) (insert_priority asks_before order (ab_asks a))
  end.

Definition spec_match (order : Order) (a : abook) : Z * abook * list Fill :=
  match o_side order with
  | buy => let '(r, asks, fills) := match_list order (o_quantity order) (ab_asks a) in
           (r, mkAbook (ab_bids a) asks, fills)
  | sell => let '(r, bids, fills) := match_list order (o_quantity order) (ab_bids a) in
            (r, mkAbook bids (ab_asks a), fills)
  end.

Definition spec_submit (symbol : bytes) (order : Order) (a : abook) : Ack * abook * list Fill :=
  let reject reason := (mkAck (o_id order) false 0 (str reason), a, []) in
  if negb (bool_decide (o_symbol order = symbol)) then reject "symbol mismatch"
  else if (o_id order =? 0) || (o_quantity order =? 0) || (o_price_ticks order <=? 0)
  then reject "invalid order"
  else if bool_decide (o_id order ∈ ids (ab_bids a ++ ab_asks a))
  then reject "duplicate live order id"
  else
    let '(r, a, fills) := spec_match order a in
    (mkAck (o_id order) true r (str "accepted"),
     if (0 <? r) && bool_decide (o_tif order = good_till_cancel)
     then spec_rest (with_quantity order r) a else a,
     fills).

Definition without (order_id : Z) (l : list Order) : list Order :=
  filter (fun o => o_id o <> order_id) l.

Definition spec_cancel (order_id : Z) (a : abook) : bool * abook :=
  (bool_decide (order_id ∈ ids (ab_bids a ++ ab_asks a)),
   mkAbook (without order_id (ab_bids a)) (without order_id (ab_asks a))).

Definition abstract (b : OrderBook) : abook := mkAbook (flat (bids_ b)) (flat (asks_ b)).

(** ** The invariant *)

(** A strict total order of prices. *)
Class PriceOrder (before : Z -> Z -> bool) := {
  before_irrefl : forall a, before a a = false;
  before_trans : forall a b c, before a b = true -> before b c = true -> before a c = true;
  before_total : forall a b, before a b = false -> before b a = false -> a = b;
}.

#[global] Program Instance bids_price_order : PriceOrder bids_before.
Next Obligation. intros a. unfold bids_before. rewrite Z.gtb_ltb. apply Z.ltb_irrefl. Qed.
Next Obligation. unfold bids_before. intros. reflect_bools. rewrite Z.gtb_ltb. apply Z.ltb_lt. lia. Qed.
Next Obligation. unfold bids_before. intros. reflect_bools. lia. Qed.

#[global] Program Instance asks_price_order : PriceOrder asks_before.
Next Obligation. intros a. apply Z.ltb_irrefl. Qed.
Next Obligation. unfold asks_before. intros. reflect_bools. apply Z.ltb_lt. lia. Qed.
Next Obligation. unfold asks_before. intros. reflect_bools. lia. Qed.

Record order_ok (symbol : bytes) (side : Side) (price : Z) (o : Order) : Prop := mkOrderOk {
  ok_symbol : o_symbol o = symbol;
  ok_side : o_side o = side;
  ok_price : o_price_ticks o = price;
  ok_positive : 0 < price;
  ok_id : o_id o <> 0;
  ok_quantity : 0 < o_quantity o < 2 ^ 64;
}.

Definition level_ok (symbol : bytes) (side : Side) (l : Z * list Order) : Prop :=
  snd l <> [] /\ Forall (order_ok symbol side (fst l)) (snd l).

Definition levels_ok (before : Z -> Z -> bool) (symbol : bytes) (side : Side) (m : levels) : Prop :=
  StronglySorted (fun a b => before (fst a) (fst b) = true) m /\ Forall (level_ok symbol side) m.

(** The live map holds exactly the ids of the resting orders, with their side,
    and no two resting orders share an id. *)
Definition live_ok (live : gmap Z Side) (bids asks : list Order) : Prop :=
  NoDup (ids (bids ++ asks))
  /\ forall id side, live !! id = Some side <->
       match side with buy => id ∈ ids bids | sell => id ∈ ids asks end.

(** No resting bid reaches a resting ask. *)
Definition uncrossed (bids asks : list Order) : Prop :=
  forall bid ask, bid ∈ bids -> ask ∈ asks -> o_price_ticks bid < o_price_ticks ask.

Record wf_book (b : OrderBook) : Prop := mkWfBook {
  wf_bids : levels_ok bids_before (symbol_ b) buy (bids_ b);
  wf_asks : levels_ok asks_before (symbol_ b) sell (asks_ b);
  wf_live : live_ok (live_orders_ b) (flat (bids_ b)) (flat (asks_ b));
  wf_uncrossed : uncrossed (flat (bids_ b)) (flat (asks_ b));
}.

Lemma new_book_wf symbol : wf_book (new_book symbol).
Proof.
  split; [by split; constructor..| |]; simpl.
  - split; [constructor|]. intros id [|]; rewrite lookup_empty, elem_of_nil; split; done.
  - intros bid ask H. by apply elem_of_nil in H.
Qed.

(** ** Lemmas on levels *)

Lemma flat_cons p orders m : flat ((p, orders) :: m) = orders ++ flat m.
Proof. done. Qed.

Lemma levels_ok_cons before symbol side p orders m :
  levels_ok before symbol side ((p, orders) :: m) <->
  levels_ok before symbol side m /\ level_ok symbol side (p, orders)
  /\ Forall (fun l => before p (fst l) = true) m.
Proof.
  unfold levels_ok. rewrite Forall_cons. split.
  - intros [Hs [Hl Hf]]. apply StronglySorted_inv in Hs as [Hs Hall]. done.
  - intros ((Hs & Hf) & Hl & Hall). split; [by constructor|done].
Qed.

Lemma flat_in before symbol side m o :
  levels_ok before symbol side m -> o ∈ flat m ->
  exists p, order_ok symbol side p o /\ p ∈ map fst m.
Proof.
  intros [_ Hf] Ho. unfold flat in Ho. induction Hf as [|[p orders] m [_ Hl] Hf IH]; simpl in *.
  - by apply elem_of_nil in Ho.
  - apply elem_of_app in Ho as [Ho|Ho].
    + exists p. split; [by eapply Forall_forall in Hl|by left].
    + destruct (IH Ho) as (q & Hq & Hin). exists q. split; [done|by right].
Qed.

Lemma push_level_prices (P : Z -> Prop) before price order m :
  Forall (fun l => P (fst l)) m -> P price ->
  Forall (fun l => P (fst l)) (push_level before price order m).
Proof.
  intros Hm Hp. induction Hm as [|[p orders] m Hl Hm IH]; simpl.
  - by apply Forall_singleton.
  - repeat case_if; repeat apply Forall_cons_2; done.
Qed.

Lemma push_level_ok before symbol side order m :
  PriceOrder before -> levels_ok before symbol side m ->
  order_ok symbol side (o_price_ticks order) order ->
  levels_ok before symbol side (push_level before (o_price_ticks order) order m).
Proof.
  intros Hpo Hm Ho. set (price := o_price_ticks order) in *.
  assert (Hone : level_ok symbol side (price, [order]))
    by (split; [done|by apply Forall_singleton]).
  induction m as [|[p orders] m IH]; [by apply levels_ok_cons|].
  pose proof Hm as (Hm' & [Hne Hl] & Hall)%levels_ok_cons. cbn [push_level].
  destruct (before price p) eqn:Hb; [|destruct (before p price) eqn:Hb'].
  - apply levels_ok_cons. split; [done|]. split; [done|]. apply Forall_cons_2; [done|].
    eapply Forall_impl; [exact Hall|]. intros l. by apply before_trans.
  - apply levels_ok_cons. split; [by apply IH|]. split; [done|].
    by apply (push_level_prices (fun q => before p q = true)).
  - assert (price = p) as -> by (by apply (before_total (before := before))).
    apply levels_ok_cons. split; [done|]. split; [|done]. split; [by destruct orders|].
    apply Forall_app. split; [done|by apply Forall_singleton].
Qed.

Lemma insert_priority_skip before order l k :
  Forall (fun o => before (o_price_ticks order) (o_price_ticks o) = false) l ->
  insert_priority before order (l ++ k) = l ++ insert_priority before order k.
Proof. induction 1 as [|o l Ho Hl IH]; simpl; [done|]. by rewrite Ho, IH. Qed.

Lemma insert_priority_front before symbol side order m :
  levels_ok before symbol side m ->
  Forall (fun l => before (o_price_ticks order) (fst l) = true) m ->
  insert_priority before order (flat m) = order :: flat m.
Proof.
  intros Hm Hall. destruct m as [|[p orders] m]; [done|].
  apply levels_ok_cons in Hm as (_ & [Hne Hl] & _). apply Forall_cons in Hall as [Hp _].
  rewrite flat_cons. destruct orders as [|o orders]; [done|]. simpl in *.
  apply Forall_cons in Hl as [Ho _]. by rewrite (ok_price _ _ _ _ Ho), Hp.
Qed.

(** Adding to a level is inserting behind the orders of the same price. *)
Lemma push_level_flat before symbol side order m :
  PriceOrder before -> levels_ok before symbol side m ->
  flat (push_level before (o_price_ticks order) order m) = insert_priority before order (flat m).
Proof.
  intros Hpo. set (price := o_price_ticks order).
  assert (Hskip : forall p orders, before price p = false ->
    Forall (order_ok symbol side p) orders ->
    Forall (fun o => before price (o_price_ticks o) = false) orders).
  { intros p orders Hb Hl. eapply Forall_impl; [exact Hl|]. intros o Ho.
    by rewrite (ok_price _ _ _ _ Ho). }
  induction m as [|[p orders] m IH]; [done|].
  intros Hm. pose proof Hm as (Hm' & [Hne Hl] & Hall)%levels_ok_cons. cbn [push_level].
  destruct (before price p) eqn:Hb; [|destruct (before p price) eqn:Hb'].
  - rewrite (insert_priority_front _ symbol side); [done|done|].
    apply Forall_cons_2; [done|]. eapply Forall_impl; [exact Hall|]. intros l. by apply before_trans.
  - rewrite !flat_cons, IH by done. by rewrite insert_priority_skip by by eapply Hskip.
  - assert (price = p) as Ep by (by apply (before_total (before := before))).
    rewrite !flat_cons, insert_priority_skip by (by eapply Hskip).
    rewrite (insert_priority_front _ symbol side), <- app_assoc; [done|done|].
    fold price. by rewrite Ep.
Qed.

Lemma without_app order_id l k : without order_id (l ++ k) = without order_id l ++ without order_id k.
Proof. apply filter_app. Qed.

Lemma without_absent order_id l : order_id ∉ ids l -> without order_id l = l.
Proof.
  unfold without. induction l as [|o l IH]; [done|]. simpl. rewrite not_elem_of_cons.
  intros [Ho Hl]. rewrite filter_cons, decide_True by auto. by rewrite IH.
Qed.

Lemma erase_id_without order_id orders :
  NoDup (ids orders) ->
  erase_id order_id orders
  = if decide (order_id ∈ ids orders) then Some (without order_id orders) else None.
Proof.
  unfold without. induction orders as [|o orders IH]; [done|]. simpl.
  intros [Hn Hd]%NoDup_cons. rewrite filter_cons. destruct (Z.eqb_spec (o_id o) order_id) as [E|E].
  - subst order_id. rewrite decide_True by (by left). rewrite decide_False by auto. f_equal.
    symmetry. by apply without_absent.
  - rewrite IH by done. rewrite (decide_True (P := o_id o <> order_id)) by done.
    destruct (decide (order_id ∈ ids orders)) as [Hin|Hin].
    + by rewrite decide_True by (by right).
    + rewrite decide_False; [done|]. rewrite elem_of_cons. intros [?|?]; congruence.
Qed.

Lemma erase_levels_ok before symbol side p orders orders' m :
  levels_ok before symbol side ((p, orders) :: m) -> orders' <> [] ->
  Forall (order_ok symbol side p) orders' ->
  levels_ok before symbol side ((p, orders') :: m).
Proof. rewrite !levels_ok_cons. intros (Hm & _ & Hall) Hne Hf. done. Qed.

Lemma ids_app l k : ids (l ++ k) = ids l ++ ids k.
Proof. apply map_app. Qed.

Lemma cancel_levels_spec before symbol side order_id m :
  levels_ok before symbol side m -> NoDup (ids (flat m)) ->
  if decide (order_id ∈ ids (flat m))
  then exists m', cancel_levels order_id m = Some m' /\ flat m' = without order_id (flat m)
                  /\ levels_ok before symbol side m'
                  /\ (forall P : Z -> Prop, Forall (fun l => P (fst l)) m ->
                        Forall (fun l => P (fst l)) m')
  else cancel_levels order_id m = None.
Proof.
  induction m as [|[p orders] m IH]; [done|]. intros Hm.
  pose proof Hm as (Hm' & [Hne Hl] & Hall)%levels_ok_cons.
  rewrite flat_cons, ids_app. intros (Hd1 & Hdis & Hd2)%NoDup_app.
  specialize (IH Hm' Hd2). cbn [cancel_levels]. rewrite erase_id_without by done.
  destruct (decide (order_id ∈ ids orders)) as [Hin|Hin].
  - rewrite decide_True by (apply elem_of_app; by left).
    assert (Hrest : without order_id (flat m) = flat m) by (apply without_absent, Hdis, Hin).
    assert (Hf : Forall (order_ok symbol side p) (without order_id orders))
      by (rewrite Forall_forall in Hl |- *; intros o [_ Ho]%list_elem_of_filter; by apply Hl).
    destruct (without order_id orders) as [|o os] eqn:Hw.
    + exists m. rewrite without_app, Hw, Hrest. repeat split; [by apply Hm'..|].
      by intros P [_ ?]%Forall_cons.
    + exists ((p, o :: os) :: m). rewrite without_app, Hw, Hrest.
      split; [done|]. split; [done|]. split; [by eapply erase_levels_ok|].
      intros P [? ?]%Forall_cons. by apply Forall_cons_2.
  - destruct (decide (order_id ∈ ids (flat m))) as [Hin'|Hin'].
    + rewrite decide_True by (apply elem_of_app; by right).
      destruct IH as (m' & -> & Hflat & Hok & HP). exists ((p, orders) :: m').
      split; [done|]. rewrite !flat_cons, without_app, (without_absent _ orders), Hflat by done.
      split; [done|]. split.
      { apply levels_ok_cons. split; [done|]. split; [done|].
        by apply (HP (fun q => before p q = true)). }
      intros P [? ?]%Forall_cons. apply Forall_cons_2; auto.
    + rewrite decide_False by (rewrite elem_of_app; by intros [?|?]). by rewrite IH.
Qed.

(** ** Matching *)

(** The loop of [submit], on the side of the book it works on. *)
Fixpoint match_levels (fuel : nat) (order : Order) (remaining : Z) (m : levels)
    (live : gmap Z Side) (fills : list Fill) : outcome (Z * levels * gmap Z Side * list Fill) :=
  match fuel with
  | O => OutOfFuel
  | S fuel =>
      if remaining >? 0 then
        let* turn := match_front order remaining m live fills in
        match turn with
        | None => Done (remaining, m, live, fills)
        | Some (remaining, m, live, fills) => match_levels fuel order remaining m live fills
        end
      else Done (remaining, m, live, fills)
  end.

Lemma match_loop_levels fuel order remaining b fills :
  match_loop fuel order remaining b fills =
  match o_side order with
  | buy =>
      let* (r, asks, live, fills) :=
        match_levels fuel order remaining (asks_ b) (live_orders_ b) fills in
      Done (r, mkBook (symbol_ b) (bids_ b) asks live, fills)
  | sell =>
      let* (r, bids, live, fills) :=
        match_levels fuel order remaining (bids_ b) (live_orders_ b) fills in
      Done (r, mkBook (symbol_ b) bids (asks_ b) live, fills)
  end.
Proof.
  revert remaining b fills. induction fuel as [|fuel IH]; intros remaining [s bs ks lv] fills;
    cbn [match_loop match_levels]; [by destruct (o_side order)|].
  destruct (remaining >? 0); [|by destruct (o_side order)].
  destruct (o_side order); cbn [asks_ bids_ live_orders_ symbol_];
    destruct (match_front _ _ _ _ _) as [[[[[r m] live] fs]|]| | | |]; cbn [obind]; try done;
    by rewrite IH.
Qed.

(** One turn on the front of the priority list. *)
Lemma match_front_spec before symbol side order remaining m live fills :
  levels_ok before symbol side m -> 0 < remaining < 2 ^ 64 ->
  match flat m with
  | [] => match_front order remaining m live fills = Done None
  | maker :: rest =>
      if crosses order (o_price_ticks maker) then
        let traded := Z.min remaining (o_quantity maker) in
        let gone := o_quantity maker <=? remaining in
        exists m', match_front order remaining m live fills
          = Done (Some (remaining - traded, m', if gone then delete (o_id maker) live else live,
                        fills ++ [trade order maker traded]))
          /\ levels_ok before symbol side m'
          /\ flat m' = if gone then rest
                       else with_quantity maker (o_quantity maker - traded) :: rest
      else match_front order remaining m live fills = Done None
  end.
Proof.
  intros Hm Hr. destruct m as [|[p [|maker queue]] m]; [done| |].
  - by apply levels_ok_cons in Hm as (_ & [? _] & _).
  - pose proof Hm as (Hm' & [_ Hl] & Hall)%levels_ok_cons. simpl in Hl.
    apply Forall_cons in Hl as [Hmk Hq]. pose proof (ok_quantity _ _ _ _ Hmk).
    rewrite flat_cons. cbn [app match_front].
    replace (crosses order (o_price_ticks maker)) with (crosses order p)
      by (by rewrite (ok_price _ _ _ _ Hmk)).
    destruct (crosses order p); [|done]. cbn [negb].
    rewrite !u64_small by lia. unfold with_quantity at 1 2. cbn [o_quantity o_id].
    fold (trade order maker (Z.min remaining (o_quantity maker))).
    destruct (Z.leb_spec (o_quantity maker) remaining) as [Hle|Hgt].
    + rewrite Z.min_r by lia. rewrite Z.sub_diag. cbn [Z.eqb].
      destruct queue as [|o queue].
      * by exists m.
      * exists ((p, o :: queue) :: m).
        split; [done|]. split; [|done]. by eapply erase_levels_ok.
    + rewrite Z.min_l by lia. rewrite (proj2 (Z.eqb_neq _ _)) by lia.
      eexists. split; [done|]. split; [|done].
      eapply erase_levels_ok; [done|done|]. apply Forall_cons_2; [|done].
      destruct Hmk. split; simpl; try done; lia.
Qed.

(** The live entries of one side are the ids of its orders. *)
Definition side_live (live : gmap Z Side) (side : Side) (l : list Order) : Prop :=
  NoDup (ids l) /\ forall id, live !! id = Some side <-> id ∈ ids l.

(** The entries of the other side are untouched. *)
Definition same_other (side : Side) (live live' : gmap Z Side) : Prop :=
  forall id s, s <> side -> live' !! id = Some s <-> live !! id = Some s.

Lemma side_live_pop live side maker rest :
  side_live live side (maker :: rest) ->
  side_live (delete (o_id maker) live) side rest
  /\ same_other side live (delete (o_id maker) live).
Proof.
  intros [Hd Hl]. apply NoDup_cons in Hd as [Hn Hd].
  assert (Hmk : live !! o_id maker = Some side) by (apply Hl; by left).
  split; [split; [done|]|].
  - intros id. rewrite lookup_delete_Some, Hl. simpl. rewrite elem_of_cons. split.
    + by intros [Hne [E|?]].
    + intros Hin. split; [intros E; apply Hn; by rewrite E|by right].
  - intros id s Hs. rewrite lookup_delete_Some. split; [by intros [_ ?]|].
    intros Hid. split; [|done]. congruence.
Qed.

Lemma side_live_ids live side l l' : ids l = ids l' -> side_live live side l -> side_live live side l'.
Proof. unfold side_live. by intros ->. Qed.

Lemma match_list_done order makers : match_list order 0 makers = (0, makers, []).
Proof. by destruct makers. Qed.

(** The loop on levels computes the matching of the priority list. *)
Lemma match_levels_spec before symbol side fuel order remaining m live fills :
  levels_ok before symbol side m -> side_live live side (flat m) ->
  0 <= remaining < 2 ^ 64 -> (length (flat m) < fuel)%nat ->
  let '(r, makers, fs) := match_list order remaining (flat m) in
  exists m' live', match_levels fuel order remaining m live fills = Done (r, m', live', fills ++ fs)
    /\ flat m' = makers /\ levels_ok before symbol side m'
    /\ side_live live' side makers /\ same_other side live live'.
Proof.
  revert remaining m live fills. induction fuel as [|fuel IH]; [lia|].
  intros remaining m live fills Hm Hlive Hr Hfuel. cbn [match_levels].
  assert (Hstop : match_list order remaining (flat m) = (remaining, flat m, []) ->
    exists m' live', Done (remaining, m, live, fills) = Done (remaining, m', live', fills ++ [])
      /\ flat m' = flat m /\ levels_ok before symbol side m'
      /\ side_live live' side (flat m) /\ same_other side live live').
  { intros _. exists m, live. rewrite app_nil_r. done. }
  destruct (Z.gtb_spec remaining 0) as [Hpos|Hzero].
  2: { assert (remaining = 0) as -> by lia. rewrite match_list_done in *. by apply Hstop. }
  pose proof (match_front_spec before symbol side order remaining m live fills Hm ltac:(lia)) as Hf.
  destruct (flat m) as [|maker rest] eqn:Hflat; cbn [match_list] in *.
  { rewrite Hf. by apply Hstop. }
  rewrite (proj2 (Z.ltb_lt 0 remaining)) in * by lia. cbn [andb] in *.
  destruct (crosses order (o_price_ticks maker)); [|rewrite Hf; by apply Hstop].
  clear Hstop. destruct Hf as (m1 & -> & Hm1 & Hflat1). cbn [obind].
  destruct (side_live_pop live side maker rest Hlive) as [Hpop Hother].
  assert (0 < o_quantity maker) as Hq.
  { destruct (flat_in _ _ _ _ maker Hm) as (p & Hok & _); [rewrite Hflat; by left|].
    apply ok_quantity in Hok. lia. }
  destruct (Z.leb_spec (o_quantity maker) remaining) as [Hle|Hgt].
  - rewrite Z.min_r by lia. rewrite <- Hflat1 in Hpop.
    specialize (IH (remaining - o_quantity maker) m1 (delete (o_id maker) live)
                  (fills ++ [trade order maker (o_quantity maker)]) Hm1 Hpop ltac:(lia)).
    rewrite Hflat1 in IH. simpl in Hfuel. specialize (IH ltac:(lia)).
    destruct (match_list order _ rest) as [[r makers] fs].
    destruct IH as (m' & live' & -> & Hfl & Hok & Hsl & Hso). exists m', live'.
    rewrite <- app_assoc. split; [done|]. do 3 (split; [done|]).
    intros id s Hs. rewrite (Hso id s Hs). by apply Hother.
  - rewrite Z.min_l, Z.sub_diag by lia. rewrite Z.min_l in Hflat1 by lia.
    destruct fuel as [|fuel]; [simpl in Hfuel; lia|]. cbn [match_levels Z.gtb Z.compare].
    exists m1, live. split; [done|]. split; [done|]. split; [done|]. split; [|done].
    by eapply side_live_ids; [|exact Hlive].
Qed.

(** ** Facts about the specification's matching *)

Definition filled (fills : list Fill) : Z := foldr (fun f sum => f_quantity f + sum) 0 fills.
Definition total (l : list Order) : Z := foldr (fun o sum => o_quantity o + sum) 0 l.

Lemma match_list_amounts order r makers r' makers' fills :
  Forall (fun o => 0 < o_quantity o) makers -> 0 <= r ->
  match_list order r makers = (r', makers', fills) ->
  0 <= r' /\ r = r' + filled fills /\ total makers = total makers' + filled fills
  /\ Forall (fun f => 0 < f_quantity f) fills.
Proof.
  intros Hq. revert r r' makers' fills. induction Hq as [|o makers Ho Hq IH]; intros r r' makers' fills Hr; simpl.
  - intros [= <- <- <-]. repeat split; try done; simpl; lia.
  - destruct (Z.ltb_spec 0 r); cbn [andb].
    2: { intros [= <- <- <-]. repeat split; try done; simpl; lia. }
    destruct (crosses order (o_price_ticks o)).
    2: { intros [= <- <- <-]. repeat split; try done; simpl; lia. }
    destruct (Z.leb_spec (o_quantity o) r).
    + destruct (match_list order (r - o_quantity o) makers) as [[r1 makers1] fs] eqn:Hm.
      intros [= <- <- <-]. apply IH in Hm as (? & ? & ? & ?); [|lia].
      repeat split; try apply Forall_cons_2; try done; simpl; lia.
    + intros [= <- <- <-]. repeat split; try apply Forall_cons_2; try done; simpl; lia.
Qed.

(** Matching stops at a maker that does not cross, or with nothing left. *)
Lemma match_list_stops order r makers r' makers' fills :
  match_list order r makers = (r', makers', fills) -> 0 < r' ->
  match makers' with [] => True | o :: _ => crosses order (o_price_ticks o) = false end.
Proof.
  revert r r' makers' fills. induction makers as [|o makers IH]; intros r r' makers' fills; simpl.
  - by intros [= <- <- <-].
  - destruct (Z.ltb_spec 0 r); cbn [andb].
    2: { intros [= <- <- <-]. lia. }
    destruct (crosses order (o_price_ticks o)) eqn:Hc; [|by intros [= <- <- <-]].
    destruct (o_quantity o <=? r).
    + destruct (match_list order (r - o_quantity o) makers) as [[r1 makers1] fs] eqn:Hm.
      intros [= <- <- <-]. by eapply IH.
    + intros [= <- <- <-]. lia.
Qed.

(** The makers that stay are makers that were there. *)
Lemma match_list_kept order r makers r' makers' fills o :
  match_list order r makers = (r', makers', fills) -> o ∈ makers' ->
  exists o0, o0 ∈ makers /\ o_price_ticks o0 = o_price_ticks o /\ o_id o0 = o_id o.
Proof.
  revert r r' makers' fills. induction makers as [|m makers IH]; intros r r' makers' fills; simpl.
  - intros [= <- <- <-] H. by apply elem_of_nil in H.
  - destruct ((0 <? r) && crosses order (o_price_ticks m)).
    2: { intros [= <- <- <-] Ho. eauto. }
    destruct (o_quantity m <=? r).
    + destruct (match_list order (r - o_quantity m) makers) as [[r1 makers1] fs] eqn:Hm.
      intros [= <- <- <-] Ho. destruct (IH _ _ _ _ Hm Ho) as (o0 & ? & ?).
      exists o0. split; [by right|done].
    + intros [= <- <- <-]. rewrite elem_of_cons. intros [->|Ho].
      * exists m. split; [by left|done].
      * exists o. split; [by right|done].
Qed.

(** ** Facts about the book *)

Lemma live_ok_sides live bids asks :
  live_ok live bids asks <-> side_live live buy bids /\ side_live live sell asks.
Proof.
  unfold live_ok, side_live. rewrite ids_app, NoDup_app. split.
  - intros ((Hb & _ & Ha) & Hl). split; (split; [done|]); intros id; apply Hl.
  - intros ((Hb & Hlb) & (Ha & Hla)). split.
    + split; [done|]. split; [|done]. intros id H1%Hlb H2%Hla. congruence.
    + by intros id [|].
Qed.

Lemma side_live_keep side live live' l :
  same_other side live live' -> forall s, s <> side -> side_live live s l -> side_live live' s l.
Proof. intros Hso s Hs [Hd Hl]. split; [done|]. intros id. rewrite <- Hl. by apply Hso. Qed.

Lemma live_contains live bids asks id :
  live_ok live bids asks -> is_Some (live !! id) <-> id ∈ ids (bids ++ asks).
Proof.
  intros [_ Hl]. rewrite ids_app, elem_of_app. split.
  - intros [[|] H]; apply Hl in H; by auto.
  - intros [H|H]; [exists buy|exists sell]; by apply Hl.
Qed.

(** The first order of a side has its best price. *)
Lemma flat_front before symbol side m maker rest :
  PriceOrder before -> levels_ok before symbol side m -> flat m = maker :: rest ->
  Forall (fun o => before (o_price_ticks o) (o_price_ticks maker) = false) (flat m).
Proof.
  intros Hpo Hm Hflat. destruct m as [|[p orders] m]; [done|].
  pose proof Hm as (Hm' & [Hne Hl] & Hall)%levels_ok_cons.
  destruct orders as [|o orders]; [done|]. rewrite flat_cons in Hflat. injection Hflat as -> _.
  assert (Hp : o_price_ticks maker = p) by (apply Forall_cons in Hl as [Ho _]; apply Ho).
  rewrite Hp. apply Forall_forall. intros o Ho. rewrite flat_cons, elem_of_app in Ho.
  destruct Ho as [Ho|Ho].
  - eapply Forall_forall in Hl; [|exact Ho]. rewrite (ok_price _ _ _ _ Hl). apply before_irrefl.
  - destruct (flat_in _ _ _ _ _ Hm' Ho) as (q & Hok & Hq).
    rewrite (ok_price _ _ _ _ Hok). apply list_elem_of_fmap in Hq as ([q' os] & -> & Hin).
    eapply Forall_forall in Hall; [|exact Hin]. simpl in *.
    destruct (before q' p) eqn:E; [|done].
    by rewrite <- (before_trans _ _ _ Hall E), before_irrefl.
Qed.

(** After matching with a remainder, nothing on the other side crosses. *)
Lemma stopped_uncrossed before symbol side order r makers r' fills m :
  PriceOrder before -> levels_ok before symbol side m ->
  (forall p q, before p q = false -> crosses order p = true -> crosses order q = true) ->
  match_list order r makers = (r', flat m, fills) -> 0 < r' ->
  Forall (fun o => crosses order (o_price_ticks o) = false) (flat m).
Proof.
  intros Hpo Hm Hmono Hml Hr. pose proof (match_list_stops _ _ _ _ _ _ Hml Hr) as Hs.
  destruct (flat m) as [|maker rest] eqn:Hflat; [done|].
  pose proof (flat_front _ _ _ _ _ _ Hpo Hm Hflat) as Hf. rewrite Hflat in Hf.
  eapply Forall_impl; [exact Hf|]. simpl. intros o Ho.
  destruct (crosses order (o_price_ticks o)) eqn:Hc; [|done].
  by rewrite (Hmono _ _ Ho Hc) in Hs.
Qed.

Lemma insert_priority_in before order l o :
  o ∈ insert_priority before order l <-> o = order \/ o ∈ l.
Proof.
  induction l as [|x l IH]; simpl; [by rewrite list_elem_of_singleton, elem_of_nil; tauto|].
  case_if; rewrite ?elem_of_cons, ?IH, ?elem_of_cons; tauto.
Qed.

Lemma insert_priority_ids before order l :
  Permutation (ids (insert_priority before order l)) (o_id order :: ids l).
Proof.
  induction l as [|x l IH]; simpl; [done|]. case_if; simpl; [done|]. rewrite IH. apply perm_swap.
Qed.

Lemma side_live_rest live side before order l :
  side_live live side l -> live !! o_id order = None ->
  side_live (emplace (o_id order) side live) side (insert_priority before order l)
  /\ same_other side live (emplace (o_id order) side live).
Proof.
  intros [Hd Hl] Hn. unfold emplace. rewrite Hn. split; [split|].
  - rewrite insert_priority_ids. apply NoDup_cons_2; [|done]. intros H%Hl. congruence.
  - intros id. rewrite insert_priority_ids, elem_of_cons, lookup_insert_Some, <- Hl. split.
    + intros [[<- _]|[_ H]]; by auto.
    + intros [->|H]; [by auto|]. right. split; [congruence|done].
  - intros id s Hs. rewrite lookup_insert_Some. split.
    + intros [[_ ?]|[_ ?]]; congruence.
    + intros H. right. split; [congruence|done].
Qed.

Lemma crosses_buy_mono order p q :
  o_side order = buy -> asks_before p q = false -> crosses order p = true -> crosses order q = true.
Proof.
  unfold crosses, asks_before. intros ->. intros. reflect_bools. apply Z.leb_le. lia.
Qed.

Lemma crosses_sell_mono order p q :
  o_side order = sell -> bids_before p q = false -> crosses order p = true -> crosses order q = true.
Proof.
  unfold crosses, bids_before. intros ->. intros. reflect_bools. apply Z.geb_le. lia.
Qed.

(** The side an order trades against. *)
Definition opposite (order : Order) (a : abook) : list Order :=
  match o_side order with buy => ab_asks a | sell => ab_bids a end.

Lemma uncrossed_kept bids asks bids' asks' :
  uncrossed bids asks ->
  (forall o, o ∈ bids' -> exists o0, o0 ∈ bids /\ o_price_ticks o0 = o_price_ticks o) ->
  (forall o, o ∈ asks' -> exists o0, o0 ∈ asks /\ o_price_ticks o0 = o_price_ticks o) ->
  uncrossed bids' asks'.
Proof.
  intros Hu Hb Ha bid ask (b0 & ? & <-)%Hb (a0 & ? & <-)%Ha. by apply Hu.
Qed.

(** What matching promises to the rest of [submit]. *)
Record matched (order : Order) (r : Z) (b b' : OrderBook) : Prop := mkMatched {
  mt_wf : wf_book b';
  mt_symbol : symbol_ b' = symbol_ b;
  mt_absent : live_orders_ b !! o_id order = None -> live_orders_ b' !! o_id order = None;
  mt_stopped : 0 < r ->
    Forall (fun o => crosses order (o_price_ticks o) = false) (opposite order (abstract b'));
}.

(** The loop on one side, with all that [submit] needs to know. *)
Lemma match_side before symbol side order fuel m live fills :
  PriceOrder before -> levels_ok before symbol side m -> side_live live side (flat m) ->
  (forall p q, before p q = false -> crosses order p = true -> crosses order q = true) ->
  0 <= o_quantity order < 2 ^ 64 -> (length (flat m) < fuel)%nat ->
  let '(r, makers, fs) := match_list order (o_quantity order) (flat m) in
  exists m' live',
    match_levels fuel order (o_quantity order) m live fills = Done (r, m', live', fills ++ fs)
    /\ flat m' = makers /\ levels_ok before symbol side m'
    /\ side_live live' side makers /\ same_other side live live'
    /\ (forall o, o ∈ makers -> exists o0, o0 ∈ flat m /\ o_price_ticks o0 = o_price_ticks o)
    /\ (forall id, live !! id = None -> live' !! id = None)
    /\ (0 < r -> Forall (fun o => crosses order (o_price_ticks o) = false) makers).
Proof.
  intros Hpo Hm Hlive Hmono Hq Hfuel.
  pose proof (match_levels_spec _ _ _ fuel order (o_quantity order) _ _ fills Hm Hlive Hq Hfuel) as Hml.
  destruct (match_list order (o_quantity order) (flat m)) as [[r makers] fs] eqn:Hspec.
  destruct Hml as (m' & live' & -> & <- & Hok & Hsl & Hso). exists m', live'.
  pose proof (fun o => match_list_kept _ _ _ _ _ _ o Hspec) as Hkept.
  do 5 (split; [done|]). split; [intros o (o0 & ? & ? & _)%Hkept; eauto|]. split.
  - intros id Hn. destruct (live' !! id) as [s|] eqn:E; [|done].
    destruct (decide (s = side)) as [->|Hs]; [|apply Hso in E; congruence].
    apply Hsl, list_elem_of_fmap in E as (o & -> & (o0 & Hin & _ & Hid)%Hkept).
    assert (live !! o_id o = Some side); [|congruence].
    apply Hlive. rewrite <- Hid. by apply list_elem_of_fmap_2.
  - intros Hr. by eapply stopped_uncrossed.
Qed.

Lemma match_loop_spec order b fills :
  wf_book b -> 0 <= o_quantity order < 2 ^ 64 ->
  let '(r, a, fs) := spec_match order (abstract b) in
  exists b', match_loop (match_fuel b) order (o_quantity order) b fills = Done (r, b', fills ++ fs)
    /\ abstract b' = a /\ matched order r b b'.
Proof.
  intros [Hbids Hasks Hlive Hunc] Hq. pose proof Hlive as [Hlb Hla]%live_ok_sides.
  rewrite match_loop_levels. unfold spec_match, abstract, match_fuel. cbn [ab_bids ab_asks].
  destruct (o_side order) eqn:Hside.
  - pose proof (match_side _ _ _ order (S (S (length (flat (bids_ b)) + length (flat (asks_ b)))))
      _ _ fills _ Hasks Hla (fun p q => crosses_buy_mono order p q Hside) Hq ltac:(lia)) as Hml.
    destruct (match_list order (o_quantity order) (flat (asks_ b))) as [[r makers] fs].
    destruct Hml as (m' & live' & -> & <- & Hok & Hsl & Hso & Hkept & Hnone & Hstop). cbn [obind].
    eexists. split; [done|]. split; [done|]. split; simpl; [|done|by apply Hnone|].
    + split; simpl; try done.
      * apply live_ok_sides. split; [by eapply side_live_keep|done].
      * eapply uncrossed_kept; [exact Hunc|by eauto|done].
    + unfold opposite. by rewrite Hside.
  - pose proof (match_side _ _ _ order (S (S (length (flat (bids_ b)) + length (flat (asks_ b)))))
      _ _ fills _ Hbids Hlb (fun p q => crosses_sell_mono order p q Hside) Hq ltac:(lia)) as Hml.
    destruct (match_list order (o_quantity order) (flat (bids_ b))) as [[r makers] fs].
    destruct Hml as (m' & live' & -> & <- & Hok & Hsl & Hso & Hkept & Hnone & Hstop). cbn [obind].
    eexists. split; [done|]. split; [done|]. split; simpl; [|done|by apply Hnone|].
    + split; simpl; try done.
      * apply live_ok_sides. split; [done|by eapply side_live_keep].
      * eapply uncrossed_kept; [exact Hunc|done|by eauto].
    + unfold opposite. by rewrite Hside.
Qed.

Lemma rest_order_spec order b :
  wf_book b -> order_ok (symbol_ b) (o_side order) (o_price_ticks order) order ->
  live_orders_ b !! o_id order = None ->
  Forall (fun o => crosses order (o_price_ticks o) = false) (opposite order (abstract b)) ->
  wf_book (rest_order order b) /\ abstract (rest_order order b) = spec_rest order (abstract b)
  /\ symbol_ (rest_order order b) = symbol_ b.
Proof.
  intros [Hbids Hasks Hlive Hunc] Hok Hnone Hstop. pose proof Hlive as [Hlb Hla]%live_ok_sides.
  unfold rest_order, spec_rest, opposite, crosses, abstract in *.
  destruct (o_side order) eqn:Hside; cbn [ab_bids ab_asks bids_ asks_ symbol_] in *.
  - destruct (side_live_rest _ _ bids_before _ _ Hlb Hnone) as [Hl Hso].
    rewrite <- (push_level_flat bids_before (symbol_ b) buy order (bids_ b)) in Hl |- * by (exact _ || done).
    split; [|done]. split; cbn [bids_ asks_ symbol_ live_orders_]; try done.
    + apply push_level_ok; (exact _ || done).
    + apply live_ok_sides. split; [done|by eapply side_live_keep].
    + intros bid ask. rewrite (push_level_flat _ (symbol_ b) buy), insert_priority_in by (exact _ || done).
      intros [->|Hin] Ha; [|by apply Hunc]. eapply Forall_forall in Hstop; [|exact Ha].
      simpl in Hstop. reflect_bools. done.
  - destruct (side_live_rest _ _ asks_before _ _ Hla Hnone) as [Hl Hso].
    rewrite <- (push_level_flat asks_before (symbol_ b) sell order (asks_ b)) in Hl |- * by (exact _ || done).
    split; [|done]. split; cbn [bids_ asks_ symbol_ live_orders_]; try done.
    + apply push_level_ok; (exact _ || done).
    + apply live_ok_sides. split; [by eapply side_live_keep|done].
    + intros bid ask Hb. rewrite (push_level_flat _ (symbol_ b) sell), insert_priority_in by (exact _ || done).
      intros [->|Hin]; [|by apply Hunc]. eapply Forall_forall in Hstop; [|exact Hb].
      simpl in Hstop. reflect_bools. done.
Qed.

Lemma spec_match_range order a r a' fs :
  Forall (fun o => 0 < o_quantity o) (opposite order a) -> 0 <= o_quantity order ->
  spec_match order a = (r, a', fs) -> 0 <= r <= o_quantity order.
Proof.
  unfold spec_match, opposite. intros Hq Ho.
  destruct (o_side order), (match_list _ _ _) as [[r0 ms] fs0] eqn:Hm; intros [= <- <- <-];
    apply match_list_amounts in Hm as (? & ? & ? & Hf); try done;
    (assert (0 <= filled fs0) by (clear -Hf; induction Hf; simpl; lia)); lia.
Qed.

Lemma book_quantities b order :
  wf_book b -> Forall (fun o => 0 < o_quantity o) (opposite order (abstract b)).
Proof.
  intros [Hb Ha _ _]. apply Forall_forall. intros o Ho. unfold opposite in Ho.
  destruct (o_side order); simpl in Ho;
    [destruct (flat_in _ _ _ _ _ Ha Ho) as (p & Hok & _)
    |destruct (flat_in _ _ _ _ _ Hb Ho) as (p & Hok & _)];
    apply ok_quantity in Hok; lia.
Qed.

(** ** [submit] and [cancel] implement the specification *)

Lemma submit_spec order b fills :
  wf_book b -> 0 <= o_quantity order < 2 ^ 64 ->
  let '(ack, a, fs) := spec_submit (symbol_ b) order (abstract b) in
  exists b', submit order b fills = Done (ack, b', fills ++ fs)
             /\ abstract b' = a /\ wf_book b' /\ symbol_ b' = symbol_ b.
Proof.
  intros Hb Hq. pose proof (live_contains _ _ _ (o_id order) (wf_live b Hb)) as Hlive.
  unfold submit, spec_submit. cbn [ab_bids ab_asks abstract].
  assert (Hrej : forall reason, exists b',
    Done (mkAck (o_id order) false 0 (str reason), b, fills)
      = Done (mkAck (o_id order) false 0 (str reason), b', fills ++ [])
    /\ abstract b' = abstract b /\ wf_book b' /\ symbol_ b' = symbol_ b).
  { intros reason. exists b. by rewrite app_nil_r. }
  destruct (bool_decide_reflect (o_symbol order = symbol_ b)) as [Hsym|]; [|apply Hrej].
  cbn [negb]. destruct ((o_id order =? 0) || _ || _) eqn:Hbad; [apply Hrej|].
  rewrite (bool_decide_ext _ _ Hlive). case_bool_decide as Hdup; [apply Hrej|].
  clear Hrej. pose proof (match_loop_spec order b fills Hb Hq) as Hm.
  destruct (spec_match order (abstract b)) as [[r a] fs] eqn:Hs.
  destruct Hm as (b1 & -> & <- & [Hwf Hs1 Habs Hstop]). cbn [obind].
  apply spec_match_range in Hs as Hr; [|by apply book_quantities|lia].
  eexists. split; [done|]. replace (r >? 0) with (0 <? r) by (by rewrite Z.gtb_ltb).
  destruct (Z.ltb_spec 0 r) as [Hpos|]; [|done]. cbn [andb]. case_bool_decide; [|done].
  destruct (rest_order_spec (with_quantity order r) b1) as (H1 & H2 & H3); try done.
  - reflect_bools. split; simpl; try done; try congruence; lia.
  - apply Habs. apply eq_None_not_Some. by rewrite Hlive.
  - by apply Hstop.
  - by rewrite H3.
Qed.

Lemma without_in order_id l o : o ∈ without order_id l <-> o_id o <> order_id /\ o ∈ l.
Proof. unfold without. by rewrite list_elem_of_filter. Qed.

Lemma without_ids order_id l id : id ∈ ids (without order_id l) <-> id <> order_id /\ id ∈ ids l.
Proof.
  unfold ids. rewrite !list_elem_of_fmap. split.
  - intros (o & -> & [? ?]%without_in). eauto.
  - intros (? & o & -> & ?). exists o. by rewrite without_in.
Qed.

Lemma without_nodup order_id l : NoDup (ids l) -> NoDup (ids (without order_id l)).
Proof.
  unfold without. induction l as [|o l IH]; [done|]. simpl. intros [Hn Hd]%NoDup_cons.
  rewrite filter_cons. case_decide; [|auto]. apply NoDup_cons_2; [|auto].
  by intros [_ ?]%without_ids.
Qed.

Lemma side_live_cancel live side order_id l :
  side_live live side l -> live !! order_id = Some side ->
  side_live (delete order_id live) side (without order_id l)
  /\ same_other side live (delete order_id live).
Proof.
  intros [Hd Hl] Hid. split; [split|].
  - by apply without_nodup.
  - intros id. rewrite lookup_delete_Some, without_ids, Hl. split; intros [? ?]; auto.
  - intros id s Hs. rewrite lookup_delete_Some. split; [by intros [_ ?]|].
    intros ?. split; [congruence|done].
Qed.

Lemma cancel_spec order_id b :
  wf_book b ->
  let (ok, a) := spec_cancel order_id (abstract b) in
  exists b', cancel order_id b = (ok, b')
             /\ abstract b' = a /\ wf_book b' /\ symbol_ b' = symbol_ b.
Proof.
  intros Hb. pose proof (live_contains _ _ _ order_id (wf_live b Hb)) as Hlive.
  pose proof Hb as [Hbids Hasks Hl Hunc]. apply live_ok_sides in Hl as [Hlb Hla].
  unfold spec_cancel, cancel, abstract. cbn [ab_bids ab_asks].
  assert (Hkeep : forall l o, o ∈ without order_id l ->
    exists o0, o0 ∈ l /\ o_price_ticks o0 = o_price_ticks o)
    by (intros l o [_ ?]%without_in; eauto).
  destruct (live_orders_ b !! order_id) as [[|]|] eqn:Hid.
  - rewrite bool_decide_true by (apply Hlive; eauto).
    pose proof (cancel_levels_spec _ _ _ order_id _ Hbids (proj1 Hlb)) as Hc.
    rewrite decide_True in Hc by (by apply Hlb). destruct Hc as (m' & -> & Hf & Hok & _).
    destruct (side_live_cancel _ _ _ _ Hlb Hid) as [Hlb' Hso]. rewrite <- Hf in Hlb'.
    assert (Hab : without order_id (flat (asks_ b)) = flat (asks_ b)).
    { apply without_absent. intros Hin%Hla. congruence. }
    rewrite Hab. eexists. split; [done|]. split; [simpl; by rewrite Hf|]. split; [|done].
    split; simpl; try done.
    + apply live_ok_sides. split; [done|by eapply side_live_keep].
    + rewrite Hf. eapply uncrossed_kept; [exact Hunc|apply Hkeep|by eauto].
  - rewrite bool_decide_true by (apply Hlive; eauto).
    pose proof (cancel_levels_spec _ _ _ order_id _ Hasks (proj1 Hla)) as Hc.
    rewrite decide_True in Hc by (by apply Hla). destruct Hc as (m' & -> & Hf & Hok & _).
    destruct (side_live_cancel _ _ _ _ Hla Hid) as [Hla' Hso]. rewrite <- Hf in Hla'.
    assert (Hab : without order_id (flat (bids_ b)) = flat (bids_ b)).
    { apply without_absent. intros Hin%Hlb. congruence. }
    rewrite Hab. eexists. split; [done|]. split; [simpl; by rewrite Hf|]. split; [|done].
    split; simpl; try done.
    + apply live_ok_sides. split; [by eapply side_live_keep|done].
    + rewrite Hf. eapply uncrossed_kept; [exact Hunc|by eauto|apply Hkeep].
  - assert (Hn : ~ order_id ∈ ids (flat (bids_ b) ++ flat (asks_ b)))
      by (rewrite <- Hlive; by intros [? ?]).
    rewrite bool_decide_false by done. rewrite ids_app, not_elem_of_app in Hn.
    rewrite !without_absent by apply Hn. by exists b.
Qed.

(** ** Consequences of the specification *)

(** The fills go to the first makers of the priority list, one each, in order;
    all but the last are filled completely. *)
Lemma match_list_priority order r makers r' makers' fills :
  match_list order r makers = (r', makers', fills) ->
  exists n, map f_maker_id fills = ids (take n makers)
    /\ map f_price_ticks fills = map o_price_ticks (take n makers)
    /\ (forall i f o, (S i < n)%nat -> fills !! i = Some f -> makers !! i = Some o ->
          f_quantity f = o_quantity o)
    /\ Forall (fun f => crosses order (f_price_ticks f) = true /\ f_taker_id f = o_id order) fills.
Proof.
  revert r r' makers' fills. induction makers as [|m makers IH]; intros r r' makers' fills; simpl.
  - intros [= <- <- <-]. exists 0%nat. repeat split; [lia|constructor].
  - destruct (0 <? r); cbn [andb].
    2: { intros [= <- <- <-]. exists 0%nat. repeat split; [lia|constructor]. }
    destruct (crosses order (o_price_ticks m)) eqn:Hc.
    2: { intros [= <- <- <-]. exists 0%nat. repeat split; [lia|constructor]. }
    destruct (o_quantity m <=? r).
    + destruct (match_list order (r - o_quantity m) makers) as [[r1 makers1] fs] eqn:Hm.
      intros [= <- <- <-]. apply IH in Hm as (n & Hids & Hprices & Hfull & Hall).
      exists (S n). cbn [take map]. rewrite Hids, Hprices. repeat split; try done.
      * intros [|i] f o Hi; simpl; [by intros [= <-] [= <-]|]. apply Hfull. lia.
      * by apply Forall_cons_2.
    + intros [= <- <- <-]. exists 1%nat. repeat split; [intros; lia|].
      apply Forall_cons_2; [done|constructor].
Qed.

Lemma spec_match_list order a r a' fs :
  spec_match order a = (r, a', fs) ->
  match_list order (o_quantity order) (opposite order a) = (r, opposite order a', fs).
Proof.
  unfold spec_match, opposite.
  destruct (o_side order), (match_list _ _ _) as [[r0 ms] fs0]; by intros [= <- <- <-].
Qed.

Definition resting_total (b : OrderBook) : Z := total (flat (bids_ b)) + total (flat (asks_ b)).

Lemma total_insert before order l :
  total (insert_priority before order l) = o_quantity order + total l.
Proof. induction l as [|o l IH]; simpl; [done|]. case_if; simpl; [done|]. rewrite IH. lia. Qed.

(** The specification's book, in quantities. *)
Definition spec_total (a : abook) : Z := total (ab_bids a) + total (ab_asks a).

Lemma spec_match_total order a r a' fs :
  Forall (fun o => 0 < o_quantity o) (opposite order a) -> 0 <= o_quantity order ->
  spec_match order a = (r, a', fs) ->
  o_quantity order = r + filled fs /\ spec_total a = spec_total a' + filled fs.
Proof.
  unfold spec_match, opposite, spec_total. intros Hq Ho.
  destruct (o_side order), (match_list _ _ _) as [[r0 ms] fs0] eqn:Hm; intros [= <- <- <-];
    apply match_list_amounts in Hm as (? & ? & ? & _); simpl; try done; lia.
Qed.

Lemma spec_rest_total order a : spec_total (spec_rest order a) = o_quantity order + spec_total a.
Proof.
  unfold spec_rest, spec_total. destruct (o_side order); simpl; rewrite total_insert; lia.
Qed.

(** An accepted order passed the three tests of [submit]. *)
Lemma spec_submit_accepted symbol order a ack a' fs :
  spec_submit symbol order a = (ack, a', fs) -> a_accepted ack = true ->
  exists a1, spec_match order a = (a_remaining ack, a1, fs)
    /\ ~ o_id order ∈ ids (ab_bids a ++ ab_asks a)
    /\ a' = if (0 <? a_remaining ack) && bool_decide (o_tif order = good_till_cancel)
            then spec_rest (with_quantity order (a_remaining ack)) a1 else a1.
Proof.
  unfold spec_submit. destruct (negb _); [by intros [= <- <- <-]|].
  destruct (_ || _ || _); [by intros [= <- <- <-]|].
  case_bool_decide as Hdup; [by intros [= <- <- <-]|].
  destruct (spec_match order a) as [[r a1] fs1]. intros [= <- <- <-] _. by exists a1.
Qed.

Lemma submit_result order b fills ack b' fills' :
  wf_book b -> 0 <= o_quantity order < 2 ^ 64 ->
  submit order b fills = Done (ack, b', fills') ->
  exists fs, spec_submit (symbol_ b) order (abstract b) = (ack, abstract b', fs)
             /\ fills' = fills ++ fs /\ wf_book b' /\ symbol_ b' = symbol_ b.
Proof.
  intros Hb Hq Hs. pose proof (submit_spec order b fills Hb Hq) as H.
  destruct (spec_submit _ _ _) as [[ack1 a1] fs]. destruct H as (b1 & Hs1 & <- & Hwf & Hsym).
  rewrite Hs in Hs1. injection Hs1 as <- <- ->. eauto.
Qed.

Lemma spec_match_ids order a r a' fs :
  spec_match order a = (r, a', fs) ->
  ids (ab_bids a' ++ ab_asks a') ⊆ ids (ab_bids a ++ ab_asks a).
Proof.
  unfold spec_match. rewrite !ids_app.
  assert (Hsub : forall r0 makers r1 makers' fills,
    match_list order r0 makers = (r1, makers', fills) -> ids makers' ⊆ ids makers).
  { intros r0 makers r1 makers' fills Hm id (o & -> & Ho)%list_elem_of_fmap.
    destruct (match_list_kept _ _ _ _ _ _ _ Hm Ho) as (o0 & Hin & _ & <-).
    by apply list_elem_of_fmap_2. }
  destruct (o_side order), (match_list _ _ _) as [[r0 ms] fs0] eqn:Hm; intros [= <- <- <-];
    apply Hsub in Hm; simpl; intros id; rewrite !elem_of_app; intros [?|?]; auto.
Qed.

(** ** Runs of a book *)

Inductive book_op := Submit (order : Order) | Cancel (order_id : Z).

Fixpoint run_ops (ops : list book_op) (b : OrderBook) (fills : list Fill)
  : outcome (OrderBook * list Fill) :=
  match ops with
  | [] => Done (b, fills)
  | Submit order :: ops =>
      let* (_, b, fills) := submit order b fills in run_ops ops b fills
  | Cancel order_id :: ops => run_ops ops (snd (cancel order_id b)) fills
  end.

(** Quantities are 64-bit unsigned integers. *)
Definition op_in_range (op : book_op) : Prop :=
  match op with Submit order => 0 <= o_quantity order < 2 ^ 64 | Cancel _ => True end.

Lemma run_ops_wf ops b fills :
  wf_book b -> Forall op_in_range ops ->
  exists b' fills', run_ops ops b fills = Done (b', fills') /\ wf_book b' /\ symbol_ b' = symbol_ b.
Proof.
  intros Hb Hops. revert b fills Hb. induction Hops as [|[order|id] ops Hop Hops IH];
    intros b fills Hb; simpl; [by eauto| |].
  - pose proof (submit_spec order b fills Hb Hop) as Hs.
    destruct (spec_submit _ _ _) as [[ack a] fs]. destruct Hs as (b1 & -> & _ & Hb1 & Hs1).
    cbn [obind]. destruct (IH b1 (fills ++ fs) Hb1) as (b2 & fills2 & -> & Hb2 & Hs2).
    rewrite <- Hs1. eauto.
  - pose proof (cancel_spec id b Hb) as Hc.
    destruct (spec_cancel id (abstract b)) as [ok a]. destruct Hc as (b1 & -> & _ & Hb1 & Hs1).
    simpl. rewrite <- Hs1. by apply IH.
Qed.

Lemma best_prices before symbol side m :
  levels_ok before symbol side m -> fst <$> head m = o_price_ticks <$> head (flat m).
Proof.
  intros Hm. destruct m as [|[p [|o orders]] m]; [done| |];
    apply levels_ok_cons in Hm as (_ & [Hne Hl] & _); [done|].
  simpl in *. apply Forall_cons in Hl as [Ho _]. f_equal. symmetry. apply Ho.
Qed.

Lemma head_in {A} (l : list A) x : head l = Some x -> x ∈ l.
Proof. destruct l; [done|]. intros [= ->]. by left. Qed.

Lemma wf_spread b bid ask :
  wf_book b -> best_bid b = Some bid -> best_ask b = Some ask -> bid < ask.
Proof.
  intros [Hb Ha _ Hunc]. unfold best_bid, best_ask.
  rewrite (best_prices _ _ _ _ Hb), (best_prices _ _ _ _ Ha).
  intros (o1 & H1%head_in & ->)%fmap_Some (o2 & H2%head_in & ->)%fmap_Some. by apply Hunc.
Qed.

(** ** Properties *)

(** C5: [submit] refines the priority book.  On every well-formed book and every
    order with a 64-bit quantity the matching loop terminates without undefined
    behaviour, the acknowledgement, the new fills and the resting orders are
    those of the specification (matching from the front of the opposite priority
    list, the remainder inserted behind every order of the same or a better
    price), and the book is well-formed again. *)
Theorem submit_refines_priority_book order b fills :
  wf_book b -> 0 <= o_quantity order < 2 ^ 64 ->
  exists ack b' fs,
    submit order b fills = Done (ack, b', fills ++ fs)
    /\ spec_submit (symbol_ b) order (abstract b) = (ack, abstract b', fs)
    /\ wf_book b'.
Proof.
  intros Hb Hq. pose proof (submit_spec order b fills Hb Hq) as H.
  destruct (spec_submit _ _ _) as [[ack a] fs]. destruct H as (b' & Hs & <- & Hwf & _). eauto 6.
Qed.

(** C29: [cancel] removes exactly the live order.  It reports true exactly when
    the id rests in the book, takes that order and nothing else out of the
    priority lists, and leaves a well-formed book. *)
Theorem cancel_removes_exactly order_id b :
  wf_book b ->
  let (found, b') := cancel order_id b in
  (found = true <-> order_id ∈ ids (flat (bids_ b) ++ flat (asks_ b)))
  /\ flat (bids_ b') = without order_id (flat (bids_ b))
  /\ flat (asks_ b') = without order_id (flat (asks_ b))
  /\ wf_book b'.
Proof.
  intros Hb. pose proof (cancel_spec order_id b Hb) as Hc. unfold spec_cancel in Hc.
  destruct Hc as (b' & -> & [= H1 H2] & Hwf & _). by rewrite bool_decide_eq_true.
Qed.

(** C19: price-time priority of the fills.  The fills of an order go to the first
    orders of the opposite side's priority list, in that order, at their prices
    and within the order's limit; every one of them but the last is filled
    completely. *)
Theorem fills_follow_priority order b fills ack b' fills' :
  wf_book b -> 0 <= o_quantity order < 2 ^ 64 ->
  submit order b fills = Done (ack, b', fills') -> a_accepted ack = true ->
  exists n fs, let makers := opposite order (abstract b) in
    fills' = fills ++ fs
    /\ map f_maker_id fs = ids (take n makers)
    /\ map f_price_ticks fs = map o_price_ticks (take n makers)
    /\ (forall i f o, (S i < n)%nat -> fs !! i = Some f -> makers !! i = Some o ->
          f_quantity f = o_quantity o)
    /\ Forall (fun f => crosses order (f_price_ticks f) = true /\ f_taker_id f = o_id order) fs.
Proof.
  intros Hb Hq Hs Hacc. apply submit_result in Hs as (fs & Hs & -> & _ & _); [|done..].
  apply spec_submit_accepted in Hs as (a1 & Hm & _ & _); [|done].
  apply spec_match_list, match_list_priority in Hm as (n & ? & ? & ? & ?).
  exists n, fs. done.
Qed.

(** C30: quantity is conserved.  An accepted order's quantity is what was filled
    plus the acknowledged remainder, and the quantity resting in the book
    changes by the part that rests minus what the fills took. *)
Theorem quantity_conserved order b fills ack b' fills' :
  wf_book b -> 0 <= o_quantity order < 2 ^ 64 ->
  submit order b fills = Done (ack, b', fills') -> a_accepted ack = true ->
  exists fs,
    fills' = fills ++ fs
    /\ o_quantity order = a_remaining ack + filled fs
    /\ resting_total b' + filled fs
       = resting_total b + (if decide (o_tif order = good_till_cancel)
                            then a_remaining ack else 0).
Proof.
  intros Hb Hq Hs Hacc. apply submit_result in Hs as (fs & Hs & -> & _ & _); [|done..].
  apply spec_submit_accepted in Hs as (a1 & Hm & _ & Ha); [|done]. exists fs. split; [done|].
  pose proof (book_quantities b order Hb) as Hqs.
  pose proof (spec_match_range _ _ _ _ _ Hqs (proj1 Hq) Hm) as Hr.
  apply spec_match_total in Hm as [Hfill Htot]; [|done|lia]. split; [done|].
  assert (Hb' : resting_total b' = spec_total (abstract b')) by done.
  assert (Hb0 : resting_total b = spec_total (abstract b)) by done.
  rewrite Hb', Hb0, Ha, Htot. destruct (Z.ltb_spec 0 (a_remaining ack)); cbn [andb].
  - unfold bool_decide. repeat case_decide; try done; cbv iota;
      rewrite ?spec_rest_total; simpl; lia.
  - repeat case_decide; cbv iota; lia.
Qed.

(** What rests.  A rejected order leaves the book and the fills as they
    were; after an accepted one, its id is live exactly when a quantity remains
    and the order is good till cancelled: an immediate-or-cancel order never
    rests. *)
Theorem rests_iff_remaining_gtc order b fills ack b' fills' :
  wf_book b -> 0 <= o_quantity order < 2 ^ 64 ->
  submit order b fills = Done (ack, b', fills') ->
  if a_accepted ack
  then (o_id order ∈ ids (flat (bids_ b') ++ flat (asks_ b'))
        <-> 0 < a_remaining ack /\ o_tif order = good_till_cancel)
  else b' = b /\ fills' = fills.
Proof.
  intros Hb Hq Hs. destruct (a_accepted ack) eqn:Hacc.
  - apply submit_result in Hs as (fs & Hs & -> & _ & _); [|done..].
    apply spec_submit_accepted in Hs as (a1 & Hm & Hnew & Ha); [|done].
    change (flat (bids_ b') ++ flat (asks_ b'))
      with (ab_bids (abstract b') ++ ab_asks (abstract b')). rewrite Ha.
    apply spec_match_ids in Hm.
    assert (Hgone : ~ o_id order ∈ ids (ab_bids a1 ++ ab_asks a1)) by (by intros ?%Hm).
    destruct (Z.ltb_spec 0 (a_remaining ack)); cbn [andb]; [|split; [done|lia]].
    case_bool_decide; [|split; [done|by intros [_ ?]]]. split; [done|]. intros _.
    unfold spec_rest. cbn [o_side with_quantity].
    destruct (o_side order); simpl; rewrite ids_app, elem_of_app, insert_priority_ids;
      [left|right]; by left.
  - revert Hs Hacc. unfold submit.
    destruct (negb _); [by intros [= <- <- <-]|]. destruct (_ || _ || _); [by intros [= <- <- <-]|].
    case_bool_decide; [by intros [= <- <- <-]|].
    by intros ([[r b1] fs] & _ & [= <- _ _])%obind_Done_inv.
Qed.

(** C20: no run corrupts a book.  Any sequence of submissions and cancellations on
    a new book runs to the end (no undefined access to an empty level, no
    endless loop), every book it passes through is well-formed, and so the best
    bid stays below the best ask. *)
Theorem runs_stay_uncrossed symbol ops :
  Forall op_in_range ops ->
  exists b fills, run_ops ops (new_book symbol) [] = Done (b, fills)
    /\ wf_book b
    /\ forall bid ask, best_bid b = Some bid -> best_ask b = Some ask -> bid < ask.
Proof.
  intros Hops. destruct (run_ops_wf ops (new_book symbol) [] (new_book_wf symbol) Hops)
    as (b & fills & Hrun & Hb & _).
  exists b, fills. split; [done|]. split; [done|]. intros bid ask. by apply wf_spread.
Qed.

(** ** Witnesses *)

(** Two asks at 101 and one at 100, a bid at 99; then a buy that takes the best
    ask and a part of the older ask at 101. *)
Definition ex_ask (id price quantity : Z) : Order :=
  mkOrder id (str "ABC") sell price quantity id good_till_cancel.
Definition ex_ops : list book_op :=
  [Submit (ex_ask 1 101 5); Submit (ex_ask 2 101 4); Submit (ex_ask 3 100 2);
   Submit (mkOrder 4 (str "ABC") buy 99 7 4 good_till_cancel)].
Definition ex_book : OrderBook :=
  mkBook (str "ABC") [(99, [mkOrder 4 (str "ABC") buy 99 7 4 good_till_cancel])]
    [(100, [ex_ask 3 100 2]); (101, [ex_ask 1 101 5; ex_ask 2 101 4])]
    (<[4 := buy]> (<[3 := sell]> (<[2 := sell]> (<[1 := sell]> ∅)))).
Definition ex_taker : Order := mkOrder 5 (str "ABC") buy 101 6 5 good_till_cancel.
Definition ex_fills : list Fill := [mkFill 5 3 buy 100 2 5; mkFill 5 1 buy 101 4 5].
Definition ex_book' : OrderBook :=
  mkBook (str "ABC") (bids_ ex_book) [(101, [ex_ask 1 101 1; ex_ask 2 101 4])]
    (delete 3 (live_orders_ ex_book)).

Lemma ex_book_run : run_ops ex_ops (new_book (str "ABC")) [] = Done (ex_book, []).
Proof. vm_compute. reflexivity. Qed.

Lemma ex_ops_in_range : Forall op_in_range ex_ops.
Proof. repeat (apply Forall_cons_2; [vm_compute; split; congruence|]). by apply Forall_nil_2. Qed.

Lemma ex_book_wf : wf_book ex_book.
Proof.
  destruct (run_ops_wf ex_ops (new_book (str "ABC")) [] (new_book_wf _) ex_ops_in_range)
    as (b & fills & Hrun & Hb & _).
  rewrite ex_book_run in Hrun. by injection Hrun as <- _.
Qed.

Lemma ex_submit :
  submit ex_taker ex_book [] = Done (mkAck 5 true 0 (str "accepted"), ex_book', ex_fills).
Proof. vm_compute. reflexivity. Qed.

Lemma ex_taker_in_range : 0 <= o_quantity ex_taker < 2 ^ 64.
Proof. vm_compute. split; congruence. Qed.

Lemma submit_refines_priority_book_witness :
  exists ack b' fs,
    submit ex_taker ex_book [] = Done (ack, b', [] ++ fs)
    /\ spec_submit (symbol_ ex_book) ex_taker (abstract ex_book) = (ack, abstract b', fs)
    /\ wf_book b'.
Proof. exact (submit_refines_priority_book ex_taker ex_book [] ex_book_wf ex_taker_in_range). Defined.

Lemma cancel_removes_exactly_witness :
  let (found, b') := cancel 2 ex_book in
  (found = true <-> 2 ∈ ids (flat (bids_ ex_book) ++ flat (asks_ ex_book)))
  /\ flat (bids_ b') = without 2 (flat (bids_ ex_book))
  /\ flat (asks_ b') = without 2 (flat (asks_ ex_book))
  /\ wf_book b'.
Proof. exact (cancel_removes_exactly 2 ex_book ex_book_wf). Defined.

Lemma fills_follow_priority_witness :
  exists n fs, let makers := opposite ex_taker (abstract ex_book) in
    ex_fills = [] ++ fs
    /\ map f_maker_id fs = ids (take n makers)
    /\ map f_price_ticks fs = map o_price_ticks (take n makers)
    /\ (forall i f o, (S i < n)%nat -> fs !! i = Some f -> makers !! i = Some o ->
          f_quantity f = o_quantity o)
    /\ Forall (fun f => crosses ex_taker (f_price_ticks f) = true
                        /\ f_taker_id f = o_id ex_taker) fs.
Proof.
  exact (fills_follow_priority ex_taker ex_book [] _ ex_book' _ ex_book_wf ex_taker_in_range
           ex_submit eq_refl).
Defined.

Lemma quantity_conserved_witness :
  exists fs,
    ex_fills = [] ++ fs
    /\ o_quantity ex_taker = 0 + filled fs
    /\ resting_total ex_book' + filled fs
       = resting_total ex_book + (if decide (o_tif ex_taker = good_till_cancel) then 0 else 0).
Proof.
  exact (quantity_conserved ex_taker ex_book [] _ ex_book' _ ex_book_wf ex_taker_in_range
           ex_submit eq_refl).
Defined.

Lemma rests_iff_remaining_gtc_witness :
  o_id ex_taker ∈ ids (flat (bids_ ex_book') ++ flat (asks_ ex_book'))
  <-> 0 < 0 /\ o_tif ex_taker = good_till_cancel.
Proof.
  exact (rests_iff_remaining_gtc ex_taker ex_book [] _ ex_book' _ ex_book_wf ex_taker_in_range
           ex_submit).
Defined.

Lemma runs_stay_uncrossed_witness :
  exists b fills, run_ops ex_ops (new_book (str "ABC")) [] = Done (b, fills)
    /\ wf_book b
    /\ forall bid ask, best_bid b = Some bid -> best_ask b = Some ask -> bid < ask.
Proof. exact (runs_stay_uncrossed (str "ABC") ex_ops ex_ops_in_range). Defined.
