(* ===== verification/Engine.v ===== *)
(** * The matching engine ([capstone/matching/solution-reference/src/engine.cpp])

    One book per symbol, created on first use, and the counter that numbers the
    orders arriving without a sequence.  The theorems lift the books' to the
    engine: symbols do not interfere, and the priority lists are sorted by price
    and then by arrival number. *)

From stdpp Require Import base gmap list sorting strings.
From Stdlib Require Import Strings.Byte ZArith Lia.
From S2P Require Import Prelude OrderBook.

Record MatchingEngine := mkEngine {
  books_ : gmap bytes OrderBook;
  next_sequence_ : Z;
}.

Definition new_engine : MatchingEngine := mkEngine ∅ 1.

(** The book of a symbol, emplaced when it is not there. *)
Definition book (symbol : bytes) (e : MatchingEngine) : OrderBook * MatchingEngine :=
  match books_ e !! symbol with
  | Some b => (b, e)
  | None =>
      let b := new_book symbol in
      (b, mkEngine (<[symbol := b]> (books_ e)) (next_sequence_ e))
  end.

Definition prepare_symbol (symbol : bytes) (e : MatchingEngine) : MatchingEngine :=
  snd (book symbol e).

Definition with_sequence (o : Order) (sequence : Z) : Order :=
  mkOrder (o_id o) (o_symbol o) (o_side o) (o_price_ticks o) (o_quantity o) sequence (o_tif o).

(** The order with its sequence, and the engine's counter after it. *)
Definition assign_sequence (order : Order) (e : MatchingEngine) : Order * MatchingEngine :=
  if o_sequence order =? 0
  then (with_sequence order (next_sequence_ e),
        mkEngine (books_ e) (u64 (next_sequence_ e + 1)))
  else (order, e).

(** The books are held by pointer: a call on a book updates it in the engine. *)
Definition put_book (symbol : bytes) (b : OrderBook) (e : MatchingEngine) : MatchingEngine :=
  mkEngine (<[symbol := b]> (books_ e)) (next_sequence_ e).

Definition engine_submit (order : Order) (e : MatchingEngine) (fills : list Fill)
  : outcome (Ack * MatchingEngine * list Fill) :=
  let (order, e) := assign_sequence order e in
  let (b, e) := book (o_symbol order) e in
  let* (ack, b, fills) := submit order b fills in
  Done (ack, put_book (o_symbol order) b e, fills).

Definition engine_cancel (symbol : bytes) (order_id : Z) (e : MatchingEngine)
  : bool * MatchingEngine :=
  let (b, e) := book symbol e in
  let (found, b) := cancel order_id b in
  (found, put_book symbol b e).

(** ** Specification *)

Definition empty_abook : abook := mkAbook [] [].

(** The resting orders of a symbol; a symbol without a book has none. *)
Definition view (e : MatchingEngine) (symbol : bytes) : abook :=
  match books_ e !! symbol with Some b => abstract b | None => empty_abook end.

Definition wf_engine (e : MatchingEngine) : Prop :=
  forall symbol b, books_ e !! symbol = Some b -> symbol_ b = symbol /\ wf_book b.

Lemma new_engine_wf : wf_engine new_engine.
Proof. intros symbol b. simpl. by rewrite lookup_empty. Qed.

Lemma book_spec symbol e :
  wf_engine e ->
  symbol_ (fst (book symbol e)) = symbol /\ wf_book (fst (book symbol e))
  /\ abstract (fst (book symbol e)) = view e symbol
  /\ wf_engine (snd (book symbol e))
  /\ (forall s, view (snd (book symbol e)) s = view e s)
  /\ next_sequence_ (snd (book symbol e)) = next_sequence_ e.
Proof.
  intros He. unfold book, view. destruct (books_ e !! symbol) as [b|] eqn:Hb; simpl.
  - destruct (He _ _ Hb). done.
  - split; [done|]. split; [apply new_book_wf|]. split; [done|]. split; [|split; [|done]].
    + intros s b. simpl. rewrite lookup_insert_Some. intros [[<- <-]|[_ ?]]; [|by apply He].
      split; [done|apply new_book_wf].
    + intros s. destruct (decide (symbol = s)) as [<-|].
      * by rewrite lookup_insert_eq, Hb.
      * by rewrite lookup_insert_ne.
Qed.

Lemma put_book_spec symbol b e :
  wf_engine e -> symbol_ b = symbol -> wf_book b ->
  wf_engine (put_book symbol b e)
  /\ view (put_book symbol b e) symbol = abstract b
  /\ (forall s, s <> symbol -> view (put_book symbol b e) s = view e s).
Proof.
  intros He Hs Hb. unfold view, put_book. simpl. split; [|split].
  - intros s b0. simpl. rewrite lookup_insert_Some. intros [[<- <-]|[_ ?]]; [done|by apply He].
  - by rewrite lookup_insert_eq.
  - intros s Hn. by rewrite lookup_insert_ne.
Qed.

Lemma assign_sequence_spec order e :
  wf_engine e ->
  wf_engine (snd (assign_sequence order e))
  /\ (forall s, view (snd (assign_sequence order e)) s = view e s)
  /\ o_symbol (fst (assign_sequence order e)) = o_symbol order
  /\ o_quantity (fst (assign_sequence order e)) = o_quantity order.
Proof. intros He. unfold assign_sequence. by case_if. Qed.

Lemma engine_submit_spec order e fills :
  wf_engine e -> 0 <= o_quantity order < 2 ^ 64 ->
  exists ack e' fs,
    engine_submit order e fills = Done (ack, e', fills ++ fs)
    /\ spec_submit (o_symbol order) (fst (assign_sequence order e)) (view e (o_symbol order))
       = (ack, view e' (o_symbol order), fs)
    /\ (forall s, s <> o_symbol order -> view e' s = view e s)
    /\ wf_engine e'
    /\ next_sequence_ e' = next_sequence_ (snd (assign_sequence order e)).
Proof.
  intros He Hq. unfold engine_submit.
  destruct (assign_sequence_spec order e He) as (He1 & Hv1 & Hs1 & Hq1).
  destruct (assign_sequence order e) as [order1 e1]. cbn [fst snd] in *.
  destruct (book_spec (o_symbol order1) e1 He1) as (Hs2 & Hb2 & Ha2 & He2 & Hv2 & Hn2).
  destruct (book (o_symbol order1) e1) as [b e2]. cbn [fst snd] in *.
  rewrite <- Hq1 in Hq. pose proof (submit_spec order1 b fills Hb2 Hq) as Hsub.
  rewrite Hs2, Ha2, Hv1, Hs1 in Hsub.
  destruct (spec_submit _ _ _) as [[ack a] fs]. destruct Hsub as (b' & -> & <- & Hb' & Hs').
  cbn [obind]. rewrite Hs1.
  destruct (put_book_spec (o_symbol order) b' e2) as (He3 & Hv3 & Hv3'); [done|congruence|done|].
  eexists _, _, _. split; [done|]. split; [by rewrite Hv3|]. split; [|done].
  intros s Hs. by rewrite Hv3', Hv2, Hv1.
Qed.

Lemma engine_cancel_spec symbol order_id e :
  wf_engine e ->
  exists e', engine_cancel symbol order_id e = (fst (spec_cancel order_id (view e symbol)), e')
    /\ view e' symbol = snd (spec_cancel order_id (view e symbol))
    /\ (forall s, s <> symbol -> view e' s = view e s)
    /\ wf_engine e' /\ next_sequence_ e' = next_sequence_ e.
Proof.
  intros He. unfold engine_cancel.
  destruct (book_spec symbol e He) as (Hs & Hb & Ha & He1 & Hv1 & Hn).
  destruct (book symbol e) as [b e1]. cbn [fst snd] in *.
  pose proof (cancel_spec order_id b Hb) as Hc. rewrite Ha in Hc.
  destruct (spec_cancel order_id (view e symbol)) as [ok a].
  destruct Hc as (b' & -> & <- & Hb' & Hs').
  destruct (put_book_spec symbol b' e1) as (He2 & Hv2 & Hv2'); [done|congruence|done|].
  eexists. split; [done|]. split; [done|]. split; [|done]. intros s Hne. by rewrite Hv2', Hv1.
Qed.

(** ** Arrival order *)

(** A better price, or the same price and an earlier sequence. *)
Definition ahead (before : Z -> Z -> bool) (a b : Order) : Prop :=
  before (o_price_ticks a) (o_price_ticks b) = true
  \/ (o_price_ticks a = o_price_ticks b /\ o_sequence a < o_sequence b).

Definition by_priority (before : Z -> Z -> bool) (next : Z) (l : list Order) : Prop :=
  StronglySorted (ahead before) l /\ Forall (fun o => o_sequence o < next) l.

Definition time_priority (next : Z) (a : abook) : Prop :=
  by_priority bids_before next (ab_bids a) /\ by_priority asks_before next (ab_asks a).

Lemma by_priority_next before next next' l :
  next <= next' -> by_priority before next l -> by_priority before next' l.
Proof.
  intros Hn [Hs Hf]. split; [done|]. eapply Forall_impl; [exact Hf|]. simpl. lia.
Qed.

Lemma insert_sorted before order next l :
  PriceOrder before -> by_priority before next l -> o_sequence order = next ->
  by_priority before (next + 1) (insert_priority before order l).
Proof.
  intros Hpo [Hs Hf] Hseq. split.
  - induction Hs as [|x l Hs IH Hall]; simpl; [by repeat constructor|].
    apply Forall_cons in Hf as [Hx Hf].
    destruct (before (o_price_ticks order) (o_price_ticks x)) eqn:Hb.
    + constructor; [by constructor|]. apply Forall_cons_2; [by left|].
      eapply Forall_impl; [exact Hall|]. intros y [Hy|[Hy _]]; left.
      * by eapply before_trans.
      * by rewrite <- Hy.
    + constructor; [by apply IH|]. apply Forall_forall. intros y.
      rewrite insert_priority_in. intros [->|Hy]; [|by eapply Forall_forall in Hall].
      destruct (before (o_price_ticks x) (o_price_ticks order)) eqn:Hb'; [by left|right].
      split; [by apply (before_total (before := before))|lia].
  - apply Forall_forall. intros y. rewrite insert_priority_in. intros [->|Hy]; [lia|].
    eapply Forall_forall in Hf; [|exact Hy]. simpl in Hf. lia.
Qed.

Lemma match_list_sorted before next order r makers :
  by_priority before next makers ->
  by_priority before next (snd (fst (match_list order r makers))).
Proof.
  intros [Hs Hf]. revert r. induction Hs as [|x l Hs IH Hall]; intros r; [by repeat constructor|].
  apply Forall_cons in Hf as [Hx Hf]. cbn [match_list].
  destruct (_ && _); [|split; [by constructor|by apply Forall_cons_2]].
  destruct (o_quantity x <=? r).
  - specialize (IH Hf (r - o_quantity x)).
    by destruct (match_list order (r - o_quantity x) l) as [[r1 ms] fs].
  - split; [by constructor|by apply Forall_cons_2].
Qed.

Lemma without_sorted before next order_id l :
  by_priority before next l -> by_priority before next (without order_id l).
Proof.
  intros [Hs Hf]. split.
  - induction Hs as [|x l Hs IH Hall]; [constructor|]. apply Forall_cons in Hf as [Hx Hf].
    unfold without. rewrite filter_cons. case_decide; [|by apply IH].
    constructor; [by apply IH|]. apply Forall_forall. intros y [_ Hy]%without_in.
    by eapply Forall_forall in Hall.
  - apply Forall_forall. intros y [_ Hy]%without_in. by eapply Forall_forall in Hf.
Qed.

Lemma spec_submit_sorted symbol order a next :
  time_priority next a -> o_sequence order = next ->
  time_priority (next + 1) (snd (fst (spec_submit symbol order a))).
Proof.
  intros [Hb Ha] Hseq.
  assert (Hkeep : time_priority (next + 1) a) by (split; (eapply by_priority_next; [|done]; lia)).
  unfold spec_submit. repeat (case_if; [done|]). unfold spec_match, spec_rest.
  pose proof (match_list_sorted _ _ order (o_quantity order) _ Ha) as Hma.
  pose proof (match_list_sorted _ _ order (o_quantity order) _ Hb) as Hmb.
  destruct Hkeep as [Hb1 Ha1]. cbn [o_side with_quantity]. destruct (o_side order).
  - destruct (match_list _ _ (ab_asks a)) as [[r asks] fs]. cbn [fst snd] in *.
    assert (by_priority asks_before (next + 1) asks) by (eapply by_priority_next; [|done]; lia).
    case_if; [|done]. split; [|done]. apply insert_sorted; (exact _ || done).
  - destruct (match_list _ _ (ab_bids a)) as [[r bids] fs]. cbn [fst snd] in *.
    assert (by_priority bids_before (next + 1) bids) by (eapply by_priority_next; [|done]; lia).
    case_if; [|done]. split; [done|]. apply insert_sorted; (exact _ || done).
Qed.

(** ** Runs of the engine *)

Inductive engine_op := ESubmit (order : Order) | ECancel (symbol : bytes) (order_id : Z).

Fixpoint run_engine (ops : list engine_op) (e : MatchingEngine) (fills : list Fill)
  : outcome (MatchingEngine * list Fill) :=
  match ops with
  | [] => Done (e, fills)
  | ESubmit order :: ops =>
      let* (_, e, fills) := engine_submit order e fills in run_engine ops e fills
  | ECancel symbol order_id :: ops => run_engine ops (snd (engine_cancel symbol order_id e)) fills
  end.

(** An order that asks the engine for its sequence. *)
Definition unnumbered (op : engine_op) : Prop :=
  match op with
  | ESubmit order => 0 <= o_quantity order < 2 ^ 64 /\ o_sequence order = 0
  | ECancel _ _ => True
  end.

Definition sequenced (e : MatchingEngine) : Prop :=
  wf_engine e /\ forall symbol, time_priority (next_sequence_ e) (view e symbol).

Lemma sequenced_submit order e fills :
  sequenced e -> 0 <= o_quantity order < 2 ^ 64 -> o_sequence order = 0 ->
  0 < next_sequence_ e < 2 ^ 64 - 1 ->
  exists ack e' fs, engine_submit order e fills = Done (ack, e', fills ++ fs)
    /\ sequenced e' /\ next_sequence_ e' = next_sequence_ e + 1.
Proof.
  intros [He Ht] Hq H0 Hn.
  destruct (engine_submit_spec order e fills He Hq) as (ack & e' & fs & -> & Hs & Hv & He' & Hn').
  unfold assign_sequence in Hs, Hn'. rewrite H0 in Hs, Hn'. cbn [Z.eqb fst snd next_sequence_] in Hs, Hn'.
  rewrite u64_small in Hn' by lia. exists ack, e', fs. split; [done|]. split; [|done].
  split; [done|]. rewrite Hn'. intros s. destruct (decide (s = o_symbol order)) as [->|Hne].
  - pose proof (spec_submit_sorted (o_symbol order) (with_sequence order (next_sequence_ e))
      _ _ (Ht (o_symbol order)) eq_refl) as Hsorted. by rewrite Hs in Hsorted.
  - rewrite Hv by done. destruct (Ht s). split; (eapply by_priority_next; [|done]; lia).
Qed.

Lemma sequenced_cancel symbol order_id e :
  sequenced e -> sequenced (snd (engine_cancel symbol order_id e))
  /\ next_sequence_ (snd (engine_cancel symbol order_id e)) = next_sequence_ e.
Proof.
  intros [He Ht]. destruct (engine_cancel_spec symbol order_id e He) as (e' & -> & Hv & Hv' & He' & Hn).
  split; [|done]. split; [done|]. cbn [snd]. rewrite Hn. intros s.
  destruct (decide (s = symbol)) as [->|Hne]; [|by rewrite Hv'].
  rewrite Hv. destruct (Ht symbol). split; by apply without_sorted.
Qed.

Lemma run_engine_sequenced ops e fills :
  sequenced e -> Forall unnumbered ops -> 0 < next_sequence_ e ->
  next_sequence_ e + Z.of_nat (length ops) < 2 ^ 64 ->
  exists e' fills', run_engine ops e fills = Done (e', fills') /\ sequenced e'.
Proof.
  intros He Hops. revert e fills He.
  induction Hops as [|[order|symbol id] ops Hop Hops IH]; intros e fills He Hpos Hlen; cbn [run_engine].
  - eauto.
  - destruct Hop as [Hq H0]. cbn [length] in Hlen.
    destruct (sequenced_submit order e fills He Hq H0) as (ack & e1 & fs & -> & He1 & Hn1); [lia|].
    cbn [obind]. apply IH; [done|lia|lia].
  - destruct (sequenced_cancel symbol id e He) as [He1 Hn1]. cbn [length] in Hlen.
    apply IH; [done|lia|lia].
Qed.

(** ** Properties *)

(** Symbols do not interfere.  A submission returns, changes the resting
    orders of its own symbol as the book specification says (with the engine's
    sequence when the order has none), leaves every other symbol's orders
    alone and keeps the engine well-formed. *)
Theorem submit_isolates_symbols order e fills :
  wf_engine e -> 0 <= o_quantity order < 2 ^ 64 ->
  exists ack e' fs,
    engine_submit order e fills = Done (ack, e', fills ++ fs)
    /\ spec_submit (o_symbol order) (fst (assign_sequence order e)) (view e (o_symbol order))
       = (ack, view e' (o_symbol order), fs)
    /\ (forall s, s <> o_symbol order -> view e' s = view e s)
    /\ wf_engine e'.
Proof.
  intros He Hq. destruct (engine_submit_spec order e fills He Hq) as (ack & e' & fs & H & ? & ? & ? & _).
  eauto 8.
Qed.

(** A cancellation concerns one order of one symbol.  It reports true exactly
    when the order rests in that symbol's book, removes exactly it, and leaves
    every other symbol's orders alone; a symbol that has no book is given an
    empty one, which changes no symbol's orders. *)
Theorem cancel_isolates_symbols symbol order_id e :
  wf_engine e ->
  let (found, e') := engine_cancel symbol order_id e in
  (found = true <-> order_id ∈ ids (ab_bids (view e symbol) ++ ab_asks (view e symbol)))
  /\ view e' symbol = mkAbook (without order_id (ab_bids (view e symbol)))
                        (without order_id (ab_asks (view e symbol)))
  /\ (forall s, s <> symbol -> view e' s = view e s)
  /\ wf_engine e'.
Proof.
  intros He. destruct (engine_cancel_spec symbol order_id e He) as (e' & -> & Hv & Hv' & He' & _).
  split; [apply bool_decide_eq_true|]. done.
Qed.


(** ** Witnesses *)

Definition ex_symbol_order (symbol : string) (id : Z) (side : Side) (price quantity : Z) : Order :=
  mkOrder id (str symbol) side price quantity 0 good_till_cancel.
Definition ex_engine_ops : list engine_op :=
  [ESubmit (ex_symbol_order "ABC" 1 sell 101 5); ESubmit (ex_symbol_order "XYZ" 1 sell 101 5);
   ECancel (str "NEW") 9; ESubmit (ex_symbol_order "ABC" 2 sell 100 5);
   ESubmit (ex_symbol_order "ABC" 3 sell 101 5); ESubmit (ex_symbol_order "ABC" 4 buy 101 7)].

Lemma ex_engine_ops_unnumbered : Forall unnumbered ex_engine_ops.
Proof. repeat (apply Forall_cons_2; [by vm_compute|]). by apply Forall_nil_2. Qed.

Lemma submit_isolates_symbols_witness :
  exists ack e' fs,
    engine_submit (ex_symbol_order "ABC" 1 sell 101 5) new_engine []
      = Done (ack, e', [] ++ fs)
    /\ spec_submit (str "ABC")
         (fst (assign_sequence (ex_symbol_order "ABC" 1 sell 101 5) new_engine))
         (view new_engine (str "ABC"))
       = (ack, view e' (str "ABC"), fs)
    /\ (forall s, s <> str "ABC" -> view e' s = view new_engine s)
    /\ wf_engine e'.
Proof.
  apply (submit_isolates_symbols (ex_symbol_order "ABC" 1 sell 101 5) new_engine []).
  - apply new_engine_wf.
  - vm_compute. split; congruence.
Defined.

Lemma cancel_isolates_symbols_witness :
  let (found, e') := engine_cancel (str "NEW") 9 new_engine in
  (found = true <-> 9 ∈ ids (ab_bids (view new_engine (str "NEW"))
                             ++ ab_asks (view new_engine (str "NEW"))))
  /\ view e' (str "NEW") = mkAbook (without 9 (ab_bids (view new_engine (str "NEW"))))
                             (without 9 (ab_asks (view new_engine (str "NEW"))))
  /\ (forall s, s <> str "NEW" -> view e' s = view new_engine s)
  /\ wf_engine e'.
Proof. exact (cancel_isolates_symbols (str "NEW") 9 new_engine new_engine_wf). Defined.

