(* ===== verification/Ingress.v ===== *)
(** * The lock-free ingress queue
      ([capstone/matching/solution-reference/include/matching/ingress_queue.hpp])

    A bounded queue for any number of producers and consumers.  A thread is in
    one of the points of [try_push] or [try_pop] between two accesses to shared
    memory; a schedule says which thread moves next, and whether a weak exchange
    may succeed there.  Threads, positions and sequence numbers are those of the
    source, at their width; memory is sequentially consistent ([WeakIngress.v]
    has the memory orders of the source).  The entries of [entered] and [claimed]
    record the successful exchanges on the two counters, which order the
    operations. *)

From stdpp Require Import base list strings.
From Stdlib Require Import ZArith Lia.
From S2P Require Import Prelude.

(** [round_power_of_two]: the loop runs at most 64 times before the shift has
    moved the only bit out; then it never ends ([round_diverges]). *)
Fixpoint round_from (fuel : nat) (value requested : Z) : outcome Z :=
  match fuel with
  | O => OutOfFuel
  | S fuel =>
      if value <? requested then round_from fuel (u64 (Z.shiftl value 1)) requested
      else Done value
  end.

Definition round_power_of_two (requested : Z) : outcome Z := round_from 64 2 requested.

Section Ingress.
Context {A : Type}.

(** ** State *)

Record Cell := mkCell { sequence : Z; value : option A }.

Record LockFreeIngress := mkIngress {
  capacity_ : Z;
  mask_ : Z;
  cells_ : list Cell;
  enqueue_ : Z;
  dequeue_ : Z;
}.

(** [allocated] is false when [make_unique] throws. *)
Definition new_ingress (requested_capacity : Z) (allocated : bool) : outcome LockFreeIngress :=
  let* capacity := round_power_of_two requested_capacity in
  if negb allocated then Threw "bad_alloc"
  else Done (mkIngress capacity (u64 (capacity - 1))
               (map (fun index => mkCell (Z.of_nat index) None) (seq 0 (Z.to_nat capacity))) 0 0).

Definition capacity (q : LockFreeIngress) : Z := capacity_ q.

(** [cells_[position & mask_]]. *)
Definition index_of (q : LockFreeIngress) (position : Z) : nat :=
  Z.to_nat (Z.land position (mask_ q)).

Definition cell_at (q : LockFreeIngress) (position : Z) : outcome Cell :=
  match cells_ q !! index_of q position with Some cell => Done cell | None => Undefined end.

Definition set_cell (q : LockFreeIngress) (position : Z) (cell : Cell) : LockFreeIngress :=
  mkIngress (capacity_ q) (mask_ q) (<[index_of q position := cell]> (cells_ q))
    (enqueue_ q) (dequeue_ q).

(** The signed difference; its overflow is undefined. *)
Definition difference (sequence position : Z) : outcome Z :=
  i64_checked (i64 sequence - i64 position).

(** ** The two operations, one access to shared memory at a time *)

Inductive activity :=
| Idle
| PushLoad (item : A)                                    (* [enqueue_.load] *)
| PushSequence (item : A) (position : Z)                 (* [sequence.load], the tests *)
| PushExchange (item : A) (position : Z)                 (* [compare_exchange_weak] *)
| PushStore (item : A) (position : Z)                    (* [value.emplace] *)
| PushPublish (item : A) (position : Z)                  (* [sequence.store] *)
| PopLoad
| PopSequence (position : Z)
| PopExchange (position : Z)
| PopTake (position : Z)                                 (* move out of [cell.value] *)
| PopReset (position : Z) (result : option A)            (* [cell.value.reset] *)
| PopRelease (position : Z) (result : option A).         (* [sequence.store] *)

Inductive returned :=
| PushReturned (item : A) (pushed : bool)
| PopReturned (result : option A).

Inductive next := Goes (a : activity) | Returns (r : returned).

(** [try_push], lines 34-52. *)
Definition push_step (exchanges : bool) (q : LockFreeIngress) (a : activity)
  : outcome (LockFreeIngress * next) :=
  match a with
  | PushLoad item => Done (q, Goes (PushSequence item (enqueue_ q)))
  | PushSequence item position =>
      let* cell := cell_at q position in
      let* difference := difference (sequence cell) position in
      Done (q, if difference =? 0 then Goes (PushExchange item position)
               else if difference <? 0 then Returns (PushReturned item false)
               else Goes (PushLoad item))
  | PushExchange item position =>
      if exchanges && (enqueue_ q =? position)
      then Done (mkIngress (capacity_ q) (mask_ q) (cells_ q) (u64 (position + 1)) (dequeue_ q),
                 Goes (PushStore item position))
      else Done (q, Goes (PushSequence item (enqueue_ q)))
  | PushStore item position =>
      let* cell := cell_at q position in
      Done (set_cell q position (mkCell (sequence cell) (Some item)),
            Goes (PushPublish item position))
  | PushPublish item position =>
      let* cell := cell_at q position in
      Done (set_cell q position (mkCell (u64 (position + 1)) (value cell)),
            Returns (PushReturned item true))
  | _ => Done (q, Goes a)
  end.

(** [try_pop], lines 54-73. *)
Definition pop_step (exchanges : bool) (q : LockFreeIngress) (a : activity)
  : outcome (LockFreeIngress * next) :=
  match a with
  | PopLoad => Done (q, Goes (PopSequence (dequeue_ q)))
  | PopSequence position =>
      let* cell := cell_at q position in
      let* difference := difference (sequence cell) (u64 (position + 1)) in
      Done (q, if difference =? 0 then Goes (PopExchange position)
               else if difference <? 0 then Returns (PopReturned None)
               else Goes PopLoad)
  | PopExchange position =>
      if exchanges && (dequeue_ q =? position)
      then Done (mkIngress (capacity_ q) (mask_ q) (cells_ q) (enqueue_ q) (u64 (position + 1)),
                 Goes (PopTake position))
      else Done (q, Goes (PopSequence (dequeue_ q)))
  | PopTake position =>
      let* cell := cell_at q position in
      Done (q, Goes (PopReset position (value cell)))
  | PopReset position result =>
      let* cell := cell_at q position in
      Done (set_cell q position (mkCell (sequence cell) None), Goes (PopRelease position result))
  | PopRelease position result =>
      let* cell := cell_at q position in
      Done (set_cell q position (mkCell (u64 (position + capacity_ q)) (value cell)),
            Returns (PopReturned result))
  | _ => Done (q, Goes a)
  end.

Definition advance (exchanges : bool) (q : LockFreeIngress) (a : activity)
  : outcome (LockFreeIngress * next) :=
  match a with
  | Idle => Done (q, Goes Idle)
  | PushLoad _ | PushSequence _ _ | PushExchange _ _ | PushStore _ _ | PushPublish _ _ =>
      push_step exchanges q a
  | _ => pop_step exchanges q a
  end.

(** ** Threads and schedules *)

Inductive op := Push (item : A) | Pop.

Record thread := mkThread { todo : list op; now : activity; results : list returned }.

Record system := mkSystem {
  queue : LockFreeIngress;
  threads : list thread;
  entered : list (nat * A);
  claimed : list nat;
}.

Definition new_system (requested_capacity : Z) (allocated : bool) (programs : list (list op))
  : outcome system :=
  let* q := new_ingress requested_capacity allocated in
  Done (mkSystem q (map (fun p => mkThread p Idle []) programs) [] []).

Definition start (o : op) : activity :=
  match o with Push item => PushLoad item | Pop => PopLoad end.

(** What a step adds to the two logs. *)
Definition enters (i : nat) (n : next) (a : activity) : list (nat * A) :=
  match a, n with PushExchange item _, Goes (PushStore _ _) => [(i, item)] | _, _ => [] end.
Definition claims (i : nat) (n : next) (a : activity) : list nat :=
  match a, n with PopExchange _, Goes (PopTake _) => [i] | _, _ => [] end.

Definition settle (th : thread) (n : next) : thread :=
  match n with
  | Goes a => mkThread (todo th) a (results th)
  | Returns r => mkThread (todo th) Idle (results th ++ [r])
  end.

(** Thread [i] makes its next access. *)
Definition step (i : nat) (exchanges : bool) (s : system) : outcome system :=
  match threads s !! i with
  | None => Done s
  | Some th =>
      match now th, todo th with
      | Idle, [] => Done s
      | Idle, o :: rest =>
          Done (mkSystem (queue s) (<[i := mkThread rest (start o) (results th)]> (threads s))
                  (entered s) (claimed s))
      | a, _ =>
          let* (q, n) := advance exchanges (queue s) a in
          Done (mkSystem q (<[i := settle th n]> (threads s))
                  (entered s ++ enters i n a) (claimed s ++ claims i n a))
      end
  end.

Fixpoint run (schedule : list (nat * bool)) (s : system) : outcome system :=
  match schedule with
  | [] => Done s
  | (i, exchanges) :: schedule => let* s := step i exchanges s in run schedule s
  end.

(** ** What the operations did, thread by thread *)

(** The items a thread has pushed, and those it has popped, in its order. *)
Definition pushed_items (th : thread) : list A :=
  omap (fun r => match r with PushReturned item true => Some item | _ => None end) (results th).
Definition popped_items (th : thread) : list A :=
  omap (fun r => match r with PopReturned result => result | _ => None end) (results th).

(** An operation past its exchange but not returned yet. *)
Definition pushing (a : activity) : option (A * Z) :=
  match a with
  | PushStore item position | PushPublish item position => Some (item, position)
  | _ => None
  end.
Definition popping (a : activity) : option Z :=
  match a with
  | PopTake position | PopReset position _ | PopRelease position _ => Some position
  | _ => None
  end.

(** The items the log of pushes attributes to thread [i]; and, pairing the
    [n]-th claim of a pop with the [n]-th item that entered, those the log of
    pops gives it. *)
Definition entered_by (i : nat) (s : system) : list A :=
  omap (fun '(j, item) => if decide (i = j) then Some item else None) (entered s).
Definition taken_by (i : nat) (s : system) : list A :=
  omap (fun '(j, (_, item)) => if decide (i = j) then Some item else None)
    (zip (claimed s) (entered s)).

(** The items of the operations in progress. *)
Definition in_push (a : activity) : list A :=
  match pushing a with Some (item, _) => [item] | None => [] end.
Definition in_pop (s : system) (a : activity) : list A :=
  match popping a with
  | Some position =>
      match entered s !! Z.to_nat position with Some (_, item) => [item] | None => [] end
  | None => []
  end.

(** Pushes a thread may still make: what bounds the counters. *)
Definition pushes_left (th : thread) : Z :=
  sum_by (fun o => match o with Push _ => 1 | Pop => 0 end) (todo th)
  + match now th with PushLoad _ | PushSequence _ _ | PushExchange _ _ => 1 | _ => 0 end.

(** ** The invariant *)

Definition slot (s : system) (position : Z) : nat := Z.to_nat (position mod capacity_ (queue s)).

Definition cell_is (s : system) (position sq : Z) (v : option A) : Prop :=
  cells_ (queue s) !! slot s position = Some (mkCell sq v).

Definition busy (s : system) (i : nat) (a : activity) : Prop :=
  exists th, threads s !! i = Some th /\ now th = a.

(** What is in the cell of item [n], where [n] is the last item that used it. *)
Inductive used (s : system) (n : Z) : Prop :=
| Used_writing i item v a :
    cell_is s n n v -> dequeue_ (queue s) <= n ->
    entered s !! Z.to_nat n = Some (i, item) -> busy s i a -> pushing a = Some (item, n) ->
    used s n
| Used_ready i item :
    cell_is s n (n + 1) (Some item) -> dequeue_ (queue s) <= n ->
    entered s !! Z.to_nat n = Some (i, item) -> used s n
| Used_taking i v a :
    cell_is s n (n + 1) v -> n < dequeue_ (queue s) ->
    claimed s !! Z.to_nat n = Some i -> busy s i a -> popping a = Some n -> used s n.

(** The cell of position [n] is waiting for item [n], or still in use by the
    item one lap before. *)
Definition cell_ok (s : system) (n : Z) : Prop :=
  (cell_is s n n None /\ n < dequeue_ (queue s) + capacity_ (queue s))
  \/ (capacity_ (queue s) <= n /\ used s (n - capacity_ (queue s))).

(** What thread [i] knows at its point of the code. *)
Definition thread_ok (s : system) (i : nat) (a : activity) : Prop :=
  match a with
  | Idle | PushLoad _ | PopLoad => True
  | PushSequence _ n => 0 <= n <= enqueue_ (queue s)
  | PushExchange _ n =>
      0 <= n <= enqueue_ (queue s) /\ (n = enqueue_ (queue s) -> exists v, cell_is s n n v)
  | PushStore item n =>
      0 <= n < enqueue_ (queue s) /\ entered s !! Z.to_nat n = Some (i, item)
      /\ exists v, cell_is s n n v
  | PushPublish item n =>
      0 <= n < enqueue_ (queue s) /\ entered s !! Z.to_nat n = Some (i, item)
      /\ cell_is s n n (Some item)
  | PopSequence n => 0 <= n <= dequeue_ (queue s)
  | PopExchange n =>
      0 <= n <= dequeue_ (queue s) /\ (n = dequeue_ (queue s) -> exists v, cell_is s n (n + 1) v)
  | PopTake n =>
      0 <= n < dequeue_ (queue s) /\ claimed s !! Z.to_nat n = Some i
      /\ exists j item, entered s !! Z.to_nat n = Some (j, item) /\ cell_is s n (n + 1) (Some item)
  | PopReset n result =>
      0 <= n < dequeue_ (queue s) /\ claimed s !! Z.to_nat n = Some i
      /\ (exists v, cell_is s n (n + 1) v)
      /\ exists j item, entered s !! Z.to_nat n = Some (j, item) /\ result = Some item
  | PopRelease n result =>
      0 <= n < dequeue_ (queue s) /\ claimed s !! Z.to_nat n = Some i
      /\ cell_is s n (n + 1) None
      /\ exists j item, entered s !! Z.to_nat n = Some (j, item) /\ result = Some item
  end.

(** The thread's results are its part of the logs. *)
Definition logs_ok (s : system) (i : nat) (th : thread) : Prop :=
  pushed_items th ++ in_push (now th) = entered_by i s
  /\ popped_items th ++ in_pop s (now th) = taken_by i s.

Record inv (s : system) : Prop := mkInv {
  inv_capacity : exists m, 1 <= m /\ capacity_ (queue s) = 2 ^ m;
  inv_mask : mask_ (queue s) = capacity_ (queue s) - 1;
  inv_length : len (cells_ (queue s)) = capacity_ (queue s);
  inv_enqueue : enqueue_ (queue s) = len (entered s);
  inv_dequeue : dequeue_ (queue s) = len (claimed s);
  inv_order : dequeue_ (queue s) <= enqueue_ (queue s)
              <= dequeue_ (queue s) + capacity_ (queue s);
  inv_bound : enqueue_ (queue s) + sum_by pushes_left (threads s) + capacity_ (queue s) < 2 ^ 63;
  inv_cells : forall n, enqueue_ (queue s) <= n < enqueue_ (queue s) + capacity_ (queue s) ->
                cell_ok s n;
  inv_threads : forall i th, threads s !! i = Some th -> thread_ok s i (now th);
  inv_logs : forall i th, threads s !! i = Some th -> logs_ok s i th;
}.

(** ** Slots *)

Section Slots.
Context (s : system) (Hinv : inv s).
Let C := capacity_ (queue s).

Lemma capacity_two : 2 <= C.
Proof.
  unfold C. destruct (inv_capacity s Hinv) as (m & Hm & ->).
  change 2 with (2 ^ 1) at 1. apply Z.pow_le_mono_r; lia.
Qed.

Lemma index_slot n : index_of (queue s) n = slot s n.
Proof.
  unfold index_of, slot. rewrite (inv_mask s Hinv).
  destruct (inv_capacity s Hinv) as (m & Hm & ->).
  replace (2 ^ m - 1) with (Z.ones m) by (rewrite Z.ones_equiv; lia).
  by rewrite Z.land_ones by lia.
Qed.

Lemma slot_bound n : (slot s n < length (cells_ (queue s)))%nat.
Proof.
  pose proof capacity_two. pose proof (inv_length s Hinv) as Hl. unfold len in Hl.
  pose proof (Z.mod_pos_bound n C ltac:(lia)). unfold slot. fold C in Hl |- *. lia.
Qed.

Lemma slot_mod n m : slot s n = slot s m <-> n mod C = m mod C.
Proof.
  pose proof capacity_two. unfold slot. fold C.
  pose proof (Z.mod_pos_bound n C ltac:(lia)). pose proof (Z.mod_pos_bound m C ltac:(lia)).
  split; [|by intros ->]. intros Heq%Z2Nat.inj; lia.
Qed.

Lemma slot_near n m : slot s n = slot s m -> - C < n - m < C -> n = m.
Proof.
  pose proof capacity_two. intros Hs%slot_mod Hd.
  pose proof (Z.div_mod n C ltac:(lia)). pose proof (Z.div_mod m C ltac:(lia)).
  assert (n / C = m / C) by nia. lia.
Qed.

Lemma slot_lap n : slot s (n - C) = slot s n.
Proof.
  pose proof capacity_two. apply slot_mod.
  replace (n - C) with (n + (-1) * C) by lia. by rewrite Z.mod_add by lia.
Qed.

(** Every cell belongs to one position of the window. *)
Lemma slot_window n :
  exists m, enqueue_ (queue s) <= m < enqueue_ (queue s) + C /\ slot s m = slot s n.
Proof.
  pose proof capacity_two. set (e := enqueue_ (queue s)).
  exists (e + (n - e) mod C). pose proof (Z.mod_pos_bound (n - e) C ltac:(lia)).
  split; [lia|]. apply slot_mod. rewrite Zplus_mod_idemp_r. f_equal. lia.
Qed.

Lemma cell_at_is n sq v : cell_is s n sq v -> cell_at (queue s) n = Done (mkCell sq v).
Proof. unfold cell_at, cell_is. rewrite index_slot. by intros ->. Qed.

Lemma cell_is_slot n m sq v : slot s n = slot s m -> cell_is s n sq v -> cell_is s m sq v.
Proof. unfold cell_is. by intros ->. Qed.

Lemma cell_is_fun n sq v sq' v' :
  cell_is s n sq v -> cell_is s n sq' v' -> sq = sq' /\ v = v'.
Proof. unfold cell_is. intros ->. by intros [= -> ->]. Qed.
End Slots.

(** ** Frame lemmas: what a step of one thread leaves alone *)

(** The state after thread [i] went from [th] to [th']. *)
Definition stepped (s : system) (i : nat) (th' : thread) (q : LockFreeIngress)
    (en : list (nat * A)) (cl : list nat) : system :=
  mkSystem q (<[i := th']> (threads s)) (entered s ++ en) (claimed s ++ cl).

(** The cell a thread counts on, with its sequence number. *)
Definition guards (s : system) (a : activity) (n sq : Z) : Prop :=
  match a with
  | PushExchange _ m => n = m /\ m = enqueue_ (queue s) /\ sq = m
  | PushStore _ m | PushPublish _ m => n = m /\ sq = m
  | PopExchange m => n = m /\ m = dequeue_ (queue s) /\ sq = m + 1
  | PopTake m | PopReset m _ | PopRelease m _ => n = m /\ sq = m + 1
  | _ => False
  end.

Lemma busy_other s i th' q en cl j a :
  i <> j -> busy s j a -> busy (stepped s i th' q en cl) j a.
Proof. intros Hij (th & Hth & Ha). exists th. simpl. by rewrite list_lookup_insert_ne. Qed.

Lemma busy_self s i th th' q en cl :
  threads s !! i = Some th -> busy (stepped s i th' q en cl) i (now th').
Proof.
  intros Hth. exists th'. simpl. split; [|done].
  apply list_lookup_insert_eq. by eapply lookup_lt_Some.
Qed.

Section Frame.
Context (s : system) (i : nat) (th th' : thread) (q : LockFreeIngress).
Context (en : list (nat * A)) (cl : list nat).
Context (Hinv : inv s) (Hth : threads s !! i = Some th).
Context (Hcap : capacity_ q = capacity_ (queue s)).
Let s' := stepped s i th' q en cl.

Lemma slot_stepped n : slot s' n = slot s n.
Proof. unfold slot. simpl. by rewrite Hcap. Qed.

Lemma cell_is_stepped n sq v :
  cells_ q !! slot s n = cells_ (queue s) !! slot s n ->
  cell_is s n sq v -> cell_is s' n sq v.
Proof. unfold cell_is. rewrite slot_stepped. simpl. by intros ->. Qed.

Lemma entered_stepped n x : entered s !! n = Some x -> entered s' !! n = Some x.
Proof. simpl. apply lookup_app_l_Some. Qed.
Lemma claimed_stepped n x : claimed s !! n = Some x -> claimed s' !! n = Some x.
Proof. simpl. apply lookup_app_l_Some. Qed.

(** A thread keeps holding its item through a step that keeps its point's. *)
Lemma busy_stepped j a n x :
  (pushing (now th) = Some (x, n) -> pushing (now th') = Some (x, n)) ->
  busy s j a -> pushing a = Some (x, n) ->
  exists a', busy s' j a' /\ pushing a' = Some (x, n).
Proof.
  intros Hk Hb Ha. destruct (decide (i = j)) as [->|Hij].
  - destruct Hb as (th0 & H0 & <-). simplify_eq.
    exists (now th'). split; [by eapply busy_self|by apply Hk].
  - exists a. split; [by apply busy_other|done].
Qed.

Lemma busy_stepped_pop j a n :
  (popping (now th) = Some n -> popping (now th') = Some n) ->
  busy s j a -> popping a = Some n -> exists a', busy s' j a' /\ popping a' = Some n.
Proof.
  intros Hk Hb Ha. destruct (decide (i = j)) as [->|Hij].
  - destruct Hb as (th0 & H0 & <-). simplify_eq.
    exists (now th'). split; [by eapply busy_self|by apply Hk].
  - exists a. split; [by apply busy_other|done].
Qed.

Lemma used_stepped n :
  cells_ q !! slot s n = cells_ (queue s) !! slot s n ->
  dequeue_ (queue s) <= dequeue_ q ->
  (dequeue_ (queue s) <= n -> dequeue_ q <= n) ->
  (forall x, pushing (now th) = Some (x, n) -> pushing (now th') = Some (x, n)) ->
  (popping (now th) = Some n -> popping (now th') = Some n) ->
  used s n -> used s' n.
Proof.
  intros Hc Hd Hd' Hpu Hpo Hu. destruct Hu as [j x v a Hcell Hdq He Hb Ha|j x Hcell Hdq He|j v a Hcell Hdq He Hb Ha].
  - destruct (busy_stepped j a n x (Hpu x) Hb Ha) as (a' & Hb' & Ha').
    eapply Used_writing; eauto using cell_is_stepped, entered_stepped.
  - eapply Used_ready; eauto using cell_is_stepped, entered_stepped.
  - destruct (busy_stepped_pop j a n Hpo Hb Ha) as (a' & Hb' & Ha').
    eapply Used_taking; eauto using cell_is_stepped, claimed_stepped.
    simpl. lia.
Qed.

Lemma cell_ok_stepped n :
  cells_ q !! slot s n = cells_ (queue s) !! slot s n ->
  dequeue_ (queue s) <= dequeue_ q ->
  (dequeue_ (queue s) <= n - capacity_ q -> dequeue_ q <= n - capacity_ q) ->
  (forall x, pushing (now th) = Some (x, n - capacity_ q) ->
     pushing (now th') = Some (x, n - capacity_ q)) ->
  (popping (now th) = Some (n - capacity_ q) -> popping (now th') = Some (n - capacity_ q)) ->
  cell_ok s n -> cell_ok s' n.
Proof.
  intros Hc Hd Hd' Hpu Hpo [[Hf Hlt]|[Hle Hu]].
  - left. split; [by apply cell_is_stepped|]. simpl. rewrite Hcap. lia.
  - right. simpl. rewrite Hcap in *. split; [done|].
    apply used_stepped; try done. by rewrite slot_lap.
Qed.

Lemma thread_ok_stepped j b :
  enqueue_ (queue s) <= enqueue_ q -> dequeue_ (queue s) <= dequeue_ q ->
  (forall n sq v, guards s b n sq -> cell_is s n sq v -> cell_is s' n sq v) ->
  thread_ok s j b -> thread_ok s' j b.
Proof.
  intros He Hd Hg.
  destruct b; simpl in Hg |- *; try done; intros Hok.
  - lia.
  - destruct Hok as [Hn Hc]. split; [lia|]. intros ->. destruct Hc as (v & Hc); [lia|].
    exists v. apply Hg; [|done]. lia.
  - destruct Hok as (Hn & Hen & v & Hc). eauto 10 using lookup_app_l_Some with lia.
  - destruct Hok as (Hn & Hen & Hc). eauto 10 using lookup_app_l_Some with lia.
  - lia.
  - destruct Hok as [Hn Hc]. split; [lia|]. intros ->. destruct Hc as (v & Hc); [lia|].
    exists v. apply Hg; [|done]. lia.
  - destruct Hok as (Hn & Hcl & k & x & Hen & Hc). eauto 12 using lookup_app_l_Some with lia.
  - destruct Hok as (Hn & Hcl & (v & Hc) & k & x & Hen & Hr).
    split_and!; eauto 10 using lookup_app_l_Some with lia.
  - destruct Hok as (Hn & Hcl & Hc & k & x & Hen & Hr).
    split_and!; eauto 10 using lookup_app_l_Some with lia.
Qed.
End Frame.

(** Thread [i] owns the cell of item [n], whose sequence number is [sq]. *)
Definition owns (s : system) (i : nat) (n sq : Z) : Prop :=
  (exists v, cell_is s n sq v)
  /\ ((sq = n /\ 0 <= n < enqueue_ (queue s) /\ exists x, entered s !! Z.to_nat n = Some (i, x))
      \/ (sq = n + 1 /\ 0 <= n < dequeue_ (queue s) /\ claimed s !! Z.to_nat n = Some i)).

(** No other thread counts on the cell. *)
Lemma owned_apart s i n sq j b m sq' v :
  inv s -> owns s i n sq -> i <> j -> thread_ok s j b -> guards s b m sq' ->
  cell_is s m sq' v -> slot s m <> slot s n.
Proof.
  intros Hinv ((w & Hw) & Ho) Hij Hok Hg Hc Hs.
  apply (cell_is_slot _ _ _ _ _ Hs) in Hc. destruct (cell_is_fun _ _ _ _ _ _ Hw Hc) as [-> _].
  pose proof (capacity_two s Hinv). pose proof (slot_near s Hinv m n Hs) as Hn.
  destruct b; simpl in Hg, Hok; try done; destruct_and?; subst;
    destruct Ho as [(? & ? & x & Hx)|(? & ? & Hx)]; try lia;
    assert (position = n) as -> by lia; try lia; destruct_and?; congruence.
Qed.

(** The cell a step writes is the only one that changes. *)
Lemma set_cell_other s n m cell :
  inv s -> slot s m <> slot s n ->
  cells_ (set_cell (queue s) n cell) !! slot s m = cells_ (queue s) !! slot s m.
Proof.
  intros Hinv Hne. simpl. rewrite index_slot by done. by rewrite list_lookup_insert_ne.
Qed.

Lemma set_cell_is s i th' n sq v en cl :
  inv s -> cell_is (stepped s i th' (set_cell (queue s) n (mkCell sq v)) en cl) n sq v.
Proof.
  intros Hinv. unfold cell_is. rewrite slot_stepped by done. simpl. rewrite index_slot by done.
  apply list_lookup_insert_eq. by apply slot_bound.
Qed.

(** *** The logs *)

Lemma zip_snoc {B D} (l : list B) (k : list D) x y :
  k !! length l = Some y -> zip (l ++ [x]) k = zip l k ++ [(x, y)].
Proof.
  revert k. induction l as [|z l IH]; intros [|w k]; simpl; try done.
  - by intros [= ->].
  - intros Hk. by rewrite (IH k).
Qed.

Lemma zip_longer {B D} (l : list B) (k k' : list D) :
  (length l <= length k)%nat -> zip l (k ++ k') = zip l k.
Proof.
  revert k. induction l as [|z l IH]; intros [|w k]; simpl; try done; [lia|].
  intros Hl. rewrite IH; [done|lia].
Qed.

Lemma omap_snoc {B D} (f : B -> option D) l x :
  omap f (l ++ [x]) = omap f l ++ match f x with Some y => [y] | None => [] end.
Proof. rewrite omap_app. simpl. by destruct (f x). Qed.

Section Logs.
Context (s : system) (Hinv : inv s).

Lemma log_lengths : (length (claimed s) <= length (entered s))%nat.
Proof.
  pose proof (inv_order s Hinv). pose proof (inv_enqueue s Hinv). pose proof (inv_dequeue s Hinv).
  unfold len in *. lia.
Qed.

Lemma entered_by_stepped i th' q en cl j :
  entered_by j (stepped s i th' q en cl)
  = entered_by j s ++ omap (fun '(k, x) => if decide (j = k) then Some x else None) en.
Proof. unfold entered_by. simpl. apply omap_app. Qed.

Lemma taken_by_entered i th' q en j : taken_by j (stepped s i th' q en []) = taken_by j s.
Proof.
  unfold taken_by. simpl. rewrite app_nil_r, zip_longer; [done|apply log_lengths].
Qed.

Lemma taken_by_claimed i th' q j k x :
  entered s !! length (claimed s) = Some (k, x) ->
  taken_by j (stepped s i th' q [] [i]) = taken_by j s ++ if decide (j = i) then [x] else [].
Proof.
  intros Hx. unfold taken_by. simpl. rewrite app_nil_r, (zip_snoc _ _ _ _ Hx), omap_snoc. simpl.
  by destruct (decide (j = i)).
Qed.

Lemma in_pop_stepped i th' q en cl j a :
  thread_ok s j a -> in_pop (stepped s i th' q en cl) a = in_pop s a.
Proof.
  intros Hok. unfold in_pop. destruct (popping a) as [n|] eqn:Ha; [|done]. simpl.
  assert (exists k x, entered s !! Z.to_nat n = Some (k, x)) as (k & x & Hx).
  { destruct a; simplify_eq/=;
      [destruct Hok as (_ & _ & k & x & Hx & _)|destruct Hok as (_ & _ & _ & k & x & Hx & _)..];
      eauto. }
  by rewrite (lookup_app_l_Some _ _ _ _ Hx), Hx.
Qed.
End Logs.

(** ** The invariant is kept *)

Lemma inv_stepped s i th th' q en cl :
  inv s -> threads s !! i = Some th ->
  capacity_ q = capacity_ (queue s) -> mask_ q = mask_ (queue s) ->
  length (cells_ q) = length (cells_ (queue s)) ->
  enqueue_ q = enqueue_ (queue s) + len en -> dequeue_ q = dequeue_ (queue s) + len cl ->
  dequeue_ q <= enqueue_ q <= dequeue_ q + capacity_ q ->
  pushes_left th' + len en <= pushes_left th ->
  (forall n, enqueue_ q <= n < enqueue_ q + capacity_ q -> cell_ok (stepped s i th' q en cl) n) ->
  (forall j b n sq v, i <> j -> thread_ok s j b -> guards s b n sq -> cell_is s n sq v ->
     cell_is (stepped s i th' q en cl) n sq v) ->
  (forall j, i <> j -> entered_by j (stepped s i th' q en cl) = entered_by j s
                       /\ taken_by j (stepped s i th' q en cl) = taken_by j s) ->
  thread_ok (stepped s i th' q en cl) i (now th') ->
  logs_ok (stepped s i th' q en cl) i th' ->
  inv (stepped s i th' q en cl).
Proof.
  intros Hinv Hth Hc Hm Hl He Hd Hord Hp Hcells Hother Hlogs Hok Hlog.
  pose proof (len_nonneg en). pose proof (len_nonneg cl).
  split; simpl; rewrite ?Hc, ?Hm; try apply Hinv; try done.
  - unfold len in *. rewrite Hl. apply Hinv.
  - rewrite len_app, He. by rewrite (inv_enqueue s Hinv).
  - rewrite len_app, Hd. by rewrite (inv_dequeue s Hinv).
  - lia.
  - rewrite (sum_by_insert _ _ _ _ _ Hth). pose proof (inv_bound s Hinv). lia.
  - rewrite <- Hc. done.
  - intros j thj [[<- [<- _]]|[Hij Hj]]%list_lookup_insert_Some; [done|].
    pose proof (inv_threads s Hinv j thj Hj) as Hokj.
    apply thread_ok_stepped; [lia|lia| |done]. intros; by eapply Hother.
  - intros j thj [[<- [<- _]]|[Hij Hj]]%list_lookup_insert_Some; [done|].
    pose proof (inv_threads s Hinv j thj Hj) as Hokj.
    destruct (inv_logs s Hinv j thj Hj) as [Hpu Hpo]. destruct (Hlogs j Hij) as [Hen Hta].
    split; [by rewrite Hen|]. rewrite Hta, (in_pop_stepped s _ _ _ _ _ j); done.
Qed.

(** A step that leaves the logs alone. *)
Lemma logs_kept s i th th' q :
  inv s -> threads s !! i = Some th ->
  pushed_items th' ++ in_push (now th') = pushed_items th ++ in_push (now th) ->
  popped_items th' ++ in_pop s (now th') = popped_items th ++ in_pop s (now th) ->
  logs_ok (stepped s i th' q [] []) i th'.
Proof.
  intros Hinv Hth Hpu Hpo. destruct (inv_logs s Hinv i th Hth) as [H1 H2].
  unfold logs_ok. rewrite entered_by_stepped, taken_by_entered, app_nil_r by done.
  rewrite <- H1, <- H2, <- Hpu, <- Hpo. unfold in_pop. simpl. by rewrite app_nil_r.
Qed.

(** A step that neither writes nor takes or gives up a cell. *)
Lemma inv_quiet s i th th' :
  inv s -> threads s !! i = Some th -> pushes_left th' <= pushes_left th ->
  pushed_items th' = pushed_items th -> popped_items th' = popped_items th ->
  pushing (now th') = pushing (now th) -> popping (now th') = popping (now th) ->
  thread_ok s i (now th') -> inv (stepped s i th' (queue s) [] []).
Proof.
  intros Hinv Hth Hp Hpu Hpo Hpun Hpon Hok.
  assert (thread_ok (stepped s i th' (queue s) [] []) i (now th')) as Hok'.
  { by apply thread_ok_stepped. }
  eapply inv_stepped; try done; simpl.
  - rewrite len_nil. lia.
  - rewrite len_nil. lia.
  - by apply inv_order.
  - rewrite len_nil. lia.
  - intros n Hn. eapply cell_ok_stepped; try done; try lia; try congruence.
    by apply (inv_cells s Hinv).
  - intros j Hij. by rewrite entered_by_stepped, taken_by_entered, app_nil_r.
  - apply (logs_kept s i th); [done..| |]; rewrite ?Hpu, ?Hpo; unfold in_push, in_pop;
      by rewrite ?Hpun, ?Hpon.
Qed.

(** An owned cell is the one of the item a lap before its window position. *)
Lemma owner_lap s i n sq m :
  inv s -> owns s i n sq ->
  enqueue_ (queue s) <= m < enqueue_ (queue s) + capacity_ (queue s) ->
  slot s m = slot s n -> capacity_ (queue s) <= m /\ m - capacity_ (queue s) = n.
Proof.
  intros Hinv ((v & Hv) & Ho) Hm Hs. pose proof (capacity_two s Hinv). pose proof (inv_order s Hinv).
  destruct (inv_cells s Hinv m Hm) as [[Hf Hlt]|[Hle Hu]].
  - apply (cell_is_slot _ _ _ _ _ Hs) in Hf. destruct (cell_is_fun _ _ _ _ _ _ Hv Hf) as [-> _].
    pose proof (slot_near s Hinv m n Hs). lia.
  - split; [done|]. pose proof (slot_lap s Hinv m) as Hl. rewrite Hs in Hl.
    apply (slot_near s Hinv); [done|].
    destruct Hu as [j x w a Hc|j x Hc|j w a Hc]; apply (cell_is_slot _ _ _ _ _ Hl) in Hc;
      destruct (cell_is_fun _ _ _ _ _ _ Hv Hc) as [-> _]; lia.
Qed.

(** A step of the owner of a cell that writes it. *)
Lemma inv_owned s i th th' n sq cell :
  inv s -> threads s !! i = Some th -> owns s i n sq -> pushes_left th' <= pushes_left th ->
  (forall x m, m <> n -> pushing (now th) = Some (x, m) -> pushing (now th') = Some (x, m)) ->
  (forall m, m <> n -> popping (now th) = Some m -> popping (now th') = Some m) ->
  let s' := stepped s i th' (set_cell (queue s) n cell) [] [] in
  cell_ok s' (n + capacity_ (queue s)) -> thread_ok s' i (now th') -> logs_ok s' i th' -> inv s'.
Proof.
  intros Hinv Hth Ho Hp Hpun Hpon s' Hu Hok Hlogs.
  eapply inv_stepped; try done; simpl.
  - by rewrite length_insert.
  - rewrite len_nil. lia.
  - rewrite len_nil. lia.
  - by apply inv_order.
  - rewrite len_nil. lia.
  - intros m Hm. destruct (decide (slot s m = slot s n)) as [Hs|Hs].
    + destruct (owner_lap s i n sq m Hinv Ho Hm Hs) as [? Hl].
      by replace m with (n + capacity_ (queue s)) by lia.
    + assert (m - capacity_ (queue s) <> n) as Hne
        by (intros <-; by rewrite (slot_lap s Hinv) in Hs).
      eapply cell_ok_stepped; try done; try lia; eauto.
      * by apply set_cell_other.
      * by apply (inv_cells s Hinv).
  - intros j b m sq' w Hij Hb Hg Hc. apply cell_is_stepped; [done| |done].
    apply set_cell_other; [done|]. by eapply owned_apart.
  - intros j Hij. by rewrite entered_by_stepped, taken_by_entered, app_nil_r.
Qed.

(** *** The cells the threads look at *)

(** A cell at rest for the next push. *)
Lemma free_at s v :
  inv s -> cell_is s (enqueue_ (queue s)) (enqueue_ (queue s)) v ->
  enqueue_ (queue s) < dequeue_ (queue s) + capacity_ (queue s).
Proof.
  intros Hinv Hc. pose proof (capacity_two s Hinv).
  destruct (inv_cells s Hinv (enqueue_ (queue s))) as [[_ Hlt]|[Hle Hu]]; [lia|done|].
  pose proof (slot_lap s Hinv (enqueue_ (queue s))) as Hl.
  destruct Hu as [j x w a Hu|j x Hu|j w a Hu]; apply (cell_is_slot _ _ _ _ _ Hl) in Hu;
    destruct (cell_is_fun _ _ _ _ _ _ Hc Hu) as [? _]; lia.
Qed.

(** A cell that a push is writing. *)
Lemma writing_at s n v :
  inv s -> 0 <= n < enqueue_ (queue s) -> cell_is s n n v -> dequeue_ (queue s) <= n.
Proof.
  intros Hinv Hn Hc. pose proof (capacity_two s Hinv).
  destruct (slot_window s Hinv n) as (m & Hm & Hs). pose proof (slot_near s Hinv m n Hs).
  destruct (inv_cells s Hinv m Hm) as [[Hf _]|[Hle Hu]].
  - apply (cell_is_slot _ _ _ _ _ Hs) in Hf.
    destruct (cell_is_fun _ _ _ _ _ _ Hc Hf) as [? _]. lia.
  - pose proof (slot_lap s Hinv m) as Hl. rewrite Hs in Hl. pose proof (slot_near s Hinv _ _ Hl).
    destruct Hu as [j x w a Hu|j x Hu|j w a Hu]; apply (cell_is_slot _ _ _ _ _ Hl) in Hu;
      destruct (cell_is_fun _ _ _ _ _ _ Hc Hu) as [? _]; lia.
Qed.

(** The next item to pop, when its cell holds it. *)
Lemma ready_at s v :
  inv s -> cell_is s (dequeue_ (queue s)) (dequeue_ (queue s) + 1) v ->
  dequeue_ (queue s) < enqueue_ (queue s)
  /\ exists i x, entered s !! Z.to_nat (dequeue_ (queue s)) = Some (i, x) /\ v = Some x.
Proof.
  intros Hinv Hc. pose proof (capacity_two s Hinv).
  destruct (slot_window s Hinv (dequeue_ (queue s))) as (m & Hm & Hs). pose proof (slot_near s Hinv m _ Hs).
  destruct (inv_cells s Hinv m Hm) as [[Hf _]|[Hle Hu]].
  - apply (cell_is_slot _ _ _ _ _ Hs) in Hf.
    destruct (cell_is_fun _ _ _ _ _ _ Hc Hf) as [? _]. lia.
  - pose proof (slot_lap s Hinv m) as Hl. rewrite Hs in Hl. pose proof (slot_near s Hinv _ _ Hl).
    destruct Hu as [j x w a Hu|j x Hu Hd He|j w a Hu]; apply (cell_is_slot _ _ _ _ _ Hl) in Hu;
      destruct (cell_is_fun _ _ _ _ _ _ Hc Hu) as [Heq ->]; try lia.
    assert (m - capacity_ (queue s) = dequeue_ (queue s)) as Hmd by lia. rewrite Hmd in He. split; [lia|eauto].
Qed.

(** *** The steps that change the queue *)

Section Steps.
Context (s : system) (i : nat) (th : thread).
Context (Hinv : inv s) (Hth : threads s !! i = Some th).

Lemma own_push x n : pushing (now th) = Some (x, n) -> owns s i n n.
Proof.
  pose proof (inv_threads s Hinv i th Hth) as Hok. unfold owns.
  destruct (now th); simpl in *; try done; intros [= -> ->];
    [destruct Hok as (Hn & Hen & v & Hc)|destruct Hok as (Hn & Hen & Hc)];
    (split; [by eexists|left; eauto]).
Qed.

Lemma own_pop n : popping (now th) = Some n -> owns s i n (n + 1).
Proof.
  pose proof (inv_threads s Hinv i th Hth) as Hok. unfold owns.
  destruct (now th); simpl in *; try done; intros [= ->];
    [destruct Hok as (Hn & Hcl & k & x & _ & Hc)|destruct Hok as (Hn & Hcl & (v & Hc) & _)
    |destruct Hok as (Hn & Hcl & Hc & _)]; (split; [by eexists|right; eauto]).
Qed.

Lemma push_exchanged item n :
  now th = PushExchange item n -> enqueue_ (queue s) = n ->
  inv (stepped s i (settle th (Goes (PushStore item n)))
         (mkIngress (capacity_ (queue s)) (mask_ (queue s)) (cells_ (queue s)) (n + 1)
            (dequeue_ (queue s))) [(i, item)] []).
Proof.
  intros Hnow He. pose proof (inv_threads s Hinv i th Hth) as Hok. rewrite Hnow in Hok.
  destruct Hok as [Hn Hc]. destruct Hc as (v & Hc); [done|].
  pose proof (inv_order s Hinv). pose proof (inv_enqueue s Hinv) as Hlen. unfold len in Hlen.
  assert (n < dequeue_ (queue s) + capacity_ (queue s)) as Hroom
    by (rewrite <- He in Hc |- *; by eapply free_at).
  assert (entered (stepped s i (settle th (Goes (PushStore item n)))
    (mkIngress (capacity_ (queue s)) (mask_ (queue s)) (cells_ (queue s)) (n + 1)
       (dequeue_ (queue s))) [(i, item)] []) !! Z.to_nat n = Some (i, item)) as Hent.
  { simpl. rewrite lookup_app_r by lia.
    by replace (Z.to_nat n - length (entered s))%nat with 0%nat by lia. }
  eapply inv_stepped; try done; simpl.
  - rewrite len_cons, len_nil. lia.
  - rewrite len_nil. lia.
  - lia.
  - unfold pushes_left, len. rewrite Hnow. simpl. lia.
  - intros m Hm. destruct (decide (m = n + capacity_ (queue s))) as [->|Hne].
    + right. simpl. split; [lia|].
      replace (n + capacity_ (queue s) - capacity_ (queue s)) with n by lia.
      eapply Used_writing; [exact Hc|simpl; lia|done|by eapply busy_self|done].
    + eapply cell_ok_stepped; try done; simpl; try lia; [by rewrite Hnow..|].
      apply (inv_cells s Hinv). lia.
  - intros j Hij. rewrite entered_by_stepped, taken_by_entered by done. simpl.
    rewrite decide_False by congruence. by rewrite app_nil_r.
  - split; [lia|]. split; [done|]. by exists v.
  - destruct (inv_logs s Hinv i th Hth) as [H1 H2].
    unfold logs_ok. rewrite entered_by_stepped, taken_by_entered by done. simpl.
    rewrite decide_True, <- H1, <- H2, Hnow by done. by rewrite !app_nil_r.
Qed.

Lemma pop_exchanged n :
  now th = PopExchange n -> dequeue_ (queue s) = n ->
  inv (stepped s i (settle th (Goes (PopTake n)))
         (mkIngress (capacity_ (queue s)) (mask_ (queue s)) (cells_ (queue s))
            (enqueue_ (queue s)) (n + 1)) [] [i]).
Proof.
  intros Hnow He. pose proof (inv_threads s Hinv i th Hth) as Hok. rewrite Hnow in Hok.
  destruct Hok as [Hn Hc]. destruct Hc as (v & Hc); [done|].
  pose proof (inv_order s Hinv). pose proof (inv_dequeue s Hinv) as Hlen. unfold len in Hlen.
  assert (n < enqueue_ (queue s)
          /\ exists k x, entered s !! Z.to_nat n = Some (k, x) /\ v = Some x) as (Hlt & k & x & Hx & ->)
    by (rewrite <- He in Hc |- *; by eapply ready_at).
  assert (claimed (stepped s i (settle th (Goes (PopTake n)))
    (mkIngress (capacity_ (queue s)) (mask_ (queue s)) (cells_ (queue s))
       (enqueue_ (queue s)) (n + 1)) [] [i]) !! Z.to_nat n = Some i) as Hcl.
  { simpl. rewrite lookup_app_r by lia.
    by replace (Z.to_nat n - length (claimed s))%nat with 0%nat by lia. }
  eapply inv_stepped; try done; simpl.
  - rewrite len_nil. lia.
  - rewrite len_cons, len_nil. lia.
  - lia.
  - unfold pushes_left, len. rewrite Hnow. simpl. lia.
  - intros m Hm. destruct (decide (m = n + capacity_ (queue s))) as [->|Hne].
    + right. simpl. split; [lia|].
      replace (n + capacity_ (queue s) - capacity_ (queue s)) with n by lia.
      eapply Used_taking; [exact Hc|simpl; lia|done|by eapply busy_self|done].
    + eapply cell_ok_stepped; try done; simpl; try lia; [by rewrite Hnow..|].
      apply (inv_cells s Hinv). lia.
  - intros j Hij. rewrite entered_by_stepped, app_nil_r. split; [done|].
    rewrite (taken_by_claimed s _ _ _ _ k x) by (rewrite <- Hx; f_equal; lia).
    rewrite decide_False by congruence. by rewrite app_nil_r.
  - split; [lia|]. split; [done|]. exists k, x. by rewrite app_nil_r.
  - destruct (inv_logs s Hinv i th Hth) as [H1 H2].
    unfold logs_ok. rewrite entered_by_stepped.
    rewrite (taken_by_claimed s _ _ _ _ k x) by (rewrite <- Hx; f_equal; lia).
    rewrite decide_True, <- H1, <- H2, Hnow by done. simpl. unfold in_pop. simpl.
    by rewrite !app_nil_r, Hx.
Qed.
Lemma push_stored item n v :
  now th = PushStore item n -> cell_is s n n v ->
  inv (stepped s i (settle th (Goes (PushPublish item n)))
         (set_cell (queue s) n (mkCell n (Some item))) [] []).
Proof.
  intros Hnow Hc. pose proof (inv_threads s Hinv i th Hth) as Hok. rewrite Hnow in Hok.
  destruct Hok as (Hn & Hen & _).
  eapply (inv_owned s i th _ n n); try done; simpl.
  - apply (own_push item). by rewrite Hnow.
  - unfold pushes_left. simpl. rewrite Hnow. lia.
  - by rewrite Hnow.
  - by rewrite Hnow.
  - right. simpl. split; [lia|].
    replace (n + capacity_ (queue s) - capacity_ (queue s)) with n by lia.
    eapply Used_writing; [by apply set_cell_is|by eapply (writing_at s)| |by eapply busy_self|done].
    simpl. by rewrite app_nil_r.
  - split; [done|]. split; [by rewrite app_nil_r|]. by apply set_cell_is.
  - apply (logs_kept s i th); try done; by rewrite Hnow.
Qed.

Lemma push_published item n :
  now th = PushPublish item n ->
  inv (stepped s i (settle th (Returns (PushReturned item true)))
         (set_cell (queue s) n (mkCell (n + 1) (Some item))) [] []).
Proof.
  intros Hnow. pose proof (inv_threads s Hinv i th Hth) as Hok. rewrite Hnow in Hok.
  destruct Hok as (Hn & Hen & Hc).
  eapply (inv_owned s i th _ n n); try done; simpl.
  - apply (own_push item). by rewrite Hnow.
  - unfold pushes_left. simpl. rewrite Hnow. lia.
  - rewrite Hnow. simpl. congruence.
  - by rewrite Hnow.
  - right. simpl. split; [lia|].
    replace (n + capacity_ (queue s) - capacity_ (queue s)) with n by lia.
    eapply Used_ready; [by apply set_cell_is|by eapply (writing_at s)|].
    simpl. by rewrite app_nil_r.
  - apply (logs_kept s i th); try done; rewrite Hnow; unfold pushed_items, popped_items; simpl;
      by rewrite omap_snoc, app_nil_r.
Qed.

Lemma pop_reset n result :
  now th = PopReset n result ->
  inv (stepped s i (settle th (Goes (PopRelease n result)))
         (set_cell (queue s) n (mkCell (n + 1) None)) [] []).
Proof.
  intros Hnow. pose proof (inv_threads s Hinv i th Hth) as Hok. rewrite Hnow in Hok.
  destruct Hok as (Hn & Hcl & Hc & Hr).
  eapply (inv_owned s i th _ n (n + 1)); try done; simpl.
  - apply own_pop. by rewrite Hnow.
  - unfold pushes_left. simpl. rewrite Hnow. lia.
  - by rewrite Hnow.
  - by rewrite Hnow.
  - right. simpl. split; [pose proof (inv_order s Hinv); lia|].
    replace (n + capacity_ (queue s) - capacity_ (queue s)) with n by lia.
    eapply Used_taking; [by apply set_cell_is|simpl; lia| |by eapply busy_self|done].
    simpl. by rewrite app_nil_r.
  - rewrite !app_nil_r. split; [done|]. split; [done|]. split; [by apply set_cell_is|done].
  - apply (logs_kept s i th); try done; by rewrite Hnow.
Qed.

Lemma pop_released n result :
  now th = PopRelease n result ->
  inv (stepped s i (settle th (Returns (PopReturned result)))
         (set_cell (queue s) n (mkCell (n + capacity_ (queue s)) None)) [] []).
Proof.
  intros Hnow. pose proof (inv_threads s Hinv i th Hth) as Hok. rewrite Hnow in Hok.
  destruct Hok as (Hn & Hcl & Hc & j & x & Hen & ->).
  eapply (inv_owned s i th _ n (n + 1)); try done; simpl.
  - apply own_pop. by rewrite Hnow.
  - unfold pushes_left. simpl. rewrite Hnow. lia.
  - by rewrite Hnow.
  - rewrite Hnow. simpl. congruence.
  - left. simpl. split; [|lia]. eapply cell_is_slot; [|by apply set_cell_is].
    rewrite !slot_stepped by done. symmetry.
    rewrite <- (slot_lap s Hinv). f_equal. lia.
  - apply (logs_kept s i th); try done; rewrite Hnow; unfold pushed_items, popped_items; simpl;
      rewrite omap_snoc, ?app_nil_r; [done|]. unfold in_pop. simpl. by rewrite Hen.
Qed.
End Steps.

(** *** What a load of a sequence number sees *)

Lemma difference_ok sq n :
  0 <= sq < 2 ^ 63 -> 0 <= n < 2 ^ 63 -> difference sq n = Done (sq - n).
Proof.
  intros Hs Hn. unfold difference. rewrite !i64_small by lia. apply i64_checked_ok. lia.
Qed.

Lemma counters_small s :
  inv s -> 0 <= dequeue_ (queue s) /\ enqueue_ (queue s) + capacity_ (queue s) < 2 ^ 63.
Proof.
  intros Hinv. pose proof (inv_bound s Hinv). rewrite (inv_dequeue s Hinv).
  pose proof (len_nonneg (claimed s)).
  assert (0 <= sum_by pushes_left (threads s)); [|lia].
  apply sum_by_nonneg. intros th. unfold pushes_left.
  assert (0 <= sum_by (fun o => match o with Push _ => 1 | Pop => 0 end) (todo th))
    by (apply sum_by_nonneg; intros []; lia).
  destruct (now th); lia.
Qed.

(** No room: the queue is full, or a pop is about to release the cell. *)
Definition no_room (s : system) : Prop :=
  enqueue_ (queue s) = dequeue_ (queue s) + capacity_ (queue s)
  \/ exists j a, busy s j a /\ popping a = Some (enqueue_ (queue s) - capacity_ (queue s)).

(** No item: the queue is empty, or the push of its first item is in progress. *)
Definition no_item (s : system) : Prop :=
  enqueue_ (queue s) = dequeue_ (queue s)
  \/ exists j a x, busy s j a /\ pushing a = Some (x, dequeue_ (queue s)).

Lemma push_view s n :
  inv s -> 0 <= n <= enqueue_ (queue s) ->
  exists sq v, cell_is s n sq v /\ 0 <= sq < 2 ^ 63
    /\ (n < enqueue_ (queue s) -> n <= sq)
    /\ (n = enqueue_ (queue s) -> sq = n \/ sq < n /\ no_room s).
Proof.
  intros Hinv Hn. pose proof (capacity_two s Hinv). pose proof (counters_small s Hinv).
  pose proof (inv_order s Hinv).
  destruct (slot_window s Hinv n) as (m & Hm & Hs). pose proof (slot_near s Hinv m n Hs) as Hnear.
  destruct (inv_cells s Hinv m Hm) as [[Hf _]|[Hle Hu]].
  - apply (cell_is_slot _ _ _ _ _ Hs) in Hf. exists m, None. split_and!; try done; lia.
  - pose proof (slot_lap s Hinv m) as Hl. rewrite Hs in Hl. pose proof (slot_near s Hinv _ _ Hl).
    destruct Hu as [j x w a Hu Hd He Hb Ha|j x Hu Hd He|j w a Hu Hd He Hb Ha];
      apply (cell_is_slot _ _ _ _ _ Hl) in Hu; do 2 eexists; split; try exact Hu;
      (split; [lia|]); (split; [lia|]); intros ->; right; (split; [lia|]).
    + left. lia.
    + left. lia.
    + right. exists j, a. split; [done|]. rewrite Ha. f_equal. lia.
Qed.

Lemma pop_view s n :
  inv s -> 0 <= n <= dequeue_ (queue s) ->
  exists sq v, cell_is s n sq v /\ 0 <= sq < 2 ^ 63
    /\ (n < dequeue_ (queue s) -> n + 1 <= sq)
    /\ (n = dequeue_ (queue s) -> sq = n + 1 \/ sq < n + 1 /\ no_item s).
Proof.
  intros Hinv Hn. pose proof (capacity_two s Hinv). pose proof (counters_small s Hinv).
  pose proof (inv_order s Hinv).
  destruct (slot_window s Hinv n) as (m & Hm & Hs). pose proof (slot_near s Hinv m n Hs) as Hnear.
  destruct (inv_cells s Hinv m Hm) as [[Hf Hlt]|[Hle Hu]].
  - apply (cell_is_slot _ _ _ _ _ Hs) in Hf. exists m, None. split_and!; try done; try lia.
    intros ->. right. split; [lia|]. left. lia.
  - pose proof (slot_lap s Hinv m) as Hl. rewrite Hs in Hl. pose proof (slot_near s Hinv _ _ Hl).
    destruct Hu as [j x w a Hu Hd He Hb Ha|j x Hu Hd He|j w a Hu Hd He Hb Ha];
      apply (cell_is_slot _ _ _ _ _ Hl) in Hu; do 2 eexists; split; try exact Hu;
      (split; [lia|]); (split; [lia|]); intros ->.
    + right. split; [lia|]. right. exists j, a, x. split; [done|]. rewrite Ha. do 2 f_equal. lia.
    + left. lia.
    + right. split; [lia|]. left. lia.
Qed.


(** *** One step *)

Ltac quiet_step Hinv Hth Hnow :=
  eapply (inv_quiet _ _ _ _ Hinv Hth); try done;
  unfold pushes_left, pushed_items, popped_items; simpl;
  rewrite ?Hnow, ?omap_snoc, ?app_nil_r; try done; try lia.

(** Every step is defined and keeps the invariant; a step that refuses does so
    when there is no room or no item. *)
Definition safe_step (s : system) (i : nat) (th : thread)
    (r : outcome (LockFreeIngress * next)) : Prop :=
  exists q n, r = Done (q, n)
    /\ inv (stepped s i (settle th n) q (enters i n (now th)) (claims i n (now th)))
    /\ (forall item, n = Returns (PushReturned item false) -> no_room s)
    /\ (n = Returns (PopReturned None) -> no_item s).

Section Step.
Context (s : system) (i : nat) (th : thread).
Context (Hinv : inv s) (Hth : threads s !! i = Some th).

Lemma push_sequence_safe exchanges item n :
  now th = PushSequence item n -> safe_step s i th (push_step exchanges (queue s) (now th)).
Proof.
  intros Hnow. pose proof (inv_threads s Hinv i th Hth) as Hok.
  pose proof (counters_small s Hinv). pose proof (capacity_two s Hinv).
  unfold safe_step. rewrite Hnow in Hok |- *. simpl in Hok |- *.
  destruct (push_view s n Hinv Hok) as (sq & v & Hc & Hsq & Hlt & Heq).
  rewrite (cell_at_is s Hinv _ _ _ Hc). simpl. rewrite difference_ok by lia. simpl.
  do 2 eexists. split; [done|].
  destruct (Z.eqb_spec (sq - n) 0); [|destruct (Z.ltb_spec (sq - n) 0)]; simpl.
  - split; [|by split]. quiet_step Hinv Hth Hnow.
    split; [done|]. intros _. exists v. by replace sq with n in Hc by lia.
  - split; [quiet_step Hinv Hth Hnow|split; [|done]].
    intros _ _. destruct Heq as [?|[_ ?]]; [lia|lia|done].
  - split; [quiet_step Hinv Hth Hnow|by split].
Qed.

Lemma push_exchange_safe exchanges item n :
  now th = PushExchange item n -> safe_step s i th (push_step exchanges (queue s) (now th)).
Proof.
  intros Hnow. pose proof (inv_threads s Hinv i th Hth) as Hok.
  pose proof (counters_small s Hinv). pose proof (capacity_two s Hinv). pose proof (inv_order s Hinv).
  unfold safe_step. rewrite Hnow in Hok |- *. simpl in Hok |- *. destruct Hok as [Hn Hc].
  destruct (exchanges && (enqueue_ (queue s) =? n)) eqn:Hex; do 2 eexists; (split; [done|]); simpl.
  - reflect_bools. rewrite u64_small by lia. split; [by apply push_exchanged|by split].
  - split; [quiet_step Hinv Hth Hnow|by split].
Qed.

Lemma push_safe exchanges :
  now th <> Idle -> popping (now th) = None ->
  match now th with PopLoad | PopSequence _ | PopExchange _ => False | _ => True end ->
  safe_step s i th (push_step exchanges (queue s) (now th)).
Proof.
  intros Hidle Hpop Hpush. pose proof (inv_threads s Hinv i th Hth) as Hok.
  pose proof (counters_small s Hinv). pose proof (capacity_two s Hinv). pose proof (inv_order s Hinv).
  destruct (now th) as [|item|item n|item n|item n|item n| |n|n|n|n r|n r] eqn:Hnow; try done;
    rewrite <- Hnow.
  - unfold safe_step. rewrite Hnow. do 2 eexists. split; [done|].
    split; [quiet_step Hinv Hth Hnow|by split].
  - by eapply push_sequence_safe.
  - by eapply push_exchange_safe.
  - unfold safe_step. rewrite Hnow. simpl. destruct Hok as (Hn & Hen & v & Hc).
    rewrite (cell_at_is s Hinv _ _ _ Hc). do 2 eexists. split; [done|].
    split; [by eapply push_stored|by split].
  - unfold safe_step. rewrite Hnow. simpl. destruct Hok as (Hn & Hen & Hc).
    rewrite (cell_at_is s Hinv _ _ _ Hc). simpl. rewrite u64_small by lia.
    do 2 eexists. split; [done|]. split; [by apply push_published|by split].
Qed.
Lemma pop_sequence_safe exchanges n :
  now th = PopSequence n -> safe_step s i th (pop_step exchanges (queue s) (now th)).
Proof.
  intros Hnow. pose proof (inv_threads s Hinv i th Hth) as Hok.
  pose proof (counters_small s Hinv). pose proof (capacity_two s Hinv). pose proof (inv_order s Hinv).
  unfold safe_step. rewrite Hnow in Hok |- *. simpl in Hok |- *.
  destruct (pop_view s n Hinv Hok) as (sq & v & Hc & Hsq & Hlt & Heq).
  rewrite (cell_at_is s Hinv _ _ _ Hc). simpl. rewrite u64_small, difference_ok by lia. simpl.
  do 2 eexists. split; [done|].
  destruct (Z.eqb_spec (sq - (n + 1)) 0); [|destruct (Z.ltb_spec (sq - (n + 1)) 0)]; simpl.
  - split; [|by split]. quiet_step Hinv Hth Hnow.
    split; [done|]. intros _. exists v. by replace sq with (n + 1) in Hc by lia.
  - split; [quiet_step Hinv Hth Hnow|split; [done|]].
    intros _. destruct Heq as [?|[_ ?]]; [lia|lia|done].
  - split; [quiet_step Hinv Hth Hnow|by split].
Qed.

Lemma pop_exchange_safe exchanges n :
  now th = PopExchange n -> safe_step s i th (pop_step exchanges (queue s) (now th)).
Proof.
  intros Hnow. pose proof (inv_threads s Hinv i th Hth) as Hok.
  pose proof (counters_small s Hinv). pose proof (capacity_two s Hinv). pose proof (inv_order s Hinv).
  unfold safe_step. rewrite Hnow in Hok |- *. simpl in Hok |- *. destruct Hok as [Hn Hc].
  destruct (exchanges && (dequeue_ (queue s) =? n)) eqn:Hex; do 2 eexists; (split; [done|]); simpl.
  - reflect_bools. rewrite u64_small by lia. split; [by apply pop_exchanged|by split].
  - split; [quiet_step Hinv Hth Hnow|by split].
Qed.

Lemma pop_safe exchanges :
  match now th with
  | Idle | PushLoad _ | PushSequence _ _ | PushExchange _ _ | PushStore _ _ | PushPublish _ _ => False
  | _ => True
  end -> safe_step s i th (pop_step exchanges (queue s) (now th)).
Proof.
  intros Hpop. pose proof (inv_threads s Hinv i th Hth) as Hok.
  pose proof (counters_small s Hinv). pose proof (capacity_two s Hinv). pose proof (inv_order s Hinv).
  destruct (now th) as [|item|item n|item n|item n|item n| |n|n|n|n r|n r] eqn:Hnow; try done;
    rewrite <- Hnow.
  - unfold safe_step. rewrite Hnow. do 2 eexists. split; [done|].
    split; [quiet_step Hinv Hth Hnow|by split].
  - by eapply pop_sequence_safe.
  - by eapply pop_exchange_safe.
  - unfold safe_step. rewrite Hnow. simpl. destruct Hok as (Hn & Hcl & k & x & Hen & Hc).
    rewrite (cell_at_is s Hinv _ _ _ Hc). do 2 eexists. split; [done|].
    split; [quiet_step Hinv Hth Hnow|by split]. split_and!; eauto; lia.
  - unfold safe_step. rewrite Hnow. simpl. destruct Hok as (Hn & Hcl & (v & Hc) & _).
    rewrite (cell_at_is s Hinv _ _ _ Hc). do 2 eexists. split; [done|].
    split; [by apply pop_reset|by split].
  - unfold safe_step. rewrite Hnow. simpl. destruct Hok as (Hn & Hcl & Hc & k & x & Hen & ->).
    rewrite (cell_at_is s Hinv _ _ _ Hc). simpl. rewrite u64_small by lia.
    do 2 eexists. split; [done|]. split; [by apply pop_released|by split].
Qed.

Lemma advance_safe exchanges :
  now th <> Idle -> safe_step s i th (advance exchanges (queue s) (now th)).
Proof.
  intros Hidle. pose proof (push_safe exchanges). pose proof (pop_safe exchanges).
  destruct (now th) eqn:Hnow; simpl in *; auto; done.
Qed.
End Step.

(** A step of a thread inside an operation. *)
Lemma step_busy s i th exchanges :
  threads s !! i = Some th -> now th <> Idle ->
  step i exchanges s =
  (let* (q, n) := advance exchanges (queue s) (now th) in
   Done (stepped s i (settle th n) q (enters i n (now th)) (claims i n (now th)))).
Proof. intros Hth Hidle. unfold step. rewrite Hth. by destruct (now th). Qed.

(** A thread takes up its next operation. *)
Lemma step_start s i th o rest exchanges :
  threads s !! i = Some th -> now th = Idle -> todo th = o :: rest ->
  step i exchanges s = Done (stepped s i (mkThread rest (start o) (results th)) (queue s) [] []).
Proof.
  intros Hth Hidle Ho. unfold step, stepped. by rewrite Hth, Hidle, Ho, !app_nil_r.
Qed.

Lemma start_inv s i th o rest :
  inv s -> threads s !! i = Some th -> now th = Idle -> todo th = o :: rest ->
  inv (stepped s i (mkThread rest (start o) (results th)) (queue s) [] []).
Proof.
  intros Hinv Hth Hidle Ho. quiet_step Hinv Hth Hidle; try by destruct o.
  rewrite Ho, sum_by_cons. destruct o; simpl; lia.
Qed.

Lemma step_keeps_inv s i exchanges : inv s -> exists s', step i exchanges s = Done s' /\ inv s'.
Proof.
  intros Hinv. destruct (threads s !! i) as [th|] eqn:Hth; [|exists s; unfold step; by rewrite Hth].
  assert (now th = Idle \/ now th <> Idle) as [Hidle|Hbusy] by (destruct (now th); auto).
  - destruct (todo th) as [|o rest] eqn:Ho.
    + exists s. unfold step. by rewrite Hth, Hidle, Ho.
    + eexists. split; [by eapply step_start|by eapply start_inv].
  - destruct (advance_safe s i th Hinv Hth exchanges Hbusy) as (q & n & Ha & Hi & _).
    eexists. rewrite (step_busy s i th exchanges Hth Hbusy), Ha. split; [done|exact Hi].
Qed.

Lemma run_inv schedule s : inv s -> exists s', run schedule s = Done s' /\ inv s'.
Proof.
  revert s. induction schedule as [|[i b] schedule IH]; intros s Hinv; simpl; [by exists s|].
  destruct (step_keeps_inv s i b Hinv) as (s1 & -> & H1). simpl. by apply IH.
Qed.

(** ** The start *)

Definition program_pushes (programs : list (list op)) : Z :=
  sum_by (sum_by (fun o => match o with Push _ => 1 | Pop => 0 end)) programs.

Lemma round_from_power k fuel requested :
  1 <= k <= 63 -> requested <= 2 ^ 63 -> 64 - k <= Z.of_nat fuel ->
  exists m, k <= m <= 63 /\ round_from fuel (2 ^ k) requested = Done (2 ^ m)
    /\ requested <= 2 ^ m /\ (m = k \/ 2 ^ (m - 1) < requested).
Proof.
  intros Hk Hr. revert k Hk. induction fuel as [|fuel IH]; intros k Hk Hf; [lia|].
  cbn [round_from]. destruct (Z.ltb_spec (2 ^ k) requested) as [Hlt|Hge].
  - assert (k < 63) by (apply (Z.pow_lt_mono_r_iff 2); lia).
    rewrite Z.shiftl_mul_pow2, <- Z.pow_add_r, u64_small by
      (try split; try apply Z.pow_lt_mono_r; lia).
    destruct (IH (k + 1)) as (m & Hm & He & Hrm & Hor); [lia..|].
    exists m. split_and!; [lia|lia|done|done|]. right.
    destruct Hor as [->|?]; [|done]. by replace (k + 1 - 1) with k by lia.
  - exists k. split_and!; [lia|lia|done|lia|by left].
Qed.

Lemma round_diverges fuel k requested :
  2 ^ 63 < requested -> 1 <= k -> round_from fuel (u64 (2 ^ k)) requested = OutOfFuel.
Proof.
  intros Hr. revert k. induction fuel as [|fuel IH]; intros k Hk; [done|]. cbn [round_from].
  assert (u64 (2 ^ k) < requested) as Hlt.
  { destruct (Z.le_gt_cases k 63).
    - rewrite u64_small; [|split; [lia|apply Z.pow_lt_mono_r; lia]].
      assert (2 ^ k <= 2 ^ 63) by (apply Z.pow_le_mono_r; lia). lia.
    - unfold u64. replace k with (64 + (k - 64)) by lia. rewrite Z.pow_add_r, Z.mul_comm by lia.
      rewrite Z.mod_mul by lia. lia. }
  rewrite (proj2 (Z.ltb_lt _ _) Hlt).
  replace (u64 (Z.shiftl (u64 (2 ^ k)) 1)) with (u64 (2 ^ (k + 1))); [apply IH; lia|].
  rewrite Z.shiftl_mul_pow2, Z.pow_add_r by lia. unfold u64. by rewrite Zmult_mod_idemp_l.
Qed.

Lemma round_done requested c :
  round_power_of_two requested = Done c -> exists m, 1 <= m <= 63 /\ c = 2 ^ m /\ requested <= c.
Proof.
  unfold round_power_of_two. intros Hr. destruct (Z.le_gt_cases requested (2 ^ 63)) as [Hle|Hgt].
  - destruct (round_from_power 1 64 requested) as (m & Hm & He & Hrm & _); [lia..|].
    change (2 ^ 1) with 2 in He. rewrite He in Hr. injection Hr as <-. exists m. split; [lia|done].
  - pose proof (round_diverges 64 1 requested). change (u64 (2 ^ 1)) with 2 in *.
    rewrite H in Hr; [done|lia..].
Qed.

Lemma fresh_thread programs i th :
  map (fun p => mkThread p Idle []) programs !! i = Some th -> exists p, th = mkThread p Idle [].
Proof. rewrite list_lookup_fmap. destruct (programs !! i) as [p|]; simpl; [|done].
  intros [= <-]. by exists p. Qed.

Lemma new_system_inv requested allocated programs s :
  new_system requested allocated programs = Done s ->
  program_pushes programs + capacity_ (queue s) < 2 ^ 63 -> inv s.
Proof.
  unfold new_system, new_ingress. intros (q & Hq & [= <-])%obind_Done_inv Hb.
  apply obind_Done_inv in Hq as (c & Hc & Hq). destruct allocated; simplify_eq/=.
  destruct (round_done _ _ Hc) as (m & Hm & -> & Hr).
  assert (2 <= 2 ^ m) by (change 2 with (2 ^ 1) at 1; apply Z.pow_le_mono_r; lia).
  assert (2 ^ m <= 2 ^ 63) by (apply Z.pow_le_mono_r; lia).
  split; simpl.
  - exists m. split; [lia|done].
  - apply u64_small. lia.
  - unfold len. rewrite length_map, length_seq. lia.
  - done.
  - done.
  - lia.
  - rewrite (sum_by_map _ (sum_by (fun o => match o with Push _ => 1 | Pop => 0 end)))
      by (intros p; unfold pushes_left; simpl; lia). unfold program_pushes in Hb. lia.
  - intros n Hn. left. split; [|simpl; lia]. unfold cell_is, slot. simpl.
    rewrite Z.mod_small by lia.
    rewrite list_lookup_fmap, lookup_seq_lt by lia. simpl. do 2 f_equal. lia.
  - intros i th (p & ->)%fresh_thread. done.
  - intros i th (p & ->)%fresh_thread. done.
Qed.


(** *** Progress of a thread that runs alone *)

(** The steps a thread has left, at most, when no other thread moves. *)
Definition rank (q : LockFreeIngress) (a : activity) : nat :=
  match a with
  | Idle => 0
  | PushLoad _ => 5
  | PushSequence _ n => if n =? enqueue_ q then 4 else 6
  | PushExchange _ n => if n =? enqueue_ q then 3 else 5
  | PushStore _ _ => 2
  | PushPublish _ _ => 1
  | PopLoad => 6
  | PopSequence n => if n =? dequeue_ q then 5 else 7
  | PopExchange n => if n =? dequeue_ q then 4 else 6
  | PopTake _ => 3
  | PopReset _ _ => 2
  | PopRelease _ _ => 1
  end.

Lemma rank_bound q a : (rank q a <= 7)%nat.
Proof. destruct a; simpl; repeat case_if; lia. Qed.

Lemma rank_decreases s i th q a :
  inv s -> threads s !! i = Some th -> now th <> Idle ->
  advance true (queue s) (now th) = Done (q, Goes a) ->
  (rank q a < rank (queue s) (now th))%nat /\ a <> Idle.
Proof.
  intros Hinv Hth Hidle Ha. pose proof (inv_threads s Hinv i th Hth) as Hok.
  pose proof (counters_small s Hinv). pose proof (capacity_two s Hinv). pose proof (inv_order s Hinv).
  destruct (now th) as [|item|item n|item n|item n|item n| |n|n|n|n r|n r] eqn:Hnow; [done|..];
    simpl in Hok, Ha |- *.
  - simplify_eq. simpl. rewrite Z.eqb_refl. split; [lia|done].
  - destruct (push_view s n Hinv Hok) as (sq & v & Hc & Hsq & Hlt & Heq).
    rewrite (cell_at_is s Hinv _ _ _ Hc) in Ha. simpl in Ha.
    rewrite difference_ok in Ha by lia. simpl in Ha.
    repeat case_match; simplify_eq; simpl; reflect_bools; (split; [|done]); repeat case_match; reflect_bools; lia.
  - destruct (Z.eqb_spec n (enqueue_ (queue s))); repeat case_match; simplify_eq/=; reflect_bools;
      rewrite ?Z.eqb_refl; try lia; (split; [lia|done]).
  - destruct Hok as (_ & _ & v & Hc). rewrite (cell_at_is s Hinv _ _ _ Hc) in Ha.
    simplify_eq/=. split; [lia|done].
  - destruct Hok as (_ & _ & Hc). by rewrite (cell_at_is s Hinv _ _ _ Hc) in Ha.
  - simplify_eq. simpl. rewrite Z.eqb_refl. split; [lia|done].
  - destruct (pop_view s n Hinv Hok) as (sq & v & Hc & Hsq & Hlt & Heq).
    rewrite (cell_at_is s Hinv _ _ _ Hc) in Ha. simpl in Ha.
    rewrite u64_small, difference_ok in Ha by lia. simpl in Ha.
    repeat case_match; simplify_eq; simpl; reflect_bools; (split; [|done]);
      repeat case_match; reflect_bools; lia.
  - destruct (Z.eqb_spec n (dequeue_ (queue s))); repeat case_match; simplify_eq/=; reflect_bools;
      rewrite ?Z.eqb_refl; try lia; (split; [lia|done]).
  - destruct Hok as (_ & _ & k & x & _ & Hc). rewrite (cell_at_is s Hinv _ _ _ Hc) in Ha.
    simplify_eq/=. split; [lia|done].
  - destruct Hok as (_ & _ & (v & Hc) & _). rewrite (cell_at_is s Hinv _ _ _ Hc) in Ha.
    simplify_eq/=. split; [lia|done].
  - destruct Hok as (_ & _ & Hc & _). by rewrite (cell_at_is s Hinv _ _ _ Hc) in Ha.
Qed.

(** A property of the operation a thread runs alone, kept by its steps until it
    returns. *)
Lemma alone_induction (K : system -> activity -> Prop) (R : system -> returned -> Prop) i :
  (forall s th q a, inv s -> threads s !! i = Some th -> K s (now th) -> now th <> Idle ->
     advance true (queue s) (now th) = Done (q, Goes a) ->
     K (stepped s i (settle th (Goes a)) q (enters i (Goes a) (now th))
          (claims i (Goes a) (now th))) a) ->
  (forall s th q r, inv s -> threads s !! i = Some th -> K s (now th) -> now th <> Idle ->
     advance true (queue s) (now th) = Done (q, Returns r) ->
     R (stepped s i (settle th (Returns r)) q [] []) r) ->
  forall s th, inv s -> threads s !! i = Some th -> K s (now th) -> now th <> Idle ->
  exists k s' r, (k <= rank (queue s) (now th))%nat /\ run (replicate k (i, true)) s = Done s'
    /\ threads s' = <[i := mkThread (todo th) Idle (results th ++ [r])]> (threads s) /\ R s' r.
Proof.
  intros Hgoes Hret s th Hinv Hth HK Hidle.
  remember (rank (queue s) (now th)) as bound eqn:Hbound.
  assert (rank (queue s) (now th) <= bound)%nat as Hle by lia. clear Hbound.
  revert s th Hinv Hth HK Hidle Hle. induction bound as [|bound IH]; intros s th Hinv Hth HK Hidle Hle.
  { destruct (now th); simpl in Hle; repeat case_match; try done; lia. }
  pose proof (step_busy s i th true Hth Hidle) as Hstep.
  destruct (advance_safe s i th Hinv Hth true Hidle) as (q & n & Ha & Hinv' & _).
  rewrite Ha in Hstep. cbn [obind] in Hstep. destruct n as [a|r].
  - destruct (rank_decreases s i th q a Hinv Hth Hidle Ha) as [Hr Hne].
    set (s1 := stepped _ _ _ _ _ _) in *.
    destruct (IH s1 (settle th (Goes a))) as (k & s' & r & Hk & Hrun & Hths & HR); try done.
    + simpl. apply list_lookup_insert_eq. by eapply lookup_lt_Some.
    + by apply Hgoes.
    + simpl. lia.
    + exists (S k), s', r. split; [lia|]. split; [simpl; by rewrite Hstep|].
      split; [|done]. rewrite Hths. simpl. by rewrite list_insert_insert_eq.
  - assert (enters i (Returns r) (now th) = [] /\ claims i (Returns r) (now th) = []) as [He Hc]
      by (by destruct (now th)).
    rewrite He, Hc in Hstep. exists 1%nat. do 2 eexists. split; [lia|].
    split; [simpl; by rewrite Hstep|]. split; [done|]. by apply Hret.
Qed.

Lemma advance_capacity exchanges q a q' n :
  advance exchanges q a = Done (q', n) -> capacity_ q' = capacity_ q.
Proof.
  destruct a; simpl; unfold cell_at, obind; repeat case_match; intros; by simplify_eq/=.
Qed.

Lemma step_capacity i exchanges s s' :
  step i exchanges s = Done s' -> capacity_ (queue s') = capacity_ (queue s).
Proof.
  unfold step. destruct (threads s !! i) as [th|]; [|by intros [= ->]].
  assert (forall r, r = (let* (q, n) := advance exchanges (queue s) (now th) in
    Done (mkSystem q (<[i := settle th n]> (threads s)) (entered s ++ enters i n (now th))
            (claimed s ++ claims i n (now th)))) -> r = Done s' ->
    capacity_ (queue s') = capacity_ (queue s)) as Hgo.
  { intros r -> ([q n] & Ha & [= <-])%obind_Done_inv. by eapply advance_capacity. }
  destruct (now th) eqn:Hnow; try (by eapply Hgo).
  destruct (todo th); intros [= <-]; done.
Qed.

Lemma run_capacity schedule s s' :
  run schedule s = Done s' -> capacity_ (queue s') = capacity_ (queue s).
Proof.
  revert s. induction schedule as [|[i b] schedule IH]; intros s; simpl; [by intros [= ->]|].
  intros (s1 & Hs & Hr)%obind_Done_inv. rewrite (IH _ Hr). by eapply step_capacity.
Qed.

(** *** An operation while the other threads are idle *)

(** The items in the queue, first in first out. *)
Definition contents (s : system) : list A := map snd (drop (length (claimed s)) (entered s)).

Definition others_idle (s : system) (i : nat) : Prop :=
  forall j th, i <> j -> threads s !! j = Some th -> now th = Idle.

Lemma others_idle_stepped s i th' q en cl : others_idle s i -> others_idle (stepped s i th' q en cl) i.
Proof.
  intros Ho j th Hij. simpl. rewrite list_lookup_insert_ne by done. by apply Ho.
Qed.

Lemma alone_full s i th :
  inv s -> others_idle s i -> threads s !! i = Some th -> popping (now th) = None -> no_room s ->
  enqueue_ (queue s) = dequeue_ (queue s) + capacity_ (queue s).
Proof.
  intros Hinv Ho Hth Hp [?|(j & a & (thj & Hj & <-) & Ha)]; [done|].
  destruct (decide (i = j)) as [<-|Hij]; [congruence|]. by rewrite (Ho j thj Hij Hj) in Ha.
Qed.

Lemma alone_empty s i th :
  inv s -> others_idle s i -> threads s !! i = Some th -> pushing (now th) = None -> no_item s ->
  enqueue_ (queue s) = dequeue_ (queue s).
Proof.
  intros Hinv Ho Hth Hp [?|(j & a & x & (thj & Hj & <-) & Ha)]; [done|].
  destruct (decide (i = j)) as [<-|Hij]; [congruence|]. by rewrite (Ho j thj Hij Hj) in Ha.
Qed.

Section Alone.
Context (s0 : system) (i : nat).

(** Where a push that runs alone from [s0] has got to. *)
Definition push_phase (item : A) (s : system) (a : activity) : Prop :=
  others_idle s i /\ claimed s = claimed s0 /\ capacity_ (queue s) = capacity_ (queue s0)
  /\ match a with
     | PushLoad x | PushSequence x _ | PushExchange x _ => x = item /\ entered s = entered s0
     | PushStore x _ | PushPublish x _ => x = item /\ entered s = entered s0 ++ [(i, item)]
     | _ => False
     end.

Definition push_outcome (item : A) (s : system) (r : returned) : Prop :=
  exists pushed, r = PushReturned item pushed /\ claimed s = claimed s0
    /\ entered s = entered s0 ++ (if pushed then [(i, item)] else [])
    /\ (pushed = false -> len (entered s0) = len (claimed s0) + capacity_ (queue s0)).

Lemma push_phase_goes item s th q a :
  inv s -> threads s !! i = Some th -> push_phase item s (now th) -> now th <> Idle ->
  advance true (queue s) (now th) = Done (q, Goes a) ->
  push_phase item (stepped s i (settle th (Goes a)) q (enters i (Goes a) (now th))
                     (claims i (Goes a) (now th))) a.
Proof.
  intros Hinv Hth (Ho & Hcl & Hcap & Hk) Hidle Ha.
  pose proof (advance_capacity _ _ _ _ _ Ha) as Hc. split; [by apply others_idle_stepped|].
  destruct (now th) eqn:Hnow; try done; destruct Hk as [-> Hen]; simpl in Ha |- *;
    unfold cell_at, obind in Ha; repeat case_match; simplify_eq/=;
    by rewrite ?app_nil_r, ?Hen.
Qed.

Lemma push_phase_returns item s th q r :
  inv s -> threads s !! i = Some th -> push_phase item s (now th) -> now th <> Idle ->
  advance true (queue s) (now th) = Done (q, Returns r) ->
  push_outcome item (stepped s i (settle th (Returns r)) q [] []) r.
Proof.
  intros Hinv Hth (Ho & Hcl & Hcap & Hk) Hidle Ha.
  destruct (advance_safe s i th Hinv Hth true Hidle) as (q' & n & Ha' & _ & Hroom & _).
  rewrite Ha in Ha'. simplify_eq. unfold push_outcome. simpl. rewrite !app_nil_r.
  destruct (now th) eqn:Hnow; try done; destruct Hk as [-> Hen]; simpl in Ha |- *;
    unfold cell_at, obind in Ha; repeat case_match; simplify_eq/=.
  - exists false. split_and!; try done; [by rewrite Hen, app_nil_r|]. intros _.
    rewrite <- Hen, <- Hcl, <- Hcap, <- (inv_enqueue s Hinv), <- (inv_dequeue s Hinv).
    eapply alone_full; eauto. by rewrite Hnow.
  - by exists true.
Qed.
Definition pop_phase (s : system) (a : activity) : Prop :=
  others_idle s i /\ entered s = entered s0
  /\ match a with
     | PopLoad | PopSequence _ | PopExchange _ => claimed s = claimed s0
     | PopTake n | PopReset n _ | PopRelease n _ =>
         claimed s = claimed s0 ++ [i] /\ n = len (claimed s0)
     | _ => False
     end.

Definition pop_outcome (s : system) (r : returned) : Prop :=
  entered s = entered s0
  /\ ((r = PopReturned None /\ claimed s = claimed s0 /\ len (entered s0) = len (claimed s0))
      \/ exists j x, r = PopReturned (Some x) /\ claimed s = claimed s0 ++ [i]
                     /\ entered s0 !! length (claimed s0) = Some (j, x)).

Lemma pop_phase_goes s th q a :
  inv s -> threads s !! i = Some th -> pop_phase s (now th) -> now th <> Idle ->
  advance true (queue s) (now th) = Done (q, Goes a) ->
  pop_phase (stepped s i (settle th (Goes a)) q (enters i (Goes a) (now th))
               (claims i (Goes a) (now th))) a.
Proof.
  intros Hinv Hth (Ho & Hen & Hk) Hidle Ha. split; [by apply others_idle_stepped|].
  pose proof (inv_dequeue s Hinv) as Hd.
  destruct (now th) eqn:Hnow; try done; simpl in Ha |- *; rewrite !app_nil_r;
    unfold cell_at, obind in Ha; repeat case_match; simplify_eq/=; rewrite ?app_nil_r; try done.
  split; [done|]. split; [by rewrite Hk|]. reflect_bools. by rewrite <- Hk, <- Hd.
Qed.

Lemma pop_phase_returns s th q r :
  inv s -> threads s !! i = Some th -> pop_phase s (now th) -> now th <> Idle ->
  advance true (queue s) (now th) = Done (q, Returns r) ->
  pop_outcome (stepped s i (settle th (Returns r)) q [] []) r.
Proof.
  intros Hinv Hth (Ho & Hen & Hk) Hidle Ha. pose proof (inv_threads s Hinv i th Hth) as Hok.
  destruct (advance_safe s i th Hinv Hth true Hidle) as (q' & n & Ha' & _ & _ & Hitem).
  rewrite Ha in Ha'. simplify_eq. unfold pop_outcome. simpl. rewrite !app_nil_r.
  split; [done|].
  destruct (now th) eqn:Hnow; try done; simpl in Ha, Hok |- *;
    unfold cell_at, obind in Ha; repeat case_match; simplify_eq/=.
  - left. split; [done|]. split; [done|].
    rewrite <- Hen, <- Hk, <- (inv_enqueue s Hinv), <- (inv_dequeue s Hinv).
    eapply alone_empty; eauto. by rewrite Hnow.
  - right. destruct Hk as [Hcl ->]. destruct Hok as (_ & _ & _ & j & x & Hx & ->).
    exists j, x. split; [done|]. split; [done|]. rewrite <- Hen, <- Hx. unfold len.
    by rewrite Nat2Z.id.
Qed.
End Alone.

(** *** Reachable states *)

Lemma run_app k l s : run (k ++ l) s = (let* s := run k s in run l s).
Proof.
  revert s. induction k as [|[i b] k IH]; intros s; simpl; [done|].
  destruct (step i b s); simpl; auto.
Qed.

Section Reachable.
Context (requested : Z) (allocated : bool) (programs : list (list op)) (s0 : system).
Context (Hnew : new_system requested allocated programs = Done s0).
Context (Hbound : program_pushes programs + capacity (queue s0) < 2 ^ 63).

Lemma run_reaches_inv schedule s : run schedule s0 = Done s -> inv s.
Proof.
  intros Hrun. destruct (run_inv schedule s0) as (s' & Hs & Hinv);
    [by eapply new_system_inv|]. rewrite Hrun in Hs. by injection Hs as ->.
Qed.
End Reachable.

(** The cell a thread works on after its exchange. *)
Definition held (a : activity) : option Z :=
  match pushing a with Some (_, n) => Some n | None => popping a end.

Lemma held_owns s i th n :
  inv s -> threads s !! i = Some th -> held (now th) = Some n -> exists sq, owns s i n sq.
Proof.
  intros Hinv Hi Hn. unfold held in Hn. destruct (pushing (now th)) as [[x k]|] eqn:Hp; simplify_eq.
  - eexists. by eapply own_push.
  - eexists. by eapply own_pop.
Qed.

Lemma held_apart s i j a b m n :
  inv s -> i <> j -> busy s i a -> busy s j b -> held a = Some m -> held b = Some n ->
  slot s m <> slot s n.
Proof.
  intros Hinv Hij (thi & Hi & <-) (thj & Hj & <-) Hm Hn.
  destruct (held_owns s j thj n Hinv Hj Hn) as (sq & Ho).
  pose proof (inv_threads s Hinv i thi Hi) as Hok.
  assert (exists sq' v, guards s (now thi) m sq' /\ cell_is s m sq' v) as (sq' & v & Hg & Hc).
  { unfold held in Hm. destruct (now thi); simplify_eq/=; destruct_and?; eauto;
      repeat match goal with H : exists _, _ |- _ => destruct H end; destruct_and?; eauto 10. }
  eapply (owned_apart s j n sq i (now thi)); eauto.
Qed.

(** ** Properties *)

(** The ingress queue is a bounded first-in first-out queue under every
    interleaving.  Whatever its threads push and pop, in whatever order they
    move and however often a weak exchange fails, no step is undefined; the
    items enter in the order of the exchanges on [enqueue_] and the [n]-th pop
    takes the [n]-th item; each thread's results are exactly its part of these
    two logs, so that no item is lost, duplicated or reordered; at most
    [capacity] items are in the queue; and no two threads work on the same
    cell.  The number of pushes and the capacity together stay below 2^63. *)
Theorem ingress_is_fifo requested allocated programs schedule s0 :
  new_system requested allocated programs = Done s0 ->
  program_pushes programs + capacity (queue s0) < 2 ^ 63 ->
  exists s, run schedule s0 = Done s
    /\ len (claimed s) <= len (entered s) <= len (claimed s) + capacity (queue s0)
    /\ (forall i th, threads s !! i = Some th ->
          pushed_items th ++ in_push (now th) = entered_by i s
          /\ popped_items th ++ in_pop s (now th) = taken_by i s)
    /\ (forall i j a b m n, i <> j -> busy s i a -> busy s j b ->
          held a = Some m -> held b = Some n -> slot s m <> slot s n).
Proof.
  intros Hnew Hb. destruct (run_inv schedule s0) as (s & Hs & Hinv); [by eapply new_system_inv|].
  exists s. split; [done|]. pose proof (inv_order s Hinv) as Hord.
  rewrite (inv_enqueue s Hinv), (inv_dequeue s Hinv), (run_capacity _ _ _ Hs) in Hord.
  split; [done|]. split; [apply (inv_logs s Hinv)|]. intros. by eapply held_apart.
Qed.


(** Operations on the ingress queue do not wait for each other.  From every
    reachable state, whatever the other threads have left unfinished, a thread
    inside an operation that runs alone returns within seven steps. *)
Theorem operations_return_alone requested allocated programs schedule s0 s i th :
  new_system requested allocated programs = Done s0 ->
  program_pushes programs + capacity (queue s0) < 2 ^ 63 ->
  run schedule s0 = Done s -> threads s !! i = Some th -> now th <> Idle ->
  exists k s' r, (k <= 7)%nat /\ run (replicate k (i, true)) s = Done s'
    /\ threads s' = <[i := mkThread (todo th) Idle (results th ++ [r])]> (threads s).
Proof.
  intros Hnew Hb Hrun Hth Hidle. assert (inv s) as Hinv by (by eapply run_reaches_inv).
  destruct (alone_induction (fun _ _ => True) (fun _ _ => True) i) with (s := s) (th := th)
    as (k & s' & r & Hk & Hr & Ht & _); try done.
  exists k, s', r. split; [|done]. pose proof (rank_bound (queue s) (now th)). lia.
Qed.

Lemma contents_length s : inv s -> len (contents s) = len (entered s) - len (claimed s).
Proof.
  intros Hinv. pose proof (log_lengths s Hinv). unfold contents, len.
  rewrite length_map, length_drop. lia.
Qed.

Lemma contents_pushed s s' i item :
  inv s -> entered s' = entered s ++ [(i, item)] -> claimed s' = claimed s ->
  contents s' = contents s ++ [item].
Proof.
  intros Hinv He Hc. pose proof (log_lengths s Hinv). unfold contents. rewrite He, Hc.
  rewrite drop_app_le by done. by rewrite map_app.
Qed.

Lemma contents_popped s s' i j x :
  entered s' = entered s -> claimed s' = claimed s ++ [i] ->
  entered s !! length (claimed s) = Some (j, x) -> contents s = x :: contents s'.
Proof.
  intros He Hc Hx. unfold contents. rewrite He, Hc, length_app. simpl.
  rewrite (drop_S _ _ _ Hx). simpl. by rewrite Nat.add_1_r.
Qed.

Lemma contents_same s s' : entered s' = entered s -> claimed s' = claimed s -> contents s' = contents s.
Proof. unfold contents. by intros -> ->. Qed.

(** An operation started in [s] while all threads are idle runs from [started]. *)
Lemma run_started s i th o rest k s' :
  threads s !! i = Some th -> now th = Idle -> todo th = o :: rest ->
  run (replicate k (i, true)) (stepped s i (mkThread rest (start o) (results th)) (queue s) [] [])
  = Done s' ->
  run (replicate (S k) (i, true)) s = Done s'.
Proof. intros Hth Hi Ho Hr. simpl. by rewrite (step_start s i th o rest true Hth Hi Ho). Qed.

Section Sequential.
Context (s : system) (i : nat) (th : thread) (rest : list op).
Context (Hinv : inv s) (Hidle : forall j thj, threads s !! j = Some thj -> now thj = Idle).
Context (Hth : threads s !! i = Some th).

Lemma alone_start o :
  todo th = o :: rest ->
  let s1 := stepped s i (mkThread rest (start o) (results th)) (queue s) [] [] in
  inv s1 /\ others_idle s1 i /\ threads s1 !! i = Some (mkThread rest (start o) (results th)).
Proof.
  intros Ho. split; [by eapply start_inv; eauto|]. split.
  - apply others_idle_stepped. intros j thj _. apply Hidle.
  - simpl. apply list_lookup_insert_eq. by eapply lookup_lt_Some.
Qed.

Lemma push_alone item :
  todo th = Push item :: rest ->
  exists k s' r, (k <= 8)%nat /\ run (replicate k (i, true)) s = Done s'
    /\ threads s' = <[i := mkThread rest Idle (results th ++ [r])]> (threads s)
    /\ push_outcome s i item s' r.
Proof.
  intros Ho. destruct (alone_start _ Ho) as (Hinv1 & Ho1 & Hth1).
  destruct (alone_induction (push_phase s i item) (push_outcome s i item) i
    (push_phase_goes s i item) (push_phase_returns s i item) _ _ Hinv1 Hth1)
    as (k & s' & r & Hk & Hr & Ht & HR); try done.
  - split; [done|]. simpl. by rewrite !app_nil_r.
  - exists (S k), s', r. pose proof (rank_bound (queue s) (start (Push item))). simpl in *.
    split; [lia|]. split; [by eapply run_started; eauto|]. split; [|done].
    rewrite Ht. by rewrite list_insert_insert_eq.
Qed.

Lemma pop_alone :
  todo th = Pop :: rest ->
  exists k s' r, (k <= 8)%nat /\ run (replicate k (i, true)) s = Done s'
    /\ threads s' = <[i := mkThread rest Idle (results th ++ [r])]> (threads s)
    /\ pop_outcome s i s' r.
Proof.
  intros Ho. destruct (alone_start _ Ho) as (Hinv1 & Ho1 & Hth1).
  destruct (alone_induction (pop_phase s i) (pop_outcome s i) i
    (pop_phase_goes s i) (pop_phase_returns s i) _ _ Hinv1 Hth1)
    as (k & s' & r & Hk & Hr & Ht & HR); try done.
  - split; [done|]. simpl. by rewrite !app_nil_r.
  - exists (S k), s', r. simpl in *. split; [lia|]. split; [by eapply run_started; eauto|].
    split; [|done]. rewrite Ht. by rewrite list_insert_insert_eq.
Qed.
End Sequential.

(** Called one at a time, the ingress queue is exactly a bounded queue.  In
    every reachable state with no operation in progress, a push succeeds if and
    only if fewer than [capacity] items are in the queue and appends its item,
    and a pop returns the oldest item, or nothing exactly when there is none. *)
Theorem sequential_calls_are_exact requested allocated programs schedule s0 s i th o rest :
  new_system requested allocated programs = Done s0 ->
  program_pushes programs + capacity (queue s0) < 2 ^ 63 ->
  run schedule s0 = Done s ->
  (forall j thj, threads s !! j = Some thj -> now thj = Idle) ->
  threads s !! i = Some th -> todo th = o :: rest ->
  exists k s' r, (k <= 8)%nat /\ run (replicate k (i, true)) s = Done s'
    /\ threads s' = <[i := mkThread rest Idle (results th ++ [r])]> (threads s)
    /\ match o with
       | Push item =>
           if len (contents s) <? capacity (queue s0)
           then r = PushReturned item true /\ contents s' = contents s ++ [item]
           else r = PushReturned item false /\ contents s' = contents s
       | Pop => r = PopReturned (head (contents s)) /\ contents s' = tail (contents s)
       end.
Proof.
  intros Hnew Hb Hrun Hidle Hth Ho. assert (inv s) as Hinv by (by eapply run_reaches_inv).
  pose proof (run_capacity _ _ _ Hrun) as Hcap. pose proof (contents_length s Hinv) as Hlen.
  destruct o as [item|].
  - destruct (push_alone s i th rest Hinv Hidle Hth item Ho) as (k & s' & r & Hk & Hr & Ht & HR).
    exists k, s', r. do 3 (split; [done|]). destruct HR as (pushed & -> & Hcl & Hen & Hfull).
    assert (inv s') as Hinv'.
    { apply (run_reaches_inv _ _ _ _ Hnew Hb (schedule ++ replicate k (i, true))).
      by rewrite run_app, Hrun. }
    pose proof (inv_order s' Hinv') as Hord.
    rewrite (inv_enqueue s' Hinv'), (inv_dequeue s' Hinv'), (run_capacity _ _ _ Hr), Hcl, Hen,
      len_app in Hord.
    unfold capacity. rewrite <- Hcap, Hlen. destruct pushed.
    + rewrite len_cons, len_nil in Hord. rewrite (proj2 (Z.ltb_lt _ _)) by lia.
      split; [done|]. by apply (contents_pushed s s' i item).
    + rewrite Hfull by done. rewrite (proj2 (Z.ltb_ge _ _)) by lia.
      split; [done|]. apply contents_same; [by rewrite Hen, app_nil_r|done].
  - destruct (pop_alone s i th rest Hinv Hidle Hth Ho) as (k & s' & r & Hk & Hr & Ht & HR).
    exists k, s', r. do 3 (split; [done|]).
    destruct HR as (Hen & [(-> & Hcl & Hempty)|(j & x & -> & Hcl & Hx)]).
    + assert (contents s = []) as Hnil by (apply len_zero; lia).
      rewrite (contents_same s s' Hen Hcl), Hnil. done.
    + by rewrite (contents_popped s s' i j x Hen Hcl Hx).
Qed.

(** The capacity is the smallest power of two from 2 on that is not below the
    request; above 2^63 the loop of [round_power_of_two] never ends. *)
Theorem capacity_rounds_up requested :
  (requested <= 2 ^ 63
   /\ exists m, 1 <= m <= 63 /\ round_power_of_two requested = Done (2 ^ m) /\ requested <= 2 ^ m
        /\ forall k, 1 <= k -> requested <= 2 ^ k -> m <= k)
  \/ (2 ^ 63 < requested /\ forall fuel, round_from fuel 2 requested = OutOfFuel).
Proof.
  destruct (Z.le_gt_cases requested (2 ^ 63)) as [Hle|Hgt]; [left|right]; (split; [lia|]).
  - destruct (round_from_power 1 64 requested) as (m & Hm & He & Hr & Hor); [lia..|].
    exists m. split; [lia|]. split; [exact He|]. split; [done|]. intros k Hk Hrk.
    destruct Hor as [->|Hlt]; [lia|].
    assert (m - 1 < k); [|lia]. apply (Z.pow_lt_mono_r_iff 2); lia.
  - intros fuel. change 2 with (u64 (2 ^ 1)). apply round_diverges; lia.
Qed.

End Ingress.

(** ** Witnesses *)

(** Two producers and a consumer on a queue of two cells, moving in turn. *)
Definition ex_programs : list (list (op (A := Z))) :=
  [[Push 1; Push 2]; [Push 10; Push 11]; [Pop; Pop; Pop]].
Definition ex_system : system :=
  mkSystem (mkIngress 2 1 [mkCell 0 None; mkCell 1 None] 0 0)
    (map (fun p => mkThread p Idle []) ex_programs) [] [].
Definition ex_turns (n : nat) : list (nat * bool) :=
  concat (replicate n [(0, true); (1, true); (2, true)])%nat.

Lemma ingress_is_fifo_witness :
  exists s, run (ex_turns 9) ex_system = Done s
    /\ len (claimed s) <= len (entered s) <= len (claimed s) + capacity (queue ex_system)
    /\ (forall i th, threads s !! i = Some th ->
          pushed_items th ++ in_push (now th) = entered_by i s
          /\ popped_items th ++ in_pop s (now th) = taken_by i s)
    /\ (forall i j a b m n, i <> j -> busy s i a -> busy s j b ->
          held a = Some m -> held b = Some n -> slot s m <> slot s n).
Proof.
  apply (ingress_is_fifo 2 true ex_programs (ex_turns 9) ex_system); [reflexivity|].
  vm_compute. reflexivity.
Defined.

Definition ex_after (schedule : list (nat * bool)) : system :=
  match run schedule ex_system with Done s => s | _ => ex_system end.

(** The first producer has filled the queue. *)
Definition ex_filled : list (nat * bool) := replicate 12 (0%nat, true).


Lemma operations_return_alone_witness :
  exists k s' r, (k <= 7)%nat /\ run (replicate k (1%nat, true)) (ex_after (ex_turns 4)) = Done s'
    /\ threads s' = <[1%nat := mkThread [Push 11] Idle [r]]> (threads (ex_after (ex_turns 4))).
Proof.
  apply (operations_return_alone 2 true ex_programs (ex_turns 4) ex_system _ 1
    (mkThread [Push 11] (PushSequence 10 1) [])); [vm_compute; reflexivity..|discriminate].
Defined.

Lemma sequential_calls_are_exact_witness :
  exists k s' r, (k <= 8)%nat /\ run (replicate k (2%nat, true)) (ex_after ex_filled) = Done s'
    /\ threads s' = <[2%nat := mkThread [Pop; Pop] Idle [r]]> (threads (ex_after ex_filled))
    /\ r = PopReturned (Some 1) /\ contents s' = [2].
Proof.
  apply (sequential_calls_are_exact 2 true ex_programs ex_filled ex_system (ex_after ex_filled) 2
    (mkThread [Pop; Pop; Pop] Idle []) Pop [Pop; Pop]); try (vm_compute; reflexivity).
  intros [|[|[|j]]] thj Hj; vm_compute in Hj; try discriminate; injection Hj as <-; reflexivity.
Defined.
