(* ===== verification/WeakIngress.v ===== *)
(** * The lock-free ingress queue under release and acquire ordering
      ([capstone/matching/solution-reference/include/matching/ingress_queue.hpp])

    [Ingress.v] runs the queue on a sequentially consistent memory.  Here the same
    operations run with the memory orders of the source.  An atomic location has
    the list of the writes to it, in modification order; a thread has a view, which
    says how far it has seen each location.  A load may read any write that is not
    older than what the thread has seen.  A release store carries the view of its
    thread, and an acquire load takes over the view of the write it reads; relaxed
    accesses carry none.  An exchange that succeeds reads the last write.  The value
    of a cell is not atomic: an access by a thread that has not seen all accesses
    before it is a data race, which is undefined, and so is here a store to an
    atomic location by a thread that has not seen its last write, whose place in the
    modification order would be open.  Loads do not read from writes that are made
    later in program order. *)

From stdpp Require Import base list strings.
From Stdlib Require Import ZArith Lia ZifyBool.
From S2P Require Import Prelude Ingress.

(** ** Views *)

Inductive location := Enqueue | Dequeue | Sequence (cell : nat) | Value (cell : nat).

#[global] Instance location_eq_dec : EqDecision location.
Proof. solve_decision. Defined.

Definition view : Type := location -> nat.

Definition unseen : view := fun _ => 0%nat.
Definition see (l : location) (t : nat) (v : view) : view :=
  fun k => if decide (k = l) then t else v k.
Definition join (v w : view) : view := fun l => Nat.max (v l) (w l).
Definition within (v w : view) : Prop := forall l, (v l <= w l)%nat.

#[global] Instance within_preorder : PreOrder within.
Proof. split; [by intros v l|]. intros u v w Huv Hvw l. etrans; [apply Huv|apply Hvw]. Qed.

Lemma see_eq l t v : see l t v l = t.
Proof. unfold see. by rewrite decide_True. Qed.
Lemma see_ne l k t v : k <> l -> see l t v k = v k.
Proof. intros. unfold see. by rewrite decide_False. Qed.
Lemma see_within l t v w : (t <= w l)%nat -> within v w -> within (see l t v) w.
Proof. intros Ht Hv k. unfold see. case_decide; [by subst|apply Hv]. Qed.
Lemma join_within u v w : within u w -> within v w -> within (join u v) w.
Proof. intros Hu Hv l. unfold join. specialize (Hu l). specialize (Hv l). lia. Qed.

(** ** Memory *)

(** A write to a sequence number, with the view it carries. *)
Record message := mkMessage { stored : Z; released : view }.

Section WeakIngress.
Context {A : Type}.
Implicit Types th : (thread (A := A)).

Record weak_cell := mkWeakCell {
  wc_sequence : list message;
  wc_value : option A;
  wc_accesses : nat;          (* to the value, so far *)
}.

Record memory := mkMemory {
  m_capacity : Z;
  m_mask : Z;
  m_cells : list weak_cell;
  m_enqueue : list Z;         (* the values written, in modification order *)
  m_dequeue : list Z;
}.

(** Which write a load reads: any from the last seen on. *)
Definition choose {B} (writes : list B) (seen pick : nat) : nat :=
  Nat.min (seen + pick) (length writes - 1).

(** [counter.load(std::memory_order_relaxed)]. *)
Definition load_counter (counter : list Z) (l : location) (pick : nat) (v : view) : outcome (Z * view) :=
  let t := choose counter (v l) pick in
  match counter !! t with
  | Some x => Done (x, see l t v)
  | None => Undefined
  end.

Definition index_in (m : memory) (position : Z) : nat := Z.to_nat (Z.land position (m_mask m)).

Definition cell_in (m : memory) (position : Z) : outcome weak_cell :=
  match m_cells m !! index_in m position with Some cell => Done cell | None => Undefined end.

Definition set_weak_cell (m : memory) (position : Z) (cell : weak_cell) : memory :=
  mkMemory (m_capacity m) (m_mask m) (<[index_in m position := cell]> (m_cells m))
    (m_enqueue m) (m_dequeue m).

(** [cell.sequence.load(std::memory_order_acquire)]. *)
Definition load_sequence (m : memory) (position : Z) (pick : nat) (v : view) : outcome (Z * view) :=
  let* cell := cell_in m position in
  let l := Sequence (index_in m position) in
  let t := choose (wc_sequence cell) (v l) pick in
  match wc_sequence cell !! t with
  | Some message => Done (stored message, join (see l t v) (released message))
  | None => Undefined
  end.

(** [cell.sequence.store(x, std::memory_order_release)]. *)
Definition store_sequence (m : memory) (position x : Z) (v : view) : outcome (memory * view) :=
  let* cell := cell_in m position in
  let l := Sequence (index_in m position) in
  if (S (v l) =? length (wc_sequence cell))%nat then
    let v := see l (length (wc_sequence cell)) v in
    Done (set_weak_cell m position
            (mkWeakCell (wc_sequence cell ++ [mkMessage x v]) (wc_value cell) (wc_accesses cell)), v)
  else Undefined.

(** An access to [cell.value] that leaves [f] of it. *)
Definition access_value (m : memory) (position : Z) (f : option A -> option A) (v : view)
  : outcome (option A * memory * view) :=
  let* cell := cell_in m position in
  let l := Value (index_in m position) in
  if (v l =? wc_accesses cell)%nat then
    Done (wc_value cell,
          set_weak_cell m position (mkWeakCell (wc_sequence cell) (f (wc_value cell)) (S (wc_accesses cell))),
          see l (S (wc_accesses cell)) v)
  else Undefined.

(** The last write to a counter. *)
Definition latest (counter : list Z) : Z := default 0 (last counter).

(** ** The two operations *)

(** [try_push], lines 34-52: [pick] is the write that a load reads, [exchanges]
    whether a weak exchange may succeed. *)
Definition weak_push_step (pick : nat) (exchanges : bool) (m : memory) (v : view) (a : activity (A := A))
  : outcome (memory * view * next (A := A)) :=
  match a with
  | PushLoad item =>
      let* (position, v) := load_counter (m_enqueue m) Enqueue pick v in
      Done (m, v, Goes (PushSequence item position))
  | PushSequence item position =>
      let* (sequence, v) := load_sequence m position pick v in
      let* difference := difference sequence position in
      Done (m, v, if difference =? 0 then Goes (PushExchange item position)
                  else if difference <? 0 then Returns (PushReturned item false)
                  else Goes (PushLoad item))
  | PushExchange item position =>
      if exchanges && (latest (m_enqueue m) =? position)
      then Done (mkMemory (m_capacity m) (m_mask m) (m_cells m)
                   (m_enqueue m ++ [u64 (position + 1)]) (m_dequeue m),
                 see Enqueue (length (m_enqueue m)) v, Goes (PushStore item position))
      else let* (position, v) := load_counter (m_enqueue m) Enqueue pick v in
           Done (m, v, Goes (PushSequence item position))
  | PushStore item position =>
      let* (_, m, v) := access_value m position (fun _ => Some item) v in
      Done (m, v, Goes (PushPublish item position))
  | PushPublish item position =>
      let* (m, v) := store_sequence m position (u64 (position + 1)) v in
      Done (m, v, Returns (PushReturned item true))
  | _ => Done (m, v, Goes a)
  end.

(** [try_pop], lines 54-73. *)
Definition weak_pop_step (pick : nat) (exchanges : bool) (m : memory) (v : view) (a : activity (A := A))
  : outcome (memory * view * next (A := A)) :=
  match a with
  | PopLoad =>
      let* (position, v) := load_counter (m_dequeue m) Dequeue pick v in
      Done (m, v, Goes (PopSequence position))
  | PopSequence position =>
      let* (sequence, v) := load_sequence m position pick v in
      let* difference := difference sequence (u64 (position + 1)) in
      Done (m, v, if difference =? 0 then Goes (PopExchange position)
                  else if difference <? 0 then Returns (PopReturned None)
                  else Goes PopLoad)
  | PopExchange position =>
      if exchanges && (latest (m_dequeue m) =? position)
      then Done (mkMemory (m_capacity m) (m_mask m) (m_cells m) (m_enqueue m)
                   (m_dequeue m ++ [u64 (position + 1)]),
                 see Dequeue (length (m_dequeue m)) v, Goes (PopTake position))
      else let* (position, v) := load_counter (m_dequeue m) Dequeue pick v in
           Done (m, v, Goes (PopSequence position))
  | PopTake position =>
      let* (result, m, v) := access_value m position (fun value => value) v in
      Done (m, v, Goes (PopReset position result))
  | PopReset position result =>
      let* (_, m, v) := access_value m position (fun _ => None) v in
      Done (m, v, Goes (PopRelease position result))
  | PopRelease position result =>
      let* (m, v) := store_sequence m position (u64 (position + m_capacity m)) v in
      Done (m, v, Returns (PopReturned result))
  | _ => Done (m, v, Goes a)
  end.

Definition weak_advance (pick : nat) (exchanges : bool) (m : memory) (v : view) (a : activity (A := A))
  : outcome (memory * view * next (A := A)) :=
  match a with
  | Idle => Done (m, v, Goes Idle)
  | PushLoad _ | PushSequence _ _ | PushExchange _ _ | PushStore _ _ | PushPublish _ _ =>
      weak_push_step pick exchanges m v a
  | _ => weak_pop_step pick exchanges m v a
  end.

(** ** Threads and schedules *)

Record weak_system := mkWeak {
  w_memory : memory;
  w_threads : list (thread (A := A) * view);
  w_entered : list (nat * A);
  w_claimed : list nat;
}.

(** The constructor's relaxed stores; the threads are started after it. *)
Definition new_weak (requested_capacity : Z) (allocated : bool) (programs : list (list (op (A := A))))
  : outcome weak_system :=
  let* capacity := round_power_of_two requested_capacity in
  if negb allocated then Threw "bad_alloc"
  else Done (mkWeak
    (mkMemory capacity (u64 (capacity - 1))
       (map (fun index => mkWeakCell [mkMessage (Z.of_nat index) unseen] None 0) (seq 0 (Z.to_nat capacity)))
       [0] [0])
    (map (fun p => (mkThread p Idle [], unseen)) programs) [] []).

Definition weak_step (i pick : nat) (exchanges : bool) (w : weak_system) : outcome weak_system :=
  match w_threads w !! i with
  | None => Done w
  | Some (th, v) =>
      match now th, todo th with
      | Idle, [] => Done w
      | Idle, o :: rest =>
          Done (mkWeak (w_memory w) (<[i := (mkThread rest (start o) (results th), v)]> (w_threads w))
                  (w_entered w) (w_claimed w))
      | a, _ =>
          let* (m, v, n) := weak_advance pick exchanges (w_memory w) v a in
          Done (mkWeak m (<[i := (settle th n, v)]> (w_threads w))
                  (w_entered w ++ enters i n a) (w_claimed w ++ claims i n a))
      end
  end.

(** Who moves next, which write a load reads, and whether an exchange may succeed. *)
Fixpoint weak_run (schedule : list (nat * nat * bool)) (w : weak_system) : outcome weak_system :=
  match schedule with
  | [] => Done w
  | (i, pick, exchanges) :: schedule => let* w := weak_step i pick exchanges w in weak_run schedule w
  end.

(** ** The latest values *)

Definition latest_cell (cell : weak_cell) : Cell (A := A) :=
  mkCell (default 0 (stored <$> last (wc_sequence cell))) (wc_value cell).
Definition latest_queue (m : memory) : LockFreeIngress (A := A) :=
  mkIngress (m_capacity m) (m_mask m) (map latest_cell (m_cells m))
    (latest (m_enqueue m)) (latest (m_dequeue m)).

(** What a sequentially consistent memory would hold. *)
Definition latest_system (w : weak_system) : system (A := A) :=
  mkSystem (latest_queue (w_memory w)) (map fst (w_threads w)) (w_entered w) (w_claimed w).

(** ** The invariant *)

(** How far each location has got. *)
Definition now_seen (m : memory) : view := fun l =>
  match l with
  | Enqueue => length (m_enqueue m) - 1
  | Dequeue => length (m_dequeue m) - 1
  | Sequence c => from_option (fun cell => length (wc_sequence cell) - 1) 0 (m_cells m !! c)
  | Value c => from_option wc_accesses 0 (m_cells m !! c)
  end%nat.

(** A counter counts. *)
Definition counts (counter : list Z) : Prop :=
  counter <> [] /\ forall k x, counter !! k = Some x -> x = Z.of_nat k.

(** The sequence numbers of a cell grow. *)
Definition history_ok (m : memory) (messages : list message) : Prop :=
  messages <> []
  /\ (forall j k a b, messages !! j = Some a -> messages !! k = Some b -> (j < k)%nat -> stored a < stored b)
  /\ Forall (fun a => 0 <= stored a /\ within (released a) (now_seen m)) messages.

(** A view that has seen everything of a cell. *)
Definition up_to_date (m : memory) (c : nat) (v : view) : Prop :=
  v (Sequence c) = now_seen m (Sequence c) /\ v (Value c) = now_seen m (Value c).

(** The last write to a sequence number passes the cell on, unless a thread has it. *)
Definition passed_on (w : weak_system) (c : nat) (cell : weak_cell) : Prop :=
  (exists a, last (wc_sequence cell) = Some a /\ up_to_date (w_memory w) c (released a))
  \/ exists j th v n, w_threads w !! j = Some (th, v) /\ held (now th) = Some n
       /\ slot (latest_system w) n = c.

Record weak_inv (w : weak_system) : Prop := mkWeakInv {
  wk_inv : inv (latest_system w);
  wk_enqueue : counts (m_enqueue (w_memory w));
  wk_dequeue : counts (m_dequeue (w_memory w));
  wk_history : forall c cell, m_cells (w_memory w) !! c = Some cell ->
                 history_ok (w_memory w) (wc_sequence cell);
  wk_views : forall i th v, w_threads w !! i = Some (th, v) -> within v (now_seen (w_memory w));
  wk_guards : forall i th v n sq, w_threads w !! i = Some (th, v) ->
                guards (latest_system w) (now th) n sq ->
                up_to_date (w_memory w) (slot (latest_system w) n) v;
  wk_passed : forall c cell, m_cells (w_memory w) !! c = Some cell -> passed_on w c cell;
}.

(** ** Reading *)

Lemma choose_bound {B} (writes : list B) seen pick :
  writes <> [] -> (seen <= length writes - 1)%nat ->
  (seen <= choose writes seen pick <= length writes - 1)%nat /\ is_Some (writes !! choose writes seen pick).
Proof.
  intros Hne Hs. unfold choose. split; [lia|]. apply lookup_lt_is_Some.
  destruct writes; [done|]. simpl in *. lia.
Qed.

Lemma counts_latest counter : counts counter -> latest counter = Z.of_nat (length counter - 1).
Proof.
  intros [Hne Hk]. unfold latest. rewrite last_lookup, Nat.sub_1_r.
  destruct (lookup_lt_is_Some_2 counter (pred (length counter))) as [x Hx]; [by destruct counter; simpl in *; [|lia]|].
  rewrite Hx. simpl. by apply Hk.
Qed.

Lemma latest_snoc counter x : latest (counter ++ [x]) = x.
Proof. unfold latest. by rewrite last_snoc. Qed.

Lemma counts_snoc counter : counts counter -> counts (counter ++ [latest counter + 1]).
Proof.
  intros Hc. rewrite (counts_latest _ Hc). destruct Hc as [Hne Hk]. split; [by destruct counter|].
  intros k x [Hl|[Hge Hl]]%lookup_app_Some; [by apply Hk|].
  apply list_lookup_singleton_Some in Hl as [? <-]. destruct counter; simpl in *; [done|lia].
Qed.

(** A relaxed load of a counter reads a value that it has had. *)
Lemma load_counter_reads counter l pick v :
  counts counter -> (v l <= length counter - 1)%nat ->
  exists x t, load_counter counter l pick v = Done (x, see l t v)
    /\ (t <= length counter - 1)%nat /\ 0 <= x <= latest counter.
Proof.
  intros Hc Hv. pose proof (counts_latest _ Hc) as Hl. destruct Hc as [Hne Hk].
  destruct (choose_bound counter (v l) pick Hne Hv) as [Ht [x Hx]].
  exists x, (choose counter (v l) pick). unfold load_counter. rewrite Hx. split; [done|].
  split; [lia|]. rewrite Hl, (Hk _ _ Hx). lia.
Qed.

Section Reads.
Context (w : weak_system) (Hw : weak_inv w).
Let s := latest_system w.
Let m := w_memory w.

Lemma index_in_slot n : index_in m n = slot s n.
Proof. exact (index_slot s (wk_inv w Hw) n). Qed.

(** The cell that the sequentially consistent memory would hold. *)
Lemma latest_cell_is n sq val :
  cell_is s n sq val ->
  exists cell a, m_cells m !! slot s n = Some cell /\ last (wc_sequence cell) = Some a
    /\ stored a = sq /\ wc_value cell = val.
Proof.
  unfold cell_is. simpl. change (map latest_cell) with (fmap (M := list) latest_cell).
  rewrite list_lookup_fmap. destruct (m_cells (w_memory w) !! slot s n) as [cell|] eqn:Hc; [|done].
  simpl. intros [= Hsq Hval]. destruct (wk_history w Hw _ _ Hc) as [Hne _].
  destruct (last (wc_sequence cell)) as [a|] eqn:Ha; [|by apply last_None in Ha].
  by exists cell, a.
Qed.

Lemma cell_in_done n cell : m_cells m !! slot s n = Some cell -> cell_in m n = Done cell.
Proof. intros Hc. unfold cell_in. rewrite index_in_slot. by rewrite Hc. Qed.

Lemma cell_seen n cell v :
  m_cells m !! slot s n = Some cell -> within v (now_seen m) ->
  (v (Sequence (slot s n)) <= length (wc_sequence cell) - 1)%nat.
Proof. intros Hc Hv. specialize (Hv (Sequence (slot s n))). simpl in Hv. by rewrite Hc in Hv. Qed.

(** An acquire load of a sequence number reads a value that it has had; if that is
    the latest, the thread has then seen what the last write passes on. *)
Lemma load_sequence_reads n pick v sq val :
  within v (now_seen m) -> cell_is s n sq val ->
  exists a v', load_sequence m n pick v = Done (stored a, v') /\ within v' (now_seen m)
    /\ 0 <= stored a <= sq
    /\ (stored a = sq -> v' (Sequence (slot s n)) = now_seen m (Sequence (slot s n))
         /\ within (released a) v'
         /\ exists cell, m_cells m !! slot s n = Some cell /\ last (wc_sequence cell) = Some a).
Proof.
  intros Hv Hcell. destruct (latest_cell_is n sq val Hcell) as (cell & b & Hc & Hb & Hsq & _).
  destruct (wk_history w Hw _ _ Hc) as (Hne & Hinc & Hall).
  destruct (choose_bound (wc_sequence cell) (v (Sequence (slot s n))) pick Hne (cell_seen _ _ _ Hc Hv))
    as [Ht [a Ha]]. set (t := choose _ _ _) in *.
  pose proof (Forall_lookup_1 _ _ _ _ Hall Ha) as [Hpos Hrel].
  assert (now_seen m (Sequence (slot s n)) = (length (wc_sequence cell) - 1)%nat) as Hnow
    by (simpl; by rewrite Hc).
  exists a, (join (see (Sequence (slot s n)) t v) (released a)).
  split; [|split; [|split]].
  - unfold load_sequence. rewrite (cell_in_done _ _ Hc), index_in_slot. cbn [obind]. fold t. by rewrite Ha.
  - apply join_within; [|exact Hrel]. apply see_within; [lia|done].
  - rewrite last_lookup in Hb. split; [done|]. destruct (decide (t = pred (length (wc_sequence cell)))) as [Heq|Hne'].
    + rewrite <- Heq, Ha in Hb. injection Hb as <-. lia.
    + pose proof (Hinc _ _ _ _ Ha Hb ltac:(lia)). lia.
  - intros Hlast. assert (t = pred (length (wc_sequence cell))) as Heq.
    { destruct (decide (t = pred (length (wc_sequence cell)))) as [|Hne']; [done|].
      rewrite last_lookup in Hb. pose proof (Hinc _ _ _ _ Ha Hb ltac:(lia)). lia. }
    split; [|split].
    + specialize (Hrel (Sequence (slot s n))). unfold join. rewrite see_eq, Hnow.
      fold m in Hrel. lia.
    + intros l. unfold join. lia.
    + exists cell. split; [done|]. by rewrite last_lookup, <- Heq.
Qed.

(** Nobody has the cell that a thread is about to claim: what was passed on is
    all that happened to it. *)
Lemma claim_up_to_date i th v b n sq val a v' cell :
  w_threads w !! i = Some (th, v) -> held (now th) = None -> thread_ok s i b -> guards s b n sq ->
  cell_is s n sq val -> m_cells m !! slot s n = Some cell -> last (wc_sequence cell) = Some a ->
  within v' (now_seen m) -> v' (Sequence (slot s n)) = now_seen m (Sequence (slot s n)) ->
  within (released a) v' -> up_to_date m (slot s n) v'.
Proof.
  intros Hi Hnone Hok Hg Hcell Hc Ha Hv' Hseq Hrel. split; [done|].
  destruct (wk_passed w Hw _ _ Hc) as [(a' & Ha' & _ & Hval)|(j & thj & vj & k & Hj & Hk & Hslot)].
  - rewrite Ha in Ha'. injection Ha' as <-. specialize (Hrel (Value (slot s n))).
    specialize (Hv' (Value (slot s n))). fold s m in Hval. lia.
  - assert (threads s !! j = Some thj) as Hj' by (simpl; by rewrite list_lookup_fmap, Hj).
    destruct (held_owns s j thj k (wk_inv w Hw) Hj' Hk) as (sqk & Ho).
    destruct (decide (j = i)) as [->|Hji]; [congruence|].
    by destruct (owned_apart s j k sqk i b n sq val (wk_inv w Hw) Ho Hji Hok Hg Hcell).
Qed.
End Reads.

(** ** Steps *)

(** The state after thread [i] went on to [th'] with the view [v']. *)
Definition weak_stepped (w : weak_system) (i : nat) (th' : thread) (v' : view) (m : memory)
    (en : list (nat * A)) (cl : list nat) : weak_system :=
  mkWeak m (<[i := (th', v')]> (w_threads w)) (w_entered w ++ en) (w_claimed w ++ cl).

Lemma latest_stepped w i th' v' m en cl :
  latest_system (weak_stepped w i th' v' m en cl)
  = stepped (latest_system w) i th' (latest_queue m) en cl.
Proof.
  unfold latest_system, stepped. simpl. f_equal.
  change (map fst) with (fmap (M := list) (@fst (thread (A := A)) view)). apply list_fmap_insert.
Qed.

Lemma weak_inv_stepped w i th v th' v' m' en cl :
  weak_inv w -> w_threads w !! i = Some (th, v) ->
  let s := latest_system w in
  let s' := stepped s i th' (latest_queue m') en cl in
  inv s' -> m_capacity m' = m_capacity (w_memory w) ->
  within (now_seen (w_memory w)) (now_seen m') -> counts (m_enqueue m') -> counts (m_dequeue m') ->
  (forall c cell, m_cells m' !! c = Some cell -> history_ok m' (wc_sequence cell)) ->
  within v' (now_seen m') ->
  (forall n sq, guards s' (now th') n sq -> up_to_date m' (slot s n) v') ->
  (forall j b n sq, i <> j -> thread_ok s j b -> guards s' b n sq ->
     guards s b n sq /\ forall u, up_to_date (w_memory w) (slot s n) u -> up_to_date m' (slot s n) u) ->
  (forall c cell, m_cells m' !! c = Some cell ->
     (exists a, last (wc_sequence cell) = Some a /\ up_to_date m' c (released a))
     \/ (exists n, held (now th') = Some n /\ slot s n = c)
     \/ exists j thj vj n, i <> j /\ w_threads w !! j = Some (thj, vj) /\ held (now thj) = Some n /\ slot s n = c) ->
  weak_inv (weak_stepped w i th' v' m' en cl).
Proof.
  intros Hw Hi s s' Hinv Hcap Hgrow Hen Hde Hhist Hv' Hown Hothers Hpass.
  assert (Hslot : forall n, slot s' n = slot s n) by (intros n; unfold slot; simpl; by rewrite Hcap).
  pose proof (latest_stepped w i th' v' m' en cl) as Hl. fold s s' in Hl.
  split; rewrite ?Hl; simpl; try done.
  - intros j thj vj [[<- [[= <- <-] _]]|[Hij Hj]]%list_lookup_insert_Some; [done|].
    etrans; [by eapply (wk_views w Hw)|done].
  - intros j thj vj n sq [[<- [[= <- <-] _]]|[Hij Hj]]%list_lookup_insert_Some Hg; rewrite Hslot; [by eapply Hown|].
    assert (threads s !! j = Some thj) as Hj' by (simpl; by rewrite list_lookup_fmap, Hj).
    destruct (Hothers j (now thj) n sq Hij (inv_threads s (wk_inv w Hw) j thj Hj') Hg) as [Hg' Hup].
    apply Hup. by eapply (wk_guards w Hw).
  - intros c cell Hc. unfold passed_on. rewrite Hl. simpl.
    destruct (Hpass c cell Hc) as [?|[(n & Hn & Hs)|(j & thj & vj & n & Hij & Hj & Hn & Hs)]]; [by left|right..].
    + exists i, th', v', n. rewrite Hslot. split; [|done]. apply list_lookup_insert_eq. by eapply lookup_lt_Some.
    + exists j, thj, vj, n. rewrite Hslot. split; [|done]. by rewrite list_lookup_insert_ne.
Qed.

(** The holders of cells after a step that holds what it held. *)
Lemma passed_kept w i th v th' c cell :
  weak_inv w -> w_threads w !! i = Some (th, v) -> m_cells (w_memory w) !! c = Some cell ->
  (forall n, held (now th) = Some n -> held (now th') = Some n) ->
  (exists a, last (wc_sequence cell) = Some a /\ up_to_date (w_memory w) c (released a))
  \/ (exists n, held (now th') = Some n /\ slot (latest_system w) n = c)
  \/ exists j thj vj n, i <> j /\ w_threads w !! j = Some (thj, vj) /\ held (now thj) = Some n
       /\ slot (latest_system w) n = c.
Proof.
  intros Hw Hi Hc Hh. destruct (wk_passed w Hw _ _ Hc) as [?|(j & thj & vj & n & Hj & Hn & Hs)]; [by left|right].
  destruct (decide (i = j)) as [<-|Hij].
  - left. rewrite Hi in Hj. injection Hj as <- <-. eauto.
  - right. by exists j, thj, vj, n.
Qed.

(** A step that does not write. *)
Lemma weak_quiet w i th v th' v' :
  weak_inv w -> w_threads w !! i = Some (th, v) ->
  inv (stepped (latest_system w) i th' (latest_queue (w_memory w)) [] []) ->
  held (now th') = held (now th) -> within v' (now_seen (w_memory w)) ->
  (forall n sq, guards (latest_system w) (now th') n sq ->
     up_to_date (w_memory w) (slot (latest_system w) n) v') ->
  weak_inv (weak_stepped w i th' v' (w_memory w) [] []).
Proof.
  intros Hw Hi Hinv Hh Hv' Hown. eapply weak_inv_stepped; try done; try apply Hw.
  intros c cell Hc. eapply passed_kept; [done|done|done|]. by rewrite Hh.
Qed.

(** An exchange on a counter. *)
Lemma weak_exchanged w i th v th' l en cl e d :
  weak_inv w -> w_threads w !! i = Some (th, v) -> held (now th) = None ->
  let m := w_memory w in let s := latest_system w in
  (l = Enqueue /\ e = m_enqueue m ++ [latest (m_enqueue m) + 1] /\ d = m_dequeue m
   \/ l = Dequeue /\ e = m_enqueue m /\ d = m_dequeue m ++ [latest (m_dequeue m) + 1]) ->
  let m' := mkMemory (m_capacity m) (m_mask m) (m_cells m) e d in
  let s' := stepped s i th' (latest_queue m') en cl in
  inv s' -> (forall n sq, guards s' (now th') n sq -> up_to_date m (slot s n) v) ->
  weak_inv (weak_stepped w i th' (see l (now_seen m' l) v) m' en cl).
Proof.
  intros Hw Hi Hnone m s Hl m' s' Hinv Hown.
  assert (Hsame : forall k, k <> l -> now_seen m' k = now_seen m k)
    by (intros [| | |] Hk; destruct Hl as [(-> & -> & ->)|(-> & -> & ->)]; by simpl).
  assert (Hgrow : within (now_seen m) (now_seen m')).
  { intros k. destruct (decide (k = l)) as [->|Hk]; [|by rewrite Hsame].
    destruct Hl as [(-> & -> & ->)|(-> & -> & ->)]; simpl; rewrite length_app; simpl; lia. }
  assert (Hv : within v (now_seen m')) by (etrans; [by eapply (wk_views w Hw)|done]).
  pose proof (wk_enqueue w Hw) as Hce. pose proof (wk_dequeue w Hw) as Hcd. fold m in Hce, Hcd.
  assert (Hup : forall c u, up_to_date m c u -> up_to_date m' c u).
  { intros c u [H1 H2]. by split; rewrite Hsame by (by destruct Hl as [(-> & _)|(-> & _)]). }
  eapply weak_inv_stepped; try done.
  - destruct Hl as [(_ & -> & _)|(_ & -> & _)]; simpl; [by apply counts_snoc|done].
  - destruct Hl as [(_ & _ & ->)|(_ & _ & ->)]; simpl; [done|by apply counts_snoc].
  - intros c cell Hc. destruct (wk_history w Hw c cell Hc) as (? & ? & Hall). split; [done|]. split; [done|].
    eapply Forall_impl; [exact Hall|]. intros a [? ?]. split; [done|]. by etrans.
  - by apply see_within.
  - intros n sq Hg. apply Hup. destruct (Hown n sq Hg) as [H1 H2].
    split; rewrite see_ne by (by destruct Hl as [(-> & _)|(-> & _)]); done.
  - intros j b n sq Hij Hok Hg. split; [|by apply Hup].
    destruct Hl as [(_ & He & Hd)|(_ & He & Hd)]; destruct b; simpl in *; rewrite ?He, ?Hd, ?latest_snoc in Hg; try done;
      fold m in Hok; lia.
  - intros c cell Hc. destruct (passed_kept w i th v th' c cell Hw Hi Hc) as [(a & Ha & Hu)|?]; [by rewrite Hnone|left|by right].
    exists a. split; [done|]. by apply Hup.
Qed.

Lemma guards_cell (s : system (A := A)) j b n sq :
  thread_ok s j b -> guards s b n sq -> exists val, cell_is s n sq val.
Proof.
  destruct b; simpl; try done; intros Hok Hg; destruct_and?; subst; eauto;
    repeat match goal with H : exists _, _ |- _ => destruct H end; destruct_and?; eauto.
Qed.

Section Holder.
Context (w : weak_system) (i : nat) (th : thread (A := A)) (v : view) (n : Z) (cell : weak_cell).
Context (Hw : weak_inv w) (Hi : w_threads w !! i = Some (th, v)) (Hheld : held (now th) = Some n).
Let m := w_memory w.
Let s := latest_system w.
Let c := slot s n.
Context (Hcell : m_cells m !! c = Some cell).

Lemma written_cells cell' : m_cells (set_weak_cell m n cell') = <[c := cell']> (m_cells m).
Proof. simpl. unfold m. by rewrite (index_in_slot w Hw). Qed.

Lemma written_lookup cell' k x :
  m_cells (set_weak_cell m n cell') !! k = Some x ->
  k = c /\ x = cell' \/ k <> c /\ m_cells m !! k = Some x.
Proof.
  rewrite written_cells. intros [[<- [<- _]]|[Hne Hk]]%list_lookup_insert_Some; [by left|right]. by split.
Qed.

Lemma written_seen cell' l :
  now_seen (set_weak_cell m n cell') l
  = if decide (l = Sequence c) then (length (wc_sequence cell') - 1)%nat
    else if decide (l = Value c) then wc_accesses cell' else now_seen m l.
Proof.
  assert (c < length (m_cells m))%nat as Hlt by (by eapply lookup_lt_Some).
  destruct l as [| |k|k]; unfold now_seen; rewrite ?written_cells; try done;
    repeat case_decide; simplify_eq; rewrite ?list_lookup_insert_eq by done; try done;
    by rewrite list_lookup_insert_ne by congruence.
Qed.

(** The holder of a cell writes it: its value, or its sequence number. *)
Lemma weak_written th' v' cell' :
  let m' := set_weak_cell m n cell' in
  let s' := stepped s i th' (latest_queue m') [] [] in
  inv s' -> (length (wc_sequence cell) <= length (wc_sequence cell'))%nat ->
  (wc_accesses cell <= wc_accesses cell')%nat ->
  (within (now_seen m) (now_seen m') -> history_ok m' (wc_sequence cell')) ->
  within v' (now_seen m') ->
  (forall k sq, guards s' (now th') k sq -> up_to_date m' (slot s k) v') ->
  (exists a, last (wc_sequence cell') = Some a /\ up_to_date m' c (released a)) \/ held (now th') = Some n ->
  weak_inv (weak_stepped w i th' v' m' [] []).
Proof.
  intros m' s' Hinv Hlen Hacc Hhist Hv' Hown Hpass.
  assert (Hgrow : within (now_seen m) (now_seen m')).
  { intros l. unfold m'. rewrite written_seen. repeat case_decide; subst; simpl; rewrite ?Hcell; simpl; lia. }
  assert (Hup : forall k u, k <> c -> up_to_date m k u -> up_to_date m' k u).
  { intros k u Hk [H1 H2]. unfold m'. by split; rewrite written_seen, !decide_False by congruence. }
  eapply weak_inv_stepped; try done; try apply Hw.
  - intros k x [[-> ->]|[Hk Hx]]%written_lookup; [by apply Hhist|].
    destruct (wk_history w Hw k x Hx) as (? & ? & Hall). split; [done|]. split; [done|].
    eapply Forall_impl; [exact Hall|]. intros a [? ?]. split; [done|]. by etrans.
  - intros j b k sq Hij Hok Hg. split; [done|]. intros u. apply Hup. intros Hk.
    destruct (guards_cell s j b k sq Hok Hg) as [val Hval].
    assert (threads s !! i = Some th) as Hi' by (simpl; by rewrite list_lookup_fmap, Hi).
    destruct (held_owns s i th n (wk_inv w Hw) Hi' Hheld) as (sqn & Ho).
    by eapply (owned_apart s i n sqn j b k sq val (wk_inv w Hw) Ho Hij Hok Hg Hval).
  - intros k x [[-> ->]|[Hk Hx]]%written_lookup; [destruct Hpass; eauto|].
    destruct (wk_passed w Hw k x Hx) as [(a & Ha & Hu)|(j & thj & vj & q & Hj & Hq & Hs)].
    + left. exists a. split; [done|]. by apply Hup.
    + right. right. exists j, thj, vj, q. split; [|done]. intros <-.
      rewrite Hi in Hj. injection Hj as <- <-. rewrite Hheld in Hq. injection Hq as <-. by apply Hk.
Qed.

Lemma written_queue cell' :
  latest_queue (set_weak_cell m n cell') = set_cell (queue s) n (latest_cell cell').
Proof.
  unfold latest_queue, set_cell. simpl. f_equal.
  change (map latest_cell) with (fmap (M := list) latest_cell). apply list_fmap_insert.
Qed.

Lemma holder_up_to_date : up_to_date m c v.
Proof.
  assert (exists sq, guards s (now th) n sq) as [sq Hg].
  { unfold held in Hheld. destruct (now th); simplify_eq/=; eauto. }
  by eapply (wk_guards w Hw).
Qed.

Lemma holder_seen : v (Sequence c) = (length (wc_sequence cell) - 1)%nat /\ v (Value c) = wc_accesses cell.
Proof. destruct holder_up_to_date as [H1 H2]. simpl in H1, H2. by rewrite Hcell in H1, H2. Qed.

(** The holder's access to the value is not a race. *)
Lemma weak_accessed f th' :
  held (now th') = Some n ->
  inv (stepped s i th' (set_cell (queue s) n (mkCell (sequence (latest_cell cell)) (f (wc_value cell)))) [] []) ->
  exists m' v', access_value m n f v = Done (wc_value cell, m', v')
    /\ weak_inv (weak_stepped w i th' v' m' [] []).
Proof.
  intros Hh Hinv. destruct holder_seen as [Hs Hv].
  set (cell' := mkWeakCell (wc_sequence cell) (f (wc_value cell)) (S (wc_accesses cell))).
  exists (set_weak_cell m n cell'), (see (Value c) (S (wc_accesses cell)) v). split.
  { unfold access_value, m. rewrite (cell_in_done w Hw _ _ Hcell), (index_in_slot w Hw). cbn [obind].
    fold s c. by rewrite Hv, Nat.eqb_refl. }
  apply weak_written; simpl; try done; try lia.
  - by rewrite written_queue.
  - intros Hgrow. destruct (wk_history w Hw _ _ Hcell) as (? & ? & Hall). split; [done|]. split; [done|].
    eapply Forall_impl; [exact Hall|]. intros a [? ?]. split; [done|]. by etrans.
  - intros l. unfold see. rewrite written_seen. pose proof (wk_views w Hw i th v Hi l) as Hl. fold m in Hl.
    repeat case_decide; subst; simplify_eq; simpl; lia.
  - intros k sq Hg. assert (k = n) as ->.
    { unfold held in Hh. destruct (now th'); simplify_eq/=; by destruct Hg. }
    fold c. unfold up_to_date. rewrite !written_seen, see_eq, see_ne by done.
    rewrite decide_True by done. split; [done|]. by rewrite decide_False, decide_True by done.
  - by right.
Qed.

(** The holder's release store passes the cell on. *)
Lemma weak_stored x th' :
  now th' = Idle -> 0 <= x -> sequence (latest_cell cell) < x ->
  inv (stepped s i th' (set_cell (queue s) n (mkCell x (wc_value cell))) [] []) ->
  exists m' v', store_sequence m n x v = Done (m', v')
    /\ weak_inv (weak_stepped w i th' v' m' [] []).
Proof.
  intros Hidle Hx Hlt Hinv. destruct holder_seen as [Hs Hv].
  destruct (wk_history w Hw _ _ Hcell) as (Hne & Hinc & Hall).
  assert (length (wc_sequence cell) <> 0%nat) as Hlen by (by destruct (wc_sequence cell)).
  set (v' := see (Sequence c) (length (wc_sequence cell)) v).
  set (cell' := mkWeakCell (wc_sequence cell ++ [mkMessage x v']) (wc_value cell) (wc_accesses cell)).
  assert (Hup : up_to_date (set_weak_cell m n cell') c v').
  { unfold up_to_date. rewrite !written_seen. unfold v'. rewrite see_eq, see_ne by done.
    rewrite decide_True by done. simpl. rewrite length_app. simpl. split; [lia|].
    by case_decide. }
  assert (Hv' : within v' (now_seen (set_weak_cell m n cell'))).
  { intros l. unfold v', see. rewrite written_seen. pose proof (wk_views w Hw i th v Hi l) as Hl. fold m in Hl.
    repeat case_decide; subst; simplify_eq; simpl; rewrite ?length_app; simpl; lia. }
  exists (set_weak_cell m n cell'), v'. split.
  { unfold store_sequence, m. rewrite (cell_in_done w Hw _ _ Hcell), (index_in_slot w Hw). cbn [obind].
    fold s c. rewrite Hs. by rewrite (proj2 (Nat.eqb_eq _ _)) by lia. }
  apply weak_written; simpl; try done.
  - rewrite written_queue. unfold latest_cell at 1. simpl. by rewrite last_snoc.
  - rewrite length_app. lia.
  - intros Hgrow. split; [by destruct (wc_sequence cell)|]. split.
    + intros j k a b [Ha|[Hja Ha]]%lookup_app_Some [Hb|[Hkb Hb]]%lookup_app_Some Hjk; [by eapply Hinc| | |].
      * apply list_lookup_singleton_Some in Hb as [_ <-]. simpl. unfold latest_cell in Hlt. simpl in Hlt.
        destruct (last (wc_sequence cell)) as [b|] eqn:Hb; [|by apply last_None in Hb]. simpl in Hlt.
        rewrite last_lookup in Hb.
        destruct (decide (j = pred (length (wc_sequence cell)))) as [->|Hne'].
        -- rewrite Ha in Hb. by injection Hb as <-.
        -- apply lookup_lt_Some in Ha as Hja. pose proof (Hinc _ _ _ _ Ha Hb ltac:(lia)). lia.
      * apply lookup_lt_Some in Hb. lia.
      * apply list_lookup_singleton_Some in Ha as [? _], Hb as [? _]. lia.
    + apply Forall_app. split; [|by repeat constructor]. eapply Forall_impl; [exact Hall|].
      intros a [? ?]. split; [done|]. by etrans.
  - by rewrite Hidle.
  - left. exists (mkMessage x v'). split; [apply last_snoc|done].
Qed.
End Holder.

Lemma held_none a : held (A := A) a = None -> pushing a = None /\ popping a = None.
Proof. unfold held. by destruct (pushing a) as [[]|]. Qed.

Section Step.
Context (w : weak_system) (i : nat) (th : thread (A := A)) (v : view).
Context (Hw : weak_inv w) (Hi : w_threads w !! i = Some (th, v)).
Let m := w_memory w.
Let s := latest_system w.

Lemma latest_thread : threads s !! i = Some th.
Proof. simpl. by rewrite list_lookup_fmap, Hi. Qed.

Lemma thread_now_ok : thread_ok s i (now th).
Proof. exact (inv_threads s (wk_inv w Hw) i th latest_thread). Qed.

Lemma view_within : within v (now_seen m).
Proof. by eapply (wk_views w Hw). Qed.

(** A thread that holds no cell goes on to a point where it holds none. *)
Lemma weak_goes a v' :
  held (now th) = None -> held a = None -> pushes_left (settle th (Goes a)) <= pushes_left th ->
  thread_ok s i a -> within v' (now_seen m) ->
  (forall n sq, guards s a n sq -> up_to_date m (slot s n) v') ->
  weak_inv (weak_stepped w i (settle th (Goes a)) v' m [] []).
Proof.
  intros Hh Ha Hp Hok Hv' Hg. destruct (held_none _ Hh) as [Hpu Hpo], (held_none _ Ha) as [Hpu' Hpo'].
  eapply weak_quiet; [done|done| |by rewrite Hh|done|done].
  eapply (inv_quiet s i th); [apply Hw|apply latest_thread|done|done|done| |..]; simpl; congruence || done.
Qed.

(** Or it gives up. *)
Lemma weak_refuses r v' :
  held (now th) = None -> (exists item, r = PushReturned item false) \/ r = PopReturned None ->
  within v' (now_seen m) -> weak_inv (weak_stepped w i (settle th (Returns r)) v' m [] []).
Proof.
  intros Hh Hr Hv'. destruct (held_none _ Hh) as [Hpu Hpo].
  assert (Hitems : pushed_items (settle th (Returns r)) = pushed_items th
                   /\ popped_items (settle th (Returns r)) = popped_items th).
  { unfold pushed_items, popped_items. simpl. rewrite !omap_snoc. by destruct Hr as [[item ->]| ->]; rewrite !app_nil_r. }
  destruct Hitems as [Hpi Hpp].
  eapply weak_quiet; [done|done| |by rewrite Hh|done|by simpl].
  eapply (inv_quiet s i th); [apply Hw|apply latest_thread| |done|done|by rewrite Hpu|by rewrite Hpo|done].
  unfold pushes_left. simpl. destruct (now th); lia.
Qed.

(** The step is defined, and keeps the invariant. *)
Definition weak_safe (r : outcome (memory * view * next (A := A))) : Prop :=
  exists m' v' n, r = Done (m', v', n)
    /\ weak_inv (weak_stepped w i (settle th n) v' m' (enters i n (now th)) (claims i n (now th))).

Lemma push_load_safe item pick exchanges :
  now th = PushLoad item -> weak_safe (weak_push_step pick exchanges m v (now th)).
Proof.
  intros Hnow. destruct (load_counter_reads (m_enqueue m) Enqueue pick v) as (x & t & Hl & Ht & Hx);
    [apply Hw|apply view_within|]. unfold weak_safe. rewrite Hnow. simpl. rewrite Hl.
  do 3 eexists. split; [done|]. apply weak_goes; [by rewrite Hnow|done| |done| |done].
  - unfold pushes_left. rewrite Hnow. simpl. lia.
  - apply see_within; [done|apply view_within].
Qed.

Lemma pop_load_safe pick exchanges :
  now th = PopLoad -> weak_safe (weak_pop_step pick exchanges m v (now th)).
Proof.
  intros Hnow. destruct (load_counter_reads (m_dequeue m) Dequeue pick v) as (x & t & Hl & Ht & Hx);
    [apply Hw|apply view_within|]. unfold weak_safe. rewrite Hnow. simpl. rewrite Hl.
  do 3 eexists. split; [done|]. apply weak_goes; [by rewrite Hnow|done| |done| |done].
  - unfold pushes_left. rewrite Hnow. simpl. lia.
  - apply see_within; [done|apply view_within].
Qed.

Lemma push_sequence_weak item n pick exchanges :
  now th = PushSequence item n -> weak_safe (weak_push_step pick exchanges m v (now th)).
Proof.
  intros Hnow. pose proof thread_now_ok as Hok. pose proof (counters_small s (wk_inv w Hw)).
  pose proof (capacity_two s (wk_inv w Hw)). rewrite Hnow in Hok. simpl in Hok.
  destruct (push_view s n (wk_inv w Hw) Hok) as (sq & val & Hc & Hsq & Hlt & Heq).
  destruct (load_sequence_reads w Hw n pick v sq val view_within Hc) as (a & v' & Hl & Hv' & Ha & Hlast).
  unfold weak_safe. rewrite Hnow. simpl. fold m in Hl. rewrite Hl. simpl.
  rewrite difference_ok by (simpl in *; lia). simpl. do 3 eexists. split; [done|].
  destruct (Z.eqb_spec (stored a - n) 0) as [Hz|Hz]; [|destruct (Z.ltb_spec (stored a - n) 0)]; simpl.
  - assert (Hok' : thread_ok s i (PushExchange item n)).
    { split; [done|]. intros Hn. exists val. assert (sq = n) as <- by (destruct (Heq Hn) as [?|[? _]]; lia). done. }
    apply weak_goes; [by rewrite Hnow|done| |done|done|].
    + unfold pushes_left. rewrite Hnow. simpl. lia.
    + intros k sq' Hg. pose proof Hg as (-> & Hn & ->).
      assert (sq = n) as -> by (destruct (Heq Hn) as [?|[? _]]; lia).
      destruct (Hlast ltac:(lia)) as (Hs & Hrel & cell & Hcell & Hla).
      eapply (claim_up_to_date w Hw i th v (PushExchange item n)); try done. by rewrite Hnow.
  - apply weak_refuses; [by rewrite Hnow|eauto|done].
  - apply weak_goes; [by rewrite Hnow|done| |done|done|done].
    unfold pushes_left. rewrite Hnow. simpl. lia.
Qed.

Lemma pop_sequence_weak n pick exchanges :
  now th = PopSequence n -> weak_safe (weak_pop_step pick exchanges m v (now th)).
Proof.
  intros Hnow. pose proof thread_now_ok as Hok. pose proof (counters_small s (wk_inv w Hw)).
  pose proof (capacity_two s (wk_inv w Hw)). pose proof (inv_order s (wk_inv w Hw)).
  rewrite Hnow in Hok. simpl in Hok.
  destruct (pop_view s n (wk_inv w Hw) Hok) as (sq & val & Hc & Hsq & Hlt & Heq).
  destruct (load_sequence_reads w Hw n pick v sq val view_within Hc) as (a & v' & Hl & Hv' & Ha & Hlast).
  unfold weak_safe. rewrite Hnow. simpl. fold m in Hl. rewrite Hl. simpl.
  rewrite u64_small, difference_ok by (simpl in *; lia). simpl. do 3 eexists. split; [done|].
  destruct (Z.eqb_spec (stored a - (n + 1)) 0) as [Hz|Hz]; [|destruct (Z.ltb_spec (stored a - (n + 1)) 0)]; simpl.
  - assert (Hok' : thread_ok s i (PopExchange n)).
    { split; [done|]. intros Hn. exists val. assert (sq = n + 1) as <- by (destruct (Heq Hn) as [?|[? _]]; lia). done. }
    apply weak_goes; [by rewrite Hnow|done| |done|done|].
    + unfold pushes_left. rewrite Hnow. simpl. lia.
    + intros k sq' Hg. pose proof Hg as (-> & Hn & ->).
      assert (sq = n + 1) as -> by (destruct (Heq Hn) as [?|[? _]]; lia).
      destruct (Hlast ltac:(lia)) as (Hs & Hrel & cell & Hcell & Hla).
      eapply (claim_up_to_date w Hw i th v (PopExchange n)); try done. by rewrite Hnow.
  - apply weak_refuses; [by rewrite Hnow|by right|done].
  - apply weak_goes; [by rewrite Hnow|done| |done|done|done].
    unfold pushes_left. rewrite Hnow. simpl. lia.
Qed.

Lemma push_exchange_weak item n pick exchanges :
  now th = PushExchange item n -> weak_safe (weak_push_step pick exchanges m v (now th)).
Proof.
  intros Hnow. pose proof thread_now_ok as Hok. pose proof (counters_small s (wk_inv w Hw)).
  pose proof (capacity_two s (wk_inv w Hw)). unfold weak_safe. rewrite Hnow in Hok |- *. cbn [weak_push_step].
  destruct (exchanges && (latest (m_enqueue m) =? n)) eqn:Hex.
  - reflect_bools. pose proof (push_exchanged s i th (wk_inv w Hw) latest_thread item n Hnow ltac:(done)) as Hinv.
    do 3 eexists. split; [done|]. rewrite u64_small by (destruct Hok; simpl in *; lia).
    replace (length (m_enqueue m)) with (now_seen (mkMemory (m_capacity m) (m_mask m) (m_cells m)
      (m_enqueue m ++ [n + 1]) (m_dequeue m)) Enqueue) by (simpl; rewrite length_app; simpl; lia).
    apply (weak_exchanged w i th v _ Enqueue); [done|done|by rewrite Hnow| | |].
    + left. split; [done|]. split; [|done]. fold m. by subst n.
    + unfold latest_queue. cbn [m_capacity m_mask m_cells m_enqueue m_dequeue].
      rewrite latest_snoc. exact Hinv.
    + intros k sq [-> ->]. eapply (wk_guards w Hw i th v); [done|]. rewrite Hnow. simpl. by fold m.
  - destruct (load_counter_reads (m_enqueue m) Enqueue pick v) as (x & t & Hl & Ht & Hx);
      [apply Hw|apply view_within|]. rewrite Hl. simpl. do 3 eexists. split; [done|].
    apply weak_goes; [by rewrite Hnow|done| |done| |done].
    + unfold pushes_left. rewrite Hnow. simpl. lia.
    + apply see_within; [done|apply view_within].
Qed.

Lemma pop_exchange_weak n pick exchanges :
  now th = PopExchange n -> weak_safe (weak_pop_step pick exchanges m v (now th)).
Proof.
  intros Hnow. pose proof thread_now_ok as Hok. pose proof (counters_small s (wk_inv w Hw)).
  pose proof (capacity_two s (wk_inv w Hw)). pose proof (inv_order s (wk_inv w Hw)).
  unfold weak_safe. rewrite Hnow in Hok |- *. cbn [weak_pop_step].
  destruct (exchanges && (latest (m_dequeue m) =? n)) eqn:Hex.
  - reflect_bools. pose proof (pop_exchanged s i th (wk_inv w Hw) latest_thread n Hnow ltac:(done)) as Hinv.
    do 3 eexists. split; [done|]. rewrite u64_small by (destruct Hok; simpl in *; lia).
    replace (length (m_dequeue m)) with (now_seen (mkMemory (m_capacity m) (m_mask m) (m_cells m)
      (m_enqueue m) (m_dequeue m ++ [n + 1])) Dequeue) by (simpl; rewrite length_app; simpl; lia).
    apply (weak_exchanged w i th v _ Dequeue); [done|done|by rewrite Hnow| | |].
    + right. split; [done|]. split; [done|]. fold m. by subst n.
    + unfold latest_queue. cbn [m_capacity m_mask m_cells m_enqueue m_dequeue].
      rewrite latest_snoc. exact Hinv.
    + intros k sq [-> ->]. eapply (wk_guards w Hw i th v); [done|]. rewrite Hnow. simpl. by fold m.
  - destruct (load_counter_reads (m_dequeue m) Dequeue pick v) as (x & t & Hl & Ht & Hx);
      [apply Hw|apply view_within|]. rewrite Hl. simpl. do 3 eexists. split; [done|].
    apply weak_goes; [by rewrite Hnow|done| |done| |done].
    + unfold pushes_left. rewrite Hnow. simpl. lia.
    + apply see_within; [done|apply view_within].
Qed.

(** Writing back what a cell holds changes nothing. *)
Lemma set_cell_same n sq val :
  cell_is s n sq val -> set_cell (queue s) n (mkCell sq val) = queue s.
Proof.
  unfold cell_is, set_cell. intros Hc. rewrite (index_slot s (wk_inv w Hw)), (list_insert_id _ _ _ Hc).
  by destruct (queue s).
Qed.

(** The accesses of a thread that holds a cell, whose invariant is that of the
    sequentially consistent step. *)
Lemma holder_access_safe n f a' sq val :
  held (now th) = Some n -> held a' = Some n -> cell_is s n sq val ->
  inv (stepped s i (settle th (Goes a')) (set_cell (queue s) n (mkCell sq (f val))) [] []) ->
  exists m' v', access_value m n f v = Done (val, m', v')
    /\ weak_inv (weak_stepped w i (settle th (Goes a')) v' m' [] []).
Proof.
  intros Hh Ha' Hc Hinv. destruct (latest_cell_is w Hw n sq val Hc) as (cell & a & Hcell & Hla & Hsq & <-).
  destruct (weak_accessed w i th v n cell Hw Hi Hh Hcell f (settle th (Goes a'))) as (m' & v' & Hacc & Hinv');
    [done| |by exists m', v']. unfold latest_cell. rewrite Hla. simpl. by rewrite Hsq.
Qed.

Lemma holder_store_safe n x r sq val :
  held (now th) = Some n -> cell_is s n sq val -> 0 <= x -> sq < x ->
  inv (stepped s i (settle th (Returns r)) (set_cell (queue s) n (mkCell x val)) [] []) ->
  exists m' v', store_sequence m n x v = Done (m', v')
    /\ weak_inv (weak_stepped w i (settle th (Returns r)) v' m' [] []).
Proof.
  intros Hh Hc Hx Hlt Hinv. destruct (latest_cell_is w Hw n sq val Hc) as (cell & a & Hcell & Hla & Hsq & <-).
  apply (weak_stored w i th v n cell Hw Hi Hh Hcell x); try done.
  unfold latest_cell. rewrite Hla. simpl. by rewrite Hsq.
Qed.

Lemma push_holder_safe pick exchanges x n :
  pushing (now th) = Some (x, n) -> weak_safe (weak_push_step pick exchanges m v (now th)).
Proof.
  intros Hpush. pose proof thread_now_ok as Hok. pose proof (counters_small s (wk_inv w Hw)).
  pose proof (capacity_two s (wk_inv w Hw)). pose proof (wk_inv w Hw) as Hinv. unfold weak_safe.
  destruct (now th) eqn:Hnow; simplify_eq/=.
  - destruct Hok as (Hn & Hen & val & Hc).
    destruct (holder_access_safe n (fun _ => Some x) (PushPublish x n) n val) as (m' & v' & Hacc & Hinv');
      [by rewrite Hnow|done|done|by eapply (push_stored s i th Hinv latest_thread)|].
    rewrite Hacc. by do 3 eexists.
  - destruct Hok as (Hn & Hen & Hc). rewrite u64_small by (simpl in *; lia).
    destruct (holder_store_safe n (n + 1) (PushReturned x true) n (Some x)) as (m' & v' & Hst & Hinv');
      [by rewrite Hnow|done|lia|lia|by apply (push_published s i th Hinv latest_thread)|].
    rewrite Hst. by do 3 eexists.
Qed.

Lemma pop_holder_safe pick exchanges n :
  popping (now th) = Some n -> weak_safe (weak_pop_step pick exchanges m v (now th)).
Proof.
  intros Hpop. pose proof thread_now_ok as Hok. pose proof (counters_small s (wk_inv w Hw)).
  pose proof (capacity_two s (wk_inv w Hw)). pose proof (wk_inv w Hw) as Hinv.
  pose proof (inv_order s Hinv). unfold weak_safe. destruct (now th) eqn:Hnow; simplify_eq/=.
  - destruct Hok as (Hn & Hcl & k & x & Hen & Hc).
    destruct (holder_access_safe n (fun value => value) (PopReset n (Some x)) (n + 1) (Some x)) as (m' & v' & Hacc & Hinv');
      [by rewrite Hnow|done|done| |rewrite Hacc; by do 3 eexists].
    rewrite (set_cell_same _ _ _ Hc).
    eapply (inv_quiet s i th); [done|apply latest_thread|..]; try done; try (by rewrite Hnow).
    + unfold pushes_left. rewrite Hnow. simpl. lia.
    + simpl. split; [done|]. split; [done|]. split; [by eexists|]. by exists k, x.
  - destruct Hok as (Hn & Hcl & (val & Hc) & _).
    destruct (holder_access_safe n (fun _ => None) (PopRelease n result) (n + 1) val) as (m' & v' & Hacc & Hinv');
      [by rewrite Hnow|done|done|by apply (pop_reset s i th Hinv latest_thread)|].
    rewrite Hacc. by do 3 eexists.
  - destruct Hok as (Hn & Hcl & Hc & _). change (m_capacity m) with (capacity_ (queue s)).
    rewrite u64_small by (simpl in *; lia).
    destruct (holder_store_safe n (n + capacity_ (queue s)) (PopReturned result) (n + 1) None) as (m' & v' & Hst & Hinv');
      [by rewrite Hnow|done|simpl in *; lia|simpl in *; lia|by apply (pop_released s i th Hinv latest_thread)|].
    rewrite Hst. by do 3 eexists.
Qed.

Lemma weak_advance_safe pick exchanges :
  now th <> Idle -> weak_safe (weak_advance pick exchanges m v (now th)).
Proof.
  intros Hidle. pose proof (push_holder_safe pick exchanges) as Hpush. pose proof (pop_holder_safe pick exchanges) as Hpop.
  pose proof (fun x => push_load_safe x pick exchanges). pose proof (fun x n => push_sequence_weak x n pick exchanges).
  pose proof (fun x n => push_exchange_weak x n pick exchanges). pose proof (pop_load_safe pick exchanges).
  pose proof (fun n => pop_sequence_weak n pick exchanges). pose proof (fun n => pop_exchange_weak n pick exchanges).
  destruct (now th) eqn:Hnow; cbn [weak_advance]; try done; eauto.
Qed.
End Step.

(** ** Runs *)

Lemma weak_step_keeps w i pick exchanges :
  weak_inv w -> exists w', weak_step i pick exchanges w = Done w' /\ weak_inv w'.
Proof.
  intros Hw. unfold weak_step. destruct (w_threads w !! i) as [[th v]|] eqn:Hi; [|by exists w].
  assert (now th = Idle \/ now th <> Idle) as [Hidle|Hbusy] by (destruct (now th); auto).
  - rewrite Hidle. destruct (todo th) as [|o rest] eqn:Ho; [by exists w|]. eexists. split; [done|].
    assert (weak_inv (weak_stepped w i (mkThread rest (start o) (results th)) v (w_memory w) [] [])) as Hw'.
    { eapply weak_quiet; [done|done| |by rewrite Hidle; destruct o|by eapply (wk_views w Hw)|by destruct o].
      eapply start_inv; [apply Hw|by eapply latest_thread|done|done]. }
    unfold weak_stepped in Hw'. by rewrite !app_nil_r in Hw'.
  - destruct (weak_advance_safe w i th v Hw Hi pick exchanges Hbusy) as (m' & v' & n & Ha & Hinv).
    exists (weak_stepped w i (settle th n) v' m' (enters i n (now th)) (claims i n (now th))).
    split; [|done]. destruct (now th) eqn:Hnow; [done|..]; by rewrite Ha.
Qed.

Lemma weak_run_keeps schedule w :
  weak_inv w -> exists w', weak_run schedule w = Done w' /\ weak_inv w'.
Proof.
  revert w. induction schedule as [|[[i pick] b] schedule IH]; intros w Hw; simpl; [by exists w|].
  destruct (weak_step_keeps w i pick b Hw) as (w1 & -> & H1). simpl. by apply IH.
Qed.

(** The weak memory starts as the sequentially consistent one. *)
Lemma new_weak_latest requested allocated programs w :
  new_weak requested allocated programs = Done w ->
  new_system requested allocated programs = Done (latest_system w).
Proof.
  unfold new_weak, new_system, new_ingress.
  intros (c & -> & Hr)%obind_Done_inv. simpl. destruct allocated; [|done]. simpl in *. injection Hr as <-.
  unfold latest_system, latest_queue. simpl. do 2 f_equal; [f_equal; by rewrite map_map|by rewrite map_map].
Qed.

Lemma new_weak_inv requested allocated programs w :
  new_weak requested allocated programs = Done w ->
  program_pushes programs + m_capacity (w_memory w) < 2 ^ 63 -> weak_inv w.
Proof.
  intros Hnew Hb. pose proof (new_system_inv _ _ _ _ (new_weak_latest _ _ _ _ Hnew) Hb) as Hinv.
  unfold new_weak in Hnew. apply obind_Done_inv in Hnew as (c & _ & Hr). destruct allocated; [|done].
  injection Hr as <-.
  assert (Hcells : forall k cell, map (fun index => mkWeakCell [mkMessage (Z.of_nat index) unseen] None 0)
            (seq 0 (Z.to_nat c)) !! k = Some cell -> cell = mkWeakCell [mkMessage (Z.of_nat k) unseen] None 0).
  { intros k cell (x & -> & Hx)%list_lookup_fmap_Some. by apply lookup_seq in Hx as [-> _]. }
  assert (Hcount : counts [0]).
  { split; [done|]. by intros k x [-> <-]%list_lookup_singleton_Some. }
  assert (Hthreads : forall i th v, map (fun p => (mkThread (A := A) p Idle [], unseen)) programs !! i = Some (th, v) ->
            now th = Idle /\ v = unseen).
  { intros i th v (p & [= -> ->] & _)%list_lookup_fmap_Some. done. }
  split; simpl; try done.
  - intros k cell ->%Hcells. simpl. split; [done|]. split.
    + intros j l a b [-> _]%list_lookup_singleton_Some [-> _]%list_lookup_singleton_Some. lia.
    + repeat constructor; simpl; [lia|]. intros l. unfold unseen. lia.
  - intros i th v [_ ->]%Hthreads l. unfold unseen. lia.
  - intros i th v n sq [-> _]%Hthreads. by simpl.
  - intros k cell Hk. pose proof (Hcells _ _ Hk) as ->. left. exists (mkMessage (Z.of_nat k) unseen).
    split; [done|]. split; simpl; by rewrite Hk.
Qed.

(** ** Loads that read the last write *)

(** Enough to get to the last write of every location. *)
Definition freshest (m : memory) : nat :=
  length (m_enqueue m) + length (m_dequeue m) + sum_list_with (fun cell => length (wc_sequence cell)) (m_cells m).

Lemma freshest_cell m c cell : m_cells m !! c = Some cell -> (length (wc_sequence cell) <= freshest m)%nat.
Proof.
  intros Hc. unfold freshest.
  assert (length (wc_sequence cell) <= sum_list_with (fun cell => length (wc_sequence cell)) (m_cells m))%nat; [|lia].
  revert c Hc. induction (m_cells m) as [|x l IH]; intros [|c]; simpl; [done|done|intros [= ->]; lia|].
  intros Hc. specialize (IH c Hc). lia.
Qed.

Lemma choose_last {B} (writes : list B) seen pick :
  (length writes <= pick)%nat -> writes !! choose writes seen pick = last writes.
Proof. intros Hp. rewrite last_lookup. unfold choose. f_equal. lia. Qed.

Lemma load_counter_latest counter l pick v x v' :
  (length counter <= pick)%nat -> load_counter counter l pick v = Done (x, v') -> x = latest counter.
Proof.
  intros Hp. unfold load_counter. rewrite choose_last by done. unfold latest.
  destruct (last counter); [|done]. by intros [= <- _].
Qed.

Lemma load_sequence_latest m n v x v' :
  load_sequence m n (freshest m) v = Done (x, v') ->
  exists val, cell_at (latest_queue m) n = Done (mkCell x val).
Proof.
  unfold load_sequence, cell_in, cell_at. simpl.
  change (map latest_cell) with (fmap (M := list) latest_cell).
  rewrite list_lookup_fmap. change (index_of (latest_queue m) n) with (index_in m n).
  destruct (m_cells m !! index_in m n) as [cell|] eqn:Hc; [|done]. simpl.
  rewrite choose_last by (by eapply freshest_cell). unfold latest_cell.
  destruct (last (wc_sequence cell)); [|done]. intros [= <- _]. simpl. eauto.
Qed.

Lemma cell_in_latest m n cell : cell_in m n = Done cell -> cell_at (latest_queue m) n = Done (latest_cell cell).
Proof.
  unfold cell_in, cell_at. simpl. change (map latest_cell) with (fmap (M := list) latest_cell).
  rewrite list_lookup_fmap. change (index_of (latest_queue m) n) with (index_in m n).
  destruct (m_cells m !! index_in m n); [|done]. by intros [= ->].
Qed.

Lemma set_weak_cell_latest m n cell :
  latest_queue (set_weak_cell m n cell) = set_cell (latest_queue m) n (latest_cell cell).
Proof.
  unfold latest_queue, set_cell. simpl. f_equal.
  change (map latest_cell) with (fmap (M := list) latest_cell). apply list_fmap_insert.
Qed.

Lemma store_sequence_latest m n x v m' v' :
  store_sequence m n x v = Done (m', v') ->
  exists cell, cell_at (latest_queue m) n = Done cell
    /\ latest_queue m' = set_cell (latest_queue m) n (mkCell x (value cell)).
Proof.
  unfold store_sequence. intros (cell & Hc & Hs)%obind_Done_inv. exists (latest_cell cell).
  split; [by apply cell_in_latest|]. destruct (_ =? _)%nat; [|done]. injection Hs as <- _.
  rewrite set_weak_cell_latest. unfold latest_cell at 1. simpl. by rewrite last_snoc.
Qed.

Lemma access_value_latest m n f v x m' v' :
  access_value m n f v = Done (x, m', v') ->
  exists cell, cell_at (latest_queue m) n = Done cell /\ x = value cell
    /\ latest_queue m' = set_cell (latest_queue m) n (mkCell (sequence cell) (f (value cell))).
Proof.
  unfold access_value. intros (cell & Hc & Hs)%obind_Done_inv. exists (latest_cell cell).
  split; [by apply cell_in_latest|]. destruct (_ =? _)%nat; [|done]. injection Hs as <- <- _.
  split; [done|]. by rewrite set_weak_cell_latest.
Qed.

(** A step whose loads read the last writes is a step on a sequentially consistent
    memory. *)
Lemma weak_push_latest exchanges m v a m' v' n :
  weak_push_step (freshest m) exchanges m v a = Done (m', v', n) ->
  push_step exchanges (latest_queue m) a = Done (latest_queue m', n).
Proof.
  assert (length (m_enqueue m) <= freshest m)%nat as He by (unfold freshest; lia).
  destruct a as [|item|item pos|item pos|item pos|item pos| |pos|pos|pos|pos r|pos r]; simpl;
    try (by intros [= <- _ <-]).
  - intros ([x v1] & Hl & [= <- _ <-])%obind_Done_inv. by rewrite (load_counter_latest _ _ _ _ _ _ He Hl).
  - intros ([x v1] & Hl & Hr)%obind_Done_inv. destruct (load_sequence_latest _ _ _ _ _ Hl) as (val & ->). simpl.
    apply obind_Done_inv in Hr as (d & -> & [= <- _ <-]). done.
  - destruct (exchanges && _).
    + intros [= <- _ <-]. unfold latest_queue. simpl. by rewrite latest_snoc.
    + intros ([x v1] & Hl & [= <- _ <-])%obind_Done_inv. by rewrite (load_counter_latest _ _ _ _ _ _ He Hl).
  - intros ([[x m1] v1] & Hl & [= <- _ <-])%obind_Done_inv.
    destruct (access_value_latest _ _ _ _ _ _ _ Hl) as (cell & -> & _ & Hq). simpl. by rewrite Hq.
  - intros ([m1 v1] & Hl & [= <- _ <-])%obind_Done_inv.
    destruct (store_sequence_latest _ _ _ _ _ _ Hl) as (cell & -> & Hq). simpl. by rewrite Hq.
Qed.

Lemma weak_pop_latest exchanges m v a m' v' n :
  weak_pop_step (freshest m) exchanges m v a = Done (m', v', n) ->
  exists q, pop_step exchanges (latest_queue m) a = Done (q, n) /\ (q = latest_queue m' \/
    exists pos cell, cell_at q pos = Done cell /\ latest_queue m' = set_cell q pos cell).
Proof.
  assert (length (m_dequeue m) <= freshest m)%nat as Hd by (unfold freshest; lia).
  destruct a as [|item|item pos|item pos|item pos|item pos| |pos|pos|pos|pos r|pos r]; simpl;
    try (intros [= <- _ <-]; eexists; split; [done|by left]).
  - intros ([x v1] & Hl & [= <- _ <-])%obind_Done_inv. rewrite (load_counter_latest _ _ _ _ _ _ Hd Hl).
    eexists. split; [done|by left].
  - intros ([x v1] & Hl & Hr)%obind_Done_inv. destruct (load_sequence_latest _ _ _ _ _ Hl) as (val & ->). simpl.
    apply obind_Done_inv in Hr as (d & -> & [= <- _ <-]). eexists. split; [done|by left].
  - destruct (exchanges && _).
    + intros [= <- _ <-]. eexists. split; [done|left]. unfold latest_queue. simpl. by rewrite latest_snoc.
    + intros ([x v1] & Hl & [= <- _ <-])%obind_Done_inv. rewrite (load_counter_latest _ _ _ _ _ _ Hd Hl).
      eexists. split; [done|by left].
  - intros ([[x m1] v1] & Hl & [= <- _ <-])%obind_Done_inv.
    destruct (access_value_latest _ _ _ _ _ _ _ Hl) as (cell & Hc & -> & Hq). rewrite Hc. simpl.
    eexists. split; [done|right]. exists pos, cell. split; [done|]. rewrite Hq. by destruct cell.
  - intros ([[x m1] v1] & Hl & [= <- _ <-])%obind_Done_inv.
    destruct (access_value_latest _ _ _ _ _ _ _ Hl) as (cell & -> & _ & Hq). simpl.
    eexists. split; [done|left; by rewrite Hq].
  - intros ([m1 v1] & Hl & [= <- _ <-])%obind_Done_inv.
    destruct (store_sequence_latest _ _ _ _ _ _ Hl) as (cell & -> & Hq). simpl.
    eexists. split; [done|left; by rewrite Hq].
Qed.

Lemma set_cell_id (q : LockFreeIngress (A := A)) n cell : cell_at q n = Done cell -> set_cell q n cell = q.
Proof.
  unfold cell_at, set_cell. destruct (cells_ q !! index_of q n) eqn:Hc; [|done]. intros [= ->].
  rewrite list_insert_id by done. by destruct q.
Qed.

Lemma weak_advance_latest exchanges m v a m' v' n :
  weak_advance (freshest m) exchanges m v a = Done (m', v', n) ->
  advance exchanges (latest_queue m) a = Done (latest_queue m', n).
Proof.
  assert (Hpop : weak_pop_step (freshest m) exchanges m v a = Done (m', v', n) ->
            pop_step exchanges (latest_queue m) a = Done (latest_queue m', n)).
  { intros (q & -> & [->|(pos & cell & Hc & ->)])%weak_pop_latest; [done|]. by rewrite set_cell_id. }
  pose proof (weak_push_latest exchanges m v a m' v' n) as Hpush.
  destruct a; cbn [weak_advance advance]; auto; by intros [= <- _ <-].
Qed.

Lemma weak_step_mirrors w i exchanges w' :
  weak_step i (freshest (w_memory w)) exchanges w = Done w' ->
  step i exchanges (latest_system w) = Done (latest_system w').
Proof.
  unfold weak_step. intros Hs. destruct (w_threads w !! i) as [[th v]|] eqn:Hi.
  2:{ injection Hs as <-. unfold step. simpl. by rewrite list_lookup_fmap, Hi. }
  pose proof (latest_thread w i th v Hi) as Hl.
  assert (now th = Idle \/ now th <> Idle) as [Hidle|Hbusy] by (destruct (now th); auto).
  - rewrite Hidle in Hs. destruct (todo th) as [|o rest] eqn:Ho; injection Hs as <-.
    + unfold step. by rewrite Hl, Hidle, Ho.
    + rewrite (step_start _ _ _ _ _ _ Hl Hidle Ho). cbn [queue latest_system].
      rewrite <- (latest_stepped w i _ v). unfold weak_stepped. by rewrite !app_nil_r.
  - rewrite (step_busy _ _ _ _ Hl Hbusy).
    assert (exists m1 v1 n, weak_advance (freshest (w_memory w)) exchanges (w_memory w) v (now th) = Done (m1, v1, n)
      /\ w' = weak_stepped w i (settle th n) v1 m1 (enters i n (now th)) (claims i n (now th))) as (m1 & v1 & n & Ha & ->).
    { destruct (now th); [done|..]; apply obind_Done_inv in Hs as ([[m1 v1] n] & Ha & [= <-]); by exists m1, v1, n. }
    cbn [latest_system queue]. rewrite (weak_advance_latest _ _ _ _ _ _ _ Ha). simpl.
    by rewrite latest_stepped.
Qed.

(** So what the queue does on such a memory, it can also do here. *)
Lemma weak_run_mirrors schedule w :
  weak_inv w ->
  exists choices w', map (fun '(i, _, exchanges) => (i, exchanges)) choices = schedule
    /\ weak_run choices w = Done w' /\ run schedule (latest_system w) = Done (latest_system w').
Proof.
  revert w. induction schedule as [|[i x] schedule IH]; intros w Hw; [by exists [], w|].
  destruct (weak_step_keeps w i (freshest (w_memory w)) x Hw) as (w1 & Hs & Hw1).
  destruct (IH w1 Hw1) as (choices & w' & Hmap & Hr & Hrun).
  exists ((i, freshest (w_memory w), x) :: choices), w'. simpl.
  rewrite Hs, (weak_step_mirrors _ _ _ _ Hs), Hmap. done.
Qed.

(** ** Property *)

(** C6: the orderings of the ingress queue suffice.  Let the threads run with the
    memory orders of the source: relaxed loads and exchanges of the counters that
    may read old values, acquire loads and release stores of the sequence numbers.
    Whatever the threads push and pop, in whatever order they move, whatever a load
    may read and however often a weak exchange fails, no access to a cell's value
    is a data race and no step is undefined; and the queue is still a bounded
    first-in first-out queue: the items enter in the order of the exchanges on
    [enqueue_], the [n]-th pop takes the [n]-th item whole, each thread's results
    are its part of these logs, and no two threads work on the same cell. *)
Theorem weak_ingress_is_fifo requested allocated programs schedule w0 :
  new_weak requested allocated programs = Done w0 ->
  program_pushes programs + m_capacity (w_memory w0) < 2 ^ 63 ->
  exists w, weak_run schedule w0 = Done w
    /\ let s := latest_system w in
       len (claimed s) <= len (entered s) <= len (claimed s) + capacity (queue s)
       /\ (forall i th v, w_threads w !! i = Some (th, v) ->
             pushed_items th ++ in_push (now th) = entered_by i s
             /\ popped_items th ++ in_pop s (now th) = taken_by i s)
       /\ (forall i j a b m n, i <> j -> busy s i a -> busy s j b ->
             held a = Some m -> held b = Some n -> slot s m <> slot s n).
Proof.
  intros Hnew Hb. destruct (weak_run_keeps schedule w0 (new_weak_inv _ _ _ _ Hnew Hb)) as (w & Hr & Hw).
  exists w. split; [done|]. intros s. pose proof (wk_inv w Hw) as Hinv. fold s in Hinv.
  pose proof (inv_order s Hinv) as Hord. rewrite (inv_enqueue s Hinv), (inv_dequeue s Hinv) in Hord.
  split; [done|]. split; [|intros; by eapply held_apart].
  intros i th v Hi. apply (inv_logs s Hinv i th). simpl. by rewrite list_lookup_fmap, Hi.
Qed.

End WeakIngress.

(** ** Witness *)

(** Two producers and a consumer on two cells; the loads read old values at first. *)
Definition ex_weak_programs : list (list (op (A := Z))) :=
  [[Push 1; Push 2]; [Push 10; Push 11]; [Pop; Pop; Pop]].
Definition ex_weak : weak_system (A := Z) :=
  mkWeak (mkMemory 2 1 [mkWeakCell [mkMessage 0 unseen] None 0; mkWeakCell [mkMessage 1 unseen] None 0] [0] [0])
    (map (fun p => (mkThread p Idle [], unseen)) ex_weak_programs) [] [].
Definition ex_weak_turns (n pick : nat) : list (nat * nat * bool) :=
  concat (replicate n [(0, pick, true); (1, pick, true); (2, pick, true)])%nat.

Lemma weak_ingress_is_fifo_witness :
  exists w, weak_run (ex_weak_turns 6 0 ++ ex_weak_turns 20 1) ex_weak = Done w
    /\ let s := latest_system w in
       len (claimed s) <= len (entered s) <= len (claimed s) + capacity (queue s)
       /\ (forall i th v, w_threads w !! i = Some (th, v) ->
             pushed_items th ++ in_push (now th) = entered_by i s
             /\ popped_items th ++ in_pop s (now th) = taken_by i s)
       /\ (forall i j a b m n, i <> j -> busy s i a -> busy s j b ->
             held a = Some m -> held b = Some n -> slot s m <> slot s n).
Proof.
  apply (weak_ingress_is_fifo 2 true ex_weak_programs (ex_weak_turns 6 0 ++ ex_weak_turns 20 1) ex_weak);
    [reflexivity|]. vm_compute. reflexivity.
Defined.

Definition ex_weak_after (schedule : list (nat * nat * bool)) : weak_system (A := Z) :=
  match weak_run schedule ex_weak with Done w => w | _ => ex_weak end.

