(* ===== verification/MockData.v ===== *)
(** * Mock orders ([capstone/matching/solution-reference/src/mock_data.cpp])

    The deterministic order generator, the CSV writer and reader, and the
    program that runs the engine on a file ([apps/matching_main.cpp]).  Signed
    overflow and [front()] of an empty string are undefined behaviour. *)

From stdpp Require Import base gmap list sorting strings.
From Stdlib Require Import Strings.Byte ZArith Lia.
From S2P Require Import Prelude Numeric OrderBook Engine.

(** ** The generator *)

Definition new_rng (seed : Z) : Z := if seed =? 0 then 1 else seed.

(** [Rng::next]: the new state, which is also the value. *)
Definition rng_next (state : Z) : Z :=
  let state := Z.lxor state (u64 (Z.shiftl state 7)) in
  let state := Z.lxor state (Z.shiftr state 9) in
  Z.lxor state (u64 (Z.shiftl state 8)).

Record MockDataConfig := mkMockConfig {
  mc_count : nat;
  mc_seed : Z;
  mc_symbol : bytes;
  mc_center_price_ticks : Z;
  mc_price_band_ticks : Z;
}.

Definition default_mock_config : MockDataConfig :=
  mkMockConfig (Z.to_nat 100000) 0x5eed (str "NETF") 10000 500.

(** The loop of [generate_mock_orders] from [index] on; the fields of the order
    are evaluated from left to right. *)
Fixpoint generate_from (steps : nat) (index : Z) (config : MockDataConfig) (band rng : Z)
  : outcome (list Order) :=
  match steps with
  | O => Done []
  | S steps =>
      let rng := rng_next rng in
      let* offset := i64_checked (i64 (rng mod u64 (2 * band + 1)) - i64 band) in
      let rng := rng_next rng in
      let side := if Z.land rng 1 =? 0 then buy else sell in
      let* price := i64_checked (mc_center_price_ticks config + offset) in
      let rng := rng_next rng in
      let order := mkOrder (u64 (index + 1)) (mc_symbol config) side price (rng mod 100 + 1)
                     (u64 (index + 1)) good_till_cancel in
      let* orders := generate_from steps (index + 1) config band rng in
      Done (order :: orders)
  end.

Definition generate_mock_orders (config : MockDataConfig) : outcome (list Order) :=
  let band := if mc_price_band_ticks config >? 0 then mc_price_band_ticks config else 1 in
  generate_from (mc_count config) 0 config band (new_rng (mc_seed config)).

(** ** The CSV file *)

Definition comma : byte := x2c.
Definition line_end : byte := x0a.

Definition csv_header : bytes :=
  str "id,symbol,side,price_ticks,quantity,sequence,tif" ++ [line_end].

Definition csv_line (o : Order) : bytes :=
  show_unsigned (o_id o) ++ [comma] ++ o_symbol o ++ [comma]
  ++ (match o_side o with buy => str "B" | sell => str "S" end) ++ [comma]
  ++ show_signed (o_price_ticks o) ++ [comma] ++ show_unsigned (o_quantity o) ++ [comma]
  ++ show_unsigned (o_sequence o) ++ [comma]
  ++ (match o_tif o with good_till_cancel => str "G" | immediate_or_cancel => str "I" end)
  ++ [line_end].

(** The contents of the file, and what the function reports; [opened] and
    [good] are the states of the stream. *)
Definition write_mock_orders (orders : list Order) (opened good : bool) : bool * bytes :=
  if negb opened then (false, [])
  else (good, csv_header ++ concat (map csv_line orders)).

(** [std::getline(in, text, delim)] on a stream with the given rest: [None] for
    the stream when it is no longer good, in which case the text is left as it
    was by the next call.  A call that reaches the end of the stream leaves a
    stream that is not good. *)
Fixpoint until (delim : byte) (l : bytes) : bytes * option bytes :=
  match l with
  | [] => ([], None)
  | c :: l => if decide (c = delim) then ([], Some l)
              else let (text, rest) := until delim l in (c :: text, rest)
  end.

Definition getline (delim : byte) (stream : option bytes) (text : bytes)
  : bytes * option bytes :=
  match stream with
  | None => (text, None)
  | Some l => until delim l
  end.

Definition front (text : bytes) : outcome byte :=
  match text with [] => Undefined | c :: _ => Done c end.

(** The body of the loop of [read_mock_orders]. *)
Definition read_line (line : bytes) : outcome Order :=
  let (field, parser) := getline comma (Some line) [] in
  let* id := stoull field in
  let (symbol, parser) := getline comma parser [] in
  let (field, parser) := getline comma parser field in
  let* side := front field in
  let (field, parser) := getline comma parser field in
  let* price := stoll field in
  let (field, parser) := getline comma parser field in
  let* quantity := stoull field in
  let (field, parser) := getline comma parser field in
  let* sequence := stoull field in
  let (field, parser) := getline comma parser field in
  let* tif := front field in
  Done (mkOrder id symbol (if b2z side =? 66 then buy else sell) price quantity sequence
          (if b2z tif =? 73 then immediate_or_cancel else good_till_cancel)).

(** The lines [while (std::getline(input, line))] sees: the last one only when
    it is not empty. *)
Fixpoint lines (l : bytes) (current : bytes) : list bytes :=
  match l with
  | [] => match current with [] => [] | _ => [current] end
  | c :: l => if decide (c = line_end) then current :: lines l [] else lines l (current ++ [c])
  end.

Fixpoint read_lines (ls : list bytes) : outcome (list Order) :=
  match ls with
  | [] => Done []
  | line :: ls =>
      let* order := read_line line in
      let* orders := read_lines ls in
      Done (order :: orders)
  end.

(** A file that cannot be opened reads as empty. *)
Definition read_mock_orders (contents : bytes) : outcome (list Order) :=
  read_lines (tail (lines contents [])).

(** ** The program *)

Definition show_fill (f : Fill) : bytes :=
  show_unsigned (f_sequence f) ++ [comma] ++ show_unsigned (f_taker_id f) ++ [comma]
  ++ show_unsigned (f_maker_id f) ++ [comma]
  ++ (match f_taker_side f with buy => str "B" | sell => str "S" end) ++ [comma]
  ++ show_signed (f_price_ticks f) ++ [comma] ++ show_unsigned (f_quantity f) ++ [line_end].

Definition prepare_all (orders : list Order) (e : MatchingEngine) : MatchingEngine :=
  foldl (fun e order => prepare_symbol (o_symbol order) e) e orders.

(** The loop over the orders: the number of fills, standard output and standard
    error. *)
Fixpoint match_all (orders : list Order) (e : MatchingEngine) (fills : Z) (out err : bytes)
  : outcome (Z * bytes * bytes) :=
  match orders with
  | [] => Done (fills, out, err)
  | order :: orders =>
      let* (ack, e, emitted) := engine_submit order e [] in
      if negb (a_accepted ack)
      then match_all orders e fills out
             (err ++ str "reject order=" ++ show_unsigned (a_order_id ack) ++ str " reason="
              ++ a_reason ack ++ newline)
      else match_all orders e (u64 (fills + len emitted))
             (out ++ concat (map show_fill emitted)) err
  end.

Definition matching_main (argv : list bytes) (contents : bytes) : outcome exited :=
  if len argv <? 2 then Done (mkExited 2 [] (str "usage: matching-engine orders.csv" ++ newline))
  else
    let* orders := read_mock_orders contents in
    let engine := prepare_all orders new_engine in
    let* (fills, out, err) := match_all orders engine 0 [] [] in
    Done (mkExited 0 out (err ++ str "orders=" ++ show_unsigned (len orders)
                          ++ str " fills=" ++ show_unsigned fills ++ newline)).

(** [mock_generate_main]: the exit, the path written and the contents of the file.
    [opened] and [good] are the states of the output stream. *)
Definition mock_generate_main (argv : list bytes) (opened good : bool)
  : outcome (exited * bytes * bytes) :=
  let output := match argv with _ :: path :: _ => path | _ => str "mock-orders.csv" end in
  let count := match argv with
               | _ :: _ :: text :: _ => Z.to_nat (strtoull text)
               | _ => mc_count default_mock_config end in
  let seed := match argv with
              | _ :: _ :: _ :: text :: _ => strtoull text
              | _ => mc_seed default_mock_config end in
  let config := mkMockConfig count seed (mc_symbol default_mock_config)
                  (mc_center_price_ticks default_mock_config)
                  (mc_price_band_ticks default_mock_config) in
  let* orders := generate_mock_orders config in
  let (written, contents) := write_mock_orders orders opened good in
  if negb written
  then Done (mkExited 1 [] (str "could not write " ++ output ++ newline), output, contents)
  else Done (mkExited 0 (str "wrote " ++ show_unsigned (len orders) ++ str " deterministic orders to "
                         ++ output ++ str " seed=" ++ show_unsigned (mc_seed config) ++ newline) [],
             output, contents).

(** ** The round trip *)

(** Field ranges, and a symbol the format can hold. *)
Record csv_order (o : Order) : Prop := mkCsvOrder {
  cs_id : 0 <= o_id o < 2 ^ 64;
  cs_symbol : (comma ∉ o_symbol o) /\ (line_end ∉ o_symbol o);
  cs_price : - 2 ^ 63 <= o_price_ticks o < 2 ^ 63;
  cs_quantity : 0 <= o_quantity o < 2 ^ 64;
  cs_sequence : 0 <= o_sequence o < 2 ^ 64;
}.

Lemma until_absent delim l rest :
  delim ∉ l -> until delim (l ++ delim :: rest) = (l, Some rest).
Proof.
  induction l as [|c l IH]; simpl.
  - intros _. by rewrite decide_True.
  - rewrite not_elem_of_cons. intros [Hc Hl]. rewrite decide_False by done. by rewrite IH.
Qed.

Lemma until_end delim l : delim ∉ l -> until delim l = (l, None).
Proof.
  induction l as [|c l IH]; simpl; [done|].
  rewrite not_elem_of_cons. intros [Hc Hl]. rewrite decide_False by done. by rewrite IH.
Qed.

Lemma digits_absent (c : byte) l : is_digit c = false -> forallb is_digit l = true -> c ∉ l.
Proof.
  intros Hc Hl Hin. rewrite forallb_forall in Hl. specialize (Hl c).
  rewrite Hl in Hc; [done|]. by apply list_elem_of_In.
Qed.

Lemma unsigned_absent c z : is_digit c = false -> 0 <= z -> c ∉ show_unsigned z.
Proof. intros Hc Hz. apply digits_absent; [done|]. by apply show_unsigned_digits. Qed.

Lemma signed_absent c z : is_digit c = false -> c <> x2d -> c ∉ show_signed z.
Proof.
  intros Hc Hm. unfold show_signed. destruct (Z.ltb_spec z 0).
  - rewrite not_elem_of_app. split; [|apply unsigned_absent; [done|lia]].
    change (str "-") with [x2d]. by rewrite list_elem_of_singleton.
  - by apply unsigned_absent.
Qed.

Lemma not_in_letter (c d : byte) : c <> d -> c ∉ [d].
Proof. by rewrite list_elem_of_singleton. Qed.

(** The line without its end. *)
Definition csv_fields (o : Order) : bytes :=
  show_unsigned (o_id o) ++ comma :: o_symbol o ++ comma
  :: (match o_side o with buy => str "B" | sell => str "S" end) ++ comma
  :: show_signed (o_price_ticks o) ++ comma :: show_unsigned (o_quantity o) ++ comma
  :: show_unsigned (o_sequence o) ++ comma
  :: (match o_tif o with good_till_cancel => str "G" | immediate_or_cancel => str "I" end).

Lemma csv_line_fields o : csv_line o = csv_fields o ++ [line_end].
Proof. unfold csv_line, csv_fields. by repeat (rewrite <- app_assoc; simpl). Qed.

Lemma read_csv_fields o : csv_order o -> read_line (csv_fields o) = Done o.
Proof.
  intros [Hid [Hsym _] Hpr Hq Hseq]. unfold read_line, csv_fields, getline.
  rewrite until_absent by (apply unsigned_absent; [done|lia]).
  rewrite stoull_show by done. cbn [obind]. rewrite until_absent by done.
  rewrite until_absent by (destruct (o_side o); by apply not_in_letter).
  replace (front (match o_side o with buy => str "B" | sell => str "S" end))
    with (Done (match o_side o with buy => x42 | sell => x53 end)) by (by destruct (o_side o)).
  cbn [obind]. rewrite until_absent by (by apply signed_absent).
  rewrite stoll_show by done. cbn [obind].
  rewrite until_absent by (apply unsigned_absent; [done|lia]).
  rewrite stoull_show by done. cbn [obind].
  rewrite until_absent by (apply unsigned_absent; [done|lia]).
  rewrite stoull_show by done. cbn [obind].
  rewrite until_end by (destruct (o_tif o); by apply not_in_letter).
  destruct o as [id symbol [] price quantity sequence []]; done.
Qed.

Lemma lines_line l rest current :
  line_end ∉ l -> lines (l ++ line_end :: rest) current = (current ++ l) :: lines rest [].
Proof.
  revert current. induction l as [|c l IH]; intros current; simpl.
  - intros _. by rewrite app_nil_r.
  - rewrite not_elem_of_cons. intros [Hc Hl]. rewrite decide_False by done.
    rewrite IH by done. by rewrite <- app_assoc.
Qed.

Lemma csv_fields_one_line o : csv_order o -> line_end ∉ csv_fields o.
Proof.
  intros [Hid [_ Hsym] Hpr Hq Hseq]. unfold csv_fields.
  repeat (rewrite ?not_elem_of_app, ?not_elem_of_cons); repeat split;
    try done; try (by apply signed_absent); try (apply unsigned_absent; [done|lia]).
  - destruct (o_side o); by apply not_in_letter.
  - destruct (o_tif o); by apply not_in_letter.
Qed.

Lemma read_csv_lines orders :
  Forall csv_order orders ->
  read_lines (lines (concat (map csv_line orders)) []) = Done orders.
Proof.
  induction 1 as [|o orders Ho _ IH]; [done|]. simpl. rewrite csv_line_fields, <- app_assoc.
  simpl. rewrite lines_line by (by apply csv_fields_one_line). cbn [app read_lines].
  rewrite read_csv_fields by done. cbn [obind]. by rewrite IH.
Qed.

(** ** The generated orders *)

(** A configuration whose prices are 64-bit and positive. *)
Record wf_config (config : MockDataConfig) (band : Z) : Prop := mkWfConfig {
  wc_band : 0 < band < 2 ^ 62;
  wc_positive : 0 < mc_center_price_ticks config - band;
  wc_range : mc_center_price_ticks config + band < 2 ^ 63;
}.

Definition mock_order (config : MockDataConfig) (band n : Z) (o : Order) : Prop :=
  o_id o = n /\ o_symbol o = mc_symbol config
  /\ mc_center_price_ticks config - band <= o_price_ticks o <= mc_center_price_ticks config + band
  /\ 1 <= o_quantity o <= 100 /\ o_sequence o = n /\ o_tif o = good_till_cancel.

Lemma generate_from_spec config band steps index rng :
  wf_config config band -> 0 <= index -> index + Z.of_nat steps < 2 ^ 64 ->
  exists orders, generate_from steps index config band rng = Done orders
    /\ length orders = steps
    /\ forall i o, orders !! i = Some o -> mock_order config band (index + Z.of_nat i + 1) o.
Proof.
  intros [Hb Hp Hr]. revert index rng. induction steps as [|steps IH]; intros index rng Hi Hs.
  - by exists [].
  - cbn [generate_from]. rewrite (u64_small (2 * band + 1)), (i64_small band) by lia.
    pose proof (Z.mod_pos_bound (rng_next rng) (2 * band + 1) ltac:(lia)).
    rewrite (i64_small (_ mod _)) by lia. rewrite i64_checked_ok by lia. cbn [obind].
    rewrite i64_checked_ok by lia. cbn [obind].
    destruct (IH (index + 1) (rng_next (rng_next (rng_next rng)))) as (orders & -> & Hl & Ho); [lia|lia|].
    cbn [obind]. eexists. split; [done|]. split; [simpl; by rewrite Hl|].
    pose proof (Z.mod_pos_bound (rng_next (rng_next (rng_next rng))) 100 ltac:(lia)).
    rewrite !u64_small by lia.
    intros [|i] o; simpl.
    + intros [= <-]. unfold mock_order. simpl. repeat split; lia.
    + intros Hi'%Ho. by replace (index + Z.of_nat (S i) + 1) with (index + 1 + Z.of_nat i + 1) by lia.
Qed.

(** ** Running the engine on valid orders *)

Record valid_order (o : Order) : Prop := mkValidOrder {
  vo_id : o_id o <> 0;
  vo_quantity : 0 < o_quantity o < 2 ^ 64;
  vo_price : 0 < o_price_ticks o;
}.

Lemma spec_submit_accepts order a :
  valid_order order -> o_id order ∉ ids (ab_bids a ++ ab_asks a) ->
  a_accepted (fst (fst (spec_submit (o_symbol order) order a))) = true.
Proof.
  intros [Hid Hq Hp] Hnew. unfold spec_submit. rewrite bool_decide_true by done. cbn [negb].
  rewrite (proj2 (Z.eqb_neq _ _)), (proj2 (Z.eqb_neq _ _)), (proj2 (Z.leb_gt _ _)) by lia.
  cbn [orb]. rewrite bool_decide_false by done. by destruct (spec_match order a) as [[r a'] fs].
Qed.

Lemma spec_submit_ids symbol order a :
  ids (ab_bids (snd (fst (spec_submit symbol order a)))
       ++ ab_asks (snd (fst (spec_submit symbol order a))))
  ⊆ o_id order :: ids (ab_bids a ++ ab_asks a).
Proof.
  unfold spec_submit. repeat (case_if; [intros id Hid; by right|]).
  destruct (spec_match order a) as [[r a'] fs] eqn:Hm. apply spec_match_ids in Hm. cbn [fst snd].
  rewrite !ids_app in *. case_if; [|intros id Hid%Hm; by right].
  unfold spec_rest. cbn [o_side with_quantity]. destruct (o_side order); cbn [ab_bids ab_asks];
    intros id; rewrite elem_of_app, insert_priority_ids, elem_of_cons, elem_of_cons;
    specialize (Hm id); rewrite !elem_of_app in *; cbn [o_id with_quantity]; tauto.
Qed.

Definition engine_ids (e : MatchingEngine) (symbol : bytes) : list Z :=
  ids (ab_bids (view e symbol) ++ ab_asks (view e symbol)).

Lemma assign_sequence_same order e :
  o_id (fst (assign_sequence order e)) = o_id order
  /\ (valid_order order -> valid_order (fst (assign_sequence order e))).
Proof. unfold assign_sequence. case_if; [|done]. split; [done|]. by intros []. Qed.

Lemma match_all_accepts orders e fills out err seen :
  wf_engine e -> (forall s, engine_ids e s ⊆ seen) -> NoDup (map o_id orders) ->
  Forall (fun o => o_id o ∉ seen) orders -> Forall valid_order orders ->
  exists emitted, match_all orders e (u64 fills) out err
    = Done (u64 (fills + len emitted), out ++ concat (map show_fill emitted), err).
Proof.
  intros He Hseen Hnd Hnew Hvalid. revert e fills out seen He Hseen Hnd Hnew.
  induction Hvalid as [|o orders Ho _ IH]; intros e fills out seen He Hseen Hnd Hnew.
  - exists []. simpl. by rewrite app_nil_r, len_nil, Z.add_0_r.
  - simpl in Hnd. apply NoDup_cons in Hnd as [Hfresh Hnd]. apply Forall_cons in Hnew as [Hn Hnew].
    cbn [match_all]. pose proof (vo_quantity _ Ho) as Hq.
    destruct (engine_submit_spec o e [] He) as (ack & e' & fs & -> & Hs & Hv & He' & _); [lia|].
    cbn [obind]. destruct (assign_sequence_same o e) as [Hid Hval].
    destruct (assign_sequence_spec o e He) as (_ & _ & Hsym & _).
    assert (Hacc : a_accepted ack = true).
    { pose proof (spec_submit_accepts (fst (assign_sequence o e)) (view e (o_symbol o)) (Hval Ho)) as Ha.
      rewrite Hsym, Hs, Hid in Ha. apply Ha. intros Hin. by apply Hn, (Hseen (o_symbol o)). }
    rewrite Hacc. cbn [negb app]. rewrite u64_add_l.
    destruct (IH e' (fills + len fs) (out ++ concat (map show_fill fs)) (o_id o :: seen))
      as (emitted & ->); [done| |done| |].
    + intros s id Hin. destruct (decide (s = o_symbol o)) as [->|Hne].
      * pose proof (spec_submit_ids (o_symbol o) (fst (assign_sequence o e)) (view e (o_symbol o))) as Hi.
        rewrite Hs, Hid in Hi. apply Hi, elem_of_cons in Hin as [->|Hin]; [by left|].
        right. by apply (Hseen (o_symbol o)).
      * right. apply (Hseen s). unfold engine_ids in *. by rewrite Hv in Hin.
    + apply Forall_forall. intros x Hx. rewrite not_elem_of_cons. split.
      * intros E. apply Hfresh. rewrite <- E. by apply list_elem_of_fmap_2.
      * by eapply Forall_forall in Hnew.
    + exists (fs ++ emitted). rewrite map_app, concat_app, app_assoc, len_app. do 3 f_equal.
      f_equal. lia.
Qed.

Lemma prepare_all_spec orders e :
  wf_engine e -> wf_engine (prepare_all orders e)
  /\ forall s, view (prepare_all orders e) s = view e s.
Proof.
  revert e. induction orders as [|o orders IH]; intros e He; [done|]. simpl.
  destruct (book_spec (o_symbol o) e He) as (_ & _ & _ & He1 & Hv1 & _).
  destruct (IH (prepare_symbol (o_symbol o) e) He1) as [He2 Hv2]. split; [done|].
  intros s. rewrite Hv2. apply Hv1.
Qed.

Lemma read_written orders good :
  Forall csv_order orders ->
  read_mock_orders (snd (write_mock_orders orders true good)) = Done orders.
Proof.
  intros Ho. unfold read_mock_orders, write_mock_orders. cbn [negb snd]. unfold csv_header.
  rewrite <- app_assoc. cbn [app].
  rewrite lines_line by (vm_compute; intros H; repeat (apply elem_of_cons in H as [H|H]; [done|]);
                         by apply elem_of_nil in H).
  cbn [tail]. by apply read_csv_lines.
Qed.

Definition config_band (config : MockDataConfig) : Z :=
  if mc_price_band_ticks config >? 0 then mc_price_band_ticks config else 1.

Lemma generated_distinct config band index orders :
  (forall i o, orders !! i = Some o -> mock_order config band (index + Z.of_nat i + 1) o) ->
  NoDup (map o_id orders).
Proof.
  intros H. apply NoDup_alt. intros i j id Hi Hj.
  apply list_lookup_fmap_Some in Hi as (o1 & -> & H1). apply list_lookup_fmap_Some in Hj as (o2 & E & H2).
  destruct (H _ _ H1) as [E1 _]. destruct (H _ _ H2) as [E2 _]. lia.
Qed.

Lemma generate_spec config :
  wf_config config (config_band config) -> Z.of_nat (mc_count config) < 2 ^ 64 ->
  exists orders, generate_mock_orders config = Done orders
    /\ length orders = mc_count config
    /\ forall i o, orders !! i = Some o -> mock_order config (config_band config) (Z.of_nat i + 1) o.
Proof.
  intros Hc Hn. destruct (generate_from_spec config (config_band config) (mc_count config) 0
    (new_rng (mc_seed config)) Hc) as (orders & Hg & Hl & Ho); [lia|lia|]. by exists orders.
Qed.

(** ** Properties *)

(** The CSV file reads back.  Reading the file that was written for any list
    of orders with 64-bit fields and symbols without commas and line ends
    gives exactly those orders. *)
Theorem csv_roundtrip orders good :
  Forall csv_order orders ->
  read_mock_orders (snd (write_mock_orders orders true good)) = Done orders.
Proof. apply read_written. Qed.

(** Generated orders are matched without a reject.  For every seed and every
    configuration with positive 64-bit prices, the generator returns the
    configured number of orders without signed overflow, numbered from 1, within
    the price band and with quantities from 1 to 100; and the matching program
    on the file written for them exits with 0, prints one line per fill and
    reports nothing but its totals. *)
Lemma generated_file_matches config good name path :
  wf_config config (config_band config) -> Z.of_nat (mc_count config) < 2 ^ 64 ->
  comma ∉ mc_symbol config -> line_end ∉ mc_symbol config ->
  exists orders emitted,
    generate_mock_orders config = Done orders
    /\ length orders = mc_count config
    /\ (forall i o, orders !! i = Some o ->
          mock_order config (config_band config) (Z.of_nat i + 1) o)
    /\ matching_main [name; path] (snd (write_mock_orders orders true good))
       = Done (mkExited 0 (concat (map show_fill emitted))
                 (str "orders=" ++ show_unsigned (len orders)
                  ++ str " fills=" ++ show_unsigned (u64 (len emitted)) ++ newline)).
Proof.
  intros Hc Hn Hcomma Hline. destruct (generate_spec config Hc Hn) as (orders & Hg & Hl & Ho).
  assert (Hmock : forall o, o ∈ orders -> csv_order o /\ valid_order o).
  { intros o (i & Hi)%list_elem_of_lookup. pose proof (lookup_lt_Some _ _ _ Hi).
    destruct (Ho _ _ Hi) as (Hid & Hsym & Hpr & Hq & Hseq & _). destruct Hc as [? ? ?].
    split; split; rewrite ?Hid, ?Hsym, ?Hseq; try done; lia. }
  destruct (prepare_all_spec orders new_engine new_engine_wf) as [He Hv].
  destruct (match_all_accepts orders (prepare_all orders new_engine) 0 [] [] []) as (emitted & Hm).
  - done.
  - intros s. unfold engine_ids. rewrite Hv. by vm_compute.
  - by eapply (generated_distinct config _ 0).
  - apply Forall_forall. intros o _. by intros ?%elem_of_nil.
  - apply Forall_forall. intros o Hin. by apply Hmock.
  - exists orders, emitted. split; [done|]. split; [done|]. split; [done|].
    unfold matching_main. cbn [len length Z.of_nat Z.ltb Z.compare].
    rewrite read_written by (apply Forall_forall; intros o Hin; by apply Hmock).
    cbn [obind]. change 0 with (u64 0) at 1. by rewrite Hm.
Qed.


(** A short line is not rejected: [std::getline] at the end of the line leaves
    [field] alone, so the missing fields are read from the previous one. *)
Example short_line_accepted :
  read_line (str "5") = Done (mkOrder 5 [] sell 5 5 5 good_till_cancel).
Proof. reflexivity. Qed.

(** ** Witnesses *)

Definition ex_csv_orders : list Order :=
  [mkOrder 7 (str "NETF") sell 10001 5 1 immediate_or_cancel;
   mkOrder 8 [] buy (-3) (2 ^ 64 - 1) 0 good_till_cancel].

Lemma csv_roundtrip_witness :
  read_mock_orders (snd (write_mock_orders ex_csv_orders true true)) = Done ex_csv_orders.
Proof.
  apply (csv_roundtrip ex_csv_orders true).
  repeat (apply Forall_cons_2; [|]); [..|by apply Forall_nil_2];
    split; simpl; try lia; split; vm_compute; intros H;
    repeat (apply elem_of_cons in H as [H|H]; [done|]); by apply elem_of_nil in H.
Defined.


(** The arguments are positional: an option is taken for the path, and the number
    of orders is what [strtoull] makes of a file name. *)
Example option_is_a_path :
  mock_generate_main
    [str "matching-generate"; str "--output"; str "orders.csv"; str "--count"; str "100000"] true true
  = Done (mkExited 0 (str "wrote 0 deterministic orders to --output seed=0" ++ newline) [],
          str "--output", csv_header).
Proof. vm_compute. reflexivity. Qed.
