(* ===== verification/Pipeline.v ===== *)
(** * The matching benchmark
      ([capstone/matching/solution-reference/apps/bench_main.cpp])

    A producer thread pushes the generated orders into the ingress queue
    ([Ingress.v]), and the main thread pops them and submits them to the engine
    ([Engine.v]).  Both retry while the queue refuses.  A schedule says which of
    the two makes its next access to the queue. *)

From stdpp Require Import base gmap list strings.
From Stdlib Require Import Strings.Byte ZArith Lia.
From S2P Require Import Prelude Numeric OrderBook Engine MockData Ingress.

(** ** State *)

(** Thread 0 of [ingress] is the producer, thread 1 the consumer; [unpushed]
    are the orders from the producer's position on. *)
Record bench := mkBench {
  ingress : system (A := Order);
  unpushed : list Order;
  engine : MatchingEngine;
  fills : list Fill;
  consumed : Z;
}.

Definition ingress_capacity : Z := Z.shiftl 1 16.

Definition new_bench (symbol : bytes) (orders : list Order) (allocated : bool) : outcome bench :=
  let* s := new_system ingress_capacity allocated [[]; []] in
  Done (mkBench s orders (prepare_symbol symbol new_engine) [] 0).

(** ** Steps *)

(** The loops of the two threads decide on the next call. *)
Definition next_call (size : Z) (i : nat) (b : bench) : option (op (A := Order)) :=
  match i with
  | O => match unpushed b with order :: _ => Some (Push order) | [] => None end
  | 1%nat => if consumed b <? size then Some Pop else None
  | _ => None
  end.

Definition feed (size : Z) (i : nat) (b : bench) : system (A := Order) :=
  match threads (ingress b) !! i with
  | Some (mkThread [] Idle returned) =>
      match next_call size i b with
      | Some o => stepped (ingress b) i (mkThread [o] Idle returned) (queue (ingress b)) [] []
      | None => ingress b
      end
  | _ => ingress b
  end.

(** What the call of thread [i] returned in the step from [s] to [s']. *)
Definition just_returned (i : nat) (s s' : system (A := Order)) : option (returned (A := Order)) :=
  match threads s !! i, threads s' !! i with
  | Some th, Some th' => results th' !! length (results th)
  | _, _ => None
  end.

(** The bodies of the loops, lines 21 and 23-26. *)
Definition after_call (s : system (A := Order)) (r : option (returned (A := Order))) (b : bench)
  : outcome bench :=
  match r with
  | Some (PushReturned _ true) => Done (mkBench s (tail (unpushed b)) (engine b) (fills b) (consumed b))
  | Some (PopReturned (Some order)) =>
      let* (_, e, fills) := engine_submit order (engine b) (fills b) in
      Done (mkBench s (unpushed b) e fills (u64 (consumed b + 1)))
  | _ => Done (mkBench s (unpushed b) (engine b) (fills b) (consumed b))
  end.

Definition bench_step (size : Z) (i : nat) (exchanges : bool) (b : bench) : outcome bench :=
  let s := feed size i b in
  let* s' := step i exchanges s in
  after_call s' (just_returned i s s') b.

Fixpoint bench_run (size : Z) (schedule : list (nat * bool)) (b : bench) : outcome bench :=
  match schedule with
  | [] => Done b
  | (i, exchanges) :: schedule =>
      let* b := bench_step size i exchanges b in bench_run size schedule b
  end.

(** Both loops are over: [main] can join the producer. *)
Definition bench_finished (size : Z) (b : bench) : bool :=
  match unpushed b, threads (ingress b) !! 0%nat, threads (ingress b) !! 1%nat with
  | [], Some (mkThread [] Idle _), Some (mkThread [] Idle _) => size <=? consumed b
  | _, _, _ => false
  end.

(** [main]; a schedule that ends before the loops do leaves it running. The
    texts of the two times are those of the clock. *)
Definition bench_count (argv : list bytes) : outcome Z :=
  match argv with
  | _ :: text :: _ => stoull text
  | _ => Done (Z.of_nat (mc_count default_mock_config))
  end.

Definition bench_config (count : Z) : MockDataConfig :=
  mkMockConfig (Z.to_nat count) (mc_seed default_mock_config) (mc_symbol default_mock_config)
    (mc_center_price_ticks default_mock_config) (mc_price_band_ticks default_mock_config).

Definition bench_report (consumed : Z) (fills : list Fill) (seconds throughput : bytes) : exited :=
  mkExited 0 (str "orders=" ++ show_unsigned consumed ++ str " fills=" ++ show_unsigned (len fills)
              ++ str " seconds=" ++ seconds
              ++ str " throughput_per_second=" ++ throughput ++ newline) [].

Definition matching_bench (argv : list bytes) (allocated : bool) (schedule : list (nat * bool))
    (seconds throughput : bytes) : outcome exited :=
  let* count := bench_count argv in
  let config := bench_config count in
  let* orders := generate_mock_orders config in
  let* b := new_bench (mc_symbol config) orders allocated in
  let* b := bench_run (len orders) schedule b in
  if bench_finished (len orders) b
  then Done (bench_report (consumed b) (fills b) seconds throughput)
  else OutOfFuel.

(** ** The reference: the orders one after the other *)

Fixpoint submit_all (orders : list Order) (e : MatchingEngine) (fills : list Fill)
  : outcome (MatchingEngine * list Fill) :=
  match orders with
  | [] => Done (e, fills)
  | order :: orders =>
      let* (_, e, fills) := engine_submit order e fills in submit_all orders e fills
  end.

Lemma submit_all_snoc orders order e fills :
  submit_all (orders ++ [order]) e fills
  = (let* (e, fills) := submit_all orders e fills in
     let* (_, e, fills) := engine_submit order e fills in Done (e, fills)).
Proof.
  revert e fills. induction orders as [|o orders IH]; intros e fills; simpl; [done|].
  destruct (engine_submit o e fills) as [[[ack e1] fills1]| | | |]; simpl; auto.
Qed.

(** ** Roles of the threads *)

Definition push_role (item : Order) (a : activity (A := Order)) : Prop :=
  match a with
  | PushLoad x | PushSequence x _ | PushExchange x _ | PushStore x _ | PushPublish x _ => x = item
  | _ => False
  end.
Definition pop_role (a : activity (A := Order)) : Prop :=
  match a with
  | PopLoad | PopSequence _ | PopExchange _ | PopTake _ | PopReset _ _ | PopRelease _ _ => True
  | _ => False
  end.

(** A step of thread [i] inside a push, or a pop, as far as its caller sees it. *)
Definition push_turn (i : nat) (a : activity (A := Order)) (n : next) : Prop :=
  forall item, push_role item a ->
  claims i n a = [] /\ Forall (fun x => fst x = i) (enters i n a)
  /\ match n with
     | Goes a' => push_role item a'
     | Returns r => exists pushed, r = PushReturned item pushed
     end.
Definition pop_turn (i : nat) (a : activity (A := Order)) (n : next) : Prop :=
  pop_role a -> enters i n a = [] /\ Forall (eq i) (claims i n a)
  /\ match n with
     | Goes a' => pop_role a'
     | Returns r => exists x, r = PopReturned x
                     /\ forall y, x = Some y -> exists position, a = PopRelease position (Some y)
     end.

(** What a call returned, if it did. *)
Definition returns (n : next (A := Order)) : option (returned (A := Order)) :=
  match n with Returns r => Some r | Goes _ => None end.

Lemma push_role_advance exchanges q a q' n i : advance exchanges q a = Done (q', n) -> push_turn i a n.
Proof.
  intros Ha item. revert Ha. destruct a; simpl; try done; unfold cell_at, obind; repeat case_match; intros;
    simplify_eq/=; split_and!; eauto using Forall_nil, Forall_singleton.
Qed.

Lemma pop_role_advance exchanges q a q' n i : advance exchanges q a = Done (q', n) -> pop_turn i a n.
Proof.
  intros Ha Hr. revert Ha. destruct a; simpl in *; try done; unfold cell_at, obind; repeat case_match; intros;
    simplify_eq/=; split_and!; eauto; try (by repeat constructor);
    eexists; (split; [done|]); intros y Hy; simplify_eq; eauto.
Qed.

(** ** The invariant *)

Section Bench.
Context (orders : list Order) (e0 : MatchingEngine).
Context (Hsmall : len orders + ingress_capacity + 2 < 2 ^ 63).
Context (Hquantities : Forall (fun o => 0 <= o_quantity o < 2 ^ 64) orders).
Context (He0 : wf_engine e0).

Definition producer_ok (th : thread) (rest : list Order) : Prop :=
  todo th = [] /\ (now th = Idle \/ exists o, head rest = Some o /\ push_role o (now th)).
Definition consumer_ok (th : thread (A := Order)) : Prop :=
  todo th = [] /\ (now th = Idle \/ pop_role (now th)).

Lemma decide_idle (a : activity (A := Order)) : a = Idle \/ a <> Idle.
Proof. destruct a; auto. Qed.

Record bench_inv (b : bench) (p c : thread (A := Order)) : Prop := mkBenchInv {
  bi_inv : inv (ingress b);
  bi_capacity : capacity_ (queue (ingress b)) = ingress_capacity;
  bi_threads : threads (ingress b) = [p; c];
  bi_producer : producer_ok p (unpushed b);
  bi_consumer : consumer_ok c;
  bi_pushed : pushed_items p ++ unpushed b = orders;
  bi_entered : Forall (fun x => fst x = 0%nat) (entered (ingress b));
  bi_claimed : Forall (eq 1%nat) (claimed (ingress b));
  bi_engine : submit_all (popped_items c) e0 [] = Done (engine b, fills b);
  bi_wf : wf_engine (engine b);
  bi_consumed : consumed b = len (popped_items c);
}.

Lemma entered_all (s : system (A := Order)) :
  Forall (fun x => fst x = 0%nat) (entered s) -> entered_by 0 s = map snd (entered s).
Proof.
  unfold entered_by. induction 1 as [|[j x] l Hj Hl IH]; [done|]. simpl in Hj. subst j.
  simpl. f_equal. exact IH.
Qed.

Lemma taken_all (s : system (A := Order)) :
  Forall (eq 1%nat) (claimed s) -> (length (claimed s) <= length (entered s))%nat ->
  taken_by 1 s = take (length (claimed s)) (map snd (entered s)).
Proof.
  unfold taken_by. intros Hc. generalize (entered s) as l.
  induction Hc as [|j k Hj Hk IH]; intros [|[j' x] l] Hle; try done; try (simpl in Hle; lia).
  subst j. simpl. f_equal. apply IH. simpl in Hle. lia.
Qed.

Section Facts.
Context (b : bench) (p c : thread (A := Order)) (Hb : bench_inv b p c).

Lemma producer_at : threads (ingress b) !! 0%nat = Some p.
Proof. by rewrite (bi_threads _ _ _ Hb). Qed.
Lemma consumer_at : threads (ingress b) !! 1%nat = Some c.
Proof. by rewrite (bi_threads _ _ _ Hb). Qed.

(** The items that entered are an initial part of the orders. *)
Lemma entered_orders : map snd (entered (ingress b)) `prefix_of` orders.
Proof.
  destruct (inv_logs _ (bi_inv _ _ _ Hb) 0%nat p producer_at) as [Hp _].
  rewrite <- entered_all by apply Hb. rewrite <- Hp, <- (bi_pushed _ _ _ Hb).
  apply prefix_app. destruct (bi_producer _ _ _ Hb) as [_ [->|(o & Ho & Hr)]]; [apply prefix_nil|].
  destruct (unpushed b) as [|o' rest]; [done|]. injection Ho as ->. unfold in_push.
  destruct (now p); simpl in *; subst; try apply prefix_nil; by exists rest.
Qed.

(** What the consumer has popped is an initial part of the orders. *)
Lemma popped_orders : popped_items c `prefix_of` orders.
Proof.
  destruct (inv_logs _ (bi_inv _ _ _ Hb) 1%nat c consumer_at) as [_ Hc].
  etransitivity; [|apply entered_orders].
  transitivity (taken_by 1 (ingress b)); [rewrite <- Hc; by apply prefix_app_r|].
  rewrite taken_all; [apply prefix_take|apply Hb|]. apply log_lengths, Hb.
Qed.

Lemma entered_small : enqueue_ (queue (ingress b)) <= len orders.
Proof.
  rewrite (inv_enqueue _ (bi_inv _ _ _ Hb)). pose proof (prefix_length _ _ entered_orders) as H.
  rewrite length_map in H. unfold len. lia.
Qed.
End Facts.


(** ** The invariant is kept *)

(** A call begins: the pushes still to come are those of the running calls. *)
Lemma inv_call (s : system (A := Order)) i th o :
  inv s -> threads s !! i = Some th -> now th = Idle -> todo th = [] ->
  enqueue_ (queue s) + sum_by pushes_left (threads s) + 1 + capacity_ (queue s) < 2 ^ 63 ->
  inv (stepped s i (mkThread [] (start o) (results th)) (queue s) [] []).
Proof.
  intros Hinv Hth Hidle Htodo Hb. set (th' := mkThread [] (start o) (results th)).
  assert (pushing (now th') = None /\ popping (now th') = None) as [Hpu Hpo] by (by destruct o).
  assert (thread_ok s i (now th')) as Hok by (by destruct o).
  assert (pushes_left th' <= 1 /\ pushes_left th = 0) as [Hl Hl0].
  { unfold pushes_left. rewrite Hidle, Htodo. destruct o; done. }
  split; simpl; rewrite ?app_nil_r; try apply Hinv.
  - rewrite (sum_by_insert _ _ _ _ _ Hth). lia.
  - intros n Hn. eapply cell_ok_stepped; try done; rewrite ?Hidle; try done.
    by apply (inv_cells s Hinv).
  - intros j thj [[<- [<- _]]|[Hij Hj]]%list_lookup_insert_Some; apply thread_ok_stepped; try done.
    by apply Hinv.
  - intros j thj [[<- [<- _]]|[Hij Hj]]%list_lookup_insert_Some.
    + apply (logs_kept s i th); [done..| |]; unfold in_push, in_pop; by rewrite ?Hpu, ?Hpo, Hidle.
    + destruct (inv_logs s Hinv j thj Hj) as [H1 H2]. unfold logs_ok.
      rewrite entered_by_stepped, taken_by_entered, app_nil_r by done.
      split; [done|]. rewrite (in_pop_stepped s _ _ _ _ _ j); [done|]. by apply Hinv.
Qed.

Lemma start_call (s : system (A := Order)) i th o exchanges :
  threads s !! i = Some th ->
  step i exchanges (stepped s i (mkThread [o] Idle (results th)) (queue s) [] [])
  = Done (stepped s i (mkThread [] (start o) (results th)) (queue s) [] []).
Proof.
  intros Hth. unfold step. simpl.
  rewrite list_lookup_insert_eq by (by eapply lookup_lt_Some). simpl.
  unfold stepped. by rewrite list_insert_insert_eq, !app_nil_r.
Qed.

Section Kept.
Context (b : bench) (p c : thread (A := Order)) (Hb : bench_inv b p c).

Lemma room_for_call :
  enqueue_ (queue (ingress b)) + sum_by pushes_left (threads (ingress b)) + 1
    + capacity_ (queue (ingress b)) < 2 ^ 63.
Proof.
  pose proof (entered_small b p c Hb). rewrite (bi_threads _ _ _ Hb), (bi_capacity _ _ _ Hb).
  destruct (bi_producer _ _ _ Hb) as [Hpt Hp]. destruct (bi_consumer _ _ _ Hb) as [Hct Hc].
  assert (pushes_left p <= 1).
  { unfold pushes_left, sum_by. rewrite Hpt. destruct (now p); simpl; lia. }
  assert (pushes_left c = 0).
  { unfold pushes_left, sum_by. rewrite Hct. destruct Hc as [->|Hc]; [done|]. by destruct (now c). }
  rewrite !sum_by_cons. change (sum_by pushes_left []) with 0. lia.
Qed.

(** A step of a thread that is not there. *)
Lemma step_nobody i exchanges :
  (2 <= i)%nat -> bench_step (len orders) i exchanges b = Done b.
Proof.
  intros Hi. assert (threads (ingress b) !! i = None) as Hn
    by (rewrite (bi_threads _ _ _ Hb); by apply lookup_ge_None_2).
  unfold bench_step, feed, step, just_returned. repeat (rewrite Hn; simpl).
  by destruct b.
Qed.

(** A thread whose loop is over. *)
Lemma step_over i th exchanges :
  threads (ingress b) !! i = Some th -> now th = Idle -> todo th = [] ->
  next_call (len orders) i b = None -> bench_step (len orders) i exchanges b = Done b.
Proof.
  intros Hth Hi Ht Hn. destruct th as [td nw rs]; simpl in *; subst.
  unfold bench_step, feed, step, just_returned. rewrite Hth, Hn. simpl.
  repeat (rewrite Hth; simpl). rewrite (lookup_ge_None_2 rs) by done. by destruct b.
Qed.

(** A thread makes its next call. *)
Lemma step_call i th o exchanges :
  threads (ingress b) !! i = Some th -> now th = Idle -> todo th = [] ->
  next_call (len orders) i b = Some o ->
  bench_step (len orders) i exchanges b
  = Done (mkBench (stepped (ingress b) i (mkThread [] (start o) (results th))
                     (queue (ingress b)) [] []) (unpushed b) (engine b) (fills b) (consumed b)).
Proof.
  intros Hth Hi Ht Hn. destruct th as [td nw rs]; simpl in *; subst.
  unfold bench_step, feed. rewrite Hth, Hn.
  rewrite (start_call _ _ (mkThread [] Idle rs)) by done. simpl. unfold just_returned. simpl.
  rewrite !list_lookup_insert_eq by (by eapply lookup_lt_Some). simpl.
  by rewrite (lookup_ge_None_2 rs) by done.
Qed.

(** A thread inside a call. *)
Lemma step_inside i th exchanges q n :
  threads (ingress b) !! i = Some th -> now th <> Idle ->
  advance exchanges (queue (ingress b)) (now th) = Done (q, n) ->
  bench_step (len orders) i exchanges b
  = after_call (stepped (ingress b) i (settle th n) q (enters i n (now th)) (claims i n (now th)))
      (returns n) b.
Proof.
  intros Hth Hi Ha. unfold bench_step.
  assert (feed (len orders) i b = ingress b) as ->.
  { unfold feed. rewrite Hth. destruct th as [[|o td] nw rs]; [|done]. by destruct nw. }
  rewrite (step_busy _ _ th) by done. rewrite Ha. simpl. unfold just_returned. simpl. rewrite Hth.
  rewrite list_lookup_insert_eq by (by eapply lookup_lt_Some).
  destruct n as [a|r]; simpl; [by rewrite (lookup_ge_None_2 (results th)) by done|].
  by rewrite list_lookup_middle.
Qed.
End Kept.


(** The engine takes every order. *)
Lemma submit_one e fs order :
  wf_engine e -> order ∈ orders ->
  exists ack e' fs', engine_submit order e fs = Done (ack, e', fs') /\ wf_engine e'.
Proof.
  intros He Hin. pose proof (proj1 (Forall_forall _ _) Hquantities order Hin) as Hq.
  destruct (engine_submit_spec order e fs He Hq) as (ack & e' & fs' & Hs & _ & _ & He' & _). eauto 6.
Qed.

Section Steps.
Context (b : bench) (p c : thread (A := Order)) (Hb : bench_inv b p c).

Lemma call_inv i th o exchanges :
  threads (ingress b) !! i = Some th -> now th = Idle -> todo th = [] ->
  next_call (len orders) i b = Some o ->
  exists b' p' c', bench_step (len orders) i exchanges b = Done b' /\ bench_inv b' p' c'.
Proof.
  intros Hth Hi Ht Hn. rewrite (step_call b i th o) by done.
  assert (inv (stepped (ingress b) i (mkThread [] (start o) (results th)) (queue (ingress b)) [] []))
    as Hinv by (apply inv_call; try done; [apply Hb|by eapply room_for_call]).
  rewrite (bi_threads _ _ _ Hb) in Hth. destruct i as [|[|i]]; [| |done]; injection Hth as <-.
  - exists (mkBench (stepped (ingress b) 0 (mkThread [] (start o) (results p)) (queue (ingress b)) [] [])
      (unpushed b) (engine b) (fills b) (consumed b)), (mkThread [] (start o) (results p)), c.
    split; [done|]. simpl in Hn. destruct (unpushed b) as [|o' rest] eqn:Hu; [done|].
    injection Hn as <-. split; simpl; rewrite ?app_nil_r; try apply Hb; try done.
    + by rewrite (bi_threads _ _ _ Hb).
    + split; [done|]. right. by exists o'.
    + rewrite <- Hu. apply Hb.
  - exists (mkBench (stepped (ingress b) 1 (mkThread [] (start o) (results c)) (queue (ingress b)) [] [])
      (unpushed b) (engine b) (fills b) (consumed b)), p, (mkThread [] (start o) (results c)).
    split; [done|]. simpl in Hn. destruct (consumed b <? len orders); [|done]. injection Hn as <-.
    split; simpl; rewrite ?app_nil_r; try apply Hb; try done.
    + by rewrite (bi_threads _ _ _ Hb).
    + split; [done|]. by right.
Qed.

(** What the loops make of a step of a call that keeps the queue in order. *)
Lemma producer_after q n :
  now p <> Idle -> push_turn 0 (now p) n -> capacity_ q = capacity_ (queue (ingress b)) ->
  let s' := stepped (ingress b) 0 (settle p n) q (enters 0 n (now p)) (claims 0 n (now p)) in
  inv s' ->
  exists b' p' c', after_call s' (returns n) b = Done b' /\ ingress b' = s' /\ bench_inv b' p' c'.
Proof.
  intros Hi Hturn Hc s' Hinv. unfold s' in *. clear s'.
  destruct (bi_producer _ _ _ Hb) as [Ht [Hidle|(o & Ho & Hr)]]; [done|].
  destruct (Hturn o Hr) as (Hcl & Hen & Hn).
  assert (forall rest, producer_ok (settle p n) rest ->
    pushed_items (settle p n) ++ rest = orders ->
    bench_inv (mkBench (stepped (ingress b) 0 (settle p n) q (enters 0 n (now p)) (claims 0 n (now p)))
      rest (engine b) (fills b) (consumed b)) (settle p n) c) as Hnext.
  { intros rest Hpo Hpi. split; simpl; rewrite ?Hcl, ?app_nil_r; try apply Hb; try done.
    - by rewrite Hcl in Hinv.
    - rewrite Hc. apply Hb.
    - by rewrite (bi_threads _ _ _ Hb).
    - apply Forall_app. split; [apply Hb|done]. }
  destruct n as [a|r].
  - do 3 eexists. split; [done|]. split; [done|]. apply Hnext; simpl; [|apply Hb].
    split; [done|]. right. by exists o.
  - destruct Hn as (pushed & ->). destruct (unpushed b) as [|o' rest] eqn:Hu; [done|].
    injection Ho as ->. pose proof (bi_pushed _ _ _ Hb) as Hall. rewrite Hu in Hall.
    destruct pushed; do 3 eexists; (split; [done|]; split; [done|]); apply Hnext; rewrite ?Hu; simpl;
      try (split; [done|by left]); unfold pushed_items in *; simpl; rewrite omap_snoc.
    + by rewrite <- app_assoc.
    + by rewrite app_nil_r.
Qed.

Lemma consumer_after q n :
  now c <> Idle -> pop_turn 1 (now c) n -> capacity_ q = capacity_ (queue (ingress b)) ->
  let s' := stepped (ingress b) 1 (settle c n) q (enters 1 n (now c)) (claims 1 n (now c)) in
  inv s' ->
  exists b' p' c', after_call s' (returns n) b = Done b' /\ ingress b' = s' /\ bench_inv b' p' c'.
Proof.
  intros Hi Hturn Hcap s' Hinv. unfold s' in *. clear s'. pose proof (consumer_at b p c Hb) as Hc.
  destruct (bi_consumer _ _ _ Hb) as [Ht [Hidle|Hr]]; [done|].
  destruct (Hturn Hr) as (Hen & Hcl & Hn).
  assert (forall e fs k, submit_all (popped_items (settle c n)) e0 [] = Done (e, fs) ->
    wf_engine e -> k = len (popped_items (settle c n)) -> consumer_ok (settle c n) ->
    pushed_items p ++ unpushed b = orders ->
    bench_inv (mkBench (stepped (ingress b) 1 (settle c n) q (enters 1 n (now c)) (claims 1 n (now c)))
      (unpushed b) e fs k) p (settle c n)) as Hnext.
  { intros e fs k Hs He Hk Hok Hall. split; simpl; rewrite ?Hen, ?app_nil_r; try apply Hb; try done.
    - by rewrite Hen in Hinv.
    - rewrite Hcap. apply Hb.
    - by rewrite (bi_threads _ _ _ Hb).
    - apply Forall_app. split; [apply Hb|done]. }
  destruct n as [a|r].
  - do 3 eexists. split; [done|]. split; [done|]. apply Hnext; try apply Hb. split; [done|by right].
  - destruct Hn as ([x|] & -> & Hx).
    + assert (x ∈ orders) as Hin.
      { pose proof (inv_threads _ (bi_inv _ _ _ Hb) _ _ Hc) as Hok.
        destruct (Hx x eq_refl) as (position & Hnow). rewrite Hnow in Hok.
        destruct Hok as (_ & _ & _ & j & y & Hy & [= ->]).
        eapply elem_of_prefix; [|by eapply entered_orders].
        apply list_elem_of_fmap. exists (j, y). split; [done|]. by eapply list_elem_of_lookup_2. }
      destruct (submit_one (engine b) (fills b) x (bi_wf _ _ _ Hb) Hin) as (ack & e & fs & Hs & He).
      pose proof (prefix_length _ _ (popped_orders b p c Hb)) as Hlen.
      assert (popped_items (settle c (Returns (PopReturned (Some x)))) = popped_items c ++ [x]) as Hpop
        by (unfold popped_items; simpl; by rewrite omap_snoc).
      simpl. rewrite Hs. do 3 eexists. split; [done|]. split; [done|].
      apply Hnext; try done; [| |split; [done|by left]|apply Hb].
      * rewrite Hpop, submit_all_snoc, (bi_engine _ _ _ Hb). simpl. by rewrite Hs.
      * rewrite Hpop, len_app, (bi_consumed _ _ _ Hb), u64_small; [done|].
        assert (0 <= ingress_capacity) by done. unfold len in *. lia.
    + assert (popped_items (settle c (Returns (PopReturned None))) = popped_items c) as Hpop
        by (unfold popped_items; simpl; by rewrite omap_snoc, app_nil_r).
      do 3 eexists. split; [done|]. split; [done|]. apply Hnext; rewrite ?Hpop; try apply Hb. split; [done|by left].
Qed.

Lemma producer_inside exchanges :
  now p <> Idle ->
  exists b' p' c', bench_step (len orders) 0 exchanges b = Done b' /\ bench_inv b' p' c'.
Proof.
  intros Hi. pose proof (producer_at b p c Hb) as Hp.
  destruct (advance_safe _ _ _ (bi_inv _ _ _ Hb) Hp exchanges Hi) as (q & n & Ha & Hinv & _).
  rewrite (step_inside b 0 p exchanges q n) by done.
  destruct (producer_after q n) as (b' & p' & c' & ? & _ & ?);
    [done|by eapply push_role_advance|by eapply advance_capacity|done|]. by exists b', p', c'.
Qed.

Lemma consumer_inside exchanges :
  now c <> Idle ->
  exists b' p' c', bench_step (len orders) 1 exchanges b = Done b' /\ bench_inv b' p' c'.
Proof.
  intros Hi. pose proof (consumer_at b p c Hb) as Hc.
  destruct (advance_safe _ _ _ (bi_inv _ _ _ Hb) Hc exchanges Hi) as (q & n & Ha & Hinv & _).
  rewrite (step_inside b 1 c exchanges q n) by done.
  destruct (consumer_after q n) as (b' & p' & c' & ? & _ & ?);
    [done|by eapply pop_role_advance|by eapply advance_capacity|done|]. by exists b', p', c'.
Qed.
End Steps.


Definition reachable_inv (b : bench) : Prop := exists p c, bench_inv b p c.

Lemma bench_step_inv i exchanges b :
  reachable_inv b -> exists b', bench_step (len orders) i exchanges b = Done b' /\ reachable_inv b'.
Proof.
  intros (p & c & Hb).
  assert (forall th, threads (ingress b) !! i = Some th -> todo th = [] -> now th = Idle ->
    exists b', bench_step (len orders) i exchanges b = Done b' /\ reachable_inv b') as Hidle.
  { intros th Hth Ht Hn. destruct (next_call (len orders) i b) as [o|] eqn:Ho.
    - destruct (call_inv b p c Hb i th o exchanges) as (b' & p' & c' & ? & ?); try done.
      exists b'. split; [done|]. by exists p', c'.
    - exists b. rewrite (step_over b p c Hb i th) by done. split; [done|]. by exists p, c. }
  pose proof (producer_at b p c Hb) as Hp. pose proof (consumer_at b p c Hb) as Hc.
  destruct i as [|[|i]].
  - destruct (bi_producer _ _ _ Hb) as [Ht Hr].
    destruct (decide_idle (now p)) as [Hi|Hi]; [by apply (Hidle p)|].
    destruct (producer_inside b p c Hb exchanges Hi) as (b' & p' & c' & ? & ?).
    exists b'. split; [done|]. by exists p', c'.
  - destruct (bi_consumer _ _ _ Hb) as [Ht Hr].
    destruct (decide_idle (now c)) as [Hi|Hi]; [by apply (Hidle c)|].
    destruct (consumer_inside b p c Hb exchanges Hi) as (b' & p' & c' & ? & ?).
    exists b'. split; [done|]. by exists p', c'.
  - exists b. rewrite (step_nobody b p c) by (done || lia). split; [done|]. by exists p, c.
Qed.

Lemma bench_run_inv schedule b :
  reachable_inv b -> exists b', bench_run (len orders) schedule b = Done b' /\ reachable_inv b'.
Proof.
  revert b. induction schedule as [|[i x] schedule IH]; intros b Hb; simpl; [by exists b|].
  destruct (bench_step_inv i x b Hb) as (b1 & -> & H1). simpl. by apply IH.
Qed.

Lemma finished_threads b p c :
  bench_inv b p c -> bench_finished (len orders) b = true ->
  popped_items c = orders.
Proof.
  intros Hb. unfold bench_finished. rewrite (producer_at b p c), (consumer_at b p c) by done.
  destruct (unpushed b); [|done]. destruct p as [[|] [] ?]; try done. destruct c as [[|] [] rs]; try done.
  intros Hl%Z.leb_le. rewrite (bi_consumed _ _ _ Hb) in Hl.
  destruct (popped_orders _ _ _ Hb) as [k Hk]. rewrite Hk in Hl. rewrite len_app in Hl.
  assert (k = []) as -> by (apply len_zero; unfold len in *; lia). by rewrite app_nil_r in Hk.
Qed.

(** ** The two loops can always finish *)

(** The call a thread is in runs alone until it returns. *)
Lemma call_completes k i b th s' r :
  inv (ingress b) -> threads (ingress b) !! i = Some th -> todo th = [] -> now th <> Idle ->
  run (replicate k (i, true)) (ingress b) = Done s' ->
  threads s' = <[i := mkThread [] Idle (results th ++ [r])]> (threads (ingress b)) ->
  exists k', bench_run (len orders) (replicate k' (i, true)) b = after_call s' (Some r) b.
Proof.
  revert b th. induction k as [|k IH]; intros b th Hinv Hth Ht Hi Hrun Hths.
  - injection Hrun as <-. assert (threads (ingress b) !! i = Some (mkThread [] Idle (results th ++ [r])))
      as Hth' by (rewrite Hths; apply list_lookup_insert_eq; by eapply lookup_lt_Some).
    rewrite Hth in Hth'. injection Hth' as Heq. by rewrite Heq in Hi.
  - simpl in Hrun. rewrite (step_busy _ _ th) in Hrun by done.
    destruct (advance_safe _ _ _ Hinv Hth true Hi) as (q & n & Ha & Hinv' & _).
    rewrite Ha in Hrun. cbn [obind] in Hrun.
    pose proof (step_inside b i th true q n Hth Hi Ha) as Hstep.
    set (s1 := stepped _ _ _ _ _ _) in *.
    assert (threads s1 !! i = Some (settle th n)) as Hth1
      by (simpl; apply list_lookup_insert_eq; by eapply lookup_lt_Some).
    destruct n as [a|r1].
    + destruct (rank_decreases _ _ _ _ _ Hinv Hth Hi Ha) as [_ Hne].
      destruct (IH (mkBench s1 (unpushed b) (engine b) (fills b) (consumed b)) (settle th (Goes a)))
        as (k' & Hk'); try done.
      { simpl. by rewrite list_insert_insert_eq. }
      exists (S k'). simpl. rewrite Hstep. simpl. exact Hk'.
    + assert (s' = s1) as ->.
      { assert (forall m, run (replicate m (i, true)) s1 = Done s1) as Hstay.
        { induction m as [|m IHm]; [done|]. cbn [replicate run].
          replace (step i true s1) with (Done s1); [done|].
          unfold step. rewrite Hth1. simpl. by rewrite Ht. }
        change (run (replicate k (i, true)) s1 = Done s') in Hrun.
        rewrite Hstay in Hrun. by injection Hrun. }
      assert (r1 = r) as ->.
      { rewrite Hths in Hth1. rewrite list_lookup_insert_eq in Hth1 by (by eapply lookup_lt_Some).
        injection Hth1 as _ Hr. apply app_inj_tail in Hr as [_ ?]. done. }
      exists 1%nat. cbn [replicate bench_run]. rewrite Hstep. cbn [returns].
      by destruct (after_call s1 (Some r) b).
Qed.


Lemma after_call_ingress s r b b' : after_call s r b = Done b' -> ingress b' = s.
Proof. unfold after_call, obind. repeat case_match; intros; by simplify_eq. Qed.

Lemma bench_run_app k l b :
  bench_run (len orders) (k ++ l) b
  = (let* b := bench_run (len orders) k b in bench_run (len orders) l b).
Proof.
  revert b. induction k as [|[i x] k IH]; intros b; simpl; [done|].
  destruct (bench_step (len orders) i x b); simpl; auto.
Qed.

Definition idle_at (b : bench) (i : nat) : Prop :=
  forall th, threads (ingress b) !! i = Some th -> now th = Idle.

(** What a call that returns alone leaves. *)
Lemma call_settles k i b th s' r :
  reachable_inv b -> threads (ingress b) !! i = Some th -> now th <> Idle -> todo th = [] ->
  run (replicate k (i, true)) (ingress b) = Done s' ->
  threads s' = <[i := mkThread [] Idle (results th ++ [r])]> (threads (ingress b)) ->
  exists k' b', bench_run (len orders) (replicate k' (i, true)) b = Done b' /\ reachable_inv b'
    /\ idle_at b' i /\ (forall j, i <> j -> idle_at b j -> idle_at b' j)
    /\ after_call s' (Some r) b = Done b'.
Proof.
  intros Hb Hth Hi Ht Hrun Hths. pose proof Hb as (p & c & Hi0).
  destruct (call_completes k i b th s' r) as (k' & Hk'); try done; [apply Hi0|].
  destruct (bench_run_inv (replicate k' (i, true)) b Hb) as (b' & Hb' & Hr').
  exists k', b'. rewrite Hb' in Hk'. pose proof (after_call_ingress _ _ _ _ (eq_sym Hk')) as Hin.
  split; [done|]. split; [done|]. unfold idle_at. rewrite Hin, Hths. split_and!; [| |done].
  - intros th'. rewrite list_lookup_insert_eq by (by eapply lookup_lt_Some). by intros [= <-].
  - intros j Hij. by rewrite list_lookup_insert_ne.
Qed.

(** The call of a thread returns when the thread runs alone. *)
Lemma thread_settles b i :
  reachable_inv b -> exists schedule b', bench_run (len orders) schedule b = Done b'
    /\ reachable_inv b' /\ idle_at b' i /\ (forall j, i <> j -> idle_at b j -> idle_at b' j).
Proof.
  intros Hb. pose proof Hb as (p & c & Hb').
  destruct (threads (ingress b) !! i) as [th|] eqn:Hth;
    [destruct (decide_idle (now th)) as [Hi|Hi]|].
  1, 3: exists [], b; repeat (split; [done|]); split; [|done]; intros th'; rewrite Hth; by intros [= <-].
  assert (todo th = []) as Ht.
  { rewrite (bi_threads _ _ _ Hb') in Hth.
    destruct i as [|[|i]]; simplify_eq/=; [apply (bi_producer _ _ _ Hb')|apply (bi_consumer _ _ _ Hb')]. }
  destruct (alone_induction (A := Order) (fun _ _ => True) (fun _ _ => True) i)
    with (s := ingress b) (th := th) as (k & s' & r & _ & Hr & Hths & _); try done; [apply Hb'|].
  rewrite Ht in Hths.
  destruct (call_settles k i b th s' r) as (k' & b' & ? & ? & ? & ? & _); try done.
  by exists (replicate k' (i, true)), b'.
Qed.

Definition all_idle (b : bench) : Prop := idle_at b 0 /\ idle_at b 1.

Lemma bench_settles b :
  reachable_inv b -> exists schedule b', bench_run (len orders) schedule b = Done b'
    /\ reachable_inv b' /\ all_idle b'.
Proof.
  intros Hb. destruct (thread_settles b 0 Hb) as (k0 & b0 & Hr0 & Hb0 & H0 & _).
  destruct (thread_settles b0 1 Hb0) as (k1 & b1 & Hr1 & Hb1 & H1 & Hkeep).
  exists (k0 ++ k1), b1. rewrite bench_run_app, Hr0. split; [done|]. split; [done|].
  split; [|done]. by apply Hkeep.
Qed.

(** A call made while both threads are idle. *)
Lemma idle_call b p c i th o (P : system (A := Order) -> returned (A := Order) -> Prop) :
  bench_inv b p c -> all_idle b -> (i < 2)%nat -> threads (ingress b) !! i = Some th ->
  next_call (len orders) i b = Some o ->
  (forall s1, inv s1 -> others_idle s1 i -> queue s1 = queue (ingress b) ->
     entered s1 = entered (ingress b) -> claimed s1 = claimed (ingress b) ->
     threads s1 !! i = Some (mkThread [] (start o) (results th)) ->
     exists k s' r, (k <= rank (queue s1) (start o))%nat /\ run (replicate k (i, true)) s1 = Done s'
       /\ threads s' = <[i := mkThread [] Idle (results th ++ [r])]> (threads s1) /\ P s' r) ->
  exists schedule b' s' r, bench_run (len orders) schedule b = Done b' /\ reachable_inv b'
    /\ all_idle b' /\ P s' r /\ after_call s' (Some r) b = Done b'.
Proof.
  intros Hb [H0 H1] Hi Hth Ho Hcall.
  assert (todo th = [] /\ now th = Idle) as [Ht Hn].
  { pose proof Hth as Hth'. rewrite (bi_threads _ _ _ Hb) in Hth'. destruct i as [|[|i]]; simplify_eq/=.
    - split; [apply (bi_producer _ _ _ Hb)|by apply H0].
    - split; [apply (bi_consumer _ _ _ Hb)|by apply H1]. }
  pose proof (step_call b i th o true Hth Hn Ht Ho) as Hstep.
  set (s1 := stepped _ _ _ _ _ _) in *. set (b1 := mkBench s1 _ _ _ _) in *.
  assert (reachable_inv b1) as Hb1.
  { destruct (bench_step_inv i true b) as (b1' & Hb1' & Hr); [by exists p, c|]. congruence. }
  assert (idle_at b1 (1 - i)) as Hother.
  { intros th'. simpl. destruct i as [|[|i]]; [| |lia]; rewrite list_lookup_insert_ne by done;
      [apply H1|apply H0]. }
  assert (threads s1 !! i = Some (mkThread [] (start o) (results th))) as Hth1
    by (simpl; apply list_lookup_insert_eq; by eapply lookup_lt_Some).
  destruct (Hcall s1) as (k & s' & r & _ & Hr & Hths & HP); try done.
  - destruct Hb1 as (? & ? & Hb1). apply Hb1.
  - apply others_idle_stepped. intros j thj Hij Hj. destruct j as [|[|j]]; [by apply H0|by apply H1|].
    by rewrite (bi_threads _ _ _ Hb) in Hj.
  - simpl. by rewrite app_nil_r.
  - simpl. by rewrite app_nil_r.
  - destruct (call_settles k i b1 _ s' r Hb1 Hth1) as (k' & b' & Hk' & Hb' & Hidle & Hkeep & Hac);
      try done; [by destruct o|].
    exists ((i, true) :: replicate k' (i, true)), b', s', r. simpl. rewrite Hstep.
    split; [done|]. split; [done|]. split; [|done].
    specialize (Hkeep (1 - i)%nat). destruct i as [|[|i]]; [split|split|lia]; auto.
Qed.


(** What is left to push and to submit. *)
Definition left_over (b : bench) : nat :=
  length (unpushed b) + (length orders - Z.to_nat (consumed b)).

Definition progress (b : bench) : Prop :=
  exists schedule b', bench_run (len orders) schedule b = Done b' /\ reachable_inv b'
    /\ all_idle b' /\ (left_over b' < left_over b)%nat.

(** With both threads idle, the queue holds what was pushed and not popped. *)
Lemma idle_logs b p c :
  bench_inv b p c -> all_idle b ->
  pushed_items p = map snd (entered (ingress b))
  /\ popped_items c = take (length (claimed (ingress b))) (map snd (entered (ingress b)))
  /\ consumed b = len (claimed (ingress b)).
Proof.
  intros Hb [H0 H1]. pose proof (producer_at b p c Hb) as Hp. pose proof (consumer_at b p c Hb) as Hc.
  destruct (inv_logs _ (bi_inv _ _ _ Hb) _ _ Hp) as [Lp _].
  destruct (inv_logs _ (bi_inv _ _ _ Hb) _ _ Hc) as [_ Lc].
  rewrite (H0 p Hp), entered_all in Lp by apply Hb. rewrite (H1 c Hc) in Lc. cbn in Lp, Lc.
  rewrite app_nil_r in Lp, Lc. pose proof (log_lengths _ (bi_inv _ _ _ Hb)) as Hl.
  rewrite taken_all in Lc by (done || apply Hb). split; [done|]. split; [done|].
  rewrite (bi_consumed _ _ _ Hb), Lc. unfold len. rewrite length_take, length_map. lia.
Qed.

Lemma idle_push b p c o rest :
  bench_inv b p c -> all_idle b -> unpushed b = o :: rest ->
  len (entered (ingress b)) = len (claimed (ingress b)) -> progress b.
Proof.
  intros Hb Hidle Hu Hempty. pose proof (producer_at b p c Hb) as Hp.
  destruct (idle_call b p c 0 p (Push o) (push_outcome (ingress b) 0 o))
    as (k & b' & s' & r & Hk & Hb' & Hi' & (pushed & -> & _ & _ & Hfull) & Hac); try done; [lia| | |].
  - simpl. by rewrite Hu.
  - intros s1 Hinv Ho Hq He Hc Hth.
    apply (alone_induction _ _ _ (push_phase_goes (ingress b) 0 o)
      (push_phase_returns (ingress b) 0 o) s1 _ Hinv Hth); [|done].
    split; [done|]. by rewrite Hc, He, Hq.
  - destruct pushed.
    + injection Hac as <-. exists k. eexists. split; [done|]. split; [done|]. split; [done|].
      unfold left_over. simpl. rewrite Hu. simpl. lia.
    + rewrite (bi_capacity _ _ _ Hb) in Hfull. assert (ingress_capacity = 65536) by done.
      specialize (Hfull eq_refl). lia.
Qed.

Lemma idle_pop b p c :
  bench_inv b p c -> all_idle b ->
  len (claimed (ingress b)) < len (entered (ingress b)) -> progress b.
Proof.
  intros Hb Hidle Hmore. pose proof (consumer_at b p c Hb) as Hc.
  pose proof (entered_small b p c Hb) as Hsm. rewrite (inv_enqueue _ (bi_inv _ _ _ Hb)) in Hsm.
  destruct (idle_logs b p c Hb Hidle) as (_ & _ & Hcons).
  destruct (idle_call b p c 1 c Pop (pop_outcome (ingress b) 1))
    as (k & b' & s' & r & Hk & Hb' & Hi' & (_ & Hres) & Hac); try done; [lia| | |].
  - simpl. rewrite Hcons. by rewrite (proj2 (Z.ltb_lt _ _)) by lia.
  - intros s1 Hinv Ho Hq He Hcl Hth.
    apply (alone_induction _ _ _ (pop_phase_goes (ingress b) 1)
      (pop_phase_returns (ingress b) 1) s1 _ Hinv Hth); [|done].
    split; [done|]. by rewrite Hcl, He.
  - destruct Hres as [(_ & _ & ?)|(j & x & -> & _)]; [lia|]. simpl in Hac.
    destruct (engine_submit x (engine b) (fills b)) as [[[ack e] fs]| | | |]; try done.
    injection Hac as <-. exists k. eexists. split; [done|]. split; [done|]. split; [done|].
    assert (0 <= ingress_capacity) by done.
    unfold left_over. simpl. rewrite Hcons, u64_small; unfold len in *; lia.
Qed.

Lemma idle_progress b :
  reachable_inv b -> all_idle b -> bench_finished (len orders) b = true \/ progress b.
Proof.
  intros (p & c & Hb) Hidle. destruct (idle_logs b p c Hb Hidle) as (Lp & Lc & Hcons).
  pose proof (log_lengths _ (bi_inv _ _ _ Hb)) as Hl.
  destruct (decide (len (claimed (ingress b)) < len (entered (ingress b)))) as [Hm|Hm];
    [right; by eapply idle_pop|].
  assert (len (entered (ingress b)) = len (claimed (ingress b))) as Heq by (unfold len in *; lia).
  destruct (unpushed b) as [|o rest] eqn:Hu; [left|right; by eapply idle_push].
  pose proof (bi_pushed _ _ _ Hb) as Hall. rewrite Hu, app_nil_r, Lp in Hall.
  apply (f_equal len) in Hall. unfold len in Hall at 1. rewrite length_map in Hall.
  destruct Hidle as [H0 H1]. unfold bench_finished. rewrite Hu, (producer_at b p c), (consumer_at b p c) by done.
  pose proof (H0 p (producer_at b p c Hb)). pose proof (H1 c (consumer_at b p c Hb)).
  destruct (bi_producer _ _ _ Hb) as [? _]. destruct (bi_consumer _ _ _ Hb) as [? _].
  destruct p, c. simpl in *. subst. apply Z.leb_le. rewrite Hcons. unfold len in *. lia.
Qed.

Lemma idle_finishes n b :
  reachable_inv b -> all_idle b -> (left_over b <= n)%nat ->
  exists schedule b', bench_run (len orders) schedule b = Done b'
    /\ bench_finished (len orders) b' = true.
Proof.
  revert b. induction n as [|n IH]; intros b Hb Hidle Hn;
    (destruct (idle_progress b Hb Hidle) as [?|(k & b1 & Hk & Hb1 & Hi1 & Hless)]; [by exists [], b|]);
    [lia|].
  destruct (IH b1) as (k2 & b2 & Hk2 & Hf); try done; [lia|].
  exists (k ++ k2), b2. by rewrite bench_run_app, Hk.
Qed.

Lemma bench_finishes b :
  reachable_inv b ->
  exists schedule b', bench_run (len orders) schedule b = Done b'
    /\ bench_finished (len orders) b' = true.
Proof.
  intros Hb. destruct (bench_settles b Hb) as (k & b1 & Hk & Hb1 & Hi1).
  destruct (idle_finishes (left_over b1) b1) as (k2 & b2 & Hk2 & Hf); try done.
  exists (k ++ k2), b2. by rewrite bench_run_app, Hk.
Qed.

End Bench.
(** ** The start *)

Definition first_engine (symbol : bytes) : MatchingEngine := prepare_symbol symbol new_engine.

Lemma first_engine_wf symbol : wf_engine (first_engine symbol).
Proof. by destruct (book_spec symbol new_engine new_engine_wf) as (_ & _ & _ & ? & _). Qed.

Lemma new_bench_inv symbol orders :
  len orders + ingress_capacity + 2 < 2 ^ 63 ->
  exists b, new_bench symbol orders true = Done b
    /\ reachable_inv orders (first_engine symbol) b.
Proof.
  intros Hsmall. unfold new_bench.
  assert (exists s, new_system (A := Order) ingress_capacity true [[]; []] = Done s
    /\ capacity_ (queue s) = ingress_capacity
    /\ threads s = [mkThread [] Idle []; mkThread [] Idle []] /\ entered s = [] /\ claimed s = [])
    as (s & Hs & Hc & Ht & He & Hcl).
  { unfold new_system, new_ingress.
    replace (round_power_of_two ingress_capacity) with (Done ingress_capacity) by (by vm_compute).
    cbn [obind negb]. eexists. split; [done|]. done. }
  rewrite Hs. eexists. split; [done|].
  exists (mkThread [] Idle []), (mkThread [] Idle []).
  split; cbn [ingress unpushed engine fills consumed].
  - apply (new_system_inv _ _ _ _ Hs). rewrite Hc. pose proof (len_nonneg orders).
    change (program_pushes [[]; []]) with 0. lia.
  - exact Hc.
  - exact Ht.
  - split; [done|by left].
  - split; [done|by left].
  - done.
  - by rewrite He.
  - by rewrite Hcl.
  - done.
  - apply first_engine_wf.
  - done.
Qed.

Lemma bench_config_wf count : wf_config (bench_config count) (config_band (bench_config count)).
Proof. split; vm_compute; by repeat split. Qed.

(** The generated orders are within the bounds of the invariant. *)
Lemma bench_orders count :
  0 <= count < 2 ^ 62 ->
  exists orders, generate_mock_orders (bench_config count) = Done orders /\ len orders = count
    /\ len orders + ingress_capacity + 2 < 2 ^ 63
    /\ Forall (fun o => 0 <= o_quantity o < 2 ^ 64) orders.
Proof.
  intros Hc. destruct (generate_spec (bench_config count) (bench_config_wf count))
    as (orders & Hg & Hl & Ho); [simpl; lia|].
  exists orders. assert (len orders = count) as Hlen by (unfold len; rewrite Hl; simpl; lia).
  assert (ingress_capacity = 65536) by done.
  split; [done|]. split; [done|]. split; [lia|]. apply Forall_lookup_2.
  intros i o (_ & _ & _ & Hq & _)%Ho. lia.
Qed.

(** ** Properties *)

(** The two threads of the benchmark match the orders in order.  Whatever the
    scheduler does, no step of the benchmark is undefined and no order is lost,
    doubled or reordered between the producer and the engine: at every moment
    the engine and the fills are exactly those of submitting the first
    [consumed] orders one after the other, and when both loops are over these
    are all the orders. *)
Theorem bench_matches_in_order symbol orders schedule :
  len orders + ingress_capacity + 2 < 2 ^ 63 ->
  Forall (fun o => 0 <= o_quantity o < 2 ^ 64) orders ->
  exists b0 b k, new_bench symbol orders true = Done b0
    /\ bench_run (len orders) schedule b0 = Done b
    /\ consumed b = Z.of_nat k /\ (k <= length orders)%nat
    /\ submit_all (take k orders) (first_engine symbol) [] = Done (engine b, fills b)
    /\ (bench_finished (len orders) b = true -> k = length orders).
Proof.
  intros Hs Hq. destruct (new_bench_inv symbol orders Hs) as (b0 & Hnew & H0).
  destruct (bench_run_inv orders (first_engine symbol) Hs Hq schedule b0 H0) as (b & Hr & p & c & Hb).
  exists b0, b, (length (popped_items c)). split; [done|]. split; [done|].
  destruct (popped_orders _ _ _ _ _ Hb) as [rest Hrest].
  split; [apply Hb|]. split; [rewrite Hrest, length_app; lia|]. split.
  - rewrite Hrest at 1. rewrite take_app_length. apply Hb.
  - intros Hf. by rewrite (finished_threads _ _ _ _ _ Hb Hf) at 1.
Qed.

(** C27: the benchmark reports the result of the sequential run, and can always
    finish.  For every count below 2^62 there are orders and fills such that a
    run of the program either is still going on, or exits with 0 and reports
    that many orders and the number of fills of submitting the orders one after
    the other; and every schedule has a continuation after which it does: the
    two retry loops never block each other. *)
Theorem bench_reports_sequential_result argv count seconds throughput :
  bench_count argv = Done count -> 0 <= count < 2 ^ 62 ->
  exists orders e fs,
    generate_mock_orders (bench_config count) = Done orders
    /\ submit_all orders (first_engine (mc_symbol default_mock_config)) [] = Done (e, fs)
    /\ forall schedule,
         (matching_bench argv true schedule seconds throughput = OutOfFuel
          \/ matching_bench argv true schedule seconds throughput
             = Done (bench_report count fs seconds throughput))
         /\ exists more, matching_bench argv true (schedule ++ more) seconds throughput
                         = Done (bench_report count fs seconds throughput).
Proof.
  intros Hargv Hcount. destruct (bench_orders count Hcount) as (orders & Hg & Hl & Hs & Hq).
  set (symbol := mc_symbol default_mock_config).
  destruct (new_bench_inv symbol orders Hs) as (b0 & Hnew & H0).
  assert (forall schedule b, bench_run (len orders) schedule b0 = Done b ->
    bench_finished (len orders) b = true ->
    consumed b = count /\ submit_all orders (first_engine symbol) [] = Done (engine b, fills b)) as Hend.
  { intros schedule b Hr Hf.
    destruct (bench_run_inv orders (first_engine symbol) Hs Hq schedule b0 H0) as (b' & Hr' & p & c & Hb).
    rewrite Hr in Hr'. injection Hr' as <-. pose proof (finished_threads _ _ _ _ _ Hb Hf) as Hall.
    split; [rewrite <- Hl, <- Hall; apply Hb|]. rewrite <- Hall at 1. apply Hb. }
  destruct (bench_finishes _ _ Hs Hq b0 H0) as (k & b & Hr & Hf).
  destruct (Hend k b Hr Hf) as [_ Hsub]. exists orders, (engine b), (fills b).
  split; [done|]. split; [done|]. intros schedule. unfold matching_bench. rewrite Hargv. cbn [obind].
  rewrite Hg. cbn [obind]. change (mc_symbol (bench_config count)) with symbol. rewrite Hnew. cbn [obind].
  destruct (bench_run_inv orders (first_engine symbol) Hs Hq schedule b0 H0) as (b1 & Hr1 & Hb1).
  assert (forall sch b2, bench_run (len orders) sch b0 = Done b2 ->
    bench_finished (len orders) b2 = true -> consumed b2 = count /\ fills b2 = fills b) as Hsame.
  { intros sch b2 Hr2 Hf2. destruct (Hend sch b2 Hr2 Hf2) as [Hc H2]. rewrite Hsub in H2.
    by injection H2 as _ ->. }
  split.
  - rewrite Hr1. cbn [obind]. destruct (bench_finished (len orders) b1) eqn:Hf1; [right|by left].
    by destruct (Hsame _ _ Hr1 Hf1) as [-> ->].
  - destruct (bench_finishes _ _ Hs Hq b1 Hb1) as (more & b2 & Hm & Hf2). exists more.
    assert (bench_run (len orders) (schedule ++ more) b0 = Done b2) as Hr2
      by (by rewrite bench_run_app, Hr1).
    rewrite Hr2. cbn [obind]. rewrite Hf2. by destruct (Hsame _ _ Hr2 Hf2) as [-> ->].
Qed.

(** ** Witnesses *)

Definition ex_bench_orders : list Order :=
  [mkOrder 1 (str "NETF") sell 100 5 1 good_till_cancel;
   mkOrder 2 (str "NETF") buy 101 3 2 good_till_cancel].

Lemma bench_matches_in_order_witness :
  exists b0 b k, new_bench (str "NETF") ex_bench_orders true = Done b0
    /\ bench_run (len ex_bench_orders) (replicate 4 (0%nat, true) ++ replicate 3 (1%nat, true)) b0 = Done b
    /\ consumed b = Z.of_nat k /\ (k <= length ex_bench_orders)%nat
    /\ submit_all (take k ex_bench_orders) (first_engine (str "NETF")) [] = Done (engine b, fills b)
    /\ (bench_finished (len ex_bench_orders) b = true -> k = length ex_bench_orders).
Proof.
  apply (bench_matches_in_order (str "NETF") ex_bench_orders).
  - by vm_compute.
  - by repeat (apply Forall_cons_2; [by vm_compute|]); apply Forall_nil_2.
Defined.

Lemma bench_reports_sequential_result_witness :
  exists orders e fs,
    generate_mock_orders (bench_config 3) = Done orders
    /\ submit_all orders (first_engine (mc_symbol default_mock_config)) [] = Done (e, fs)
    /\ forall schedule,
         (matching_bench [str "matching-bench"; str "3"] true schedule [] [] = OutOfFuel
          \/ matching_bench [str "matching-bench"; str "3"] true schedule [] []
             = Done (bench_report 3 fs [] []))
         /\ exists more, matching_bench [str "matching-bench"; str "3"] true (schedule ++ more) [] []
                         = Done (bench_report 3 fs [] []).
Proof.
  apply (bench_reports_sequential_result [str "matching-bench"; str "3"] 3 [] []); [by vm_compute|].
  split; [discriminate|reflexivity].
Defined.

(** An option is not a number: [std::stoull] throws. *)
Example bench_option_throws schedule seconds throughput :
  matching_bench [str "matching-bench"; str "--count"; str "1000000"] true schedule seconds throughput
  = Threw "stoull: invalid argument".
Proof. reflexivity. Qed.
