(* ===== verification/WeakPipeline.v ===== *)
(** * The matching benchmark with the memory orders of its queue
      ([capstone/matching/solution-reference/apps/bench_main.cpp])

    The producer and the consumer of [Pipeline.v] on the queue of [WeakIngress.v]:
    a load may read an old value, and only the release stores and acquire loads of
    the sequence numbers order the two threads. *)

From stdpp Require Import base gmap list strings.
From Stdlib Require Import Strings.Byte ZArith Lia.
From S2P Require Import Prelude Numeric OrderBook Engine MockData Ingress WeakIngress Pipeline.

(** ** State *)

Record weak_bench := mkWeakBench {
  wb_ingress : weak_system (A := Order);
  wb_unpushed : list Order;
  wb_engine : MatchingEngine;
  wb_fills : list Fill;
  wb_consumed : Z;
}.

Definition new_weak_bench (symbol : bytes) (orders : list Order) (allocated : bool) : outcome weak_bench :=
  let* w := new_weak ingress_capacity allocated [[]; []] in
  Done (mkWeakBench w orders (prepare_symbol symbol new_engine) [] 0).

(** The same with the latest values of the queue. *)
Definition latest_bench (b : weak_bench) : bench :=
  mkBench (latest_system (wb_ingress b)) (wb_unpushed b) (wb_engine b) (wb_fills b) (wb_consumed b).
Definition with_ingress (w : weak_system (A := Order)) (b : bench) : weak_bench :=
  mkWeakBench w (unpushed b) (engine b) (fills b) (consumed b).

(** ** Steps *)

(** The loops decide on the next call, as in [Pipeline.v]. *)
Definition weak_feed (size : Z) (i : nat) (b : weak_bench) : weak_system (A := Order) :=
  match w_threads (wb_ingress b) !! i with
  | Some (mkThread [] Idle returned, v) =>
      match next_call size i (latest_bench b) with
      | Some o => weak_stepped (wb_ingress b) i (mkThread [o] Idle returned) v (w_memory (wb_ingress b)) [] []
      | None => wb_ingress b
      end
  | _ => wb_ingress b
  end.

Definition weak_bench_step (size : Z) (i pick : nat) (exchanges : bool) (b : weak_bench)
  : outcome weak_bench :=
  let w := weak_feed size i b in
  let* w' := weak_step i pick exchanges w in
  let* b' := after_call (latest_system w') (just_returned i (latest_system w) (latest_system w')) (latest_bench b) in
  Done (with_ingress w' b').

Fixpoint weak_bench_run (size : Z) (schedule : list (nat * nat * bool)) (b : weak_bench) : outcome weak_bench :=
  match schedule with
  | [] => Done b
  | (i, pick, exchanges) :: schedule =>
      let* b := weak_bench_step size i pick exchanges b in weak_bench_run size schedule b
  end.

(** ** Roles *)

Lemma push_role_weak pick exchanges m v a m' v' n i :
  weak_advance pick exchanges m v a = Done (m', v', n) -> push_turn i a n.
Proof.
  intros Ha item. revert Ha. destruct a; simpl; try done;
    unfold load_counter, load_sequence, access_value, store_sequence, cell_in, obind;
    repeat case_match; intros; simplify_eq/=; split_and!; eauto using Forall_nil, Forall_singleton.
Qed.

Lemma pop_role_weak pick exchanges m v a m' v' n i :
  weak_advance pick exchanges m v a = Done (m', v', n) -> pop_turn i a n.
Proof.
  intros Ha Hr. revert Ha. destruct a; simpl in *; try done;
    unfold load_counter, load_sequence, access_value, store_sequence, cell_in, obind;
    repeat case_match; intros; simplify_eq/=; split_and!; eauto; try (by repeat constructor);
    eexists; (split; [done|]); intros y Hy; simplify_eq; eauto.
Qed.

Lemma weak_advance_capacity pick exchanges (m : memory (A := Order)) v a m' v' n :
  weak_advance pick exchanges m v a = Done (m', v', n) -> m_capacity m' = m_capacity m.
Proof.
  destruct a; simpl; unfold load_counter, load_sequence, access_value, store_sequence, cell_in, obind;
    repeat case_match; intros; by simplify_eq/=.
Qed.

(** ** The invariant *)

Section WeakBench.
Context (orders : list Order) (e0 : MatchingEngine).
Context (Hsmall : len orders + ingress_capacity + 2 < 2 ^ 63).
Context (Hquantities : Forall (fun o => 0 <= o_quantity o < 2 ^ 64) orders).
Context (He0 : wf_engine e0).

Definition weak_bench_inv (b : weak_bench) : Prop :=
  weak_inv (wb_ingress b) /\ exists p c, bench_inv orders e0 (latest_bench b) p c.

Section Step.
Context (b : weak_bench) (p c : thread (A := Order)).
Context (Hw : weak_inv (wb_ingress b)) (Hb : bench_inv orders e0 (latest_bench b) p c).

Lemma weak_thread i th :
  threads (latest_system (wb_ingress b)) !! i = Some th -> exists v, w_threads (wb_ingress b) !! i = Some (th, v).
Proof. simpl. rewrite list_lookup_fmap. destruct (_ !! i) as [[th' v]|]; [|done]. intros [= <-]. by exists v. Qed.

(** A thread makes its next call. *)
Lemma weak_call i th v o pick exchanges :
  w_threads (wb_ingress b) !! i = Some (th, v) -> now th = Idle -> todo th = [] ->
  next_call (len orders) i (latest_bench b) = Some o ->
  exists b', weak_bench_step (len orders) i pick exchanges b = Done b' /\ weak_bench_inv b'.
Proof.
  intros Hth Hi Ht Hn. destruct th as [td nw rs]; simpl in *; subst.
  assert (Hl : threads (latest_system (wb_ingress b)) !! i = Some (mkThread [] Idle rs))
    by (simpl; by rewrite list_lookup_fmap, Hth).
  destruct (call_inv orders e0 Hsmall (latest_bench b) p c Hb i _ o exchanges Hl eq_refl eq_refl Hn)
    as (bs & p' & c' & Hstep & Hbs). rewrite (step_call orders (latest_bench b) i _ o) in Hstep by done.
  injection Hstep as <-. set (w' := weak_stepped (wb_ingress b) i (mkThread [] (start o) rs) v (w_memory (wb_ingress b)) [] []).
  assert (Hlat : latest_system w' = stepped (latest_system (wb_ingress b)) i (mkThread [] (start o) rs)
                   (queue (latest_system (wb_ingress b))) [] []) by apply latest_stepped.
  exists (with_ingress w' (latest_bench b)). split.
  - unfold weak_bench_step, weak_feed. rewrite Hth, Hn. unfold weak_step. simpl.
    rewrite list_lookup_insert_eq by (by eapply lookup_lt_Some). simpl.
    unfold just_returned. simpl. rewrite list_insert_insert_eq, !list_lookup_fmap, !list_lookup_insert_eq
      by (by eapply lookup_lt_Some). simpl. rewrite (lookup_ge_None_2 rs) by done. simpl.
    unfold w', weak_stepped, with_ingress. simpl. by rewrite !app_nil_r.
  - split.
    + eapply weak_quiet; [done|done| |by destruct o|by eapply (wk_views _ Hw)|by destruct o].
      simpl. apply (bi_inv _ _ _ _ _ Hbs).
    + exists p', c'. unfold latest_bench, with_ingress. simpl. rewrite Hlat. exact Hbs.
Qed.

(** A thread that is not there, or whose loop is over. *)
Lemma weak_over i pick exchanges :
  (forall th v, w_threads (wb_ingress b) !! i = Some (th, v) ->
     now th = Idle /\ todo th = [] /\ next_call (len orders) i (latest_bench b) = None) ->
  weak_bench_step (len orders) i pick exchanges b = Done b.
Proof.
  intros Hall. unfold weak_bench_step, weak_feed, weak_step, just_returned.
  destruct (w_threads (wb_ingress b) !! i) as [[[td nw rs] v]|] eqn:Hth.
  - destruct (Hall _ _ eq_refl) as (Hn & Ht & Hc). simpl in Hn, Ht. subst. rewrite Hc. simpl.
    rewrite Hth. simpl. rewrite !list_lookup_fmap, Hth. simpl. rewrite (lookup_ge_None_2 rs) by done. simpl.
    by destruct b.
  - rewrite Hth. simpl. rewrite !list_lookup_fmap, Hth. simpl. by destruct b.
Qed.

(** A thread inside a call. *)
Lemma weak_inside i th v pick exchanges m' v' n :
  w_threads (wb_ingress b) !! i = Some (th, v) -> now th <> Idle ->
  weak_advance pick exchanges (w_memory (wb_ingress b)) v (now th) = Done (m', v', n) ->
  let w' := weak_stepped (wb_ingress b) i (settle th n) v' m' (enters i n (now th)) (claims i n (now th)) in
  weak_bench_step (len orders) i pick exchanges b
  = (let* b' := after_call (latest_system w') (returns n) (latest_bench b) in Done (with_ingress w' b')).
Proof.
  intros Hth Hi Ha w'. unfold weak_bench_step.
  assert (weak_feed (len orders) i b = wb_ingress b) as ->.
  { unfold weak_feed. rewrite Hth. destruct th as [[|o td] nw rs]; [|done]. by destruct nw. }
  assert (weak_step i pick exchanges (wb_ingress b) = Done w') as ->.
  { unfold weak_step. rewrite Hth. destruct (now th); [done|..]; by rewrite Ha. }
  cbn [obind]. replace (just_returned i (latest_system (wb_ingress b)) (latest_system w')) with (returns n); [done|].
  unfold just_returned, w'. rewrite latest_stepped. simpl. rewrite list_lookup_fmap, Hth. simpl.
  rewrite list_lookup_insert_eq by (rewrite length_map; by eapply lookup_lt_Some).
  destruct n as [a|r]; simpl; [by rewrite (lookup_ge_None_2 (results th)) by done|]. by rewrite list_lookup_middle.
Qed.

Lemma weak_inside_inv i th v pick exchanges :
  w_threads (wb_ingress b) !! i = Some (th, v) -> now th <> Idle -> (i < 2)%nat ->
  exists b', weak_bench_step (len orders) i pick exchanges b = Done b' /\ weak_bench_inv b'.
Proof.
  intros Hth Hi Hlt.
  destruct (weak_advance_safe _ i th v Hw Hth pick exchanges Hi) as (m' & v' & n & Ha & Hinv).
  rewrite (weak_inside i th v pick exchanges m' v' n Hth Hi Ha). set (w' := weak_stepped _ _ _ _ _ _ _) in *.
  pose proof (wk_inv _ Hinv) as Hs. unfold w' in Hs. rewrite latest_stepped in Hs.
  pose proof (weak_advance_capacity _ _ _ _ _ _ _ _ Ha) as Hcap.
  assert (Hl : threads (latest_system (wb_ingress b)) !! i = Some th) by (simpl; by rewrite list_lookup_fmap, Hth).
  pose proof (bi_threads _ _ _ _ _ Hb) as Hpc. simpl in Hl, Hpc. rewrite Hpc in Hl.
  assert (Hafter : exists b' p' c', after_call (latest_system w') (returns n) (latest_bench b) = Done b'
            /\ ingress b' = latest_system w' /\ bench_inv orders e0 b' p' c').
  { unfold w'. rewrite latest_stepped. destruct i as [|[|i]]; [| |lia]; injection Hl as ->.
    - apply (producer_after orders e0 (latest_bench b) th c Hb); try done. by eapply push_role_weak.
    - apply (consumer_after orders e0 Hsmall Hquantities (latest_bench b) p th Hb); try done. by eapply pop_role_weak. }
  destruct Hafter as (b' & p' & c' & -> & Hin & Hb'). exists (with_ingress w' b'). split; [done|].
  split; [done|]. exists p', c'. unfold latest_bench, with_ingress. simpl. rewrite <- Hin. by destruct b'.
Qed.

Lemma weak_bench_step_inv i pick exchanges :
  exists b', weak_bench_step (len orders) i pick exchanges b = Done b' /\ weak_bench_inv b'.
Proof.
  assert (Hself : weak_bench_inv b) by (split; [done|by exists p, c]).
  destruct (w_threads (wb_ingress b) !! i) as [[th v]|] eqn:Hth;
    [|exists b; split; [|done]; apply weak_over; by rewrite Hth].
  assert (Hl : threads (latest_system (wb_ingress b)) !! i = Some th) by (simpl; by rewrite list_lookup_fmap, Hth).
  pose proof (bi_threads _ _ _ _ _ Hb) as Hpc. simpl in Hl, Hpc. rewrite Hpc in Hl.
  assert (Htodo : todo th = [] /\ (i < 2)%nat).
  { destruct i as [|[|i]]; [| |done]; injection Hl as <-; (split; [|lia]); apply Hb. }
  destruct Htodo as [Ht Hlt]. destruct (decide_idle (now th)) as [Hi|Hi]; [|by eapply weak_inside_inv].
  destruct (next_call (len orders) i (latest_bench b)) as [o|] eqn:Ho; [by eapply weak_call|].
  exists b. split; [|done]. apply weak_over. intros th' v' Hth'. rewrite Hth in Hth'. by injection Hth' as <- <-.
Qed.
End Step.

Lemma weak_bench_run_inv schedule b :
  weak_bench_inv b -> exists b', weak_bench_run (len orders) schedule b = Done b' /\ weak_bench_inv b'.
Proof.
  revert b. induction schedule as [|[[i pick] x] schedule IH]; intros b [Hw (p & c & Hb)]; simpl;
    [exists b; split; [done|]; split; [done|by exists p, c]|].
  destruct (weak_bench_step_inv b p c Hw Hb i pick x) as (b1 & -> & H1). simpl. by apply IH.
Qed.

(** ** Loads that read the last write *)

Lemma weak_feed_latest b i : latest_system (weak_feed (len orders) i b) = feed (len orders) i (latest_bench b)
  /\ w_memory (weak_feed (len orders) i b) = w_memory (wb_ingress b).
Proof.
  unfold weak_feed, feed. simpl. rewrite list_lookup_fmap.
  destruct (w_threads (wb_ingress b) !! i) as [[[[|] [] rs] v]|]; simpl; try done.
  destruct (next_call (len orders) i (latest_bench b)); [|done]. split; [apply latest_stepped|done].
Qed.

Lemma weak_bench_mirrors b i exchanges b' :
  weak_bench_step (len orders) i (freshest (w_memory (wb_ingress b))) exchanges b = Done b' ->
  bench_step (len orders) i exchanges (latest_bench b) = Done (latest_bench b').
Proof.
  unfold weak_bench_step, bench_step. destruct (weak_feed_latest b i) as [<- <-].
  intros (w' & Hs & (b1 & Ha & [= <-])%obind_Done_inv)%obind_Done_inv.
  rewrite (weak_step_mirrors _ _ _ _ Hs). cbn [obind]. rewrite Ha.
  pose proof (after_call_ingress _ _ _ _ Ha) as Hin. unfold latest_bench, with_ingress. simpl.
  rewrite <- Hin. by destruct b1.
Qed.

Lemma weak_bench_run_mirrors schedule b :
  weak_bench_inv b ->
  exists choices b', weak_bench_run (len orders) choices b = Done b'
    /\ bench_run (len orders) schedule (latest_bench b) = Done (latest_bench b').
Proof.
  revert b. induction schedule as [|[i x] schedule IH]; intros b Hb; [by exists [], b|].
  pose proof Hb as [Hw (p & c & Hpc)].
  destruct (weak_bench_step_inv b p c Hw Hpc i (freshest (w_memory (wb_ingress b))) x) as (b1 & Hs & Hb1).
  destruct (IH b1 Hb1) as (choices & b' & Hr & Hrun).
  exists ((i, freshest (w_memory (wb_ingress b)), x) :: choices), b'. simpl.
  by rewrite Hs, (weak_bench_mirrors _ _ _ _ Hs).
Qed.

Lemma weak_bench_run_app k l b :
  weak_bench_run (len orders) (k ++ l) b
  = (let* b := weak_bench_run (len orders) k b in weak_bench_run (len orders) l b).
Proof.
  revert b. induction k as [|[[i pick] x] k IH]; intros b; simpl; [done|].
  destruct (weak_bench_step (len orders) i pick x b); simpl; auto.
Qed.
End WeakBench.

Lemma new_weak_bench_inv symbol orders :
  len orders + ingress_capacity + 2 < 2 ^ 63 ->
  exists b, new_weak_bench symbol orders true = Done b /\ weak_bench_inv orders (first_engine symbol) b.
Proof.
  intros Hsmall. destruct (new_bench_inv symbol orders Hsmall) as (b0 & Hnew & Hb0).
  unfold new_bench in Hnew. apply obind_Done_inv in Hnew as (s & Hs & [= <-]).
  assert (exists w, new_weak (A := Order) ingress_capacity true [[]; []] = Done w
            /\ m_capacity (w_memory w) = ingress_capacity) as (w & Hw & Hcap).
  { unfold new_weak. replace (round_power_of_two ingress_capacity) with (Done ingress_capacity) by (by vm_compute).
    cbn [obind negb]. eexists. split; [done|done]. }
  pose proof (new_weak_latest _ _ _ _ Hw) as Hl. rewrite Hs in Hl. injection Hl as ->.
  unfold new_weak_bench. rewrite Hw. eexists. split; [done|]. split; [|exact Hb0].
  apply (new_weak_inv _ _ _ _ Hw). rewrite Hcap. pose proof (len_nonneg orders).
  change (program_pushes [[]; []]) with 0. lia.
Qed.

(** ** Property *)

(** C4: the benchmark matches the orders in order with the memory orders of its
    queue.  Whatever the scheduler does and whichever of the writes not older than
    what a thread has seen its loads read, no step of the benchmark is undefined or
    a data race, and no order is lost, doubled, torn or reordered between the
    producer and the engine: at every moment the engine and the fills are exactly
    those of submitting the first [consumed] orders one after the other, and when
    both loops are over these are all the orders; and every run can be continued
    until they are: the two retry loops never block each other. *)
Theorem weak_bench_matches_in_order symbol orders schedule :
  len orders + ingress_capacity + 2 < 2 ^ 63 ->
  Forall (fun o => 0 <= o_quantity o < 2 ^ 64) orders ->
  exists b0 b k, new_weak_bench symbol orders true = Done b0
    /\ weak_bench_run (len orders) schedule b0 = Done b
    /\ wb_consumed b = Z.of_nat k /\ (k <= length orders)%nat
    /\ submit_all (take k orders) (first_engine symbol) [] = Done (wb_engine b, wb_fills b)
    /\ (bench_finished (len orders) (latest_bench b) = true -> k = length orders)
    /\ exists more b', weak_bench_run (len orders) (schedule ++ more) b0 = Done b'
         /\ bench_finished (len orders) (latest_bench b') = true.
Proof.
  intros Hs Hq. destruct (new_weak_bench_inv symbol orders Hs) as (b0 & Hnew & H0).
  destruct (weak_bench_run_inv orders (first_engine symbol) Hs Hq schedule b0 H0) as (b & Hr & Hwb).
  pose proof Hwb as [_ (p & c & Hb)].
  exists b0, b, (length (popped_items c)). split; [done|]. split; [done|].
  destruct (popped_orders _ _ _ _ _ Hb) as [rest Hrest].
  split; [apply (bi_consumed _ _ _ _ _ Hb)|]. split; [rewrite Hrest, length_app; lia|]. split.
  { rewrite Hrest at 1. rewrite take_app_length. apply (bi_engine _ _ _ _ _ Hb). }
  split; [intros Hf; by rewrite (finished_threads _ _ _ _ _ Hb Hf) at 1|].
  destruct (bench_finishes orders (first_engine symbol) Hs Hq (latest_bench b)) as (more & b1 & Hm & Hf);
    [by exists p, c|].
  destruct (weak_bench_run_mirrors orders _ Hs Hq more b Hwb) as (choices & b' & Hc & Hm').
  rewrite Hm in Hm'. injection Hm' as ->. exists choices, b'. by rewrite weak_bench_run_app, Hr.
Qed.

(** ** Witness *)

Lemma weak_bench_matches_in_order_witness :
  exists b0 b k, new_weak_bench (str "NETF") ex_bench_orders true = Done b0
    /\ weak_bench_run (len ex_bench_orders)
         (replicate 7 (0, 0, true) ++ replicate 3 (1, 0, true) ++ replicate 8 (1, 1, true))%nat b0 = Done b
    /\ wb_consumed b = Z.of_nat k /\ (k <= length ex_bench_orders)%nat
    /\ submit_all (take k ex_bench_orders) (first_engine (str "NETF")) [] = Done (wb_engine b, wb_fills b)
    /\ (bench_finished (len ex_bench_orders) (latest_bench b) = true -> k = length ex_bench_orders)
    /\ exists more b', weak_bench_run (len ex_bench_orders)
           ((replicate 7 (0, 0, true) ++ replicate 3 (1, 0, true) ++ replicate 8 (1, 1, true))%nat ++ more) b0 = Done b'
         /\ bench_finished (len ex_bench_orders) (latest_bench b') = true.
Proof.
  apply (weak_bench_matches_in_order (str "NETF") ex_bench_orders).
  - by vm_compute.
  - by repeat (apply Forall_cons_2; [by vm_compute|]); apply Forall_nil_2.
Defined.
