(* ===== verification/Edges.v ===== *)
(** * The Redis and Kafka edges of the matching engine
      ([capstone/matching/solution-reference/src/redis_edge.cpp], [kafka_edge.cpp])

    [redis_publish] sends one RESP2 command over a fresh connection and reads the
    reply; the descriptors it opens and closes are recorded.  The Kafka producer
    drives librdkafka, whose answers are parameters, or, in the build without it,
    reports that it did not send.  Its calls that acquire and release handles are
    recorded in order. *)

From stdpp Require Import base list strings.
From Stdlib Require Import Strings.Byte ZArith Lia.
From S2P Require Import Prelude Posix Numeric OrderBook MockData.

Record EdgeResult := mkEdgeResult { er_ok : bool; er_error : bytes }.

Definition crlf : bytes := [x0d; x0a].

(** ** Redis *)

Definition resp_bulk (value : bytes) : bytes :=
  str "$" ++ show_unsigned (len value) ++ crlf ++ value ++ crlf.

Record RedisPublisher := mkRedisPublisher { rp_host : bytes; rp_port : Z; rp_channel : bytes }.

(** What the calls on one resolved address return. *)
Record redis_address := mkRedisAddress { ra_socket : Z; ra_connect : Z }.

Record redis_env := mkRedisEnv {
  re_lookup : Z;
  re_addresses : list redis_address;
  re_tx : list write_event;
  re_rx : list read_event;
}.

(** The loop over the addresses: [socket_fd] after it, the descriptors opened and
    those closed. *)
Fixpoint redis_connect (addresses : list redis_address) : Z * list Z * list Z :=
  match addresses with
  | [] => (-1, [], [])
  | address :: rest =>
      if (ra_socket address >=? 0) && (ra_connect address =? 0)
      then (ra_socket address, [ra_socket address], [])
      else
        let '(fd, opened, closed) := redis_connect rest in
        if ra_socket address >=? 0
        then (fd, ra_socket address :: opened, ra_socket address :: closed)
        else (fd, opened, closed)
  end.

(** One [send] of the whole buffer: its result, and the bytes it took. *)
Definition send_once (buffer : bytes) (script : list write_event) : outcome (Z * bytes) :=
  match script with
  | [] => Blocked
  | WTake n :: _ => Done (len (take (Pos.to_nat n) buffer), take (Pos.to_nat n) buffer)
  | WZero :: _ => Done (0, [])
  | WErr _ :: _ => Done (-1, [])
  end.

Definition publish_command (channel payload : bytes) : bytes :=
  str "*3" ++ crlf ++ resp_bulk (str "PUBLISH") ++ resp_bulk channel ++ resp_bulk payload.

(** What a call to [publish] leaves: its result, the bytes the kernel took, and
    the descriptors it opened and closed. *)
Record published := mkPublished {
  pb_result : EdgeResult;
  pb_sent : bytes;
  pb_opened : list Z;
  pb_closed : list Z;
}.

Definition redis_publish (p : RedisPublisher) (payload : bytes) (env : redis_env) : outcome published :=
  if negb (re_lookup env =? 0)
  then Done (mkPublished (mkEdgeResult false (str "redis getaddrinfo failed")) [] [] [])
  else
    let '(socket_fd, opened, closed) := redis_connect (re_addresses env) in
    if socket_fd <? 0
    then Done (mkPublished (mkEdgeResult false (str "redis connection failed")) [] opened closed)
    else
      let command := publish_command (rp_channel p) payload in
      let* (sent, out) := send_once command (re_tx env) in
      let* (received, _) := sys_read 127 (re_rx env) in
      let closed := closed ++ [socket_fd] in
      let '(received, response) :=
        match received with Got bs => (len bs, bs) | ReadFailed _ => (-1, []) end in
      let first := match response with c :: _ => b2z c | [] => 0 end in
      if negb (sent =? len command) || (received <=? 0)
      then Done (mkPublished (mkEdgeResult false (str "redis publish failed")) out opened closed)
      else Done (mkPublished
                   (mkEdgeResult (first =? 58)
                      (if first =? 58 then str "published" else str "redis rejected publish"))
                   out opened closed).

(** ** Kafka *)

(** What librdkafka answers: whether the configuration takes the brokers, the
    handles it creates, and what a produce returns and says. *)
Record rdkafka := mkRdkafka {
  rk_conf_set : bytes -> bool;
  rk_new : option Z;
  rk_topic_new : bytes -> option Z;
  rk_produce : bytes -> Z;
  rk_last_error : bytes;
}.

Inductive kafka_call :=
| ConfNew
| ConfDestroy
| ProducerNew (h : option Z)
| TopicNew (h : option Z)
| Produce (payload : bytes)
| Poll
| TopicDestroy (h : Z)
| Flush (h : Z)
| ProducerDestroy (h : Z).

Record KafkaProducer := mkKafka {
  kp_brokers : bytes;
  kp_topic : bytes;
  kp_producer : option Z;
  kp_topic_handle : option Z;
}.

(** The constructor; [None] is the build without [MATCHING_WITH_RDKAFKA]. *)
Definition new_kafka (lib : option rdkafka) (brokers topic : bytes) : KafkaProducer * list kafka_call :=
  match lib with
  | None => (mkKafka brokers topic None None, [])
  | Some rk =>
      if rk_conf_set rk brokers then
        match rk_new rk with
        | Some producer =>
            (mkKafka brokers topic (Some producer) (rk_topic_new rk topic),
             [ConfNew; ProducerNew (Some producer); TopicNew (rk_topic_new rk topic)])
        | None => (mkKafka brokers topic None None, [ConfNew; ProducerNew None])
        end
      else (mkKafka brokers topic None None, [ConfNew; ConfDestroy])
  end.

Definition destroy_kafka (lib : option rdkafka) (k : KafkaProducer) : list kafka_call :=
  match lib with
  | None => []
  | Some _ =>
      match kp_topic_handle k with Some h => [TopicDestroy h] | None => [] end
      ++ match kp_producer k with Some h => [Flush h; ProducerDestroy h] | None => [] end
  end.

Definition quote : bytes := [x22].

Definition envelope (k : KafkaProducer) (fill : Fill) : bytes :=
  str "{" ++ quote ++ str "topic" ++ quote ++ str ":" ++ quote ++ kp_topic k
  ++ quote ++ str "," ++ quote ++ str "brokers" ++ quote ++ str ":" ++ quote ++ kp_brokers k
  ++ quote ++ str "," ++ quote ++ str "taker_id" ++ quote ++ str ":" ++ show_unsigned (f_taker_id fill)
  ++ str "," ++ quote ++ str "maker_id" ++ quote ++ str ":" ++ show_unsigned (f_maker_id fill)
  ++ str "," ++ quote ++ str "price_ticks" ++ quote ++ str ":" ++ show_signed (f_price_ticks fill)
  ++ str "," ++ quote ++ str "quantity" ++ quote ++ str ":" ++ show_unsigned (f_quantity fill)
  ++ str "}".

Definition kafka_publish (lib : option rdkafka) (k : KafkaProducer) (fill : Fill)
  : EdgeResult * list kafka_call :=
  let payload := envelope k fill in
  match lib with
  | None =>
      (mkEdgeResult false
         (str "Kafka edge is an explicit sidecar seam; use the envelope with kcat/librdkafka"), [])
  | Some rk =>
      match kp_producer k, kp_topic_handle k with
      | Some _, Some _ =>
          if negb (rk_produce rk payload =? 0)
          then (mkEdgeResult false (rk_last_error rk), [Produce payload])
          else (mkEdgeResult true (str "queued"), [Produce payload; Poll])
      | _, _ => (mkEdgeResult false (str "librdkafka initialization failed"), [])
      end
  end.

(** ** RESP2, as a server reads it *)

(** A decimal number up to CRLF. *)
Fixpoint resp_number (l : bytes) (acc : Z) (some : bool) : option (Z * bytes) :=
  match l with
  | c :: l' =>
      if is_digit c then resp_number l' (acc * 10 + digit_value c) true
      else match l' with
           | c' :: rest => if some && (b2z c =? 13) && (b2z c' =? 10) then Some (acc, rest) else None
           | [] => None
           end
  | [] => None
  end.

Definition starts_crlf (l : bytes) : option bytes :=
  match l with
  | c :: c' :: rest => if (b2z c =? 13) && (b2z c' =? 10) then Some rest else None
  | _ => None
  end.

Definition decode_bulk (l : bytes) : option (bytes * bytes) :=
  match l with
  | c :: l =>
      if b2z c =? 36 then
        match resp_number l 0 false with
        | Some (n, rest) =>
            if len rest <? n then None
            else match starts_crlf (drop (Z.to_nat n) rest) with
                 | Some rest' => Some (take (Z.to_nat n) rest, rest')
                 | None => None
                 end
        | None => None
        end
      else None
  | [] => None
  end.

Fixpoint decode_bulks (n : nat) (l : bytes) : option (list bytes * bytes) :=
  match n with
  | O => Some ([], l)
  | S n =>
      match decode_bulk l with
      | Some (value, rest) =>
          match decode_bulks n rest with
          | Some (values, rest) => Some (value :: values, rest)
          | None => None
          end
      | None => None
      end
  end.

(** An array of bulk strings, and what follows it. *)
Definition decode_array (l : bytes) : option (list bytes * bytes) :=
  match l with
  | c :: l =>
      if b2z c =? 42 then
        match resp_number l 0 false with
        | Some (n, rest) => decode_bulks (Z.to_nat n) rest
        | None => None
        end
      else None
  | [] => None
  end.

Lemma resp_number_digits ds l acc some :
  forallb is_digit ds = true -> (ds <> [] \/ some = true) ->
  resp_number (ds ++ crlf ++ l) acc some = Some (dec_value acc ds, l).
Proof.
  revert acc some. induction ds as [|c ds IH]; intros acc some Hd Hne.
  - destruct Hne as [Hne|Hs]; [done|]. by subst some.
  - cbn [forallb] in Hd. reflect_bools. cbn [app resp_number dec_value].
    match goal with H : is_digit c = true |- _ => rewrite H end. apply IH; [done|by right].
Qed.

Lemma decode_resp_bulk value l : decode_bulk (resp_bulk value ++ l) = Some (value, l).
Proof.
  unfold resp_bulk, decode_bulk. repeat rewrite <- app_assoc.
  change (str "$" ++ ?x) with (x24 :: x).
  change (b2z x24 =? 36) with true. cbn iota.
  rewrite resp_number_digits
    by (first [left; apply show_unsigned_nonempty|apply show_unsigned_digits, len_nonneg]).
  rewrite show_unsigned_value by apply len_nonneg.
  rewrite len_app, (proj2 (Z.ltb_ge _ _)) by (pose proof (len_nonneg (crlf ++ l)); lia).
  unfold len. rewrite Nat2Z.id, drop_app_length, take_app_length. reflexivity.
Qed.

Lemma decode_three a b c l :
  decode_bulks 3 (resp_bulk a ++ resp_bulk b ++ resp_bulk c ++ l) = Some ([a; b; c], l).
Proof. unfold decode_bulks. by rewrite !decode_resp_bulk. Qed.

(** ** Descriptors and replies *)

Lemma redis_connect_balanced addresses fd opened closed :
  redis_connect addresses = (fd, opened, closed) ->
  opened ≡ₚ closed ++ (if fd <? 0 then [] else [fd]).
Proof.
  revert fd opened closed. induction addresses as [|[s c] rest IH]; intros fd opened closed; simpl.
  - by intros [= <- <- <-].
  - rewrite !Z.geb_leb. destruct (Z.leb_spec 0 s) as [Hs|Hs]; cbn [andb].
    + destruct (c =? 0).
      * intros [= <- <- <-]. by rewrite (proj2 (Z.ltb_ge _ _)) by lia.
      * destruct (redis_connect rest) as [[fd' o] cl] eqn:Hr. intros [= <- <- <-].
        simpl. constructor. by apply IH.
    + destruct (redis_connect rest) as [[fd' o] cl] eqn:Hr. intros [= <- <- <-]. by apply IH.
Qed.

Lemma send_once_all buffer script sent out :
  send_once buffer script = Done (sent, out) -> buffer <> [] -> ((sent =? len buffer) = true <-> out = buffer).
Proof.
  intros Hs Hne. assert (0 < len buffer) by (destruct buffer; [done|unfold len; simpl; lia]).
  rewrite Z.eqb_eq. destruct script as [|[n| |e] script]; [done| | |]; injection Hs as <- <-.
  - unfold len. split; [|by intros ->]. intros Heq.
    rewrite <- (take_drop (Pos.to_nat n) buffer) at 2.
    destruct (drop (Pos.to_nat n) buffer) as [|x l] eqn:Hd; [by rewrite app_nil_r|].
    apply (f_equal length) in Hd. rewrite length_drop in Hd. rewrite length_take in Heq. simpl in Hd. lia.
  - split; [lia|]. by intros <-.
  - split; [lia|]. by intros <-.
Qed.

Lemma publish_command_nonempty channel payload : publish_command channel payload <> [].
Proof. done. Qed.

Lemma replied count script received rest :
  sys_read count script = Done (received, rest) -> 0 < count ->
  let response := match received with Got bs => bs | ReadFailed _ => [] end in
  (exists more later, script = RData x3a more :: later)
  <-> exists more, response = x3a :: more.
Proof.
  intros Hr Hc response. subst response. destruct script as [|[b bs| |e] script]; simplify_eq/=.
  - replace (Z.to_nat count) with (S (Z.to_nat (count - 1))) by lia. simpl. split.
    + intros (more & later & [= -> -> ->]). by eexists.
    + intros (more & [= -> _]). by do 2 eexists.
  - split; [by intros (? & ? & ?)|by intros (? & ?)].
  - split; [by intros (? & ? & ?)|by intros (? & ?)].
Qed.

Lemma byte_58 b : b2z b = 58 <-> b = x3a.
Proof. split; [|by intros ->]. intros Hb. apply b2z_inj. by rewrite Hb. Qed.

(** ** Texts between separators *)

Lemma sep_inj (sep : byte) a b l k :
  sep ∉ a -> sep ∉ b -> a ++ sep :: l = b ++ sep :: k -> a = b /\ l = k.
Proof.
  intros Ha Hb E. pose proof (until_absent sep a l Ha) as H1. rewrite E, until_absent in H1 by done.
  by injection H1 as -> ->.
Qed.

Lemma scan_show_signed z : scan_int (show_signed z) = Some (z <? 0, Z.abs z).
Proof.
  unfold show_signed. destruct (Z.ltb_spec z 0).
  - rewrite scan_negative by (apply show_unsigned_nonempty || (apply show_unsigned_digits; lia)).
    rewrite show_unsigned_value by lia. do 2 f_equal. lia.
  - rewrite scan_digits by (apply show_unsigned_nonempty || (apply show_unsigned_digits; lia)).
    rewrite show_unsigned_value by lia. do 2 f_equal. lia.
Qed.

Lemma show_signed_inj a b : show_signed a = show_signed b -> a = b.
Proof.
  intros E. apply (f_equal scan_int) in E. rewrite !scan_show_signed in E. injection E as Hs Ha.
  destruct (Z.ltb_spec a 0), (Z.ltb_spec b 0); try done; lia.
Qed.

(** ** Properties *)

(** The command is valid RESP2 and binary safe.  A server that decodes the
    bytes [publish] sends reads exactly the three strings PUBLISH, the channel and
    the payload, whatever bytes the channel and the payload hold, and leaves what
    follows them alone. *)
Theorem publish_command_decodes channel payload rest :
  decode_array (publish_command channel payload ++ rest)
  = Some ([str "PUBLISH"; channel; payload], rest).
Proof.
  unfold publish_command. repeat rewrite <- app_assoc. unfold decode_array.
  change (str "*3" ++ ?x) with (x2a :: str "3" ++ x). change (b2z x2a =? 42) with true. cbn iota.
  rewrite resp_number_digits by (done || by left). change (Z.to_nat (dec_value 0 (str "3"))) with 3%nat.
  apply decode_three.
Qed.

(** C35: publishing reports the truth and leaks nothing.  However the calls behave,
    [publish] returns unless one of them blocks; it reports success exactly when
    the kernel took the whole command and the reply starts with an integer's
    colon, and it has closed every descriptor it opened, exactly once, on every
    path. *)
Theorem redis_publish_reports p payload env :
  match redis_publish p payload env with
  | Done r =>
      (er_ok (pb_result r) = true
       <-> pb_sent r = publish_command (rp_channel p) payload
           /\ exists more later, re_rx env = RData x3a more :: later)
      /\ (er_ok (pb_result r) = true <-> er_error (pb_result r) = str "published")
      /\ pb_opened r ≡ₚ pb_closed r
  | Blocked => True
  | _ => False
  end.
Proof.
  unfold redis_publish. pose proof (publish_command_nonempty (rp_channel p) payload) as Hne.
  set (command := publish_command (rp_channel p) payload) in *.
  destruct (negb (re_lookup env =? 0)).
  { cbn. split; [|by split]. split; [done|]. intros [E _]. by destruct Hne. }
  destruct (redis_connect (re_addresses env)) as [[fd opened] closed] eqn:Hc.
  pose proof (redis_connect_balanced _ _ _ _ Hc) as Hbal.
  destruct (fd <? 0).
  { cbn. rewrite app_nil_r in Hbal. split; [|by split]. split; [done|]. intros [E _]. by destruct Hne. }
  destruct (send_once command (re_tx env)) as [[sent out]| | | |] eqn:Hs;
    try (by destruct (re_tx env) as [|[] ?]). cbn [obind].
  destruct (sys_read 127 (re_rx env)) as [[received later]| | | |] eqn:Hr;
    try (by destruct (re_rx env) as [|[] ?]). cbn [obind].
  pose proof (send_once_all _ _ _ _ Hs Hne) as Hall. pose proof (replied _ _ _ _ Hr ltac:(lia)) as Hrep.
  destruct (sent =? len command) eqn:Hsent; cbn [negb orb].
  - rewrite (proj1 Hall eq_refl). destruct received as [[|c bs]|e].
    1, 3: cbn; split; [|by split]; rewrite Hrep; split; [done|]; by intros (_ & ? & ?).
    assert ((b2z c =? 58) = true <-> c = x3a) as Hcolon by (rewrite Z.eqb_eq; apply byte_58).
    rewrite (proj2 (Z.leb_gt _ _)) by (rewrite len_cons; pose proof (len_nonneg bs); lia).
    cbn [pb_result pb_sent pb_opened pb_closed er_ok er_error]. rewrite Hrep.
    split; [|split; [by destruct (b2z c =? 58)|done]]. rewrite Hcolon. split.
    + intros ->. split; [done|]. by exists bs.
    + by intros (_ & more & [= -> _]).
  - destruct received as [bs|e]; cbn; (split; [|by split]); (split; [done|]); intros [E _];
      by apply Hall in E.
Qed.

(** An envelope determines its fill.  Two fills with 64-bit identifiers and
    quantities that a producer writes into the same envelope agree in the taker,
    the maker, the price and the quantity. *)
Theorem envelope_determines_fill k f g :
  0 <= f_taker_id f -> 0 <= f_maker_id f -> 0 <= f_quantity f ->
  0 <= f_taker_id g -> 0 <= f_maker_id g -> 0 <= f_quantity g ->
  envelope k f = envelope k g ->
  f_taker_id f = f_taker_id g /\ f_maker_id f = f_maker_id g
  /\ f_price_ticks f = f_price_ticks g /\ f_quantity f = f_quantity g.
Proof.
  intros Hft Hfm Hfq Hgt Hgm Hgq E. unfold envelope in E.
  assert (forall z, 0 <= z -> comma ∉ show_unsigned z) as Hcomma by (intros; by apply unsigned_absent).
  assert (forall z, comma ∉ show_signed z) as Hsigned by (intros; by apply signed_absent).
  repeat (apply app_inv_head in E).
  change (str "," ++ ?x) with (comma :: x) in E.
  apply sep_inj in E as [Ht E]; [|by apply Hcomma..].
  do 4 (apply app_inv_head in E). change (str "," ++ ?x) with (comma :: x) in E.
  apply sep_inj in E as [Hm E]; [|by apply Hcomma..].
  do 4 (apply app_inv_head in E). change (str "," ++ ?x) with (comma :: x) in E.
  apply sep_inj in E as [Hp E]; [|by apply Hsigned..].
  do 4 (apply app_inv_head in E). apply app_inv_tail in E.
  split_and!; [by apply show_unsigned_inj|by apply show_unsigned_inj|by apply show_signed_inj|by apply show_unsigned_inj].
Qed.

(** Which handle a call acquires, and which it releases. *)
Definition acquires (c : kafka_call) : option (bool * Z) :=
  match c with
  | ProducerNew (Some h) => Some (true, h)
  | TopicNew (Some h) => Some (false, h)
  | _ => None
  end.
Definition releases (c : kafka_call) : option (bool * Z) :=
  match c with
  | ProducerDestroy h => Some (true, h)
  | TopicDestroy h => Some (false, h)
  | _ => None
  end.

(** The producer's handles are released in the reverse order.  Whatever
    librdkafka answers, the destructor releases exactly the handles that the
    constructor acquired, the last one first, and flushes before it destroys the
    producer; and in between a publish reports success exactly when both handles
    are there and the library took the envelope of that fill. *)
Theorem kafka_releases_handles rk brokers topic fill :
  let (k, calls) := new_kafka (Some rk) brokers topic in
  let destroyed := destroy_kafka (Some rk) k in
  let (result, published) := kafka_publish (Some rk) k fill in
  omap releases destroyed = rev (omap acquires calls)
  /\ omap releases (calls ++ published) = [] /\ omap acquires (published ++ destroyed) = []
  /\ (forall h, ProducerDestroy h ∈ destroyed -> exists before, destroyed = before ++ [Flush h; ProducerDestroy h])
  /\ (er_ok result = true
      <-> published = [Produce (envelope k fill); Poll]
          /\ rk_produce rk (envelope k fill) = 0).
Proof.
  unfold new_kafka, destroy_kafka, kafka_publish.
  assert (forall (l : list kafka_call) t h, l = t ++ [Flush h; ProducerDestroy h] ->
    omap releases t = [] \/ (exists h', t = [TopicDestroy h']) ->
    forall h', ProducerDestroy h' ∈ l -> exists before, l = before ++ [Flush h'; ProducerDestroy h'])
    as Hflush.
  { intros l t h -> Ht h'. rewrite elem_of_app, !elem_of_cons. intros [Hin|[|[[= ->]|[]%elem_of_nil]]];
      [|done|by exists t]. destruct Ht as [Ht|(h'' & ->)].
    - assert ((true, h') ∈ omap releases t) as Hr by (apply list_elem_of_omap; by exists (ProducerDestroy h')).
      rewrite Ht in Hr. by apply elem_of_nil in Hr.
    - by apply list_elem_of_singleton in Hin. }
  destruct (rk_conf_set rk brokers), (rk_new rk) as [h|];
    [destruct (rk_topic_new rk topic) as [t|]|..]; cbn [kp_producer kp_topic_handle fst snd];
    try set (k := mkKafka _ _ _ _);
    try destruct (Z.eqb_spec (rk_produce rk (envelope k fill)) 0) as [Hp|Hp]; cbn [negb];
    do 3 (split; [done|]); (split; [|by split; [|intros [? ?]]]).
  1, 2: apply (Hflush _ [TopicDestroy t] h eq_refl); right; by exists t.
  1, 2: apply (Hflush _ [] h eq_refl); by left.
  all: by intros ? []%elem_of_nil.
Qed.

(** Without librdkafka nothing is sent: the envelope is built and dropped. *)
Example sidecar_sends_nothing k f g : kafka_publish None k f = kafka_publish None k g.
Proof. reflexivity. Qed.

(** When [rd_kafka_new] fails, the configuration, which then still belongs to the
    caller, is not destroyed. *)
Example failed_new_keeps_conf brokers topic :
  let rk := mkRdkafka (fun _ => true) None (fun _ => None) (fun _ => 0) [] in
  let (k, calls) := new_kafka (Some rk) brokers topic in
  calls ++ destroy_kafka (Some rk) k = [ConfNew; ProducerNew None].
Proof. reflexivity. Qed.

(** ** Witnesses *)

Lemma envelope_determines_fill_witness :
  let k := mkKafka (str "localhost:9092") (str "fills") None None in
  let f := mkFill 2 1 buy 100 5 7 in
  let g := mkFill 2 1 sell 100 5 8 in
  f_taker_id f = f_taker_id g /\ f_maker_id f = f_maker_id g
  /\ f_price_ticks f = f_price_ticks g /\ f_quantity f = f_quantity g.
Proof.
  apply (envelope_determines_fill (mkKafka (str "localhost:9092") (str "fills") None None)
           (mkFill 2 1 buy 100 5 7) (mkFill 2 1 sell 100 5 8)); simpl; try lia. reflexivity.
Defined.
