(* ===== verification/Parallel.v ===== *)
(** * The parallelism laboratory ([labs/parallelism/reference.cpp], [starter.cpp])

    [parallel_sum] splits the range of items over the workers, sums each part
    in its own thread, lets each thread write its own slot of the vector of
    partial sums, and adds the slots up after the joins; [counter_trial] has its
    threads count.  The threads of both run under a schedule, one turn of a loop
    or one write of a slot at a time.  [program_main] is the program over its sum,
    which the starter has not implemented yet; the texts of its timings are the
    environment's. *)

From stdpp Require Import base list strings.
From Stdlib Require Import Strings.Byte ZArith Lia.
From S2P Require Import Prelude Numeric.

Definition mix (value : Z) : Z :=
  let value := u64 (value + 0x9e3779b97f4a7c15) in
  let value := u64 (Z.lxor value (Z.shiftr value 30) * 0xbf58476d1ce4e5b9) in
  let value := u64 (Z.lxor value (Z.shiftr value 27) * 0x94d049bb133111eb) in
  Z.lxor value (Z.shiftr value 31).

(** The loop [for (value = begin; value < end; ++value)]: its [steps] turns. *)
Fixpoint sum_from (steps : nat) (value total : Z) : Z :=
  match steps with
  | O => total
  | S steps => sum_from steps (value + 1) (u64 (total + mix value))
  end.

Definition sum_range (begin end_ : Z) : Z := sum_from (Z.to_nat (end_ - begin)) begin 0.

(** The range of worker [w]: 64-bit products, [worker + 1U] in 32 bits. *)
Definition worker_begin (item_count workers worker : Z) : Z := u64 (item_count * worker) / workers.
Definition worker_end (item_count workers worker : Z) : Z :=
  u64 (item_count * u32 (worker + 1)) / workers.

Definition add_partials (partials : list Z) : Z :=
  foldl (fun total partial => u64 (total + partial)) 0 partials.

(** A running worker: the loop variable, the bound and the sum so far. *)
Record summer := mkSummer { sm_value : Z; sm_end : Z; sm_total : Z }.
(** The slots, and the workers; [None] for one that has returned. *)
Record summing := mkSumming { partials : list Z; summers : list (option summer) }.

(** One turn of a worker's loop, or the write of its slot when the loop is over. *)
Definition sum_step (s : summing) (worker : nat) : summing :=
  match summers s !! worker with
  | Some (Some w) =>
      if sm_value w <? sm_end w then
        mkSumming (partials s)
          (<[worker := Some (mkSummer (sm_value w + 1) (sm_end w)
                               (u64 (sm_total w + mix (sm_value w))))]> (summers s))
      else mkSumming (<[worker := sm_total w]> (partials s)) (<[worker := None]> (summers s))
  | _ => s
  end.

Definition returned (w : option summer) : bool := match w with None => true | Some _ => false end.

Definition start_summing (item_count workers : Z) : summing :=
  mkSumming (replicate (Z.to_nat workers) 0)
    (map (fun worker => Some (mkSummer (worker_begin item_count workers (Z.of_nat worker))
                                (worker_end item_count workers (Z.of_nat worker)) 0))
       (seq 0 (Z.to_nat workers))).

(** A schedule that ends before the workers have returned leaves it in the joins. *)
Definition parallel_sum (item_count thread_count : Z) (schedule : list nat) : outcome Z :=
  if thread_count =? 0 then Threw "thread_count must be positive"
  else if item_count =? 0 then Done 0
  else
    let workers_to_use := Z.min item_count thread_count in
    let s := foldl sum_step (start_summing item_count workers_to_use) schedule in
    if forallb returned (summers s) then Done (add_partials (partials s)) else OutOfFuel.

(** ** Counters *)

(** The counters, and the turns each worker still has to make. *)
Record trial := mkTrial { tr_counters : list Z; tr_left : list Z }.

(** One turn of a worker's loop: [counters[worker].value.fetch_add(1)]. *)
Definition trial_step (t : trial) (worker : nat) : trial :=
  match tr_left t !! worker, tr_counters t !! worker with
  | Some n, Some value =>
      if 0 <? n then mkTrial (<[worker := u64 (value + 1)]> (tr_counters t))
                       (<[worker := n - 1]> (tr_left t))
      else t
  | _, _ => t
  end.

(** [counter_trial], its result being a time; a schedule that ends before the
    loops do leaves it waiting in the joins. *)
Definition counter_trial (thread_count iterations : Z) (schedule : list nat) : outcome unit :=
  let t := foldl trial_step
             (mkTrial (replicate (Z.to_nat thread_count) 0)
                      (replicate (Z.to_nat thread_count) iterations)) schedule in
  if negb (forallb (fun n => n =? 0) (tr_left t)) then OutOfFuel
  else if negb (forallb (fun value => value =? iterations) (tr_counters t))
  then Threw "counter correctness failure"
  else Done tt.

(** ** The program *)

Definition table_header : bytes :=
  str "threads,serial_ms,parallel_ms,speedup,efficiency,amdahl_ceiling_10pct" ++ newline.

Section Program.
Context (sum : Z -> Z -> outcome Z).

(** The loop over the numbers of threads: the exit on a mismatch, or the rows.
    [row] is the text of the timings of a row. *)
Fixpoint thread_rows (fuel : nat) (threads maximum item_count expected : Z) (row : Z -> bytes)
    (out : bytes) : outcome (exited + bytes) :=
  match fuel with
  | O => OutOfFuel
  | S fuel =>
      if negb (threads <=? maximum) then Done (inr out)
      else
        let* actual := sum item_count threads in
        if negb (actual =? expected)
        then Done (inl (mkExited 1 out (str "checksum mismatch at " ++ show_unsigned threads
                                        ++ str " thread(s)" ++ newline)))
        else
          let out := out ++ show_unsigned threads ++ str "," ++ row threads ++ newline in
          if threads >? maximum / 2 then Done (inr out)
          else thread_rows fuel (u32 (threads * 2)) maximum item_count expected row out
  end.

(** [main]; at most 8 threads, so at most four turns of the loop. *)
Definition program_main (argv : list bytes) (hardware_concurrency : Z) (row : Z -> bytes)
    (adjacent padded : list nat) (adjacent_ms padded_ms : bytes) : outcome exited :=
  let item_count := match argv with _ :: text :: _ => strtoull text | _ => 4000000 end in
  let counter_iterations := match argv with _ :: _ :: text :: _ => strtoull text | _ => 750000 end in
  let hardware := Z.max 1 hardware_concurrency in
  let maximum := Z.min 8 hardware in
  let expected := sum_range 0 item_count in
  let out := str "items=" ++ show_unsigned item_count ++ str " hardware_threads="
             ++ show_unsigned hardware ++ newline ++ table_header in
  let* rows := thread_rows 4 1 maximum item_count expected row out in
  match rows with
  | inl exit => Done exit
  | inr out =>
      let counter_threads := Z.max 2 maximum in
      let* _ := counter_trial counter_threads counter_iterations adjacent in
      let* _ := counter_trial counter_threads counter_iterations padded in
      Done (mkExited 0 (out ++ str "counter_threads=" ++ show_unsigned counter_threads
                        ++ str " adjacent_ms=" ++ adjacent_ms ++ str " padded_ms=" ++ padded_ms ++ newline
                        ++ str "PASS: checksums and counters are correct; interpret timing only across repeated runs."
                        ++ newline) [])
  end.
End Program.

(** The reference, under a schedule for each number of threads. *)
Definition parallel_main (sums : Z -> list nat) :=
  program_main (fun item_count threads => parallel_sum item_count threads (sums threads)).

(** The starter's [parallel_sum], and its program. *)
Definition starter_parallel_sum (item_count thread_count : Z) : outcome Z :=
  if thread_count =? 0 then Threw "thread_count must be positive"
  else Threw "implement parallel_sum".
Definition starter_main := program_main starter_parallel_sum.

(** ** Lemmas *)

Lemma sum_from_add steps value total :
  0 <= total < 2 ^ 64 -> sum_from steps value total = u64 (total + sum_from steps value 0).
Proof.
  revert value total. induction steps as [|steps IH]; intros value total Ht; simpl.
  - by rewrite Z.add_0_r, u64_small.
  - rewrite IH by apply u64_range. rewrite (IH _ (u64 (mix value))) by apply u64_range.
    rewrite !u64_add_l, u64_add_r. f_equal. lia.
Qed.

Lemma sum_from_range steps value : 0 <= sum_from steps value 0 < 2 ^ 64.
Proof.
  destruct steps as [|steps]; simpl; [lia|]. rewrite sum_from_add by apply u64_range.
  apply u64_range.
Qed.

Lemma sum_from_app m n value :
  sum_from (m + n) value 0
  = u64 (sum_from m value 0 + sum_from n (value + Z.of_nat m) 0).
Proof.
  revert value. induction m as [|m IH]; intros value; simpl.
  - rewrite Z.add_0_r, u64_small by apply sum_from_range. done.
  - rewrite (sum_from_add (m + n)), (sum_from_add m) by apply u64_range.
    replace (value + Z.of_nat (S m)) with (value + 1 + Z.of_nat m) by lia.
    rewrite IH, !u64_add_l, u64_add_r, <- (Z.add_assoc (u64 _)), u64_add_l. done.
Qed.

(** Adjacent ranges add up. *)
Lemma sum_range_split a b c : a <= b <= c -> sum_range a c = u64 (sum_range a b + sum_range b c).
Proof.
  intros H. unfold sum_range.
  replace (Z.to_nat (c - a)) with (Z.to_nat (b - a) + Z.to_nat (c - b))%nat by lia.
  rewrite sum_from_app. replace (a + Z.of_nat (Z.to_nat (b - a))) with b by lia. done.
Qed.

(** The split points: without overflow, worker [w] ends where [w + 1] begins. *)
Definition split_point (item_count workers worker : Z) : Z := item_count * worker / workers.

Lemma worker_range_exact item_count workers worker :
  0 <= item_count -> 0 <= worker < workers -> workers < 2 ^ 32 -> item_count * workers < 2 ^ 64 ->
  worker_begin item_count workers worker = split_point item_count workers worker
  /\ worker_end item_count workers worker = split_point item_count workers (worker + 1).
Proof.
  intros Hi Hw Hlt Hprod. unfold worker_begin, worker_end, split_point.
  rewrite u32_small by lia. split; f_equal; apply u64_small; nia.
Qed.

Lemma split_point_mono item_count workers a b :
  0 <= item_count -> 0 < workers -> a <= b ->
  split_point item_count workers a <= split_point item_count workers b.
Proof. intros Hi Hw Hab. apply Z.div_le_mono; nia. Qed.

(** The parts of the first [n] workers add up to the range before the next. *)
Lemma partials_sum item_count workers n :
  0 <= item_count -> 0 < workers -> (Z.of_nat n <= workers)%Z -> workers < 2 ^ 32 ->
  item_count * workers < 2 ^ 64 ->
  add_partials (map (fun worker => sum_range (worker_begin item_count workers (Z.of_nat worker))
                                     (worker_end item_count workers (Z.of_nat worker))) (seq 0 n))
  = sum_range 0 (split_point item_count workers (Z.of_nat n)).
Proof.
  intros Hi Hw Hn Hlt Hprod. unfold add_partials. induction n as [|n IH].
  - simpl. unfold split_point. by rewrite Z.mul_0_r, Z.div_0_l by lia.
  - rewrite seq_S, map_app, foldl_app, IH by lia. simpl.
    destruct (worker_range_exact item_count workers (Z.of_nat n)) as [-> ->]; [lia..|].
    replace (Z.of_nat (S n)) with (Z.of_nat n + 1) by lia.
    symmetry. apply sum_range_split. split; [|apply split_point_mono; lia].
    unfold split_point. apply Z.div_pos; nia.
Qed.

(** *** The summing threads *)

(** Worker [i] has the range [ranges !! i]: the turns it still has to make complete
    its sum, and its slot holds the sum once it has returned. *)
Record sum_inv (ranges : list (Z * Z)) (s : summing) : Prop := mkSumInv {
  su_partials : length (partials s) = length ranges;
  su_summers : length (summers s) = length ranges;
  su_worker : forall i b e, ranges !! i = Some (b, e) ->
    match summers s !! i with
    | Some (Some w) =>
        sm_end w = e /\ sum_from (Z.to_nat (e - sm_value w)) (sm_value w) (sm_total w) = sum_range b e
    | _ => partials s !! i = Some (sum_range b e)
    end;
}.

Lemma sum_step_inv ranges s worker : sum_inv ranges s -> sum_inv ranges (sum_step s worker).
Proof.
  intros [Hp Hs Hw]. unfold sum_step.
  destruct (summers s !! worker) as [[[v e0 t]|]|] eqn:Hi; [|done..]. cbn [sm_value sm_end sm_total].
  pose proof (lookup_lt_Some _ _ _ Hi) as Hlt.
  destruct (Z.ltb_spec v e0) as [Hv|Hv]; split; cbn [partials summers]; rewrite ?length_insert; try done;
    intros i b e Hr; specialize (Hw i b e Hr); destruct (decide (worker = i)) as [->|Hne];
    rewrite ?list_lookup_insert_ne by done; try done; rewrite Hi in Hw; cbn [sm_value sm_end sm_total] in Hw;
    destruct Hw as [-> Hsum]; rewrite !list_lookup_insert_eq by lia.
  - split; [done|]. cbn [sm_value sm_total]. rewrite <- Hsum.
    replace (Z.to_nat (e - v)) with (S (Z.to_nat (e - (v + 1)))) by lia. done.
  - f_equal. rewrite <- Hsum. by replace (Z.to_nat (e - v)) with O by lia.
Qed.

Lemma sum_run_inv ranges schedule s : sum_inv ranges s -> sum_inv ranges (foldl sum_step s schedule).
Proof.
  revert s. induction schedule as [|w schedule IH]; intros s Hs; [done|]. simpl. by apply IH, sum_step_inv.
Qed.

Definition worker_ranges (item_count workers : Z) : list (Z * Z) :=
  map (fun worker => (worker_begin item_count workers (Z.of_nat worker),
                      worker_end item_count workers (Z.of_nat worker))) (seq 0 (Z.to_nat workers)).

Lemma start_summing_inv item_count workers :
  sum_inv (worker_ranges item_count workers) (start_summing item_count workers).
Proof.
  unfold worker_ranges, start_summing. split; cbn [partials summers]; rewrite ?length_map, ?length_replicate, ?length_seq; try done.
  intros i b e Hr. rewrite list_lookup_fmap in Hr. rewrite list_lookup_fmap.
  destruct (seq 0 (Z.to_nat workers) !! i) as [j|]; [|done]. cbn in Hr |- *. by injection Hr as <- <-.
Qed.

(** All slots are written when all workers have returned. *)
Lemma returned_partials ranges s :
  sum_inv ranges s -> forallb returned (summers s) = true ->
  partials s = map (fun r => sum_range (fst r) (snd r)) ranges.
Proof.
  intros [Hp Hs Hw] Hret. apply list_eq. intros i. rewrite list_lookup_fmap.
  destruct (ranges !! i) as [[b e]|] eqn:Hr; cbn.
  - specialize (Hw i b e Hr). pose proof (lookup_lt_Some _ _ _ Hr) as Hlt.
    destruct (lookup_lt_is_Some_2 (summers s) i) as [w Hi]; [lia|]. rewrite Hi in Hw.
    rewrite forallb_forall in Hret. specialize (Hret w (proj1 (list_elem_of_In _ _) (list_elem_of_lookup_2 _ _ _ Hi))).
    by destruct w.
  - apply lookup_ge_None in Hr. apply lookup_ge_None. lia.
Qed.

(** The parallel sum is the serial sum: for every number of threads and every
    number of items whose product with the number of workers fits 64 bits, and
    however the threads interleave, each item is taken once. *)
Lemma parallel_sum_is_serial item_count thread_count schedule :
  0 <= item_count < 2 ^ 64 -> 0 < thread_count < 2 ^ 32 ->
  item_count * Z.min item_count thread_count < 2 ^ 64 ->
  parallel_sum item_count thread_count schedule = OutOfFuel
  \/ parallel_sum item_count thread_count schedule = Done (sum_range 0 item_count).
Proof.
  intros Hi Ht Hprod. unfold parallel_sum. rewrite (proj2 (Z.eqb_neq _ _)) by lia.
  destruct (Z.eqb_spec item_count 0) as [->|Hne]; [by right|].
  set (workers := Z.min item_count thread_count) in *.
  pose proof (sum_run_inv _ schedule _ (start_summing_inv item_count workers)) as Hinv.
  destruct (forallb returned _) eqn:Hret; [right|by left].
  rewrite (returned_partials _ _ Hinv Hret). unfold worker_ranges. rewrite map_map. cbn [fst snd].
  rewrite partials_sum by lia. do 2 f_equal. unfold split_point.
  rewrite Z2Nat.id by lia. apply Z.div_mul. lia.
Qed.

(** A worker that runs alone returns. *)
Lemma summer_alone k s worker w :
  summers s !! worker = Some (Some w) -> Z.to_nat (sm_end w - sm_value w) = k ->
  summers (foldl sum_step s (replicate (S k) worker)) = <[worker := None]> (summers s).
Proof.
  revert s w. induction k as [|k IH]; intros s w Hw Hk; cbn [replicate foldl].
  - unfold sum_step. rewrite Hw. by rewrite (proj2 (Z.ltb_ge _ _)) by lia.
  - unfold sum_step at 3. rewrite Hw, (proj2 (Z.ltb_lt _ _)) by lia. cbn [replicate foldl] in IH.
    erewrite IH; cbn [summers].
    + by rewrite list_insert_insert_eq.
    + apply list_lookup_insert_eq. by eapply lookup_lt_Some.
    + cbn [sm_value sm_end]. lia.
Qed.

Lemma summers_finish s k :
  (k <= length (summers s))%nat ->
  exists schedule, let s' := foldl sum_step s schedule in
    length (summers s') = length (summers s)
    /\ forall i, (i < k)%nat -> summers s' !! i = Some None.
Proof.
  induction k as [|k IH]; intros Hk; [exists []; split; [done|lia]|].
  destruct IH as (schedule & Hlen & Hdone); [lia|]. cbn zeta in *.
  set (s1 := foldl sum_step s schedule) in *.
  destruct (lookup_lt_is_Some_2 (summers s1) k) as [[w|] Hw]; [lia| |].
  - exists (schedule ++ replicate (S (Z.to_nat (sm_end w - sm_value w))) k). cbn zeta.
    rewrite foldl_app. fold s1. rewrite (summer_alone _ _ _ _ Hw eq_refl), length_insert.
    split; [done|]. intros i Hi. destruct (decide (k = i)) as [->|Hne]; [apply list_lookup_insert_eq; lia|].
    rewrite list_lookup_insert_ne by done. apply Hdone. lia.
  - exists schedule. fold s1. split; [done|]. intros i Hi. destruct (decide (i = k)) as [->|]; [done|].
    apply Hdone. lia.
Qed.

Lemma parallel_sum_finishes item_count thread_count schedule :
  0 < thread_count ->
  exists more v, parallel_sum item_count thread_count (schedule ++ more) = Done v.
Proof.
  intros Ht. unfold parallel_sum. rewrite (proj2 (Z.eqb_neq _ _)) by lia.
  destruct (item_count =? 0); [by exists [], 0|]. set (s0 := start_summing _ _).
  destruct (summers_finish (foldl sum_step s0 schedule) _ (le_n _)) as (more & Hlen & Hdone).
  exists more. rewrite foldl_app. eexists. rewrite (proj2 (forallb_forall _ _)); [done|].
  intros w Hw%list_elem_of_In. apply list_elem_of_lookup in Hw as [i Hi].
  pose proof (lookup_lt_Some _ _ _ Hi) as Hlt. rewrite Hdone in Hi by lia. by injection Hi as <-.
Qed.

(** ** Counters *)

(** Every counter and what its worker still has to add make the iterations. *)
Definition trial_inv (iterations : Z) (t : trial) : Prop :=
  Forall2 (fun value n => 0 <= value /\ 0 <= n /\ value + n = iterations)
    (tr_counters t) (tr_left t).

Lemma trial_step_inv iterations t worker :
  iterations < 2 ^ 64 -> trial_inv iterations t -> trial_inv iterations (trial_step t worker).
Proof.
  intros Hi Ht. unfold trial_step. destruct (tr_left t !! worker) as [n|] eqn:Hn; [|done].
  destruct (tr_counters t !! worker) as [value|] eqn:Hv; [|done].
  destruct (Z.ltb_spec 0 n) as [Hpos|]; [|done].
  destruct (Forall2_lookup_lr _ _ _ _ _ _ Ht Hv Hn) as (Hv0 & _ & Hsum).
  apply Forall2_insert; [done|]. rewrite u64_small by lia. lia.
Qed.

Lemma trial_run_inv iterations schedule t :
  iterations < 2 ^ 64 -> trial_inv iterations t ->
  trial_inv iterations (foldl trial_step t schedule).
Proof.
  intros Hi. revert t. induction schedule as [|w schedule IH]; intros t Ht; [done|].
  simpl. apply IH. by apply trial_step_inv.
Qed.

Lemma trial_start iterations n :
  0 <= iterations -> trial_inv iterations (mkTrial (replicate n 0) (replicate n iterations)).
Proof. intros Hi. unfold trial_inv. simpl. apply Forall2_replicate. lia. Qed.

Lemma trial_checks iterations t :
  trial_inv iterations t -> forallb (fun n => n =? 0) (tr_left t) = true ->
  forallb (fun value => value =? iterations) (tr_counters t) = true.
Proof.
  unfold trial_inv. destruct t as [counters left]. simpl. induction 1 as [|v n cs ls Hv _ IH]; [done|].
  simpl. intros Hl. reflect_bools. rewrite IH by done. rewrite (proj2 (Z.eqb_eq _ _)) by lia. done.
Qed.

(** A worker that runs alone makes its turns. *)
Lemma trial_worker k t worker n value :
  tr_left t !! worker = Some (Z.of_nat k + n) -> tr_counters t !! worker = Some value -> 0 <= n ->
  tr_left (foldl trial_step t (replicate k worker)) = <[worker := n]> (tr_left t).
Proof.
  revert t value. induction k as [|k IH]; intros t value Hn Hv Hpos; simpl.
  - symmetry. by apply list_insert_id.
  - unfold trial_step at 2. rewrite Hn, Hv. rewrite (proj2 (Z.ltb_lt _ _)) by lia.
    erewrite IH; simpl.
    + by rewrite list_insert_insert_eq.
    + rewrite list_lookup_insert_eq by (by eapply lookup_lt_Some). f_equal. lia.
    + apply list_lookup_insert_eq. by eapply lookup_lt_Some.
    + done.
Qed.

Lemma trial_step_length t worker :
  length (tr_left (trial_step t worker)) = length (tr_left t)
  /\ length (tr_counters (trial_step t worker)) = length (tr_counters t).
Proof. unfold trial_step. repeat case_match; simpl; rewrite ?length_insert; done. Qed.

Lemma trial_workers iterations t k :
  iterations < 2 ^ 64 -> trial_inv iterations t -> (k <= length (tr_left t))%nat ->
  exists schedule, let t' := foldl trial_step t schedule in
    trial_inv iterations t' /\ length (tr_left t') = length (tr_left t)
    /\ forall w, (w < k)%nat -> tr_left t' !! w = Some 0.
Proof.
  intros Hi Ht. induction k as [|k IH]; intros Hk; [exists []; split_and!; [done|done|lia]|].
  destruct IH as (schedule & Hinv & Hlen & Hdone); [lia|]. set (t1 := foldl trial_step t schedule) in *.
  destruct (lookup_lt_is_Some_2 (tr_left t1) k) as [n Hn]; [lia|].
  destruct (Forall2_lookup_r _ _ _ _ _ Hinv Hn) as (value & Hv & _ & Hpos & _).
  assert (tr_left (foldl trial_step t1 (replicate (Z.to_nat n) k)) = <[k := 0]> (tr_left t1)) as Hleft
    by (apply (trial_worker _ _ _ 0 value); [rewrite Hn; f_equal; lia|done|done]).
  exists (schedule ++ replicate (Z.to_nat n) k). cbn zeta. rewrite foldl_app. fold t1.
  split; [by apply trial_run_inv|]. rewrite Hleft, length_insert. split; [done|].
  intros w Hw. destruct (decide (w = k)) as [->|Hne]; [apply list_lookup_insert_eq; lia|].
  rewrite list_lookup_insert_ne by done. apply Hdone. lia.
Qed.

Lemma trial_finishes iterations t :
  iterations < 2 ^ 64 -> trial_inv iterations t ->
  exists schedule, forallb (fun n => n =? 0) (tr_left (foldl trial_step t schedule)) = true.
Proof.
  intros Hi Ht. destruct (trial_workers iterations t (length (tr_left t)) Hi Ht (le_n _))
    as (schedule & _ & Hlen & Hdone).
  exists schedule. apply forallb_forall. intros n Hn%list_elem_of_In.
  apply list_elem_of_lookup in Hn as [w Hw]. pose proof (lookup_lt_Some _ _ _ Hw) as Hlt.
  rewrite Hdone in Hw by lia. by injection Hw as <-.
Qed.

(** A trial passes or is still running, and can always finish. *)
Lemma counter_trial_passes thread_count iterations schedule :
  0 <= iterations < 2 ^ 64 ->
  (counter_trial thread_count iterations schedule = OutOfFuel
   \/ counter_trial thread_count iterations schedule = Done tt)
  /\ exists more, counter_trial thread_count iterations (schedule ++ more) = Done tt.
Proof.
  intros Hi. unfold counter_trial. set (t0 := mkTrial _ _).
  assert (forall sch, trial_inv iterations (foldl trial_step t0 sch)) as Hinv
    by (intros sch; apply trial_run_inv; [lia|apply trial_start; lia]).
  split.
  - destruct (forallb _ (tr_left _)) eqn:Hl; [right|by left]. cbn [negb].
    by rewrite (trial_checks iterations) by done.
  - destruct (trial_finishes iterations _ ltac:(lia) (Hinv schedule)) as (more & Hm). exists more.
    rewrite foldl_app, Hm. cbn [negb]. by rewrite (trial_checks iterations)
      by (done || by rewrite <- foldl_app).
Qed.

(** The sum the rows are checked against. *)
Definition serial (item_count threads : Z) : outcome Z := Done (sum_range 0 item_count).

(** The loop over the threads waits where a sum does, and goes on where it is right. *)
Lemma thread_rows_as_serial sum maximum item_count row :
  maximum <= 8 ->
  (forall threads, 1 <= threads <= 8 ->
     sum item_count threads = OutOfFuel \/ sum item_count threads = serial item_count threads) ->
  forall fuel threads out, 1 <= threads ->
  let run sum := thread_rows sum fuel threads maximum item_count (sum_range 0 item_count) row out in
  run sum = run serial
  \/ (run sum = OutOfFuel /\ exists threads, 1 <= threads <= 8 /\ sum item_count threads = OutOfFuel).
Proof.
  intros Hmax Hsum. induction fuel as [|fuel IH]; intros threads out Ht; [by left|]. cbn [thread_rows].
  destruct (Z.leb_spec threads maximum) as [Hle|]; [|by left]. cbn [negb].
  destruct (Hsum threads ltac:(lia)) as [Hs|Hs]; rewrite Hs; [right; split; [done|eauto with lia]|].
  change (serial item_count threads) with (Done (sum_range 0 item_count)). cbn [obind]. rewrite Z.eqb_refl. cbn [negb].
  destruct (threads >? maximum / 2); [by left|]. apply IH. rewrite u32_small by lia. lia.
Qed.

Lemma thread_rows_serial maximum item_count row out :
  1 <= maximum <= 8 ->
  exists rows, thread_rows serial 4 1 maximum item_count (sum_range 0 item_count) row out
    = Done (inr (out ++ rows)).
Proof.
  intros Hmax.
  assert (maximum = 1 \/ maximum = 2 \/ maximum = 3 \/ maximum = 4 \/ maximum = 5 \/ maximum = 6
          \/ maximum = 7 \/ maximum = 8) as Hcases by lia.
  cbn [thread_rows]. change (u32 (1 * 2)) with 2. change (u32 (2 * 2)) with 4.
  change (u32 (4 * 2)) with 8. unfold serial. cbn [obind]. rewrite Z.eqb_refl. cbn [negb].
  destruct Hcases as [->|[->|[->|[->|[->|[->|[->| ->]]]]]]]; eexists; rewrite <- ?app_assoc; reflexivity.
Qed.

(** Schedules for the numbers of threads the program uses, each with more of it. *)
Lemma sums_finish item_count sums :
  exists sums', forall threads, 1 <= threads <= 8 ->
    exists more v, sums' threads = sums threads ++ more
      /\ parallel_sum item_count threads (sums' threads) = Done v.
Proof.
  assert (forall k, 0 <= k -> exists sums', forall threads, 1 <= threads <= k ->
    exists more v, sums' threads = sums threads ++ more
      /\ parallel_sum item_count threads (sums' threads) = Done v) as H; [|by apply H].
  apply natlike_ind; [exists sums; lia|]. intros k Hk (f & Hf).
  destruct (parallel_sum_finishes item_count (Z.succ k) (sums (Z.succ k)) ltac:(lia)) as (more & v & Hv).
  exists (fun threads => if threads =? Z.succ k then sums (Z.succ k) ++ more else f threads).
  intros threads Ht. destruct (Z.eqb_spec threads (Z.succ k)) as [->|]; [by exists more, v|].
  apply Hf. lia.
Qed.

(** ** Properties *)


(** The starter checks its argument and then throws, so its program ends with the
    exception at the first row. *)
Lemma starter_throws argv hardware row adjacent padded adjacent_ms padded_ms :
  starter_main argv hardware row adjacent padded adjacent_ms padded_ms = Threw "implement parallel_sum".
Proof.
  unfold starter_main, program_main. cbn [thread_rows].
  rewrite (proj2 (Z.leb_le 1 _)) by lia. done.
Qed.

(** The bound is needed: with 2^62 items and 8 threads the product of the split
    points wraps around, and the last worker's range ends at 0. *)
Example split_overflows :
  worker_begin (2 ^ 62) 8 7 = 3 * 2 ^ 59 /\ worker_end (2 ^ 62) 8 7 = 0.
Proof. vm_compute. done. Qed.

(** ** Witnesses *)

