(* ===== verification/Fixtures.v ===== *)
(** * The debugging fixtures ([interview/fixtures], [labs/debugging])

    Small programs with an intended fault, modelled as they are.  [Memory] is the
    storage whose lifetime the faults are about: reading it after its end is
    undefined.  [MockA] is the frame decoder that allocates before it checks and
    returns a view of a dead string, with its program; [UseAfterFree] the two
    sanitizer exercises; [MockB] the shutdown that joins a thread blocked in
    [recv].  The racing counters are in [Races.v]. *)

From stdpp Require Import base gmap list strings.
From Stdlib Require Import Strings.Byte ZArith Lia.
From S2P Require Import Prelude ByteOrder Posix Numeric Protocol.

(** ** Storage *)

Module Memory.
Section Memory.
Context {A : Type}.

(** The live blocks, and the name of the next one. *)
Record memory := mkMemory { blocks : gmap nat (list A); next : nat }.

Definition allocate (contents : list A) (m : memory) : nat * memory :=
  (next m, mkMemory (<[next m := contents]> (blocks m)) (S (next m))).
Definition write (block : nat) (contents : list A) (m : memory) : memory :=
  mkMemory (<[block := contents]> (blocks m)) (next m).
(** The end of the storage: [delete[]], or the owner's destructor. *)
Definition free (block : nat) (m : memory) : memory :=
  mkMemory (delete block (blocks m)) (next m).

(** A [std::string_view] or [std::span]: it does not own what it refers to. *)
Record view := mkView { v_block : option nat; v_size : Z }.
Definition empty_view : view := mkView None 0.

(** The bytes a view refers to; no bytes can be read of a view of no bytes. *)
Definition read (v : view) (m : memory) : outcome (list A) :=
  if v_size v =? 0 then Done []
  else match v_block v with
       | None => Undefined
       | Some block =>
           match blocks m !! block with
           | Some contents =>
               if v_size v <=? len contents then Done (take (Z.to_nat (v_size v)) contents)
               else Undefined
           | None => Undefined
           end
       end.

Lemma read_dead block size m : 0 < size -> blocks m !! block = None -> read (mkView (Some block) size) m = Undefined.
Proof.
  intros Hs Hb. unfold read. cbn [v_size v_block]. rewrite (proj2 (Z.eqb_neq _ _)) by lia. by rewrite Hb.
Qed.
End Memory.
Arguments memory : clear implicits.
End Memory.
Import Memory.

(** ** Mock A: the frame decoder ([mock_a_frame_faults.cpp]) *)

Module MockA.
Record DecodeResult := mkDecode {
  dr_ok : bool;
  dr_payload : view;
  dr_error : bytes;
  dr_allocation_bytes : Z;
}.

Definition decode_length (b0 b1 b2 b3 : byte) : Z :=
  Z.lor (Z.lor (Z.lor (u32 (Z.shiftl (b2z b0) 24)) (u32 (Z.shiftl (b2z b1) 16)))
           (u32 (Z.shiftl (b2z b2) 8))) (b2z b3).

(** What a [std::string] of a size gets: its capacity, at least the size, and
    whether the allocation succeeds. *)
Class StringStorage := {
  string_capacity : Z -> Z;
  string_allocates : Z -> bool;
  string_capacity_enough : forall n, 0 <= n -> n <= string_capacity n;
}.

Section Decoder.
Context `{StringStorage}.

(** [scratch] lives until the function returns, in every case. *)
Definition decode_frame (bytes : bytes) (max_payload : Z) (m : memory byte)
    : outcome (DecodeResult * memory byte) :=
  match bytes with
  | b0 :: b1 :: b2 :: b3 :: body =>
      let declared := decode_length b0 b1 b2 b3 in
      if negb (string_allocates declared) then Threw "bad_alloc"
      else
        let (scratch, m) := allocate (replicate (Z.to_nat declared) x00) m in
        let allocation_bytes := string_capacity declared in
        if declared >? max_payload then
          Done (mkDecode false empty_view (str "frame too large") allocation_bytes, free scratch m)
        else if len bytes - 4 <? declared then
          Done (mkDecode false empty_view (str "truncated body") allocation_bytes, free scratch m)
        else
          let m := write scratch (take (Z.to_nat declared) body) m in
          Done (mkDecode true (mkView (Some scratch) declared) [] allocation_bytes, free scratch m)
  | _ => Done (mkDecode false empty_view (str "truncated header") 0, m)
  end.

Definition make_frame (payload : bytes) : bytes :=
  let length := u32 (len payload) in
  [z2b (Z.land (Z.shiftr length 24) 255); z2b (Z.land (Z.shiftr length 16) 255);
   z2b (Z.land (Z.shiftr length 8) 255); z2b (Z.land length 255)] ++ payload.

Definition oversize_case (m : memory byte) : outcome (exited * memory byte) :=
  let* (result, m) := decode_frame (make_frame (replicate 64 x78)) 8 m in
  if dr_ok result || negb (bool_decide (dr_error result = str "frame too large")) then
    Done (mkExited 1 [] (str "FAIL: oversized frame did not return the bounded error" ++ newline), m)
  else if negb (dr_allocation_bytes result =? 0) then
    Done (mkExited 1 [] (str "FAIL: oversized length caused " ++ show_unsigned (dr_allocation_bytes result)
                         ++ str " bytes of payload work before rejection" ++ newline), m)
  else Done (mkExited 0 (str "oversize: PASS" ++ newline) [], m).

(** The 64 strings of [allocator_churn] are allocated before the payload is read. *)
Definition churn_string (m : memory byte) : memory byte := snd (allocate (replicate 256 x7a) m).
Definition churn (m : memory byte) : memory byte := Nat.iter 64 churn_string m.

Definition lifetime_case (m : memory byte) : outcome (exited * memory byte) :=
  let expected := replicate 256 x71 in
  let* (result, m) := decode_frame (make_frame expected) 512 m in
  if negb (dr_ok result) then
    Done (mkExited 1 [] (str "FAIL: valid frame was rejected: " ++ dr_error result ++ newline), m)
  else
    let m := churn m in
    let* observed := read (dr_payload result) m in
    if negb (bool_decide (observed = expected)) then
      Done (mkExited 1 [] (str "FAIL: returned payload no longer names valid owned bytes" ++ newline), m)
    else Done (mkExited 0 (str "lifetime: PASS (churn blocks=" ++ show_unsigned 64 ++ str ")" ++ newline) [], m).

Definition main (argv : list bytes) (m : memory byte) : outcome (exited * memory byte) :=
  match argv with
  | [_; mode] =>
      if bool_decide (mode = str "oversize") then oversize_case m
      else if bool_decide (mode = str "lifetime") then lifetime_case m
      else Done (mkExited 2 [] (str "unknown mode: " ++ mode ++ newline), m)
  | _ => Done (mkExited 2 [] (str "usage: mock-a oversize|lifetime" ++ newline), m)
  end.
End Decoder.

(** *** Against the protocol *)

Lemma decode_length_be b0 b1 b2 b3 : decode_length b0 b1 b2 b3 = be_value [b0; b1; b2; b3] 0.
Proof.
  unfold decode_length. pose proof (b2z_range b0). pose proof (b2z_range b1).
  pose proof (b2z_range b2). pose proof (b2z_range b3).
  rewrite !Z.shiftl_mul_pow2, !u32_small by lia. rewrite <- !Z.shiftl_mul_pow2 by lia.
  rewrite (Z.shiftl_mul_pow2 (b2z b1)), (lor_shiftl_add _ _ 24) by lia.
  replace (b2z b0 * 2 ^ 24 + b2z b1 * 2 ^ 16) with ((b2z b0 * 256 + b2z b1) * 2 ^ 16) by lia.
  rewrite <- Z.shiftl_mul_pow2, (Z.shiftl_mul_pow2 (b2z b2)), (lor_shiftl_add _ _ 16) by lia.
  replace ((b2z b0 * 256 + b2z b1) * 2 ^ 16 + b2z b2 * 2 ^ 8)
    with (((b2z b0 * 256 + b2z b1) * 256 + b2z b2) * 2 ^ 8) by lia.
  rewrite <- Z.shiftl_mul_pow2, (lor_shiftl_add _ _ 8) by lia. simpl. lia.
Qed.

Lemma z2b_low z : z2b (Z.land z 255) = z2b z.
Proof.
  apply b2z_inj. rewrite !b2z_z2b. change 255 with (Z.ones 8). rewrite Z.land_ones by lia.
  apply Z.mod_mod. lia.
Qed.

(** The fixture's frames are the protocol's. *)
Lemma make_frame_is_frame_of payload : len payload <= u32_max -> make_frame payload = frame_of payload.
Proof.
  intros Hp. unfold make_frame, frame_of, be32, u32_max in *. pose proof (len_nonneg payload).
  by rewrite u32_small, !z2b_low by lia.
Qed.

Lemma decode_length_range b0 b1 b2 b3 : 0 <= decode_length b0 b1 b2 b3 < 2 ^ 32.
Proof. rewrite decode_length_be. by apply be_value_range. Qed.

Section Faults.
Context `{StringStorage}.

(** The fixture's decoder decides as the protocol's, and has the two faults it
    is meant to have.  For all bytes and limits it accepts a frame, calls it too
    large or calls it truncated exactly where [recv_frame] does on a stream of
    those bytes; but the payload it returns cannot be read after its return, unless
    it is empty, and a frame that is too large has already been allocated in full. *)
Theorem decoder_decides_like_protocol bytes max_payload m :
  string_allocates (be_value (take 4 bytes) 0) = true ->
  exists f r m',
    recv_frame_ref max_payload (bytes, SEof) = Done f
    /\ decode_frame bytes max_payload m = Done (r, m')
    /\ match fr_status f with
       | IoStatus.ok =>
           dr_ok r = true /\ v_size (dr_payload r) = len (fr_payload f)
           /\ (fr_payload f <> [] -> read (dr_payload r) m' = Undefined)
       | IoStatus.too_large =>
           dr_ok r = false /\ dr_error r = str "frame too large"
           /\ max_payload < be_value (take 4 bytes) 0 <= dr_allocation_bytes r
       | IoStatus.eof =>
           dr_ok r = false
           /\ dr_error r = if len bytes <? 4 then str "truncated header" else str "truncated body"
       | _ => False
       end.
Proof.
  intros Hall. unfold recv_frame_ref.
  destruct bytes as [|b0 [|b1 [|b2 [|b3 body]]]]; try (by do 3 eexists; split; [done|]; split; [done|]).
  assert (Hlen : len (b0 :: b1 :: b2 :: b3 :: body) = 4 + len body) by (rewrite !len_cons; lia).
  pose proof (len_nonneg body). rewrite Hlen, (proj2 (Z.ltb_ge (4 + len body) 4)) by lia.
  cbn [take drop decode_frame] in *. rewrite <- decode_length_be in *. rewrite drop_0, Hlen, Hall.
  pose proof (decode_length_range b0 b1 b2 b3). set (n := decode_length b0 b1 b2 b3) in *.
  replace (4 + len body - 4) with (len body) by lia. cbn [negb allocate].
  destruct (Z.gtb_spec n max_payload) as [Hbig|Hfit].
  { do 3 eexists. split; [done|]. split; [done|]. split; [done|]. split; [done|].
    split; [done|]. apply string_capacity_enough. lia. }
  destruct (Z.ltb_spec (len body) n) as [Hshort|Hlong]; [do 3 eexists; split; [done|]; split; [done|]; by split|].
  assert (Hp : len (take (Z.to_nat n) body) = n) by (unfold len in *; rewrite length_take; lia).
  do 3 eexists. split; [done|]. split; [done|]. cbn [fr_status fr_payload dr_ok dr_payload v_size].
  split; [done|]. split; [done|]. intros Hne. apply read_dead; [|by apply lookup_delete_eq].
  destruct (Z.eq_dec n 0) as [E|]; [|lia]. destruct Hne. by apply len_zero; rewrite Hp.
Qed.

Lemma decode_make_frame payload max_payload m :
  (forall n, string_allocates n = true) -> len payload <= u32_max ->
  decode_frame (make_frame payload) max_payload m
  = let m1 := snd (allocate (replicate (Z.to_nat (len payload)) x00) m) in
    if len payload >? max_payload
    then Done (mkDecode false empty_view (str "frame too large") (string_capacity (len payload)), free (next m) m1)
    else Done (mkDecode true (mkView (Some (next m)) (len payload)) [] (string_capacity (len payload)),
               free (next m) (write (next m) payload m1)).
Proof.
  intros Hall Hp. rewrite make_frame_is_frame_of by done. pose proof (len_nonneg payload).
  unfold u32_max in Hp. unfold frame_of. cbn [be32 app decode_frame].
  rewrite decode_length_be, Hall. fold (be32 (len payload)). rewrite be_value_be32 by lia.
  rewrite !len_cons, (proj2 (Z.ltb_ge (1 + (1 + (1 + (1 + len payload))) - 4) (len payload))) by lia. cbn [negb allocate snd].
  rewrite (firstn_all2 payload) by (unfold len; lia). done.
Qed.

Lemma churn_dead k m block :
  (block < next m)%nat -> blocks m !! block = None ->
  (block < next (Nat.iter k churn_string m))%nat /\ blocks (Nat.iter k churn_string m) !! block = None.
Proof.
  intros Hlt Hb. induction k as [|k [IHlt IHb]]; [done|]. rewrite Nat.iter_succ.
  unfold churn_string at 1 3. cbn [allocate snd next blocks]. split; [lia|].
  by rewrite lookup_insert_ne by lia.
Qed.

(** Both modes fail, as the README demands: [oversize] reports the bytes that were
    allocated before the rejection, [lifetime] reads a payload that is gone. *)
Lemma both_modes_fail prog m :
  (forall n, string_allocates n = true) ->
  (exists m', main [prog; str "oversize"] m
     = Done (mkExited 1 [] (str "FAIL: oversized length caused " ++ show_unsigned (string_capacity 64)
                            ++ str " bytes of payload work before rejection" ++ newline), m'))
  /\ main [prog; str "lifetime"] m = Undefined.
Proof.
  intros Hall. unfold main. rewrite bool_decide_true by done. split.
  - unfold oversize_case. rewrite decode_make_frame by done. cbn [len obind].
    change (len (replicate 64 x78) >? 8) with true. cbn match. cbn [obind dr_ok dr_error dr_allocation_bytes].
    rewrite bool_decide_true by done. cbn [orb negb].
    pose proof (string_capacity_enough 64 ltac:(lia)). change (len (replicate 64 x78)) with 64.
    rewrite (proj2 (Z.eqb_neq _ _)) by lia. cbn [negb]. eauto.
  - rewrite bool_decide_false, bool_decide_true by done. unfold lifetime_case.
    rewrite decode_make_frame by done. change (len (replicate 256 x71) >? 512) with false.
    cbn match. cbn [obind dr_ok negb dr_payload]. change (len (replicate 256 x71)) with 256.
    unfold churn. rewrite read_dead; [done|done|]. apply churn_dead; [simpl; lia|].
    apply lookup_delete_eq.
Qed.
End Faults.

(** Strings that get exactly what they ask for. *)
Definition ex_storage : StringStorage :=
  {| string_capacity n := n; string_allocates _ := true;
     string_capacity_enough n _ := Z.le_refl n |}.

Lemma decoder_decides_like_protocol_witness :
  exists f r m',
    recv_frame_ref 8 (make_frame (str "PING"), SEof) = Done f
    /\ @decode_frame ex_storage (make_frame (str "PING")) 8 (mkMemory ∅ 0) = Done (r, m')
    /\ match fr_status f with
       | IoStatus.ok =>
           dr_ok r = true /\ v_size (dr_payload r) = len (fr_payload f)
           /\ (fr_payload f <> [] -> read (dr_payload r) m' = Undefined)
       | IoStatus.too_large =>
           dr_ok r = false /\ dr_error r = str "frame too large"
           /\ 8 < be_value (take 4 (make_frame (str "PING"))) 0 <= dr_allocation_bytes r
       | IoStatus.eof =>
           dr_ok r = false
           /\ dr_error r = if len (make_frame (str "PING")) <? 4 then str "truncated header"
                           else str "truncated body"
       | _ => False
       end.
Proof.
  apply (@decoder_decides_like_protocol ex_storage (make_frame (str "PING")) 8 (mkMemory ∅ 0)).
  reflexivity.
Defined.
End MockA.

(** ** The sanitizer exercises ([asan-starter.cpp], [asan_uaf.cpp]) *)

Module UseAfterFree.
(** [labs/debugging/asan-starter.cpp]: a span of a vector that ends with the
    function. *)
Definition decoded_payload (m : memory Z) : view * memory Z :=
  let (frame, m) := allocate (replicate 4096 7) m in
  let m := write frame (42 :: replicate 4095 7) m in
  (mkView (Some frame) 4096, free frame m).

Definition checksum (payload : list Z) : Z :=
  foldl (fun checksum byte => u64 (checksum + byte)) 0 payload.

Definition asan_starter_main (m : memory Z) : outcome exited :=
  let (payload, m) := decoded_payload m in
  let* bytes := read payload m in
  let sum := checksum bytes in
  Done (mkExited (if sum =? 28707 then 0 else 1)
          (str "bytes=" ++ show_unsigned (v_size payload) ++ str " checksum=" ++ show_unsigned sum ++ newline) []).

(** [interview/fixtures/day10/asan_uaf.cpp]: the second element after [delete[]]. *)
Definition asan_uaf_main (m : memory Z) : outcome exited :=
  let (values, m) := allocate [7; 11] m in
  let m := free values m in
  let* observed := read (mkView (Some values) 2) m in
  Done (mkExited (if nth 1 observed 0 =? 11 then 0 else 1) [] []).

(** The checksum the starter compares with is that of the bytes it wrote, so the
    program would exit with 0 if the span were alive; it is not. *)
Lemma starters_read_dead_storage m :
  checksum (42 :: replicate 4095 7) = 28707
  /\ asan_starter_main m = Undefined /\ asan_uaf_main m = Undefined.
Proof.
  split; [by vm_compute|].
  split; [unfold asan_starter_main, decoded_payload|unfold asan_uaf_main]; cbn [allocate];
    rewrite read_dead; try done; apply lookup_delete_eq.
Qed.
End UseAfterFree.

(** ** Mock B: the shutdown that hangs ([mock_b_shutdown_hang.cpp]) *)

Module MockB.
Inductive worker_point := Entering | Announcing | InRecv | Received (count : Z) | Closing | Returned.
Inductive main_point := Spinning | Requesting | Joining | ClosingPeer | Reporting | Exited.

(** The two threads, [worker_entered], and the socket pair: the bytes on their way
    to [endpoints[0]] and which ends are open. *)
Record state := mkState {
  worker : worker_point;
  main_at : main_point;
  worker_entered : bool;
  inbox : bytes;
  open0 : bool;
  open1 : bool;
  out : bytes;
}.

(** The program after a successful [socketpair]. *)
Definition start : state := mkState Entering Spinning false [] true true [].

(** [main] up to the start of the worker. *)
Definition launch (socketpair_result : Z) (reason : bytes) : exited + state :=
  if negb (socketpair_result =? 0)
  then inl (mkExited 1 [] (str "socketpair failed: " ++ reason ++ newline))
  else inr start.

Definition line (s : state) (text : bytes) : bytes := out s ++ text ++ newline.

(** [recv] returns when a byte is there or the other end is closed. *)
Inductive step (s : state) : state -> Prop :=
| Worker_enters :
    worker s = Entering ->
    step s (mkState Announcing (main_at s) true (inbox s) (open0 s) (open1 s) (out s))
| Worker_announces :
    worker s = Announcing ->
    step s (mkState InRecv (main_at s) (worker_entered s) (inbox s) (open0 s) (open1 s)
              (line s (str "worker: blocked waiting for a request")))
| Worker_receives b rest :
    worker s = InRecv -> inbox s = b :: rest ->
    step s (mkState (Received 1) (main_at s) (worker_entered s) rest (open0 s) (open1 s) (out s))
| Worker_sees_close :
    worker s = InRecv -> inbox s = [] -> open1 s = false ->
    step s (mkState (Received 0) (main_at s) (worker_entered s) [] (open0 s) (open1 s) (out s))
| Worker_reports count :
    worker s = Received count ->
    step s (mkState Closing (main_at s) (worker_entered s) (inbox s) (open0 s) (open1 s)
              (line s (str "worker: recv returned " ++ show_signed count)))
| Worker_closes :
    worker s = Closing ->
    step s (mkState Returned (main_at s) (worker_entered s) (inbox s) false (open1 s) (out s))
| Main_yields :
    main_at s = Spinning -> worker_entered s = false -> step s s
| Main_sees_worker :
    main_at s = Spinning -> worker_entered s = true ->
    step s (mkState (worker s) Requesting true (inbox s) (open0 s) (open1 s) (out s))
| Main_requests :
    main_at s = Requesting ->
    step s (mkState (worker s) Joining (worker_entered s) (inbox s) (open0 s) (open1 s)
              (line s (str "main: shutdown requested; joining worker")))
| Main_joins :
    main_at s = Joining -> worker s = Returned ->
    step s (mkState (worker s) ClosingPeer (worker_entered s) (inbox s) (open0 s) (open1 s) (out s))
| Main_closes :
    main_at s = ClosingPeer ->
    step s (mkState (worker s) Reporting (worker_entered s) (inbox s) (open0 s) false (out s))
| Main_reports :
    main_at s = Reporting ->
    step s (mkState (worker s) Exited (worker_entered s) (inbox s) (open0 s) (open1 s)
              (line s (str "shutdown: PASS"))).

(** Before the join returns, the worker has nothing to receive. *)
Record waiting (s : state) : Prop := mkWaiting {
  wt_worker : worker s = Entering \/ worker s = Announcing \/ worker s = InRecv;
  wt_main : main_at s = Spinning \/ main_at s = Requesting \/ main_at s = Joining;
  wt_entered : worker_entered s = true <-> worker s <> Entering;
  wt_main_entered : main_at s <> Spinning -> worker_entered s = true;
  wt_inbox : inbox s = [];
  wt_open : open1 s = true;
}.

Lemma start_waiting : waiting start.
Proof. split; simpl; auto; split; congruence. Qed.

Lemma step_waiting s s' : waiting s -> step s s' -> waiting s'.
Proof.
  intros [Hw Hm He Hme Hi Ho] Hs.
  destruct Hs; try (exfalso; intuition congruence); split; simpl in *; intuition congruence.
Qed.

(** From a waiting state the threads run into the join and the [recv]. *)
Lemma waiting_deadlocks s :
  waiting s -> exists s', rtc step s s' /\ worker s' = InRecv /\ main_at s' = Joining /\ waiting s'.
Proof.
  assert (Hrecv : forall s, waiting s -> worker s = InRecv ->
    exists s', rtc step s s' /\ worker s' = InRecv /\ main_at s' = Joining /\ waiting s').
  { assert (Hreq : forall s, waiting s -> worker s = InRecv -> main_at s = Requesting ->
      exists s', rtc step s s' /\ worker s' = InRecv /\ main_at s' = Joining /\ waiting s').
    { intros s1 Hwt Hw Hm. eexists. split; [eapply rtc_once, Main_requests, Hm|].
      split; [done|]. split; [done|]. eapply step_waiting; [exact Hwt|by apply Main_requests]. }
    intros s1 Hwt Hw. destruct (wt_main _ Hwt) as [Hm|[Hm|Hm]]; [|by apply Hreq|by exists s1].
    assert (He : worker_entered s1 = true) by (apply (wt_entered _ Hwt); congruence).
    pose proof (Main_sees_worker s1 Hm He) as Hs. pose proof (step_waiting _ _ Hwt Hs) as Hwt'.
    destruct (Hreq _ Hwt' Hw eq_refl) as (s' & Hr & ?). exists s'. split; [by eapply rtc_l|done]. }
  assert (Hann : forall s, waiting s -> worker s = Announcing ->
    exists s', rtc step s s' /\ worker s' = InRecv /\ main_at s' = Joining /\ waiting s').
  { intros s1 Hwt Hw. pose proof (Worker_announces s1 Hw) as Hs.
    destruct (Hrecv _ (step_waiting _ _ Hwt Hs) eq_refl) as (s' & Hr & ?).
    exists s'. split; [by eapply rtc_l|done]. }
  intros Hwt. destruct (wt_worker _ Hwt) as [Hw|[Hw|Hw]]; [|by apply Hann|by apply Hrecv].
  pose proof (Worker_enters s Hw) as Hs.
  destruct (Hann _ (step_waiting _ _ Hwt Hs) eq_refl) as (s' & Hr & ?).
  exists s'. split; [by eapply rtc_l|done].
Qed.

(** The fixture hangs.  In no schedule does the program get past its join or
    close the end whose closing would wake the worker, and from every state it
    reaches it can run on into one from which no thread can move: the worker in
    [recv] on an empty socket whose other end is open, [main] in the join. *)
Theorem shutdown_hangs s :
  rtc step start s ->
  (main_at s = Spinning \/ main_at s = Requesting \/ main_at s = Joining) /\ open1 s = true
  /\ exists s', rtc step s s' /\ (forall s'', ~ step s' s'')
       /\ worker s' = InRecv /\ main_at s' = Joining.
Proof.
  intros Hr. assert (waiting s) as Hwt.
  { clear - Hr. remember start as s0 eqn:E. assert (waiting s0) as H0 by (subst; apply start_waiting).
    clear E. induction Hr; [done|]. apply IHHr. by eapply step_waiting. }
  split; [apply Hwt|]. split; [apply Hwt|].
  destruct (waiting_deadlocks s Hwt) as (s' & Hrun & Hw & Hm & Hwt'). exists s'.
  split; [done|]. split; [|done]. pose proof (wt_inbox _ Hwt'). pose proof (wt_open _ Hwt').
  intros s'' Hs. destruct Hs; congruence.
Qed.

Lemma shutdown_hangs_witness :
  let s := mkState Announcing Spinning true [] true true [] in
  (main_at s = Spinning \/ main_at s = Requesting \/ main_at s = Joining) /\ open1 s = true
  /\ exists s', rtc step s s' /\ (forall s'', ~ step s' s'')
       /\ worker s' = InRecv /\ main_at s' = Joining.
Proof. apply shutdown_hangs. apply rtc_once. by apply (Worker_enters start). Defined.
End MockB.
