(* ===== verification/Races.v ===== *)
(** * The racing counters ([labs/debugging/tsan-starter.cpp],
      [interview/fixtures/day10/tsan_race.cpp])

    Threads that increment one plain variable.  An increment is two accesses, the
    load and the store, and a schedule interleaves the accesses.  C++ gives such a
    program no meaning, because two of its accesses conflict and are not ordered;
    [conflict] is that condition, and the results are what the accesses give when
    each is taken as one step, which is the fault that the exercises show. *)

From stdpp Require Import base list strings.
From Stdlib Require Import Strings.Byte ZArith Lia.
From S2P Require Import Prelude Numeric.

(** A thread: the turns its loop still has to make, and the value it has loaded
    and not yet stored. *)
Record racer := mkRacer { rc_left : Z; rc_loaded : option Z }.
Record race := mkRace { rc_value : Z; racers : list racer }.

Section Race.
(** The type of the variable: what an increment leaves of a value. *)
Context (wrap : Z -> Z).

(** One access of thread [i] to the variable. *)
Definition access (s : race) (i : nat) : race :=
  match racers s !! i with
  | Some (mkRacer turns None) =>
      if 0 <? turns then mkRace (rc_value s) (<[i := mkRacer turns (Some (rc_value s))]> (racers s)) else s
  | Some (mkRacer turns (Some v)) =>
      mkRace (wrap (v + 1)) (<[i := mkRacer (turns - 1) None]> (racers s))
  | None => s
  end.

Definition race_start (threads increments : Z) : race :=
  mkRace 0 (replicate (Z.to_nat threads) (mkRacer increments None)).

(** The joins return when all loops are over. *)
Definition over (r : racer) : bool :=
  (rc_left r =? 0) && match rc_loaded r with None => true | Some _ => false end.

(** The variable after the joins; a schedule that ends before the loops do leaves
    the program in a join. *)
Definition race_result (threads increments : Z) (schedule : list nat) : outcome Z :=
  let s := foldl access (race_start threads increments) schedule in
  if forallb over (racers s) then Done (rc_value s) else OutOfFuel.

(** Two threads are about to store: conflicting accesses that nothing orders. *)
Definition conflict (s : race) : Prop :=
  exists i j a b, i <> j /\ racers s !! i = Some a /\ racers s !! j = Some b
    /\ rc_loaded a <> None /\ rc_loaded b <> None.
End Race.

(** ** The programs *)

(** [tsan-starter.cpp]: four workers, a [std::uint64_t]. *)
Definition tsan_starter_main (schedule : list nat) : outcome exited :=
  let worker_count := 4 in
  let increments := 250000 in
  let* completed := race_result u64 worker_count increments schedule in
  Done (mkExited (if completed =? u64 (worker_count * increments) then 0 else 1)
          (str "completed=" ++ show_unsigned completed ++ newline) []).

(** [tsan_race.cpp]: two threads, an [int], which cannot overflow here. *)
Definition tsan_race_main (schedule : list nat) : outcome exited :=
  let* value := race_result (fun v => v) 2 100000 schedule in
  Done (mkExited (if value =? 200000 then 0 else 1) [] []).

(** ** What the schedules can give *)

Section Bounds.
Context (wrap : Z -> Z) (threads increments : Z).
Context (Hthreads : 0 <= threads) (Hincrements : 0 <= increments).
Context (Hwrap : forall v, 0 <= v <= threads * increments -> wrap v = v).

(** The stores made so far bound every value there is. *)
Record race_inv (s : race) : Prop := mkRaceInv {
  ri_len : len (racers s) = threads;
  ri_left : Forall (fun r => 0 <= rc_left r <= increments) (racers s);
  ri_busy : Forall (fun r => rc_loaded r <> None -> 0 < rc_left r) (racers s);
  ri_value : 0 <= rc_value s <= threads * increments - sum_by rc_left (racers s);
  ri_loaded : Forall (fun r => forall v, rc_loaded r = Some v ->
      0 <= v <= threads * increments - sum_by rc_left (racers s)) (racers s);
  ri_some : sum_by rc_left (racers s) < threads * increments -> 0 < rc_value s;
}.

Lemma race_start_inv : race_inv (race_start threads increments).
Proof.
  assert (Hs : sum_by rc_left (racers (race_start threads increments)) = threads * increments).
  { simpl. rewrite sum_by_replicate, Z2Nat.id by lia. done. }
  split; rewrite ?Hs; try (apply Forall_replicate; simpl); try (simpl; lia); try done.
  simpl. rewrite len_replicate. lia.
Qed.

Lemma sum_left_nonneg s : race_inv s -> 0 <= sum_by rc_left (racers s).
Proof.
  intros Hs. pose proof (ri_left s Hs) as H. clear Hs.
  induction H as [|r l Hr _ IH]; [done|]. rewrite sum_by_cons. lia.
Qed.

Lemma access_inv s i : race_inv s -> race_inv (access wrap s i).
Proof.
  intros Hs. unfold access. destruct (racers s !! i) as [[turns [v|]]|] eqn:Hi; [| |done].
  - destruct Hs as [Hl Hleft Hbusy Hv Hld Hsome].
    pose proof (Forall_lookup_1 _ _ _ _ Hleft Hi) as Hr. simpl in Hr.
    pose proof (Forall_lookup_1 _ _ _ _ Hbusy Hi ltac:(done)) as Hb. simpl in Hb.
    pose proof (Forall_lookup_1 _ _ _ _ Hld Hi v eq_refl) as Hvl.
    pose proof (sum_left_nonneg s (mkRaceInv s Hl Hleft Hbusy Hv Hld Hsome)) as Hsum.
    assert (turns <= sum_by rc_left (racers s)) as Hle.
    { clear -Hleft Hi. revert i Hi. induction (racers s) as [|r l IH]; intros [|i] Hi; simplify_eq/=;
        apply Forall_cons in Hleft as [Hr Hl]; rewrite sum_by_cons.
      - assert (0 <= sum_by rc_left l); [|simpl; lia]. clear -Hl. induction Hl; [done|]. rewrite sum_by_cons. lia.
      - specialize (IH Hl i Hi). lia. }
    rewrite Hwrap by lia. split; simpl; rewrite ?len_insert, ?(sum_by_insert _ _ _ _ _ Hi); simpl; try lia;
      try done; try (apply Forall_insert; [|simpl; try lia; done]; try done).
    eapply Forall_impl; [exact Hld|]. intros r H u Hu. specialize (H u Hu). simpl in H. lia.
  - destruct (Z.ltb_spec 0 turns) as [Hpos|]; [|done]. destruct Hs as [Hl Hleft Hbusy Hv Hld Hsome].
    pose proof (Forall_lookup_1 _ _ _ _ Hleft Hi) as Hr. simpl in Hr.
    split; simpl; rewrite ?len_insert, ?(sum_by_insert _ _ _ _ _ Hi); simpl;
      replace (sum_by rc_left (racers s) - turns + turns) with (sum_by rc_left (racers s)) by lia;
      try done; apply Forall_insert; try done; simpl. intros v [= <-]. done.
Qed.

Lemma race_run_inv schedule s : race_inv s -> race_inv (foldl (access wrap) s schedule).
Proof.
  revert s. induction schedule as [|i schedule IH]; intros s Hs; [done|]. simpl.
  by apply IH, access_inv.
Qed.

Lemma over_none l : forallb over l = true -> sum_by rc_left l = 0.
Proof.
  induction l as [|r l IH]; [done|]. simpl. unfold over at 1. intros H. reflect_bools.
  rewrite sum_by_cons, IH by done. lia.
Qed.

Lemma race_result_bounds schedule v :
  0 < threads * increments -> race_result wrap threads increments schedule = Done v ->
  1 <= v <= threads * increments.
Proof.
  intros Hpos. unfold race_result. pose proof (race_run_inv schedule _ race_start_inv) as Hinv.
  destruct (forallb over _) eqn:Hover; [|done]. intros [= <-].
  pose proof (over_none _ Hover) as H0. destruct Hinv. lia.
Qed.
End Bounds.

Section Schedules.
Context (wrap : Z -> Z) (limit : Z) (Hwrap : forall v, 0 <= v <= limit -> wrap v = v).

Lemma insert_middle (l k : list racer) r r' : <[length l := r']> (l ++ r :: k) = l ++ r' :: k.
Proof. rewrite insert_app_r_alt by done. by rewrite Nat.sub_diag. Qed.

Lemma access_load l k turns v :
  0 < turns ->
  access wrap (mkRace v (l ++ mkRacer turns None :: k)) (length l)
  = mkRace v (l ++ mkRacer turns (Some v) :: k).
Proof.
  intros Ht. unfold access. cbn [racers rc_value].
  rewrite list_lookup_middle, (proj2 (Z.ltb_lt _ _)) by done. by rewrite insert_middle.
Qed.

Lemma access_store l k turns v u :
  0 <= u < limit ->
  access wrap (mkRace v (l ++ mkRacer turns (Some u) :: k)) (length l)
  = mkRace (u + 1) (l ++ mkRacer (turns - 1) None :: k).
Proof.
  intros Hu. unfold access. cbn [racers rc_value].
  rewrite list_lookup_middle by done. by rewrite insert_middle, Hwrap by lia.
Qed.

(** A thread that runs alone loses nothing. *)
Lemma run_alone l k n v :
  0 <= v -> v + Z.of_nat n <= limit ->
  foldl (access wrap) (mkRace v (l ++ mkRacer (Z.of_nat n) None :: k)) (replicate (n + n) (length l))
  = mkRace (v + Z.of_nat n) (l ++ mkRacer 0 None :: k).
Proof.
  revert v. induction n as [|n IH]; intros v Hv Hlim; [simpl; by rewrite Z.add_0_r|].
  replace (S n + S n)%nat with (S (S (n + n))) by lia. cbn [replicate foldl].
  rewrite access_load, access_store by lia.
  replace (Z.of_nat (S n) - 1) with (Z.of_nat n) by lia. rewrite IH by lia. f_equal. lia.
Qed.

Fixpoint one_by_one (n first m : nat) : list nat :=
  match m with O => [] | S m => replicate (n + n) first ++ one_by_one n (S first) m end.

Lemma run_one_by_one n m l v :
  0 <= v -> v + Z.of_nat m * Z.of_nat n <= limit ->
  foldl (access wrap) (mkRace v (l ++ replicate m (mkRacer (Z.of_nat n) None))) (one_by_one n (length l) m)
  = mkRace (v + Z.of_nat m * Z.of_nat n) (l ++ replicate m (mkRacer 0 None)).
Proof.
  revert l v. induction m as [|m IH]; intros l v Hv Hlim; [simpl; f_equal; lia|].
  cbn [one_by_one replicate]. rewrite foldl_app, run_alone by nia.
  change (?x :: ?y) with ([x] ++ y). rewrite !app_assoc.
  replace (S (length l)) with (length (l ++ [mkRacer 0 None])) by (rewrite length_app; simpl; lia).
  rewrite IH by nia. f_equal. nia.
Qed.

Lemma sweep_loads m l turns v :
  0 < turns ->
  foldl (access wrap) (mkRace v (l ++ replicate m (mkRacer turns None))) (seq (length l) m)
  = mkRace v (l ++ replicate m (mkRacer turns (Some v))).
Proof.
  intros Ht. revert l. induction m as [|m IH]; intros l; [done|]. cbn [seq replicate foldl].
  rewrite access_load by done. change (?x :: ?y) with ([x] ++ y). rewrite !app_assoc.
  replace (S (length l)) with (length (l ++ [mkRacer turns (Some v)])) by (rewrite length_app; simpl; lia).
  by rewrite IH.
Qed.

Lemma sweep_stores m l turns v u :
  0 <= u < limit ->
  foldl (access wrap) (mkRace v (l ++ replicate m (mkRacer turns (Some u)))) (seq (length l) m)
  = mkRace (if (m =? 0)%nat then v else u + 1) (l ++ replicate m (mkRacer (turns - 1) None)).
Proof.
  intros Hu. revert l v. induction m as [|m IH]; intros l v; [done|]. cbn [seq replicate foldl].
  rewrite access_store by done. change (?x :: ?y) with ([x] ++ y). rewrite !app_assoc.
  replace (S (length l)) with (length (l ++ [mkRacer (turns - 1) None])) by (rewrite length_app; simpl; lia).
  rewrite IH. by destruct m.
Qed.

Lemma loads_all m turns v :
  0 < turns ->
  foldl (access wrap) (mkRace v (replicate m (mkRacer turns None))) (seq 0 m)
  = mkRace v (replicate m (mkRacer turns (Some v))).
Proof. exact (sweep_loads m [] turns v). Qed.

Lemma stores_all m turns v u :
  0 <= u < limit ->
  foldl (access wrap) (mkRace v (replicate m (mkRacer turns (Some u)))) (seq 0 m)
  = mkRace (if (m =? 0)%nat then v else u + 1) (replicate m (mkRacer (turns - 1) None)).
Proof. exact (sweep_stores m [] turns v u). Qed.

(** All threads load, then all store: a round adds one. *)
Definition round (m : nat) : list nat := seq 0 m ++ seq 0 m.

Lemma run_rounds n m v :
  (0 < m)%nat -> 0 <= v -> v + Z.of_nat n <= limit ->
  foldl (access wrap) (mkRace v (replicate m (mkRacer (Z.of_nat n) None))) (concat (replicate n (round m)))
  = mkRace (v + Z.of_nat n) (replicate m (mkRacer 0 None)).
Proof.
  intros Hm. revert v. induction n as [|n IH]; intros v Hv Hlim; [simpl; f_equal; lia|].
  cbn [replicate concat]. unfold round at 1. rewrite !foldl_app.
  rewrite loads_all, stores_all by lia.
  replace (Z.of_nat (S n) - 1) with (Z.of_nat n) by lia.
  rewrite (proj2 (Nat.eqb_neq m 0)) by lia. rewrite IH by lia. f_equal. lia.
Qed.

Lemma all_over m : forallb over (replicate m (mkRacer 0 None)) = true.
Proof. by induction m. Qed.

(** With two threads or more there are schedules that lose no increment, one in
    which all threads but one count for nothing, and one with a conflict. *)
Lemma race_outcomes threads increments :
  2 <= threads -> 1 <= increments -> threads * increments <= limit ->
  (exists schedule, race_result wrap threads increments schedule = Done (threads * increments))
  /\ (exists schedule, race_result wrap threads increments schedule = Done increments)
  /\ exists schedule, conflict (foldl (access wrap) (race_start threads increments) schedule).
Proof.
  intros Ht Hi Hlim. unfold race_result, race_start.
  set (m := Z.to_nat threads). set (n := Z.to_nat increments).
  assert (Hn : increments = Z.of_nat n) by lia. rewrite Hn in *.
  assert (Hm : threads = Z.of_nat m) by lia. split; [|split].
  - exists (one_by_one n 0 m). pose proof (run_one_by_one n m [] 0) as Hrun. cbn [app length] in Hrun.
    rewrite Hrun by nia. cbn [racers rc_value].
    rewrite all_over. f_equal. nia.
  - exists (concat (replicate n (round m))). rewrite run_rounds by nia. cbn [racers rc_value].
    by rewrite all_over.
  - exists (seq 0 m). rewrite loads_all by lia. exists 0%nat, 1%nat. do 2 eexists.
    split; [done|]. cbn [racers]. rewrite !lookup_replicate_2 by lia. done.
Qed.
End Schedules.

(** ** Property *)

(** Unsynchronised counting loses increments.  Whatever the interleaving of
    the accesses, the starter ends with a count of at least one and at most all
    increments and exits with 0 only for all; it can end with all of them, and it
    can end with those of one worker only and exit with 1; and two of its threads
    can be about to store at once, the conflict that leaves the program without a
    meaning.  The two-thread program is the same. *)
Theorem plain_counter_loses_increments :
  (forall schedule e, tsan_starter_main schedule = Done e ->
     exists v, 1 <= v <= 1000000
       /\ e = mkExited (if v =? 1000000 then 0 else 1) (str "completed=" ++ show_unsigned v ++ newline) [])
  /\ (exists schedule, tsan_starter_main schedule
        = Done (mkExited 0 (str "completed=" ++ show_unsigned 1000000 ++ newline) []))
  /\ (exists schedule, tsan_starter_main schedule
        = Done (mkExited 1 (str "completed=" ++ show_unsigned 250000 ++ newline) []))
  /\ (exists schedule, conflict (foldl (access u64) (race_start 4 250000) schedule))
  /\ (exists schedule, tsan_race_main schedule = Done (mkExited 0 [] []))
  /\ (exists schedule, tsan_race_main schedule = Done (mkExited 1 [] []))
  /\ (exists schedule, conflict (foldl (access (fun v => v)) (race_start 2 100000) schedule)).
Proof.
  assert (Hu : forall v, 0 <= v <= 1000000 -> u64 v = v) by (intros v Hv; apply u64_small; lia).
  destruct (race_outcomes u64 1000000 Hu 4 250000) as ((s1 & H1) & (s2 & H2) & Hc); [lia..|].
  destruct (race_outcomes (fun v => v) 200000 (fun v _ => eq_refl) 2 100000)
    as ((s3 & H3) & (s4 & H4) & Hc'); [lia..|].
  split; [|split_and!; try done].
  - intros schedule e. unfold tsan_starter_main. intros (v & Hv & He)%obind_Done_inv.
    apply race_result_bounds in Hv; [|lia|lia|done|lia]. injection He as <-. by exists v.
  - exists s1. unfold tsan_starter_main. by rewrite H1.
  - exists s2. unfold tsan_starter_main. by rewrite H2.
  - exists s3. unfold tsan_race_main. by rewrite H3.
  - exists s4. unfold tsan_race_main. by rewrite H4.
Qed.
