(* ===== verification/LineReversal.v ===== *)
(** * The line-reversal starter ([interview/quantiq-line-reversal/starter.cpp])

    The program around the function that is still to be written: it checks its
    arguments, refuses to read and write one path, and opens its files.  Two paths
    are compared as [std::filesystem] compares normal forms on POSIX: root
    directory, names, and whether a separator ends the path. *)

From stdpp Require Import base gmap list strings.
From Stdlib Require Import Strings.Byte ZArith Lia.
From S2P Require Import Prelude.

Definition slash : byte := x2f.
Definition dot : bytes := str ".".
Definition dotdot : bytes := str "..".

(** ** Paths *)

(** The texts between the separators. *)
Fixpoint split_path (p : bytes) : list bytes :=
  match p with
  | [] => [[]]
  | b :: p =>
      if decide (b = slash) then [] :: split_path p
      else match split_path p with
           | name :: names => (b :: name) :: names
           | [] => [[b]]
           end
  end.

Definition has_root (p : bytes) : bool :=
  match p with b :: _ => bool_decide (b = slash) | [] => false end.

(** The names so far, the last one first: an empty text or a dot adds nothing, a
    dot-dot takes the name before it, or stays if there is none and no root. *)
Definition add_name (root : bool) (names : list bytes) (text : bytes) : list bytes :=
  if decide (text = [] \/ text = dot) then names
  else if decide (text = dotdot) then
    match names with
    | name :: rest => if decide (name = dotdot) then dotdot :: names else rest
    | [] => if root then [] else [dotdot]
    end
  else text :: names.

Record normal_path := mkNormal { np_root : bool; np_names : list bytes; np_trailing : bool }.

#[global] Instance normal_path_eq_decision : EqDecision normal_path.
Proof. solve_decision. Defined.

(** A path that ends in a separator, a dot or a dot-dot ends in a separator when a
    name other than a dot-dot is before it. *)
Definition ends_in_separator (texts : list bytes) (names : list bytes) : bool :=
  match last texts, names with
  | Some text, name :: _ =>
      bool_decide (text = [] \/ text = dot \/ text = dotdot) && negb (bool_decide (name = dotdot))
  | _, _ => false
  end.

Definition lexically_normal (p : bytes) : normal_path :=
  let root := has_root p in
  let texts := split_path p in
  let names := foldl (add_name root) [] texts in
  mkNormal root (rev names) (ends_in_separator texts names).

(** ** The program *)

(** [cwd] is the working directory, [absolute_of_empty] what the library does with
    an empty path; [resolve] is the file that a path names, [can_read] and
    [can_write] whether it can be opened. *)
Record filesystem := mkFilesystem {
  cwd : bytes;
  absolute_of_empty : outcome bytes;
  resolve : bytes -> nat;
  can_read : bytes -> bool;
  can_write : bytes -> bool;
}.

Definition files := gmap nat bytes.

Definition absolute (fs : filesystem) (p : bytes) : outcome bytes :=
  match p with
  | [] => absolute_of_empty fs
  | _ => Done (if has_root p then p else cwd fs ++ slash :: p)
  end.

(** [operator<<] of a path: quotes around it, and a backslash before a quote or a
    backslash. *)
Definition quoted (p : bytes) : bytes :=
  [x22] ++ mjoin (map (fun b => if decide (b = x22 \/ b = x5c) then [x5c; b] else [b]) p) ++ [x22].

(** Opening the output truncates it; the reversal is to come. *)
Definition reverse_lines (fs : filesystem) (input_path output_path : bytes) (f : files) : exited * files :=
  if negb (can_read fs input_path) then
    (mkExited 1 [] (str "cannot open input: " ++ quoted input_path ++ newline), f)
  else if negb (can_write fs output_path) then
    (mkExited 1 [] (str "cannot open output: " ++ quoted output_path ++ newline), f)
  else (mkExited 0 [] [], <[resolve fs output_path := []]> f).

Definition reverse_main (fs : filesystem) (argv : list bytes) (f : files) : outcome (exited * files) :=
  match argv with
  | [_; input_path; output_path] =>
      let* input := absolute fs input_path in
      let* output := absolute fs output_path in
      if decide (lexically_normal input = lexically_normal output) then
        Done (mkExited 2 [] (str "input and output must be different paths" ++ newline), f)
      else Done (reverse_lines fs input_path output_path f)
  | _ => Done (mkExited 2 [] (str "usage: reverse-lines INPUT_FILE OUTPUT_FILE" ++ newline), f)
  end.

(** ** Spellings of a path *)

Lemma split_path_app p q :
  split_path (p ++ slash :: q) = split_path p ++ split_path q.
Proof.
  induction p as [|b p IH]; [done|]. cbn [app split_path]. rewrite IH.
  destruct (decide (b = slash)); [done|].
  assert (split_path p <> []) by (by destruct p as [|c p]; cbn; [|repeat case_match]).
  by destruct (split_path p).
Qed.

Lemma split_path_nonempty p : split_path p <> [].
Proof. by destruct p as [|c p]; cbn; [|repeat case_match]. Qed.

Lemma has_root_app p q : p <> [] -> has_root (p ++ q) = has_root p.
Proof. by destruct p. Qed.

(** A name is a text that is no special one. *)
Definition plain (name : bytes) : Prop :=
  name <> [] /\ name <> dot /\ name <> dotdot /\ slash ∉ name.

Lemma split_plain name : slash ∉ name -> split_path name = [name].
Proof.
  induction name as [|b name IH]; [done|]. intros [Hb Hn]%not_elem_of_cons. cbn [split_path].
  rewrite decide_False by congruence. by rewrite IH.
Qed.

(** Doubled separators, dots, and a name with a dot-dot behind it, anywhere in a
    path, do not change its normal form: the guard sees through them. *)
Lemma normal_spellings p q :
  p <> [] ->
  lexically_normal (p ++ str "//" ++ q) = lexically_normal (p ++ str "/" ++ q)
  /\ lexically_normal (p ++ str "/./" ++ q) = lexically_normal (p ++ str "/" ++ q)
  /\ (forall name, plain name ->
        lexically_normal (p ++ str "/" ++ name ++ str "/../" ++ q) = lexically_normal (p ++ str "/" ++ q)).
Proof.
  intros Hp.
  assert (Hgo : forall middle,
    (forall root names, foldl (add_name root) names (split_path middle) = names) ->
    lexically_normal (p ++ slash :: middle ++ slash :: q) = lexically_normal (p ++ slash :: q)).
  { intros middle Hm. unfold lexically_normal, ends_in_separator.
    rewrite !has_root_app, !split_path_app, !foldl_app, Hm by done.
    rewrite !last_app. destruct (last (split_path q)) eqn:Hl; [done|].
    apply last_None in Hl. by destruct (split_path_nonempty q). }
  split; [|split].
  - by apply (Hgo []).
  - by apply (Hgo dot).
  - intros name (Hne & Hdot & Hdd & Hs).
    change (p ++ str "/" ++ name ++ str "/../" ++ q) with (p ++ slash :: name ++ (slash :: dotdot) ++ slash :: q).
    rewrite (app_assoc name). apply Hgo. intros root names. rewrite split_path_app, split_plain by done.
    cbn [app foldl]. change (split_path dotdot) with [dotdot]. cbn [foldl]. unfold add_name at 2.
    rewrite decide_False by tauto. rewrite decide_False by done. unfold add_name.
    rewrite decide_False by (intros [|]; done). rewrite decide_True by done. by rewrite decide_False.
Qed.

(** ** What the starter does *)

(** The files are left alone unless the program exits with 0, and then only the
    output has changed: it is empty.  Two paths with one normal form are refused. *)
Lemma reverse_main_effects fs prog input_path output_path f e f' :
  reverse_main fs [prog; input_path; output_path] f = Done (e, f') ->
  (ex_status e <> 0 -> f' = f /\ ex_stderr e <> [])
  /\ (ex_status e = 0 ->
      f' = <[resolve fs output_path := []]> f
      /\ exists input output, absolute fs input_path = Done input /\ absolute fs output_path = Done output
           /\ lexically_normal input <> lexically_normal output).
Proof.
  unfold reverse_main. intros (input & Hi & Hrest)%obind_Done_inv.
  apply obind_Done_inv in Hrest as (output & Ho & Hrest). case_decide as Heq.
  { injection Hrest as <- <-. by split. }
  unfold reverse_lines in Hrest. destruct (can_read fs input_path), (can_write fs output_path);
    injection Hrest as <- <-; cbn [ex_status ex_stderr]; (split; [intros Hne|intros Hz]);
    first [by split|split; [done|eauto]|done].
Qed.

(** The guard compares spellings and not files: with a link to the input as the
    output path the program exits with 0 and the input is gone. *)
Example guard_misses_links :
  let fs := mkFilesystem (str "/home") (Threw "filesystem_error") (fun _ => 0%nat) (fun _ => true) (fun _ => true) in
  reverse_main fs [str "reverse-lines"; str "input"; str "link"] {[0%nat := str "data"]}
  = Done (mkExited 0 [] [], {[0%nat := []]}).
Proof. vm_compute. reflexivity. Qed.

Example guard_sees_spellings :
  let fs := mkFilesystem (str "/home") (Threw "filesystem_error") (fun _ => 0%nat) (fun _ => true) (fun _ => true) in
  reverse_main fs [str "reverse-lines"; str "input"; str "/home//x/.././input"] {[0%nat := str "data"]}
  = Done (mkExited 2 [] (str "input and output must be different paths" ++ newline), {[0%nat := str "data"]}).
Proof. vm_compute. reflexivity. Qed.
