(* ===== verification/Diagnostic.v ===== *)
(** * The practical diagnostic ([diagnostic/baseline.hpp], [baseline.cpp], [tests.cpp])

    [inspect_first_frame] is an exercise: the header says what it should return,
    the file it comes with returns a default, and a program of six cases checks it.
    Here is the contract of the header in terms of the frames of the wire protocol
    ([Protocol.v]), the function as it is, and the program for any function. *)

From stdpp Require Import base list strings.
From Stdlib Require Import Strings.Byte ZArith Lia.
From S2P Require Import Prelude ByteOrder Posix Numeric Protocol.

Inductive HeaderStatus := incomplete | ready | too_large.

#[global] Instance HeaderStatus_eq_dec : EqDecision HeaderStatus.
Proof. solve_decision. Defined.

Record HeaderResult := mkHeader { hr_status : HeaderStatus; hr_frame_bytes : Z }.

(** As [baseline.cpp] has it. *)
Definition inspect_first_frame (data : bytes) (max_payload : Z) : HeaderResult :=
  mkHeader incomplete 0.

(** ** The contract *)

(** What the header asks for: the state of the first length-prefixed frame, and of
    a complete one the bytes with its header. *)
Inductive inspects (data : bytes) (max_payload : Z) : HeaderResult -> Prop :=
| Inspects_ready payload rest :
    data = frame_of payload ++ rest -> len payload <= u32_max -> len payload <= max_payload ->
    inspects data max_payload (mkHeader ready (len (frame_of payload)))
| Inspects_too_large n rest frame_bytes :
    data = be32 n ++ rest -> 0 <= n <= u32_max -> max_payload < n ->
    inspects data max_payload (mkHeader too_large frame_bytes)
| Inspects_short frame_bytes :
    len data < 4 -> inspects data max_payload (mkHeader incomplete frame_bytes)
| Inspects_partial n rest frame_bytes :
    data = be32 n ++ rest -> 0 <= n <= u32_max -> n <= max_payload -> len rest < n ->
    inspects data max_payload (mkHeader incomplete frame_bytes).

(** ** The program of the cases *)

(** [expect]: a case that fails is counted and named. *)
Definition expect (condition : bool) (message : bytes) (failed : list bytes) : list bytes :=
  if condition then failed else failed ++ [message].

Definition is_status (status : HeaderStatus) (result : HeaderResult) : bool :=
  bool_decide (hr_status result = status).
Definition is_frame (frame_bytes : Z) (result : HeaderResult) : bool :=
  is_status ready result && (hr_frame_bytes result =? frame_bytes).

(** [bytes({...})]. *)
Definition bytes_of (values : list Z) : bytes := map z2b values.

(** The cases of [main] in their order, with what each expects. *)
Definition cases : list (bytes * (HeaderResult -> bool) * bytes) :=
  [(bytes_of [0; 0; 0], is_status incomplete,
      str "fewer than four header bytes are incomplete");
   (bytes_of [0; 0; 0; 5] ++ str "hi", is_status incomplete,
      str "a complete header does not imply a complete payload");
   (bytes_of [0; 0; 0; 5] ++ str "hello", is_frame 9,
      str "big-endian length yields the exact first-frame byte count");
   (bytes_of [0; 0; 0; 0], is_frame 4,
      str "a zero-length payload is a complete four-byte frame");
   (bytes_of [0; 0; 4; 1], is_status too_large,
      str "an oversized length is rejected before payload allocation");
   (bytes_of [0; 0; 0; 1] ++ str "a" ++ bytes_of [0; 0; 0; 1] ++ str "b", is_frame 5,
      str "inspection stops exactly after the first complete frame")].

Definition run_cases (inspect : bytes -> Z -> HeaderResult) : list bytes :=
  foldl (fun failed '(data, holds, message) => expect (holds (inspect data 1024)) message failed) [] cases.

Definition main (inspect : bytes -> Z -> HeaderResult) : exited :=
  let failed := run_cases inspect in
  let log := concat (map (fun message => str "FAIL: " ++ message ++ newline) failed) in
  if len failed =? 0 then mkExited 0 (str "Practical diagnostic: PASS" ++ newline) log
  else mkExited 1 [] (log ++ show_unsigned (len failed) ++ str " diagnostic case(s) remain" ++ newline).

(** ** The contract decides *)

Lemma be32_prefix n m rest rest' :
  0 <= n <= u32_max -> 0 <= m <= u32_max -> be32 n ++ rest = be32 m ++ rest' -> n = m /\ rest = rest'.
Proof.
  unfold u32_max. intros Hn Hm Heq. apply app_inj_1 in Heq as [Hb ->]; [|done].
  split; [|done]. rewrite <- (be_value_be32 n), <- (be_value_be32 m) by lia. by rewrite Hb.
Qed.

Lemma inspects_header data n rest max_payload r :
  data = be32 n ++ rest -> 0 <= n <= u32_max -> inspects data max_payload r ->
  hr_status r = (if max_payload <? n then too_large else if len rest <? n then incomplete else ready)
  /\ (hr_status r = ready -> hr_frame_bytes r = 4 + n).
Proof.
  intros -> Hn Hr. destruct Hr as [payload tail Heq Hp Hmax|n' tail fb Heq Hn' Hmax|fb Hlt|n' tail fb Heq Hn' Hmax Hlt].
  - unfold frame_of in Heq. rewrite <- app_assoc in Heq.
    apply be32_prefix in Heq as [-> ->]; [|done|split; [apply len_nonneg|done]].
    rewrite (proj2 (Z.ltb_ge _ _)) by lia. pose proof (len_nonneg tail).
    rewrite (proj2 (Z.ltb_ge _ _)) by (rewrite len_app; lia). simpl. by rewrite len_frame_of.
  - apply be32_prefix in Heq as [-> ->]; [|done..]. by rewrite (proj2 (Z.ltb_lt _ _)) by lia.
  - rewrite len_app in Hlt. change (len (be32 n)) with 4 in Hlt. pose proof (len_nonneg rest). lia.
  - apply be32_prefix in Heq as [-> ->]; [|done..]. rewrite (proj2 (Z.ltb_ge _ _)) by lia.
    by rewrite (proj2 (Z.ltb_lt _ _)) by lia.
Qed.

(** The diagnostic accepts what the contract asks for.  A function that returns,
    for every input, what the header of the exercise says about the first frame
    passes all six cases.  The function as it comes fails four of them, and the
    program then exits with 1. *)
Theorem diagnostic_accepts_contract inspect :
  (forall data max_payload, 0 <= max_payload -> inspects data max_payload (inspect data max_payload)) ->
  main inspect = mkExited 0 (str "Practical diagnostic: PASS" ++ newline) []
  /\ ex_status (main inspect_first_frame) = 1 /\ len (run_cases inspect_first_frame) = 4.
Proof.
  intros Hall. split; [|by vm_compute].
  assert (Hcase : forall n rest, 0 <= n <= u32_max ->
    let r := inspect (be32 n ++ rest) 1024 in
    hr_status r = (if 1024 <? n then too_large else if len rest <? n then incomplete else ready)
    /\ (hr_status r = ready -> hr_frame_bytes r = 4 + n)).
  { intros n rest Hn. eapply inspects_header; [done|done|by apply Hall]. }
  assert (Hshort : hr_status (inspect (bytes_of [0; 0; 0]) 1024) = incomplete).
  { destruct (Hall (bytes_of [0; 0; 0]) 1024 ltac:(lia)) as [payload rest Heq| n rest fb Heq|fb Hlt|n rest fb Heq];
      try done; apply (f_equal len) in Heq; unfold frame_of in Heq; rewrite ?len_app in Heq;
      change (len (be32 _)) with 4 in Heq; change (len (bytes_of _)) with 3 in Heq;
      pose proof (len_nonneg rest); try (pose proof (len_nonneg payload)); lia. }
  assert (Hfailed : run_cases inspect = []); [|unfold main; by rewrite Hfailed].
  destruct (Hcase 5 (str "hi") ltac:(by vm_compute)) as [H1 _].
  destruct (Hcase 5 (str "hello") ltac:(by vm_compute)) as [H2 H2'].
  destruct (Hcase 0 [] ltac:(by vm_compute)) as [H3 H3'].
  destruct (Hcase 1025 [] ltac:(by vm_compute)) as [H4 _].
  destruct (Hcase 1 (str "a" ++ bytes_of [0; 0; 0; 1] ++ str "b") ltac:(by vm_compute)) as [H5 H5'].
  vm_compute in Hshort, H1, H2, H2', H3, H3', H4, H5, H5'. vm_compute.
  rewrite Hshort, H1, H2, H3, H4, H5, (H2' H2), (H3' H3), (H5' H5). done.
Qed.

(** ** Witness *)

(** The function the exercise asks for. *)
Definition inspect_contract (data : bytes) (max_payload : Z) : HeaderResult :=
  if len data <? 4 then mkHeader incomplete 0
  else
    let n := be_value (take 4 data) 0 in
    if max_payload <? n then mkHeader too_large 0
    else if len (drop 4 data) <? n then mkHeader incomplete 0
    else mkHeader ready (4 + n).

Lemma inspect_contract_ok data max_payload :
  0 <= max_payload -> inspects data max_payload (inspect_contract data max_payload).
Proof.
  intros Hmax. unfold inspect_contract. destruct (Z.ltb_spec (len data) 4) as [|Hge]; [by constructor|].
  assert (Hl : length (take 4 data) = 4%nat) by (rewrite length_take; unfold len in Hge; lia).
  pose proof (be_value_range (take 4 data)) as Hr. rewrite Hl in Hr. set (n := be_value (take 4 data) 0) in *.
  assert (0 <= n <= u32_max) as Hn by (unfold u32_max; lia).
  assert (Hd : data = be32 n ++ drop 4 data) by (unfold n; rewrite be32_be_value by done; by rewrite take_drop).
  destruct (Z.ltb_spec max_payload n); [by eapply Inspects_too_large|].
  destruct (Z.ltb_spec (len (drop 4 data)) n); [by eapply Inspects_partial|].
  assert (len (take (Z.to_nat n) (drop 4 data)) = n) as Hp
    by (unfold len in *; rewrite length_take; lia).
  rewrite <- Hp at 1. rewrite <- len_frame_of. apply Inspects_ready with (rest := drop (Z.to_nat n) (drop 4 data)); [|lia|lia].
  unfold frame_of. rewrite Hp, <- app_assoc, take_drop. done.
Qed.

Lemma diagnostic_accepts_contract_witness :
  main inspect_contract = mkExited 0 (str "Practical diagnostic: PASS" ++ newline) []
  /\ ex_status (main inspect_first_frame) = 1 /\ len (run_cases inspect_first_frame) = 4.
Proof. apply (diagnostic_accepts_contract inspect_contract). intros. by apply inspect_contract_ok. Defined.
