(* ===== verification/Scaffolds.v ===== *)
(** * The learner's scaffolds ([capstone/work], [capstone/matching/work])

    The two capstones come with a workspace in which every function compiles and
    does next to nothing; the programs and most headers are those of the reference.
    Here are the functions as the workspace has them, on the types of the reference,
    and what its programs do with them until the functions are written. *)

From stdpp Require Import base gmap list strings.
From Stdlib Require Import Strings.Byte ZArith Lia.
From S2P Require Import Prelude ByteOrder Posix Numeric Protocol Commands Store DurableLog Wal Server Startup AcceptLoop Client UniqueFd Packet OrderBook Engine Programs.

(** ** The key-value server ([capstone/work]) *)

Module Work.

(** *** Descriptors ([unique_fd.hpp]) *)

(** [reset] forgets the descriptor, and so do destruction and assignment; a move
    leaves it where it was as well. *)
Definition reset (replacement fd_ : Z) : Z := replacement.

Definition fd_step (op : fd_op) (st : fds) : option fds :=
  match op with
  | Construct fd =>
      Some (mkFds (objects st ++ [Some fd]) (closes st) (handed_in st ++ [fd]) (handed_out st))
  | MoveConstruct w =>
      match objects st !! w with
      | Some (Some other) =>
          Some (mkFds (objects st ++ [Some other]) (closes st) (handed_in st) (handed_out st))
      | _ => None
      end
  | MoveAssign v w =>
      match objects st !! v, objects st !! w with
      | Some (Some self), Some (Some other) => Some (set_object v (Some other) st)
      | _, _ => None
      end
  | Release v =>
      match objects st !! v with
      | Some (Some self) =>
          let (fd, self) := release self in
          Some (mkFds (<[v := Some self]> (objects st)) (closes st) (handed_in st) (handed_out st ++ [fd]))
      | _ => None
      end
  | Reset v replacement =>
      match objects st !! v with
      | Some (Some self) =>
          Some (mkFds (<[v := Some (reset replacement self)]> (objects st)) (closes st)
                  (handed_in st ++ [replacement]) (handed_out st))
      | _ => None
      end
  | Destroy v =>
      match objects st !! v with
      | Some (Some self) => Some (set_object v None st)
      | _ => None
      end
  end.

Fixpoint fd_run (ops : list fd_op) (st : fds) : option fds :=
  match ops with
  | [] => Some st
  | op :: ops => match fd_step op st with Some st => fd_run ops st | None => None end
  end.

(** *** The queue and the pool ([blocking_queue.hpp], [thread_pool.cpp]) *)

Record BlockingQueue := mkQueue { capacity_ : Z; closed_ : bool }.

Definition new_queue (capacity : Z) : outcome BlockingQueue :=
  if capacity =? 0 then Threw "capacity must be positive" else Done (mkQueue capacity false).
Definition push {A} (value : A) (q : BlockingQueue) : bool := false.
Definition pop {A} (q : BlockingQueue) : option A := None.
Definition close (q : BlockingQueue) : BlockingQueue := mkQueue (capacity_ q) true.
Definition size (q : BlockingQueue) : Z := 0.
Definition closed (q : BlockingQueue) : bool := closed_ q.

Definition new_pool (workers queue_capacity : Z) : outcome BlockingQueue := new_queue queue_capacity.
Definition submit {A} (task : A) (tasks : BlockingQueue) : bool := false.
Definition shutdown (tasks : BlockingQueue) : BlockingQueue := close tasks.
Definition submitted (tasks : BlockingQueue) : Z := 0.
Definition completed (tasks : BlockingQueue) : Z := 0.

(** *** Protocol, commands, packets ([protocol.cpp], [packet.cpp]) *)

Definition encode_frame (payload : bytes) : bytes := [].
Definition io_error : IoResult := mkIoResult IoStatus.error 0 0.
Definition read_exact (fd : Z) (size : Z) : IoResult := io_error.
Definition write_all (fd : Z) (data : bytes) : IoResult := io_error.
Definition recv_frame (fd max_payload : Z) : FrameResult := mkFrameResult IoStatus.error [] 0.
Definition send_frame (fd : Z) (payload : bytes) : IoResult := io_error.
Definition parse_command (payload : bytes) : ParseResult := ParseError (str "not implemented").
Definition valid_key (key : bytes) : bool := false.

Definition decode_ethernet_ipv4_tcp (packet : bytes) : PacketSummary :=
  rejected false (str "not implemented").
Definition parse_hex_bytes (text : bytes) : bytes := [].

(** *** Store and log ([store.cpp], [wal.cpp]) *)

Definition set (store : KvStore) (key value : bytes) : KvStore := store.
Definition get (store : KvStore) (key : bytes) : option bytes := None.
Definition erase (store : KvStore) (key : bytes) : bool * KvStore := (false, store).
Definition store_size (store : KvStore) : Z := 0.

(** Of the members of [Wal] and [Server] those that the workspace sets; the others
    keep their defaults, and no descriptor is ever opened. *)
Record Wal := mkWal { path_ : bytes }.
Definition enabled (wal : Wal) : bool := is_empty (path_ wal).
Definition append_record (record : bytes) (wal : Wal) : bool := is_empty (path_ wal).
Definition append_set (key value : bytes) (wal : Wal) : bool := is_empty (path_ wal).
Definition append_del (key : bytes) (wal : Wal) : bool := is_empty (path_ wal).
Definition recover (store : KvStore) (wal : Wal) : bool * KvStore := (is_empty (path_ wal), store).

(** *** Server and client ([server.cpp], [client.cpp]) *)

Record Server := mkServer {
  options_ : ServerOptions;
  error_ : bytes;
  store_ : KvStore;
  wal_ : Wal;
  pool_ : BlockingQueue;
  stop_requested_ : bool;
}.

Definition new_server (options : ServerOptions) : outcome Server :=
  let* pool := new_pool (Z.max 1 (Server.workers options)) (Z.max 1 (Server.queue_capacity options)) in
  Done (mkServer options (str "not implemented") empty_store (mkWal (wal_path options)) pool false).
Definition ready (s : Server) : bool := false.
Definition port (s : Server) : Z := 0.
Definition error (s : Server) : bytes := error_ s.
Definition run (s : Server) : Server := s.
Definition request_stop (s : Server) : Server :=
  mkServer (options_ s) (error_ s) (store_ s) (wal_ s) (pool_ s) true.
Definition execute (request_text : bytes) (s : Server) : bytes := str "ERR not implemented".

Definition request (host : bytes) (port : Z) (command : bytes) : ClientResult :=
  mkClientResult false [] (str "not implemented").

(** The programs, which the workspace takes over as they are. *)
Definition server_main : list bytes -> outcome exited :=
  ServerMain.main_with new_server ready error
    (fun options server =>
       let server := run server in
       Done (mkExited 0 (str "NetForge listening on " ++ bind_address options ++ str ":"
                           ++ show_unsigned (port server) ++ newline)
               (if is_empty (error server) then []
                else str "server stopped: " ++ error server ++ newline))).
Definition client_main : list bytes -> outcome (exited * bytes) :=
  ClientMain.main_with (fun host port command => Done (request host port command, [])).
End Work.

(** ** The matching engine ([capstone/matching/work]) *)

Module MatchingWork.

(** [order.hpp] repeats the types of the reference, but for [Ack]. *)
Definition Side : Type := OrderBook.Side.
Definition TimeInForce : Type := OrderBook.TimeInForce.
Definition Order : Type := OrderBook.Order.
Definition Fill : Type := OrderBook.Fill.

Definition valid_order (order : Order) : bool := false.

Record OrderBook := mkBook { symbol_ : bytes }.
Definition new_book (symbol : bytes) : OrderBook := mkBook symbol.
Definition add_resting (order : Order) (b : OrderBook) : bool * OrderBook := (false, b).
Definition submit (order : Order) (b : OrderBook) : list Fill * OrderBook := ([], b).
Definition cancel (order_id : Z) (b : OrderBook) : bool * OrderBook := (false, b).
Definition best_bid (b : OrderBook) : option Z := None.
Definition best_ask (b : OrderBook) : option Z := None.
Definition resting_orders (b : OrderBook) : Z := 0.

Record MatchingEngine := mkEngine { books_ : gmap bytes OrderBook; next_sequence_ : Z }.
Definition new_engine : MatchingEngine := mkEngine ∅ 1.
(** [books_.try_emplace(symbol, symbol)]. *)
Definition prepare_symbol (symbol : bytes) (e : MatchingEngine) : MatchingEngine :=
  match books_ e !! symbol with
  | Some _ => e
  | None => mkEngine (<[symbol := new_book symbol]> (books_ e)) (next_sequence_ e)
  end.
Definition engine_submit (order : Order) (e : MatchingEngine) : list Fill * MatchingEngine := ([], e).

Record LockFreeIngress := mkIngress { capacity_ : Z }.
Definition try_push {A} (item : A) (q : LockFreeIngress) : bool := false.
Definition try_pop {A} (q : LockFreeIngress) : option A := None.
Definition capacity (q : LockFreeIngress) : Z := capacity_ q.

Definition generate_mock_orders (count seed : Z) : list Order := [].
Definition serialize_fill_v1 (fill : Fill) : bytes := [].
End MatchingWork.

(** ** What the workspace does *)

(** Nothing is ever closed. *)
Lemma work_never_closes ops st st' : Work.fd_run ops st = Some st' -> closes st' = closes st.
Proof.
  revert st. induction ops as [|op ops IH]; intros st; simpl; [by intros [= <-]|].
  destruct (Work.fd_step op st) as [st1|] eqn:Hs; [|done]. intros Hr. rewrite (IH _ Hr).
  destruct op; simpl in Hs; repeat case_match; simplify_eq; done.
Qed.

(** The workspace's descriptors have no owner.  Its [UniqueFd] never closes a
    descriptor, whatever a program does with its objects, also when all of them are
    destroyed; and after a move both objects hold the same descriptor, which the
    ownership of the reference rules out. *)
Theorem work_fds_leak ops fds0 w fd :
  Work.fd_run ops no_fds = Some fds0 -> objects fds0 !! w = Some (Some fd) ->
  closes fds0 = []
  /\ exists st, Work.fd_step (MoveConstruct w) fds0 = Some st
       /\ objects st !! w = Some (Some fd) /\ objects st !! length (objects fds0) = Some (Some fd)
       /\ exists st', fd_step (MoveConstruct w) fds0 = Some st'
            /\ objects st' !! w = Some (Some (-1)) /\ objects st' !! length (objects fds0) = Some (Some fd).
Proof.
  intros Hr Hw. split; [by rewrite (work_never_closes _ _ _ Hr)|]. simpl. rewrite Hw.
  eexists. split; [done|]. simpl. apply lookup_lt_Some in Hw as Hlt.
  split; [by rewrite lookup_app_l|]. split; [by apply list_lookup_middle|].
  eexists. split; [done|]. simpl. split.
  - rewrite lookup_app_l by (by rewrite length_insert). by apply list_lookup_insert_eq.
  - rewrite lookup_app_r by (rewrite length_insert; lia). by rewrite length_insert, Nat.sub_diag.
Qed.

(** The workspace's programs say that they are not written.  For every command
    line the server program rejects the port or reports that the set-up failed as
    not implemented, and never serves; the client program prints its usage, rejects
    the port or reports that the request failed as not implemented, and sends
    nothing. *)
Theorem work_programs_refuse argv :
  ((exists text, Work.server_main argv = Done (mkExited 2 [] (str "invalid port: " ++ text ++ newline)))
   \/ Work.server_main argv = Done (mkExited 1 [] (str "server setup failed: not implemented" ++ newline)))
  /\ exists r, Work.client_main argv = Done (r, [])
       /\ (r = mkExited 2 [] ClientMain.usage
           \/ (exists text, r = mkExited 2 [] (str "invalid port: " ++ text ++ newline))
           \/ r = mkExited 1 [] (str "request failed: not implemented" ++ newline)).
Proof.
  split; [|unfold Work.client_main, ClientMain.main_with; destruct argv as [|prog [|host [|text [|arg args]]]];
           [by eauto..|destruct (ClientMain.parse_port text 0) as [[] port]; by eauto 10]].
  unfold Work.server_main, ServerMain.main_with.
  assert (Hnew : forall o, exists s, Work.new_server o = Done s /\ Work.error s = str "not implemented").
  { intros o. unfold Work.new_server, Work.new_pool, Work.new_queue.
    destruct (Z.eqb_spec (Z.max 1 (queue_capacity o)) 0); [lia|]. by eexists. }
  destruct argv as [|prog [|text rest]].
  - destruct (Hnew default_options) as (s & -> & He). right. simpl. by rewrite He.
  - destruct (Hnew default_options) as (s & -> & He). right. simpl. by rewrite He.
  - destruct (ServerMain.parse_port text _) as [[] port]; [right|left; by exists text].
    match goal with |- context [Work.new_server ?o] => destruct (Hnew o) as (s & -> & He) end.
    simpl. by rewrite He.
Qed.
